(* ===== verification/_CoqProject ===== *)
-Q . S2P
Prelude.v
Random.v
ObjectRepr.v
Splitter.v
FileSystem.v
Command.v
Requests.v
AsioError.v
Connection.v
ConnectionSpec.v
ServeSpec.v
Client.v
Join.v
Server.v
ClientSpec.v
System.v
OpQueue.v
Buffers.v
ConsumingBuffers.v
SocketOps.v
SocketSpec.v
ReadWrite.v
SocketStream.v
SocketStreamSpec.v
Containers.v
DynamicBuffers.v
ReadDynamic.v
ReadUntil.v
ConnectionIO.v
ChronoTimeTraits.v
TimerQueue.v
TimerQueueSpec.v
TimerMoves.v
TimerQueueRefines.v
Scheduler.v
EpollReactor.v
IoContext.v
ReactorSpec.v
IoContextSpec.v
PerformSpec.v
ResultsSpec.v
Worlds.v
SocketService.v
SocketServiceSpec.v
SocketObjects.v
Connecting.v
EpollSockets.v
Completions.v
RangeConnect.v
Resolver.v
ReactorSetup.v
ReactorSetupSpec.v
DeadlineTimer.v
DeadlineTimerSpec.v
TimerRuns.v
TimerWait.v
ServerProcess.v
ServerAnswers.v
ServerStory.v
ServerProcessSpec.v
