(* ===== verification/Prelude.v ===== *)
(** * Horcrux: a file stored in pieces on a server

    The program cuts a file into pieces ("horcruxes"), ships them over a TCP
    connection to a server that stores each in a file of its own, and joins them
    again.  It consists of a client ([src/client.cpp]), a server ([src/server.cpp],
    [src/networking/]), a tool that joins the stored pieces ([src/join.cpp]), and what
    they share ([src/logic/]).  It uses the vendored library asio
    ([src/asio/include/asio/]), of which the development models what the program runs
    on: buffers, socket calls, composed reads and writes, the event loop and its
    timers.  This file is the prelude: bytes, integers of fixed width, decimal
    numerals, maps of collections, and the outcome of a call, which returns, throws or
    is undefined.

    ** How the program is modelled

    Functions are Gallina functions of the same names.  A [uint32_t] or [uint64_t] is
    an integer reduced by [u32] or [u64] where the code computes at that width; a
    signed overflow is undefined ([int_add], [ChronoTimeTraits.checked]).  A string is
    the list of its bytes.  Objects are records, assignments return new ones; where the
    code shares objects through pointers (the memory of buffers, the linked operations,
    the timers, the states of descriptors) there is a map from pointers to contents, and
    dereferencing a pointer it lacks is undefined.

    Functions that may throw return an [outcome]; those that change the file system and
    may throw after they did ([FileSystem.saveFile], which calls [is_regular_file] of
    the standard library) keep the files they leave ([FileSystem.files]).  The file
    system may refuse [stat], and the random device may throw.  Memory does not run out:
    no [std::bad_alloc] is thrown.

    What is not code of the repository is a parameter with its documented behaviour as
    laws: [FileSystem.OS] (what streams and the file system answer), [System.Network]
    (how many bytes a socket call transfers), [EpollReactor.Kernel] (performing an
    operation, [epoll], the clock), [ReactorSetup.DescriptorCalls] (the calls that make
    and close descriptors), the traces of [SocketOps] (the answers of the
    socket calls), the answer of [getaddrinfo] ([Resolver]), what the random device
    returns ([Random]), [Splitter.ChecksumInterface], and [ObjectRepr]'s memory contents of
    objects that are not initialised.  Each class of laws has an instance, used by the
    witnesses.

    ** The application

    - [ObjectRepr] ([logic/Utils.hpp]): struct layout and the two header templates.
    - [Splitter] ([logic/HorcruxData.cpp]): [split] and [join].
    - [FileSystem], [Command] ([logic/Utils.cpp]): [loadFile], [saveFile];
      [parseHorcruxCommand] with [std::stoi].
    - [Random] ([logic/Utils.cpp]): [generateRandomUint64] with the Mersenne Twister of
      the standard library; its numbers are those of the standard, and two seeds give
      the same one only if the random device returned the same 32 bits.
    - [Requests] ([networking/Requests.cpp]): the headers and the messages made of the
      horcruxes.
    - [Connection] ([networking/TcpConnection.cpp]): the server's side of a connection,
      a state with at most one asynchronous operation in flight.  Each handler is one
      definition; [step] runs the handler of the operation in flight, and [serve] runs
      a whole connection.  [ConnectionSpec] has its invariant (nothing undefined,
      nothing thrown but the error of a failed [stat], existing files untouched), [ServeSpec] what the peer is answered
      and what is stored, on every branch, and termination.
    - [Server] ([networking/TcpServer.cpp]): the acceptor and any number of connections
      whose handlers interleave.
    - [Client] ([client.cpp]): the tree of the calls the client makes; [ClientSpec] has
      the whole dialogue and the exit status.
    - [Join] ([join.cpp]).
    - [System]: client, server and the two streams between them, in every interleaving:
      a file within the limits is stored and both programs end; files over the limits
      are refused; and what goes wrong when the network transfers less than it is asked.

    ** asio

    - [AsioError] ([error.hpp], [impl/error.ipp]).
    - [OpQueue] ([detail/op_queue.hpp]): the linked queue refines a list.
    - [Buffers] ([buffer.hpp]) and [ConsumingBuffers] ([detail/consuming_buffers.hpp],
      [detail/buffer_sequence_adapter.hpp]): the class [ConsumingLaws] states what the
      composed operations need of a sequence of buffers, and its three implementations
      have it.
    - [SocketOps] ([detail/impl/socket_ops.ipp]), [SocketSpec]: each call and its loop
      over interruptions, on every answer of the system.
    - [ReadWrite] ([impl/read.hpp], [impl/write.hpp]): composed operations over any
      stream with [TransferLaws]; [SocketStream] and [SocketStreamSpec] show that a
      socket is one, hence what [async_read] and [async_write] promise.
    - [Containers], [DynamicBuffers] ([buffer.hpp]): strings and vectors as buffers that
      grow, in the library's two protocols, [prepare] and [commit] or [grow] and
      [shrink].  The class [DynamicBufferLaws] is what a reader needs of a protocol and
      [ReadLaws] what it needs of a stream; both protocols have the former, and a socket
      has the latter whether it is read synchronously or through the reactor.
    - [ReadDynamic] ([impl/read.hpp], [impl/write.hpp]): [read], [async_read], [write]
      and [async_write] of a dynamic buffer.  [ReadUntil] ([impl/read_until.hpp]):
      [read_until] and [async_read_until], for a character, a string or a condition.
      [MatcherLaws] states what a search promises when it is resumed with more data; the
      theorem is that the result is the first match of the whole buffer.
    - [ConnectionIO]: with that, what [Connection.step] assumes of a read is proved.
    - [ChronoTimeTraits] ([detail/chrono_time_traits.hpp]), [TimerQueue]
      ([detail/timer_queue.hpp]): [TimerQueueSpec] relates the heap, the linked list
      and the indices of the timers to a map from timers to times and operations, and
      [TimerQueueRefines] shows that the queue's operations are the map's; [TimerMoves]
      adds [move_timer], which renames a timer.
    - [DeadlineTimer] ([detail/deadline_timer_service.hpp], [basic_waitable_timer.hpp]):
      the timers of a program.  [DeadlineTimerSpec] specifies them by a map from timers
      to expiries and waits, on which every call and the reactor's check of the timers
      are plain functions, and shows that the code refines it; its
      [moved_wait_not_cancelled] is about the cancellation of a wait whose timer was
      moved.  [TimerRuns] concludes that in any run each wait is completed once, and
      without error only after its expiry; [TimerWait] that a blocking wait ends, on a
      clock that goes on ([SleepLaws]).
    - [Scheduler] ([detail/impl/scheduler.ipp]), [EpollReactor]
      ([detail/impl/epoll_reactor.ipp], [detail/object_pool.hpp],
      [detail/impl/timer_queue_set.ipp]) and [IoContext] (the loops of [run],
      [run_one], [wait_one], [poll] and [poll_one], with handlers that call the
      reactor and the scheduler).  [ReactorSpec] says of every operation what it does to the
      pending operations, to the count of work and to the reactor's well-formedness;
      [IoContextSpec] concludes that [io_context::run] completes each operation once,
      runs exactly as long as one is pending, and that the reactor's task finds its
      descriptors dequeued; [PerformSpec] what the reactor does with the events of a
      descriptor.  [ResultsSpec] follows the results of the operations through every
      part of the loop; [Completions] concludes that what an operation is completed with
      is what performing it gave, or an error of the reactor.
    - [SocketService] ([detail/impl/reactive_socket_service_base.ipp],
      [detail/reactive_socket_service.hpp], [detail/socket_holder.hpp],
      [detail/reactive_socket_accept_op.hpp], [basic_socket.hpp],
      [basic_socket_acceptor.hpp], [impl/connect.hpp]): socket objects, accepting and
      [asio::connect], on any reactor of the class [SocketReactor].
      [SocketServiceSpec] gives each operation a triple over the table of open
      descriptors, from the promises [SocketReactorLaws] of the reactor, which
      [EpollSockets] shows of the epoll reactor.  [SocketObjects] concludes that no
      descriptor is leaked, and none is closed that is not open; [Connecting] what the client's
      [asio::connect] and the constructor of the server's acceptor do.
    - [RangeConnect] ([impl/connect.hpp], [basic_socket.hpp]): [async_connect] of a
      range and of an iterator, as the handlers of their attempts.  They agree with the
      loop of [asio::connect] as long as nobody closes the socket, and give up where a
      socket cannot be opened.
    - [Resolver] ([ip/basic_resolver.hpp], [ip/basic_resolver_results.hpp],
      [ip/basic_resolver_iterator.hpp], [detail/resolver_service.hpp]): from a host and
      a service to the endpoints that a loop visits.  [Resolver.client_connection] is
      what the [Connect] node of [Client] stands for.
    - [ReactorSetup] ([detail/impl/epoll_reactor.ipp],
      [detail/impl/eventfd_select_interrupter.ipp]): the descriptors of the reactor
      itself, its constructor, restart after a fork and destructor.  [ReactorSetupSpec]
      follows the table of open descriptors through every failure; of closing a
      descriptor that is not open its laws say nothing.

    ** The server's process

    [ServerProcess] puts the three together: [server.cpp]'s [main] from the constructor
    of [TcpServer] on, with the acceptor and the connections as objects of a memory, their
    composed reads and writes as operations of the epoll reactor, and [process_round] a
    round of [io_context::run] with the handlers of [Connection].  A [machine] is that
    memory on top of the system, hence a [Kernel] for the loop; operations are performed
    by the reactor through their pointers and may be retried any number of times.

    - [Worlds]: what the library's operations do to the world of the loop is a sequence
      of the kernel's steps, so what those keep is kept.
    - [ResultsSpec]'s class [Story] says how an operation may change as it is performed
      and what is known when it is done; [ServerStory] tells that of a transfer (the
      container has received more bytes, or the peer was sent more) and of an accept.
    - [ServerAnswers]: a round makes finitely many calls, so any answers of the system
      are enough for it to end.
    - [ServerProcessSpec] keeps [program_ok] through every handler and every round, and
      concludes that each run of the process is a run of [Server.server_step], for any
      answers of the system, any order of events and any splitting of the transfers;
      that [run] never returns and nothing is undefined, or thrown but the error of a
      [stat] that failed while horcruxes were saved, which ends the process; and that
      files are never lost.  Its examples run the process from the constructor until a
      horcrux is stored, and until it throws.

    ** Fuel

    A loop whose end the code does not make structural has fuel, and a theorem that it
    is enough.  [Splitter.split_fuel] is one more than the number of splits, and
    [Join]'s one more than the number of horcruxes; a decimal numeral has at most one
    digit more than the binary logarithm ([digits_fuel_enough]).  A composed operation
    has a round for every byte and one more ([ReadWrite.op_fuel]): a transfer without
    error moves at least a byte; reads into a dynamic buffer have more rounds than the
    buffer has room for bytes, up to its maximum.  The loops of [SocketOps] run on the length of the
    trace, of which every round takes a call; [SocketService.connect_loop] has one more
    than the endpoints, and passes one in every round; [Resolver.visited] one more than
    the entries of the results.  The heap of the timers moves an entry
    along at most its height, bounded by its size, and [get_ready_timers] removes a
    timer in every round.  A blocking wait sleeps at most 1002 times
    ([TimerWait.wait_until_expiry]).  [ServeSpec.serve_terminates] gives a connection's steps in the length
    of the input.  [IoContext.run_loop] has any fuel: whether the loop ends depends on
    what the handlers start; [IoContextSpec.io_runs_while_pending] says when it goes on
    and when it returns.

    ** Not modelled

    [Utils::log] and other output, which includes what [main] of [server.cpp] does when
    the constructor of [TcpServer] throws: text for a person, on which nothing else
    depends.  Of asio:
    - several threads in one scheduler, nested runs, and in [IoContext] exceptions
      thrown by handlers: the server runs its one [io_context] once, on one thread; an
      exception of its handlers, which only [ServerProcess] has, ends [run] and with it
      [main];
    - moves of descriptors between reactors, moves of timers between services, the waits
      of a socket, asynchronous and reverse name resolution: the program makes no call of
      them;
    - [basic_streambuf], whose storage is a [std::streambuf]'s; regular expressions in
      [read_until], which are Boost's; and a dynamic buffer over a container that is
      already longer than its maximum, for which the laws of [DynamicBuffers] are not
      claimed ([DynamicBuffers.grow_truncates] says what happens);
    - executors, coroutines, SSL, serial ports, other platforms and reactors, which the
      program does not run, or which pass calls on to the modelled parts. *)

From Stdlib Require Export ZArith Lia.
From Stdlib Require Import Strings.Byte.
From Stdlib Require Strings.String.
Export Stdlib.Strings.String.StringSyntax.
From stdpp Require Export base tactics numbers option list countable gmap fin_maps.

#[global] Open Scope Z_scope.

(** * Bytes and byte strings *)

(** C++ [char] cells and [std::string] values: a string is the sequence of its
    bytes, which may hold any value (zero included). *)
Abbreviation byte := Byte.byte.
Abbreviation bytes := (list Byte.byte).

#[global] Instance byte_eq_dec : EqDecision byte := Byte.byte_eq_dec.

#[global] Program Instance byte_countable : Countable byte :=
  inj_countable Byte.to_N Byte.of_N _.
Next Obligation. intros b. apply Byte.of_to_N. Qed.

#[global] Instance byte_inhabited : Inhabited byte := populate Byte.x00.

(** String literals of the source, as bytes. *)
Definition lit (s : String.string) : bytes := String.list_byte_of_string s.
Arguments lit s%_string_scope.

(** [std::string::size], [std::vector::size] as integers. *)
Definition zlen {A} (l : list A) : Z := Z.of_nat (length l).

Lemma zlen_nonneg {A} (l : list A) : 0 <= zlen l.
Proof. unfold zlen; lia. Qed.

Lemma zlen_nil {A} : zlen (@nil A) = 0.
Proof. reflexivity. Qed.

Lemma zlen_cons {A} (x : A) l : zlen (x :: l) = 1 + zlen l.
Proof. unfold zlen; simpl; lia. Qed.

Lemma zlen_app {A} (l k : list A) : zlen (l ++ k) = zlen l + zlen k.
Proof. unfold zlen; rewrite length_app; lia. Qed.

(** Strings of every length exist (the files of the large examples). *)
Lemma zlen_exists n : 0 <= n -> exists data : bytes, zlen data = n.
Proof.
  intros. exists (replicate (Z.to_nat n) Byte.x00).
  unfold zlen. rewrite length_replicate. lia.
Qed.

(** * Machine integers *)

(** Conversions to the unsigned types of the source ([static_cast] and the
    implicit conversions), which keep the value modulo 2 to the width. *)
Definition u32 (z : Z) : Z := z mod 2 ^ 32.
Definition u64 (z : Z) : Z := z mod 2 ^ 64.

(** Conversion to [int32_t] (two's complement). *)
Definition s32 (z : Z) : Z := (z + 2 ^ 31) mod 2 ^ 32 - 2 ^ 31.

Definition INT_MAX : Z := 2 ^ 31 - 1.
Definition INT_MIN : Z := - 2 ^ 31.

(** Linear arithmetic with [/] and [mod] by constants. *)
Ltac modlia := Z.to_euclidean_division_equations; lia.

Lemma u32_bound z : 0 <= u32 z < 2 ^ 32.
Proof. apply Z.mod_pos_bound; lia. Qed.

Lemma u32_small z : 0 <= z < 2 ^ 32 -> u32 z = z.
Proof. apply Z.mod_small. Qed.

Lemma u64_bound z : 0 <= u64 z < 2 ^ 64.
Proof. apply Z.mod_pos_bound; lia. Qed.

Lemma u64_small z : 0 <= z < 2 ^ 64 -> u64 z = z.
Proof. apply Z.mod_small. Qed.

Lemma u32_add_l a b : u32 (u32 a + b) = u32 (a + b).
Proof. apply Zplus_mod_idemp_l. Qed.

Lemma u32_add_r a b : u32 (a + u32 b) = u32 (a + b).
Proof. apply Zplus_mod_idemp_r. Qed.

Lemma s32_bound z : INT_MIN <= s32 z <= INT_MAX.
Proof.
  unfold s32, INT_MIN, INT_MAX.
  pose proof (Z.mod_pos_bound (z + 2 ^ 31) (2 ^ 32) eq_refl). lia.
Qed.

Lemma s32_small z : INT_MIN <= z <= INT_MAX -> s32 z = z.
Proof. unfold s32, INT_MIN, INT_MAX; intros; rewrite Z.mod_small; lia. Qed.

(** * Little-endian bytes *)

(** The cell holding the low eight bits of an integer, and back. *)
Definition z2b (z : Z) : byte :=
  match Byte.of_N (Z.to_N (z mod 256)) with
  | Some b => b
  | None => Byte.x00
  end.

Definition b2z (b : byte) : Z := Z.of_N (Byte.to_N b).

Lemma b2z_bound b : 0 <= b2z b < 256.
Proof. unfold b2z; pose proof (Byte.to_N_bounded b); lia. Qed.

Lemma b2z_z2b z : b2z (z2b z) = z mod 256.
Proof.
  unfold z2b, b2z. pose proof (Z.mod_pos_bound z 256 eq_refl) as Hz.
  destruct (Byte.of_N (Z.to_N (z mod 256))) eqn:E.
  - apply Byte.to_of_N in E. rewrite E. lia.
  - apply Byte.of_N_None_iff in E. lia.
Qed.

Lemma z2b_b2z b : z2b (b2z b) = b.
Proof.
  unfold z2b, b2z. pose proof (Byte.to_N_bounded b).
  rewrite Z.mod_small by lia. rewrite N2Z.id, Byte.of_to_N. done.
Qed.

Lemma b2z_inj a b : b2z a = b2z b -> a = b.
Proof. intros H. rewrite <- (z2b_b2z a), <- (z2b_b2z b). congruence. Qed.

(** The object representation of an unsigned integer of [n] bytes on the
    little-endian targets of the project. *)
Fixpoint le_encode (n : nat) (z : Z) : bytes :=
  match n with
  | O => []
  | S n => z2b z :: le_encode n (z / 256)
  end.

Fixpoint le_decode (bs : bytes) : Z :=
  match bs with
  | [] => 0
  | b :: bs => b2z b + 256 * le_decode bs
  end.

Lemma length_le_encode n z : length (le_encode n z) = n.
Proof. revert z; induction n; simpl; auto. Qed.

Lemma le_decode_encode n z : le_decode (le_encode n z) = z mod 256 ^ Z.of_nat n.
Proof.
  revert z; induction n as [|n IH]; intros z; cbn [le_encode le_decode].
  - by rewrite Z.mod_1_r.
  - rewrite IH, b2z_z2b, Nat2Z.inj_succ, Z.pow_succ_r by lia.
    rewrite Z.rem_mul_r by lia. lia.
Qed.

Lemma le_decode_bound bs : 0 <= le_decode bs < 256 ^ zlen bs.
Proof.
  induction bs as [|b bs IH]; cbn [le_decode].
  - done.
  - rewrite zlen_cons, Z.pow_add_r by (pose proof (zlen_nonneg bs); lia).
    pose proof (b2z_bound b). change (256 ^ 1) with 256. nia.
Qed.

Lemma le_encode_decode bs : le_encode (length bs) (le_decode bs) = bs.
Proof.
  induction bs as [|b bs IH]; cbn [le_encode le_decode length]; [done|].
  pose proof (b2z_bound b).
  f_equal.
  - apply b2z_inj. rewrite b2z_z2b.
    replace (b2z b + 256 * le_decode bs) with (b2z b + le_decode bs * 256) by lia.
    rewrite Z_mod_plus_full. by apply Z.mod_small.
  - etransitivity; [|exact IH]. f_equal.
    replace (b2z b + 256 * le_decode bs) with (b2z b + le_decode bs * 256) by lia.
    rewrite Z_div_plus_full by lia. rewrite Z.div_small; lia.
Qed.

(** Taking a fixed-width field off the front of a byte sequence. *)
Definition le_field (n : nat) (bs : bytes) : Z := le_decode (take n bs).

Lemma le_field_encode n z bs :
  0 <= z < 256 ^ Z.of_nat n -> le_field n (le_encode n z ++ bs) = z.
Proof.
  intros Hz. unfold le_field.
  rewrite take_app_length' by (by rewrite length_le_encode).
  rewrite le_decode_encode. by apply Z.mod_small.
Qed.

Lemma drop_le_encode n z bs : drop n (le_encode n z ++ bs) = bs.
Proof. apply drop_app_length'. by rewrite length_le_encode. Qed.

Lemma le_field_bound n bs : 0 <= le_field n bs < 256 ^ Z.of_nat n.
Proof.
  unfold le_field. pose proof (le_decode_bound (take n bs)) as H.
  assert (zlen (take n bs) <= Z.of_nat n) by (unfold zlen; rewrite length_take; lia).
  pose proof (Z.pow_le_mono_r 256 (zlen (take n bs)) (Z.of_nat n)). lia.
Qed.

Lemma le_encode_field n bs :
  (n <= length bs)%nat -> le_encode n (le_field n bs) = take n bs.
Proof.
  intros Hn. unfold le_field.
  rewrite <- (le_encode_decode (take n bs)) at 2.
  by rewrite length_take_le.
Qed.

Arguments le_encode : simpl never.
Arguments le_decode : simpl never.

(** * Decimal text *)

(** [std::to_string] on the integers: the decimal digits, most significant
    first, with a minus sign for the negative ones. *)
Definition digit (d : Z) : byte := z2b (48 + d).

Definition is_digit (b : byte) : bool := (48 <=? b2z b) && (b2z b <=? 57).

Definition digit_value (b : byte) : Z := b2z b - 48.

Fixpoint digits (fuel : nat) (z : Z) : bytes :=
  match fuel with
  | O => []
  | S fuel => if z <? 10 then [digit z] else digits fuel (z / 10) ++ [digit (z mod 10)]
  end.

(** The number of decimal digits is at most the number of bits plus one. *)
Definition digits_fuel (z : Z) : nat := S (Z.to_nat (Z.log2 z)).

Definition to_string (z : Z) : bytes :=
  if z <? 0 then lit "-" ++ digits (digits_fuel (- z)) (- z)
  else digits (digits_fuel z) z.

Definition parse_digits (acc : Z) (bs : bytes) : Z :=
  foldl (fun acc b => 10 * acc + digit_value b) acc bs.

Lemma parse_digits_app a l k :
  parse_digits a (l ++ k) = parse_digits (parse_digits a l) k.
Proof. apply foldl_app. Qed.

Lemma parse_digits_single a d :
  0 <= d < 10 -> parse_digits a [digit d] = 10 * a + d.
Proof.
  intros Hd. unfold parse_digits, digit_value, digit; simpl.
  rewrite b2z_z2b, Z.mod_small; lia.
Qed.

Lemma b2z_digit d : 0 <= d < 10 -> b2z (digit d) = 48 + d.
Proof. intros. unfold digit. rewrite b2z_z2b. apply Z.mod_small. lia. Qed.

Lemma is_digit_digit d : 0 <= d < 10 -> is_digit (digit d) = true.
Proof. intros. unfold is_digit. rewrite b2z_digit by done. lia. Qed.

Lemma digits_enough fuel z :
  0 <= z < 10 ^ Z.of_nat (S fuel) ->
  parse_digits 0 (digits (S fuel) z) = z /\
  Forall (fun b => is_digit b = true) (digits (S fuel) z).
Proof.
  revert z; induction fuel as [|fuel IH]; intros z Hz.
  - change (10 ^ Z.of_nat 1) with 10 in Hz. cbn [digits].
    destruct (Z.ltb_spec z 10); [|lia].
    rewrite parse_digits_single by lia.
    split; [lia|]. apply Forall_singleton, is_digit_digit. lia.
  - change (digits (S (S fuel)) z) with
      (if z <? 10 then [digit z] else digits (S fuel) (z / 10) ++ [digit (z mod 10)]).
    rewrite Nat2Z.inj_succ, Z.pow_succ_r in Hz by lia.
    destruct (Z.ltb_spec z 10).
    + rewrite parse_digits_single by lia.
      split; [lia|]. apply Forall_singleton, is_digit_digit. lia.
    + destruct (IH (z / 10)) as [Hp Hf]; [modlia|].
      pose proof (Z.mod_pos_bound z 10 eq_refl) as Hm.
      rewrite parse_digits_app, Hp, parse_digits_single by done.
      split; [modlia|]. apply Forall_app; split; [done|].
      by apply Forall_singleton, is_digit_digit.
Qed.

Lemma digits_fuel_enough z :
  0 <= z -> z < 10 ^ Z.of_nat (digits_fuel z).
Proof.
  intros Hz. unfold digits_fuel. rewrite Nat2Z.inj_succ, Z2Nat.id by apply Z.log2_nonneg.
  destruct (Z.eq_dec z 0) as [->|Hnz]; [done|].
  destruct (Z.log2_spec z) as [_ Hlt]; [lia|].
  pose proof (Z.log2_nonneg z).
  pose proof (Z.pow_le_mono_l 2 10 (Z.succ (Z.log2 z)) ltac:(lia)). lia.
Qed.

(** Reading the decimal text of a non-negative integer gives it back, and the
    text holds digits only. *)
Lemma to_string_digits z :
  0 <= z ->
  parse_digits 0 (to_string z) = z /\
  Forall (fun b => is_digit b = true) (to_string z) /\ to_string z <> [].
Proof.
  intros Hz. unfold to_string. destruct (Z.ltb_spec z 0); [lia|].
  destruct (digits_enough (Z.to_nat (Z.log2 z)) z) as [Hp Hf].
  { split; [done|]. by apply digits_fuel_enough. }
  unfold digits_fuel. split; [done|]. split; [done|].
  cbn [digits]. destruct (z <? 10); [done|].
  intros E. by apply app_nil in E as [_ E].
Qed.

Lemma to_string_inj a b : 0 <= a -> 0 <= b -> to_string a = to_string b -> a = b.
Proof.
  intros Ha Hb E.
  rewrite <- (proj1 (to_string_digits a Ha)), <- (proj1 (to_string_digits b Hb)).
  by rewrite E.
Qed.

(** Two texts made of a run of cells satisfying [P], then one that does not,
    agree only when the runs and the rests do. *)
Lemma span_unique {A} (P : A -> Prop) (l1 l2 : list A) x r1 r2 :
  Forall P l1 -> Forall P l2 -> ~ P x ->
  l1 ++ x :: r1 = l2 ++ x :: r2 -> l1 = l2 /\ r1 = r2.
Proof.
  intros H1; revert l2; induction H1 as [|y l1 Hy H1 IH]; intros l2 H2 Hx E.
  - destruct H2; simplify_eq/=; [done|]. done.
  - destruct H2 as [|z l2 Hz H2]; simplify_eq/=; [done|].
    destruct (IH l2) as [-> ->]; done.
Qed.

Lemma imap_ignore {A B} (f : A -> B) l : imap (fun _ x => f x) l = f <$> l.
Proof. exact (imap_const f l). Qed.

(** * Maps of collections *)

(** All that the values of a map hold. *)
Definition gather {A B} (f : A -> list B) (m : gmap positive A) : list B :=
  concat ((fun kv => f kv.2) <$> map_to_list m).

Lemma concat_fmap_perm {A B} (f : A -> list B) (l l' : list A) :
  l ≡ₚ l' -> concat (f <$> l) ≡ₚ concat (f <$> l').
Proof.
  induction 1 as [|x l l' _ IH|x y l|l1 l2 l3 _ IH1 _ IH2]; simpl; [done|by rewrite IH| |by etrans].
  rewrite !app_assoc. by rewrite (Permutation_app_comm (f y)).
Qed.

Lemma gather_empty {A B} (f : A -> list B) : gather f ∅ = [].
Proof. unfold gather. by rewrite map_to_list_empty. Qed.

Lemma gather_insert_new {A B} (f : A -> list B) (m : gmap positive A) k x :
  m !! k = None -> gather f (<[k := x]> m) ≡ₚ f x ++ gather f m.
Proof. intros Hk. unfold gather. by rewrite (concat_fmap_perm _ _ _ (map_to_list_insert _ _ _ Hk)). Qed.

Lemma gather_delete {A B} (f : A -> list B) (m : gmap positive A) k x :
  m !! k = Some x -> gather f m ≡ₚ f x ++ gather f (delete k m).
Proof.
  intros Hk. rewrite <- (insert_delete_id m k x Hk) at 1.
  apply gather_insert_new, lookup_delete_eq.
Qed.

Lemma gather_insert {A B} (f : A -> list B) (m : gmap positive A) k x :
  gather f (<[k := x]> m) ≡ₚ f x ++ gather f (delete k m).
Proof.
  rewrite <- insert_delete_eq. apply gather_insert_new, lookup_delete_eq.
Qed.

(** Two maps whose values hold the same, where absent ones hold nothing. *)
Lemma gather_agree {A A' B} (f : A -> list B) (g : A' -> list B)
    (m : gmap positive A) (m' : gmap positive A') :
  (forall k, default [] (f <$> m !! k) = default [] (g <$> m' !! k)) ->
  gather f m ≡ₚ gather g m'.
Proof.
  revert m'. induction m as [|k x m Hk IH] using map_ind; intros m' Ha.
  - rewrite gather_empty. induction m' as [|k x m' Hk IH] using map_ind.
    { by rewrite gather_empty. }
    rewrite gather_insert_new by done.
    pose proof (Ha k) as E. rewrite lookup_empty, lookup_insert_eq in E. simpl in E.
    rewrite <- E. apply IH. intros k'. specialize (Ha k'). rewrite lookup_empty in *.
    destruct (decide (k = k')) as [<-|]; [by rewrite Hk|by rewrite lookup_insert_ne in Ha].
  - rewrite gather_insert_new by done. destruct (m' !! k) as [x'|] eqn:E.
    + rewrite (gather_delete g m' k x' E). pose proof (Ha k) as Ek.
      rewrite lookup_insert_eq, E in Ek. simpl in Ek. rewrite Ek. apply Permutation_app_head, IH.
      intros k'. specialize (Ha k'). destruct (decide (k = k')) as [<-|].
      * by rewrite Hk, lookup_delete_eq.
      * rewrite lookup_delete_ne by done. by rewrite lookup_insert_ne in Ha.
    + pose proof (Ha k) as Ek. rewrite lookup_insert_eq, E in Ek. simpl in Ek. rewrite Ek.
      apply IH. intros k'. specialize (Ha k'). destruct (decide (k = k')) as [<-|].
      * by rewrite Hk, E.
      * by rewrite lookup_insert_ne in Ha.
Qed.

(** * Outcomes of C++ calls *)

(** The exceptions the program lets escape or catches. *)
Inductive exn :=
  | std_invalid_argument
  | std_out_of_range
  | std_bad_optional_access
  | std_length_error
  | asio_system_error (code : Z)
  (** [std::filesystem::filesystem_error], with its error code *)
  | std_filesystem_error (code : Z)
  (** what [std::random_device] throws, derived from [std::exception] *)
  | random_device_error.

(** A call returns, throws, or has undefined behaviour (an iterator range that
    is not one, a signed overflow, the value of an empty optional). *)
Inductive outcome (A : Type) :=
  | Ret (a : A)
  | Throw (e : exn)
  | Undef.
Arguments Ret {A} a.
Arguments Throw {A} e.
Arguments Undef {A}.

#[global] Instance outcome_ret : MRet outcome := @Ret.

#[global] Instance outcome_bind : MBind outcome := fun A B f m =>
  match m with
  | Ret a => f a
  | Throw e => Throw e
  | Undef => Undef
  end.

#[global] Instance outcome_fmap : FMap outcome := fun A B f m =>
  match m with
  | Ret a => Ret (f a)
  | Throw e => Throw e
  | Undef => Undef
  end.

(** [v.at(i)], [v[i]] and [*opt]: an element that must be there. *)
Definition deref {A} (o : option A) : outcome A :=
  match o with
  | Some a => Ret a
  | None => Undef
  end.

Lemma bind_Ret {A B} (m : outcome A) (f : A -> outcome B) b :
  (m ≫= f) = Ret b <-> exists a, m = Ret a /\ f a = Ret b.
Proof.
  split; [|by intros (a & -> & ?)]. destruct m as [a| |]; [|done|done]. by exists a.
Qed.

Lemma deref_Ret {A} (o : option A) a : deref o = Ret a <-> o = Some a.
Proof. destruct o; simpl; split; congruence. Qed.

(** [int] arithmetic: overflow is undefined. *)
Definition int_add (a b : Z) : outcome Z :=
  if (INT_MIN <=? a + b) && (a + b <=? INT_MAX) then Ret (a + b) else Undef.

Lemma int_add_ok a b : INT_MIN <= a + b <= INT_MAX -> int_add a b = Ret (a + b).
Proof. intros H. unfold int_add. by rewrite (proj2 (Z.leb_le _ _)), (proj2 (Z.leb_le _ _)) by lia. Qed.

Lemma int_add_overflow a b : INT_MAX < a + b -> int_add a b = Undef.
Proof. intros H. unfold int_add. by rewrite andb_comm, (proj2 (Z.leb_gt _ _)). Qed.

(** [std::string(data.begin() + b, data.begin() + e)]: undefined unless the two
    iterators delimit a range of [data]. *)
Definition string_range (data : bytes) (b e : Z) : outcome bytes :=
  if (0 <=? b) && (b <=? e) && (e <=? zlen data)
  then Ret (take (Z.to_nat (e - b)) (drop (Z.to_nat b) data))
  else Undef.

Lemma string_range_ok data b e :
  0 <= b <= e -> e <= zlen data ->
  string_range data b e = Ret (take (Z.to_nat (e - b)) (drop (Z.to_nat b) data)).
Proof.
  intros [H1 H2] H3. unfold string_range.
  by rewrite !(proj2 (Z.leb_le _ _)).
Qed.

Lemma string_range_reversed data b e : e < b -> string_range data b e = Undef.
Proof.
  intros H. unfold string_range. rewrite (proj2 (Z.leb_gt b e)) by done.
  by rewrite andb_false_r.
Qed.

(** Split the hypotheses saying that a sequence of calls returned. *)
Ltac inv_outcome :=
  repeat match goal with
  | H : Ret _ = Ret _ |- _ => injection H as H
  | H : Throw _ = Ret _ |- _ => discriminate H
  | H : Undef = Ret _ |- _ => discriminate H
  | H : (_ ≫= _) = Ret _ |- _ => apply bind_Ret in H as (? & ? & ?)
  | H : deref _ = Ret _ |- _ => apply deref_Ret in H
  end; subst.

Create HintDb horcrux.
Create Rewrite HintDb horcrux.
#[export] Hint Rewrite @zlen_nil @zlen_cons @zlen_app @length_app @length_le_encode
  @length_replicate : horcrux.
#[export] Hint Resolve zlen_nonneg u32_bound u64_bound b2z_bound : horcrux.
