(* ===== verification/Random.v ===== *)
(** [generateRandomUint64] of [logic/Utils.cpp]: the identifier of a file.

    The source uses the 64-bit Mersenne Twister of the standard library, which the
    standard defines by a linear recurrence on words; it is modelled as defined there.
    Over the whole range of the engine [uniform_int_distribution] returns the engine's
    number, as libstdc++ has it.  The random device is a parameter: it returns an
    [unsigned int], or throws. *)

From S2P Require Import Prelude.

(** * [std::mt19937_64] *)

Module mt19937_64.

Definition word_size : Z := 64.
Definition state_size : nat := 312.
Definition shift_size : nat := 156.
Definition mask_bits : Z := 31.
Definition xor_mask : Z := 0xB5026F5AA96619E9.
Definition tempering_u : Z := 29.
Definition tempering_d : Z := 0x5555555555555555.
Definition tempering_s : Z := 17.
Definition tempering_b : Z := 0x71D67FFFEDA60000.
Definition tempering_t : Z := 37.
Definition tempering_c : Z := 0xFFF7EEE000000000.
Definition tempering_l : Z := 43.
Definition initialization_multiplier : Z := 6364136223846793005.
Definition default_seed : Z := 5489.

(** The state is the last [state_size] words of the sequence, the oldest first. *)
Definition t : Type := list Z.

(** A word of the initial state, from the one before it. *)
Definition next_seed (x i : Z) : Z :=
  u64 (initialization_multiplier * Z.lxor x (Z.shiftr x (word_size - 2)) + i).

Fixpoint seed_words (n : nat) (i x : Z) : t :=
  match n with
  | O => []
  | S n => let x := next_seed x i in x :: seed_words n (i + 1) x
  end.

(** The constructor from a value. *)
Definition seed (value : Z) : t :=
  u64 value :: seed_words (state_size - 1) 1 (u64 value).

(** The upper bits of a word with the lower bits of the next one. *)
Definition join (x y : Z) : Z :=
  Z.lor (Z.land x (Z.ones word_size - Z.ones mask_bits)) (Z.land y (Z.ones mask_bits)).

Definition twist (y : Z) : Z :=
  Z.lxor (Z.shiftr y 1) (if Z.odd y then xor_mask else 0).

(** The next word of the sequence. *)
Definition next_word (s : t) : outcome Z :=
  x ← deref (s !! 0%nat);
  y ← deref (s !! 1%nat);
  z ← deref (s !! shift_size);
  Ret (Z.lxor z (twist (join x y))).

(** The steps of the tempering. *)
Definition xor_right (shift mask x : Z) : Z := Z.lxor x (Z.land (Z.shiftr x shift) mask).
Definition xor_left (shift mask x : Z) : Z := Z.lxor x (Z.land (Z.shiftl x shift) mask).

Definition temper (x : Z) : Z :=
  let z := xor_right tempering_u tempering_d x in
  let z := xor_left tempering_s tempering_b z in
  let z := xor_left tempering_t tempering_c z in
  xor_right tempering_l (Z.ones word_size) z.

(** [operator()]: the number and the state after it. *)
Definition next (s : t) : outcome (Z * t) :=
  x ← next_word s;
  Ret (temper x, drop 1 s ++ [x]).

(** [discard]. *)
Fixpoint discard (n : nat) (s : t) : outcome t :=
  match n with
  | O => Ret s
  | S n => '(_, s) ← next s; discard n s
  end.

End mt19937_64.

(** [uniform_int_distribution] over the whole range of the engine. *)
Definition uniform_whole (s : mt19937_64.t) : outcome (Z * mt19937_64.t) := mt19937_64.next s.

(** The call of a [std::random_device]: its number, or nothing if the device cannot be
    opened or read. *)
Definition random_device (rd : option Z) : outcome Z :=
  match rd with
  | Some rd => Ret (u32 rd)
  | None => Throw random_device_error
  end.

Definition generateRandomUint64 (rd : option Z) : outcome Z :=
  value ← random_device rd;
  '(n, _) ← uniform_whole (mt19937_64.seed value);
  Ret n.

(** * Words *)

Definition word (x : Z) : Prop := 0 <= x < 2 ^ 64.

Lemma word_bits x : word x <-> 0 <= x /\ forall i, 64 <= i -> Z.testbit x i = false.
Proof.
  split.
  - intros [H0 H]. split; [done|]. intros i Hi. rewrite <- (Z.mod_small x (2 ^ 64)) by done.
    by apply Z.mod_pow2_bits_high.
  - intros [H0 H]. split; [done|]. destruct (decide (x = 0)) as [->|Hx]; [done|].
    apply Z.log2_lt_pow2; [lia|]. destruct (decide (Z.log2 x < 64)) as [|Hl]; [done|].
    pose proof (H (Z.log2 x) ltac:(lia)) as E.
    by rewrite Z.bit_log2 in E by lia.
Qed.

Lemma word_u64 x : word (u64 x).
Proof. apply u64_bound. Qed.

Lemma word_lxor x y : word x -> word y -> word (Z.lxor x y).
Proof.
  rewrite !word_bits. intros [Hx Bx] [Hy By]. split; [by apply Z.lxor_nonneg|].
  intros i Hi. by rewrite Z.lxor_spec, Bx, By.
Qed.

Lemma word_lor x y : word x -> word y -> word (Z.lor x y).
Proof.
  rewrite !word_bits. intros [Hx Bx] [Hy By]. split; [by apply Z.lor_nonneg|].
  intros i Hi. by rewrite Z.lor_spec, Bx, By.
Qed.

Lemma word_land_l x y : word x -> word (Z.land x y).
Proof.
  rewrite !word_bits. intros [Hx Bx]. split; [by apply Z.land_nonneg; left|].
  intros i Hi. by rewrite Z.land_spec, Bx.
Qed.

Lemma word_land_r x y : word y -> word (Z.land x y).
Proof. rewrite Z.land_comm. apply word_land_l. Qed.

Lemma word_shiftr x n : 0 <= n -> word x -> word (Z.shiftr x n).
Proof.
  intros Hn. rewrite !word_bits. intros [Hx Bx]. split; [by apply Z.shiftr_nonneg|].
  intros i Hi. rewrite Z.shiftr_spec by lia. apply Bx. lia.
Qed.

#[export] Hint Resolve word_u64 word_lxor word_lor word_land_l word_shiftr : horcrux.

(** * Tempering *)

Section Tempering.
Import mt19937_64.

Lemma xor_right_lxor shift mask x y :
  Z.lxor (xor_right shift mask x) (xor_right shift mask y) = xor_right shift mask (Z.lxor x y).
Proof.
  apply Z.bits_inj'. intros i Hi. unfold xor_right.
  rewrite !Z.lxor_spec, !Z.land_spec, !Z.shiftr_spec, Z.lxor_spec by done.
  by destruct (Z.testbit x _), (Z.testbit x _), (Z.testbit y _), (Z.testbit y _), (Z.testbit mask _).
Qed.

Lemma xor_left_lxor shift mask x y :
  Z.lxor (xor_left shift mask x) (xor_left shift mask y) = xor_left shift mask (Z.lxor x y).
Proof.
  apply Z.bits_inj'. intros i Hi. unfold xor_left.
  rewrite !Z.lxor_spec, !Z.land_spec, !Z.shiftl_spec, Z.lxor_spec by done.
  by destruct (Z.testbit x _), (Z.testbit x _), (Z.testbit y _), (Z.testbit y _), (Z.testbit mask _).
Qed.

(** A word that a step takes to zero has no highest bit, or no lowest. *)
Lemma xor_right_zero shift mask z :
  0 < shift -> 0 <= z -> xor_right shift mask z = 0 -> z = 0.
Proof.
  intros Hs Hz E%Z.lxor_eq. destruct (decide (z = 0)) as [|Hne]; [done|].
  pose proof (Z.bit_log2 z ltac:(lia)) as B. pose proof (Z.log2_nonneg z) as Hl. rewrite E in B at 1.
  rewrite Z.land_spec, Z.shiftr_spec, Z.bits_above_log2 in B by lia. done.
Qed.

Lemma xor_left_zero shift mask z : 0 < shift -> xor_left shift mask z = 0 -> z = 0.
Proof.
  intros Hs E%Z.lxor_eq. apply Z.bits_inj'. intros i Hi. rewrite Z.bits_0. revert Hi.
  induction (Z.lt_wf 0 i) as [i _ IH]. intros Hi.
  rewrite E, Z.land_spec, Z.shiftl_spec by done.
  destruct (decide (i < shift)); [by rewrite Z.testbit_neg_r by lia|].
  by rewrite (IH (i - shift)) by lia.
Qed.

Lemma xor_right_inj shift mask x y :
  0 < shift -> 0 <= x -> 0 <= y -> xor_right shift mask x = xor_right shift mask y -> x = y.
Proof.
  intros Hs Hx Hy E. apply Z.lxor_eq. eapply (xor_right_zero shift mask); [done|by apply Z.lxor_nonneg|].
  by rewrite <- xor_right_lxor, E, Z.lxor_nilpotent.
Qed.

Lemma xor_left_inj shift mask x y :
  0 < shift -> xor_left shift mask x = xor_left shift mask y -> x = y.
Proof.
  intros Hs E. apply Z.lxor_eq. eapply (xor_left_zero shift mask); [done|].
  by rewrite <- xor_left_lxor, E, Z.lxor_nilpotent.
Qed.

Lemma word_xor_right shift mask x : 0 <= shift -> word x -> word (xor_right shift mask x).
Proof. unfold xor_right. auto with horcrux. Qed.

Lemma word_xor_left shift mask x : word mask -> word x -> word (xor_left shift mask x).
Proof. unfold xor_left. auto using word_land_r with horcrux. Qed.

Lemma word_temper x : word x -> word (temper x).
Proof. intros Hx. unfold temper. repeat first [apply word_xor_right|apply word_xor_left]; done. Qed.

(** Nothing is lost: a number tells its word. *)
Lemma temper_inj x y : word x -> word y -> temper x = temper y -> x = y.
Proof.
  intros Hx Hy E. unfold temper in E.
  apply xor_right_inj in E; [|done|by repeat first [apply word_xor_left|apply word_xor_right]..].
  apply xor_left_inj, xor_left_inj, xor_right_inj in E; [done|done|apply Hx|apply Hy|done|done].
Qed.

(** * The engine *)

Definition state_ok (s : t) : Prop := length s = state_size /\ Forall word s.

Lemma seed_words_ok n i x : length (seed_words n i x) = n /\ Forall word (seed_words n i x).
Proof.
  revert i x. induction n as [|n IH]; intros i x; [by split|].
  destruct (IH (i + 1) (next_seed x i)) as [Hl Hw]. simpl. split; [by rewrite Hl|].
  constructor; [apply word_u64|done].
Qed.

Lemma seed_ok value : state_ok (seed value).
Proof.
  destruct (seed_words_ok (state_size - 1) 1 (u64 value)) as [Hl Hw]. split.
  - unfold seed. cbn [length]. by rewrite Hl.
  - constructor; [apply word_u64|done].
Qed.

Lemma word_twist x y : word x -> word y -> word (twist (join x y)).
Proof.
  intros Hx Hy. apply word_lxor; [apply word_shiftr; [done|]; unfold join; auto with horcrux|]. by destruct (Z.odd _).
Qed.

Lemma next_word_ok s : state_ok s -> exists x, next_word s = Ret x /\ word x.
Proof.
  intros [Hl Hw].
  assert (forall i, (i < state_size)%nat -> exists x, s !! i = Some x /\ word x) as Hi.
  { intros i Hi. destruct (lookup_lt_is_Some_2 s i) as [x Hx]; [by rewrite Hl|].
    exists x. split; [done|]. by eapply Forall_lookup_1. }
  destruct (Hi 0%nat) as (x & Ex & Hx); [unfold state_size; lia|].
  destruct (Hi 1%nat) as (y & Ey & Hy); [unfold state_size; lia|].
  destruct (Hi shift_size) as (z & Ez & Hz); [unfold shift_size, state_size; lia|].
  unfold next_word. rewrite Ex, Ey, Ez. simpl. eexists. split; [done|].
  apply word_lxor; [done|by apply word_twist].
Qed.

(** The engine goes on for ever, and its numbers are words. *)
Lemma next_ok s : state_ok s -> exists n s', next s = Ret (n, s') /\ word n /\ state_ok s'.
Proof.
  intros Hs. destruct (next_word_ok s Hs) as (x & E & Hx). destruct Hs as [Hl Hw].
  unfold next. rewrite E. simpl. do 2 eexists. split; [done|]. split; [by apply word_temper|]. split.
  - rewrite length_app, length_drop, Hl. by unfold state_size.
  - apply Forall_app. split; [by apply Forall_drop|by apply Forall_singleton].
Qed.

Lemma discard_ok n s : state_ok s -> exists s', discard n s = Ret s' /\ state_ok s'.
Proof.
  revert s. induction n as [|n IH]; intros s Hs; [by exists s|].
  destruct (next_ok s Hs) as (x & s1 & E & _ & Hs1). simpl. rewrite E. by apply IH.
Qed.

End Tempering.

(** The [n]th number of an engine with the default seed. *)
Definition nth_number (n : nat) : outcome Z :=
  s ← mt19937_64.discard (n - 1) (mt19937_64.seed mt19937_64.default_seed);
  fst <$> mt19937_64.next s.

(** The number that the standard requires of the ten thousandth call. *)
Lemma ten_thousandth : nth_number (Z.to_nat 10000) = Ret 9981545732273789042.
Proof. by vm_compute. Qed.

(** * Identifiers *)

Lemma generate_from_device rd :
  generateRandomUint64 (Some rd) = '(n, _) ← uniform_whole (mt19937_64.seed (u32 rd)); Ret n.
Proof. done. Qed.

Lemma generate_ok rd : exists n, generateRandomUint64 (Some rd) = Ret n /\ word n.
Proof.
  destruct (next_ok _ (seed_ok (u32 rd))) as (n & s & E & Hn & _).
  exists n. rewrite generate_from_device. unfold uniform_whole. by rewrite E.
Qed.

(** Two identifiers are equal just when the engines' first words are. *)
Lemma same_identifier rd rd' :
  generateRandomUint64 (Some rd) = generateRandomUint64 (Some rd') <->
  mt19937_64.next_word (mt19937_64.seed (u32 rd)) = mt19937_64.next_word (mt19937_64.seed (u32 rd')).
Proof.
  destruct (next_word_ok _ (seed_ok (u32 rd))) as (x & E & Hx).
  destruct (next_word_ok _ (seed_ok (u32 rd'))) as (y & E' & Hy).
  rewrite !generate_from_device. unfold uniform_whole, mt19937_64.next. rewrite E, E'. simpl. split.
  - intros [= Et]. by rewrite (temper_inj x y).
  - by intros [= ->].
Qed.

(** Values that a function of numbers below [n] takes are no more than [n] if they differ. *)
Lemma few_values {A} (f : Z -> A) (n : Z) (l : list Z) :
  0 <= n -> Forall (fun z => 0 <= z < n) l -> NoDup (f <$> l) -> zlen l <= n.
Proof.
  intros Hn Hl Hf. apply NoDup_fmap_1 in Hf.
  assert (l ⊆+ seqZ 0 n) as Hs%submseteq_length.
  { apply NoDup_submseteq; [done|]. intros z Hz. apply elem_of_seqZ.
    rewrite Forall_forall in Hl. specialize (Hl z Hz). lia. }
  rewrite length_seqZ in Hs. unfold zlen. lia.
Qed.

(** C40. The engine is the [mt19937_64] of the standard: the ten thousandth number of one
    with the default seed is the one that the standard requires.  An identifier is the
    first number of an engine seeded with what the random device returned, a number of 64
    bits from which the engine's first word can be told; if the device fails, the call
    throws.  But the seed has 32 bits only, so that among the identifiers of more than
    [2 ^ 32] files two are the same. *)
Theorem identifiers_repeat (rds : list Z) :
  nth_number (Z.to_nat 10000) = Ret 9981545732273789042 /\
  generateRandomUint64 None = Throw random_device_error /\
  (forall rd rd', generateRandomUint64 (Some rd) = generateRandomUint64 (Some rd') <->
     mt19937_64.next_word (mt19937_64.seed (u32 rd)) = mt19937_64.next_word (mt19937_64.seed (u32 rd'))) /\
  exists ids, generateRandomUint64 <$> (Some <$> rds) = Ret <$> ids /\ Forall word ids /\
  (2 ^ 32 < zlen rds -> ~ NoDup ids).
Proof.
  split; [apply ten_thousandth|]. split; [done|]. split; [apply same_identifier|].
  set (id rd := match generateRandomUint64 (Some rd) with Ret n => n | _ => 0 end).
  assert (forall rd, generateRandomUint64 (Some rd) = Ret (id rd) /\ word (id rd)) as Hid.
  { intros rd. destruct (generate_ok rd) as (n & E & Hn). unfold id. by rewrite E. }
  exists (id <$> rds). split.
  { rewrite <- !list_fmap_compose. apply list_fmap_ext. intros i rd _. apply Hid. }
  split; [apply Forall_fmap, Forall_true; intros rd; apply Hid|].
  intros Hn Hd. rewrite (list_fmap_ext id (id ∘ u32) rds), list_fmap_compose in Hd.
  - apply few_values with (n := 2 ^ 32) in Hd; [|lia|].
    + unfold zlen in *. rewrite length_fmap in Hd. lia.
    + apply Forall_fmap, Forall_true. intros rd. apply u32_bound.
  - intros i rd _. cbn [compose]. unfold compose, id. rewrite !generate_from_device.
    by rewrite (u32_small (u32 rd)) by apply u32_bound.
Qed.
