(* ===== verification/ObjectRepr.v ===== *)
(** Object representations and [logic/Utils.hpp]'s [serializeHeader] and
    [deserializeHeader].

    The two templates copy the bytes of a header object to and from a
    [std::array<char, sizeof(HEADER)>].  What they do depends on how the
    compiler lays the header out in memory: section [Layout] computes the
    layout of a struct of naturally aligned unsigned integers (offset of each
    field, padding, [sizeof]), and the class [HeaderType] is what a header type has
    to provide to be used with the templates. *)

From S2P Require Import Prelude.

(** * Struct layout *)
Section Layout.
Local Open Scope nat_scope.

(** The padding needed at offset [off] before a field of width (and
    alignment) [w]. *)
Definition padding (off w : nat) : nat := Nat.modulo (w - Nat.modulo off w) w.

(** The offset just past the fields of widths [ws], the first one being
    placed at [off] or after. *)
Fixpoint fields_end (off : nat) (ws : list nat) : nat :=
  match ws with
  | [] => off
  | w :: ws => fields_end (off + padding off w + w) ws
  end.

Definition struct_align (ws : list nat) : nat := foldr max 1 ws.

Definition struct_sizeof (ws : list nat) : nat :=
  fields_end 0 ws + padding (fields_end 0 ws) (struct_align ws).

(** The bytes of the fields [vs], from offset [off] on, in memory that held
    [mem] there: padding keeps what the memory held. *)
Fixpoint store_fields (off : nat) (ws : list nat) (vs : list Z) (mem : bytes) : bytes :=
  match ws, vs with
  | w :: ws, v :: vs =>
      let pad := padding off w in
      take pad mem ++ le_encode w v
        ++ store_fields (off + pad + w) ws vs (drop (pad + w) mem)
  | _, _ => mem
  end.

Fixpoint load_fields (off : nat) (ws : list nat) (mem : bytes) : list Z :=
  match ws with
  | [] => []
  | w :: ws =>
      let pad := padding off w in
      le_field w (drop pad mem) :: load_fields (off + pad + w) ws (drop (pad + w) mem)
  end.

Lemma fields_end_ge off ws : off <= fields_end off ws.
Proof. revert off; induction ws as [|w ws IH]; intros off; simpl; [lia|].
etransitivity; [|apply IH]; lia. Qed.

Lemma store_fields_length off ws vs mem :
  fields_end off ws <= off + length mem -> length vs = length ws ->
  length (store_fields off ws vs mem) = length mem.
Proof.
  revert off vs mem; induction ws as [|w ws IH]; intros off [|v vs] mem Hm Hv;
    simplify_eq/=; [done|].
  pose proof (fields_end_ge (off + padding off w + w) ws).
  rewrite !length_app, length_take, length_le_encode, IH;
    rewrite ?length_drop; lia.
Qed.

Lemma load_store_fields off ws vs mem :
  fields_end off ws <= off + length mem ->
  Forall2 (fun w v => (0 <= v < 256 ^ Z.of_nat w)%Z) ws vs ->
  load_fields off ws (store_fields off ws vs mem) = vs.
Proof.
  intros Hm Hv; revert off mem Hm.
  induction Hv as [|w v ws vs Hwv Hv IH]; intros off mem Hm; simpl in *; [done|].
  pose proof (fields_end_ge (off + padding off w + w) ws).
  set (pad := padding off w) in *.
  rewrite (drop_app_length' (take pad mem)) by (rewrite length_take; lia).
  rewrite le_field_encode by done. f_equal.
  rewrite <- drop_drop, (drop_app_length' (take pad mem)), drop_le_encode
    by (rewrite length_take; lia).
  apply IH. rewrite length_drop. lia.
Qed.
End Layout.

Lemma length_load_fields off ws mem : length (load_fields off ws mem) = length ws.
Proof. revert off mem; induction ws; simpl; auto. Qed.

Lemma load_fields_bound off ws mem :
  Forall2 (fun w v => 0 <= v < 256 ^ Z.of_nat w) ws (load_fields off ws mem).
Proof.
  revert off mem; induction ws; intros; simpl; constructor; auto using le_field_bound.
Qed.

(** Storing back what was loaded changes nothing. *)
Lemma store_load_fields off ws mem :
  (fields_end off ws <= off + length mem)%nat ->
  store_fields off ws (load_fields off ws mem) mem = mem.
Proof.
  revert off mem; induction ws as [|w ws IH]; intros off mem Hm; simpl in *; [done|].
  pose proof (fields_end_ge (off + padding off w + w) ws).
  set (pad := padding off w) in *.
  rewrite IH by (rewrite length_drop; lia).
  rewrite le_encode_field by (rewrite length_drop; lia).
  rewrite <- drop_drop, take_drop, take_drop. done.
Qed.

(** * The header templates *)

(** A header type: a struct of unsigned integers, by the width of its fields
    in declaration order. *)
Class HeaderType (H : Type) := {
  widths : list nat;
  fields : H -> list Z;
  of_fields : list Z -> H;
  length_fields : forall h, length (fields h) = length widths;
  of_fields_fields : forall h, of_fields (fields h) = h;
  fields_of_fields : forall vs, length vs = length widths -> fields (of_fields vs) = vs
}.
Arguments widths H {_}.

Section HeaderTemplates.
Context {HEADER : Type} `{HeaderType HEADER}.

(** Every field holds a value of its type. *)
Definition header_wf (h : HEADER) : Prop :=
  Forall2 (fun w v => 0 <= v < 256 ^ Z.of_nat w) (widths HEADER) (fields h).

(** [sizeof(HEADER)]. *)
Definition header_sizeof : nat := struct_sizeof (widths HEADER).

(** The object at [&header], in memory whose padding bytes are those of
    [mem], and the value of an object. *)
Definition object_repr (header : HEADER) (mem : bytes) : bytes :=
  store_fields 0 (widths HEADER) (fields header) mem.

Definition object_value (obj : bytes) : HEADER :=
  of_fields (load_fields 0 (widths HEADER) obj).

(** A declared header object; the bytes between its members are not set. *)
Definition new_object (header : HEADER) : bytes :=
  object_repr header (replicate header_sizeof Byte.x00).

(** [std::copy] of a byte range to [dest]. *)
Definition std_copy (src dest : bytes) : bytes := src ++ drop (length src) dest.

(** [serialized] is the returned array before the copy: it is uninitialised. *)
Definition serializeHeader (header : HEADER) (mem serialized : bytes) : bytes :=
  std_copy (object_repr header mem) serialized.

(** [header] is the default-initialised header the bytes are copied over. *)
Definition deserializeHeader (header : bytes) (binaries : bytes) : HEADER :=
  object_value (std_copy binaries header).

Definition is_object (obj : bytes) : Prop := length obj = header_sizeof.

Lemma sizeof_fits obj :
  is_object obj -> (fields_end 0 (widths HEADER) <= 0 + length obj)%nat.
Proof. unfold is_object, header_sizeof, struct_sizeof; lia. Qed.

Lemma is_object_repr h mem : is_object mem -> is_object (object_repr h mem).
Proof.
  intros Hm. unfold is_object, object_repr.
  rewrite store_fields_length; auto using sizeof_fits, length_fields.
Qed.

Lemma is_new_object h : is_object (new_object h).
Proof. apply is_object_repr. apply length_replicate. Qed.

Lemma length_std_copy src dest :
  (length src <= length dest)%nat -> length (std_copy src dest) = length dest.
Proof. intros. unfold std_copy. rewrite length_app, length_drop. lia. Qed.

Lemma std_copy_all src dest : length dest = length src -> std_copy src dest = src.
Proof. intros E. unfold std_copy. by rewrite drop_ge, app_nil_r by lia. Qed.

Lemma serializeHeader_repr h mem ser :
  is_object mem -> is_object ser -> serializeHeader h mem ser = object_repr h mem.
Proof.
  intros Hm Hs. apply std_copy_all. rewrite (is_object_repr h mem Hm). done.
Qed.

Lemma serializeHeader_is_object h mem ser :
  is_object mem -> is_object ser -> is_object (serializeHeader h mem ser).
Proof. intros. rewrite serializeHeader_repr; auto using is_object_repr. Qed.

Lemma deserializeHeader_value hdr bs :
  is_object hdr -> is_object bs -> deserializeHeader hdr bs = object_value bs.
Proof. unfold deserializeHeader, is_object. intros. by rewrite std_copy_all by congruence. Qed.

Lemma object_value_repr h mem :
  header_wf h -> is_object mem -> object_value (object_repr h mem) = h.
Proof.
  intros Hw Hm. unfold object_value, object_repr.
  rewrite load_store_fields; auto using sizeof_fits, of_fields_fields.
Qed.

Lemma object_value_wf obj : header_wf (object_value obj).
Proof.
  unfold header_wf, object_value.
  rewrite fields_of_fields by apply length_load_fields. apply load_fields_bound.
Qed.

Lemma deserialize_serialize h mem ser hdr :
  header_wf h -> is_object mem -> is_object ser -> is_object hdr ->
  deserializeHeader hdr (serializeHeader h mem ser) = h.
Proof.
  intros. rewrite deserializeHeader_value, serializeHeader_repr;
    auto using object_value_repr, serializeHeader_is_object.
Qed.

(** The bytes of the receiver's object are those of the sender's, padding
    included, when the object is kept in the memory they were copied to. *)
Lemma repr_object_value obj :
  is_object obj -> object_repr (object_value obj) obj = obj.
Proof.
  intros Ho. unfold object_repr, object_value.
  rewrite fields_of_fields by apply length_load_fields.
  by apply store_load_fields, sizeof_fits.
Qed.
End HeaderTemplates.
Arguments header_sizeof HEADER {_}.
Arguments is_object HEADER {_} obj.
