(* ===== verification/Splitter.v ===== *)
(** [logic/HorcruxData.hpp] and [logic/HorcruxData.cpp]: the horcruxes of a file
    and [BasicFileSplitter], which cuts a file into them and joins them back.

    Sizes and indices are kept at the width the code gives them ([uint32_t],
    [int32_t]); an iterator pair that is not a range of the string is undefined
    behaviour. *)

From S2P Require Import Prelude.

(** * Data *)

Record HorcruxData := mkHorcruxData {
  mContent : bytes;
  mChecksum : bytes
}.

#[global] Instance HorcruxData_eq_dec : EqDecision HorcruxData.
Proof. solve_decision. Defined.

(** [ChecksumInterface]: the virtual [getChecksum]; the only implementation of
    the program is the base class's stub. *)
Class ChecksumInterface := getChecksum : bytes -> bytes.

Definition stub_checksum : ChecksumInterface := fun _ => lit "".

(** [FileSplitter]: the abstract class the client works with. *)
Class FileSplitter := {
  fs_split : bytes -> outcome (list HorcruxData);
  fs_join : list HorcruxData -> bytes
}.

(** * [BasicFileSplitter] *)
Section BasicFileSplitter.
Context (mChecksumMethod : ChecksumInterface) (mNumSplits : Z).

(** The loop of [split], from index [idx] on.  [idx] is an [int32_t] compared
    with, and multiplied by, [uint32_t] values. *)
Fixpoint split_loop (fuel : nat) (binaryData : bytes) (horcruxSize idx : Z)
    (horcruxes : list HorcruxData) : outcome (list HorcruxData) :=
  match fuel with
  | O => Undef
  | S fuel =>
      if u32 idx <? mNumSplits then
        let beginIt := u32 (u32 idx * horcruxSize) in
        endIt ←
          (if negb (u32 idx =? u32 (mNumSplits - 1))
           then idx1 ← int_add idx 1; Ret (u32 (u32 idx1 * horcruxSize))
           else Ret (zlen binaryData));
        horcruxContent ← string_range binaryData beginIt endIt;
        let checksum := mChecksumMethod horcruxContent in
        idx' ← int_add idx 1;
        split_loop fuel binaryData horcruxSize idx'
          (horcruxes ++ [mkHorcruxData horcruxContent checksum])
      else Ret horcruxes
  end.

(** One round per split, and one for the test that ends the loop. *)
Definition split_fuel : nat := S (Z.to_nat mNumSplits).

Definition split (binaryData : bytes) : outcome (list HorcruxData) :=
  if mNumSplits =? 0 then Ret []
  else if zlen binaryData <? mNumSplits then Ret []
  else
    let horcruxSize := u32 (zlen binaryData / mNumSplits) in
    split_loop split_fuel binaryData horcruxSize 0 [].

(** The size [join] reserves, an [uint32_t] accumulator. *)
Definition join_reserved (horcrux : list HorcruxData) : Z :=
  foldl (fun totalByteSize h => u32 (totalByteSize + zlen (mContent h))) 0 horcrux.

Definition join (horcrux : list HorcruxData) : bytes :=
  foldl (fun joinedHorcrux h => joinedHorcrux ++ mContent h) [] horcrux.
End BasicFileSplitter.

(** The splitter the client makes: the stub checksum and the requested number
    of horcruxes. *)
Definition BasicFileSplitter (numSplits : Z) : FileSplitter := {|
  fs_split := split stub_checksum numSplits;
  fs_join := join
  |}.

(** * What splitting means *)

(** Piece number [i] of [data] cut into [n] pieces of [h] bytes, the last one
    taking what is left. *)
Definition piece (data : bytes) (n h i : nat) : bytes :=
  if decide (S i = n) then drop (i * h) data else take h (drop (i * h) data).

Definition pieces (data : bytes) (n h : nat) : list bytes := piece data n h <$> seq 0 n.

Section SplitLoop.
Context (sum : ChecksumInterface) (data : bytes) (n h : nat).

Definition mk_horcrux (c : bytes) : HorcruxData := mkHorcruxData c (sum c).

Let N := Z.of_nat n.
Let H := Z.of_nat h.

Context (Hn : 1 <= N <= INT_MAX).

Local Lemma u32_index k : (k < n)%nat -> u32 (Z.of_nat k) = Z.of_nat k.
Proof. intros. unfold INT_MAX in Hn. apply u32_small. lia. Qed.

Local Lemma not_last k : (k < n)%nat ->
  negb (u32 (Z.of_nat k) =? u32 (N - 1)) = bool_decide (S k <> n).
Proof.
  intros Hk. rewrite u32_index by done. unfold INT_MAX in Hn.
  rewrite (u32_small (N - 1)) by lia.
  case_bool_decide; [destruct (Z.eqb_spec (Z.of_nat k) (N - 1))
            |destruct (Z.eqb_spec (Z.of_nat k) (N - 1))]; simpl; lia.
Qed.

(** One round before the last: the range of the piece, if it is one. *)
Lemma split_loop_step fuel k acc :
  (S k < n)%nat -> Z.of_nat k * H < 2 ^ 32 ->
  split_loop sum N (S fuel) data H (Z.of_nat k) acc =
  c ← string_range data (Z.of_nat k * H) (u32 (Z.of_nat (S k) * H));
  split_loop sum N fuel data H (Z.of_nat (S k)) (acc ++ [mk_horcrux c]).
Proof.
  intros Hk Hw. cbn [split_loop]. unfold INT_MAX in Hn.
  rewrite not_last, u32_index by lia. rewrite (proj2 (Z.ltb_lt _ _)) by lia.
  rewrite bool_decide_true by lia.
  rewrite int_add_ok by (unfold INT_MIN, INT_MAX; lia). cbn.
  replace (Z.of_nat k + 1) with (Z.of_nat (S k)) by lia.
  rewrite u32_index by done. rewrite (u32_small (Z.of_nat k * H)) by lia. done.
Qed.

Lemma split_loop_last fuel k acc :
  S k = n -> Z.of_nat k * H < 2 ^ 32 -> Z.of_nat k * H <= zlen data ->
  (1 < fuel)%nat ->
  split_loop sum N fuel data H (Z.of_nat k) acc =
  Ret (acc ++ [mk_horcrux (drop (k * h) data)]).
Proof.
  intros Hk Hw Hd Hf. destruct fuel as [|[|fuel]]; [lia..|].
  cbn [split_loop]. unfold INT_MAX in Hn.
  rewrite not_last, u32_index by lia. rewrite (proj2 (Z.ltb_lt _ _)) by lia.
  rewrite bool_decide_false by lia. cbn.
  rewrite (u32_small (Z.of_nat k * H)), string_range_ok by nia. cbn.
  rewrite int_add_ok by (unfold INT_MIN, INT_MAX; lia). cbn.
  rewrite (u32_small (Z.of_nat k + 1)) by lia.
  rewrite (proj2 (Z.ltb_ge _ _)) by lia.
  replace (Z.to_nat (Z.of_nat k * H)) with (k * h)%nat by lia.
  rewrite take_ge; [done|]. rewrite length_drop. unfold zlen in *. lia.
Qed.

Lemma split_loop_pieces m : forall fuel k acc,
  (N - 1) * H < 2 ^ 32 -> (N - 1) * H <= zlen data ->
  (k + S m)%nat = n -> (S m < fuel)%nat ->
  split_loop sum N fuel data H (Z.of_nat k) acc =
  Ret (acc ++ (mk_horcrux <$> (piece data n h <$> seq k (S m)))).
Proof.
  induction m as [|m IH]; intros fuel k acc Hw Hd Hk Hf.
  - rewrite split_loop_last by nia. simpl. unfold piece.
    by rewrite decide_True by lia.
  - destruct fuel as [|fuel]; [lia|].
    rewrite split_loop_step by nia. rewrite u32_small by nia.
    rewrite string_range_ok by nia. cbn [mbind outcome_bind].
    rewrite IH by lia. rewrite <- app_assoc. do 2 f_equal.
    cbn [seq fmap list_fmap app]. f_equal. unfold piece.
    rewrite decide_False by lia. do 3 f_equal; lia.
Qed.

(** When an end offset no longer fits 32 bits, some round builds a string from
    an end iterator before its begin iterator. *)
Lemma split_loop_wraps m : forall fuel k acc,
  2 ^ 32 <= (N - 1) * H -> H < 2 ^ 32 -> Z.of_nat k * H < 2 ^ 32 ->
  (k + S m)%nat = n ->
  split_loop sum N fuel data H (Z.of_nat k) acc = Undef.
Proof.
  induction m as [|m IH]; intros fuel k acc Hw Hh Hkh Hk; [nia|].
  destruct fuel as [|fuel]; [done|].
  rewrite split_loop_step by lia.
  destruct (Z.lt_ge_cases (Z.of_nat (S k) * H) (2 ^ 32)).
  - destruct (string_range _ _ _) as [c| |] eqn:E; [|by unfold string_range in E; case_match|done].
    cbn. apply IH; lia.
  - rewrite string_range_reversed; [done|].
    unfold u32. replace (Z.of_nat (S k) * H) with (Z.of_nat (S k) * H - 2 ^ 32 + 1 * 2 ^ 32) by lia.
    rewrite Z_mod_plus_full, Z.mod_small; nia.
Qed.
End SplitLoop.

(** * Joining *)

Definition contents (hs : list HorcruxData) : bytes := concat (mContent <$> hs).

Lemma join_contents hs : join hs = contents hs.
Proof.
  unfold join, contents.
  enough (forall acc, foldl (fun j h => j ++ mContent h) acc hs = acc ++ concat (mContent <$> hs))
    as -> by done.
  induction hs as [|h hs IH]; intros acc; simpl; [by rewrite app_nil_r|].
  by rewrite IH, app_assoc.
Qed.

Lemma contents_app hs ks : contents (hs ++ ks) = contents hs ++ contents ks.
Proof. unfold contents. by rewrite fmap_app, concat_app. Qed.

Lemma contents_mk_horcrux sum cs : contents (mk_horcrux sum <$> cs) = concat cs.
Proof.
  unfold contents. f_equal. induction cs as [|c cs IH]; [done|]. cbn. by f_equal.
Qed.

Lemma string_range_take data b e c :
  string_range data b e = Ret c ->
  take (Z.to_nat b) data ++ c = take (Z.to_nat e) data.
Proof.
  unfold string_range. case_match eqn:E; [|done]. intros [= <-].
  apply andb_prop in E as [E _]; apply andb_prop in E as [E1 E2].
  replace (Z.to_nat (e - b)) with (Z.to_nat e - Z.to_nat b)%nat by lia.
  rewrite <- (take_drop (Z.to_nat b) (take (Z.to_nat e) data)).
  rewrite take_take, skipn_firstn_comm. f_equal. f_equal. lia.
Qed.

Lemma split_loop_contents sum n fuel data h : forall idx acc hs,
  0 < n < 2 ^ 32 -> 0 <= idx <= INT_MAX -> idx < n ->
  contents acc = take (Z.to_nat (u32 (idx * h))) data ->
  split_loop sum n fuel data h idx acc = Ret hs ->
  contents hs = data /\ zlen hs = zlen acc + n - idx.
Proof.
  induction fuel as [|fuel IH]; intros idx acc hs Hn Hi Hlt Hacc Hs; [done|].
  cbn [split_loop] in Hs. unfold INT_MAX in Hi.
  rewrite (u32_small idx) in Hs by lia. rewrite (u32_small (n - 1)) in Hs by lia.
  rewrite (proj2 (Z.ltb_lt idx n)) in Hs by done.
  destruct (Z.eqb_spec idx (n - 1)) as [->|Hne]; cbn [negb] in Hs.
  - apply bind_Ret in Hs as (? & [= <-] & Hs). apply bind_Ret in Hs as (c & Hc & Hs).
    apply bind_Ret in Hs as (idx' & Hx & Hs).
    unfold int_add in Hx. case_match; [|done]. injection Hx as <-.
    destruct fuel as [|fuel]; [done|]. cbn [split_loop] in Hs.
    rewrite u32_small in Hs by lia. rewrite (proj2 (Z.ltb_ge _ _)) in Hs by lia.
    injection Hs as <-. apply string_range_take in Hc.
    rewrite contents_app, zlen_app, zlen_cons, zlen_nil. split; [|lia].
    unfold contents at 2. simpl. rewrite app_nil_r, Hacc, Hc.
    apply take_ge. unfold zlen. lia.
  - apply bind_Ret in Hs as (e & He & Hs). apply bind_Ret in He as (idx1 & Hx & [= <-]).
    unfold int_add in Hs, Hx. case_match eqn:Hov; [|done]. injection Hx as <-. cbn in Hs.
    apply bind_Ret in Hs as (c & Hc & Hs). unfold INT_MAX, INT_MIN in *.
    rewrite (u32_small (idx + 1)) in Hc by lia.
    apply IH in Hs; [|unfold INT_MAX; lia..|].
    + rewrite zlen_app, zlen_cons, zlen_nil in Hs. split; [easy|lia].
    + rewrite contents_app, Hacc. unfold contents. simpl. rewrite app_nil_r.
      by apply string_range_take.
Qed.

(** * What [split] does *)

(** The end offset of the last piece but one, as the 32-bit arithmetic of the
    loop needs it. *)
Definition split_extent (n : Z) (data : bytes) : Z := (n - 1) * u32 (zlen data / n).

Lemma split_nonempty sum n data :
  0 < n <= zlen data ->
  split sum n data = split_loop sum n (split_fuel n) data (u32 (zlen data / n)) 0 [].
Proof.
  intros Hn. unfold split. rewrite (proj2 (Z.eqb_neq _ _)) by lia.
  by rewrite (proj2 (Z.ltb_ge _ _)) by lia.
Qed.

Lemma u32_div_le n d : 0 < n -> 0 <= d -> n * u32 (d / n) <= d.
Proof.
  intros Hn Hd.
  assert (Hq : 0 <= d / n) by (apply Z.div_pos; lia).
  pose proof (Z.mul_div_le d n Hn).
  assert (u32 (d / n) <= d / n) by (apply Z.mod_le; lia). nia.
Qed.

Lemma split_defined sum n data :
  1 <= n <= INT_MAX -> n <= zlen data -> split_extent n data < 2 ^ 32 ->
  split sum n data =
    Ret (mk_horcrux sum <$> pieces data (Z.to_nat n) (Z.to_nat (u32 (zlen data / n)))).
Proof.
  intros Hn Hd Hx. rewrite split_nonempty by lia. unfold split_extent in Hx.
  pose proof (u32_bound (zlen data / n)). pose proof (u32_div_le n (zlen data)).
  unfold split_fuel, pieces.
  destruct (Z.to_nat n) as [|m] eqn:En; [lia|].
  pose proof (split_loop_pieces sum data (S m) (Z.to_nat (u32 (zlen data / n))) ltac:(lia)
    m (S (S m)) 0 []) as E.
  rewrite Z2Nat.id in E by lia. replace (Z.of_nat (S m)) with n in E by lia.
  change (Z.of_nat 0) with 0 in E. rewrite E; [done|nia..].
Qed.

(** C7. [BasicFileSplitter::split] of a file that fits the 32-bit offsets: exactly the [n] pieces,
    each with the checksum of its content. *)
Theorem split_pieces sum n data :
  1 <= n <= INT_MAX -> n <= zlen data -> zlen data < 2 ^ 32 ->
  exists hs, split sum n data = Ret hs /\
    zlen hs = n /\
    (forall i h, hs !! i = Some h ->
       mChecksum h = sum (mContent h) /\
       mContent h = piece data (Z.to_nat n) (Z.to_nat (zlen data / n)) i /\
       zlen (mContent h) =
         if decide (Z.of_nat i = n - 1) then zlen data / n + zlen data mod n
         else zlen data / n).
Proof.
  intros Hn Hd Hw.
  assert (Hq : 0 < zlen data / n) by (apply Z.div_str_pos; lia).
  assert (Hq' : zlen data / n <= zlen data) by (apply Z.div_le_upper_bound; nia).
  pose proof (Z.div_mod (zlen data) n ltac:(lia)) as Hdm.
  pose proof (Z.mod_pos_bound (zlen data) n ltac:(lia)) as Hm.
  pose proof (split_defined sum n data Hn Hd) as Hs.
  unfold split_extent in Hs. rewrite u32_small in Hs by lia.
  eexists; split; [apply Hs; nia|]. split.
  { unfold pieces, zlen. rewrite !length_fmap, length_seq. lia. }
  intros i h. unfold pieces. rewrite !list_lookup_fmap.
  destruct (seq 0 (Z.to_nat n) !! i) as [j|] eqn:E; [|done].
  apply lookup_seq in E as [-> Hi]. intros [= <-]. simpl.
  split; [done|]. split; [done|]. unfold piece, zlen in *.
  case_decide; case_decide; try lia.
  - rewrite length_drop. nia.
  - rewrite length_take, length_drop. nia.
Qed.

Lemma split_join_length sum n data hs :
  0 <= n < 2 ^ 32 -> split sum n data = Ret hs -> hs <> [] ->
  join hs = data /\ zlen hs = n.
Proof.
  intros Hn Hs Hne. unfold split in Hs.
  destruct (Z.eqb_spec n 0); [by injection Hs as <-|].
  destruct (Z.ltb_spec (zlen data) n); [by injection Hs as <-|].
  apply split_loop_contents in Hs; [|unfold INT_MAX; try lia; done..].
  rewrite join_contents. rewrite zlen_nil in Hs. destruct Hs; split; [done|lia].
Qed.

(** C3. Whenever [split] returns horcruxes, for any number of splits, joining
    them gives the file back and there is one horcrux per split; and it returns
    horcruxes for every number of splits that is a positive [int] no larger than
    the file, as long as the last begin offset fits 32 bits. *)
Theorem join_split sum n data :
  0 <= n < 2 ^ 32 ->
  (forall hs, split sum n data = Ret hs -> hs <> [] -> join hs = data /\ zlen hs = n) /\
  (1 <= n <= INT_MAX -> n <= zlen data -> split_extent n data < 2 ^ 32 ->
   exists hs, split sum n data = Ret hs /\ hs <> []).
Proof.
  intros Hn. split; [by eauto using split_join_length|]. intros Hn' Hd Hx.
  eexists; split; [by apply split_defined|].
  unfold pieces. destruct (Z.to_nat n) eqn:E; [lia|done].
Qed.

(** The two rejected requests: no splits, or more splits than bytes. *)
Theorem split_rejects sum n data :
  n = 0 \/ zlen data < n -> split sum n data = Ret [].
Proof.
  intros Hn. unfold split. destruct (Z.eqb_spec n 0); [done|].
  destruct (Z.ltb_spec (zlen data) n); [done|lia].
Qed.

(** C11. For a number of splits that is a positive [int], the behaviour of [split] is
    defined exactly when the last begin offset fits 32 bits: a file of 4 GiB or
    more may make it build a string from a reversed iterator range. *)
Theorem split_undefined_iff sum n data :
  1 <= n <= INT_MAX -> n <= zlen data ->
  split sum n data = Undef <-> 2 ^ 32 <= split_extent n data.
Proof.
  intros Hn Hd. split; intros Hx.
  - apply Z.le_ngt. intros Hlt. by rewrite split_defined in Hx.
  - unfold split_extent in Hx. rewrite split_nonempty by lia.
    pose proof (u32_bound (zlen data / n)).
    destruct (Z.to_nat n) as [|m] eqn:En; [lia|].
    pose proof (split_loop_wraps sum data (S m) (Z.to_nat (u32 (zlen data / n))) ltac:(lia)
      m (split_fuel n) 0 []) as E.
    rewrite Z2Nat.id in E by lia. replace (Z.of_nat (S m)) with n in E by lia.
    apply E; lia.
Qed.

(** What the client relies on: the laws of a [FileSplitter] asked for [count]
    horcruxes. *)
Class FileSplitterLaws (s : FileSplitter) (count : Z) := {
  fs_join_split data hs : fs_split data = Ret hs -> hs <> [] -> fs_join hs = data;
  fs_split_length data hs : fs_split data = Ret hs -> hs <> [] -> zlen hs = count;
  fs_join_contents hs : fs_join hs = contents hs
}.

#[export] Instance BasicFileSplitter_laws n :
  0 <= n < 2 ^ 32 -> FileSplitterLaws (BasicFileSplitter n) n.
Proof.
  intros Hn. split; cbn; intros *.
  - intros. eapply split_join_length; eauto.
  - intros. eapply split_join_length; eauto.
  - apply join_contents.
Qed.

(** * Witnesses *)

Lemma split_pieces_witness :
  exists hs, split stub_checksum 4 (lit "AABBCCDD###") = Ret hs /\ zlen hs = 4.
Proof.
  destruct (split_pieces stub_checksum 4 (lit "AABBCCDD###")) as (hs & E & L & _);
    [done|done|done|]. by exists hs.
Defined.

Lemma join_split_witness :
  exists hs, split stub_checksum 3 (lit "somedata") = Ret hs /\ join hs = lit "somedata".
Proof.
  destruct (join_split stub_checksum 3 (lit "somedata")) as [H1 H2]; [done|].
  destruct H2 as (hs & E & Hne); [done..|].
  exists hs. split; [done|]. by apply (H1 hs).
Defined.

Lemma split_rejects_witness : split stub_checksum 9 (lit "somedata") = Ret [].
Proof. apply split_rejects. right. done. Defined.

(** A file of 6 GiB cut into four. *)
Lemma split_undefined_witness :
  exists data, zlen data = 6 * 2 ^ 30 /\ split stub_checksum 4 data = Undef.
Proof.
  destruct (zlen_exists (6 * 2 ^ 30)) as [data L]; [lia|].
  exists data. split; [exact L|].
  apply (proj2 (split_undefined_iff stub_checksum 4 data ltac:(unfold INT_MAX; lia)
    ltac:(rewrite L; lia))).
  unfold split_extent. rewrite L. vm_compute. discriminate.
Defined.
