(* ===== verification/FileSystem.v ===== *)
(** [logic/Utils.cpp]: [loadFile] and [saveFile], over a model of the file
    system they use.

    The file system maps paths to regular files and directories.  What the
    operating system decides (whether [stat] fails, whether a stream opens, how many
    bytes a read or a write transfers) is the class [OS], with its documented behaviour
    in [OSLaws]; [ReliableOS] is the case where [stat] works and streams transfer
    everything.

    Code that changes files runs in the monad [files]: a call returns or throws, and
    leaves a file system either way. *)

From S2P Require Import Prelude.
From S2P Require Import ObjectRepr.

Abbreviation path := bytes.

Inductive node :=
  | RegularFile (content : bytes)
  | Directory.

Abbreviation filesystem := (gmap bytes node).

#[global] Instance node_eq_dec : EqDecision node.
Proof. solve_decision. Defined.

Class OS := {
  (** The error with which [status] and [file_size] of [std::filesystem] throw: the path
      cannot be looked up, for a reason other than that nothing is there (a directory
      without permission, too many symbolic links, a name too long, ...). *)
  status_error : filesystem -> path -> option Z;
  size_error : filesystem -> path -> option Z;
  (** [std::ifstream(path)] and [std::ofstream(path)] are [good()]. *)
  open_read : filesystem -> path -> bool;
  open_write : filesystem -> path -> bool;
  (** The bytes an unformatted read delivers, a write stores. *)
  read_bytes : path -> bytes -> bytes;
  write_bytes : path -> bytes -> bytes
}.

Class OSLaws `{OS} := {
  open_write_not_directory fs p : open_write fs p = true -> fs !! p <> Some Directory;
  read_bytes_prefix p content : read_bytes p content `prefix_of` content;
  write_bytes_prefix p content : write_bytes p content `prefix_of` content
}.

Class ReliableOS `{OS} := {
  status_works fs p : status_error fs p = None;
  size_works fs p : size_error fs p = None;
  read_bytes_all p content : read_bytes p content = content;
  write_bytes_all p content : write_bytes p content = content
}.

(** [std::filesystem::path::operator/]. *)
Definition separator : byte := Byte.x2f.

Definition path_append (a b : path) : path :=
  if decide (head b = Some separator) then b
  else if decide (a = [] \/ last a = Some separator) then a ++ b
  else a ++ [separator] ++ b.

Definition is_regular_file (fs : filesystem) (p : path) : bool :=
  match fs !! p with
  | Some (RegularFile _) => true
  | _ => false
  end.

(** [std::filesystem::file_size] of a regular file. *)
Definition file_size (fs : filesystem) (p : path) : nat :=
  match fs !! p with
  | Some (RegularFile content) => length content
  | _ => 0%nat
  end.

Definition file_content (fs : filesystem) (p : path) : bytes :=
  match fs !! p with
  | Some (RegularFile content) => content
  | _ => []
  end.

(** * Calls that change files *)

Definition files (A : Type) : Type := filesystem -> outcome A * filesystem.

#[global] Instance files_ret : MRet files := fun A a fs => (Ret a, fs).

#[global] Instance files_bind : MBind files := fun A B f m fs =>
  match m fs with
  | (Ret a, fs) => f a fs
  | (Throw e, fs) => (Throw e, fs)
  | (Undef, fs) => (Undef, fs)
  end.

(** A call that looks at the files, and one that replaces them. *)
Definition looks {A} (f : filesystem -> outcome A) : files A := fun fs => (f fs, fs).
Definition changes (f : filesystem -> filesystem) : files () := fun fs => (Ret (), f fs).

Section Files.
Context `{OS}.

(** [std::filesystem::is_regular_file] and [std::filesystem::file_size]. *)
Definition std_is_regular_file (fs : filesystem) (p : path) : outcome bool :=
  match status_error fs p with
  | Some code => Throw (std_filesystem_error code)
  | None => Ret (is_regular_file fs p)
  end.

Definition std_file_size (fs : filesystem) (p : path) : outcome nat :=
  match size_error fs p with
  | Some code => Throw (std_filesystem_error code)
  | None => Ret (file_size fs p)
  end.

Definition loadFile (fs : filesystem) (p : path) : outcome (option bytes) :=
  regular ← std_is_regular_file fs p;
  if negb regular then Ret None
  else if negb (open_read fs p) then Ret None
  else
    fileSize ← std_file_size fs p;
    let out := replicate fileSize Byte.x00 in
    let out := std_copy (take fileSize (read_bytes p (file_content fs p))) out in
    Ret (Some out).

(** Opening the stream for output creates or empties the file; the result of
    the write is not looked at. *)
Definition saveFile (binary : bytes) (p : path) : files bool :=
  regular ← looks (fun fs => std_is_regular_file fs p);
  if regular : bool then mret false
  else
    good ← looks (fun fs => Ret (open_write fs p));
    if negb good then mret false
    else
      _ ← changes (fun fs => <[p := RegularFile (write_bytes p binary)]> fs);
      mret true.

Lemma is_regular_file_true fs p :
  is_regular_file fs p = true <-> exists c, fs !! p = Some (RegularFile c).
Proof.
  unfold is_regular_file. split; [|by intros [c ->]].
  destruct (fs !! p) as [[c|]|]; [by exists c|done|done].
Qed.

(** What [saveFile] does in each of its cases. *)
Lemma saveFile_cases binary p fs :
  saveFile binary p fs =
  match status_error fs p with
  | Some code => (Throw (std_filesystem_error code), fs)
  | None =>
      if is_regular_file fs p || negb (open_write fs p) then (Ret false, fs)
      else (Ret true, <[p := RegularFile (write_bytes p binary)]> fs)
  end.
Proof.
  unfold saveFile, std_is_regular_file, looks, mbind, files_bind.
  destruct (status_error fs p); [done|]. by destruct (is_regular_file fs p), (open_write fs p).
Qed.

(** It returns, or throws what [is_regular_file] throws, before it changes anything. *)
Lemma saveFile_returns binary p fs :
  (exists b, (saveFile binary p fs).1 = Ret b) \/
  exists code, status_error fs p = Some code /\
    saveFile binary p fs = (Throw (std_filesystem_error code), fs).
Proof.
  rewrite saveFile_cases. destruct (status_error fs p) as [code|]; [by right; exists code|].
  left. case_match; by eexists.
Qed.

Lemma saveFile_other binary p fs q :
  q <> p -> (saveFile binary p fs).2 !! q = fs !! q.
Proof.
  intros Hne. rewrite saveFile_cases. repeat case_match; [done..|]. simpl.
  by rewrite lookup_insert_ne.
Qed.

Lemma saveFile_keeps `{!OSLaws} binary p fs q n :
  fs !! q = Some n -> (saveFile binary p fs).2 !! q = Some n.
Proof.
  intros Hq. destruct (decide (q = p)) as [->|Hne]; [|by rewrite saveFile_other].
  rewrite saveFile_cases. destruct (status_error fs p); [done|].
  unfold is_regular_file. rewrite Hq. destruct n; [done|].
  destruct (open_write fs p) eqn:E; [|done].
  by apply open_write_not_directory in E.
Qed.

Lemma saveFile_stores `{!ReliableOS} binary p fs :
  is_regular_file fs p = false -> open_write fs p = true ->
  saveFile binary p fs = (Ret true, <[p := RegularFile binary]> fs).
Proof. intros Hr Ho. rewrite saveFile_cases, status_works, Hr, Ho. cbn. by rewrite write_bytes_all. Qed.

Lemma loadFile_reliable `{!ReliableOS} fs p c :
  fs !! p = Some (RegularFile c) -> open_read fs p = true -> loadFile fs p = Ret (Some c).
Proof.
  intros Hp Ho. unfold loadFile, std_is_regular_file, std_file_size, is_regular_file, file_size, file_content.
  rewrite status_works, size_works, Hp, Ho, read_bytes_all. cbn. rewrite firstn_all, std_copy_all; [done|].
  apply length_replicate.
Qed.

(** The file is missing, or cannot be opened. *)
Lemma loadFile_None fs p :
  loadFile fs p = Ret None <->
  status_error fs p = None /\ (is_regular_file fs p = false \/ open_read fs p = false).
Proof.
  unfold loadFile, std_is_regular_file, std_file_size.
  destruct (status_error fs p), (is_regular_file fs p), (open_read fs p), (size_error fs p); cbn; intuition congruence.
Qed.

(** [loadFile] returns, or throws what [is_regular_file] or [file_size] throws. *)
Lemma loadFile_returns fs p :
  (exists file, loadFile fs p = Ret file) \/
  exists code, loadFile fs p = Throw (std_filesystem_error code) /\
    (status_error fs p = Some code \/ size_error fs p = Some code).
Proof.
  unfold loadFile, std_is_regular_file, std_file_size.
  destruct (status_error fs p) as [code|]; [right; exists code; auto|]. cbn.
  destruct (is_regular_file fs p), (open_read fs p); cbn; try (left; by eexists).
  destruct (size_error fs p) as [code|]; cbn; [right; exists code; auto|left; by eexists].
Qed.

(** The loaded text always has the size of the file: where a read falls short,
    the tail is zero bytes. *)
Lemma loadFile_size `{!OSLaws} fs p c out :
  fs !! p = Some (RegularFile c) -> loadFile fs p = Ret (Some out) ->
  exists k, (k <= length c)%nat /\
  out = take k c ++ replicate (length c - k) Byte.x00.
Proof.
  intros Hp. unfold loadFile, std_is_regular_file, std_file_size, is_regular_file, file_size, file_content.
  rewrite Hp. destruct (status_error fs p); [done|]. cbn.
  destruct (open_read fs p); [|done]. destruct (size_error fs p); [done|]. cbn. intros [= <-].
  destruct (read_bytes_prefix p c) as [rest Hr].
  set (r := read_bytes p c) in *.
  assert (length r <= length c)%nat by (rewrite Hr, length_app; lia).
  exists (length r). split; [done|]. unfold std_copy.
  rewrite take_ge, drop_replicate by done. f_equal.
  rewrite Hr. by rewrite take_app_length.
Qed.
End Files.

(** * Concrete operating systems *)

(** The directory part of a path: what precedes its last separator. *)
Fixpoint parent_dir_go (acc seg : path) (p : path) : path :=
  match p with
  | [] => acc
  | Byte.x2f :: p => parent_dir_go seg (seg ++ lit "/") p
  | b :: p => parent_dir_go acc (seg ++ [b]) p
  end.

Definition parent_dir (p : path) : path := parent_dir_go [] [] p.

(** A name without separator leaves the directory part alone. *)
Lemma parent_dir_go_name acc seg name :
  Forall (fun b => b <> separator) name -> parent_dir_go acc seg name = acc.
Proof.
  intros Hn. revert seg; induction Hn as [|b name Hb Hn IH]; intros seg; [done|].
  simpl. destruct b; try apply IH. done.
Qed.

Definition is_directory (fs : filesystem) (p : path) : bool :=
  bool_decide (fs !! p = Some Directory).

(** Permissions allow everything: a file is created in a directory that exists,
    and directories are not opened. *)
Definition posix_open_write (fs : filesystem) (p : path) : bool :=
  negb (is_directory fs p)
  && (bool_decide (parent_dir p = []) || is_directory fs (parent_dir p)).

#[local] Instance simple_os : OS := {|
  status_error _ _ := None;
  size_error _ _ := None;
  open_read fs p := is_regular_file fs p;
  open_write := posix_open_write;
  read_bytes _ content := content;
  write_bytes _ content := content
  |}.

(** The same without permission to look into [out]. *)
#[local] Instance forbidden_os : OS := {|
  status_error _ p := if decide (lit "out/" `prefix_of` p) then Some 13 else None;
  size_error _ _ := None;
  open_read fs p := is_regular_file fs p;
  open_write := posix_open_write;
  read_bytes _ content := content;
  write_bytes _ content := content
  |}.

(** The same with a full disk: files are created and stay empty. *)
#[local] Instance full_disk_os : OS := {|
  status_error _ _ := None;
  size_error _ _ := None;
  open_read fs p := is_regular_file fs p;
  open_write := posix_open_write;
  read_bytes _ content := content;
  write_bytes _ _ := []
  |}.

Lemma posix_open_write_directory fs p :
  posix_open_write fs p = true -> fs !! p <> Some Directory.
Proof.
  unfold posix_open_write, is_directory. intros [Hd _]%andb_prop Hp.
  by rewrite bool_decide_true in Hd.
Qed.

#[export] Instance simple_os_laws : @OSLaws simple_os.
Proof. split; [apply posix_open_write_directory|done|done]. Qed.

#[export] Instance simple_os_reliable : @ReliableOS simple_os.
Proof. by split. Qed.

#[export] Instance forbidden_os_laws : @OSLaws forbidden_os.
Proof. split; [apply posix_open_write_directory|done|done]. Qed.

#[export] Instance full_disk_os_laws : @OSLaws full_disk_os.
Proof. split; [apply posix_open_write_directory|done|intros; apply prefix_nil]. Qed.

(** * What saving and loading promise *)

(** A new file that opens is stored whole: loading it gives the saved bytes,
    and saving anything at that path again is refused and changes nothing. *)
Theorem save_load `{ReliableOS} binary p fs :
  is_regular_file fs p = false -> open_write fs p = true ->
  exists fs', saveFile binary p fs = (Ret true, fs') /\
    (open_read fs' p = true -> loadFile fs' p = Ret (Some binary)) /\
    (forall binary', saveFile binary' p fs' = (Ret false, fs')).
Proof.
  intros Hr Ho. exists (<[p := RegularFile binary]> fs).
  split; [by apply saveFile_stores|].
  assert (Hp : <[p := RegularFile binary]> fs !! p = Some (RegularFile binary)).
  { by rewrite lookup_insert_eq. }
  split; [by apply loadFile_reliable|].
  intros b'. rewrite saveFile_cases, status_works. unfold is_regular_file. by rewrite Hp.
Qed.

(** [saveFile] never destroys anything: every file and directory that was
    there stays as it was, nothing changes but the given path, and nothing at
    all when it reports failure or throws. *)
Theorem saveFile_safe `{OSLaws} binary p fs :
  (forall q n, fs !! q = Some n -> (saveFile binary p fs).2 !! q = Some n) /\
  (forall q, q <> p -> (saveFile binary p fs).2 !! q = fs !! q) /\
  ((saveFile binary p fs).1 <> Ret true -> (saveFile binary p fs).2 = fs).
Proof.
  split; [intros; by apply saveFile_keeps|].
  split; [intros; by apply saveFile_other|].
  rewrite saveFile_cases. by repeat case_match.
Qed.

(** The success [saveFile] reports does not mean the bytes were stored: a
    lawful operating system whose writes fall short makes it return [true] for
    a file that loads back as something else. *)
Theorem saveFile_ignores_short_writes :
  exists (os : OS) (_ : @OSLaws os) binary p fs,
    (@saveFile os binary p fs).1 = Ret true /\
    @loadFile os (@saveFile os binary p fs).2 p <> Ret (Some binary).
Proof.
  exists full_disk_os, full_disk_os_laws, (lit "data"), (lit "x"), ∅.
  split; [done|]. by vm_compute.
Qed.

Lemma save_load_witness :
  exists fs', @saveFile simple_os (lit "AAAA") (lit "out/f") {[lit "out" := Directory]} = (Ret true, fs')
    /\ @loadFile simple_os fs' (lit "out/f") = Ret (Some (lit "AAAA")).
Proof.
  destruct (@save_load simple_os _ (lit "AAAA") (lit "out/f") {[lit "out" := Directory]})
    as (fs' & E & L & _); [vm_compute; reflexivity..|].
  exists fs'. split; [exact E|]. apply L.
  assert (Hs : fs' = (@saveFile simple_os (lit "AAAA") (lit "out/f") {[lit "out" := Directory]}).2)
    by (by rewrite E).
  rewrite Hs. by vm_compute.
Defined.

Lemma saveFile_safe_witness :
  (@saveFile simple_os (lit "new") (lit "f") {[lit "f" := RegularFile (lit "old")]}).2 !! lit "f"
    = Some (RegularFile (lit "old")).
Proof. apply (proj1 (@saveFile_safe simple_os _ _ _ _)). by vm_compute. Defined.
