(* ===== verification/Command.v ===== *)
(** [logic/Utils.cpp]: [parseHorcruxCommand], the client's command line, with
    the standard library's [std::stoi] it relies on. *)

From S2P Require Import Prelude.

(** * [std::stoi] *)

(** [isspace] in the "C" locale. *)
Definition isspace (b : byte) : bool :=
  (b2z b =? 32) || ((9 <=? b2z b) && (b2z b <=? 13)).

Fixpoint drop_spaces (s : bytes) : bytes :=
  match s with
  | b :: s' => if isspace b then drop_spaces s' else s
  | [] => []
  end.

(** The longest prefix of digits. *)
Fixpoint take_digits (s : bytes) : bytes :=
  match s with
  | b :: s' => if is_digit b then b :: take_digits s' else []
  | [] => []
  end.

(** An optional sign, and what follows it. *)
Definition take_sign (s : bytes) : bool * bytes :=
  match s with
  | Byte.x2d :: s' => (true, s')
  | Byte.x2b :: s' => (false, s')
  | _ => (false, s)
  end.

(** The value [strtol] reads in base 10, if there is a digit to read. *)
Definition strtol_value (s : bytes) : option Z :=
  let '(negative, s) := take_sign (drop_spaces s) in
  match take_digits s with
  | [] => None
  | ds => Some (if negative : bool then - parse_digits 0 ds else parse_digits 0 ds)
  end.

(** A value that does not fit an [int] is reported as out of range, whether or
    not it fits a [long]. *)
Definition stoi (s : bytes) : outcome Z :=
  match strtol_value s with
  | None => Throw std_invalid_argument
  | Some v => if (INT_MIN <=? v) && (v <=? INT_MAX) then Ret v else Throw std_out_of_range
  end.

(** * The command line *)

Record ClientSaveOptions := mkClientSaveOptions {
  mHorcruxCount : Z;
  mInputPath : bytes
}.

(** [argv[i]]: undefined past the end of the array. *)
Definition arg (argv : list bytes) (i : nat) : outcome bytes := deref (argv !! i).

(** Only [std::invalid_argument] is caught around [stoi]. *)
Definition parseHorcruxCommand (argc : Z) (argv : list bytes) :
    outcome (option ClientSaveOptions) :=
  if negb (argc =? 5) then Ret None
  else
    command ← arg argv 1;
    if negb (bool_decide (command = lit "save")) then Ret None
    else
      option ← arg argv 2;
      if negb (bool_decide (option = lit "-n")) then Ret None
      else
        count ← arg argv 3;
        match stoi count with
        | Ret v =>
            mInputPath ← arg argv 4;
            Ret (Some (mkClientSaveOptions (u32 v) mInputPath))
        | Throw std_invalid_argument => Ret None
        | Throw e => Throw e
        | Undef => Undef
        end.

(** * Reading back printed numbers *)

Lemma digit_not_space b : is_digit b = true -> isspace b = false.
Proof. unfold is_digit, isspace. lia. Qed.

Lemma digit_not_sign b s : is_digit b = true -> take_sign (b :: s) = (false, b :: s).
Proof. destruct b; done. Qed.

Lemma take_digits_all ds s :
  Forall (fun b => is_digit b = true) ds ->
  (forall b s', s = b :: s' -> is_digit b = false) ->
  take_digits (ds ++ s) = ds.
Proof.
  intros Hd Hs. induction Hd as [|b ds Hb Hd IH]; simpl; [|by rewrite Hb, IH].
  destruct s as [|b s]; [done|]. simpl. by rewrite (Hs b s).
Qed.

Lemma strtol_value_digits ds s :
  Forall (fun b => is_digit b = true) ds -> ds <> [] ->
  (forall b s', s = b :: s' -> is_digit b = false) ->
  strtol_value (ds ++ s) = Some (parse_digits 0 ds).
Proof.
  intros Hd Hne Hs. destruct ds as [|b ds]; [done|].
  pose proof (Forall_inv Hd) as Hb. simpl in Hb.
  unfold strtol_value. cbn [app drop_spaces]. rewrite (digit_not_space b Hb).
  rewrite digit_not_sign by done.
  pose proof (take_digits_all (b :: ds) s Hd Hs) as E. cbn [app] in E. by rewrite E.
Qed.

(** Anything may follow the number, as long as it is not a digit. *)
Lemma strtol_value_to_string z s :
  0 <= z -> (forall b s', s = b :: s' -> is_digit b = false) ->
  strtol_value (to_string z ++ s) = Some z.
Proof.
  intros Hz Hs. destruct (to_string_digits z Hz) as (Hp & Hf & Hne).
  rewrite strtol_value_digits by done. by rewrite Hp.
Qed.

Lemma strtol_value_to_string_neg z s :
  z < 0 -> (forall b s', s = b :: s' -> is_digit b = false) ->
  strtol_value (to_string z ++ s) = Some z.
Proof.
  intros Hz Hs. destruct (to_string_digits (- z) ltac:(lia)) as (Hp & Hf & Hne).
  unfold to_string in *. rewrite (proj2 (Z.ltb_ge (- z) 0)) in * by lia.
  rewrite (proj2 (Z.ltb_lt z 0)) by done. rewrite <- app_assoc.
  set (ds := digits (digits_fuel (- z)) (- z)) in *. clearbody ds.
  change (lit "-" ++ ds ++ s) with (Byte.x2d :: ds ++ s).
  unfold strtol_value. cbn [drop_spaces]. change (isspace Byte.x2d) with false. cbn [take_sign].
  rewrite take_digits_all by done.
  destruct ds; [done|]. rewrite Hp. f_equal. lia.
Qed.

(** Reading the text of any integer, whatever follows it. *)
Lemma stoi_to_string z s :
  (forall b s', s = b :: s' -> is_digit b = false) ->
  stoi (to_string z ++ s) =
    if (INT_MIN <=? z) && (z <=? INT_MAX) then Ret z else Throw std_out_of_range.
Proof.
  intros Hs. unfold stoi. destruct (Z.lt_ge_cases z 0).
  - by rewrite strtol_value_to_string_neg.
  - by rewrite strtol_value_to_string by (lia || done).
Qed.

(** * What the command line accepts *)

(** The five words of a save command. *)
Definition save_command (prog count input : bytes) : list bytes :=
  [prog; lit "save"; lit "-n"; count; input].

Lemma parse_save_command prog count input :
  parseHorcruxCommand 5 (save_command prog count input) =
    match stoi count with
    | Ret v => Ret (Some (mkClientSaveOptions (u32 v) input))
    | Throw std_invalid_argument => Ret None
    | Throw e => Throw e
    | Undef => Undef
    end.
Proof. reflexivity. Qed.

Lemma parse_other argv :
  (forall prog count input, argv <> save_command prog count input) ->
  parseHorcruxCommand (zlen argv) argv = Ret None.
Proof.
  intros Hne. unfold parseHorcruxCommand.
  destruct (Z.eqb_spec (zlen argv) 5) as [Hl|]; [|done]. cbn [negb].
  destruct argv as [|prog [|cmd [|opt [|cnt [|input [|]]]]]];
    try (unfold zlen in Hl; simpl in Hl; lia).
  unfold arg; simpl. case_bool_decide as Hc; [|done]. cbn [negb].
  case_bool_decide as Ho; [|done]. subst. by destruct (Hne prog cnt input).
Qed.

Lemma stoi_never_Undef s : stoi s <> Undef.
Proof. unfold stoi. repeat case_match; done. Qed.

Lemma stoi_throws s e :
  stoi s = Throw e -> e = std_invalid_argument \/ e = std_out_of_range.
Proof. unfold stoi. repeat case_match; intros [= <-]; auto. Qed.

Lemma save_command_dec argv :
  (exists prog count input, argv = save_command prog count input) \/
  (forall prog count input, argv <> save_command prog count input).
Proof.
  destruct argv as [|prog [|cmd [|opt [|cnt [|input [|]]]]]]; try (right; done).
  destruct (decide (cmd = lit "save")) as [->|]; [|right; unfold save_command; intros; by intros [=]].
  destruct (decide (opt = lit "-n")) as [->|]; [|right; unfold save_command; intros; by intros [=]].
  left. by exists prog, cnt, input.
Qed.

(** C12. The command line yields options exactly for [save -n <count> <path>]
    with a count [std::stoi] reads, and the count is that [int] converted to
    [uint32_t]. *)
Theorem parse_accepts_iff argv o :
  parseHorcruxCommand (zlen argv) argv = Ret (Some o) <->
  exists prog count input v,
    argv = save_command prog count input /\ stoi count = Ret v /\
    o = mkClientSaveOptions (u32 v) input.
Proof.
  split.
  - destruct (save_command_dec argv) as [(prog & count & input & ->)|Hne].
    + change (zlen _) with 5. rewrite parse_save_command.
      destruct (stoi count) as [v|[]|] eqn:E; intros [= <-].
      by exists prog, count, input, v.
    + by rewrite parse_other.
  - intros (prog & count & input & v & -> & E & ->).
    change (zlen _) with 5. by rewrite parse_save_command, E.
Qed.

(** Every other command line is refused, but for one that escapes: a save
    command whose count is a number too large for an [int] ends the program
    with [std::out_of_range], which the handler around [stoi] does not catch. *)
Theorem parse_errors argv :
  (exists o, parseHorcruxCommand (zlen argv) argv = Ret o) \/
  (parseHorcruxCommand (zlen argv) argv = Throw std_out_of_range /\
   exists prog count input v, argv = save_command prog count input /\
     strtol_value count = Some v /\ ~ (INT_MIN <= v <= INT_MAX)).
Proof.
  destruct (save_command_dec argv) as [(prog & count & input & ->)|Hne];
    [|left; by rewrite parse_other; eauto].
  change (zlen _) with 5. rewrite parse_save_command. unfold stoi.
  destruct (strtol_value count) as [v|] eqn:Ev; [|eauto].
  destruct ((INT_MIN <=? v) && (v <=? INT_MAX)) eqn:Er; [eauto|].
  right. split; [done|]. exists prog, count, input, v. repeat split; [done|].
  intros [? ?]. lia.
Qed.

(** A count written in decimal, whatever text follows it: one that fits an
    [int] is taken modulo 2^32 (so a negative count asks for billions of
    horcruxes), any other escapes as an exception. *)
Theorem parse_printed_count prog z rest input :
  (forall b s', rest = b :: s' -> is_digit b = false) ->
  parseHorcruxCommand 5 (save_command prog (to_string z ++ rest) input) =
    if (INT_MIN <=? z) && (z <=? INT_MAX)
    then Ret (Some (mkClientSaveOptions (u32 z) input))
    else Throw std_out_of_range.
Proof.
  intros Hr. rewrite parse_save_command, stoi_to_string by done.
  by destruct ((INT_MIN <=? z) && (z <=? INT_MAX)).
Qed.

Lemma parse_printed_count_witness :
  parseHorcruxCommand 5 (save_command (lit "horcrux") (lit "-1 pieces") (lit "x.png"))
    = Ret (Some (mkClientSaveOptions 4294967295 (lit "x.png"))).
Proof.
  pose proof (parse_printed_count (lit "horcrux") (-1) (lit " pieces") (lit "x.png")) as H.
  apply H. by intros b s' [= <- <-].
Defined.
