(* ===== verification/Requests.v ===== *)
(** [networking/Requests.hpp] and [networking/Requests.cpp]: the two headers of
    the save protocol and the messages made of the horcruxes of a file. *)

From S2P Require Import Prelude.
From S2P Require Import ObjectRepr.
From S2P Require Import Splitter.

(** * [Save::PreRequestHeader] *)
Module PreRequestHeader.

Record t := mk {
  mUuid : Z;         (* uint64_t *)
    mTotalSize : Z;    (* uint32_t *)
    mNumHorcruxes : Z  (* uint32_t *)
}.

(** The members' default initialisers. *)
Definition default : t := mk 0 0 0.

#[global] Instance eq_dec : EqDecision t.
Proof. solve_decision. Defined.

Definition of_words (vs : list Z) : t :=
  match vs with
  | [uuid; total; num] => mk uuid total num
  | _ => default
  end.

#[global] Instance header : HeaderType t.
Proof.
  refine {| widths := [8; 4; 4]%nat;
    fields h := [mUuid h; mTotalSize h; mNumHorcruxes h];
    of_fields := of_words |}.
  - done.
  - by intros [].
  - by intros [|? [|? [|? [|]]]].
Defined.

(** The loop adds each [size_t] to the [uint32_t] member. *)
Definition add_size (header : t) (hcx : HorcruxData) : t :=
  mk (mUuid header) (u32 (mTotalSize header + zlen (mContent hcx))) (mNumHorcruxes header).

Definition fromHorcruxes (uuid : Z) (horcruxes : list HorcruxData) : t :=
  foldl add_size (mk uuid 0 (u32 (zlen horcruxes))) horcruxes.

(** [operator<<]. *)
Definition print (h : t) : bytes :=
  lit "UUID: " ++ to_string (mUuid h) ++ lit ", "
    ++ lit "TOTAL_SIZE: " ++ to_string (mTotalSize h)
    ++ lit " NUM_HORCRUXES: " ++ to_string (mNumHorcruxes h).
End PreRequestHeader.

(** * [Save::Request] *)
Module Request.

Record Header := mkHeader {
  mUuid : Z;         (* uint64_t *)
    mIndex : Z;        (* uint32_t *)
    mContentSize : Z;  (* uint32_t *)
    mChecksumSize : Z  (* uint32_t *)
}.

Definition defaultHeader : Header := mkHeader 0 0 0 0.

#[global] Instance Header_eq_dec : EqDecision Header.
Proof. solve_decision. Defined.

Definition of_words (vs : list Z) : Header :=
  match vs with
  | [uuid; index; size; checksum] => mkHeader uuid index size checksum
  | _ => defaultHeader
  end.

#[global] Instance header : HeaderType Header.
Proof.
  refine {| widths := [8; 4; 4; 4]%nat;
    fields h := [mUuid h; mIndex h; mContentSize h; mChecksumSize h];
    of_fields := of_words |}.
  - done.
  - by intros [].
  - by intros [|? [|? [|? [|? [|]]]]].
Defined.

Record t := mk {
  mHeader : Header;
  mContent : bytes;
  mChecksum : bytes
}.

(** One round of the loop; the checksum size is left to its default
    initialiser. *)
Definition append_request (uuid : Z) (requests : list t) (hcx : HorcruxData) : list t :=
  requests ++
    [mk (mkHeader uuid (u32 (zlen requests)) (u32 (zlen (Splitter.mContent hcx))) 0)
    (Splitter.mContent hcx) (Splitter.mChecksum hcx)].

Definition fromHorcruxes (uuid : Z) (horcruxes : list HorcruxData) : list t :=
  foldl (append_request uuid) [] horcruxes.

(** [operator<<]. *)
Definition print (h : Header) : bytes :=
  lit "UUID: " ++ to_string (mUuid h) ++ lit ", "
    ++ lit "INDEX: " ++ to_string (mIndex h) ++ lit ", "
    ++ lit "SIZE: " ++ to_string (mContentSize h) ++ lit ", "
    ++ lit "CHECKSUM_SIZE: " ++ to_string (mChecksumSize h).
End Request.

(** * Ranges of the fields *)

Definition pre_header_ok (h : PreRequestHeader.t) : Prop :=
  0 <= PreRequestHeader.mUuid h < 2 ^ 64 /\
  0 <= PreRequestHeader.mTotalSize h < 2 ^ 32 /\
  0 <= PreRequestHeader.mNumHorcruxes h < 2 ^ 32.

Definition request_header_ok (h : Request.Header) : Prop :=
  0 <= Request.mUuid h < 2 ^ 64 /\ 0 <= Request.mIndex h < 2 ^ 32 /\
  0 <= Request.mContentSize h < 2 ^ 32 /\ 0 <= Request.mChecksumSize h < 2 ^ 32.

Lemma pre_header_wf h : header_wf h <-> pre_header_ok h.
Proof.
  unfold header_wf, pre_header_ok. simpl. rewrite !Forall2_cons, Forall2_nil.
  change (256 ^ Z.of_nat 8) with (2 ^ 64). change (256 ^ Z.of_nat 4) with (2 ^ 32). tauto.
Qed.

Lemma request_header_wf h : header_wf h <-> request_header_ok h.
Proof.
  unfold header_wf, request_header_ok. simpl. rewrite !Forall2_cons, Forall2_nil.
  change (256 ^ Z.of_nat 8) with (2 ^ 64). change (256 ^ Z.of_nat 4) with (2 ^ 32). tauto.
Qed.

(** * What the headers look like on the wire *)

Lemma pre_header_object h mem :
  is_object PreRequestHeader.t mem ->
  object_repr h mem =
    le_encode 8 (PreRequestHeader.mUuid h) ++ le_encode 4 (PreRequestHeader.mTotalSize h)
      ++ le_encode 4 (PreRequestHeader.mNumHorcruxes h).
Proof.
  intros Hm. change (length mem = 16%nat) in Hm. unfold object_repr. with_strategy opaque [le_encode] simpl.
  rewrite !drop_drop, (drop_ge mem) by (simpl; lia). by rewrite app_nil_r.
Qed.

Lemma request_header_object h mem :
  is_object Request.Header mem ->
  object_repr h mem =
    le_encode 8 (Request.mUuid h) ++ le_encode 4 (Request.mIndex h)
      ++ le_encode 4 (Request.mContentSize h) ++ le_encode 4 (Request.mChecksumSize h)
      ++ drop 20 mem.
Proof.
  intros Hm. unfold object_repr. with_strategy opaque [le_encode] simpl.
  by rewrite !drop_drop.
Qed.

(** The wire format: a pre-request header is 16 bytes, its three integers
    in little-endian order; a request header is 24 bytes, its four integers
    followed by four bytes of whatever the sender's memory held. *)
Theorem wire_format (p : PreRequestHeader.t) (r : Request.Header) memp serp memr serr :
  is_object PreRequestHeader.t memp -> is_object PreRequestHeader.t serp ->
  is_object Request.Header memr -> is_object Request.Header serr ->
  serializeHeader p memp serp =
    le_encode 8 (PreRequestHeader.mUuid p) ++ le_encode 4 (PreRequestHeader.mTotalSize p)
      ++ le_encode 4 (PreRequestHeader.mNumHorcruxes p) /\
  serializeHeader r memr serr =
    le_encode 8 (Request.mUuid r) ++ le_encode 4 (Request.mIndex r)
      ++ le_encode 4 (Request.mContentSize r) ++ le_encode 4 (Request.mChecksumSize r)
      ++ drop 20 memr /\
  length (serializeHeader p memp serp) = 16%nat /\
  length (serializeHeader r memr serr) = 24%nat.
Proof.
  intros Hmp Hsp Hmr Hsr. rewrite !serializeHeader_repr by done.
  split; [by apply pre_header_object|]. split; [by apply request_header_object|].
  split; [apply (is_object_repr p memp Hmp)|apply (is_object_repr r memr Hmr)].
Qed.

(** C9. Deserialising what was serialised gives the header back, whatever the
    uninitialised memory held on either side; and any received bytes make a
    header whose fields are in range. *)
Theorem header_roundtrip (p : PreRequestHeader.t) (r : Request.Header)
    memp serp dstp memr serr dstr :
  pre_header_ok p -> request_header_ok r ->
  is_object PreRequestHeader.t memp -> is_object PreRequestHeader.t serp ->
  is_object PreRequestHeader.t dstp ->
  is_object Request.Header memr -> is_object Request.Header serr ->
  is_object Request.Header dstr ->
  deserializeHeader dstp (serializeHeader p memp serp) = p /\
  deserializeHeader dstr (serializeHeader r memr serr) = r /\
  (forall bs, pre_header_ok (deserializeHeader dstp bs)) /\
  (forall bs, request_header_ok (deserializeHeader dstr bs)).
Proof.
  intros Hp%pre_header_wf Hr%request_header_wf **.
  rewrite !deserialize_serialize by done. repeat split; try done;
    intros; try apply pre_header_wf; try apply request_header_wf; apply object_value_wf.
Qed.

(** * The messages made of a file's horcruxes *)

Definition total_size (hs : list HorcruxData) : Z := zlen (contents hs).

Lemma total_size_cons h hs : total_size (h :: hs) = zlen (mContent h) + total_size hs.
Proof. unfold total_size, contents. simpl. apply zlen_app. Qed.

Lemma pre_fromHorcruxes uuid hs :
  PreRequestHeader.fromHorcruxes uuid hs =
    PreRequestHeader.mk uuid (u32 (total_size hs)) (u32 (zlen hs)).
Proof.
  unfold PreRequestHeader.fromHorcruxes. generalize (u32 (zlen hs)) as count. intros count.
  enough (forall total, foldl PreRequestHeader.add_size (PreRequestHeader.mk uuid (u32 total) count) hs =
      PreRequestHeader.mk uuid (u32 (total + total_size hs)) count) as E.
  { specialize (E 0). by rewrite Z.add_0_l in E. }
  induction hs as [|h hs IH]; intros total; simpl.
  - by rewrite Z.add_0_r.
  - unfold PreRequestHeader.add_size at 2; simpl. rewrite u32_add_l, IH, total_size_cons. do 2 f_equal. lia.
Qed.

Definition request_of (uuid : Z) (i : nat) (h : HorcruxData) : Request.t :=
  Request.mk (Request.mkHeader uuid (u32 (Z.of_nat i)) (u32 (zlen (mContent h))) 0)
    (mContent h) (mChecksum h).

Lemma request_fromHorcruxes uuid hs :
  Request.fromHorcruxes uuid hs = imap (request_of uuid) hs.
Proof.
  unfold Request.fromHorcruxes.
  enough (forall acc, foldl (Request.append_request uuid) acc hs = acc ++ imap (fun i => request_of uuid (length acc + i)) hs)
    as -> by done.
  induction hs as [|h hs IH]; intros acc; simpl; [by rewrite app_nil_r|].
  rewrite IH. unfold Request.append_request. rewrite <- app_assoc. f_equal. simpl.
  unfold request_of at 2, zlen. rewrite Nat.add_0_r. f_equal. apply imap_ext. intros i x _. simpl.
  rewrite length_app. simpl. f_equal. lia.
Qed.

Definition sum_content_sizes (reqs : list Request.t) : Z :=
  foldr Z.add 0 ((fun r => Request.mContentSize (Request.mHeader r)) <$> reqs).

Lemma sum_content_sizes_requests uuid hs :
  u32 (sum_content_sizes (Request.fromHorcruxes uuid hs)) = u32 (total_size hs).
Proof.
  rewrite request_fromHorcruxes. unfold sum_content_sizes.
  rewrite fmap_imap. unfold compose. simpl.
  rewrite (imap_ignore (fun h => u32 (zlen (mContent h)))).
  induction hs as [|h hs IH]; [done|]. rewrite total_size_cons. simpl.
  rewrite u32_add_l, <- (u32_add_r _ (foldr _ _ _)).
  etransitivity; [|apply u32_add_r]. by f_equal; f_equal.
Qed.

Lemma request_contents uuid hs :
  concat (Request.mContent <$> Request.fromHorcruxes uuid hs) = contents hs.
Proof.
  rewrite request_fromHorcruxes. unfold contents. f_equal.
  rewrite fmap_imap. unfold compose. simpl. apply imap_ignore.
Qed.

(** The messages of a file: one request per horcrux, numbered from zero,
    announcing the size of the content it carries and no checksum; and a
    pre-request header announcing how many there are and, modulo 2^32, the sum
    of their sizes.  The contents in order are the joined file. *)
Theorem messages_of_horcruxes uuid hs :
  zlen hs < 2 ^ 32 ->
  let reqs := Request.fromHorcruxes uuid hs in
  let pre := PreRequestHeader.fromHorcruxes uuid hs in
  PreRequestHeader.mUuid pre = uuid /\
  PreRequestHeader.mNumHorcruxes pre = zlen reqs /\ zlen reqs = zlen hs /\
  PreRequestHeader.mTotalSize pre = u32 (sum_content_sizes reqs) /\
  concat (Request.mContent <$> reqs) = join hs /\
  forall i h, hs !! i = Some h ->
    reqs !! i = Some (Request.mk
      (Request.mkHeader uuid (Z.of_nat i) (u32 (zlen (mContent h))) 0)
      (mContent h) (mChecksum h)).
Proof.
  intros Hn reqs pre. subst reqs pre.
  rewrite pre_fromHorcruxes, sum_content_sizes_requests, request_contents, join_contents.
  rewrite request_fromHorcruxes. simpl. pose proof (zlen_nonneg hs).
  unfold zlen at 2 3. rewrite length_imap. fold (zlen hs). rewrite u32_small by done.
  repeat split; try done. intros i h Hi. rewrite list_lookup_imap, Hi. simpl.
  unfold request_of. rewrite u32_small; [done|].
  apply lookup_lt_Some in Hi. unfold zlen in Hn. lia.
Qed.

(** * Witnesses *)

Lemma wire_format_witness :
  serializeHeader (Request.mkHeader 42 1 2 0) (replicate 24 Byte.xff) (replicate 24 Byte.x00)
    = le_encode 8 42 ++ le_encode 4 1 ++ le_encode 4 2 ++ le_encode 4 0 ++ replicate 4 Byte.xff.
Proof.
  apply (wire_format PreRequestHeader.default (Request.mkHeader 42 1 2 0)
    (replicate 16 Byte.x00) (replicate 16 Byte.x00) (replicate 24 Byte.xff)
    (replicate 24 Byte.x00)); done.
Defined.

Lemma header_roundtrip_witness :
  deserializeHeader (replicate 16 Byte.x00)
    (serializeHeader (PreRequestHeader.mk 121212 123124 42) (replicate 16 Byte.xff)
      (replicate 16 Byte.x11)) = PreRequestHeader.mk 121212 123124 42.
Proof.
  apply (header_roundtrip (PreRequestHeader.mk 121212 123124 42) Request.defaultHeader
    (replicate 16 Byte.xff) (replicate 16 Byte.x11) (replicate 16 Byte.x00)
    (replicate 24 Byte.x00) (replicate 24 Byte.x00) (replicate 24 Byte.x00));
    repeat split; simpl; lia || done.
Defined.

Lemma messages_of_horcruxes_witness :
  PreRequestHeader.mTotalSize (PreRequestHeader.fromHorcruxes 42
    [mkHorcruxData (lit "AA") (lit ""); mkHorcruxData (lit "BBB") (lit "")]) =
  u32 (sum_content_sizes (Request.fromHorcruxes 42
    [mkHorcruxData (lit "AA") (lit ""); mkHorcruxData (lit "BBB") (lit "")])).
Proof.
  apply (messages_of_horcruxes 42
    [mkHorcruxData (lit "AA") (lit ""); mkHorcruxData (lit "BBB") (lit "")]). done.
Defined.
