(* ===== verification/AsioError.v ===== *)
(** [asio/error.hpp] and [asio/impl/error.ipp]: error codes, as the socket
    operations, the composed operations and the program's handlers test them.

    An error code is a value and a category; it counts as an error when its
    value is not zero.  The numbers of the enumerators that stand for [errno]
    and resolver values are those of Linux. *)

From S2P Require Import Prelude.

Inductive error_category :=
  | system_category
  | netdb_category
  | addrinfo_category
  | misc_category.

Record error_code := mk_error_code {
  ec_value : Z;
  ec_category : error_category
}.

#[global] Instance error_category_eq_dec : EqDecision error_category.
Proof. solve_decision. Defined.

#[global] Instance error_code_eq_dec : EqDecision error_code.
Proof. solve_decision. Defined.

(** [explicit operator bool]. *)
Definition ec_is_error (ec : error_code) : bool := negb (ec_value ec =? 0).

(** [error_code()]. *)
Definition ec_success : error_code := mk_error_code 0 system_category.

(** [asio::error::clear]: the category is kept. *)
Definition ec_clear (ec : error_code) : error_code := mk_error_code 0 (ec_category ec).

(** * The enumerations *)
Module error.

Inductive basic_errors :=
  | access_denied
  | address_family_not_supported
  | address_in_use
  | already_connected
  | already_started
  | broken_pipe
  | connection_aborted
  | connection_refused
  | connection_reset
  | bad_descriptor
  | fault
  | host_unreachable
  | in_progress
  | interrupted
  | invalid_argument
  | message_size
  | name_too_long
  | network_down
  | network_reset
  | network_unreachable
  | no_descriptors
  | no_buffer_space
  | no_memory
  | no_permission
  | no_protocol_option
  | no_such_device
  | not_connected
  | not_socket
  | operation_aborted
  | operation_not_supported
  | shut_down
  | timed_out
  | try_again
  | would_block.

Inductive netdb_errors :=
  | host_not_found
  | host_not_found_try_again
  | no_data
  | no_recovery.

Inductive addrinfo_errors :=
  | service_not_found
  | socket_type_not_supported.

Inductive misc_errors :=
  | already_open
  | eof
  | not_found
  | fd_set_failure.

(** [static_cast<int>]. *)
Definition basic_value (e : basic_errors) : Z :=
  match e with
  | access_denied => 13
  | address_family_not_supported => 97
  | address_in_use => 98
  | already_connected => 106
  | already_started => 114
  | broken_pipe => 32
  | connection_aborted => 103
  | connection_refused => 111
  | connection_reset => 104
  | bad_descriptor => 9
  | fault => 14
  | host_unreachable => 113
  | in_progress => 115
  | interrupted => 4
  | invalid_argument => 22
  | message_size => 90
  | name_too_long => 36
  | network_down => 100
  | network_reset => 102
  | network_unreachable => 101
  | no_descriptors => 24
  | no_buffer_space => 105
  | no_memory => 12
  | no_permission => 1
  | no_protocol_option => 92
  | no_such_device => 19
  | not_connected => 107
  | not_socket => 88
  | operation_aborted => 125
  | operation_not_supported => 95
  | shut_down => 108
  | timed_out => 110
  | try_again => 11
  | would_block => 11
  end.

Definition netdb_value (e : netdb_errors) : Z :=
  match e with
  | host_not_found => 1
  | host_not_found_try_again => 2
  | no_data => 4
  | no_recovery => 3
  end.

Definition addrinfo_value (e : addrinfo_errors) : Z :=
  match e with
  | service_not_found => -8
  | socket_type_not_supported => -7
  end.

Definition misc_value (e : misc_errors) : Z :=
  match e with
  | already_open => 1
  | eof => 2
  | not_found => 3
  | fd_set_failure => 4
  end.
End error.

(** The overloads of [make_error_code], which convert an enumerator. *)
Class MakeErrorCode (E : Type) := make_error_code : E -> error_code.

#[global] Instance make_basic : MakeErrorCode error.basic_errors :=
  fun e => mk_error_code (error.basic_value e) system_category.

#[global] Instance make_netdb : MakeErrorCode error.netdb_errors :=
  fun e => mk_error_code (error.netdb_value e) netdb_category.

#[global] Instance make_addrinfo : MakeErrorCode error.addrinfo_errors :=
  fun e => mk_error_code (error.addrinfo_value e) addrinfo_category.

#[global] Instance make_misc : MakeErrorCode error.misc_errors :=
  fun e => mk_error_code (error.misc_value e) misc_category.

Definition interrupted : error_code := make_error_code error.interrupted.
Definition bad_descriptor : error_code := make_error_code error.bad_descriptor.
Definition try_again : error_code := make_error_code error.try_again.
Definition would_block : error_code := make_error_code error.would_block.
Definition invalid_argument : error_code := make_error_code error.invalid_argument.
Definition broken_pipe : error_code := make_error_code error.broken_pipe.
Definition connection_aborted : error_code := make_error_code error.connection_aborted.
Definition connection_reset : error_code := make_error_code error.connection_reset.
Definition operation_aborted : error_code := make_error_code error.operation_aborted.
Definition in_progress : error_code := make_error_code error.in_progress.
Definition no_buffer_space : error_code := make_error_code error.no_buffer_space.
Definition not_socket : error_code := make_error_code error.not_socket.
Definition already_open : error_code := make_error_code error.already_open.
Definition eof : error_code := make_error_code error.eof.
Definition not_found : error_code := make_error_code error.not_found.

(** ** Messages

    [message] of the categories of the library; that of the system category is
    the standard library's. *)
Definition netdb_message (value : Z) : bytes :=
  if value =? error.netdb_value error.host_not_found then
    lit "Host not found (authoritative)"
  else if value =? error.netdb_value error.host_not_found_try_again then
    lit "Host not found (non-authoritative), try again later"
  else if value =? error.netdb_value error.no_data then
    lit "The query is valid, but it does not have associated data"
  else if value =? error.netdb_value error.no_recovery then
    lit "A non-recoverable error occurred during database lookup"
  else lit "asio.netdb error".

Definition addrinfo_message (value : Z) : bytes :=
  if value =? error.addrinfo_value error.service_not_found then lit "Service not found"
  else if value =? error.addrinfo_value error.socket_type_not_supported then
    lit "Socket type not supported"
  else lit "asio.addrinfo error".

Definition misc_message (value : Z) : bytes :=
  if value =? error.misc_value error.already_open then lit "Already open"
  else if value =? error.misc_value error.eof then lit "End of file"
  else if value =? error.misc_value error.not_found then lit "Element not found"
  else if value =? error.misc_value error.fd_set_failure then
    lit "The descriptor does not fit into the select call's fd_set"
  else lit "asio.misc error".

Definition category_message (system_message : Z -> bytes) (ec : error_code) : bytes :=
  match ec_category ec with
  | system_category => system_message (ec_value ec)
  | netdb_category => netdb_message (ec_value ec)
  | addrinfo_category => addrinfo_message (ec_value ec)
  | misc_category => misc_message (ec_value ec)
  end.

Lemma ec_is_error_clear ec : ec_is_error (ec_clear ec) = false.
Proof. done. Qed.

#[export] Hint Rewrite ec_is_error_clear : horcrux.

(** Every enumerator is an error. *)
Lemma basic_error_is_error (e : error.basic_errors) : ec_is_error (make_error_code e) = true.
Proof. by destruct e. Qed.

Lemma misc_error_is_error (e : error.misc_errors) : ec_is_error (make_error_code e) = true.
Proof. by destruct e. Qed.
