(* ===== verification/Connection.v ===== *)
(** [networking/TcpConnection.hpp] and [networking/TcpConnection.cpp]: the
    server's side of one connection.

    A connection is an object with its buffers and the horcruxes received so
    far, and at most one asynchronous operation in flight, whose handler is the
    lambda the code passes to [asio::async_read] or [asio::async_write].  Each
    member function is a definition that takes and returns the object, the file
    system and the operation it leaves in flight; [resume] runs the handler of
    the operation in flight when [asio] completes it. *)

From S2P Require Import Prelude.
From S2P Require Import ObjectRepr.
From S2P Require Import Splitter.
From S2P Require Import FileSystem.
From S2P Require Import Requests.
From S2P Require Import AsioError.

(** * The object *)

Record Config := mkConfig {
  mMaxNumHorcruxAccepted : Z;  (* uint64_t *)
  mMaxTotalSizeAccepted : Z    (* uint64_t *)
}.

(** The default member initialisers, [20] and [10e6]. *)
Definition default_config : Config := mkConfig 20 10000000.

Record connection := mkConnection {
  mConfig : Config;
  mPreRequestHeaderBuffer : bytes;
  mPreRequestHeader : PreRequestHeader.t;
  mRequestHeaderBuffer : bytes;
  mRequestHeader : Request.Header;
  mMessageBuffer : bytes;
  mCurrentRequestHorcruxes : list (option HorcruxData)
}.

Definition new_connection : connection :=
  mkConnection default_config
    (replicate (header_sizeof PreRequestHeader.t) Byte.x00) PreRequestHeader.default
    (replicate (header_sizeof Request.Header) Byte.x00) Request.defaultHeader
    [] [].

Definition kOutPath : path := lit "out".

(** Assignments to the members. *)
Section Assignments.
Context (c : connection).
Let cfg := mConfig c.
Let pb := mPreRequestHeaderBuffer c.
Let ph := mPreRequestHeader c.
Let rb := mRequestHeaderBuffer c.
Let rh := mRequestHeader c.
Let mb := mMessageBuffer c.
Let hs := mCurrentRequestHorcruxes c.

Definition set_pre_buffer x := mkConnection cfg x ph rb rh mb hs.
Definition set_pre_header x := mkConnection cfg pb x rb rh mb hs.
Definition set_request_buffer x := mkConnection cfg pb ph x rh mb hs.
Definition set_request_header x := mkConnection cfg pb ph rb x mb hs.
Definition set_message x := mkConnection cfg pb ph rb rh x hs.
Definition set_horcruxes x := mkConnection cfg pb ph rb rh mb x.
End Assignments.

(** * Asynchronous operations *)

(** What a response's handler goes on with ([NEXT_OP]). *)
Inductive next_op :=
  | NextReadRequestHeader
  | NextSaveHorcruxes
  | NextNothing.

(** The operation in flight: the read into one of the three buffers, or the
    write of the response held by [mMessageBuffer]. *)
Inductive async_op :=
  | ReadingPreRequestHeader
  | ReadingRequestHeader
  | ReadingRequestContent
  | WritingResponse (next : next_op).

#[global] Instance next_op_eq_dec : EqDecision next_op.
Proof. solve_decision. Defined.

#[global] Instance async_op_eq_dec : EqDecision async_op.
Proof. solve_decision. Defined.

(** What a handler leaves.  An exception that escapes from [saveFile] ends the handler,
    which gives the last reference back as it is destroyed, and goes on through
    [io_context::run]; the files are as they were then. *)
Record state := mkHandled {
  st_conn : connection;
  st_fs : filesystem;
  st_op : option async_op;  (* [None]: the last reference to the object is gone *)
  st_thrown : option exn
}.

Abbreviation mkState c fs op := (mkHandled c fs op None).

(** [std::basic_string::resize] and [std::vector::resize]. *)
Definition resize {A} (n : nat) (x : A) (l : list A) : list A :=
  take n l ++ replicate (n - length l) x.

Section Connection.
Context `{OS}.

(** [template sendResponse]: the response waits in [mMessageBuffer]. *)
Definition sendResponse (response : bool) (next : next_op) (c : connection) :
    connection * async_op :=
  (set_message c (if response then lit "SUCCESS" else lit "FAILURE"),
    WritingResponse next).

Definition horcruxPath (uuid counter : Z) : path :=
  to_string uuid ++ lit ".hcx." ++ to_string counter.

(** The loop of [saveHorcruxes]; [counter] is an [uint32_t], and what
    [saveFile] returns is not looked at. *)
Fixpoint saveHorcruxes_loop (uuid counter : Z) (hs : list (option HorcruxData)) : files () :=
  match hs with
  | [] => mret ()
  | hcx :: hs =>
      h ← looks (fun _ => deref hcx);
      _ ← saveFile (mContent h) (path_append kOutPath (horcruxPath uuid counter));
      saveHorcruxes_loop uuid (u32 (counter + 1)) hs
  end.

Definition saveHorcruxes (c : connection) : files bool :=
  _ ← saveHorcruxes_loop (PreRequestHeader.mUuid (mPreRequestHeader c)) 0
    (mCurrentRequestHorcruxes c);
  mret true.

Definition checkPreRequestHeader (c : connection) : bool :=
  if mMaxNumHorcruxAccepted (mConfig c) <? PreRequestHeader.mNumHorcruxes (mPreRequestHeader c)
  then false
  else if mMaxTotalSizeAccepted (mConfig c) <? PreRequestHeader.mTotalSize (mPreRequestHeader c)
  then false
  else true.

(** [vector::at]. *)
Definition at_ {A} (l : list A) (i : Z) : outcome A :=
  match l !! Z.to_nat i with
  | Some x => Ret x
  | None => Throw std_out_of_range
  end.

Definition checkRequestHeader (c : connection) : outcome bool :=
  let r := mRequestHeader c in
  if negb (Request.mUuid r =? PreRequestHeader.mUuid (mPreRequestHeader c)) then Ret false
  else if zlen (mCurrentRequestHorcruxes c) <=? Request.mIndex r then Ret false
  else
    slot ← at_ (mCurrentRequestHorcruxes c) (Request.mIndex r);
    Ret (negb (bool_decide (is_Some slot))).

Definition ReadPreRequestHeader : async_op := ReadingPreRequestHeader.
Definition ReadRequestHeader : async_op := ReadingRequestHeader.
Definition ReadRequestContent : async_op := ReadingRequestContent.

Definition Start (fs : filesystem) : state :=
  mkState new_connection fs (Some ReadPreRequestHeader).

(** The handler of [ReadPreRequestHeader]. *)
Definition onPreRequestHeader (ec : error_code) (c : connection) (fs : filesystem) :
    outcome state :=
  if ec_is_error ec then Ret (mkState c fs None)
  else
    let c := set_pre_header c
      (deserializeHeader (new_object PreRequestHeader.default) (mPreRequestHeaderBuffer c)) in
    if checkPreRequestHeader c then
      let c := set_horcruxes c
        (resize (Z.to_nat (PreRequestHeader.mNumHorcruxes (mPreRequestHeader c))) None
        (mCurrentRequestHorcruxes c)) in
      let '(c, op) := sendResponse true NextReadRequestHeader c in
      Ret (mkState c fs (Some op))
    else
      let '(c, op) := sendResponse false NextNothing c in
      Ret (mkState c fs (Some op)).

(** The handler of [ReadRequestHeader]. *)
Definition onRequestHeader (ec : error_code) (c : connection) (fs : filesystem) :
    outcome state :=
  if ec_is_error ec then Ret (mkState c fs None)
  else
    let c := set_request_header c
      (deserializeHeader (new_object Request.defaultHeader) (mRequestHeaderBuffer c)) in
    ok ← checkRequestHeader c;
    if ok : bool then
      let c := set_message c
        (resize (Z.to_nat (Request.mContentSize (mRequestHeader c))) Byte.x00
        (mMessageBuffer c)) in
      Ret (mkState c fs (Some ReadRequestContent))
    else
      let '(c, op) := sendResponse false NextNothing c in
      Ret (mkState c fs (Some op)).

(** [v[i] = x]: undefined out of range. *)
Definition assign {A} (l : list A) (i : Z) (x : A) : outcome (list A) :=
  if (Z.to_nat i <? length l)%nat then Ret (<[Z.to_nat i := x]> l) else Undef.

(** The handler of [ReadRequestContent]. *)
Definition onRequestContent (ec : error_code) (c : connection) (fs : filesystem) :
    outcome state :=
  if ec_is_error ec then Ret (mkState c fs None)
  else
    hs ← assign (mCurrentRequestHorcruxes c) (Request.mIndex (mRequestHeader c))
      (Some (mkHorcruxData (mMessageBuffer c) (lit "")));
    let c := set_horcruxes c hs in
    let messageComplete := forallb (fun optHcx => bool_decide (is_Some optHcx)) hs in
    let '(c, op) :=
      if messageComplete then sendResponse true NextSaveHorcruxes c
      else sendResponse true NextReadRequestHeader c in
    Ret (mkState c fs (Some op)).

(** The handler of a response: [writeHandler] only logs, so a failed write is
    followed like a successful one. *)
Definition onResponse (next : next_op) (ec : error_code) (c : connection) (fs : filesystem) :
    outcome state :=
  match next with
  | NextReadRequestHeader => Ret (mkState c fs (Some ReadRequestHeader))
  | NextSaveHorcruxes =>
      match saveHorcruxes c fs with
      | (Ret _, fs') => Ret (mkState c fs' None)
      | (Throw e, fs') => Ret (mkHandled c fs' None (Some e))
      | (Undef, _) => Undef
      end
  | NextNothing => Ret (mkState c fs None)
  end.

(** * Completion of an operation *)

(** The memory a read was given: the two header arrays, and
    [asio::buffer(mMessageBuffer, mRequestHeader.mContentSize)]. *)
Definition read_size (op : async_op) (c : connection) : nat :=
  match op with
  | ReadingPreRequestHeader => length (mPreRequestHeaderBuffer c)
  | ReadingRequestHeader => length (mRequestHeaderBuffer c)
  | ReadingRequestContent =>
      length (mMessageBuffer c) `min` Z.to_nat (Request.mContentSize (mRequestHeader c))
  | WritingResponse _ => 0%nat
  end.

(** The bytes that arrived overwrite the front of the memory. *)
Definition fill (op : async_op) (data : bytes) (c : connection) : connection :=
  match op with
  | ReadingPreRequestHeader => set_pre_buffer c (std_copy data (mPreRequestHeaderBuffer c))
  | ReadingRequestHeader => set_request_buffer c (std_copy data (mRequestHeaderBuffer c))
  | ReadingRequestContent => set_message c (std_copy data (mMessageBuffer c))
  | WritingResponse _ => c
  end.

(** The call of the handler, after [data] was received into the buffer (or
    some part of the response was sent). *)
Definition resume (op : async_op) (ec : error_code) (data : bytes) (c : connection)
    (fs : filesystem) : outcome state :=
  let c := fill op data c in
  match op with
  | ReadingPreRequestHeader => onPreRequestHeader ec c fs
  | ReadingRequestHeader => onRequestHeader ec c fs
  | ReadingRequestContent => onRequestContent ec c fs
  | WritingResponse next => onResponse next ec c fs
  end.

(** What [asio::async_read] and [asio::async_write] guarantee to the handler:
    no error means that the whole buffer was transferred, and no more than
    the buffer ever is. *)
Definition completes (op : async_op) (ec : error_code) (data : bytes) (c : connection) : Prop :=
  (length data <= read_size op c)%nat /\
    (ec_is_error ec = false -> length data = read_size op c).

Inductive step : state -> state -> Prop :=
  | step_resume c fs op ec data st' :
      completes op ec data c ->
      resume op ec data c fs = Ret st' ->
      step (mkState c fs (Some op)) st'.

(** * A whole connection *)

(** The server run on everything the peer sends before closing its side: the
    bytes not read, the responses written, the final state.  A read finds
    its bytes or ends with [eof]; responses are written without error. *)
Fixpoint serve (fuel : nat) (st : state) (input output : bytes) :
    outcome (state * bytes * bytes) :=
  match fuel, st_op st with
  | _, None => Ret (st, input, output)
  | O, Some _ => Undef
  | S fuel, Some op =>
      let c := st_conn st in
      match op with
      | WritingResponse _ =>
          st' ← resume op ec_success [] c (st_fs st);
          serve fuel st' input (output ++ mMessageBuffer c)
      | _ =>
          let n := read_size op c in
          if (n <=? length input)%nat then
            st' ← resume op ec_success (take n input) c (st_fs st);
            serve fuel st' (drop n input) output
          else
            st' ← resume op eof input c (st_fs st);
            serve fuel st' [] output
      end
  end.
End Connection.
