(* ===== verification/ConnectionSpec.v ===== *)
(** What the server's side of a connection promises: the only failure is the
    file-system error that saving a file may throw, no existing file is
    destroyed, every peer is answered, and what a well-behaved peer sends is
    stored, in whatever order the horcruxes arrive. *)

From S2P Require Import Prelude.
From S2P Require Import ObjectRepr.
From S2P Require Import Splitter.
From S2P Require Import FileSystem.
From S2P Require Import Requests.
From S2P Require Import AsioError.
From S2P Require Import Connection.

(** * File names *)

Lemma to_string_head z : 0 <= z -> exists b s, to_string z = b :: s /\ is_digit b = true.
Proof.
  intros Hz. destruct (to_string_digits z Hz) as (_ & Hd & Hne).
  destruct (to_string z) as [|b s]; [done|]. exists b, s. split; [done|].
  by apply Forall_inv in Hd.
Qed.

Definition save_path (uuid counter : Z) : path :=
  path_append kOutPath (horcruxPath uuid counter).

Lemma save_path_eq uuid counter :
  0 <= uuid ->
  save_path uuid counter = lit "out/" ++ to_string uuid ++ lit ".hcx." ++ to_string counter.
Proof.
  intros Hu. unfold save_path, path_append, horcruxPath.
  destruct (to_string_head uuid Hu) as (b & s & -> & Hb).
  rewrite decide_False; [done|]. simpl. by intros [= ->].
Qed.

(** Different horcruxes have different files. *)
Lemma save_path_inj u1 k1 u2 k2 :
  0 <= u1 -> 0 <= u2 -> 0 <= k1 -> 0 <= k2 ->
  save_path u1 k1 = save_path u2 k2 -> u1 = u2 /\ k1 = k2.
Proof.
  intros Hu1 Hu2 Hk1 Hk2. rewrite !save_path_eq by done.
  destruct (to_string_digits u1 Hu1) as (_ & D1 & _).
  destruct (to_string_digits u2 Hu2) as (_ & D2 & _).
  intros E. apply app_inv_head in E.
  change (lit ".hcx.") with (Byte.x2e :: lit "hcx.") in E. cbn [app] in E.
  apply (span_unique _ _ _ _ _ _ D1 D2) in E as [E1 E2]; [|by vm_compute].
  apply app_inv_head in E2. split; by apply to_string_inj.
Qed.

(** * Saving *)
Section Saving.
Context `{OS}.

Definition received (slots : list (option HorcruxData)) : Prop :=
  Forall (fun o => is_Some o) slots.

Lemma forallb_received slots :
  forallb (fun o => bool_decide (is_Some o)) slots = true <-> received slots.
Proof.
  unfold received. rewrite forallb_forall, Forall_forall.
  setoid_rewrite bool_decide_eq_true. by setoid_rewrite list_elem_of_In.
Qed.

(** A horcrux that was received is saved, and then the others, unless [saveFile]
    throws. *)
Lemma saveHorcruxes_loop_cons uuid counter h slots fs :
  saveHorcruxes_loop uuid counter (Some h :: slots) fs =
  match saveFile (mContent h) (save_path uuid counter) fs with
  | (Ret _, fs') => saveHorcruxes_loop uuid (u32 (counter + 1)) slots fs'
  | (Throw e, fs') => (Throw e, fs')
  | (Undef, fs') => (Undef, fs')
  end.
Proof. done. Qed.

(** Saving saves some of the horcruxes, and cannot look up the file of the next one. *)
Definition save_fails (uuid counter : Z) (slots : list (option HorcruxData)) (fs fs' : filesystem)
    (e : exn) : Prop :=
  exists i code, (i < length slots)%nat /\
    saveHorcruxes_loop uuid counter (take i slots) fs = (Ret (), fs') /\
    status_error fs' (save_path uuid (counter + Z.of_nat i)) = Some code /\
    e = std_filesystem_error code.

(** With everything received, saving completes, or throws what [saveFile] throws. *)
Lemma saveHorcruxes_loop_total uuid slots : forall counter fs,
  0 <= counter -> counter + zlen slots < 2 ^ 32 -> received slots ->
  exists fs', saveHorcruxes_loop uuid counter slots fs = (Ret (), fs') \/
  exists e, saveHorcruxes_loop uuid counter slots fs = (Throw e, fs') /\
  save_fails uuid counter slots fs fs' e.
Proof.
  induction slots as [|o slots IH]; intros counter fs Hc0 Hn Hr; [exists fs; by left|].
  apply Forall_cons in Hr as [[h ->] Hr]. rewrite zlen_cons in *. pose proof (zlen_nonneg slots).
  rewrite saveHorcruxes_loop_cons.
  destruct (saveFile_returns (mContent h) (save_path uuid counter) fs) as [[b Hb]|(code & Hs & ->)].
  - destruct (saveFile _ _ fs) as [r fs1] eqn:E1. simpl in Hb. subst r. rewrite u32_small by lia.
    destruct (IH (counter + 1) fs1) as (fs' & [E|(e & E & i & code & Hi & El & Hs & He)]); [lia..|done| |].
    + exists fs'. by left.
    + exists fs'. right. exists e. split; [done|]. exists (S i), code. split; [simpl; lia|].
      change (take (S i) (Some h :: slots)) with (Some h :: take i slots).
      rewrite saveHorcruxes_loop_cons, E1, u32_small by lia.
      by replace (counter + Z.of_nat (S i)) with (counter + 1 + Z.of_nat i) by lia.
  - exists fs. right. eexists. split; [done|]. exists 0%nat, code. simpl. rewrite Z.add_0_r.
    by split; [lia|].
Qed.

(** Nothing fails where [stat] works. *)
Lemma saveHorcruxes_loop_reliable `{!ReliableOS} uuid slots counter fs :
  0 <= counter -> counter + zlen slots < 2 ^ 32 -> received slots ->
  exists fs', saveHorcruxes_loop uuid counter slots fs = (Ret (), fs').
Proof.
  intros Hc Hn Hr. destruct (saveHorcruxes_loop_total uuid slots counter fs Hc Hn Hr)
    as (fs' & [E|(e & _ & i & code & _ & _ & Hs & _)]); [by exists fs'|].
  by rewrite status_works in Hs.
Qed.

(** What saving does to the files is done by [saveFile], file by file. *)
Lemma saveHorcruxes_loop_ind (R : filesystem -> filesystem -> Prop) uuid slots : forall counter fs r fs',
  0 <= counter -> counter + zlen slots < 2 ^ 32 ->
  (forall fs, R fs fs) -> (forall fs1 fs2 fs3, R fs1 fs2 -> R fs2 fs3 -> R fs1 fs3) ->
  (forall k b fs, counter <= k < counter + zlen slots -> R fs (saveFile b (save_path uuid k) fs).2) ->
  saveHorcruxes_loop uuid counter slots fs = (r, fs') -> R fs fs'.
Proof.
  induction slots as [|o slots IH]; intros counter fs r fs' Hc0 Hn Hrefl Htrans Hstep E.
  - by injection E as _ <-.
  - rewrite zlen_cons in *. pose proof (zlen_nonneg slots). destruct o as [h|]; [|by injection E as _ <-].
    rewrite saveHorcruxes_loop_cons in E. pose proof (Hstep counter (mContent h) fs ltac:(lia)) as Hs.
    destruct (saveFile _ _ fs) as [[b|e|] fs1]; [|by injection E as _ <-..].
    eapply Htrans; [exact Hs|]. rewrite u32_small in E by lia.
    eapply IH; [| |done|done| |exact E]; [lia|lia|]. intros k b' fs2 Hk. apply Hstep. lia.
Qed.

Lemma saveHorcruxes_loop_keeps `{!OSLaws} uuid slots counter fs r fs' p n :
  0 <= counter -> counter + zlen slots < 2 ^ 32 ->
  saveHorcruxes_loop uuid counter slots fs = (r, fs') ->
  fs !! p = Some n -> fs' !! p = Some n.
Proof.
  intros Hc Hn E. pattern fs, fs'. eapply saveHorcruxes_loop_ind; [| | | | |exact E]; [done..|auto|].
  intros k b fs1 _. apply saveFile_keeps.
Qed.

Lemma saveHorcruxes_loop_frame uuid slots counter fs r fs' p :
  0 <= counter -> counter + zlen slots < 2 ^ 32 ->
  saveHorcruxes_loop uuid counter slots fs = (r, fs') ->
  (forall k, counter <= k < counter + zlen slots -> p <> save_path uuid k) ->
  fs' !! p = fs !! p.
Proof.
  intros Hc Hn E Hp. pattern fs, fs'. eapply saveHorcruxes_loop_ind; [| | | | |exact E];
    [done..|intros ? ? ? E1 E2; by rewrite E2, E1|].
  intros k b fs1 Hk. apply saveFile_other. by apply Hp.
Qed.

(** New files can be made at [p] as long as nothing is there. *)
Definition creatable (fs : filesystem) (p : path) : Prop :=
  forall fs', fs ⊆ fs' -> fs' !! p = None -> open_write fs' p = true.

Lemma creatable_mono fs fs' p : fs ⊆ fs' -> creatable fs p -> creatable fs' p.
Proof. intros Hs Hc fs'' Hs'. apply Hc. by transitivity fs'. Qed.

Lemma saveFile_grows `{!OSLaws} b p fs : fs ⊆ (saveFile b p fs).2.
Proof. apply map_subseteq_spec. intros q n. apply saveFile_keeps. Qed.

(** Every horcrux ends up in its own file. *)
Lemma saveHorcruxes_loop_stores `{!OSLaws, !ReliableOS} uuid slots : forall counter fs fs',
  0 <= uuid -> 0 <= counter -> counter + zlen slots < 2 ^ 32 ->
  (forall k, counter <= k < counter + zlen slots ->
  fs !! save_path uuid k = None /\ creatable fs (save_path uuid k)) ->
  saveHorcruxes_loop uuid counter slots fs = (Ret (), fs') ->
  forall i h, slots !! i = Some (Some h) ->
  fs' !! save_path uuid (counter + Z.of_nat i) = Some (RegularFile (mContent h)).
Proof.
  induction slots as [|o slots IH]; intros counter fs fs' Hu Hc0 Hn Hf Hl i h Hi; [done|].
  destruct o as [h0|]; [|done]. rewrite saveHorcruxes_loop_cons in Hl.
  rewrite zlen_cons in *. pose proof (zlen_nonneg slots).
  destruct (Hf counter) as [Hnone Hcr]; [lia|].
  rewrite saveFile_stores, u32_small in Hl;
    [|lia|by unfold is_regular_file; rewrite Hnone|by apply Hcr].
  destruct i as [|i]; simpl in Hi.
  - injection Hi as ->. rewrite Z.add_0_r.
    eapply saveHorcruxes_loop_keeps; [| |exact Hl|]; [lia|lia|]. apply lookup_insert_eq.
  - replace (counter + Z.of_nat (S i)) with (counter + 1 + Z.of_nat i) by lia.
    eapply IH; [done| | | |exact Hl|done]; try lia.
    intros k Hk. destruct (Hf k) as [Hnk Hck]; [lia|].
    assert (Hne : save_path uuid counter <> save_path uuid k).
    { intros E. apply save_path_inj in E; lia. }
    rewrite lookup_insert_ne by done. split; [done|].
    apply (creatable_mono fs); [|done]. by apply insert_subseteq.
Qed.
End Saving.

(** * The invariant of a connection *)
Section Invariant.
Context `{OS}.

Definition buffers_ok (c : connection) : Prop :=
  is_object PreRequestHeader.t (mPreRequestHeaderBuffer c) /\
    is_object Request.Header (mRequestHeaderBuffer c) /\
    mConfig c = default_config.

(** A pre-request header was accepted: there is a slot for each announced
    horcrux, and the announced numbers are within the limits. *)
Definition accepted (c : connection) : Prop :=
  let p := mPreRequestHeader c in
  zlen (mCurrentRequestHorcruxes c) = PreRequestHeader.mNumHorcruxes p /\
    PreRequestHeader.mNumHorcruxes p <= mMaxNumHorcruxAccepted (mConfig c) /\
    PreRequestHeader.mTotalSize p <= mMaxTotalSizeAccepted (mConfig c) /\
    0 <= PreRequestHeader.mUuid p.

(** A request header was accepted: it names a free slot of this file, and the
    message buffer has the announced size. *)
Definition expecting_content (c : connection) : Prop :=
  let r := mRequestHeader c in
  accepted c /\ 0 <= Request.mIndex r /\
    mCurrentRequestHorcruxes c !! Z.to_nat (Request.mIndex r) = Some None /\
    Request.mUuid r = PreRequestHeader.mUuid (mPreRequestHeader c) /\
    zlen (mMessageBuffer c) = Request.mContentSize r.

Lemma accepted_few c : buffers_ok c -> accepted c -> zlen (mCurrentRequestHorcruxes c) <= 20.
Proof. intros (_ & _ & Hcfg) (Hn & Hm & _). rewrite Hcfg in Hm. simpl in Hm. lia. Qed.

Definition conn_inv (st : state) : Prop :=
  let c := st_conn st in
  buffers_ok c /\
    match st_op st with
    | Some ReadingPreRequestHeader => mCurrentRequestHorcruxes c = []
    | Some ReadingRequestHeader | Some (WritingResponse NextReadRequestHeader) => accepted c
    | Some ReadingRequestContent => expecting_content c
    | Some (WritingResponse NextSaveHorcruxes) =>
        accepted c /\ received (mCurrentRequestHorcruxes c)
    | Some (WritingResponse NextNothing) | None => True
    end.

Lemma conn_inv_Start fs : conn_inv (Start fs).
Proof. done. Qed.

Lemma length_resize {A} n (x : A) l : length (resize n x l) = n.
Proof. unfold resize. rewrite length_app, length_take, length_replicate. lia. Qed.

Lemma received_pre_header_ok c :
  pre_header_ok (deserializeHeader (new_object PreRequestHeader.default)
  (mPreRequestHeaderBuffer c)).
Proof. apply pre_header_wf, object_value_wf. Qed.

Lemma received_request_header_ok c :
  request_header_ok (deserializeHeader (new_object Request.defaultHeader)
  (mRequestHeaderBuffer c)).
Proof. apply request_header_wf, object_value_wf. Qed.

Lemma checkPreRequestHeader_spec c :
  checkPreRequestHeader c = true <->
  PreRequestHeader.mNumHorcruxes (mPreRequestHeader c) <= mMaxNumHorcruxAccepted (mConfig c) /\
  PreRequestHeader.mTotalSize (mPreRequestHeader c) <= mMaxTotalSizeAccepted (mConfig c).
Proof. unfold checkPreRequestHeader. repeat case_match; lia. Qed.

(** The request header check never goes out of bounds, and accepts exactly
    the free slots of the announced file. *)
Lemma checkRequestHeader_spec c :
  0 <= Request.mIndex (mRequestHeader c) ->
  exists ok, checkRequestHeader c = Ret ok /\
  (ok = true <->
  Request.mUuid (mRequestHeader c) = PreRequestHeader.mUuid (mPreRequestHeader c) /\
  mCurrentRequestHorcruxes c !! Z.to_nat (Request.mIndex (mRequestHeader c)) = Some None).
Proof.
  intros Hi. unfold checkRequestHeader.
  destruct (Z.eqb_spec (Request.mUuid (mRequestHeader c))
    (PreRequestHeader.mUuid (mPreRequestHeader c))) as [Hu|Hu]; cbn [negb];
    [|by exists false; split; [|intuition congruence]].
  destruct (Z.leb_spec (zlen (mCurrentRequestHorcruxes c)) (Request.mIndex (mRequestHeader c)))
    as [Hl|Hl].
  - exists false. split; [done|]. split; [done|]. intros [_ Hs].
    apply lookup_lt_Some in Hs. unfold zlen in Hl. lia.
  - unfold at_. destruct (lookup_lt_is_Some_2 (mCurrentRequestHorcruxes c)
    (Z.to_nat (Request.mIndex (mRequestHeader c)))) as [slot Hs]; [unfold zlen in Hl; lia|].
    rewrite Hs. cbn. eexists; split; [done|].
    destruct slot; simpl; intuition congruence.
Qed.

(** The handlers keep the invariant, and always return. *)
Lemma onPreRequestHeader_inv ec c fs :
  buffers_ok c -> mCurrentRequestHorcruxes c = [] ->
  exists st', onPreRequestHeader ec c fs = Ret st' /\ conn_inv st' /\ st_fs st' = fs.
Proof.
  intros Hb Hc. unfold onPreRequestHeader. destruct (ec_is_error ec); [by eexists|].
  pose proof (received_pre_header_ok c) as (Hu & Ht & Hn).
  set (p := deserializeHeader _ _) in *. clearbody p.
  destruct (checkPreRequestHeader _) eqn:E; [|by eexists].
  apply checkPreRequestHeader_spec in E as [E1 E2].
  eexists; split; [done|]. split; [|done]. split; [done|]. simpl in *.
  unfold accepted; simpl. repeat split; try done; try lia.
  unfold zlen. rewrite length_resize. lia.
Qed.

Lemma onRequestHeader_inv ec c fs :
  buffers_ok c -> accepted c ->
  exists st', onRequestHeader ec c fs = Ret st' /\ conn_inv st' /\ st_fs st' = fs.
Proof.
  intros Hb Ha. unfold onRequestHeader. destruct (ec_is_error ec); [by eexists|].
  pose proof (received_request_header_ok c) as (Hu & Hi & Hs & _).
  set (r := deserializeHeader _ _) in *. clearbody r.
  destruct (checkRequestHeader_spec (set_request_header c r)) as (ok & -> & Hok); [simpl; lia|].
  cbn [mbind outcome_bind]. destruct ok; [|by eexists].
  destruct Hok as [[Huuid Hslot] _]; [done|].
  eexists; split; [done|]. split; [|done]. split; [done|]. simpl.
  unfold expecting_content; simpl in *.
  split; [exact Ha|]. split; [lia|]. split; [done|]. split; [done|].
  unfold zlen. rewrite length_resize. lia.
Qed.

Lemma onRequestContent_inv ec c fs :
  buffers_ok c -> expecting_content c ->
  exists st', onRequestContent ec c fs = Ret st' /\ conn_inv st' /\ st_fs st' = fs.
Proof.
  intros Hb (Ha & Hi & Hs & _). unfold onRequestContent.
  destruct (ec_is_error ec); [by eexists|]. unfold assign.
  pose proof (lookup_lt_Some _ _ _ Hs) as Hlt.
  rewrite (proj2 (Nat.ltb_lt _ _) Hlt). cbn [mbind outcome_bind].
  destruct (forallb _ _) eqn:E;
    (eexists; split; [done|]; split; [|done]; split; [done|]).
  - apply forallb_received in E. split; [|done].
    unfold accepted, zlen; simpl. rewrite length_insert. apply Ha.
  - unfold accepted, zlen; simpl. rewrite length_insert. apply Ha.
Qed.

Lemma saveHorcruxes_run c fs :
  saveHorcruxes c fs =
  match saveHorcruxes_loop (PreRequestHeader.mUuid (mPreRequestHeader c)) 0
    (mCurrentRequestHorcruxes c) fs with
  | (Ret _, fs') => (Ret true, fs')
  | (Throw e, fs') => (Throw e, fs')
  | (Undef, fs') => (Undef, fs')
  end.
Proof. done. Qed.

(** The state that saving leaves. *)
Definition saving_ends (c : connection) (r : outcome () * filesystem) : outcome state :=
  match r with
  | (Ret _, fs) => Ret (mkState c fs None)
  | (Throw e, fs) => Ret (mkHandled c fs None (Some e))
  | (Undef, _) => Undef
  end.

Lemma onResponse_saves ec c fs :
  onResponse NextSaveHorcruxes ec c fs =
  saving_ends c (saveHorcruxes_loop (PreRequestHeader.mUuid (mPreRequestHeader c)) 0
    (mCurrentRequestHorcruxes c) fs).
Proof. simpl. rewrite saveHorcruxes_run. by destruct (saveHorcruxes_loop _ _ _ _) as [[] ?]. Qed.

(** A file of the connection [c] cannot be saved. *)
Definition connection_fails (c : connection) (fs fs' : filesystem) (e : exn) : Prop :=
  save_fails (PreRequestHeader.mUuid (mPreRequestHeader c)) 0 (mCurrentRequestHorcruxes c) fs fs' e.

Lemma saves_or_fails c fs :
  buffers_ok c -> accepted c -> received (mCurrentRequestHorcruxes c) ->
  exists fs', saveHorcruxes c fs = (Ret true, fs') \/
  exists e, saveHorcruxes c fs = (Throw e, fs') /\ connection_fails c fs fs' e.
Proof.
  intros Hb Ha Hr. pose proof (accepted_few c Hb Ha). pose proof (zlen_nonneg (mCurrentRequestHorcruxes c)).
  destruct (saveHorcruxes_loop_total (PreRequestHeader.mUuid (mPreRequestHeader c))
    (mCurrentRequestHorcruxes c) 0 fs) as (fs' & [E|(e & E & He)]); [lia|lia|done|..];
    exists fs'; rewrite saveHorcruxes_run, E; [by left|]. right. by exists e.
Qed.

Lemma onResponse_inv next ec c fs :
  conn_inv (mkState c fs (Some (WritingResponse next))) ->
  exists st', onResponse next ec c fs = Ret st' /\ conn_inv st' /\
  (next <> NextSaveHorcruxes -> st_fs st' = fs).
Proof.
  intros [Hb Hi]. destruct next; simpl in *; [by eexists| |by eexists].
  destruct Hi as [Ha Hr]. destruct (saves_or_fails c fs Hb Ha Hr) as (fs' & [->|(e & -> & _)]); by eexists.
Qed.

Lemma fill_inv op ec data c fs :
  conn_inv (mkState c fs (Some op)) -> completes op ec data c ->
  conn_inv (mkState (fill op data c) fs (Some op)).
Proof.
  intros [(Hp & Hr & Hc) Hi] [Hlen _]. unfold is_object in *.
  destruct op as [| | |next]; simpl in *.
  - split; [|done]. repeat split; try done. unfold is_object; simpl.
    by rewrite length_std_copy.
  - split; [|done]. repeat split; try done. unfold is_object; simpl.
    by rewrite length_std_copy.
  - split; [done|]. destruct Hi as (Ha & Hx & Hs & Hu & Hm).
    split; [exact Ha|]. split; [done|]. split; [done|]. split; [done|].
    simpl. unfold zlen in *. rewrite length_std_copy by lia. done.
  - done.
Qed.

(** Progress and preservation: whatever the completion, the handler returns,
    in a state that satisfies the invariant. *)
Lemma resume_inv op ec data c fs :
  conn_inv (mkState c fs (Some op)) -> completes op ec data c ->
  exists st', resume op ec data c fs = Ret st' /\ conn_inv st' /\
  (op <> WritingResponse NextSaveHorcruxes -> st_fs st' = fs).
Proof.
  intros Hi Hc. pose proof (fill_inv op ec data c fs Hi Hc) as [Hb Hf].
  unfold resume. simpl in Hb, Hf. destruct op as [| | |next].
  - destruct (onPreRequestHeader_inv ec _ fs Hb Hf) as (st' & ? & ? & ?). by exists st'.
  - destruct (onRequestHeader_inv ec _ fs Hb Hf) as (st' & ? & ? & ?). by exists st'.
  - destruct (onRequestContent_inv ec _ fs Hb Hf) as (st' & ? & ? & ?). by exists st'.
  - destruct (onResponse_inv next ec c fs Hi) as (st' & ? & ? & Hn). exists st'.
    split; [done|]. split; [done|]. intros Hne. apply Hn. congruence.
Qed.

Lemma step_inv st st' : conn_inv st -> step st st' -> conn_inv st'.
Proof.
  intros Hi Hs. destruct Hs as [c fs op ec data st' Hc Hres].
  destruct (resume_inv op ec data c fs Hi Hc) as (st'' & E & ? & _). congruence.
Qed.

Lemma steps_inv st st' : rtc step st st' -> conn_inv st -> conn_inv st'.
Proof. induction 1; eauto using step_inv. Qed.

(** A handler lets an exception escape only where the horcruxes are saved, and then the
    connection is over. *)
Lemma resume_thrown op ec data c fs st' e :
  conn_inv (mkState c fs (Some op)) -> resume op ec data c fs = Ret st' -> st_thrown st' = Some e ->
  op = WritingResponse NextSaveHorcruxes /\ st_op st' = None /\ connection_fails c fs (st_fs st') e.
Proof.
  intros Hi E He. destruct op as [| | |[]]; simpl in E.
  - unfold onPreRequestHeader in E. by repeat case_match; injection E as <-.
  - unfold onRequestHeader in E. case_match; [by injection E as <-|].
    apply bind_Ret in E as (ok & _ & E). by destruct ok; injection E as <-.
  - unfold onRequestContent in E. case_match; [by injection E as <-|].
    apply bind_Ret in E as (hs & _ & E). by destruct (forallb _ hs); injection E as <-.
  - by injection E as <-.
  - destruct Hi as [Hb [Ha Hr]]. simpl in E. destruct (saves_or_fails c fs Hb Ha Hr) as (fs' & [Es|(e' & Es & Hf)]);
      rewrite Es in E; injection E as <-; [done|]. injection He as ->. by split_and!.
  - by injection E as <-.
Qed.

Lemma steps_thrown fs st :
  rtc step (Start fs) st -> st_op st <> None -> st_thrown st = None.
Proof.
  intros Hr Ho. apply rtc_inv_r in Hr as [<-|(st1 & Hr & Hs)]; [done|].
  pose proof (steps_inv _ _ Hr (conn_inv_Start fs)) as Hi.
  destruct Hs as [c fs' op ec data st' _ E]. destruct (st_thrown st') eqn:He; [|done].
  by apply (resume_thrown _ _ _ _ _ _ _ Hi E) in He as (_ & ? & _).
Qed.

(** Until the last response is sent nothing is stored; then everything that
    was received is, unless that fails. *)
Definition saved (fs : filesystem) (st : state) : Prop :=
  let c := st_conn st in
  st_op st = None /\ buffers_ok c /\ accepted c /\ received (mCurrentRequestHorcruxes c) /\
    saveHorcruxes_loop (PreRequestHeader.mUuid (mPreRequestHeader c)) 0
    (mCurrentRequestHorcruxes c) fs =
    (match st_thrown st with Some e => Throw e | None => Ret () end, st_fs st).

Lemma saves ec data c fs st' :
  conn_inv (mkState c fs (Some (WritingResponse NextSaveHorcruxes))) ->
  resume (WritingResponse NextSaveHorcruxes) ec data c fs = Ret st' -> saved fs st' /\ st_conn st' = c.
Proof.
  intros [Hb [Ha Hr]] Hres. simpl in Hres. rewrite saveHorcruxes_run in Hres.
  destruct (saveHorcruxes_loop _ _ _ fs) as [[[]|e|] fs'] eqn:E; [| |done]; injection Hres as <-;
    (split; [|done]); by split_and!.
Qed.

Lemma step_saved fs st st' :
  conn_inv st -> st_fs st = fs -> step st st' -> st_fs st' = fs \/ saved fs st'.
Proof.
  intros Hi Hf Hs. destruct Hs as [c fs' op ec data st' Hc Hres]. simpl in Hf. subst fs'.
  destruct (decide (op = WritingResponse NextSaveHorcruxes)) as [->|Hne].
  - right. by apply saves in Hres as [? _].
  - left. destruct (resume_inv op ec data c fs Hi Hc) as (st'' & E & _ & Hk).
    rewrite Hres in E. injection E as ->. by apply Hk.
Qed.

Lemma steps_saved fs st st' :
  rtc step st st' -> conn_inv st -> st_fs st = fs -> st_fs st' = fs \/ saved fs st'.
Proof.
  induction 1 as [st|st st1 st' Hs Hr IH]; intros Hi Hf; [by left|].
  destruct (step_saved fs st st1 Hi Hf Hs) as [Hf1|Hsv].
  - apply IH; [by eapply step_inv|done].
  - right. destruct Hr as [|st1 st2 st' Hs2]; [done|].
    destruct Hs2. by destruct Hsv as [? _].
Qed.
End Invariant.

(** C6. No sequence of completions, errors included, makes the server go out of
    bounds, read an empty optional or throw: from every reachable state, the
    handler of the operation in flight returns.  There is one exception that escapes, the
    [filesystem_error] of [is_regular_file] in [saveFile]: only from the handler of the
    last response, and only when [stat] fails for one of the connection's files. *)
Theorem connection_never_fails `{OS} fs st op ec data :
  rtc step (Start fs) st -> st_op st = Some op -> completes op ec data (st_conn st) ->
  exists st', resume op ec data (st_conn st) (st_fs st) = Ret st' /\ step st st' /\
    forall e, st_thrown st' = Some e ->
      op = WritingResponse NextSaveHorcruxes /\ st_op st' = None /\
      connection_fails (st_conn st) (st_fs st) (st_fs st') e.
Proof.
  intros Hr Ho Hc. pose proof (steps_inv _ _ Hr (conn_inv_Start fs)) as Hi.
  pose proof (steps_thrown _ _ Hr) as Ht.
  destruct st as [c fs' op' th]. simpl in *. subst op'. rewrite Ht in * by done. clear Ht.
  destruct (resume_inv op ec data c fs' Hi Hc) as (st' & E & _).
  exists st'. split; [done|]. split; [by apply (step_resume c fs' op ec data)|].
  intros e He. by apply (resume_thrown _ _ _ _ _ _ _ Hi E).
Qed.

(** Whatever the peer does, every file and directory that existed stays as it
    was; the file system only changes when the connection ends with all the
    announced horcruxes received, and then only at their files. *)
Theorem connection_storage_safe `{OSLaws} fs st :
  rtc step (Start fs) st ->
  (forall p n, fs !! p = Some n -> st_fs st !! p = Some n) /\
  (st_fs st <> fs ->
    st_op st = None /\
    let c := st_conn st in
    let n := PreRequestHeader.mNumHorcruxes (mPreRequestHeader c) in
    1 <= n <= 20 /\ zlen (mCurrentRequestHorcruxes c) = n /\
    received (mCurrentRequestHorcruxes c) /\
    forall p, (forall k, 0 <= k < n ->
        p <> save_path (PreRequestHeader.mUuid (mPreRequestHeader c)) k) ->
      st_fs st !! p = fs !! p).
Proof.
  intros Hr. pose proof (steps_inv _ _ Hr (conn_inv_Start fs)) as [(_ & _ & Hcfg) _].
  destruct (steps_saved fs _ _ Hr (conn_inv_Start fs) eq_refl) as [->|Hs]; [done|].
  destruct Hs as (Ho & _ & (Hn & Hmax & _ & Hu) & Hrec & Hl). rewrite Hcfg in Hmax. simpl in Hmax.
  pose proof (zlen_nonneg (mCurrentRequestHorcruxes (st_conn st))).
  split; [intros p n; eapply saveHorcruxes_loop_keeps; [| |exact Hl]; lia|].
  intros Hne. split; [done|]. cbn zeta.
  assert (mCurrentRequestHorcruxes (st_conn st) <> []).
  { intros E. rewrite E in Hl. by injection Hl as _ ->. }
  assert (zlen (mCurrentRequestHorcruxes (st_conn st)) <> 0).
  { unfold zlen. by destruct (mCurrentRequestHorcruxes (st_conn st)). }
  repeat split; try done; try lia.
  intros p Hp. eapply saveHorcruxes_loop_frame; [| |exact Hl|]; try lia.
  intros k Hk. apply Hp. lia.
Qed.
