(* ===== verification/ServeSpec.v ===== *)
(** A whole connection: what the server answers and stores for a peer that
    sends a complete file, and that it always comes to an end. *)

From S2P Require Import Prelude.
From S2P Require Import ObjectRepr.
From S2P Require Import Splitter.
From S2P Require Import FileSystem.
From S2P Require Import Requests.
From S2P Require Import AsioError.
From S2P Require Import Connection.
From S2P Require Import ConnectionSpec.

(** * What a peer sends *)

(** The bytes of a pre-request header, and of a request followed by its content;
    the padding and the announced checksum size may be anything. *)
Definition sends_pre_header (p : PreRequestHeader.t) (w : bytes) : Prop :=
  is_object PreRequestHeader.t w /\ object_value w = p.

Definition sends_horcrux (uuid : Z) (m : nat * bytes) (w : bytes) : Prop :=
  exists hb, w = hb ++ m.2 /\ is_object Request.Header hb /\
    Request.mUuid (object_value hb) = uuid /\
    Request.mIndex (object_value hb) = Z.of_nat m.1 /\
    Request.mContentSize (object_value hb) = zlen m.2.

Definition SUCCESS : bytes := lit "SUCCESS".

Definition FAILURE : bytes := lit "FAILURE".

(** The slots after the horcruxes [msgs] were received. *)
Definition put (slots : list (option HorcruxData)) (m : nat * bytes) :
    list (option HorcruxData) :=
  <[m.1 := Some (mkHorcruxData m.2 (lit ""))]> slots.

Section Serve.
Context `{OS}.

Lemma serve_done fuel st input output :
  st_op st = None -> serve fuel st input output = Ret (st, input, output).
Proof. intros E. destruct fuel; simpl; by rewrite E. Qed.

Lemma serve_thrown fuel c fs op e input output :
  serve fuel (mkHandled c fs (Some op) e) input output = serve fuel (mkState c fs (Some op)) input output.
Proof. by destruct fuel. Qed.

Definition is_read (op : async_op) : Prop :=
  match op with
  | WritingResponse _ => False
  | _ => True
  end.

#[global] Instance is_read_dec op : Decision (is_read op).
Proof. destruct op; apply _. Defined.

Lemma serve_unfold fuel op c fs input output :
  is_read op ->
  serve (S fuel) (mkState c fs (Some op)) input output =
  (let n := read_size op c in
   if (n <=? length input)%nat then
     st' ← resume op ec_success (take n input) c fs; serve fuel st' (drop n input) output
   else st' ← resume op eof input c fs; serve fuel st' [] output).
Proof. by destruct op. Qed.

Lemma serve_read fuel op c fs w rest output :
  is_read op -> length w = read_size op c ->
  serve (S fuel) (mkState c fs (Some op)) (w ++ rest) output =
  (st' ← resume op ec_success w c fs; serve fuel st' rest output).
Proof.
  intros Hop Hw.
  rewrite serve_unfold by done. cbn zeta. rewrite <- Hw, length_app, (proj2 (Nat.leb_le _ _)) by lia.
  by rewrite take_app_length, drop_app_length.
Qed.

Lemma serve_short fuel op c fs input output :
  is_read op -> (length input < read_size op c)%nat ->
  serve (S fuel) (mkState c fs (Some op)) input output =
  (st' ← resume op eof input c fs; serve fuel st' [] output).
Proof.
  intros Hop Hn. rewrite serve_unfold by done. cbn zeta. by rewrite (proj2 (Nat.leb_gt _ _)).
Qed.

Lemma serve_write fuel next c fs input output :
  serve (S fuel) (mkState c fs (Some (WritingResponse next))) input output =
  (st' ← onResponse next ec_success c fs;
  serve fuel st' input (output ++ mMessageBuffer c)).
Proof. done. Qed.

(** Between two requests of the file [uuid]. *)
Definition ready (uuid : Z) (slots : list (option HorcruxData)) (c : connection) : Prop :=
  buffers_ok c /\ accepted c /\ mCurrentRequestHorcruxes c = slots /\
    PreRequestHeader.mUuid (mPreRequestHeader c) = uuid.

Lemma resume_request_header uuid slots c fs i size hb :
  ready uuid slots c -> is_object Request.Header hb ->
  Request.mUuid (object_value hb) = uuid ->
  Request.mIndex (object_value hb) = Z.of_nat i ->
  Request.mContentSize (object_value hb) = Z.of_nat size ->
  slots !! i = Some None ->
  exists c', resume ReadingRequestHeader ec_success hb c fs
  = Ret (mkState c' fs (Some ReadingRequestContent)) /\
  ready uuid slots c' /\ Request.mIndex (mRequestHeader c') = Z.of_nat i /\
  read_size ReadingRequestContent c' = size /\ length (mMessageBuffer c') = size.
Proof.
  intros (Hb & Ha & Hs & Hu) Ho Huu Hi Hsz Hfree.
  assert (Hcopy : std_copy hb (mRequestHeaderBuffer c) = hb).
  { apply std_copy_all. destruct Hb as (_ & Hr & _). unfold is_object in *. congruence. }
  unfold resume. cbn [fill]. rewrite Hcopy. unfold onRequestHeader. cbn [ec_is_error].
  change (ec_is_error ec_success) with false. cbn [mRequestHeaderBuffer set_request_buffer].
  rewrite deserializeHeader_value by (done || apply is_new_object).
  match goal with |- context [checkRequestHeader ?x] =>
    destruct (checkRequestHeader_spec x) as (ok & -> & Hok) end; [cbn [mRequestHeader set_request_header]; rewrite Hi; lia|].
  assert (ok = true) as ->.
  { apply Hok. cbn [mRequestHeader set_request_header mPreRequestHeader set_request_buffer
    mCurrentRequestHorcruxes]. rewrite Huu, Hi, Nat2Z.id, Hs. done. }
  cbn [mbind outcome_bind]. eexists; split; [reflexivity|].
  split; [|split; [done|]].
  { split; [|split; [exact Ha|split; [exact Hs|exact Hu]]].
    destruct Hb as (? & ? & ?). done. }
  cbn [read_size mRequestHeader set_request_header set_message mMessageBuffer].
  rewrite Hsz, Nat2Z.id, length_resize. split; [lia|done].
Qed.

Lemma resume_request_content uuid slots c fs i content :
  ready uuid slots c -> Request.mIndex (mRequestHeader c) = Z.of_nat i ->
  (i < length slots)%nat -> length (mMessageBuffer c) = length content ->
  let slots' := put slots (i, content) in
  exists c', resume ReadingRequestContent ec_success content c fs =
  Ret (mkState c' fs (Some (WritingResponse
  (if forallb (fun o => bool_decide (is_Some o)) slots'
  then NextSaveHorcruxes else NextReadRequestHeader)))) /\
  ready uuid slots' c' /\ mMessageBuffer c' = SUCCESS.
Proof.
  intros (Hb & Ha & Hs & Hu) Hi Hlt Hlen slots'.
  unfold resume. cbn [fill]. rewrite std_copy_all by done.
  unfold onRequestContent, assign. change (ec_is_error ec_success) with false.
  cbn [mCurrentRequestHorcruxes mRequestHeader set_message mMessageBuffer].
  rewrite Hi, Hs, Nat2Z.id, (proj2 (Nat.ltb_lt _ _)) by done.
  cbn [mbind outcome_bind].
  change (<[i := Some (mkHorcruxData content (lit ""))]> slots) with slots'.
  exists (set_message (set_horcruxes (set_message c content) slots') SUCCESS).
  split; [by destruct (forallb _ slots')|]. split; [|done].
  split; [done|]. split; [|done]. destruct Ha as (Hn & ?).
  split; [|done]. simpl. unfold slots', put, zlen in *. rewrite length_insert.
  rewrite <- Hn, Hs. done.
Qed.

(** One horcrux: three steps of the server, then either the file is saved or
    the next request is awaited. *)
Lemma serve_horcrux uuid slots c fs m w rest output fuel :
  ready uuid slots c -> sends_horcrux uuid m w -> slots !! m.1 = Some None ->
  exists c', ready uuid (put slots m) c' /\
  serve (3 + fuel) (mkState c fs (Some ReadingRequestHeader)) (w ++ rest) output =
  if forallb (fun o => bool_decide (is_Some o)) (put slots m)
  then st' ← saving_ends c' (saveHorcruxes_loop uuid 0 (put slots m) fs);
  Ret (st', rest, output ++ SUCCESS)
  else serve fuel (mkState c' fs (Some ReadingRequestHeader)) rest (output ++ SUCCESS).
Proof.
  destruct m as [i content]. intros Hr (hb & -> & Ho & Hu & Hi & Hsz) Hfree.
  cbn [fst snd] in *.
  destruct (resume_request_header uuid slots c fs i (length content) hb)
    as (c1 & E1 & R1 & I1 & S1 & L1); try done.
  destruct (resume_request_content uuid slots c1 fs i content)
    as (c2 & E2 & R2 & M2); try done; [by eapply lookup_lt_Some|].
  exists c2. split; [exact R2|].
  rewrite <- app_assoc. change (3 + fuel)%nat with (S (S (S fuel))).
  rewrite serve_read; [|done|by destruct Hr as ((_ & Hr & _) & _); simpl; rewrite Hr].
  rewrite E1. cbn [mbind outcome_bind].
  rewrite serve_read by done. rewrite E2. cbn [mbind outcome_bind].
  rewrite serve_write, M2. destruct R2 as (Hb2 & _ & Hs2 & Hu2).
  destruct (forallb _ _); [|done]. rewrite onResponse_saves, Hs2, Hu2.
  destruct (saveHorcruxes_loop _ _ _ _) as [[] ?]; [| |done];
    cbn [saving_ends mbind outcome_bind]; by rewrite serve_done.
Qed.

Definition puts (slots : list (option HorcruxData)) (msgs : list (nat * bytes)) :
    list (option HorcruxData) := foldl put slots msgs.

Lemma length_puts slots msgs : length (puts slots msgs) = length slots.
Proof.
  revert slots; induction msgs as [|m msgs IH]; intros slots; simpl; [done|].
  rewrite IH. apply length_insert.
Qed.

Lemma puts_other slots msgs i :
  i ∉ msgs.*1 -> puts slots msgs !! i = slots !! i.
Proof.
  revert slots; induction msgs as [|m msgs IH]; intros slots Hi; simpl; [done|].
  apply not_elem_of_cons in Hi as [Hm Hi]. rewrite IH by done.
  apply list_lookup_insert_ne. congruence.
Qed.

(** Each slot ends up with the content sent for it. *)
Lemma puts_lookup slots msgs i content :
  NoDup msgs.*1 -> (i, content) ∈ msgs -> (i < length slots)%nat ->
  puts slots msgs !! i = Some (Some (mkHorcruxData content (lit ""))).
Proof.
  revert slots; induction msgs as [|m msgs IH]; intros slots Hnd Hin Hlt;
    [by apply elem_of_nil in Hin|].
  simpl in *. apply NoDup_cons in Hnd as [Hni Hnd].
  apply elem_of_cons in Hin as [<-|Hin].
  - rewrite puts_other by done. by apply list_lookup_insert_eq.
  - apply IH; [done|done|]. unfold put. by rewrite length_insert.
Qed.

Lemma received_puts n msgs :
  msgs.*1 ≡ₚ seq 0 n -> received (puts (replicate n None) msgs).
Proof.
  intros Hp. apply Forall_lookup. intros i o Hi.
  pose proof (lookup_lt_Some _ _ _ Hi) as Hlt.
  rewrite length_puts, length_replicate in Hlt.
  assert (Hm : i ∈ msgs.*1) by (rewrite Hp; apply elem_of_seq; lia).
  apply list_elem_of_fmap in Hm as ([j content] & -> & Hm). simpl in *.
  rewrite (puts_lookup _ _ _ content) in Hi; [by injection Hi as <-|..].
  - rewrite Hp. apply NoDup_seq.
  - done.
  - by rewrite length_replicate.
Qed.

Lemma not_received slots i : slots !! i = Some None -> ~ received slots.
Proof.
  intros Hi Hr. unfold received in Hr. rewrite Forall_lookup in Hr.
  by destruct (Hr _ _ Hi).
Qed.

(** All the horcruxes of a file, in any order: each is acknowledged, and the
    last one completes the file. *)
Lemma serve_horcruxes uuid fs rest msgs : forall ws slots c output fuel,
  msgs <> [] -> ready uuid slots c -> Forall2 (sends_horcrux uuid) msgs ws ->
  NoDup msgs.*1 -> Forall (fun m => slots !! m.1 = Some None) msgs ->
  received (puts slots msgs) -> (3 * length msgs <= fuel)%nat ->
  exists c', ready uuid (puts slots msgs) c' /\
  serve fuel (mkState c fs (Some ReadingRequestHeader)) (concat ws ++ rest) output =
  st' ← saving_ends c' (saveHorcruxes_loop uuid 0 (puts slots msgs) fs);
  Ret (st', rest, output ++ concat (replicate (length msgs) SUCCESS)).
Proof.
  induction msgs as [|m msgs IH]; intros ws slots c output fuel Hne Hr Hw Hnd Hfree Hrec Hfuel;
    [done|].
  clear Hne. apply Forall2_cons_inv_l in Hw as (w & ws' & Hm & Hw & ->).
  simpl in Hnd. apply NoDup_cons in Hnd as [Hni Hnd].
  apply Forall_cons in Hfree as [Hf Hfree]. simpl in Hfuel.
  destruct fuel as [|[|[|fuel]]]; [lia..|].
  destruct (serve_horcrux uuid slots c fs m w (concat ws' ++ rest) output fuel Hr Hm Hf)
    as (c' & Hr' & E). cbn [Nat.add] in E. cbn [concat]. rewrite <- app_assoc, E.
  destruct msgs as [|m2 msgs'].
  - rewrite (proj2 (forallb_received _)) by done. apply Forall2_nil_inv_l in Hw as ->.
    exists c'. split; [done|]. cbn [length replicate concat app]. by rewrite app_nil_r.
  - assert (Hfree' : Forall (fun k => put slots m !! k.1 = Some None) (m2 :: msgs')).
    { rewrite Forall_forall in Hfree |- *. intros k Hin.
      unfold put. rewrite list_lookup_insert_ne; [by apply Hfree|].
      intros Heq. apply Hni. rewrite Heq. apply list_elem_of_fmap. by exists k. }
    replace (forallb _ _) with false.
    2:{ symmetry. apply not_true_iff_false. rewrite forallb_received.
      apply (not_received _ m2.1). by apply Forall_cons in Hfree' as [? _]. }
    destruct (IH ws' (put slots m) c' (output ++ SUCCESS) fuel) as (c'' & Hr'' & E'');
      try done; [simpl in *; lia|].
    exists c''. split; [done|]. rewrite E''. cbn [length replicate concat]. by rewrite <- !app_assoc.
Qed.

Definition within_limits (p : PreRequestHeader.t) : bool :=
  (PreRequestHeader.mNumHorcruxes p <=? 20) && (PreRequestHeader.mTotalSize p <=? 10000000).

(** The first exchange: the file is accepted or refused on what the header
    announces. *)
Lemma resume_pre_header fs p w :
  sends_pre_header p w ->
  exists c', resume ReadingPreRequestHeader ec_success w new_connection fs =
  Ret (mkState c' fs (Some (WritingResponse
  (if within_limits p then NextReadRequestHeader else NextNothing)))) /\
  mMessageBuffer c' = (if within_limits p then SUCCESS else FAILURE) /\
  (within_limits p = true ->
  ready (PreRequestHeader.mUuid p)
  (replicate (Z.to_nat (PreRequestHeader.mNumHorcruxes p)) None) c').
Proof.
  intros [Hw Hp]. unfold resume. cbn [fill].
  rewrite std_copy_all by exact (eq_sym Hw).
  unfold onPreRequestHeader. change (ec_is_error ec_success) with false.
  cbn [mPreRequestHeaderBuffer set_pre_buffer].
  rewrite deserializeHeader_value by (done || apply is_new_object). rewrite Hp.
  assert (Hok : pre_header_ok p) by (rewrite <- Hp; apply pre_header_wf, object_value_wf).
  set (c := set_pre_header (set_pre_buffer new_connection w) p).
  assert (Hchk : checkPreRequestHeader c = within_limits p).
  { unfold checkPreRequestHeader, within_limits. cbn. repeat case_match; lia. }
  rewrite <- Hchk. destruct (checkPreRequestHeader c) eqn:E.
  - eexists. split; [reflexivity|]. split; [done|]. intros _.
    apply checkPreRequestHeader_spec in E as [E1 E2]. destruct Hok as (Hu & _ & Hn).
    cbn [fill st_conn]. split; [done|]. split; [|split; [|done]].
    + split; [|exact (conj E1 (conj E2 (proj1 Hu)))]. unfold zlen.
      cbn [mCurrentRequestHorcruxes set_message set_horcruxes].
      rewrite length_resize. cbn. lia.
    + cbn [mCurrentRequestHorcruxes set_message set_horcruxes]. unfold resize.
      cbn [mCurrentRequestHorcruxes c set_pre_header set_pre_buffer new_connection length].
      by rewrite take_nil, Nat.sub_0_r.
  - exists (set_message c FAILURE). by split.
Qed.

Lemma serve_pre_header fs p w rest fuel :
  sends_pre_header p w ->
  exists c',
  (within_limits p = true ->
  ready (PreRequestHeader.mUuid p)
  (replicate (Z.to_nat (PreRequestHeader.mNumHorcruxes p)) None) c') /\
  serve (2 + fuel) (Start fs) (w ++ rest) [] =
  if within_limits p
  then serve fuel (mkState c' fs (Some ReadingRequestHeader)) rest SUCCESS
  else Ret (mkState c' fs None, rest, FAILURE).
Proof.
  intros Hp. destruct (resume_pre_header fs p w Hp) as (c' & E & Hm & Hr).
  exists c'. split; [exact Hr|]. change (2 + fuel)%nat with (S (S fuel)).
  unfold Start, ReadPreRequestHeader. rewrite serve_read; [|done|exact (proj1 Hp)].
  rewrite E. cbn [mbind outcome_bind]. rewrite serve_write, Hm.
  destruct (within_limits p); cbn [onResponse mbind outcome_bind]; [done|by rewrite serve_done].
Qed.

(** A peer that sends a complete file of between 1 and 20 horcruxes. *)
Record complete_file (p : PreRequestHeader.t) (msgs : list (nat * bytes)) (w0 : bytes)
    (ws : list bytes) : Prop := {
  cf_pre_header : sends_pre_header p w0;
  cf_horcruxes : Forall2 (sends_horcrux (PreRequestHeader.mUuid p)) msgs ws;
  cf_indices : msgs.*1 ≡ₚ seq 0 (Z.to_nat (PreRequestHeader.mNumHorcruxes p));
  cf_count : 1 <= PreRequestHeader.mNumHorcruxes p <= 20;
  cf_size : PreRequestHeader.mTotalSize p <= 10000000
}.

Definition file_slots (p : PreRequestHeader.t) (msgs : list (nat * bytes)) :=
  puts (replicate (Z.to_nat (PreRequestHeader.mNumHorcruxes p)) None) msgs.

Lemma sends_pre_header_ok p w : sends_pre_header p w -> pre_header_ok p.
Proof. intros [_ <-]. apply pre_header_wf, object_value_wf. Qed.

Lemma complete_file_length p msgs w0 ws :
  complete_file p msgs w0 ws -> zlen msgs = PreRequestHeader.mNumHorcruxes p.
Proof.
  intros [_ _ Hi Hc _]. apply Permutation_length in Hi.
  rewrite length_fmap, length_seq in Hi. unfold zlen. lia.
Qed.

Lemma serve_file fs p msgs w0 ws rest fuel :
  complete_file p msgs w0 ws -> (2 + 3 * length msgs <= fuel)%nat ->
  exists c', ready (PreRequestHeader.mUuid p) (file_slots p msgs) c' /\
  serve fuel (Start fs) (w0 ++ concat ws ++ rest) [] =
  st' ← saving_ends c' (saveHorcruxes_loop (PreRequestHeader.mUuid p) 0 (file_slots p msgs) fs);
  Ret (st', rest, concat (replicate (S (length msgs)) SUCCESS)).
Proof.
  intros Hcf Hfuel. pose proof (complete_file_length _ _ _ _ Hcf) as Hlen.
  destruct Hcf as [Hp Hw Hi Hc Hs].
  pose proof (sends_pre_header_ok p w0 Hp) as (Hu & _).
  destruct fuel as [|[|fuel]]; [lia..|].
  destruct (serve_pre_header fs p w0 (concat ws ++ rest) fuel Hp) as (c & Hr & E).
  assert (Hl : within_limits p = true) by (unfold within_limits; lia).
  cbn [Nat.add] in E. rewrite E, Hl. clear E. specialize (Hr Hl).
  set (n := Z.to_nat (PreRequestHeader.mNumHorcruxes p)) in *.
  destruct (serve_horcruxes (PreRequestHeader.mUuid p) fs rest msgs ws (replicate n None)
    c SUCCESS fuel) as (c' & Hr' & E).
  - intros ->. rewrite zlen_nil in Hlen. lia.
  - exact Hr.
  - exact Hw.
  - rewrite Hi. apply NoDup_seq.
  - apply Forall_forall. intros m Hm. apply lookup_replicate_2.
    assert (Hin : m.1 ∈ seq 0 n) by (rewrite <- Hi; apply list_elem_of_fmap; by exists m).
    apply elem_of_seq in Hin. lia.
  - by apply received_puts.
  - lia.
  - by exists c'.
Qed.
End Serve.

(** * Termination *)
Section Termination.
Context `{OS}.

(** How many steps an operation may still take before the next read. *)
Definition rank (o : option async_op) : nat :=
  match o with
  | None => 0
  | Some ReadingPreRequestHeader | Some ReadingRequestHeader => 1
  | Some (WritingResponse _) => 2
  | Some ReadingRequestContent => 3
  end.

Lemma resume_rank op ec data c fs st' :
  resume op ec data c fs = Ret st' ->
  (rank (st_op st') <= match op with
  | WritingResponse _ => 1
  | ReadingRequestHeader => 3
  | _ => 2
  end)%nat /\
  (is_read op -> ec_is_error ec = true -> st_op st' = None).
Proof.
  unfold resume, onPreRequestHeader, onRequestHeader, onRequestContent, onResponse, sendResponse.
  cbv beta iota zeta. intros E. destruct op as [| | |[]].
  - repeat case_match; injection E as <-; simpl; split; try done; lia.
  - case_match; [injection E as <-; simpl; split; [lia|done]|].
    apply bind_Ret in E as ([] & _ & [= <-]); simpl; split; try done; lia.
  - case_match; [injection E as <-; simpl; split; [lia|done]|].
    apply bind_Ret in E as (hs & _ & E).
    destruct (forallb _ _); injection E as <-; simpl; split; try done; lia.
  - injection E as <-. simpl. split; [lia|done].
  - destruct (saveHorcruxes _ fs) as [[] ?]; [| |done]; injection E as <-; simpl; (split; [lia|done]).
  - injection E as <-. simpl. split; [lia|done].
Qed.

Lemma completes_ok op c data :
  length data = read_size op c -> completes op ec_success data c.
Proof. intros E. split; [lia|done]. Qed.

Lemma serve_terminates_from fuel : forall st input output,
  conn_inv st -> (length input + rank (st_op st) <= fuel)%nat ->
  exists st' rest out, serve fuel st input output = Ret (st', rest, out) /\
  st_op st' = None /\ rest `suffix_of` input /\ output `prefix_of` out.
Proof.
  induction fuel as [|fuel IH]; intros [c fs [op|] th] input output Hi Hf;
    try (exists (mkHandled c fs None th), input, output; by eauto).
  - destruct op; simpl in Hf; lia.
  - rewrite serve_thrown. change (conn_inv (mkState c fs (Some op))) in Hi. destruct (decide (is_read op)) as [Hop|Hop].
    + destruct (Nat.le_gt_cases (read_size op c) (length input)) as [Hn|Hn].
      * rewrite <- (take_drop (read_size op c) input).
        assert (Hl : length (take (read_size op c) input) = read_size op c)
          by (rewrite length_take; lia).
        rewrite serve_read by done.
        destruct (resume_inv op ec_success (take (read_size op c) input) c fs Hi)
          as (st' & E & Hi' & _); [by apply completes_ok|]. rewrite E. cbn [mbind outcome_bind].
        apply resume_rank in E as [Hr _].
        destruct (IH st' (drop (read_size op c) input) output Hi')
          as (st'' & rest & out & E & ? & ? & ?).
        { rewrite length_drop. destruct Hi as [(Hp & Hq & _) _].
          unfold is_object in *. simpl in Hp, Hq, Hf.
          destruct op; [| | |done]; simpl in *; try rewrite Hp in *; try rewrite Hq in *;
            unfold header_sizeof, struct_sizeof in *; simpl in *; lia. }
        exists st'', rest, out. split; [exact E|]. split; [done|]. split; [|done].
        by apply suffix_app_r.
      * destruct (resume_inv op eof input c fs Hi) as (st' & E & Hi' & _).
        { split; [lia|done]. }
        pose proof (resume_rank _ _ _ _ _ _ E) as [_ Hr].
        exists st', [], output. split; [|split; [by apply Hr|split; [apply suffix_nil|done]]].
        rewrite serve_short, E by done.
        cbn [mbind outcome_bind]. apply serve_done. by apply Hr.
    + destruct op as [| | |next]; [done..|].
      destruct (resume_inv (WritingResponse next) ec_success [] c fs Hi)
        as (st' & E & Hi' & _); [by split|].
      rewrite serve_write. unfold resume in E. cbn [fill] in E. rewrite E.
      cbn [mbind outcome_bind].
      pose proof (resume_rank (WritingResponse next) ec_success [] c fs st' E) as [Hr _].
      destruct (IH st' input (output ++ mMessageBuffer c) Hi')
        as (st'' & rest & out & E' & ? & ? & ?); [simpl in *; lia|].
      exists st'', rest, out. split; [exact E'|]. split; [done|]. split; [done|].
      etransitivity; [|done]. by apply prefix_app_r.
Qed.
End Termination.

(** * Messages of a sender with valid headers *)

Lemma sends_pre_header_repr p mem :
  pre_header_ok p -> is_object PreRequestHeader.t mem ->
  sends_pre_header p (object_repr p mem).
Proof.
  intros Hp Hm. split; [by apply is_object_repr|].
  apply object_value_repr; [by apply pre_header_wf|done].
Qed.

Lemma sends_horcrux_repr uuid i content checksum_size mem :
  0 <= uuid < 2 ^ 64 -> Z.of_nat i < 2 ^ 32 -> zlen content < 2 ^ 32 ->
  0 <= checksum_size < 2 ^ 32 -> is_object Request.Header mem ->
  sends_horcrux uuid (i, content)
    (object_repr (Request.mkHeader uuid (Z.of_nat i) (zlen content) checksum_size) mem ++ content).
Proof.
  intros Hu Hi Hc Hs Hm. pose proof (zlen_nonneg content).
  exists (object_repr (Request.mkHeader uuid (Z.of_nat i) (zlen content) checksum_size) mem).
  rewrite object_value_repr; [|apply request_header_wf; unfold request_header_ok; simpl; lia|done].
  split; [done|]. split; [by apply is_object_repr|done].
Qed.

(** [serve] is one of the executions of the connection. *)
Lemma serve_steps `{OS} fuel : forall st input output st' rest out,
  conn_inv st -> (st_op st <> None -> st_thrown st = None) ->
  serve fuel st input output = Ret (st', rest, out) -> rtc step st st'.
Proof.
  assert (forall op ec data c fs st', conn_inv (mkState c fs (Some op)) -> completes op ec data c ->
    resume op ec data c fs = Ret st' ->
    step (mkState c fs (Some op)) st' /\ conn_inv st' /\ (st_op st' <> None -> st_thrown st' = None)) as Hstep.
  { intros op ec data c fs st' Hi Hc E. assert (step (mkState c fs (Some op)) st') as Hs by by eapply step_resume.
    split; [done|]. split; [by eapply step_inv|]. intros Ho. destruct (st_thrown st') eqn:Ht; [|done].
    by apply (resume_thrown _ _ _ _ _ _ _ Hi E) in Ht as (_ & ? & _). }
  induction fuel as [|fuel IH]; intros [c fs [op|] th] input output st' rest out Hi Ht E;
    simpl in E; try (injection E as <- <- <-; apply rtc_refl); simpl in Ht; try rewrite Ht by done.
  - done.
  - destruct (decide (is_read op)) as [Hop|Hop].
    + assert (E' : (if (read_size op c <=? length input)%nat then
          st' ← resume op ec_success (take (read_size op c) input) c fs;
          serve fuel st' (drop (read_size op c) input) output
        else st' ← resume op eof input c fs; serve fuel st' [] output) = Ret (st', rest, out))
        by (by destruct op).
      destruct (Nat.leb_spec (read_size op c) (length input));
        apply bind_Ret in E' as (st1 & Hs & E');
        (eapply Hstep in Hs as (Hs & Hi' & Ht'); [eapply rtc_l; [exact Hs|by eapply IH]|exact Hi|]).
      * apply completes_ok. rewrite length_take. lia.
      * split; [lia|done].
    + destruct op as [| | |next]; [done..|].
      apply bind_Ret in E as (st1 & Hs & E).
      apply (Hstep (WritingResponse next) ec_success []) in Hs as (Hs & Hi' & Ht'); [|exact Hi|by split].
      eapply rtc_l; [exact Hs|by eapply IH].
Qed.

(** * The contract of the server *)

(** C1. A peer that sends a complete file gets one [SUCCESS] for the header and
    one per horcrux, and every horcrux is stored under its own name, whatever
    the order they were sent in, and nothing else in the file system changes; provided
    that no file of one of these names exists, that they can be created, and that the
    file system looks names up and writes whole files without error. *)
Theorem serve_stores_file `{OSLaws, !ReliableOS} fs p msgs w0 ws rest fuel :
  complete_file p msgs w0 ws ->
  (forall k, 0 <= k < PreRequestHeader.mNumHorcruxes p ->
    let q := save_path (PreRequestHeader.mUuid p) k in fs !! q = None /\ creatable fs q) ->
  (2 + 3 * length msgs <= fuel)%nat ->
  exists st, serve fuel (Start fs) (w0 ++ concat ws ++ rest) [] =
      Ret (st, rest, concat (replicate (S (length msgs)) SUCCESS)) /\
    st_op st = None /\ st_thrown st = None /\
    (forall i content, (i, content) ∈ msgs ->
      st_fs st !! save_path (PreRequestHeader.mUuid p) (Z.of_nat i)
        = Some (RegularFile content)) /\
    (forall q, (forall k, 0 <= k < PreRequestHeader.mNumHorcruxes p ->
        q <> save_path (PreRequestHeader.mUuid p) k) -> st_fs st !! q = fs !! q).
Proof.
  intros Hcf Hnew Hfuel.
  destruct (serve_file fs p msgs w0 ws rest fuel Hcf Hfuel) as (c & Hr & E).
  pose proof (sends_pre_header_ok p w0 (cf_pre_header _ _ _ _ Hcf)) as (Hu & _).
  pose proof (cf_indices _ _ _ _ Hcf) as Hi. pose proof (cf_count _ _ _ _ Hcf) as Hc.
  assert (Hlen : zlen (file_slots p msgs) = PreRequestHeader.mNumHorcruxes p).
  { unfold file_slots, zlen. rewrite length_puts, length_replicate. lia. }
  destruct (saveHorcruxes_loop_reliable (PreRequestHeader.mUuid p) (file_slots p msgs) 0 fs)
    as [fs' Hl]; [lia|lia|by apply received_puts|].
  rewrite Hl in E. cbn [saving_ends mbind outcome_bind] in E. eexists; split; [exact E|]. cbn.
  split; [done|]. split; [done|]. split.
  - intros i content Hin. rewrite <- (Z.add_0_l (Z.of_nat i)).
    refine (saveHorcruxes_loop_stores _ _ 0 fs fs' (proj1 Hu) _ _ _ Hl i
      (mkHorcruxData content (lit "")) _); [lia|lia| |].
    + rewrite Hlen. intros k Hk. apply Hnew. lia.
    + apply puts_lookup; [rewrite Hi; apply NoDup_seq|exact Hin|].
      rewrite length_replicate.
      assert (Hs : i ∈ msgs.*1) by (apply list_elem_of_fmap; by exists (i, content)).
      rewrite Hi in Hs. apply elem_of_seq in Hs. lia.
  - intros q Hq. eapply saveHorcruxes_loop_frame; [| |exact Hl|]; try lia.
    rewrite Hlen. intros k Hk. apply Hq. lia.
Qed.

(** C10. Every connection comes to an end: on any input whatsoever the server reads
    part of it, answers, and lets the connection go, within as many steps as
    there are bytes. *)
Theorem serve_terminates `{OS} fs input :
  exists st rest out, serve (S (length input)) (Start fs) input [] = Ret (st, rest, out) /\
    st_op st = None /\ rest `suffix_of` input.
Proof.
  destruct (serve_terminates_from (S (length input)) (Start fs) input [])
    as (st & rest & out & E & Ho & Hs & _); [apply conn_inv_Start|simpl; lia|].
  by exists st, rest, out.
Qed.

(** C13. A file announced with more than 20 horcruxes, or with a total size above
    ten million bytes, is refused at once: the answer is [FAILURE], the
    connection ends and nothing more is read or stored. *)
Theorem serve_refuses_file `{OS} fs p w rest fuel :
  sends_pre_header p w ->
  20 < PreRequestHeader.mNumHorcruxes p \/ 10000000 < PreRequestHeader.mTotalSize p ->
  (2 <= fuel)%nat ->
  exists c, serve fuel (Start fs) (w ++ rest) [] = Ret (mkState c fs None, rest, FAILURE).
Proof.
  intros Hp Hbad Hf. destruct fuel as [|[|fuel]]; [lia..|].
  destruct (serve_pre_header fs p w rest fuel Hp) as (c & _ & E). exists c.
  replace (within_limits p) with false in E; [exact E|].
  symmetry. unfold within_limits. apply andb_false_iff.
  destruct Hbad; [left|right]; lia.
Qed.

(** C8. A request header is answered by what it names: a free slot of the file
    is followed by exactly the announced number of content bytes; anything else
    (another file, a number out of range, a horcrux already received) ends the
    connection with [FAILURE] and stores nothing. *)
Theorem request_header_exchange `{OS} uuid slots c fs hb rest output fuel :
  ready uuid slots c -> is_object Request.Header hb ->
  let r : Request.Header := object_value hb in
  let free := Request.mUuid r = uuid /\ slots !! Z.to_nat (Request.mIndex r) = Some None in
  let run := serve (2 + fuel) (mkState c fs (Some ReadingRequestHeader)) (hb ++ rest) output in
  (free -> exists c', ready uuid slots c' /\
     Request.mIndex (mRequestHeader c') = Request.mIndex r /\
     Z.of_nat (read_size ReadingRequestContent c') = Request.mContentSize r /\
     run = serve (1 + fuel) (mkState c' fs (Some ReadingRequestContent)) rest output) /\
  (~ free -> exists c', run = Ret (mkState c' fs None, rest, output ++ FAILURE)).
Proof.
  intros Hr Ho r free run. assert (Hok : request_header_ok r).
  { apply request_header_wf, object_value_wf. }
  destruct Hok as (_ & Hi & Hsz & _).
  assert (Hread : length hb = read_size ReadingRequestHeader c).
  { destruct Hr as ((_ & Hb & _) & _). unfold is_object in *. simpl. congruence. }
  subst run. change (2 + fuel)%nat with (S (S fuel)). rewrite serve_read by done. split.
  - intros [Hu Hfree].
    destruct (resume_request_header uuid slots c fs (Z.to_nat (Request.mIndex r))
      (Z.to_nat (Request.mContentSize r)) hb Hr Ho Hu) as (c' & E & Hr' & Hi' & Hs' & _);
      [fold r; lia|fold r; lia|done|].
    exists c'. rewrite E. split; [done|]. split; [lia|]. split; [lia|done].
  - intros Hbad. destruct Hr as ((Hb1 & Hb2 & Hb3) & Ha & Hs & Hu).
    unfold resume. cbn [fill].
    rewrite std_copy_all by (unfold is_object in *; congruence).
    unfold onRequestHeader. change (ec_is_error ec_success) with false.
    cbn [mRequestHeaderBuffer set_request_buffer].
    rewrite deserializeHeader_value by (done || apply is_new_object). fold r.
    match goal with |- context [checkRequestHeader ?x] =>
      destruct (checkRequestHeader_spec x) as (ok & -> & Hok) end;
      [cbn [mRequestHeader set_request_header]; lia|].
    destruct ok.
    + destruct Hbad. destruct Hok as [[H1 H2] _]; [done|].
      cbn [mRequestHeader set_request_header mPreRequestHeader set_request_buffer
        mCurrentRequestHorcruxes] in H1, H2. unfold free. by rewrite <- Hu, <- Hs.
    + cbn [mbind outcome_bind sendResponse]. rewrite serve_write.
      cbn [onResponse mbind outcome_bind]. rewrite serve_done by done. by eexists.
Qed.

(** The sizes are not enforced: a file announced as empty may carry any
    content up to 4 GiB, and is stored. *)
Theorem serve_ignores_announced_size `{OSLaws, !ReliableOS} fs uuid content mem fuel :
  0 <= uuid < 2 ^ 64 -> zlen content < 2 ^ 32 -> is_object Request.Header mem ->
  fs !! save_path uuid 0 = None -> creatable fs (save_path uuid 0) -> (5 <= fuel)%nat ->
  let pre := PreRequestHeader.mk uuid 0 1 in
  let req := Request.mkHeader uuid 0 (zlen content) 0 in
  exists st,
    serve fuel (Start fs) (object_repr pre (new_object pre) ++ object_repr req mem ++ content) []
      = Ret (st, [], SUCCESS ++ SUCCESS) /\
    st_fs st !! save_path uuid 0 = Some (RegularFile content).
Proof.
  intros Hu Hlen Hm Hnew Hcr Hf pre req. pose proof (zlen_nonneg content).
  assert (Hpre : header_wf pre) by (apply pre_header_wf; unfold pre_header_ok; simpl; lia).
  assert (Hreq : header_wf req) by (apply request_header_wf; unfold request_header_ok; simpl; lia).
  assert (Hcf : complete_file pre [(0%nat, content)] (object_repr pre (new_object pre))
    [object_repr req mem ++ content]).
  { split; [|apply Forall2_cons; split; [|done]|done|simpl; lia|simpl; lia].
    - split; [apply is_object_repr, is_new_object|].
      apply object_value_repr; [done|apply is_new_object].
    - exists (object_repr req mem). rewrite object_value_repr by done.
      split; [done|]. split; [by apply is_object_repr|done]. }
  destruct (serve_file fs pre _ _ _ [] fuel Hcf) as (c & _ & E); [simpl; lia|].
  rewrite app_nil_r in E. cbn [concat] in E. rewrite app_nil_r in E.
  destruct (saveHorcruxes_loop_reliable uuid (file_slots pre [(0%nat, content)]) 0 fs) as [fs' Hl];
    [done|done|by apply received_puts|].
  cbn [PreRequestHeader.mUuid pre] in E. rewrite Hl in E. eexists; split; [exact E|]. cbn [st_fs].
  refine (saveHorcruxes_loop_stores uuid _ 0 fs fs' (proj1 Hu) _ _ _ Hl 0%nat
    (mkHorcruxData content (lit "")) eq_refl); [lia|done|].
  intros k Hk. change (zlen _) with 1 in Hk. by replace k with 0 by lia.
Qed.

(** C14. The peer is told [SUCCESS] for every horcrux before, and whether or not,
    the file is stored, and even if [saveFile] throws then: the answers do not depend on
    the file system, and files of the same name stay what they were. *)
Theorem serve_acknowledges_regardless `{OSLaws} fs p msgs w0 ws rest fuel :
  complete_file p msgs w0 ws -> (2 + 3 * length msgs <= fuel)%nat ->
  exists st, serve fuel (Start fs) (w0 ++ concat ws ++ rest) [] =
      Ret (st, rest, concat (replicate (S (length msgs)) SUCCESS)) /\
    forall q n, fs !! q = Some n -> st_fs st !! q = Some n.
Proof.
  intros Hcf Hfuel.
  destruct (serve_file fs p msgs w0 ws rest fuel Hcf Hfuel) as (c & _ & E).
  pose proof (cf_count _ _ _ _ Hcf) as Hc.
  assert (Hlen : zlen (file_slots p msgs) = PreRequestHeader.mNumHorcruxes p).
  { unfold file_slots, zlen. rewrite length_puts, length_replicate. lia. }
  assert (forall r fs', saveHorcruxes_loop (PreRequestHeader.mUuid p) 0 (file_slots p msgs) fs = (r, fs') ->
    forall q n, fs !! q = Some n -> fs' !! q = Some n) as Hkeeps.
  { intros r fs' Hl q n. eapply saveHorcruxes_loop_keeps; [| |exact Hl]; lia. }
  destruct (saveHorcruxes_loop_total (PreRequestHeader.mUuid p) (file_slots p msgs) 0 fs)
    as (fs' & [Hl|(e & Hl & _)]); [lia|lia|apply received_puts, (cf_indices _ _ _ _ Hcf)|..];
    rewrite Hl in E; (eexists; split; [exact E|]; by eapply Hkeeps).
Qed.

(** * Witnesses *)

Definition example_fs : filesystem := {[kOutPath := Directory]}.

(** Names under an existing [out] directory can be created. *)
Lemma creatable_out fs uuid k :
  0 <= uuid -> 0 <= k -> fs !! kOutPath = Some Directory ->
  @creatable simple_os fs (save_path uuid k).
Proof.
  intros Hu Hk Hout fs' Hsub Hnone.
  cbn [open_write simple_os]. unfold posix_open_write, is_directory.
  rewrite bool_decide_false by congruence.
  assert (Hp : parent_dir (save_path uuid k) = kOutPath).
  { rewrite save_path_eq by done.
    destruct (to_string_digits uuid Hu) as (_ & Du & _).
    destruct (to_string_digits k Hk) as (_ & Dk & _).
    change (parent_dir (lit "out/" ++ ?x)) with (parent_dir_go kOutPath (lit "out/") x).
    apply parent_dir_go_name. repeat (apply Forall_app; split);
      [|by repeat constructor|]; eapply Forall_impl; try eassumption;
      intros b Hb ->; discriminate Hb. }
  rewrite Hp. rewrite (bool_decide_true (fs' !! kOutPath = Some Directory)); [done|].
  by apply (lookup_weaken fs).
Qed.

Definition example_pre : PreRequestHeader.t := PreRequestHeader.mk 42 5 2.

Definition example_msgs : list (nat * bytes) := [(1%nat, lit "BBB"); (0%nat, lit "AA")].

Definition example_pre_bytes : bytes := object_repr example_pre (new_object example_pre).

Definition example_request (i size : Z) : bytes :=
  object_repr (Request.mkHeader 42 i size 0) (replicate 24 Byte.xff).

Definition example_requests : list bytes :=
  [example_request 1 3 ++ lit "BBB"; example_request 0 2 ++ lit "AA"].

Lemma example_complete :
  complete_file example_pre example_msgs example_pre_bytes example_requests.
Proof.
  split; [|repeat constructor| |simpl; lia|simpl; lia].
  - apply sends_pre_header_repr; [unfold pre_header_ok; simpl; lia|apply is_new_object].
  - apply (sends_horcrux_repr 42 1 (lit "BBB") 0); done || lia.
  - apply (sends_horcrux_repr 42 0 (lit "AA") 0); done || lia.
  - apply perm_swap.
Qed.

Lemma serve_stores_file_witness :
  exists st, @serve simple_os 8 (Start example_fs)
      (example_pre_bytes ++ concat example_requests ++ []) []
      = Ret (st, [], concat (replicate 3 SUCCESS)) /\
    st_fs st !! save_path 42 1 = Some (RegularFile (lit "BBB")).
Proof.
  destruct (@serve_stores_file simple_os _ _ example_fs example_pre example_msgs
    example_pre_bytes example_requests [] 8 example_complete) as (st & E & _ & _ & Hf & _).
  - intros k Hk. simpl in Hk. assert (k = 0 \/ k = 1) as [->| ->] by lia;
      (split; [by vm_compute|]; apply creatable_out; [simpl; lia|lia|by vm_compute]).
  - simpl. lia.
  - exists st. split; [exact E|]. apply (Hf 1%nat). apply list_elem_of_here.
Defined.

Lemma connection_never_fails_witness :
  exists st', @resume simple_os ReadingPreRequestHeader eof (lit "abc") new_connection example_fs
    = Ret st'.
Proof.
  destruct (@connection_never_fails simple_os example_fs (Start example_fs)
    ReadingPreRequestHeader eof (lit "abc")) as (st' & E & _);
    [apply rtc_refl|done|split; [simpl; lia|done]|].
  by exists st'.
Defined.

(** The state after a whole run satisfies the storage guarantee. *)
Lemma connection_storage_safe_witness :
  exists st rest out,
    @serve simple_os 8 (Start example_fs) (example_pre_bytes ++ concat example_requests) []
      = Ret (st, rest, out) /\ st_fs st !! kOutPath = Some Directory.
Proof.
  assert (match @serve simple_os 8 (Start example_fs)
      (example_pre_bytes ++ concat example_requests) [] with Ret _ => True | _ => False end) as Hret
    by by vm_compute.
  destruct (@serve simple_os 8 (Start example_fs)
    (example_pre_bytes ++ concat example_requests) []) as [[[st rest] out]|e|] eqn:E; [|destruct Hret..].
  exists st, rest, out. split; [reflexivity|].
  apply (proj1 (@connection_storage_safe simple_os _ example_fs st
    (@serve_steps simple_os 8 _ _ _ _ _ _ (conn_inv_Start _) (fun _ => eq_refl) E))). by vm_compute.
Defined.

Lemma serve_refuses_file_witness :
  exists c, @serve simple_os 2 (Start example_fs)
    (object_repr (PreRequestHeader.mk 7 1 21) (new_object PreRequestHeader.default) ++ lit "x") []
    = Ret (mkState c example_fs None, lit "x", FAILURE).
Proof.
  apply (@serve_refuses_file simple_os example_fs (PreRequestHeader.mk 7 1 21)); [|by left|done].
  apply sends_pre_header_repr; [unfold pre_header_ok; simpl; lia|apply is_new_object].
Defined.

(** A server holding one slot refuses a header naming slot 3. *)
Definition example_ready : connection :=
  set_horcruxes (set_pre_header new_connection (PreRequestHeader.mk 42 5 1)) [None].

Lemma request_header_exchange_witness :
  exists c', @serve simple_os 2 (mkState example_ready example_fs (Some ReadingRequestHeader))
    (example_request 3 1 ++ lit "z") [] = Ret (mkState c' example_fs None, lit "z", FAILURE).
Proof.
  apply (proj2 (@request_header_exchange simple_os 42 [None] example_ready example_fs
    (example_request 3 1) (lit "z") [] 0 ltac:(repeat split; simpl; lia || done) eq_refl)).
  vm_compute. by intros [_ ?].
Defined.

Lemma serve_ignores_announced_size_witness :
  exists st, @serve simple_os 5 (Start example_fs)
      (object_repr (PreRequestHeader.mk 9 0 1) (new_object (PreRequestHeader.mk 9 0 1)) ++
       object_repr (Request.mkHeader 9 0 4 0) (replicate 24 Byte.x00) ++ lit "data") []
    = Ret (st, [], SUCCESS ++ SUCCESS) /\
    st_fs st !! save_path 9 0 = Some (RegularFile (lit "data")).
Proof.
  apply (@serve_ignores_announced_size simple_os _ _ example_fs 9 (lit "data")
    (replicate 24 Byte.x00) 5); [lia|done|done|by vm_compute| |lia].
  apply creatable_out; [lia|lia|by vm_compute].
Defined.

Lemma serve_acknowledges_regardless_witness :
  exists st, @serve simple_os 8
      (Start {[kOutPath := Directory; save_path 42 0 := RegularFile (lit "old")]})
      (example_pre_bytes ++ concat example_requests ++ []) []
      = Ret (st, [], concat (replicate 3 SUCCESS)) /\
    st_fs st !! save_path 42 0 = Some (RegularFile (lit "old")).
Proof.
  destruct (@serve_acknowledges_regardless simple_os _
    {[kOutPath := Directory; save_path 42 0 := RegularFile (lit "old")]}
    example_pre example_msgs example_pre_bytes example_requests [] 8 example_complete)
    as (st & E & Hk); [simpl; lia|].
  exists st. split; [exact E|]. apply Hk. by vm_compute.
Defined.
