(* ===== verification/Client.v ===== *)
(** [client.cpp]: the client, as an interactive program.

    The client runs synchronously: it calls the socket, the file system and the
    random generator and goes on with what they return.  A program is the tree
    of these calls ([prog]); what the network does with a call is decided by
    whoever runs the tree.  [try] blocks are [catch]. *)

From S2P Require Import Prelude.
From S2P Require Import ObjectRepr.
From S2P Require Import Splitter.
From S2P Require Import FileSystem.
From S2P Require Import Command.
From S2P Require Import Requests.
From S2P Require Import AsioError.

(** * Interactive programs *)

Inductive prog (A : Type) :=
  | Done (o : outcome A)
  (** resolve the server's address and connect to it; [Some code] is the
      [asio::system_error] thrown by [resolve] or [connect] *)
  | Connect (k : option Z -> prog A)
  (** [Utils::loadFile(path)], which may throw *)
  | LoadFile (p : path) (k : outcome (option bytes) -> prog A)
  (** [Utils::generateRandomUint64()], which may throw *)
  | RandomUint64 (k : outcome Z -> prog A)
  (** [socket.write_some(buffer, ec)]: bytes written, error code *)
  | WriteSome (b : bytes) (k : nat -> error_code -> prog A)
  (** [socket.read_some(buffer, ec)], at most [n] bytes: bytes read, error code *)
  | ReadSome (n : nat) (k : bytes -> error_code -> prog A).
Arguments Done {A} o.
Arguments Connect {A} k.
Arguments LoadFile {A} p k.
Arguments RandomUint64 {A} k.
Arguments WriteSome {A} b k.
Arguments ReadSome {A} n k.

#[global] Instance prog_ret : MRet prog := fun A a => Done (Ret a).

Fixpoint prog_bind_ {A B} (f : A -> prog B) (m : prog A) : prog B :=
  match m with
  | Done (Ret a) => f a
  | Done (Throw e) => Done (Throw e)
  | Done Undef => Done Undef
  | Connect k => Connect (fun r => prog_bind_ f (k r))
  | LoadFile p k => LoadFile p (fun r => prog_bind_ f (k r))
  | RandomUint64 k => RandomUint64 (fun r => prog_bind_ f (k r))
  | WriteSome b k => WriteSome b (fun n ec => prog_bind_ f (k n ec))
  | ReadSome n k => ReadSome n (fun d ec => prog_bind_ f (k d ec))
  end.

#[global] Instance prog_bind : MBind prog := @prog_bind_.

(** [try { m } catch (std::exception& e) { h }]: every exception of [exn] is a
    [std::exception]. *)
Fixpoint catch {A} (h : exn -> prog A) (m : prog A) : prog A :=
  match m with
  | Done (Throw e) => h e
  | Done o => Done o
  | Connect k => Connect (fun r => catch h (k r))
  | LoadFile p k => LoadFile p (fun r => catch h (k r))
  | RandomUint64 k => RandomUint64 (fun r => catch h (k r))
  | WriteSome b k => WriteSome b (fun n ec => catch h (k n ec))
  | ReadSome n k => ReadSome n (fun d ec => catch h (k d ec))
  end.

Definition lift {A} (o : outcome A) : prog A := Done o.

(** * The client *)
Section Client.
(** The memory of the header objects, which shows through their padding. *)
Context (pre_mem : bytes) (request_mem : bytes).

Definition getHorcruxes (p : path) (splitter : FileSplitter) : prog (list HorcruxData) :=
  LoadFile p (fun loaded =>
    binaries ← lift loaded;
    match binaries with
    | Some b => lift (fs_split b)
    | None => mret []
    end).

(** The response is what one [read_some] of at most 128 bytes returned. *)
Definition readResponse : prog bool :=
  ReadSome 128 (fun response error =>
    if ec_is_error error then lift (Throw (asio_system_error (ec_value error)))
    else if bool_decide (response = lit "SUCCESS") then mret true
    else if bool_decide (response = lit "FAILURE") then mret false
    else mret false).

(** The numbers of bytes the two [write_some] report are only logged. *)
Definition sendHorcruxRequest (request : Request.t) : prog bool :=
  let serializedHeader :=
    serializeHeader (Request.mHeader request) request_mem
      (replicate (header_sizeof Request.Header) Byte.x00) in
  WriteSome serializedHeader (fun len ec =>
    if ec_is_error ec then mret false
    else WriteSome (Request.mContent request) (fun len ec =>
      if ec_is_error ec then mret false
      else
        ok ← readResponse;
        if negb ok then mret false else mret true)).

(** A request that fails is logged; the next one is sent all the same. *)
Fixpoint sendRequests (requests : list Request.t) : prog () :=
  match requests with
  | [] => mret ()
  | request :: requests =>
      ok ← sendHorcruxRequest request;
      sendRequests requests
  end.

Definition run (options : ClientSaveOptions) (splitter : FileSplitter) : prog Z :=
  Connect (fun failure =>
    match failure with
    | Some code => lift (Throw (asio_system_error code))
    | None =>
        horcruxes ← getHorcruxes (mInputPath options) splitter;
        if bool_decide (horcruxes = []) then mret (-1)
        else
          RandomUint64 (fun random =>
            uuid ← lift random;
            let preRequestHeader := PreRequestHeader.fromHorcruxes uuid horcruxes in
            let serializedPreRequestHeader :=
              serializeHeader preRequestHeader pre_mem
                (replicate (header_sizeof PreRequestHeader.t) Byte.x00) in
            WriteSome serializedPreRequestHeader (fun len ec =>
              if ec_is_error ec then mret 0
              else
                ok ← readResponse;
                if negb ok then mret 0
                else
                  let requests :=
                    Request.fromHorcruxes (PreRequestHeader.mUuid preRequestHeader) horcruxes in
                  _ ← sendRequests requests;
                  mret 0))
    end).

(** The exit status; an exception of [parseHorcruxCommand] is not caught. *)
Definition main (argc : Z) (argv : list bytes) : prog Z :=
  options ← lift (parseHorcruxCommand argc argv);
  match options with
  | None => mret (-1)
  | Some options =>
      catch (fun e => mret 0) (run options (BasicFileSplitter (mHorcruxCount options)))
  end.
End Client.
