(* ===== verification/Join.v ===== *)
(** [join.cpp]: the tool that puts a stored file back together.

    The program has no arguments: the number of horcruxes and the file's
    identifier are constants of [main].  The definitions take them as
    arguments, and [join_main] is the program. *)

From S2P Require Import Prelude.
From S2P Require Import ObjectRepr.
From S2P Require Import Splitter.
From S2P Require Import FileSystem.
From S2P Require Import Connection.
From S2P Require Import ConnectionSpec.

(** * The program *)

Definition dirPath : path := lit "out".

(** The lambda [getFileName]. *)
Definition getFileName (uuid index : Z) : path :=
  to_string uuid ++ lit ".hcx." ++ to_string index.

Definition reconstructed : path := path_append dirPath (lit "reconstructed.png").

Section Join.
Context `{OS}.

(** The loop of [main] from [idx] on, an [int32_t] compared with an
    [uint32_t]; [value()] of an empty optional throws. *)
Fixpoint join_loop (fuel : nat) (uuid numHcxs idx : Z) (binaries : bytes)
    (fs : filesystem) : outcome bytes :=
  match fuel with
  | O => Undef
  | S fuel =>
      if u32 idx <? numHcxs then
        let filename := getFileName uuid idx in
        loaded ← loadFile fs (path_append dirPath filename);
        loadedBinaries ←
          match loaded with
          | Some b => Ret b
          | None => Throw std_bad_optional_access
          end;
        idx' ← int_add idx 1;
        join_loop fuel uuid numHcxs idx' (binaries ++ loadedBinaries) fs
      else Ret binaries
  end.

Definition join_files (uuid numHcxs : Z) : files Z :=
  binaries ← looks (join_loop (S (Z.to_nat numHcxs)) uuid numHcxs 0 []);
  _ ← saveFile binaries reconstructed;
  mret 0.

(** The exit status and the files left; an exception is not caught. *)
Definition join_main : files Z := join_files 17240256471984258206 4.

(** * What it does *)

(** The horcruxes the loop is to load, from number [k] on. *)
Definition loads (uuid k : Z) (fs : filesystem) (parts : list bytes) : Prop :=
  forall i part, parts !! i = Some part ->
    loadFile fs (save_path uuid (k + Z.of_nat i)) = Ret (Some part).

Lemma loads_cons uuid k fs p parts :
  loads uuid k fs (p :: parts) <->
  loadFile fs (save_path uuid k) = Ret (Some p) /\ loads uuid (k + 1) fs parts.
Proof.
  split.
  - intros Hl. split; [by rewrite <- (Hl 0%nat p), Z.add_0_r|].
    intros i q Hq. replace (k + 1 + Z.of_nat i) with (k + Z.of_nat (S i)) by lia. by apply Hl.
  - intros [Hfst Hl] [|i] q Hq; simpl in Hq.
    + injection Hq as <-. by rewrite Z.add_0_r.
    + replace (k + Z.of_nat (S i)) with (k + 1 + Z.of_nat i) by lia. by apply Hl.
Qed.

Lemma join_loop_end fuel uuid n acc fs :
  0 <= n < 2 ^ 31 -> (0 < fuel)%nat -> join_loop fuel uuid n n acc fs = Ret acc.
Proof.
  intros Hn Hf. destruct fuel; [lia|]. simpl.
  by rewrite u32_small, Z.ltb_irrefl by lia.
Qed.

Lemma join_loop_step fuel uuid n k acc fs :
  0 <= k < n -> n < 2 ^ 31 ->
  join_loop (S fuel) uuid n k acc fs =
  match loadFile fs (save_path uuid k) with
  | Ret (Some b) => join_loop fuel uuid n (k + 1) (acc ++ b) fs
  | Ret None => Throw std_bad_optional_access
  | Throw e => Throw e
  | Undef => Undef
  end.
Proof.
  intros Hk Hn. cbn [join_loop]. rewrite u32_small, (proj2 (Z.ltb_lt _ _)) by lia.
  change (path_append dirPath (getFileName uuid k)) with (save_path uuid k).
  destruct (loadFile _ _) as [[b|]|e|]; [|done..]. cbn [mbind outcome_bind].
  by rewrite int_add_ok by (unfold INT_MIN, INT_MAX; lia).
Qed.

Lemma join_loop_loads uuid n fs parts : forall fuel k acc,
  loads uuid k fs parts -> 0 <= k -> k + zlen parts = n -> n < 2 ^ 31 ->
  (length parts < fuel)%nat ->
  join_loop fuel uuid n k acc fs = Ret (acc ++ concat parts).
Proof.
  induction parts as [|p parts IH]; intros fuel k acc Hl Hk Hn Hb Hf; cbn [concat].
  - rewrite zlen_nil, Z.add_0_r in Hn. subst k. rewrite app_nil_r.
    apply join_loop_end; simpl in Hf; lia.
  - rewrite zlen_cons in Hn. pose proof (zlen_nonneg parts). simpl in Hf.
    apply loads_cons in Hl as [Hfst Hl]. destruct fuel as [|fuel]; [lia|].
    rewrite join_loop_step, Hfst by lia. rewrite app_assoc. apply IH; done || lia.
Qed.

Lemma join_loop_missing uuid n fs m : forall fuel k acc,
  0 <= k -> n < 2 ^ 31 -> k + Z.of_nat m < n -> (m < fuel)%nat ->
  (forall b, loadFile fs (save_path uuid (k + Z.of_nat m)) <> Ret (Some b)) ->
  exists e, join_loop fuel uuid n k acc fs = Throw e.
Proof.
  assert (forall p, loadFile fs p <> Undef) as Hdef.
  { intros p. by destruct (loadFile_returns fs p) as [[file ->]|(code & -> & _)]. }
  induction m as [|m IH]; intros fuel k acc Hk Hb Hm Hf Hl;
    (destruct fuel as [|fuel]; [lia|]); rewrite join_loop_step by lia;
    pose proof (Hdef (save_path uuid k)) as Hd.
  - rewrite Z.add_0_r in Hl. destruct (loadFile _ _) as [[b|]|e|]; [by destruct (Hl b)|eauto..|done].
  - destruct (loadFile fs (save_path uuid k)) as [[b|]|e|]; [|eauto..|done].
    replace (k + Z.of_nat (S m)) with (k + 1 + Z.of_nat m) in Hl by lia.
    apply IH; done || lia.
Qed.
End Join.

(** C18. When all the horcruxes of the file load, the tool succeeds, whatever it
    could save: [out/reconstructed.png] is their concatenation in the order of
    their numbers, where that file did not exist and can be opened; an existing
    one is left as it was; on a file system that looks names up and transfers whole
    files without error. *)
Theorem join_reconstructs `{ReliableOS} uuid numHcxs fs parts :
  numHcxs < 2 ^ 31 -> zlen parts = numHcxs ->
  (forall i part, parts !! i = Some part ->
    loadFile fs (save_path uuid (Z.of_nat i)) = Ret (Some part)) ->
  exists fs', join_files uuid numHcxs fs = (Ret 0, fs') /\
    (is_regular_file fs reconstructed = false -> open_write fs reconstructed = true ->
      fs' = <[reconstructed := RegularFile (concat parts)]> fs) /\
    (is_regular_file fs reconstructed = true -> fs' = fs).
Proof.
  intros Hn Hp Hl. unfold join_files. pose proof (zlen_nonneg parts).
  unfold looks, mbind, files_bind. rewrite (join_loop_loads uuid numHcxs fs parts);
    [|exact Hl|lia|done|done|unfold zlen in Hp; lia].
  rewrite saveFile_cases, status_works. cbn [app]. destruct (is_regular_file fs reconstructed) eqn:Hr; cbn [orb].
  { by exists fs. }
  destruct (open_write fs reconstructed); cbn [negb]; eexists; (split; [reflexivity|]); [|done].
  split; [|done]. by rewrite write_bytes_all.
Qed.

(** When any horcrux does not load, the tool ends with an uncaught exception (a
    [std::bad_optional_access] or a [filesystem_error]), and writes nothing. *)
Theorem join_needs_every_horcrux `{OS} uuid numHcxs fs k :
  numHcxs < 2 ^ 31 -> 0 <= k < numHcxs -> (forall b, loadFile fs (save_path uuid k) <> Ret (Some b)) ->
  exists e, join_files uuid numHcxs fs = (Throw e, fs).
Proof.
  intros Hn Hk Hl. unfold join_files.
  destruct (join_loop_missing uuid numHcxs fs (Z.to_nat k) (S (Z.to_nat numHcxs)) 0 []) as [e E]; try lia.
  - intros b. rewrite Z.add_0_l, Z2Nat.id by lia. apply Hl.
  - exists e. unfold looks, mbind, files_bind. by rewrite E.
Qed.

Definition example_joined : filesystem :=
  {[ lit "out" := Directory;
     lit "out/9.hcx.0" := RegularFile (lit "ab");
     lit "out/9.hcx.1" := RegularFile (lit "cde") ]}.

Lemma join_reconstructs_witness :
  exists fs', @join_files simple_os 9 2 example_joined = (Ret 0, fs') /\
    fs' !! lit "out/reconstructed.png" = Some (RegularFile (lit "abcde")).
Proof.
  destruct (@join_reconstructs simple_os _ 9 2 example_joined [lit "ab"; lit "cde"])
    as (fs' & E & Hf & _); [lia|done| |].
  - intros [|[|i]] part; simpl; [intros [= <-]; by vm_compute..|by rewrite lookup_nil].
  - exists fs'. split; [exact E|]. rewrite Hf; by vm_compute.
Defined.

Lemma join_needs_every_horcrux_witness :
  exists e, @join_main simple_os example_joined = (Throw e, example_joined).
Proof.
  apply (@join_needs_every_horcrux simple_os 17240256471984258206 4 example_joined 2);
    [lia|lia|by vm_compute].
Defined.
