(* ===== verification/Server.v ===== *)
(** [networking/TcpServer.cpp]: the acceptor, and the connections it runs side
    by side over one file system.

    The server is one [io_context] run by one thread, so handlers do not overlap:
    a step is one handler, of the acceptor or of one of the connections, in
    whatever order the peers and the network make the operations complete. *)

From S2P Require Import Prelude.
From S2P Require Import ObjectRepr.
From S2P Require Import Splitter.
From S2P Require Import FileSystem.
From S2P Require Import Requests.
From S2P Require Import AsioError.
From S2P Require Import Connection.
From S2P Require Import ConnectionSpec.
From S2P Require Import ServeSpec.

(** * The server *)

(** A connection that was started, with its operation in flight; without one it
    is destroyed. *)
Record slot := mkSlot {
  sl_conn : connection;
  sl_op : option async_op
}.

(** An exception that a handler lets escape leaves [io_context::run], and [main] destroys
    the server with all its connections: it is the last step. *)
Record server := mkServerState {
  sv_accepting : option connection;  (* the connection [async_accept] was given *)
  sv_slots : list slot;              (* those started so far *)
  sv_fs : filesystem;
  sv_thrown : option exn             (* what [run] threw *)
}.

Abbreviation mkServer accepting slots fs := (mkServerState accepting slots fs None).

Definition startAccept (sv : server) : server :=
  mkServer (Some new_connection) (sv_slots sv) (sv_fs sv).

(** [Start] issues the first read; a connection that was not accepted is let go. *)
Definition handle_accept (newConnection : connection) (error : error_code) (sv : server) :
    server :=
  let sv :=
    if negb (ec_is_error error) then
      mkServer (sv_accepting sv)
        (sv_slots sv ++ [mkSlot newConnection (Some ReadPreRequestHeader)]) (sv_fs sv)
    else sv in
  startAccept sv.

(** The constructor. *)
Definition TcpServer (fs : filesystem) : server := startAccept (mkServer None [] fs).

Section Server.
Context `{OS}.

Definition state_of (s : slot) (fs : filesystem) : state := mkState (sl_conn s) fs (sl_op s).

Definition slot_of (st : state) : slot := mkSlot (st_conn st) (st_op st).

(** The handler of connection [i] ran, and left the state [st]. *)
Definition update (i : nat) (st : state) (sv : server) : server :=
  mkServerState (sv_accepting sv) (<[i := slot_of st]> (sv_slots sv)) (st_fs st) (st_thrown st).

Inductive server_step : server -> server -> Prop :=
  | step_accept c slots fs ec :
      server_step (mkServer (Some c) slots fs)
      (handle_accept c ec (mkServer None slots fs))
  | step_connection sv i s st' :
      sv_thrown sv = None -> sv_slots sv !! i = Some s ->
      step (state_of s (sv_fs sv)) st' ->
      server_step sv (update i st' sv).

(** * The invariant *)

(** Where a connection stands: while requests are awaited something is missing
    (unless nothing was announced). *)
Definition incomplete (slots : list (option HorcruxData)) : Prop :=
  slots = [] \/ ~ received slots.

Definition pending (s : slot) : Prop :=
  sl_op s <> None -> sl_op s <> Some (WritingResponse NextSaveHorcruxes) ->
    incomplete (mCurrentRequestHorcruxes (sl_conn s)).

(** A connection that ended after it received a whole file. *)
Definition finished (s : slot) : Prop :=
  sl_op s = None /\ accepted (sl_conn s) /\
    received (mCurrentRequestHorcruxes (sl_conn s)) /\
    mCurrentRequestHorcruxes (sl_conn s) <> [].

Definition slot_uuid (s : slot) : Z := PreRequestHeader.mUuid (mPreRequestHeader (sl_conn s)).

(** The names of the files of a connection. *)
Definition owns (s : slot) (p : path) : Prop :=
  exists k, 0 <= k < zlen (mCurrentRequestHorcruxes (sl_conn s)) /\
    p = save_path (slot_uuid s) k.

Lemma incomplete_replicate n : incomplete (replicate n None).
Proof.
  destruct n as [|n]; [by left|right]. intros Hr. by apply Forall_cons in Hr as [[? [=]] _].
Qed.

(** The only way to be complete is through the last response, which saves. *)
Lemma resume_incomplete op ec data c fs st' :
  conn_inv (mkState c fs (Some op)) -> op <> WritingResponse NextSaveHorcruxes ->
  resume op ec data c fs = Ret st' -> incomplete (mCurrentRequestHorcruxes c) ->
  st_op st' = Some (WritingResponse NextSaveHorcruxes) \/
  incomplete (mCurrentRequestHorcruxes (st_conn st')).
Proof.
  intros Hi Hne E Hp. unfold resume in E. destruct op as [| | |[]]; simpl in E.
  - right. unfold onPreRequestHeader in E. destruct (ec_is_error ec); [by injection E as <-|].
    destruct (checkPreRequestHeader _); injection E as <-; [|exact Hp].
    destruct Hi as [_ Hnil]. cbn in Hnil |- *.
    unfold resize. rewrite Hnil. cbn [length].
    rewrite take_nil, Nat.sub_0_r. apply incomplete_replicate.
  - right. unfold onRequestHeader in E. case_match; [by injection E as <-|].
    by apply bind_Ret in E as ([] & _ & [= <-]).
  - unfold onRequestContent in E. case_match; [injection E as <-; by right|].
    apply bind_Ret in E as (hs & _ & E). destruct (forallb _ hs) eqn:Hall;
      injection E as <-; [by left|right; right].
    intros Hr. apply forallb_received in Hr. simpl in Hr. congruence.
  - injection E as <-. by right.
  - done.
  - injection E as <-. by right.
Qed.

(** ** Files and their origin *)

(** Every file of [fs] that [fs0] did not have is owned by a finished
    connection, one of those [P] selects. *)
Definition blamed (fs0 : filesystem) (P : nat -> Prop) (slots : list slot)
    (fs : filesystem) : Prop :=
  forall p, fs0 !! p = None -> fs !! p <> None ->
    exists j s, P j /\ slots !! j = Some s /\ finished s /\ owns s p.

(** The files of connection [i] were saved at some point, over what the others
    had left. *)
Definition stored (fs0 : filesystem) (i : nat) (s : slot) (slots : list slot)
    (fs : filesystem) : Prop :=
  exists fs1 fs2, fs0 ⊆ fs1 /\ blamed fs0 (fun j => j <> i) slots fs1 /\
    saveHorcruxes_loop (slot_uuid s) 0 (mCurrentRequestHorcruxes (sl_conn s)) fs1 = (Ret (), fs2) /\
    fs2 ⊆ fs.

Record server_inv (fs0 : filesystem) (sv : server) : Prop := {
  si_accepting : sv_accepting sv = Some new_connection;
  si_slots : forall i s, sv_slots sv !! i = Some s ->
    conn_inv (state_of s (sv_fs sv)) /\ pending s;
  si_fs : fs0 ⊆ sv_fs sv;
  si_blamed : blamed fs0 (fun _ => True) (sv_slots sv) (sv_fs sv);
  si_stored : sv_thrown sv = None -> forall i s, sv_slots sv !! i = Some s -> finished s ->
    stored fs0 i s (sv_slots sv) (sv_fs sv)
}.

(** Finished connections never change. *)
Definition keeps_finished (slots slots' : list slot) : Prop :=
  forall j s, slots !! j = Some s -> finished s -> slots' !! j = Some s.

Lemma blamed_mono fs0 (P Q : nat -> Prop) slots slots' fs :
  keeps_finished slots slots' -> (forall j s, slots !! j = Some s -> finished s -> P j -> Q j) ->
  blamed fs0 P slots fs -> blamed fs0 Q slots' fs.
Proof.
  intros Hk HPQ Hb p Hp0 Hp1. destruct (Hb p Hp0 Hp1) as (j & s & Hj & Hs & Hf & Ho).
  exists j, s. split; [by eapply HPQ|]. split; [by apply Hk|done].
Qed.

Lemma stored_mono fs0 i s slots slots' fs fs' :
  keeps_finished slots slots' -> fs ⊆ fs' ->
  stored fs0 i s slots fs -> stored fs0 i s slots' fs'.
Proof.
  intros Hk Hfs (fs1 & fs2 & Hs1 & Hb & Hl & Hs2). exists fs1, fs2.
  split; [exact Hs1|]. split; [eapply blamed_mono; [exact Hk| |exact Hb]; done|].
  split; [exact Hl|]. by transitivity fs.
Qed.

Lemma server_inv_start fs : server_inv fs (TcpServer fs).
Proof.
  split; cbn; [done|by intros i s Hi|done| |by intros _ i s Hi].
  intros p Hp0 Hp1. by destruct Hp1.
Qed.

Lemma conn_inv_fs c fs fs' op : conn_inv (mkState c fs op) -> conn_inv (mkState c fs' op).
Proof. done. Qed.

Lemma keeps_finished_app slots s : keeps_finished slots (slots ++ [s]).
Proof. intros j s' Hj _. by apply lookup_app_l_Some. Qed.

Lemma accept_inv fs0 ec c slots fs :
  server_inv fs0 (mkServer (Some c) slots fs) ->
  server_inv fs0 (handle_accept c ec (mkServer None slots fs)).
Proof.
  intros [Ha Hs Hf Hb Hst]. injection Ha as ->. unfold handle_accept.
  destruct (ec_is_error ec); [by split|]. cbn in *. split; cbn; [done| |done| |].
  - intros i s [Hi|[_ Hi]]%lookup_app_Some; [exact (Hs _ _ Hi)|].
    apply list_lookup_singleton_Some in Hi as [_ <-]. split; [done|by left].
  - eapply blamed_mono; [apply keeps_finished_app|done|exact Hb].
  - intros _ i s [Hi|[_ Hi]]%lookup_app_Some Hfin.
    + apply (stored_mono fs0 i s slots _ fs); [apply keeps_finished_app|done|by apply Hst].
    + apply list_lookup_singleton_Some in Hi as [_ <-]. by destruct Hfin.
Qed.

(** What saving a whole file adds belongs to its connection. *)
Lemma save_owned s fs r fs' p :
  buffers_ok (sl_conn s) -> accepted (sl_conn s) ->
  saveHorcruxes_loop (slot_uuid s) 0 (mCurrentRequestHorcruxes (sl_conn s)) fs = (r, fs') ->
  fs !! p = None -> fs' !! p <> None -> owns s p.
Proof.
  intros (_ & _ & Hcfg) (Hn & Hmax & _) Hl Hp0 Hp1. rewrite Hcfg in Hmax. simpl in Hmax.
  set (n := zlen (mCurrentRequestHorcruxes (sl_conn s))) in *.
  destruct (decide (Exists (fun k => p = save_path (slot_uuid s) k) (seqZ 0 n))) as [He|He].
  - apply Exists_exists in He as (k & Hk & ->). apply elem_of_seqZ in Hk.
    exists k. split; [fold n; lia|done].
  - destruct Hp1. rewrite <- Hp0. eapply saveHorcruxes_loop_frame; [| |exact Hl|]; fold n; try lia.
    intros k Hk ->. apply He, Exists_exists. exists k. split; [|done].
    apply elem_of_seqZ. lia.
Qed.

Lemma update_keeps_finished i s slots st :
  slots !! i = Some s -> sl_op s <> None -> keeps_finished slots (<[i := slot_of st]> slots).
Proof.
  intros Hi Hop j s' Hj [Hf _]. destruct (decide (j = i)) as [->|Hne]; [congruence|].
  by rewrite list_lookup_insert_ne.
Qed.

(** A handler other than the last response's. *)
Lemma quiet_step_inv fs0 sv i s st' :
  server_inv fs0 sv -> sv_thrown sv = None -> sv_slots sv !! i = Some s -> conn_inv st' ->
  sl_op s <> None -> st_fs st' = sv_fs sv ->
  st_op st' = Some (WritingResponse NextSaveHorcruxes) \/
  incomplete (mCurrentRequestHorcruxes (st_conn st')) ->
  server_inv fs0 (update i st' sv).
Proof.
  intros [Ha Hs Hf Hb Hst] Ht Hi Hc Hop Hfs Hp.
  pose proof (update_keeps_finished i s (sv_slots sv) st' Hi Hop) as Hk.
  unfold update. rewrite Hfs. split; cbn.
  - done.
  - intros j s' [(<- & <- & _)|[_ Hj]]%list_lookup_insert_Some; [|exact (Hs _ _ Hj)].
    split; [by destruct st'|]. intros Ho Hns. cbn in *. by destruct Hp.
  - done.
  - by eapply blamed_mono.
  - intros _ j s' [(<- & <- & _)|[_ Hj]]%list_lookup_insert_Some Hfin.
    + destruct Hfin as (Ho & _ & Hr & Hne). cbn in *. destruct Hp as [Hp|[Hp|Hp]]; congruence.
    + apply (stored_mono fs0 j s' (sv_slots sv) _ (sv_fs sv)); [exact Hk|done|by apply Hst].
Qed.

(** The last response's handler, which saves. *)
Lemma save_step_inv `{!OSLaws} fs0 sv i s st' :
  server_inv fs0 sv -> sv_thrown sv = None -> sv_slots sv !! i = Some s -> conn_inv st' ->
  sl_op s <> None -> saved (sv_fs sv) st' ->
  server_inv fs0 (update i st' sv).
Proof.
  intros [Ha Hs Hf Hb Hst] Ht Hi Hc Hop (Ho & Hbuf & Hacc & Hrec & Hl).
  pose proof (accepted_few _ Hbuf Hacc) as Hfew.
  pose proof (update_keeps_finished i s (sv_slots sv) st' Hi Hop) as Hk.
  assert (Hgrow : sv_fs sv ⊆ st_fs st').
  { apply map_subseteq_spec. intros p n. eapply saveHorcruxes_loop_keeps; [| |exact Hl]; lia. }
  assert (Hown : forall p, sv_fs sv !! p = None -> st_fs st' !! p <> None ->
    owns (slot_of st') p).
  { intros p. eapply (save_owned (slot_of st')); [apply Hc|exact Hacc|exact Hl]. }
  pose proof (lookup_lt_Some _ _ _ Hi) as Hlt.
  unfold update. split; cbn.
  - done.
  - intros j s' [(<- & <- & _)|[_ Hj]]%list_lookup_insert_Some; [|exact (Hs _ _ Hj)].
    split; [by destruct st'|]. intros Hn. cbn in Hn. congruence.
  - by transitivity (sv_fs sv).
  - intros p Hp0 Hp1. destruct (sv_fs sv !! p) eqn:E.
    + eapply blamed_mono; [exact Hk|done|exact Hb|done|congruence].
    + exists i, (slot_of st'). split; [done|]. rewrite list_lookup_insert_eq by done.
      split; [done|]. pose proof (Hown p E Hp1) as Hp. split; [|exact Hp].
      split; [done|]. split; [done|]. split; [done|]. intros Hnil.
      destruct Hp as (k & Hk' & _). cbn in Hk', Hnil. unfold zlen in Hk'. rewrite Hnil in Hk'. simpl in Hk'. lia.
  - intros Hth j s' [(<- & <- & _)|[Hne Hj]]%list_lookup_insert_Some Hfin.
    + rewrite Hth in Hl. exists (sv_fs sv), (st_fs st'). split; [done|]. split; [|done].
      eapply blamed_mono; [exact Hk| |exact Hb].
      intros j s' Hj [Hj' _] _ ->. congruence.
    + apply (stored_mono fs0 j s' (sv_slots sv) _ (sv_fs sv)); [exact Hk|done|by apply Hst].
Qed.

Lemma server_step_inv `{!OSLaws} fs0 sv sv' :
  server_inv fs0 sv -> server_step sv sv' -> server_inv fs0 sv'.
Proof.
  intros Hinv Hs. destruct Hs as [c slots fs ec|sv i s st' Ht Hi Hs]; [by apply accept_inv|].
  destruct (si_slots _ _ Hinv i s Hi) as [Hc Hp].
  pose proof (step_inv _ _ Hc Hs) as Hc'.
  destruct s as [c o]. unfold state_of in *. cbn in *.
  inversion Hs as [c0 fs op ec data st0 Hcomp Hres]; subst.
  destruct (decide (op = WritingResponse NextSaveHorcruxes)) as [->|Hne].
  - eapply save_step_inv; [exact Hinv|exact Ht|exact Hi|exact Hc'|done|].
    by apply saves in Hres as [? _].
  - destruct (resume_inv op ec data c (sv_fs sv) Hc Hcomp) as (st'' & E & _ & Hfs).
    rewrite Hres in E. injection E as <-.
    eapply quiet_step_inv; [exact Hinv|exact Ht|exact Hi|exact Hc'|done|by apply Hfs|].
    eapply resume_incomplete; [exact Hc|done|exact Hres|]. apply Hp; [done|].
    cbn. congruence.
Qed.

Lemma server_steps_inv `{!OSLaws} fs0 sv sv' :
  rtc server_step sv sv' -> server_inv fs0 sv -> server_inv fs0 sv'.
Proof. induction 1; eauto using server_step_inv. Qed.

(** [run] throws only what saving throws, so never where [stat] works. *)
Lemma server_steps_thrown `{!OSLaws, !ReliableOS} fs sv :
  rtc server_step (TcpServer fs) sv -> sv_thrown sv = None.
Proof.
  intros Hr. apply rtc_inv_r in Hr as [<-|(sv1 & Hr & Hs)]; [done|].
  pose proof (server_steps_inv fs _ _ Hr (server_inv_start fs)) as Hinv.
  destruct Hs as [c slots fs' ec|sv1 i s st' _ Hi Hs].
  { unfold handle_accept. by destruct (ec_is_error ec). }
  destruct (si_slots _ _ Hinv i s Hi) as [Hc _]. destruct s as [c o]. unfold state_of in *. cbn in *.
  inversion Hs as [c0 fs0 op ec data st0 _ Hres]; subst. simpl.
  destruct (st_thrown st') as [e|] eqn:He; [|done].
  apply (resume_thrown _ _ _ _ _ _ _ Hc Hres) in He as (_ & _ & k & code & _ & _ & Hst & _).
  by rewrite status_works in Hst.
Qed.
End Server.

(** * What the server promises *)

(** Whatever the peers of any number of connections do, in any interleaving,
    the server keeps accepting, and the handler of every connection returns, as long as
    no exception of [saveFile] has ended it. *)
Theorem server_never_fails `{OSLaws} fs sv :
  rtc server_step (TcpServer fs) sv -> sv_thrown sv = None ->
  (forall ec, exists sv', server_step sv sv' /\
    length (sv_slots sv') = (length (sv_slots sv) + if ec_is_error ec then 0 else 1)%nat) /\
  (forall i s op ec data, sv_slots sv !! i = Some s -> sl_op s = Some op ->
    completes op ec data (sl_conn s) ->
    exists st', resume op ec data (sl_conn s) (sv_fs sv) = Ret st' /\
      server_step sv (update i st' sv)).
Proof.
  intros Hr Ht. pose proof (server_steps_inv fs _ _ Hr (server_inv_start fs)) as Hi. split.
  - intros ec. destruct sv as [a slots fs' th]. pose proof (si_accepting _ _ Hi) as Ha.
    cbn in Ha, Ht. subst a th. eexists. split; [by apply (step_accept _ _ _ ec)|].
    unfold handle_accept. destruct (ec_is_error ec); cbn [negb].
    + by rewrite Nat.add_0_r.
    + apply length_app.
  - intros i s op ec data Hs Ho Hc. destruct (si_slots _ _ Hi i s Hs) as [Hci _].
    unfold state_of in Hci. rewrite Ho in Hci.
    destruct (resume_inv op ec data _ _ Hci Hc) as (st' & E & _). exists st'. split; [done|].
    apply (step_connection sv i s st' Ht Hs). unfold state_of. rewrite Ho.
    by apply (step_resume _ _ op ec data).
Qed.

(** With any number of connections side by side, files and directories that
    existed stay as they were, and each new file is one of a connection that
    ended after it received a whole accepted file, under that file's
    identifier. *)
Theorem server_storage_safe `{OSLaws} fs sv :
  rtc server_step (TcpServer fs) sv ->
  (forall p n, fs !! p = Some n -> sv_fs sv !! p = Some n) /\
  (forall p, fs !! p = None -> sv_fs sv !! p <> None ->
    exists i s k, sv_slots sv !! i = Some s /\ sl_op s = None /\
      received (mCurrentRequestHorcruxes (sl_conn s)) /\
      0 <= k < zlen (mCurrentRequestHorcruxes (sl_conn s)) /\ k < 20 /\
      p = save_path (slot_uuid s) k).
Proof.
  intros Hr. pose proof (server_steps_inv fs _ _ Hr (server_inv_start fs)) as Hi. split.
  - intros p n. apply (proj1 (map_subseteq_spec _ _)), (si_fs _ _ Hi).
  - intros p Hp Hp'. destruct (si_blamed _ _ Hi p Hp Hp') as (i & s & _ & Hs & Hf & k & Hk & ->).
    exists i, s, k. destruct Hf as (Ho & (Hn & Hmax & _) & Hrec & _).
    destruct (si_slots _ _ Hi i s Hs) as [((_ & _ & Hcfg) & _) _].
    unfold state_of in Hcfg. cbn in Hcfg. rewrite Hcfg in Hmax. cbn in Hmax.
    repeat split; done || lia.
Qed.

(** C16. A whole file received by one connection is stored intact, however the
    handlers of the other connections were interleaved with its own, when no
    other file of that identifier was received, none of its files existed
    or was refused by the file system, and the file system looks names up and writes whole
    files without error. *)
Theorem server_stores_concurrently `{OSLaws, !ReliableOS} fs sv i s :
  rtc server_step (TcpServer fs) sv ->
  sv_slots sv !! i = Some s -> finished s ->
  (forall j s', j <> i -> sv_slots sv !! j = Some s' -> finished s' ->
    slot_uuid s' <> slot_uuid s) ->
  (forall k, 0 <= k < zlen (mCurrentRequestHorcruxes (sl_conn s)) ->
    fs !! save_path (slot_uuid s) k = None /\ creatable fs (save_path (slot_uuid s) k)) ->
  forall k h, mCurrentRequestHorcruxes (sl_conn s) !! k = Some (Some h) ->
    sv_fs sv !! save_path (slot_uuid s) (Z.of_nat k) = Some (RegularFile (mContent h)).
Proof.
  intros Hr Hs Hfin Hother Hnew k h Hk.
  pose proof (server_steps_inv fs _ _ Hr (server_inv_start fs)) as Hi.
  destruct (si_stored _ _ Hi (server_steps_thrown _ _ Hr) i s Hs Hfin) as (fs1 & fs2 & Hsub & Hb & Hl & Hsub2).
  apply (lookup_weaken fs2); [|done]. rewrite <- (Z.add_0_l (Z.of_nat k)).
  destruct Hfin as (Ho & (Hn & Hmax & _ & Hu) & Hrec & _).
  destruct (si_slots _ _ Hi i s Hs) as [((_ & _ & Hcfg) & _) _].
  unfold state_of in Hcfg. cbn in Hcfg. rewrite Hcfg in Hmax. cbn in Hmax.
  eapply (saveHorcruxes_loop_stores (slot_uuid s)); [exact Hu|done| | |exact Hl|exact Hk]; [lia|].
  intros q Hq. destruct (Hnew q) as [Hn0 Hc0]; [lia|].
  split; [|by apply (creatable_mono fs)].
  destruct (fs1 !! save_path (slot_uuid s) q) eqn:E; [|done].
  destruct (Hb _ Hn0) as (j & s' & Hj & Hs' & Hf' & q' & Hq' & Hp); [by rewrite E|].
  pose proof Hf' as (_ & (_ & _ & _ & Hu') & _).
  apply save_path_inj in Hp as [Hp _]; try done; try lia. by destruct (Hother j s' Hj Hs' Hf').
Qed.

(** * Schedules *)

(** What makes a handler run: a connection attempt, or a completion of the
    operation a connection has in flight. *)
Inductive event :=
  | Accept (ec : error_code)
  | Complete (i : nat) (ec : error_code) (data : bytes).

#[global] Instance completes_dec op ec data c : Decision (completes op ec data c).
Proof. unfold completes. apply _. Defined.

Definition run_event `{OS} (sv : server) (e : event) : option server :=
  match e with
  | Accept ec =>
      c ← (match sv_thrown sv with None => sv_accepting sv | Some _ => None end);
      Some (handle_accept c ec (mkServer None (sv_slots sv) (sv_fs sv)))
  | Complete i ec data =>
      s ← (match sv_thrown sv with None => sv_slots sv !! i | Some _ => None end);
      op ← sl_op s;
      if decide (completes op ec data (sl_conn s)) then
        match resume op ec data (sl_conn s) (sv_fs sv) with
        | Ret st' => Some (update i st' sv)
        | _ => None
        end
      else None
  end.

Definition run_events `{OS} (es : list event) (sv : server) : option server :=
  foldl (fun r e => sv ← r; run_event sv e) (Some sv) es.

Lemma run_event_step `{OS} sv e sv' : run_event sv e = Some sv' -> server_step sv sv'.
Proof.
  destruct e as [ec|i ec data]; simpl.
  - destruct sv as [[c|] slots fs [e|]]; [done| |done..]. intros [= <-]. apply step_accept.
  - destruct (sv_thrown sv) eqn:Ht; [done|]. intros ([c o] & Hs & E)%bind_Some. apply bind_Some in E as (op & Ho & E). simpl in Ho. subst o.
    case_decide as Hc; [|done]. case_match eqn:Hr; try done. injection E as <-.
    apply (step_connection sv i _ _ Ht Hs). by apply (step_resume _ _ op ec data).
Qed.

Lemma run_events_steps `{OS} es : forall sv sv',
  run_events es sv = Some sv' -> rtc server_step sv sv'.
Proof.
  unfold run_events. induction es as [|e es IH]; intros sv sv'; simpl.
  - intros [= ->]. apply rtc_refl.
  - destruct (run_event sv e) as [sv1|] eqn:E.
    + intros Hr. eapply rtc_l; [by eapply run_event_step|by apply IH].
    + replace (foldl _ None es) with (@None server); [done|]. clear. by induction es.
Qed.

(** Two peers, each sending a file of one horcrux, handler by handler in turn. *)
Definition peer_pre (uuid : Z) : bytes :=
  let p := PreRequestHeader.mk uuid 2 1 in object_repr p (new_object p).

Definition peer_header (uuid : Z) : bytes :=
  let r := Request.mkHeader uuid 0 2 0 in object_repr r (new_object r).

Definition example_events : list event :=
  [Accept ec_success; Accept ec_success; Accept connection_reset;
   Complete 0 ec_success (peer_pre 42); Complete 1 ec_success (peer_pre 7);
   Complete 1 ec_success []; Complete 0 ec_success [];
   Complete 0 ec_success (peer_header 42); Complete 1 ec_success (peer_header 7);
   Complete 1 ec_success (lit "BB"); Complete 0 ec_success (lit "AA");
   Complete 0 ec_success []; Complete 1 broken_pipe []].

Definition example_out : filesystem := {[kOutPath := Directory]}.

Definition example_end : server :=
  match @run_events simple_os example_events (TcpServer example_out) with
  | Some sv => sv
  | None => TcpServer example_out
  end.

Lemma example_end_reached : rtc (@server_step simple_os) (TcpServer example_out) example_end.
Proof. apply (@run_events_steps simple_os example_events). by vm_compute. Qed.

Lemma server_never_fails_witness :
  exists sv', @server_step simple_os example_end sv' /\ length (sv_slots sv') = 3%nat.
Proof.
  destruct (proj1 (@server_never_fails simple_os _ example_out example_end example_end_reached ltac:(by vm_compute))
    ec_success) as (sv' & Hs & Hl).
  exists sv'. split; [exact Hs|]. rewrite Hl. by vm_compute.
Defined.

Lemma server_storage_safe_witness : sv_fs example_end !! kOutPath = Some Directory.
Proof.
  apply (proj1 (@server_storage_safe simple_os _ example_out example_end example_end_reached)).
  by vm_compute.
Defined.

Definition example_slot (i : nat) : slot :=
  default (mkSlot new_connection None) (sv_slots example_end !! i).

Lemma server_stores_concurrently_witness :
  sv_fs example_end !! lit "out/42.hcx.0" = Some (RegularFile (lit "AA")).
Proof.
  apply (@server_stores_concurrently simple_os _ _ example_out example_end 0 (example_slot 0)
    example_end_reached) with (k := 0%nat) (h := mkHorcruxData (lit "AA") (lit "")).
  - by vm_compute.
  - split; [by vm_compute|]. split; [by repeat split; vm_compute|].
    split; [|by vm_compute]. change (mCurrentRequestHorcruxes (sl_conn (example_slot 0)))
      with [Some (mkHorcruxData (lit "AA") (lit ""))]. by repeat constructor.
  - intros j s' Hj Hs _.
    assert (length (sv_slots example_end) = 2%nat) as Hl by (vm_compute; reflexivity).
    assert (slot_uuid <$> sv_slots example_end !! 1%nat = Some 7) as E by (vm_compute; reflexivity).
    assert (slot_uuid (example_slot 0) = 42) as -> by (vm_compute; reflexivity).
    assert (j = 1%nat) as -> by (apply lookup_lt_Some in Hs; lia).
    rewrite Hs in E. injection E as ->. discriminate.
  - assert (zlen (mCurrentRequestHorcruxes (sl_conn (example_slot 0))) = 1) as ->
      by by vm_compute.
    assert (slot_uuid (example_slot 0) = 42) as -> by (vm_compute; reflexivity).
    intros k Hk. assert (k = 0) as -> by lia.
    split; [by vm_compute|]. apply creatable_out; [lia|lia|reflexivity].
  - by vm_compute.
Defined.
