(* ===== verification/ClientSpec.v ===== *)
(** What the client promises: the calls a run of the program makes, in order,
    and the status it exits with. *)

From S2P Require Import Prelude.
From S2P Require Import ObjectRepr.
From S2P Require Import Splitter.
From S2P Require Import FileSystem.
From S2P Require Import Command.
From S2P Require Import Requests.
From S2P Require Import AsioError.
From S2P Require Import Client.

(** * Runs of a program *)

(** A call of the program, with what it returned. *)
Inductive call :=
  | Connected (failure : option Z)
  | Loaded (p : path) (content : outcome (option bytes))
  | Random (r : outcome Z)
  | Wrote (b : bytes) (len : nat) (ec : error_code)
  | Read (size : nat) (data : bytes) (ec : error_code).

(** What [loadFile] and [generateRandomUint64] may return or throw. *)
Definition loaded_ok (r : outcome (option bytes)) : bool :=
  match r with
  | Ret _ | Throw (std_filesystem_error _) => true
  | _ => false
  end.

Definition random_ok (r : outcome Z) : bool :=
  match r with
  | Ret z => (0 <=? z) && (z <? 2 ^ 64)
  | Throw random_device_error => true
  | _ => false
  end.

(** What any socket may return besides: no more bytes than asked for. *)
Definition call_ok (c : call) : Prop :=
  match c with
  | Connected _ => True
  | Loaded _ r => loaded_ok r = true
  | Random r => random_ok r = true
  | Wrote b len _ => (len <= length b)%nat
  | Read size data _ => (length data <= size)%nat
  end.

Inductive runs {A} : prog A -> list call -> outcome A -> Prop :=
  | runs_done o : runs (Done o) [] o
  | runs_connect k r t o :
      runs (k r) t o -> runs (Connect k) (Connected r :: t) o
  | runs_load p k r t o :
      call_ok (Loaded p r) -> runs (k r) t o -> runs (LoadFile p k) (Loaded p r :: t) o
  | runs_random k r t o :
      call_ok (Random r) -> runs (k r) t o -> runs (RandomUint64 k) (Random r :: t) o
  | runs_write b k n ec t o :
      call_ok (Wrote b n ec) -> runs (k n ec) t o ->
      runs (WriteSome b k) (Wrote b n ec :: t) o
  | runs_read n k d ec t o :
      call_ok (Read n d ec) -> runs (k d ec) t o ->
      runs (ReadSome n k) (Read n d ec :: t) o.

(** Runs of [m >>= f]: a run of [m], then, if it returned, a run of [f]. *)
Lemma runs_bind {A B} (f : A -> prog B) m t o :
  runs (m ≫= f) t o ->
  (exists t1 t2 a, t = t1 ++ t2 /\ runs m t1 (Ret a) /\ runs (f a) t2 o) \/
  (exists e, runs m t (Throw e) /\ o = Throw e) \/ (runs m t Undef /\ o = Undef).
Proof.
  revert t o; induction m as [[a|e|]|k IH|p k IH|k IH|b k IH|n k IH]; intros t o Hr;
    cbn in Hr.
  1: left; exists [], t, a; by repeat split; [constructor|].
  1: inversion Hr; subst; right; left; eexists; by split; [constructor|].
  1: inversion Hr; subst; right; right; by split; [constructor|].
  all: inversion Hr; subst.
  all: match goal with Hk : runs (_ ≫= _) _ _ |- _ => apply IH in Hk end.
  all: match goal with Hk : _ \/ _ \/ _ |- _ =>
    destruct Hk as [(t1 & t2 & a & -> & Hm & Hn)|[(e & Hm & ->)|[Hm ->]]] end.
  all: first [left; do 3 eexists; split; [by rewrite app_comm_cons|];
                split; [econstructor; eassumption|exact Hn]
             |right; left; eexists; split; [econstructor; eassumption|done]
             |right; right; split; [econstructor; eassumption|done]].
Qed.

Lemma runs_connect_inv {A} (k : option Z -> prog A) t o :
  runs (Connect k) t o -> exists r t', t = Connected r :: t' /\ runs (k r) t' o.
Proof. intros Hr. inversion Hr; subst. eauto. Qed.

Lemma runs_load_inv {A} p (k : outcome (option bytes) -> prog A) t o :
  runs (LoadFile p k) t o ->
  exists r t', t = Loaded p r :: t' /\ call_ok (Loaded p r) /\ runs (k r) t' o.
Proof. intros Hr. inversion Hr; subst. eauto. Qed.

Lemma runs_random_inv {A} (k : outcome Z -> prog A) t o :
  runs (RandomUint64 k) t o ->
  exists r t', t = Random r :: t' /\ call_ok (Random r) /\ runs (k r) t' o.
Proof. intros Hr. inversion Hr; subst. eauto. Qed.

Lemma runs_write_inv {A} b (k : nat -> error_code -> prog A) t o :
  runs (WriteSome b k) t o ->
  exists n ec t', t = Wrote b n ec :: t' /\ call_ok (Wrote b n ec) /\ runs (k n ec) t' o.
Proof. intros Hr. inversion Hr; subst. eauto 6. Qed.

Lemma runs_read_inv {A} n (k : bytes -> error_code -> prog A) t o :
  runs (ReadSome n k) t o ->
  exists d ec t', t = Read n d ec :: t' /\ call_ok (Read n d ec) /\ runs (k d ec) t' o.
Proof. intros Hr. inversion Hr; subst. eauto 6. Qed.

Lemma runs_ret {A} (a : A) t o : runs (mret a) t o -> t = [] /\ o = Ret a.
Proof. intros Hr. by inversion Hr. Qed.

Lemma runs_lift {A} (m : outcome A) t o : runs (lift m) t o -> t = [] /\ o = m.
Proof. intros Hr. by inversion Hr. Qed.

(** Runs of a [try] block. *)
Lemma runs_catch {A} (h : exn -> prog A) m t o :
  runs (catch h m) t o ->
  (exists t1 t2 e, t = t1 ++ t2 /\ runs m t1 (Throw e) /\ runs (h e) t2 o) \/
  (runs m t o /\ forall e, o <> Throw e).
Proof.
  revert t o; induction m as [[a|e|]|k IH|p k IH|k IH|b k IH|n k IH]; intros t o Hr;
    cbn in Hr.
  1, 3: inversion Hr; subst; right; split; [constructor|done].
  1: left; exists [], t, e; by repeat split; [constructor|].
  all: inversion Hr; subst.
  all: match goal with Hk : runs (catch _ _) _ _ |- _ => apply IH in Hk end.
  all: match goal with Hk : _ \/ _ |- _ =>
    destruct Hk as [(t1 & t2 & e & -> & Hm & Hn)|[Hm Hn]] end.
  all: first [left; do 3 eexists; split; [by rewrite app_comm_cons|];
                split; [econstructor; eassumption|exact Hn]
             |right; split; [econstructor; eassumption|exact Hn]].
Qed.

(** * The dialogue *)

(** What is said: the buffers given to the socket, the responses read. *)
Inductive line :=
  | Says (b : bytes)
  | Hears (b : bytes).

Definition said (c : call) : list line :=
  match c with
  | Wrote b _ _ => [Says b]
  | Read _ d _ => [Hears d]
  | _ => []
  end.

Definition dialogue (t : list call) : list line := t ≫= said.

Lemma dialogue_app t1 t2 : dialogue (t1 ++ t2) = dialogue t1 ++ dialogue t2.
Proof. apply bind_app. Qed.

(** No socket call of the run reported an error. *)
Definition no_error (c : call) : Prop :=
  match c with
  | Wrote _ _ ec | Read _ _ ec => ec_is_error ec = false
  | Connected failure => failure = None
  | _ => True
  end.

Section Dialogue.
Context (pre_mem : bytes) (request_mem : bytes).

Definition header_bytes (r : Request.t) : bytes :=
  serializeHeader (Request.mHeader r) request_mem
    (replicate (header_sizeof Request.Header) Byte.x00).

Definition pre_header_bytes (h : PreRequestHeader.t) : bytes :=
  serializeHeader h pre_mem (replicate (header_sizeof PreRequestHeader.t) Byte.x00).

(** One request and its response. *)
Definition exchange (r : Request.t) (response : bytes) : list line :=
  [Says (header_bytes r); Says (Request.mContent r); Hears response].

Lemma runs_readResponse t o :
  runs readResponse t o -> Forall no_error t ->
  exists d, dialogue t = [Hears d] /\ o = Ret (bool_decide (d = lit "SUCCESS")).
Proof.
  intros Hr Hne. apply runs_read_inv in Hr as (d & ec & t' & -> & _ & Hk).
  apply Forall_cons in Hne as [Hec _]. simpl in Hec. rewrite Hec in Hk.
  exists d. destruct (bool_decide (d = lit "SUCCESS"));
    [|destruct (bool_decide (d = lit "FAILURE"))]; by apply runs_ret in Hk as [-> ->].
Qed.

Lemma runs_sendHorcruxRequest r t o :
  runs (sendHorcruxRequest request_mem r) t o -> Forall no_error t ->
  exists d, dialogue t = exchange r d /\ o = Ret (bool_decide (d = lit "SUCCESS")).
Proof.
  intros Hr Hne. unfold sendHorcruxRequest in Hr.
  apply runs_write_inv in Hr as (n1 & ec1 & t1 & -> & _ & Hk1).
  apply Forall_cons in Hne as [Hec1 Hne]. simpl in Hec1. rewrite Hec1 in Hk1.
  apply runs_write_inv in Hk1 as (n2 & ec2 & t2 & -> & _ & Hk2).
  apply Forall_cons in Hne as [Hec2 Hne]. simpl in Hec2. rewrite Hec2 in Hk2.
  apply runs_bind in Hk2 as [(u1 & u2 & a & -> & Hu1 & Hu2)|[(e & Hu & _)|[Hu _]]].
  - apply Forall_app in Hne as [Hne1 Hne2].
    apply runs_readResponse in Hu1 as (d & Hd & [= ->]); [|done].
    assert (u2 = [] /\ o = Ret (bool_decide (d = lit "SUCCESS"))) as [-> ->]
      by (destruct (bool_decide (d = lit "SUCCESS")); by apply runs_ret in Hu2).
    exists d. split; [|done]. cbn. fold (dialogue (u1 ++ [])). by rewrite app_nil_r, Hd.
  - apply runs_readResponse in Hu as (d & _ & [=]); done.
  - apply runs_readResponse in Hu as (d & _ & [=]); done.
Qed.

(** All the requests are sent, whatever is answered. *)
Lemma runs_sendRequests rs : forall t o,
  runs (sendRequests request_mem rs) t o -> Forall no_error t ->
  o = Ret () /\ exists ds, length ds = length rs /\
  dialogue t = concat (zip_with exchange rs ds).
Proof.
  induction rs as [|r rs IH]; intros t o Hr Hne; cbn [sendRequests] in Hr.
  { apply runs_ret in Hr as [-> ->]. split; [done|]. by exists []. }
  apply runs_bind in Hr as [(t1 & t2 & a & -> & Hm & Hn)|[(e & Hm & _)|[Hm _]]];
    [|apply runs_sendHorcruxRequest in Hm as (d & _ & [=]); done..].
  apply Forall_app in Hne as [Hne1 Hne2].
  apply runs_sendHorcruxRequest in Hm as (d & Hd & _); [|done].
  destruct (IH t2 o Hn Hne2) as (-> & ds & Hl & Hds).
  split; [done|]. exists (d :: ds). split; [simpl; congruence|].
  by rewrite dialogue_app, Hd, Hds.
Qed.

(** ** After the file was loaded *)

Definition horcruxes_of (splitter : FileSplitter) (loaded : outcome (option bytes)) :
    outcome (list HorcruxData) :=
  file ← loaded;
  match file with
  | Some b => fs_split b
  | None => Ret []
  end.

Lemma runs_getHorcruxes p splitter t o :
  runs (getHorcruxes p splitter) t o ->
  exists file, t = [Loaded p file] /\ call_ok (Loaded p file) /\ o = horcruxes_of splitter file.
Proof.
  intros (file & t' & -> & Hok & Hk)%runs_load_inv. exists file.
  destruct file as [[b|]|e|]; by inversion Hk.
Qed.

(** The dialogue about a file of these horcruxes; it ends at once when the
    header is not answered with [SUCCESS]. *)
Definition file_dialogue (uuid : Z) (hs : list HorcruxData) (t : list call) : Prop :=
  exists d0 ds,
    dialogue t = Says (pre_header_bytes (PreRequestHeader.fromHorcruxes uuid hs)) ::
    Hears d0 :: concat (zip_with exchange (Request.fromHorcruxes uuid hs) ds) /\
    length ds = if bool_decide (d0 = lit "SUCCESS")
    then length (Request.fromHorcruxes uuid hs) else 0%nat.

(** What [run] does once the horcruxes are there. *)
Definition ship (horcruxes : list HorcruxData) : prog Z :=
  RandomUint64 (fun random =>
    uuid ← lift random;
    WriteSome (pre_header_bytes (PreRequestHeader.fromHorcruxes uuid horcruxes))
      (fun len ec =>
        if ec_is_error ec then mret 0
        else
          ok ← readResponse;
          if negb ok then mret 0
          else
            let requests := Request.fromHorcruxes
              (PreRequestHeader.mUuid (PreRequestHeader.fromHorcruxes uuid horcruxes)) horcruxes in
            _ ← sendRequests request_mem requests; mret 0)).

Lemma run_ship options splitter :
  run pre_mem request_mem options splitter =
  Connect (fun failure =>
  match failure with
  | Some code => lift (Throw (asio_system_error code))
  | None =>
  horcruxes ← getHorcruxes (mInputPath options) splitter;
  if bool_decide (horcruxes = []) then mret (-1) else ship horcruxes
  end).
Proof. reflexivity. Qed.

Lemma pre_uuid uuid hs : PreRequestHeader.mUuid (PreRequestHeader.fromHorcruxes uuid hs) = uuid.
Proof. by rewrite pre_fromHorcruxes. Qed.

Lemma runs_ship hs t o :
  runs (ship hs) t o -> Forall no_error t ->
  t = [Random (Throw random_device_error)] /\ o = Throw random_device_error \/
  o = Ret 0 /\ exists uuid, 0 <= uuid < 2 ^ 64 /\ file_dialogue uuid hs t.
Proof.
  intros (random & t1 & -> & Hu & Hr)%runs_random_inv Hne. simpl in Hu.
  destruct random as [uuid|[]|]; try done; [|left; by apply runs_lift in Hr as [-> ->]].
  right. assert (0 <= uuid < 2 ^ 64) as Hu' by (clear -Hu; simpl in Hu; lia). clear Hu.
  change (runs (WriteSome (pre_header_bytes (PreRequestHeader.fromHorcruxes uuid hs)) (fun len ec =>
    if ec_is_error ec then mret 0
    else
      ok ← readResponse;
      if negb ok then mret 0
      else
        _ ← sendRequests request_mem (Request.fromHorcruxes
          (PreRequestHeader.mUuid (PreRequestHeader.fromHorcruxes uuid hs)) hs); mret 0)) t1 o) in Hr.
  apply runs_write_inv in Hr as (n & ec & t2 & -> & _ & Hr).
  apply Forall_cons in Hne as [_ Hne]. apply Forall_cons in Hne as [Hec Hne].
  simpl in Hec. rewrite Hec, pre_uuid in Hr.
  apply runs_bind in Hr as [(u1 & u2 & a & -> & Hm & Hn)|[(e & Hm & _)|[Hm _]]];
    [|apply runs_readResponse in Hm as (d & _ & [=]); done..].
  apply Forall_app in Hne as [Hne1 Hne2].
  apply runs_readResponse in Hm as (d & Hd & [= ->]); [|done].
  assert (E : dialogue (Random (Ret uuid) :: Wrote
    (pre_header_bytes (PreRequestHeader.fromHorcruxes uuid hs)) n ec :: u1 ++ u2) =
    Says (pre_header_bytes (PreRequestHeader.fromHorcruxes uuid hs)) :: Hears d :: dialogue u2).
  { change (Says ?b :: Hears d :: ?l) with ([Says b] ++ [Hears d] ++ l).
    rewrite <- Hd, <- dialogue_app. done. }
  destruct (bool_decide (d = lit "SUCCESS")) eqn:Hs; cbn [negb] in Hn.
  - apply runs_bind in Hn as [(v1 & v2 & a & -> & Hm & Hn)|[(e & Hm & _)|[Hm _]]];
    [|apply runs_sendRequests in Hm as [[=] _]; done..].
    apply runs_ret in Hn as [-> ->]. rewrite app_nil_r in *.
    apply runs_sendRequests in Hm as (_ & ds & Hl & Hds); [|done].
    split; [done|]. exists uuid. split; [done|]. exists d, ds. by rewrite E, Hs, Hds.
  - apply runs_ret in Hn as [-> ->]. split; [done|]. exists uuid. split; [done|].
    exists d, []. rewrite E, Hs. split; [|done]. by destruct (Request.fromHorcruxes uuid hs).
Qed.
End Dialogue.

Lemma runs_run pre_mem request_mem options splitter t o :
  runs (run pre_mem request_mem options splitter) t o -> Forall no_error t ->
  exists file t', t = Connected None :: Loaded (mInputPath options) file :: t' /\
    match horcruxes_of splitter file with
    | Ret [] => t' = [] /\ o = Ret (-1)
    | Ret hs =>
        t' = [Random (Throw random_device_error)] /\ o = Throw random_device_error \/
        o = Ret 0 /\ exists uuid, 0 <= uuid < 2 ^ 64 /\ file_dialogue pre_mem request_mem uuid hs t'
    | Throw e => t' = [] /\ o = Throw e
    | Undef => t' = [] /\ o = Undef
    end.
Proof.
  rewrite run_ship. intros (failure & t1 & -> & Hr)%runs_connect_inv Hne.
  apply Forall_cons in Hne as [Hf Hne]. simpl in Hf. subst failure.
  apply runs_bind in Hr as [(u1 & u2 & hs & -> & Hm & Hn)|[(e & Hm & ->)|[Hm ->]]].
  - apply runs_getHorcruxes in Hm as (file & -> & _ & Hh). exists file, u2. split; [done|].
    rewrite <- Hh. apply Forall_app in Hne as [_ Hne]. destruct hs as [|h hs].
    + by apply runs_ret in Hn.
    + by apply runs_ship in Hn.
  - apply runs_getHorcruxes in Hm as (file & -> & _ & Hh). exists file, []. by rewrite <- Hh.
  - apply runs_getHorcruxes in Hm as (file & -> & _ & Hh). exists file, []. by rewrite <- Hh.
Qed.

Lemma main_run pre_mem request_mem argv options :
  parseHorcruxCommand (zlen argv) argv = Ret (Some options) ->
  main pre_mem request_mem (zlen argv) argv =
  catch (fun e => mret 0) (run pre_mem request_mem options (BasicFileSplitter (mHorcruxCount options))).
Proof. intros Hp. unfold main. by rewrite Hp. Qed.

(** C17. The whole of a run of the program in which no socket call fails, from a command
    line that is accepted: the client connects, reads its input file, splits it, and
    leaves with status -1 when there is no horcrux; otherwise it draws an identifier,
    sends the header of the file, and, if it is answered [SUCCESS], for each horcrux in
    order a header, the content, and waits for a response; whatever these responses are,
    it sends the next horcrux and exits with status 0.  If the file cannot be looked up
    or split, or the random device fails, the exception is caught and the status is 0
    too, without anything having been sent. *)
Theorem client_dialogue pre_mem request_mem argv options t o :
  parseHorcruxCommand (zlen argv) argv = Ret (Some options) ->
  runs (main pre_mem request_mem (zlen argv) argv) t o -> Forall no_error t ->
  exists file t', t = Connected None :: Loaded (mInputPath options) file :: t' /\
    match horcruxes_of (BasicFileSplitter (mHorcruxCount options)) file with
    | Ret [] => t' = [] /\ o = Ret (-1)
    | Ret hs => o = Ret 0 /\
        (t' = [Random (Throw random_device_error)] \/
         exists uuid, 0 <= uuid < 2 ^ 64 /\ file_dialogue pre_mem request_mem uuid hs t')
    | Throw _ => t' = [] /\ o = Ret 0
    | Undef => t' = [] /\ o = Undef
    end.
Proof.
  intros Hp. rewrite (main_run _ _ _ _ Hp). intros [(t1 & t2 & e & -> & Hm & Hn)|[Hm Hn]]%runs_catch Hne.
  - apply runs_ret in Hn as [-> ->]. rewrite app_nil_r in *.
    apply runs_run in Hm as (file & t' & -> & Hm); [|done]. exists file, t'. split; [done|].
    destruct (horcruxes_of _ file) as [[|h hs]|e'|]; try by destruct Hm.
    split; [done|]. destruct Hm as [[-> _]|[? _]]; [by left|done].
  - apply runs_run in Hm as (file & t' & -> & Hm); [|done]. exists file, t'. split; [done|].
    destruct (horcruxes_of _ file) as [[|h hs]|e'|]; try done.
    + destruct Hm as [[_ ->]|[-> Hd]]; [by destruct (Hn random_device_error)|]. split; [done|by right].
    + destruct Hm as [_ ->]. by destruct (Hn e').
Qed.

(** * How the client may end *)

(** Every outcome of the program satisfies [P]. *)
Fixpoint outcomes {A} (P : outcome A -> Prop) (m : prog A) : Prop :=
  match m with
  | Done o => P o
  | Connect k => forall r, outcomes P (k r)
  | LoadFile _ k => forall r, loaded_ok r = true -> outcomes P (k r)
  | RandomUint64 k => forall r, random_ok r = true -> outcomes P (k r)
  | WriteSome _ k => forall n ec, outcomes P (k n ec)
  | ReadSome _ k => forall d ec, outcomes P (k d ec)
  end.

Lemma outcomes_runs {A} (P : outcome A -> Prop) m t o : outcomes P m -> runs m t o -> P o.
Proof. intros Hm Hr. induction Hr; simpl in Hm; auto. Qed.

(** It returns or throws. *)
Definition defined {A} (o : outcome A) : Prop := o <> Undef.

(** The statuses of the program, or an exception. *)
Definition exits (o : outcome Z) : Prop :=
  o = Ret 0 \/ o = Ret (-1) \/ exists e, o = Throw e.

Lemma defined_bind {A B} (P : outcome B -> Prop) (f : A -> prog B) m :
  outcomes defined m -> (forall e, P (Throw e)) -> (forall a, outcomes P (f a)) ->
  outcomes P (m ≫= f).
Proof.
  intros Hm He Hf. induction m as [[a|e|]|k IH|p k IH|k IH|b k IH|n k IH]; simpl in *; auto; done.
Qed.

Section Outcomes.
Context (pre_mem : bytes) (request_mem : bytes).

Lemma readResponse_defined : outcomes defined readResponse.
Proof. intros d ec. by repeat case_match. Qed.

Lemma sendHorcruxRequest_defined r : outcomes defined (sendHorcruxRequest request_mem r).
Proof.
  intros n1 ec1. destruct (ec_is_error ec1); [done|]. intros n2 ec2.
  destruct (ec_is_error ec2); [done|].
  apply defined_bind; [apply readResponse_defined|done|by intros []].
Qed.

Lemma sendRequests_defined rs : outcomes defined (sendRequests request_mem rs).
Proof.
  induction rs as [|r rs IH]; [done|].
  apply defined_bind; [apply sendHorcruxRequest_defined|done|by intros a].
Qed.

Lemma ship_exits hs : outcomes exits (ship pre_mem request_mem hs).
Proof.
  assert (He : forall e, exits (Throw e)) by (unfold exits; eauto).
  intros [uuid|e|] Hu; [|apply He|done]. intros n ec. destruct (ec_is_error ec); [by left|].
  apply defined_bind; [apply readResponse_defined|done|intros []; simpl; [|by left]].
  apply defined_bind; [apply sendRequests_defined|done|by left].
Qed.

(** Undefined behaviour can only come from the splitter. *)
Lemma runs_run_exits options splitter t o :
  runs (run pre_mem request_mem options splitter) t o ->
  exits o \/ o = Undef /\ exists b,
  t = [Connected None; Loaded (mInputPath options) (Ret (Some b))] /\ fs_split b = Undef.
Proof.
  rewrite run_ship. intros ([code|] & t1 & -> & Hr)%runs_connect_inv.
  { apply runs_lift in Hr as [-> ->]. left. right. right. eauto. }
  apply runs_bind in Hr as [(u1 & u2 & hs & -> & Hm & Hn)|[(e & Hm & ->)|[Hm ->]]].
  - left. case_bool_decide; [apply runs_ret in Hn as [-> ->]; right; by left|].
    eapply outcomes_runs; [apply ship_exits|exact Hn].
  - left. right. right. eauto.
  - right. split; [done|]. apply runs_getHorcruxes in Hm as ([[b|]|e|] & -> & Hok & Hh); [|done..].
    by exists b.
Qed.
End Outcomes.

Lemma parse_outcomes argv :
  parseHorcruxCommand (zlen argv) argv = Throw std_out_of_range \/
  parseHorcruxCommand (zlen argv) argv = Ret None \/
  exists options, parseHorcruxCommand (zlen argv) argv = Ret (Some options) /\
    0 <= mHorcruxCount options.
Proof.
  destruct (save_command_dec argv) as [(prog & count & input & ->)|Hne];
    [|right; left; by apply parse_other].
  change (zlen _) with 5. rewrite parse_save_command.
  destruct (stoi count) as [v|e|] eqn:E.
  - right. right. eexists. split; [done|]. apply u32_bound.
  - apply stoi_throws in E as [->| ->]; auto.
  - by apply stoi_never_Undef in E.
Qed.

(** When [split] may be undefined: the file is at least as large as the count,
    and the count, or the last offset, does not fit. *)
Lemma split_undefined_only n b :
  0 <= n -> split stub_checksum n b = Undef ->
  n <= zlen b /\ (INT_MAX < n \/ 2 ^ 32 <= split_extent n b).
Proof.
  intros Hn Hs. unfold split in Hs.
  destruct (Z.eqb_spec n 0); [done|]. destruct (Z.ltb_spec (zlen b) n) as [|Hle]; [done|].
  split; [done|]. destruct (Z.lt_ge_cases INT_MAX n) as [|Hi]; [by left|right].
  apply Z.le_ngt. intros Hx. pose proof (split_defined stub_checksum n b) as E.
  unfold split in E. rewrite (proj2 (Z.eqb_neq _ _)), (proj2 (Z.ltb_ge _ _)) in E by done.
  rewrite E in Hs; done || lia.
Qed.

(** The client exits with status 0 or -1 whatever the server, the network
    and the file system do, with two exceptions: a count too large for an [int],
    which ends it before it does anything, and a count or a file too large for
    the 32-bit arithmetic of the splitter. *)
Theorem client_exits pre_mem request_mem argv t o :
  runs (main pre_mem request_mem (zlen argv) argv) t o ->
  o = Ret 0 \/ o = Ret (-1) \/
  (o = Throw std_out_of_range /\ t = [] /\
    parseHorcruxCommand (zlen argv) argv = Throw std_out_of_range) \/
  (o = Undef /\ exists options b,
    parseHorcruxCommand (zlen argv) argv = Ret (Some options) /\
    t = [Connected None; Loaded (mInputPath options) (Ret (Some b))] /\
    mHorcruxCount options <= zlen b /\
    (INT_MAX < mHorcruxCount options \/ 2 ^ 32 <= split_extent (mHorcruxCount options) b)).
Proof.
  intros Hr. unfold main in Hr.
  destruct (parse_outcomes argv) as [Hp|[Hp|(options & Hp & Hc)]]; rewrite Hp in Hr |- *.
  - apply runs_lift in Hr as [-> ->]. auto 6.
  - apply runs_ret in Hr as [_ ->]. auto.
  - change (runs (catch (fun e => mret 0) (run pre_mem request_mem options
      (BasicFileSplitter (mHorcruxCount options)))) t o) in Hr.
    apply runs_catch in Hr as [(t1 & t2 & e & _ & _ & Hr)|[Hr Hne]].
    { apply runs_ret in Hr as [_ ->]. auto. }
    apply runs_run_exits in Hr as [[->|[->|[e ->]]]|[-> (b & -> & Hs)]]; auto.
    { by destruct (Hne e). }
    do 3 right. split; [done|]. exists options, b. split; [done|]. split; [done|].
    by apply split_undefined_only.
Qed.

(** * Short writes *)

(** The program goes on the same way whatever number of bytes a write reports. *)
Inductive ignores_length {A} : prog A -> Prop :=
  | il_done o : ignores_length (Done o)
  | il_connect k : (forall r, ignores_length (k r)) -> ignores_length (Connect k)
  | il_load p k : (forall r, ignores_length (k r)) -> ignores_length (LoadFile p k)
  | il_random k : (forall z, ignores_length (k z)) -> ignores_length (RandomUint64 k)
  | il_write b k :
      (forall n n' ec, k n ec = k n' ec) -> (forall n ec, ignores_length (k n ec)) ->
      ignores_length (WriteSome b k)
  | il_read n k : (forall d ec, ignores_length (k d ec)) -> ignores_length (ReadSome n k).

Lemma il_bind {A B} (f : A -> prog B) m :
  ignores_length m -> (forall a, ignores_length (f a)) -> ignores_length (m ≫= f).
Proof.
  intros Hm Hf. induction Hm as [[a|e|]| | | |b k Hk Hi IH|]; simpl;
    try (constructor; auto; done); [apply Hf|].
  constructor; [|done]. intros n n' ec. by rewrite (Hk n n' ec).
Qed.

Lemma il_catch {A} (h : exn -> prog A) m :
  ignores_length m -> (forall e, ignores_length (h e)) -> ignores_length (catch h m).
Proof.
  intros Hm Hh. induction Hm as [[a|e|]| | | |b k Hk Hi IH|]; simpl;
    try (constructor; auto; done); [apply Hh|].
  constructor; [|done]. intros n n' ec. by rewrite (Hk n n' ec).
Qed.

(** The same calls, but for the lengths of the writes. *)
Inductive same_but_lengths : call -> call -> Prop :=
  | same_write b n n' ec :
      (n' <= length b)%nat -> same_but_lengths (Wrote b n ec) (Wrote b n' ec)
  | same_call c : same_but_lengths c c.

Lemma il_runs {A} (m : prog A) t t' o :
  ignores_length m -> runs m t o -> Forall2 same_but_lengths t t' -> runs m t' o.
Proof.
  intros Hm Hr. revert t'. induction Hr; intros t' Ht; inversion Hm; subst.
  - apply Forall2_nil_inv_l in Ht as ->. constructor.
  - apply Forall2_cons_inv_l in Ht as (c & t1 & Hc & Ht & ->). inversion Hc; subst.
    constructor. auto.
  - apply Forall2_cons_inv_l in Ht as (c & t1 & Hc & Ht & ->). inversion Hc; subst.
    constructor; auto.
  - apply Forall2_cons_inv_l in Ht as (c & t1 & Hc & Ht & ->). inversion Hc; subst.
    constructor; auto.
  - apply Forall2_cons_inv_l in Ht as (c & t1 & Hc & Ht & ->).
    inversion Hc as [b' n1 n' ec' Hle|]; subst; [|constructor; auto].
    constructor; [exact Hle|]. match goal with Hk : forall n n' ec, k n ec = k n' ec |- _ =>
      rewrite (Hk n' n ec) end. auto.
  - apply Forall2_cons_inv_l in Ht as (c & t1 & Hc & Ht & ->). inversion Hc; subst.
    constructor; auto.
Qed.

Section ShortWrites.
Context (pre_mem : bytes) (request_mem : bytes).

Lemma readResponse_il : ignores_length readResponse.
Proof. constructor. intros d ec. repeat case_match; constructor. Qed.

Lemma sendHorcruxRequest_il r : ignores_length (sendHorcruxRequest request_mem r).
Proof.
  constructor; [done|]. intros n1 ec1. destruct (ec_is_error ec1); [constructor|].
  constructor; [done|]. intros n2 ec2. destruct (ec_is_error ec2); [constructor|].
  apply il_bind; [apply readResponse_il|]. intros []; constructor.
Qed.

Lemma sendRequests_il rs : ignores_length (sendRequests request_mem rs).
Proof.
  induction rs as [|r rs IH]; [constructor|].
  apply il_bind; [apply sendHorcruxRequest_il|by intros a].
Qed.

Lemma run_il options splitter : ignores_length (run pre_mem request_mem options splitter).
Proof.
  rewrite run_ship. constructor. intros [code|]; [constructor|].
  apply il_bind; [constructor; intros [[]|e|]; constructor|].
  intros hs. case_bool_decide; [constructor|]. constructor. intros [uuid|e|]; [|constructor..].
  constructor; [done|]. intros n ec. destruct (ec_is_error ec); [constructor|].
  apply il_bind; [apply readResponse_il|]. intros []; [|constructor].
  apply il_bind; [apply sendRequests_il|constructor].
Qed.
End ShortWrites.

(** The number of bytes a [write_some] reports is ignored: from a run of the
    client one gets another, with the same calls and the same status, by letting
    any of the writes transfer fewer bytes, or none. *)
Theorem client_ignores_short_writes pre_mem request_mem argc argv t t' o :
  runs (main pre_mem request_mem argc argv) t o -> Forall2 same_but_lengths t t' ->
  runs (main pre_mem request_mem argc argv) t' o.
Proof.
  apply il_runs. unfold main. destruct (parseHorcruxCommand argc argv) as [[options|]|e|];
    [|constructor..].
  apply il_catch; [apply run_il|constructor].
Qed.

(** * Replaying a list of calls *)

Fixpoint replay {A} (m : prog A) (t : list call) : option (outcome A) :=
  match m, t with
  | Done o, [] => Some o
  | Connect k, Connected r :: t => replay (k r) t
  | LoadFile p k, Loaded p' r :: t =>
      if decide (p = p' /\ loaded_ok r = true) then replay (k r) t else None
  | RandomUint64 k, Random r :: t =>
      if decide (random_ok r = true) then replay (k r) t else None
  | WriteSome b k, Wrote b' n ec :: t =>
      if decide (b = b' /\ (n <= length b)%nat) then replay (k n ec) t else None
  | ReadSome n k, Read n' d ec :: t =>
      if decide (n = n' /\ (length d <= n)%nat) then replay (k d ec) t else None
  | _, _ => None
  end.

Lemma replay_runs {A} (m : prog A) : forall t o, replay m t = Some o -> runs m t o.
Proof.
  induction m as [o'|k IH|p k IH|k IH|b k IH|n k IH]; intros [|[r|p' r|z|b' len ec|n' d ec] t] o Hr;
    try done; simpl in Hr.
  - injection Hr as ->. constructor.
  - constructor. by apply IH.
  - case_decide as Hd; [|done]. destruct Hd as [<- Hd]. constructor; [done|by apply IH].
  - case_decide; [|done]. constructor; [done|by apply IH].
  - case_decide as Hd; [|done]. destruct Hd as [<- Hd]. constructor; [done|by apply IH].
  - case_decide as Hd; [|done]. destruct Hd as [<- Hd]. constructor; [done|by apply IH].
Qed.

(** * Witnesses *)

Definition example_argv : list bytes := save_command (lit "client") (lit "2") (lit "in.png").

Definition example_horcruxes : list HorcruxData :=
  [mkHorcruxData (lit "ab") []; mkHorcruxData (lit "cde") []].

Definition example_memory : bytes := replicate 24 Byte.xff.

(** One request of the example, every write transferring [n] bytes. *)
Definition example_exchange (n : nat) (r : Request.t) (response : bytes) : list call :=
  [Wrote (header_bytes example_memory r) n ec_success;
   Wrote (Request.mContent r) n ec_success; Read 128 response ec_success].

Definition example_calls (n : nat) : list call :=
  [Connected None; Loaded (lit "in.png") (Ret (Some (lit "abcde"))); Random (Ret 42);
   Wrote (pre_header_bytes example_memory (PreRequestHeader.fromHorcruxes 42 example_horcruxes))
     n ec_success;
   Read 128 (lit "SUCCESS") ec_success] ++
  concat (zip_with (example_exchange n) (Request.fromHorcruxes 42 example_horcruxes)
    [lit "FAILURE"; lit "SUCCESS"]).

Lemma client_dialogue_witness :
  exists file t',
    example_calls 0 = Connected None :: Loaded (lit "in.png") file :: t' /\
    exists uuid, file_dialogue example_memory example_memory uuid example_horcruxes t'.
Proof.
  destruct (client_dialogue example_memory example_memory example_argv
    (mkClientSaveOptions 2 (lit "in.png")) (example_calls 0) (Ret 0))
    as (file & t' & E & Hm).
  - by vm_compute.
  - apply replay_runs. by vm_compute.
  - repeat constructor.
  - exists file, t'. split; [exact E|]. injection E as <- <-.
    destruct Hm as (_ & [Hm|(uuid & _ & Hd)]); [discriminate Hm|]. by exists uuid.
Defined.

Lemma client_exits_witness :
  parseHorcruxCommand 5 (save_command (lit "client") (lit "99999999999") (lit "in.png"))
    = Throw std_out_of_range.
Proof.
  destruct (client_exits example_memory example_memory
    (save_command (lit "client") (lit "99999999999") (lit "in.png")) [] (Throw std_out_of_range))
    as [E|[E|[(_ & _ & Hp)|[E _]]]]; [|discriminate..|exact Hp|discriminate].
  apply replay_runs. by vm_compute.
Defined.

Lemma client_ignores_short_writes_witness :
  runs (main example_memory example_memory 5 example_argv) (example_calls 0) (Ret 0).
Proof.
  apply (client_ignores_short_writes example_memory example_memory 5 example_argv
    (example_calls 2)).
  - apply replay_runs. by vm_compute.
  - repeat (constructor; [constructor; simpl; lia|]). constructor.
Defined.
