(* ===== verification/System.v ===== *)
(** The client and the server together: [client.cpp] and one connection of the
    server, joined by the two byte streams of a TCP connection.

    The two programs run concurrently.  A step of the system is one call of the
    client or one completion of the server, in any order the state allows:
    the stream to the server holds what the client wrote and the server has not
    read, the stream back what the server sent and the client has not read.  A
    response is handed to the network in one step and its handler runs in a
    later one, so that the client may act on a response before the server does
    what follows it.  What the two sockets do with a call (how many of the
    bytes they are given or asked for they transfer), and what the client's random device
    gives, is the class [Network]. *)

From S2P Require Import Prelude.
From S2P Require Import ObjectRepr.
From S2P Require Import Splitter.
From S2P Require Import FileSystem.
From S2P Require Import Command.
From S2P Require Import Requests.
From S2P Require Import AsioError.
From S2P Require Import Connection.
From S2P Require Import ConnectionSpec.
From S2P Require Import ServeSpec.
From S2P Require Import Client.
From S2P Require Import ClientSpec.
From S2P Require Import Join.

Class Network := {
  (** [transfers b n]: a [write_some] of [b] may report [n] bytes *)
  transfers : bytes -> nat -> Prop;
  (** [delivers size avail n]: a [read_some] of [size] bytes may return the
      first [n] bytes of the [avail] that arrived *)
  delivers : nat -> bytes -> nat -> Prop;
  (** [draws r]: [generateRandomUint64] may return or throw [r] *)
  draws : outcome Z -> Prop
}.

(** Sockets that transfer all they can, and a random device that works. *)
Class WholeNetwork `{Network} := {
  transfers_all b n : transfers b n <-> n = length b;
  delivers_all size avail n : delivers size avail n <-> n = (size `min` length avail)%nat;
  draws_number r : draws r -> exists z, r = Ret z /\ 0 <= z < 2 ^ 64;
  draws_something : exists r, draws r
}.

Record system := mkSystem {
  sy_client : prog Z;
  sy_to_server : bytes;
  sy_to_client : bytes;
  sy_server : state;
  (** the response in flight was handed to the network *)
  sy_sent : bool
}.

Definition client_done (m : prog Z) : bool :=
  match m with
  | Done _ => true
  | _ => false
  end.

Section System.
Context `{OS} `{Network} (client_fs : filesystem).

(** A call of the client.  The server accepted the connection; once it lets it
    go, writes may fail and reads find the end of the stream. *)
Inductive client_step : system -> system -> Prop :=
  | client_connects k cs sc srv sent :
      client_step (mkSystem (Connect k) cs sc srv sent) (mkSystem (k None) cs sc srv sent)
  | client_loads p k cs sc srv sent :
      client_step (mkSystem (LoadFile p k) cs sc srv sent)
      (mkSystem (k (loadFile client_fs p)) cs sc srv sent)
  | client_draws k random cs sc srv sent :
      draws random ->
      client_step (mkSystem (RandomUint64 k) cs sc srv sent) (mkSystem (k random) cs sc srv sent)
  | client_writes b k n cs sc srv sent :
      transfers b n -> (n <= length b)%nat ->
      client_step (mkSystem (WriteSome b k) cs sc srv sent)
      (mkSystem (k n ec_success) (cs ++ take n b) sc srv sent)
  | client_write_fails b k ec cs sc srv sent :
      st_op srv = None -> ec_is_error ec = true ->
      client_step (mkSystem (WriteSome b k) cs sc srv sent)
      (mkSystem (k 0%nat ec) cs sc srv sent)
  | client_reads size k n cs sc srv sent :
      sc <> [] -> delivers size sc n -> (0 < n <= size `min` length sc)%nat ->
      client_step (mkSystem (ReadSome size k) cs sc srv sent)
      (mkSystem (k (take n sc) ec_success) cs (drop n sc) srv sent)
  | client_read_fails size k ec cs srv sent :
      st_op srv = None -> ec_is_error ec = true ->
      client_step (mkSystem (ReadSome size k) cs [] srv sent)
      (mkSystem (k [] ec) cs [] srv sent).

(** A completion of the server. *)
Inductive server_step : system -> system -> Prop :=
  | server_reads m cs sc c fs op sent st' :
      is_read op -> (read_size op c <= length cs)%nat ->
      resume op ec_success (take (read_size op c) cs) c fs = Ret st' ->
      server_step (mkSystem m cs sc (mkState c fs (Some op)) sent)
      (mkSystem m (drop (read_size op c) cs) sc st' false)
  | server_read_ends m cs sc c fs op sent st' :
      is_read op -> client_done m = true -> (length cs < read_size op c)%nat ->
      resume op eof cs c fs = Ret st' ->
      server_step (mkSystem m cs sc (mkState c fs (Some op)) sent)
      (mkSystem m [] sc st' false)
  | server_sends m cs sc c fs next :
      server_step (mkSystem m cs sc (mkState c fs (Some (WritingResponse next))) false)
      (mkSystem m cs (sc ++ mMessageBuffer c)
      (mkState c fs (Some (WritingResponse next))) true)
  | server_was_sent m cs sc c fs next st' :
      resume (WritingResponse next) ec_success [] c fs = Ret st' ->
      server_step (mkSystem m cs sc (mkState c fs (Some (WritingResponse next))) true)
      (mkSystem m cs sc st' false).

Definition system_step (s s' : system) : Prop := client_step s s' \/ server_step s s'.

(** Every execution from [s] comes, in finitely many steps, to a state in [Q]. *)
Inductive eventually (Q : system -> Prop) : system -> Prop :=
  | ev_now s : Q s -> eventually Q s
  | ev_next s :
      (exists s', system_step s s') ->
      (forall s', system_step s s' -> eventually Q s') ->
      eventually Q s.

Lemma ev_bind (P Q : system -> Prop) s :
  eventually P s -> (forall s', P s' -> eventually Q s') -> eventually Q s.
Proof. intros Hs Hp. induction Hs as [|s He Ha IH]; [auto|]. by apply ev_next. Qed.

Lemma ev_reaches Q s : eventually Q s -> exists s', rtc system_step s s' /\ Q s'.
Proof.
  induction 1 as [s Hs|s [s1 Hs1] _ IH]; [exists s; split; [apply rtc_refl|done]|].
  destruct (IH s1 Hs1) as (s' & Hr & Hq). exists s'. split; [by eapply rtc_l|done].
Qed.

(** ** Whose turn it is *)

Definition only (step : system -> system -> Prop) (s s1 : system) : Prop :=
  forall s', step s s' <-> s' = s1.

Definition blocked (step : system -> system -> Prop) (s : system) : Prop :=
  forall s', ~ step s s'.

Lemma ev_both Q s s1 s2 :
  only client_step s s1 -> only server_step s s2 ->
  eventually Q s1 -> eventually Q s2 -> eventually Q s.
Proof.
  intros Hc Hs E1 E2. apply ev_next; [exists s1; left; by apply Hc|].
  intros s' [Hs'%Hc|Hs'%Hs]; by subst.
Qed.

Lemma ev_client Q s s1 :
  only client_step s s1 -> blocked server_step s -> eventually Q s1 -> eventually Q s.
Proof.
  intros Hc Hs E1. apply ev_next; [exists s1; left; by apply Hc|].
  intros s' [Hs'%Hc|Hs'%Hs]; by subst.
Qed.

Lemma ev_server Q s s2 :
  only server_step s s2 -> blocked client_step s -> eventually Q s2 -> eventually Q s.
Proof.
  intros Hs Hc E2. apply ev_next; [exists s2; right; by apply Hs|].
  intros s' [Hs'%Hc|Hs'%Hs]; by subst.
Qed.

Lemma server_reads_only m w rest sc c fs op sent st' :
  is_read op -> length w = read_size op c -> resume op ec_success w c fs = Ret st' ->
  only server_step (mkSystem m (w ++ rest) sc (mkState c fs (Some op)) sent)
  (mkSystem m rest sc st' false).
Proof.
  intros Hop Hw Hr s'. split.
  - intros Hs. inversion Hs; subst; try done.
    + rewrite <- Hw, take_app_length, drop_app_length in *. congruence.
    + rewrite length_app in *. lia.
  - intros ->. pose proof (server_reads m (w ++ rest) sc c fs op sent st' Hop) as Hx.
    rewrite <- Hw, take_app_length, drop_app_length in Hx.
    apply Hx; [rewrite length_app; lia|exact Hr].
Qed.

Lemma server_waits m cs sc c fs op sent :
  is_read op -> client_done m = false -> (length cs < read_size op c)%nat ->
  blocked server_step (mkSystem m cs sc (mkState c fs (Some op)) sent).
Proof. intros Hop Hd Hl s' Hs. inversion Hs; subst; try done; [lia|congruence]. Qed.

Lemma server_sends_only m cs sc c fs next :
  only server_step (mkSystem m cs sc (mkState c fs (Some (WritingResponse next))) false)
  (mkSystem m cs (sc ++ mMessageBuffer c) (mkState c fs (Some (WritingResponse next))) true).
Proof.
  intros s'. split; [|intros ->; constructor]. intros Hs. by inversion Hs; subst.
Qed.

Lemma server_was_sent_only m cs sc c fs next st' :
  resume (WritingResponse next) ec_success [] c fs = Ret st' ->
  only server_step (mkSystem m cs sc (mkState c fs (Some (WritingResponse next))) true)
  (mkSystem m cs sc st' false).
Proof.
  intros Hr s'. split; [|by intros ->; constructor].
  intros Hs. inversion Hs; subst; try done. congruence.
Qed.

Lemma server_closed m cs sc c fs e sent :
  blocked server_step (mkSystem m cs sc (mkHandled c fs None e) sent).
Proof. intros s' Hs. inversion Hs. Qed.

Lemma client_exited o cs sc srv sent : blocked client_step (mkSystem (Done o) cs sc srv sent).
Proof. intros s' Hs. inversion Hs. Qed.

Lemma client_waits size k cs srv sent :
  st_op srv <> None -> blocked client_step (mkSystem (ReadSome size k) cs [] srv sent).
Proof. intros Ho s' Hs. by inversion Hs; subst. Qed.

Context `{!WholeNetwork}.

Lemma client_writes_only b k cs sc srv sent :
  st_op srv <> None ->
  only client_step (mkSystem (WriteSome b k) cs sc srv sent)
  (mkSystem (k (length b) ec_success) (cs ++ b) sc srv sent).
Proof.
  intros Ho s'. split.
  - intros Hs. inversion Hs; subst; [|done].
    match goal with Ht : transfers _ _ |- _ => apply transfers_all in Ht as -> end.
    by rewrite firstn_all.
  - intros ->. pose proof (client_writes b k (length b) cs sc srv sent) as Hx.
    rewrite firstn_all in Hx. apply Hx; [by apply transfers_all|done].
Qed.

Lemma client_reads_only size k cs sc srv sent :
  sc <> [] -> (length sc <= size)%nat ->
  only client_step (mkSystem (ReadSome size k) cs sc srv sent)
  (mkSystem (k sc ec_success) cs [] srv sent).
Proof.
  intros Hne Hl s'. assert (Hm : (size `min` length sc = length sc)%nat) by lia. split.
  - intros Hs. inversion Hs; subst; [|done].
    match goal with Ht : delivers _ _ _ |- _ => apply delivers_all in Ht as -> end.
    by rewrite Hm, firstn_all, drop_all.
  - intros ->. pose proof (client_reads size k (length sc) cs sc srv sent Hne) as Hx.
    rewrite firstn_all, drop_all, Hm in Hx. apply Hx; [by apply delivers_all|].
    destruct sc; [done|simpl; lia].
Qed.

(** ** Between two requests *)

(** Both streams are empty and the response [next] was to follow has been sent:
    its handler is still to run, or has run. *)
Inductive between (uuid : Z) (fs : filesystem) (m : prog Z) (next : next_op)
    (slots : list (option HorcruxData)) : system -> Prop :=
  | between_sent c :
      ready uuid slots c ->
      between uuid fs m next slots
      (mkSystem m [] [] (mkState c fs (Some (WritingResponse next))) true)
  | between_resumed c st' :
      ready uuid slots c -> resume (WritingResponse next) ec_success [] c fs = Ret st' ->
      between uuid fs m next slots (mkSystem m [] [] st' false).

(** ** One request

    The client's side is given by its three calls: [k1], [k2] and [k3] are what
    follows the write of the header, the write of the content and the response. *)
Section Round.
Context (Q : system -> Prop) (uuid : Z) (fs : filesystem)
    (slots : list (option HorcruxData)) (i : nat) (hb content : bytes)
    (k1 k2 : nat -> error_code -> prog Z) (k3 : bytes -> error_code -> prog Z).

Let slots' := put slots (i, content).

Let next : next_op :=
  if forallb (fun o => bool_decide (is_Some o)) slots' then NextSaveHorcruxes
  else NextReadRequestHeader.

Context
    (Hk1 : forall n, k1 n ec_success = WriteSome content k2)
    (Hk2 : forall n, k2 n ec_success = ReadSome 128 k3)
    (Hheader : is_object Request.Header hb)
    (Huuid : Request.mUuid (object_value hb) = uuid)
    (Hindex : Request.mIndex (object_value hb) = Z.of_nat i)
    (Hsize : Request.mContentSize (object_value hb) = zlen content)
    (Hfree : slots !! i = Some None) (Hcontent : content <> [])
    (Hafter : forall s, between uuid fs (k3 SUCCESS ec_success) next slots' s -> eventually Q s).

Lemma next_resumes c :
  ready uuid slots' c ->
  exists st', resume (WritingResponse next) ec_success [] c fs = Ret st' /\
  forall m sc, client_done m = false -> blocked server_step (mkSystem m [] sc st' false).
Proof.
  intros (Hb & Ha & Hs & Hu). unfold next.
  destruct (forallb _ slots') eqn:E.
  - apply forallb_received in E. rewrite <- Hs in E. unfold resume, onResponse. cbn [fill].
    destruct (saves_or_fails c fs Hb Ha E) as (fs' & [->|(e & -> & _)]);
      (eexists; split; [reflexivity|]; intros m sc _; apply server_closed).
  - eexists. split; [reflexivity|]. intros m sc Hm. apply server_waits; [done|done|].
    destruct Hb as (_ & Hr & _). cbn [read_size fill]. rewrite Hr. cbn. lia.
Qed.

Lemma round_answered c :
  ready uuid slots' c ->
  eventually Q (mkSystem (ReadSome 128 k3) [] SUCCESS
  (mkState c fs (Some (WritingResponse next))) true).
Proof.
  intros Hc. destruct (next_resumes c Hc) as (st' & E & Hb).
  eapply ev_both.
  - apply client_reads_only; [done|simpl; lia].
  - by apply server_was_sent_only.
  - apply Hafter. by apply between_sent.
  - eapply ev_client; [apply client_reads_only; [done|simpl; lia]|by apply Hb|].
    apply Hafter. by eapply between_resumed.
Qed.

Lemma round_received c :
  ready uuid slots' c -> mMessageBuffer c = SUCCESS ->
  eventually Q (mkSystem (ReadSome 128 k3) [] []
  (mkState c fs (Some (WritingResponse next))) false).
Proof.
  intros Hc Hm. eapply ev_server; [apply server_sends_only|by apply client_waits|].
  rewrite Hm. by apply round_answered.
Qed.

(** The server waits for the content. *)
Definition expects (c : connection) : Prop :=
  ready uuid slots c /\ Request.mIndex (mRequestHeader c) = Z.of_nat i /\
    read_size ReadingRequestContent c = length content /\
    length (mMessageBuffer c) = length content.

Lemma round_content c :
  expects c ->
  eventually Q (mkSystem (ReadSome 128 k3) content []
  (mkState c fs (Some ReadingRequestContent)) false).
Proof.
  intros (Hc & Hi & Hs & Hl).
  destruct (resume_request_content uuid slots c fs i content Hc Hi) as (c' & E & Hc' & Hm);
    [by eapply lookup_lt_Some|done|].
  rewrite <- (app_nil_r content) at 1.
  eapply ev_server; [by apply server_reads_only|by apply client_waits|].
  by apply round_received.
Qed.

Lemma resume_header c :
  ready uuid slots c ->
  exists c', resume ReadingRequestHeader ec_success hb c fs =
  Ret (mkState c' fs (Some ReadingRequestContent)) /\ expects c'.
Proof.
  intros Hc. destruct (resume_request_header uuid slots c fs i (length content) hb)
    as (c' & E & Hr1 & Hr2 & Hr3 & Hr4); try done. by exists c'.
Qed.

Lemma header_size c :
  ready uuid slots c -> length hb = read_size ReadingRequestHeader c.
Proof. intros ((_ & Hr & _) & _). unfold is_object in *. simpl. congruence. Qed.

(** The server between two requests: after the response was sent, or reading. *)
Definition idle (c : connection) (srv : state) (sent : bool) : Prop :=
  srv = mkState c fs (Some (WritingResponse NextReadRequestHeader)) /\ sent = true \/
    srv = mkState c fs (Some ReadingRequestHeader) /\ sent = false.

(** Whatever holds of the reading server holds of the one that just sent. *)
Lemma ev_idle m cs sc c srv sent :
  idle c srv sent ->
  (forall srv sent, idle c srv sent -> exists s1,
  only client_step (mkSystem m cs sc srv sent) s1 /\ eventually Q s1) \/
  (forall srv sent, idle c srv sent -> blocked client_step (mkSystem m cs sc srv sent)) ->
  eventually Q (mkSystem m cs sc (mkState c fs (Some ReadingRequestHeader)) false) ->
  eventually Q (mkSystem m cs sc srv sent).
Proof.
  intros Hi Hc Hq. pose proof Hi as [[-> ->]|[-> ->]]; [|done].
  assert (Hs : only server_step
    (mkSystem m cs sc (mkState c fs (Some (WritingResponse NextReadRequestHeader))) true)
    (mkSystem m cs sc (mkState c fs (Some ReadingRequestHeader)) false))
    by by apply server_was_sent_only.
  destruct Hc as [Hc|Hc].
  - destruct (Hc _ _ Hi) as (s1 & Hs1 & Hq1). by eapply ev_both.
  - eapply ev_server; [exact Hs|by apply Hc|exact Hq].
Qed.

Lemma idle_open c srv sent : idle c srv sent -> st_op srv <> None.
Proof. by intros [[-> _]|[-> _]]. Qed.

Lemma round_both c srv sent :
  ready uuid slots c -> idle c srv sent ->
  eventually Q (mkSystem (ReadSome 128 k3) (hb ++ content) [] srv sent).
Proof.
  intros Hc Hi. eapply ev_idle; [exact Hi| |].
  { right. intros srv' sent' Hi'. apply client_waits. by eapply idle_open. }
  destruct (resume_header c Hc) as (c' & E & He).
  eapply ev_server; [by apply server_reads_only; [|apply header_size|]|by apply client_waits|].
  by apply round_content.
Qed.

Lemma round_header c srv sent :
  ready uuid slots c -> idle c srv sent ->
  eventually Q (mkSystem (WriteSome content k2) hb [] srv sent).
Proof.
  intros Hc Hi.
  assert (Hw : forall srv sent, idle c srv sent -> exists s1,
    only client_step (mkSystem (WriteSome content k2) hb [] srv sent) s1 /\ eventually Q s1).
  { intros srv' sent' Hi'. eexists. split; [apply client_writes_only; by eapply idle_open|].
    rewrite Hk2. by eapply round_both. }
  eapply ev_idle; [exact Hi|by left|]. destruct (Hw _ _ (or_intror (conj eq_refl eq_refl)))
    as (s1 & Hs1 & Hq1).
  destruct (resume_header c Hc) as (c' & E & He). rewrite <- (app_nil_r hb).
  eapply ev_both; [by rewrite app_nil_r|
    by apply server_reads_only; [|apply header_size|]|exact Hq1|].
  eapply ev_client; [by apply client_writes_only| |rewrite Hk2; by apply round_content].
  apply server_waits; [done|done|]. destruct He as (_ & _ & -> & _).
  destruct content; [done|simpl; lia].
Qed.

Lemma round_start c srv sent :
  ready uuid slots c -> idle c srv sent ->
  eventually Q (mkSystem (WriteSome hb k1) [] [] srv sent).
Proof.
  intros Hc Hi.
  assert (Hw : forall srv sent, idle c srv sent -> exists s1,
    only client_step (mkSystem (WriteSome hb k1) [] [] srv sent) s1 /\ eventually Q s1).
  { intros srv' sent' Hi'. eexists. split; [apply client_writes_only; by eapply idle_open|].
    rewrite Hk1. by eapply round_header. }
  eapply ev_idle; [exact Hi|by left|]. destruct (Hw _ _ (or_intror (conj eq_refl eq_refl)))
    as (s1 & Hs1 & Hq1).
  eapply ev_client; [exact Hs1| |exact Hq1].
  apply server_waits; [done|done|]. rewrite <- (header_size c Hc), Hheader. cbn. lia.
Qed.

Lemma round s :
  between uuid fs (WriteSome hb k1) NextReadRequestHeader slots s -> eventually Q s.
Proof.
  intros [c Hc|c st' Hc E].
  - apply (round_start c); [done|by left].
  - injection E as <-. apply (round_start c); [done|by right].
Qed.
End Round.

(** ** A whole file *)
Section File.
Context (Q : system -> Prop) (pre_mem request_mem : bytes).
Context (Hpre_mem : is_object PreRequestHeader.t pre_mem)
    (Hrequest_mem : is_object Request.Header request_mem).

(** What is left of the client when the requests [rs] are to be sent. *)
Definition rest_of (rs : list Request.t) : prog Z :=
  catch (fun e => mret 0) (_ ← sendRequests request_mem rs; mret 0).

Definition horcrux_requests (uuid : Z) (i : nat) (hs : list HorcruxData) : list Request.t :=
  imap (fun j h => request_of uuid (i + j) h) hs.

Lemma horcrux_requests_cons uuid i h hs :
  horcrux_requests uuid i (h :: hs) = request_of uuid i h :: horcrux_requests uuid (S i) hs.
Proof.
  unfold horcrux_requests. simpl. rewrite Nat.add_0_r. f_equal.
  apply imap_ext. intros j x _. simpl. by rewrite Nat.add_succ_r.
Qed.

(** What is received: the contents by number. *)
Definition numbered (i : nat) (hs : list HorcruxData) : list (nat * bytes) :=
  imap (fun j h => ((i + j)%nat, mContent h)) hs.

Lemma numbered_cons i h hs : numbered i (h :: hs) = (i, mContent h) :: numbered (S i) hs.
Proof.
  unfold numbered. simpl. rewrite Nat.add_0_r. f_equal.
  apply imap_ext. intros j x _. simpl. by rewrite Nat.add_succ_r.
Qed.

Lemma header_bytes_request uuid i h :
  0 <= uuid < 2 ^ 64 -> Z.of_nat i < 2 ^ 32 -> zlen (mContent h) < 2 ^ 32 ->
  let hb := header_bytes request_mem (request_of uuid i h) in
  is_object Request.Header hb /\ Request.mUuid (object_value hb) = uuid /\
  Request.mIndex (object_value hb) = Z.of_nat i /\
  Request.mContentSize (object_value hb) = zlen (mContent h).
Proof.
  intros Hu Hi Hc hb. pose proof (zlen_nonneg (mContent h)).
  assert (E : hb = object_repr (Request.mHeader (request_of uuid i h)) request_mem).
  { apply serializeHeader_repr; [done|]. apply length_replicate. }
  split; [rewrite E; by apply is_object_repr|].
  rewrite E, object_value_repr; [|apply request_header_wf|done].
  - simpl. by rewrite !u32_small by lia.
  - unfold request_header_ok. simpl. rewrite !u32_small by lia. lia.
Qed.

(** The server's slots with the first [i] horcruxes received, and the
    others to come. *)
Definition to_come (slots : list (option HorcruxData)) (i : nat) (hs : list HorcruxData) : Prop :=
  received (take i slots) /\ length slots = (i + length hs)%nat /\
    forall j, (j < length hs)%nat -> slots !! (i + j)%nat = Some None.

Lemma to_come_put slots i h hs :
  to_come slots i (h :: hs) -> to_come (put slots (i, mContent h)) (S i) hs.
Proof.
  intros (Hr & Hl & Hf). unfold put. cbn [fst snd]. simpl in Hl.
  assert (Hi : (i < length slots)%nat) by lia. split; [|split].
  - rewrite take_S_r with (x := Some (mkHorcruxData (mContent h) (lit "")))
    by by apply list_lookup_insert_eq.
    rewrite take_insert_ge by done. apply Forall_app. split; [exact Hr|]. by repeat constructor.
  - rewrite length_insert. lia.
  - intros j Hj. rewrite list_lookup_insert_ne by lia.
    replace (S i + j)%nat with (i + S j)%nat by lia. apply Hf. simpl. lia.
Qed.

Lemma to_come_next slots i hs :
  to_come slots i hs ->
  forallb (fun o => bool_decide (is_Some o)) slots = bool_decide (hs = []).
Proof.
  intros (Hr & Hl & Hf). destruct hs as [|h hs].
  - apply forallb_received. simpl in Hl. rewrite Nat.add_0_r in Hl.
    by rewrite <- Hl, firstn_all in Hr.
  - apply not_true_iff_false. rewrite forallb_received.
    apply (not_received _ i). rewrite <- (Nat.add_0_r i). apply Hf. simpl. lia.
Qed.

(** The three calls of a request. *)
Lemma rest_of_cons r rs :
  exists k1 k2 k3,
  rest_of (r :: rs) = WriteSome (header_bytes request_mem r) k1 /\
  (forall n, k1 n ec_success = WriteSome (Request.mContent r) k2) /\
  (forall n, k2 n ec_success = ReadSome 128 k3) /\
  k3 SUCCESS ec_success = rest_of rs.
Proof.
  do 3 eexists. split; [reflexivity|].
  split; [intros n; hnf; reflexivity|]. split; [intros n; hnf; reflexivity|]. reflexivity.
Qed.

Lemma rounds uuid fs hs : forall i slots s,
  0 <= uuid < 2 ^ 64 -> Z.of_nat i + zlen hs < 2 ^ 32 ->
  Forall (fun h => mContent h <> [] /\ zlen (mContent h) < 2 ^ 32) hs -> hs <> [] ->
  to_come slots i hs ->
  (forall s, between uuid fs (rest_of []) NextSaveHorcruxes (puts slots (numbered i hs)) s ->
  eventually Q s) ->
  between uuid fs (rest_of (horcrux_requests uuid i hs)) NextReadRequestHeader slots s ->
  eventually Q s.
Proof.
  induction hs as [|h hs IH]; intros i slots s Hu Hn Hh Hne Ht Hend Hs; [done|].
  rewrite zlen_cons in Hn. pose proof (zlen_nonneg hs).
  apply Forall_cons in Hh as [[Hc Hc'] Hh].
  destruct (header_bytes_request uuid i h Hu) as (Ho & H1' & H2' & H3'); [lia|done|].
  rewrite horcrux_requests_cons in Hs. rewrite numbered_cons in Hend. cbn [puts foldl] in Hend.
  pose proof (to_come_put slots i h hs Ht) as Ht'.
  destruct (rest_of_cons (request_of uuid i h) (horcrux_requests uuid (S i) hs))
    as (k1 & k2 & k3 & Ek & Hk1 & Hk2 & Hk3). rewrite Ek in Hs.
  apply (round Q uuid fs slots i _ (mContent h) k1 k2 k3 Hk1 Hk2 Ho H1' H2' H3'); try done.
  { rewrite <- (Nat.add_0_r i). apply Ht. simpl. lia. }
  rewrite (to_come_next _ _ _ Ht'), Hk3. intros s' Hs'. destruct hs as [|h' hs].
  - apply Hend. exact Hs'.
  - eapply (IH (S i)); [done|lia|done|done|exact Ht'|exact Hend|exact Hs'].
Qed.

(** ** Up to the first response *)

(** The client when its file was split into [hs]. *)
Definition shipping (hs : list HorcruxData) : prog Z :=
  catch (fun e => mret 0) (ship pre_mem request_mem hs).

Lemma shipping_calls hs :
  exists k1, shipping hs = RandomUint64 k1 /\
  forall uuid, exists k2 k3,
  k1 (Ret uuid) = WriteSome (pre_header_bytes pre_mem (PreRequestHeader.fromHorcruxes uuid hs)) k2 /\
  (forall n, k2 n ec_success = ReadSome 128 k3) /\
  k3 SUCCESS ec_success = rest_of (Request.fromHorcruxes uuid hs) /\
  (forall d, d <> SUCCESS -> k3 d ec_success = Done (Ret 0)).
Proof.
  eexists. split; [reflexivity|]. intros uuid. do 2 eexists. split; [reflexivity|].
  split; [intros n; hnf; reflexivity|]. split.
  2:{ intros d Hd. cbv beta. rewrite (bool_decide_false (d = lit "SUCCESS")) by done.
    change (ec_is_error ec_success) with false. cbv iota. by destruct (bool_decide _). }
  transitivity (rest_of (Request.fromHorcruxes
    (PreRequestHeader.mUuid (PreRequestHeader.fromHorcruxes uuid hs)) hs)); [reflexivity|].
  by rewrite pre_uuid.
Qed.

Lemma waits_for_pre_header m fs sc sent :
  client_done m = false ->
  blocked server_step (mkSystem m [] sc (Start fs) sent).
Proof. intros Hm. apply server_waits; [done|done|]. cbn. lia. Qed.

Lemma pre_header_bytes_sent uuid hs :
  0 <= uuid < 2 ^ 64 ->
  sends_pre_header (PreRequestHeader.fromHorcruxes uuid hs)
  (pre_header_bytes pre_mem (PreRequestHeader.fromHorcruxes uuid hs)).
Proof.
  intros Hu. unfold pre_header_bytes.
  rewrite serializeHeader_repr by (done || apply length_replicate).
  apply sends_pre_header_repr; [|done]. rewrite pre_fromHorcruxes.
  pose proof (u32_bound (total_size hs)). pose proof (u32_bound (zlen hs)).
  unfold pre_header_ok. simpl. lia.
Qed.

(** The response to the pre-request header is on its way: the rest goes on from
    it. *)
Lemma pre_header_phase fs hs :
  (forall uuid c k3, 0 <= uuid < 2 ^ 64 -> draws (Ret uuid) ->
  let p := PreRequestHeader.fromHorcruxes uuid hs in
  let next := if within_limits p then NextReadRequestHeader else NextNothing in
  k3 SUCCESS ec_success = rest_of (Request.fromHorcruxes uuid hs) ->
  (forall d, d <> SUCCESS -> k3 d ec_success = Done (Ret 0)) ->
  (within_limits p = true ->
  ready uuid (replicate (Z.to_nat (u32 (zlen hs))) None) c) ->
  eventually Q (mkSystem (ReadSome 128 k3) [] (if within_limits p then SUCCESS else FAILURE)
  (mkState c fs (Some (WritingResponse next))) true)) ->
  eventually Q (mkSystem (shipping hs) [] [] (Start fs) false).
Proof.
  intros Hq. destruct (shipping_calls hs) as (k1 & -> & Hk).
  apply ev_next.
  { destruct draws_something as [random Hr]. exists (mkSystem (k1 random) [] [] (Start fs) false). left.
    by constructor. }
  intros s' [Hs'|Hs']; [|by apply waits_for_pre_header in Hs'].
  inversion Hs' as [| |k random cs sc srv sent Hd| | | |]; subst.
  destruct (draws_number random Hd) as (z & -> & Hz).
  destruct (Hk z) as (k2 & k3 & -> & Hk2 & HS & HF).
  eapply ev_client; [by apply client_writes_only|by apply waits_for_pre_header|].
  rewrite Hk2. cbn [app].
  pose proof (pre_header_bytes_sent z hs Hz) as Hsp.
  destruct (resume_pre_header fs _ _ Hsp) as (c & E & Hm & Hr).
  rewrite <- (app_nil_r (pre_header_bytes _ _)).
  eapply ev_server; [by apply server_reads_only; [|exact (proj1 Hsp)|exact E]
    |by apply client_waits|].
  eapply ev_server; [apply server_sends_only|by apply client_waits|].
  rewrite Hm. cbn [app]. apply (Hq z c k3 Hz Hd HS HF).
  intros Hl. specialize (Hr Hl). by rewrite pre_fromHorcruxes in Hr.
Qed.

(** ** From the response to the end *)

Definition received_slots (hs : list HorcruxData) : list (option HorcruxData) :=
  (fun h => Some (mkHorcruxData (mContent h) (lit ""))) <$> hs.

Lemma puts_numbered_from hs : forall slots,
  puts (slots ++ replicate (length hs) None) (numbered (length slots) hs) =
  slots ++ received_slots hs.
Proof.
  induction hs as [|h hs IH]; intros slots; [done|].
  rewrite numbered_cons. cbn [puts foldl length replicate received_slots fmap list_fmap].
  assert (E : put (slots ++ None :: replicate (length hs) None) (length slots, mContent h) =
    (slots ++ [Some (mkHorcruxData (mContent h) (lit ""))]) ++ replicate (length hs) None).
  { unfold put. cbn [fst snd]. rewrite insert_app_r_alt, Nat.sub_diag by done. cbn.
    by rewrite <- app_assoc. }
  rewrite E. specialize (IH (slots ++ [Some (mkHorcruxData (mContent h) (lit ""))])).
  rewrite length_app in IH. cbn [length] in IH. rewrite Nat.add_1_r in IH.
  unfold puts in IH. rewrite IH. by rewrite <- app_assoc.
Qed.

Lemma puts_numbered hs :
  puts (replicate (length hs) None) (numbered 0 hs) = received_slots hs.
Proof. apply (puts_numbered_from hs []). Qed.

Lemma received_received_slots hs : received (received_slots hs).
Proof. unfold received, received_slots. apply Forall_fmap, Forall_true. intros h. by eexists. Qed.

Lemma to_come_start hs : to_come (replicate (length hs) None) 0 hs.
Proof.
  split; [constructor|]. split; [by rewrite length_replicate|].
  intros j Hj. by apply lookup_replicate_2.
Qed.

(** The client has exited; the server saves, or has saved. *)
Lemma saving_phase `{!ReliableOS} uuid fs hs s :
  zlen hs < 2 ^ 32 ->
  (forall c fs', ready uuid (received_slots hs) c ->
  saveHorcruxes_loop uuid 0 (received_slots hs) fs = (Ret (), fs') ->
  Q (mkSystem (Done (Ret 0)) [] [] (mkState c fs' None) false)) ->
  between uuid fs (rest_of []) NextSaveHorcruxes (received_slots hs) s -> eventually Q s.
Proof.
  intros Hn Hq Hs. change (rest_of []) with (Done (A := Z) (Ret 0)) in Hs.
  destruct (saveHorcruxes_loop_reliable uuid (received_slots hs) 0 fs) as [fs' Hl];
    [done|unfold zlen, received_slots in *; rewrite length_fmap; lia|apply received_received_slots|].
  assert (Hr : forall c, ready uuid (received_slots hs) c ->
    resume (WritingResponse NextSaveHorcruxes) ec_success [] c fs = Ret (mkState c fs' None)).
  { intros c (_ & _ & Hsl & Hu). unfold resume. cbn [fill]. by rewrite onResponse_saves, Hsl, Hu, Hl. }
  destruct Hs as [c Hc|c st' Hc E].
  - eapply ev_server; [by apply server_was_sent_only, Hr|by apply client_exited|].
    apply ev_now. by apply Hq.
  - rewrite (Hr c Hc) in E. injection E as <-. apply ev_now. by apply Hq.
Qed.

(** A file whose header is accepted. *)
Lemma accepted_phase `{!ReliableOS} fs hs :
  (forall uuid, within_limits (PreRequestHeader.fromHorcruxes uuid hs) = true) ->
  Forall (fun h => mContent h <> [] /\ zlen (mContent h) < 2 ^ 32) hs ->
  hs <> [] -> zlen hs < 2 ^ 32 ->
  (forall uuid c fs', 0 <= uuid < 2 ^ 64 -> draws (Ret uuid) -> ready uuid (received_slots hs) c ->
  saveHorcruxes_loop uuid 0 (received_slots hs) fs = (Ret (), fs') ->
  Q (mkSystem (Done (Ret 0)) [] [] (mkState c fs' None) false)) ->
  eventually Q (mkSystem (shipping hs) [] [] (Start fs) false).
Proof.
  intros Hl Hh Hne Hn Hq. apply pre_header_phase. intros uuid c k3 Hu Hd p next HS _ Hr.
  specialize (Hr (Hl uuid)). unfold next. clear next. subst p. rewrite (Hl uuid).
  pose proof (zlen_nonneg hs). rewrite u32_small in Hr by lia. unfold zlen in Hr.
  rewrite Nat2Z.id in Hr. rewrite request_fromHorcruxes in HS.
  assert (Hgo : forall s, between uuid fs (rest_of (horcrux_requests uuid 0 hs))
    NextReadRequestHeader (replicate (length hs) None) s -> eventually Q s).
  { intros s Hs. eapply (rounds uuid fs hs 0); [done|lia|exact Hh|done|apply to_come_start| |exact Hs].
    rewrite puts_numbered. intros s' Hs'. eapply saving_phase; [done| |exact Hs']. eauto. }
  change (imap (request_of uuid) hs) with (horcrux_requests uuid 0 hs) in HS.
  assert (Hblock : blocked server_step (mkSystem (ReadSome 128 k3) [] SUCCESS
    (mkState c fs (Some ReadingRequestHeader)) false)).
  { apply server_waits; [done|done|]. destruct Hr as ((_ & Hr & _) & _).
    cbn [read_size]. rewrite Hr. cbn. lia. }
  eapply ev_both; [apply client_reads_only; [done|simpl; lia]|by apply server_was_sent_only| |].
  - apply Hgo. rewrite HS. by apply between_sent.
  - eapply ev_client; [apply client_reads_only; [done|simpl; lia]|exact Hblock|].
    apply Hgo. rewrite HS. by eapply between_resumed.
Qed.

(** A file whose header is refused. *)
Lemma refused_phase fs hs :
  (forall uuid, within_limits (PreRequestHeader.fromHorcruxes uuid hs) = false) ->
  (forall c, Q (mkSystem (Done (Ret 0)) [] [] (mkState c fs None) false)) ->
  eventually Q (mkSystem (shipping hs) [] [] (Start fs) false).
Proof.
  intros Hl Hq. apply pre_header_phase. intros uuid c k3 Hu _ p next _ HF _.
  unfold next. clear next. subst p. rewrite (Hl uuid).
  eapply ev_both; [apply client_reads_only; [done|simpl; lia]|by apply server_was_sent_only| |].
  - rewrite HF by done. eapply ev_server; [by apply server_was_sent_only|by apply client_exited|].
    by apply ev_now.
  - eapply ev_client; [apply client_reads_only; [done|simpl; lia]|apply server_closed|].
    rewrite HF by done. by apply ev_now.
Qed.
End File.

(** ** From the start *)
Section Start.
Context (Q : system -> Prop) (pre_mem request_mem : bytes) (argv : list bytes)
    (options : ClientSaveOptions).
Context (Hparse : parseHorcruxCommand (zlen argv) argv = Ret (Some options)).

Let splitter := BasicFileSplitter (mHorcruxCount options).

(** The client has just been started, and the server accepts its connection. *)
Definition start (fs : filesystem) : system :=
  mkSystem (main pre_mem request_mem (zlen argv) argv) [] [] (Start fs) false.

Definition loaded (file : outcome (option bytes)) : prog Z :=
  catch (fun e => mret 0)
    (horcruxes ← (binaries ← lift file;
      match binaries with Some b => lift (@fs_split splitter b) | None => mret [] end);
    if bool_decide (horcruxes = []) then mret (-1)
    else ship pre_mem request_mem horcruxes).

Lemma main_calls :
  exists k1 k2, main pre_mem request_mem (zlen argv) argv = Connect k1 /\
  k1 None = LoadFile (mInputPath options) k2 /\ forall file, k2 file = loaded file.
Proof.
  unfold main. rewrite Hparse. do 2 eexists. split; [reflexivity|].
  split; [hnf; reflexivity|]. by intros [[b|]|e|].
Qed.

Lemma main_phase fs :
  eventually Q (mkSystem (loaded (loadFile client_fs (mInputPath options))) [] []
  (Start fs) false) ->
  eventually Q (start fs).
Proof.
  intros Hq. unfold start. destruct main_calls as (k1 & k2 & -> & Hk1 & Hk2).
  eapply ev_client; [|by apply waits_for_pre_header|].
  { intros s'. split; [|intros ->; constructor]. intros Hs. by inversion Hs. }
  rewrite Hk1. eapply ev_client; [|by apply waits_for_pre_header|].
  { intros s'. split; [|intros ->; constructor]. intros Hs. by inversion Hs. }
  by rewrite Hk2.
Qed.

Lemma loaded_split b hs :
  @fs_split splitter b = Ret hs -> hs <> [] -> loaded (Ret (Some b)) = shipping pre_mem request_mem hs.
Proof.
  intros E Hne. unfold loaded.
  change (binaries ← lift (Ret (Some b)); match binaries with Some b => lift (@fs_split splitter b) | None => mret [] end)
    with (lift (@fs_split splitter b)). rewrite E.
  change (catch (fun _ => mret 0) (if bool_decide (hs = []) then mret (-1)
    else ship pre_mem request_mem hs) = shipping pre_mem request_mem hs).
  by rewrite bool_decide_false.
Qed.
End Start.
End System.

(** ** What a split file looks like *)

(** Sizes for which every number of the protocol fits its field. *)
Definition fits (n : Z) (data : bytes) : Prop :=
  1 <= n <= INT_MAX /\ n <= zlen data /\ (n - 1) * (zlen data / n) < 2 ^ 32 /\
  zlen data / n + zlen data mod n < 2 ^ 32.

Lemma split_fits n data :
  fits n data ->
  exists hs, split stub_checksum n data = Ret hs /\ hs <> [] /\ zlen hs = n /\
    contents hs = data /\ Forall (fun h => mContent h <> [] /\ zlen (mContent h) < 2 ^ 32) hs.
Proof.
  intros (Hn & Hd & Hx & Hl). pose proof (Z.mod_pos_bound (zlen data) n ltac:(lia)) as Hm.
  assert (Hq : 0 < zlen data / n) by (apply Z.div_str_pos; lia).
  pose proof (Z.div_mod (zlen data) n ltac:(lia)) as Hdm.
  assert (Hu : u32 (zlen data / n) = zlen data / n) by (apply u32_small; lia).
  pose proof (split_defined stub_checksum n data Hn Hd) as Hs.
  unfold split_extent in Hs. rewrite Hu in Hs. specialize (Hs Hx).
  set (hs := mk_horcrux _ <$> _) in Hs. exists hs. split; [exact Hs|].
  assert (Hlen : zlen hs = n).
  { unfold hs, pieces, zlen. rewrite !length_fmap, length_seq. lia. }
  assert (Hne : hs <> []) by (intros E; rewrite E, zlen_nil in Hlen; lia).
  split; [done|]. split; [done|]. split.
  - rewrite <- join_contents. eapply (split_join_length stub_checksum n); [|exact Hs|done].
    unfold INT_MAX in Hn. lia.
  - unfold hs, pieces. apply Forall_fmap, Forall_fmap, Forall_seq. intros i Hi.
    cbn. unfold piece, zlen in *. split.
    + intros E%(f_equal length). revert E. case_decide; rewrite ?length_take, length_drop; simpl; nia.
    + case_decide; rewrite ?length_take, length_drop; nia.
Qed.

(** ** The outcomes *)

(** The identifier that the server received. *)
Definition received_identifier (s : system) : Z :=
  PreRequestHeader.mUuid (mPreRequestHeader (st_conn (sy_server s))).

(** The client exited with 0, the server let the connection go, and the file is there:
    the server received an identifier that the client drew, and if the names made of it
    were free, the horcruxes stored under them join to [data]. *)
Definition stored_file `{OS} `{Network} (fs : filesystem) (n : Z) (data : bytes) (s : system) : Prop :=
  sy_client s = Done (Ret 0) /\ st_op (sy_server s) = None /\ st_thrown (sy_server s) = None /\
  let uuid := received_identifier s in
  let fs' := st_fs (sy_server s) in
  0 <= uuid < 2 ^ 64 /\ draws (Ret uuid) /\
  ((forall k, 0 <= k < n ->
      fs !! save_path uuid k = None /\ creatable fs (save_path uuid k)) ->
    (forall p content, fs' !! p = Some (RegularFile content) -> open_read fs' p = true) ->
    is_regular_file fs' reconstructed = false -> open_write fs' reconstructed = true ->
    join_files uuid n fs' = (Ret 0, <[reconstructed := RegularFile data]> fs')).

Lemma saved_joins `{OSLaws, !ReliableOS} uuid fs fs' hs :
  0 <= uuid -> zlen hs < 2 ^ 31 ->
  saveHorcruxes_loop uuid 0 (received_slots hs) fs = (Ret (), fs') ->
  (forall k, 0 <= k < zlen hs ->
    fs !! save_path uuid k = None /\ creatable fs (save_path uuid k)) ->
  (forall p content, fs' !! p = Some (RegularFile content) -> open_read fs' p = true) ->
  is_regular_file fs' reconstructed = false -> open_write fs' reconstructed = true ->
  join_files uuid (zlen hs) fs' =
    (Ret 0, <[reconstructed := RegularFile (contents hs)]> fs').
Proof.
  intros Hu Hn Hl Hnew Hopen Hr Hw.
  assert (Hlen : zlen (received_slots hs) = zlen hs).
  { unfold zlen, received_slots. by rewrite length_fmap. }
  unfold join_files, looks, mbind, files_bind. rewrite (join_loop_loads uuid (zlen hs) fs' (mContent <$> hs)).
  - cbn [app]. by rewrite saveFile_stores.
  - intros i part Hi. apply list_lookup_fmap_Some in Hi as (h & -> & Hi).
    assert (Hs : fs' !! save_path uuid (0 + Z.of_nat i) = Some (RegularFile (mContent h))).
    { eapply (saveHorcruxes_loop_stores uuid (received_slots hs) 0 fs fs' Hu) with
        (h := mkHorcruxData (mContent h) (lit "")); [lia|rewrite Hlen; lia| |exact Hl|].
      - by rewrite Hlen.
      - unfold received_slots. by rewrite list_lookup_fmap, Hi. }
    apply loadFile_reliable; [exact Hs|]. by eapply Hopen.
  - lia.
  - unfold zlen. rewrite length_fmap. lia.
  - done.
  - unfold zlen. rewrite length_fmap. lia.
Qed.

Section Delivery.
Context `{OSLaws, !ReliableOS, WholeNetwork} (client_fs fs : filesystem)
    (pre_mem request_mem : bytes) (argv : list bytes) (options : ClientSaveOptions)
    (data : bytes).
Let n := mHorcruxCount options.

Context (Hpre : is_object PreRequestHeader.t pre_mem)
    (Hreq : is_object Request.Header request_mem)
    (Hparse : parseHorcruxCommand (zlen argv) argv = Ret (Some options))
    (Hload : loadFile client_fs (mInputPath options) = Ret (Some data))
    (Hfits : fits n data).

(** The client announces [n] and the size modulo 2^32. *)
Lemma announced uuid hs :
  zlen hs = n -> contents hs = data ->
  within_limits (PreRequestHeader.fromHorcruxes uuid hs) =
  (n <=? 20) && (u32 (zlen data) <=? 10000000).
Proof.
  intros Hn Hc. rewrite pre_fromHorcruxes. unfold within_limits, total_size.
  cbn [PreRequestHeader.mNumHorcruxes PreRequestHeader.mTotalSize].
  destruct Hfits as (Hb & _). unfold INT_MAX in Hb. by rewrite Hc, Hn, (u32_small n) by lia.
Qed.

Lemma delivery :
  n <= 20 -> u32 (zlen data) <= 10000000 ->
  eventually client_fs (stored_file fs n data) (start pre_mem request_mem argv fs).
Proof.
  intros Hn Hd. apply (main_phase client_fs _ pre_mem request_mem argv options Hparse).
  rewrite Hload. destruct (split_fits n data Hfits) as (hs & Hs & Hne & Hlen & Hc & Hsz).
  rewrite (loaded_split pre_mem request_mem options data hs Hs Hne).
  apply (accepted_phase client_fs _ pre_mem request_mem Hpre Hreq); [|done|done|lia|].
  - intros uuid. rewrite announced by done. apply andb_true_iff. lia.
  - intros uuid c fs' Hu Hdraw (_ & _ & _ & Huuid) Hl. split; [done|]. split; [done|]. split; [done|].
    unfold received_identifier. cbn zeta. cbn [sy_server st_fs st_conn]. rewrite Huuid. split; [done|].
    split; [done|]. rewrite <- Hlen, <- Hc. intros. eapply saved_joins; [lia|lia|done..].
Qed.

Lemma refusal :
  20 < n \/ 10000000 < u32 (zlen data) ->
  eventually client_fs (fun s => sy_client s = Done (Ret 0) /\
  st_op (sy_server s) = None /\ st_fs (sy_server s) = fs)
  (start pre_mem request_mem argv fs).
Proof.
  intros Hd. apply (main_phase client_fs _ pre_mem request_mem argv options Hparse).
  rewrite Hload. destruct (split_fits n data Hfits) as (hs & Hs & Hne & Hlen & Hc & Hsz).
  rewrite (loaded_split pre_mem request_mem options data hs Hs Hne).
  apply (refused_phase client_fs _ pre_mem request_mem Hpre); [|done].
  intros uuid. rewrite announced by done. apply andb_false_iff. destruct Hd; [left|right]; lia.
Qed.
End Delivery.

(** * The client and the server together *)

(** C15. A file of up to ten million bytes, cut into 1 to 20 horcruxes: in every
    interleaving of the client, the server and a network that transfers whole
    buffers, both programs come to an end, the client exits with status 0, and
    the tool [join] gives the file back from what the server stored under the identifier
    that the client drew, provided that no file of one of these names existed and the
    files can be created and opened, the file system and the random device working. *)
Theorem system_stores_file `{OSLaws, !ReliableOS, WholeNetwork} client_fs fs
    pre_mem request_mem argv options data :
  is_object PreRequestHeader.t pre_mem -> is_object Request.Header request_mem ->
  parseHorcruxCommand (zlen argv) argv = Ret (Some options) ->
  loadFile client_fs (mInputPath options) = Ret (Some data) ->
  1 <= mHorcruxCount options <= 20 ->
  mHorcruxCount options <= zlen data <= 10000000 ->
  eventually client_fs (stored_file fs (mHorcruxCount options) data)
    (start pre_mem request_mem argv fs).
Proof.
  intros Hpre Hreq Hparse Hload Hn Hd. eapply delivery; try eassumption; [|lia|].
  - pose proof (Z.div_mod (zlen data) (mHorcruxCount options) ltac:(lia)).
    pose proof (Z.mod_pos_bound (zlen data) (mHorcruxCount options) ltac:(lia)).
    unfold fits, INT_MAX. split; [lia|]. split; [lia|]. nia.
  - rewrite u32_small; lia.
Qed.

(** C38. The server's limit does not stop a file of 4 GiB and up to ten million
    bytes more, cut into 2 to 20 horcruxes: its announced size wraps around, and over a
    network that transfers whole buffers it is stored like any other, under the
    identifier that the client drew, with the same provisos. *)
Theorem system_stores_oversized_file `{OSLaws, !ReliableOS, WholeNetwork} client_fs fs
    pre_mem request_mem argv options data :
  is_object PreRequestHeader.t pre_mem -> is_object Request.Header request_mem ->
  parseHorcruxCommand (zlen argv) argv = Ret (Some options) ->
  loadFile client_fs (mInputPath options) = Ret (Some data) ->
  2 <= mHorcruxCount options <= 20 ->
  2 ^ 32 <= zlen data <= 2 ^ 32 + 10000000 ->
  eventually client_fs (stored_file fs (mHorcruxCount options) data)
    (start pre_mem request_mem argv fs).
Proof.
  intros Hpre Hreq Hparse Hload Hn Hd. eapply delivery; try eassumption; [|lia|].
  - pose proof (Z.div_mod (zlen data) (mHorcruxCount options) ltac:(lia)).
    pose proof (Z.mod_pos_bound (zlen data) (mHorcruxCount options) ltac:(lia)).
    unfold fits, INT_MAX. split; [lia|]. split; [lia|]. nia.
  - unfold u32. replace (zlen data) with (zlen data - 2 ^ 32 + 1 * 2 ^ 32) by lia.
    rewrite Z_mod_plus_full, Z.mod_small; lia.
Qed.

(** C37. A file below 4 GiB that is over the limits, cut into no more horcruxes than it has
    bytes, is not stored: in every interleaving over a network that transfers whole
    buffers both programs come to an end, the server's files are what they were, and the
    client exits with status 0 all the same. *)
Theorem system_refuses_file `{OSLaws, !ReliableOS, WholeNetwork} client_fs fs
    pre_mem request_mem argv options data :
  is_object PreRequestHeader.t pre_mem -> is_object Request.Header request_mem ->
  parseHorcruxCommand (zlen argv) argv = Ret (Some options) ->
  loadFile client_fs (mInputPath options) = Ret (Some data) ->
  1 <= mHorcruxCount options <= INT_MAX -> mHorcruxCount options <= zlen data < 2 ^ 32 ->
  20 < mHorcruxCount options \/ 10000000 < zlen data ->
  eventually client_fs (fun s => sy_client s = Done (Ret 0) /\
    st_op (sy_server s) = None /\ st_fs (sy_server s) = fs)
    (start pre_mem request_mem argv fs).
Proof.
  intros Hpre Hreq Hparse Hload Hn Hd Hbad.
  eapply (refusal client_fs fs pre_mem request_mem argv options data); try eassumption.
  - pose proof (Z.div_mod (zlen data) (mHorcruxCount options) ltac:(lia)).
    pose proof (Z.mod_pos_bound (zlen data) (mHorcruxCount options) ltac:(lia)).
    unfold fits. split; [lia|]. split; [lia|]. nia.
  - by rewrite u32_small by lia.
Qed.

(** ** Sockets that transfer less *)

Definition random_number (r : outcome Z) : Prop := exists z, r = Ret z /\ 0 <= z < 2 ^ 64.

Definition partial_network : Network := {|
  transfers b n := (n <= length b)%nat;
  delivers size avail n := (n <= size `min` length avail)%nat;
  draws := random_number
  |}.

Definition whole_network : Network := {|
  transfers b n := n = length b;
  delivers size avail n := n = (size `min` length avail)%nat;
  draws := random_number
  |}.

#[export] Instance whole_network_whole : @WholeNetwork whole_network.
Proof. split; [done|done|done|]. exists (Ret 0). by exists 0. Qed.

(** Neither side can make another step. *)
Definition stuck `{OS} `{Network} (client_fs : filesystem) (s : system) : Prop :=
  forall s', ~ system_step client_fs s s'.

(** The client waits for the response to a header of which the server has [n] bytes only,
    and the server for the rest of it. *)
Definition deadlocked `{OS} `{Network} (client_fs fs : filesystem) (pre_mem : bytes)
    (hs : list HorcruxData) (s : system) : Prop :=
  exists uuid n k,
    let header := pre_header_bytes pre_mem (PreRequestHeader.fromHorcruxes uuid hs) in
    draws (Ret uuid) /\ (n < length header)%nat /\
    s = mkSystem (ReadSome 128 k) (take n header) [] (Start fs) false /\ stuck client_fs s.

(** C39. The client relies on [write_some] sending the whole buffer: on any network that
    takes fewer than the 16 bytes of the first header, however many, and whatever the
    identifier drawn, client and server come in every interleaving to wait for each other
    for ever, with a part of the header at the server's side. *)
Theorem system_short_write_deadlock `{OS} `{Network} client_fs fs pre_mem request_mem argv options data hs :
  (forall b n, length b = 16%nat -> transfers b n -> (n < 16)%nat) ->
  (forall b, length b = 16%nat -> exists n, transfers b n) ->
  (forall random, draws random -> random_number random) -> (exists random, draws random) ->
  is_object PreRequestHeader.t pre_mem ->
  parseHorcruxCommand (zlen argv) argv = Ret (Some options) ->
  loadFile client_fs (mInputPath options) = Ret (Some data) ->
  split stub_checksum (mHorcruxCount options) data = Ret hs -> hs <> [] ->
  eventually client_fs (deadlocked client_fs fs pre_mem hs) (start pre_mem request_mem argv fs).
Proof.
  intros Hshort Hsome Hdraws [random0 Hrandom] Hpre Hparse Hload Hs Hne.
  apply (main_phase client_fs _ pre_mem request_mem argv options Hparse).
  rewrite Hload, (loaded_split pre_mem request_mem options data hs Hs Hne).
  destruct (shipping_calls pre_mem request_mem hs) as (k1 & -> & Hk).
  apply ev_next.
  { exists (mkSystem (k1 random0) [] [] (Start fs) false). left. by constructor. }
  intros s' [Hs'|Hs']; [|by apply waits_for_pre_header in Hs'].
  inversion Hs' as [| |k random cs sc srv sent Hd| | | |]; subst.
  destruct (Hdraws random Hd) as (uuid & -> & Hu). destruct (Hk uuid) as (k2 & k3 & -> & Hk2 & _).
  pose proof (pre_header_bytes_sent pre_mem Hpre uuid hs Hu) as [Hw _].
  set (w := pre_header_bytes pre_mem (PreRequestHeader.fromHorcruxes uuid hs)) in *.
  change (length w = 16%nat) in Hw. destruct (Hsome w Hw) as [n0 Hn0].
  apply ev_next.
  { exists (mkSystem (k2 n0 ec_success) ([] ++ take n0 w) [] (Start fs) false). left.
    constructor; [done|]. specialize (Hshort w n0 Hw Hn0). lia. }
  intros s' [Hw'|Hw']; [|by apply waits_for_pre_header in Hw'].
  inversion Hw' as [| | |b k n cs sc srv sent Hn Hle| | |]; subst; [|done].
  rewrite Hk2. apply ev_now. exists uuid, n, k3. split; [done|].
  specialize (Hshort w n Hw Hn). fold w. split; [lia|]. split; [done|].
  intros s' [Hc|Hc]; revert Hc; [by apply client_waits|].
  apply server_waits; [done|done|]. rewrite length_app, length_take, Hw. cbn. lia.
Qed.

(** The client relies on one [read_some] returning the whole response: a
    response that arrives in two parts is taken for a refusal, and the client exits
    with status 0 without having sent the accepted file. *)
Theorem system_short_read_gives_up `{OS} client_fs fs pre_mem request_mem argv options data hs :
  is_object PreRequestHeader.t pre_mem ->
  parseHorcruxCommand (zlen argv) argv = Ret (Some options) ->
  loadFile client_fs (mInputPath options) = Ret (Some data) ->
  split stub_checksum (mHorcruxCount options) data = Ret hs -> hs <> [] ->
  zlen hs <= 20 -> total_size hs <= 10000000 ->
  exists s, rtc (@system_step _ partial_network client_fs)
      (start pre_mem request_mem argv fs) s /\
    sy_client s = Done (Ret 0) /\ st_op (sy_server s) = None /\
    st_fs (sy_server s) = fs /\ sy_to_server s = [].
Proof.
  intros Hpre Hparse Hload Hs Hne Hn Hd. unfold start.
  destruct (main_calls pre_mem request_mem argv options Hparse) as (k1 & k2 & -> & Hk1 & Hk2).
  destruct (shipping_calls pre_mem request_mem hs) as (k3 & Es & Hk3).
  destruct (Hk3 0) as (k4 & k5 & Ek3 & Hk4 & _ & Hk5).
  set (p := PreRequestHeader.fromHorcruxes 0 hs) in *. set (w := pre_header_bytes pre_mem p) in *.
  pose proof (pre_header_bytes_sent pre_mem Hpre 0 hs ltac:(lia)) as Hw. fold p w in Hw.
  destruct (resume_pre_header fs p w Hw) as (c & E & Hm & Hr).
  assert (Hl : within_limits p = true).
  { subst p. rewrite pre_fromHorcruxes. unfold within_limits. simpl.
    pose proof (zlen_nonneg hs). pose proof (zlen_nonneg (contents hs)). unfold total_size in *.
    rewrite !u32_small by lia. lia. }
  rewrite Hl in E, Hm. specialize (Hr Hl). destruct Hr as ((_ & Hr & _) & _).
  exists (mkSystem (Done (Ret 0)) [] (lit "CESS")
    (mkState (fill ReadRequestHeader [] c) fs None) false). split; [|done].
  eapply rtc_l; [left; apply client_connects|]. rewrite Hk1.
  eapply rtc_l; [left; apply client_loads|].
  rewrite Hk2, Hload, (loaded_split pre_mem request_mem options data hs Hs Hne), Es.
  eapply rtc_l; [left; apply (client_draws _ _ (Ret 0)); by exists 0|]. rewrite Ek3.
  eapply rtc_l; [left; apply (client_writes _ w k4 (length w)); simpl; lia|].
  rewrite Hk4, firstn_all. cbn [app]. rewrite <- (app_nil_r w).
  pose proof (server_reads_only (ReadSome 128 k5) w [] [] new_connection fs
    ReadingPreRequestHeader false _ I (proj1 Hw) E) as Hread.
  eapply rtc_l; [right; by apply Hread|].
  eapply rtc_l; [right; apply server_sends|]. rewrite Hm. cbn [app].
  eapply rtc_l; [left; apply (client_reads _ 128 k5 3); [done|simpl; lia|simpl; lia]|].
  rewrite Hk5 by done.
  eapply rtc_l; [right; by apply server_was_sent|].
  eapply rtc_l; [right; apply server_read_ends; [done|done| |reflexivity]|apply rtc_refl].
  cbn [read_size]. rewrite Hr. cbn. lia.
Qed.

(** * Witnesses *)

Definition example_image : bytes := lit "abcde".

Definition example_client_fs (data : bytes) : filesystem :=
  {[lit "in.png" := RegularFile data]}.

Definition example_pre_mem : bytes := replicate 16 Byte.xff.

Lemma example_load data :
  @loadFile simple_os (example_client_fs data) (lit "in.png") = Ret (Some data).
Proof.
  assert (E : example_client_fs data !! lit "in.png" = Some (RegularFile data))
    by apply lookup_singleton_eq.
  apply (@loadFile_reliable simple_os simple_os_reliable); [exact E|].
  change (is_regular_file (example_client_fs data) (lit "in.png") = true).
  unfold is_regular_file. by rewrite E.
Qed.

(** A random device that gives 42. *)
Definition network_42 : Network := {|
  transfers b n := n = length b;
  delivers size avail n := n = (size `min` length avail)%nat;
  draws random := random = Ret 42
  |}.

#[export] Instance network_42_whole : @WholeNetwork network_42.
Proof. split; [done|done|intros r ->; by exists 42|]. by exists (Ret 42). Qed.

(** The file comes back from what was stored under 42, if the server's new files can be
    opened and there is no other reconstruction. *)
Lemma system_stores_file_witness :
  exists s, rtc (@system_step simple_os network_42 (example_client_fs example_image))
      (start example_pre_mem example_memory example_argv example_fs) s /\
    sy_client s = Done (Ret 0) /\ st_op (sy_server s) = None /\
    let fs' := st_fs (sy_server s) in
    (is_regular_file fs' reconstructed = false -> posix_open_write fs' reconstructed = true ->
      @join_files simple_os 42 2 fs' = (Ret 0, <[reconstructed := RegularFile example_image]> fs')).
Proof.
  destruct (@ev_reaches simple_os network_42 (example_client_fs example_image)
    (@stored_file simple_os network_42 example_fs 2 example_image)
    (start example_pre_mem example_memory example_argv example_fs))
    as (s & Hr & Hc & Ho & _ & _ & [= Hd] & Hs).
  - apply (@system_stores_file simple_os _ _ network_42 _ (example_client_fs example_image)
      example_fs example_pre_mem example_memory example_argv (mkClientSaveOptions 2 (lit "in.png")));
      [done|done|by vm_compute|apply example_load|simpl; lia|by vm_compute].
  - exists s. split; [exact Hr|]. split; [exact Hc|]. split; [exact Ho|]. rewrite Hd in Hs. intros fs' H1 H2.
    apply Hs; [|intros p content Hp; by apply is_regular_file_true; exists content|exact H1|exact H2].
    intros k Hk. split; [assert (k = 0 \/ k = 1) as [->| ->] by lia; by vm_compute|].
    apply creatable_out; [lia|lia|reflexivity].
Defined.

Lemma system_stores_oversized_file_witness :
  exists data, 2 ^ 32 <= zlen data /\
  @eventually simple_os whole_network (example_client_fs data)
    (@stored_file simple_os whole_network example_fs 2 data)
    (start example_pre_mem example_memory example_argv example_fs).
Proof.
  destruct (zlen_exists (2 ^ 32 + 7)) as [data Hd]; [lia|]. exists data. split; [lia|].
  apply (@system_stores_oversized_file simple_os _ _ whole_network _ (example_client_fs data)
    example_fs example_pre_mem example_memory example_argv (mkClientSaveOptions 2 (lit "in.png")));
    [done|done|by vm_compute|apply example_load|simpl; lia|rewrite Hd; lia].
Defined.

Lemma system_refuses_file_witness :
  @eventually simple_os whole_network (example_client_fs (replicate 21 Byte.x61))
    (fun s => sy_client s = Done (Ret 0) /\ st_op (sy_server s) = None /\
      st_fs (sy_server s) = example_fs)
    (start example_pre_mem example_memory (save_command (lit "client") (lit "21") (lit "in.png"))
      example_fs).
Proof.
  apply (@system_refuses_file simple_os _ _ whole_network _
    (example_client_fs (replicate 21 Byte.x61)) example_fs example_pre_mem example_memory
    (save_command (lit "client") (lit "21") (lit "in.png"))
    (mkClientSaveOptions 21 (lit "in.png")) (replicate 21 Byte.x61));
    [done|done|by vm_compute|apply example_load|unfold INT_MAX; simpl; lia|by vm_compute|by left].
Defined.

(** All but one byte of a buffer. *)
Definition short_network : Network := {|
  transfers b n := n = (length b - 1)%nat;
  delivers size avail n := n = (size `min` length avail)%nat;
  draws := random_number
  |}.

Lemma system_short_write_deadlock_witness :
  exists s, @stuck simple_os short_network (example_client_fs example_image) s /\
    client_done (sy_client s) = false.
Proof.
  destruct (@ev_reaches simple_os short_network (example_client_fs example_image)
    (@deadlocked simple_os short_network (example_client_fs example_image) example_fs example_pre_mem
      example_horcruxes)
    (start example_pre_mem example_memory example_argv example_fs))
    as (s & _ & uuid & n & k & _ & _ & -> & Hs).
  - apply (@system_short_write_deadlock simple_os short_network (example_client_fs example_image)
      example_fs example_pre_mem example_memory example_argv (mkClientSaveOptions 2 (lit "in.png"))
      example_image example_horcruxes);
      [simpl; lia|intros b _; by exists (length b - 1)%nat|done|by exists (Ret 0), 0|done|by vm_compute|
       apply example_load|by vm_compute|done].
  - eexists. split; [exact Hs|reflexivity].
Defined.

Lemma system_short_read_gives_up_witness :
  exists s, sy_client s = Done (Ret 0) /\ st_fs (sy_server s) = example_fs.
Proof.
  destruct (@system_short_read_gives_up simple_os (example_client_fs example_image) example_fs
    example_pre_mem example_memory example_argv (mkClientSaveOptions 2 (lit "in.png"))
    example_image example_horcruxes) as (s & _ & Hd & _ & Hs & _);
    [done|by vm_compute|apply example_load|by vm_compute|done|by vm_compute|by vm_compute|].
  by exists s.
Defined.
