(* ===== verification/OpQueue.v ===== *)
(** [asio/detail/op_queue.hpp]: the intrusive queue of operations.

    Operations are objects with a [next_] pointer, kept in a store; a queue is a
    pair of pointers into it.  The scheduler and the reactor move operations
    between such queues.  The abstract queue is a list, and each operation of the
    class refines the list's. *)

From S2P Require Import Prelude.

(** * Operations in memory *)

(** The address of an operation; a null pointer is [None]. *)
Abbreviation op_ptr := nat.

(** The [next_] members of the operations. *)
Abbreviation op_store := (gmap op_ptr (option op_ptr)).

Record op_queue := mkQueue {
  front_ : option op_ptr;
  back_ : option op_ptr
}.

(** [op_queue_access::next], both overloads. *)
Definition get_next (h : op_store) (o : op_ptr) : option op_ptr := mjoin (h !! o).

Definition set_next (h : op_store) (o : op_ptr) (n : option op_ptr) : op_store := <[o := n]> h.

Definition empty_queue : op_queue := mkQueue None None.

Definition front (q : op_queue) : option op_ptr := front_ q.

Definition pop (h : op_store) (q : op_queue) : op_store * op_queue :=
  match front_ q with
  | Some tmp =>
      let front' := get_next h tmp in
      let back' := match front' with Some _ => back_ q | None => None end in
      (set_next h tmp None, mkQueue front' back')
  | None => (h, q)
  end.

Definition push (h : op_store) (q : op_queue) (o : op_ptr) : op_store * op_queue :=
  let h := set_next h o None in
  match back_ q with
  | Some b => (set_next h b (Some o), mkQueue (front_ q) (Some o))
  | None => (h, mkQueue (Some o) (Some o))
  end.

(** [push(op_queue&)]: the store, this queue, the emptied source. *)
Definition push_queue (h : op_store) (q source : op_queue) : op_store * op_queue * op_queue :=
  match front_ source with
  | Some other_front =>
      let '(h, f) :=
        match back_ q with
        | Some b => (set_next h b (Some other_front), front_ q)
        | None => (h, Some other_front)
        end in
      (h, mkQueue f (back_ source), empty_queue)
  | None => (h, q, source)
  end.

Definition is_empty (q : op_queue) : bool :=
  match front_ q with
  | None => true
  | Some _ => false
  end.

Definition is_enqueued (h : op_store) (q : op_queue) (o : op_ptr) : bool :=
  bool_decide (get_next h o <> None) || bool_decide (back_ q = Some o).

(** The destructor: the operations it destroys, in order; [n] bounds the rounds
    of its loop. *)
Fixpoint destroy_queue (n : nat) (h : op_store) (q : op_queue) : op_store * list op_ptr :=
  match n, front_ q with
  | S n, Some op =>
      let '(h, q) := pop h q in
      let '(h, destroyed) := destroy_queue n h q in
      (h, op :: destroyed)
  | _, _ => (h, [])
  end.

(** * The list a queue stands for *)

(** The pointers of the queue lead through exactly these operations. *)
Fixpoint linked (h : op_store) (l : list op_ptr) : Prop :=
  match l with
  | [] => True
  | o :: l => get_next h o = head l /\ linked h l
  end.

Record queue_is (h : op_store) (q : op_queue) (l : list op_ptr) : Prop := {
  qi_front : front_ q = head l;
  qi_back : back_ q = last l;
  qi_linked : linked h l;
  qi_nodup : NoDup l
}.

(** An operation that is in no queue. *)
Definition detached (h : op_store) (o : op_ptr) : Prop := get_next h o = None.

Lemma get_set_next_eq h o n : get_next (set_next h o n) o = n.
Proof. unfold get_next, set_next. by rewrite lookup_insert_eq. Qed.

Lemma get_set_next_ne h o n o' : o' <> o -> get_next (set_next h o n) o' = get_next h o'.
Proof. intros. unfold get_next, set_next. by rewrite lookup_insert_ne. Qed.

#[export] Hint Rewrite get_set_next_eq : horcrux.

(** Writing to an operation outside a list leaves the list's links alone. *)
Lemma linked_set_next h l o n : o ∉ l -> linked h l -> linked (set_next h o n) l.
Proof.
  induction l as [|x l IH]; intros Hni; [done|]. simpl.
  apply not_elem_of_cons in Hni as [Hx Hni]. intros [Hn Hl].
  split; [by rewrite get_set_next_ne|by apply IH].
Qed.

Lemma linked_last h l o : linked h l -> last l = Some o -> get_next h o = None.
Proof.
  induction l as [|x [|y l] IH]; intros Hl Hlast; [done| |].
  - injection Hlast as <-. apply Hl.
  - apply IH; [apply Hl|exact Hlast].
Qed.

(** Linking the last operation of one list to the first of another. *)
Lemma linked_join h l1 b l2 :
  NoDup (l1 ++ [b]) -> (forall o, o ∈ l1 ++ [b] -> o ∉ l2) ->
  linked h (l1 ++ [b]) -> linked h l2 ->
  linked (set_next h b (head l2)) (l1 ++ b :: l2).
Proof.
  intros Hnd Hdis. induction l1 as [|x l1 IH]; intros Hl1 Hl2.
  - simpl. split; [apply get_set_next_eq|]. apply linked_set_next; [|done].
    apply Hdis. simpl. set_solver.
  - simpl in *. apply NoDup_cons in Hnd as [Hx Hnd]. destruct Hl1 as [Hn Hl1].
    split.
    + rewrite get_set_next_ne by set_solver. rewrite Hn. by destruct l1.
    + apply IH; [done| |done|done]. intros o Ho. apply Hdis. set_solver.
Qed.

Lemma queue_is_empty h : queue_is h empty_queue [].
Proof. by repeat constructor. Qed.

(** [front], [empty] and the destructor's loop look at the list. *)
Lemma front_spec h q l : queue_is h q l -> front q = head l /\ is_empty q = bool_decide (l = []).
Proof. intros [Hf _ _ _]. unfold front, is_empty. rewrite Hf. by destruct l. Qed.

Lemma push_spec h q l o :
  queue_is h q l -> o ∉ l ->
  let '(h', q') := push h q o in
  queue_is h' q' (l ++ [o]) /\
  (forall o', o' ∉ l -> o' <> o -> get_next h' o' = get_next h o').
Proof.
  intros [Hf Hb Hl Hn] Ho. unfold push. rewrite Hb.
  destruct (last l) as [b|] eqn:E.
  - apply last_Some in E as [l1 ->].
    assert (Hbo : b <> o) by set_solver.
    split; [split|].
    + cbn [front_]. rewrite Hf. by destruct l1.
    + by rewrite last_snoc.
    + rewrite <- app_assoc. cbn [app]. apply (linked_join _ l1 b [o]); [done|set_solver| |].
      * by apply linked_set_next.
      * split; [apply get_set_next_eq|done].
    + apply NoDup_app. split; [done|]. split; [set_solver|apply NoDup_singleton].
    + intros o' Ho' Hne. rewrite !get_set_next_ne by set_solver. done.
  - apply last_None in E as ->. split; [split|].
    + done.
    + done.
    + split; [apply get_set_next_eq|done].
    + apply NoDup_singleton.
    + intros o' _ Hne. by rewrite get_set_next_ne.
Qed.

Lemma pop_spec h q o l :
  queue_is h q (o :: l) ->
  let '(h', q') := pop h q in
  queue_is h' q' l /\ detached h' o /\ (forall o', o' <> o -> get_next h' o' = get_next h o').
Proof.
  intros [Hf Hb [Hn Hl] Hnd]. unfold pop. rewrite Hf. simpl. rewrite Hn.
  apply NoDup_cons in Hnd as [Ho Hnd]. split; [split|split].
  - done.
  - cbn [back_]. rewrite Hb. by destruct l.
  - by apply linked_set_next.
  - done.
  - apply get_set_next_eq.
  - intros o' Hne. by rewrite get_set_next_ne.
Qed.

Lemma push_queue_spec h q l source m :
  queue_is h q l -> queue_is h source m -> (forall o, o ∈ l -> o ∉ m) ->
  let '(h', q', source') := push_queue h q source in
  queue_is h' q' (l ++ m) /\ queue_is h' source' [] /\
  (forall o', o' ∉ l -> get_next h' o' = get_next h o').
Proof.
  intros [Hf Hb Hl Hn] [Hf2 Hb2 Hl2 Hn2] Hdis. unfold push_queue. rewrite Hf2.
  destruct m as [|o m]; cbn [head].
  - rewrite app_nil_r. split; [by split|]. by repeat split.
  - rewrite Hb. assert (Hnd : NoDup (l ++ o :: m)) by (apply NoDup_app; by split).
    destruct (last l) as [b|] eqn:E.
    + apply last_Some in E as [l1 ->]. split; [split|split].
      * cbn [front_]. rewrite Hf. by destruct l1.
      * cbn [back_]. rewrite Hb2, last_app_cons. done.
      * rewrite <- app_assoc. by apply (linked_join h l1 b (o :: m)).
      * done.
      * apply queue_is_empty.
      * intros o' Ho'. by rewrite get_set_next_ne by set_solver.
    + apply last_None in E as ->. split; [by split|]. split; [apply queue_is_empty|done].
Qed.

(** Of the operations that are in this queue or in none, [is_enqueued] tells
    those of the queue. *)
Lemma is_enqueued_spec h q l o :
  queue_is h q l -> (o ∉ l -> detached h o) -> is_enqueued h q o = bool_decide (o ∈ l).
Proof.
  intros [Hf Hb Hl Hn] Hd. unfold is_enqueued. rewrite Hb.
  destruct (decide (o ∈ l)) as [Ho|Ho].
  - rewrite (bool_decide_true (o ∈ l)) by done. apply orb_true_iff.
    rewrite !bool_decide_eq_true. apply list_elem_of_split in Ho as (l1 & l2 & ->).
    destruct l2 as [|o2 l2]; [right; by rewrite last_snoc|left].
    clear -Hl. induction l1 as [|x l1 IH]; [|by apply IH, Hl].
    destruct Hl as [-> _]. done.
  - rewrite (bool_decide_false (o ∈ l)) by done. apply orb_false_iff.
    rewrite !bool_decide_eq_false. split; [intros Hx; by apply Hx, Hd|].
    intros [l1 ->]%last_Some. set_solver.
Qed.

Lemma destroy_queue_frame o l : forall n h q h' d,
  queue_is h q l -> o ∉ l -> destroy_queue n h q = (h', d) -> get_next h' o = get_next h o.
Proof.
  induction l as [|x l IH]; intros n h q h' d Hq Ho E; pose proof (qi_front _ _ _ Hq) as Hf;
    (destruct n as [|n]; simpl in E; [by injection E as <- _|]); rewrite Hf in E; simpl in E.
  - by injection E as <- _.
  - pose proof (pop_spec h q x l Hq) as Hp. destruct (pop h q) as [h1 q1].
    destruct Hp as (Hq1 & _ & Hother).
    destruct (destroy_queue n h1 q1) as [h2 d2] eqn:E2. injection E as -> _.
    rewrite <- Hother by set_solver. apply (IH n h1 q1 h' d2); [done|set_solver|done].
Qed.

Lemma destroy_queue_spec l : forall n h q,
  queue_is h q l -> (length l <= n)%nat ->
  exists h', destroy_queue n h q = (h', l) /\ forall o, o ∈ l -> detached h' o.
Proof.
  induction l as [|x l IH]; intros n h q Hq Hn; pose proof (qi_front _ _ _ Hq) as Hf.
  - exists h. split; [|by intros o Ho%elem_of_nil]. destruct n; simpl; [done|]. by rewrite Hf.
  - destruct n as [|n]; [simpl in Hn; lia|]. simpl. rewrite Hf. simpl.
    pose proof (pop_spec h q x l Hq) as Hp. destruct (pop h q) as [h1 q1].
    destruct Hp as (Hq1 & Hd & Hother).
    destruct (IH n h1 q1 Hq1) as (h2 & E & Hd2); [simpl in Hn; lia|].
    rewrite E. exists h2. split; [done|]. intros o [->|Ho]%elem_of_cons; [|by apply Hd2].
    pose proof (qi_nodup _ _ _ Hq) as [Hx _]%NoDup_cons. unfold detached.
    by rewrite (destroy_queue_frame x l n h1 q1 h2 l Hq1 Hx E).
Qed.

(** The pointers of [op_queue] implement a list: for a queue that stands for
    [l], [front], [empty] and [is_enqueued] look at [l]; [push] appends an
    operation, [pop] removes the first and leaves it detached, pushing another
    queue appends all of it and empties it; and the destructor destroys exactly
    the operations of [l], in order. *)
Theorem op_queue_refines_list h q l :
  queue_is h q l ->
  (front q = head l /\ is_empty q = bool_decide (l = [])) /\
  (forall o, (o ∉ l -> detached h o) -> is_enqueued h q o = bool_decide (o ∈ l)) /\
  (forall o, o ∉ l ->
    let '(h', q') := push h q o in queue_is h' q' (l ++ [o])) /\
  (forall o l', l = o :: l' ->
    let '(h', q') := pop h q in queue_is h' q' l' /\ detached h' o) /\
  (forall source m, queue_is h source m -> (forall o, o ∈ l -> o ∉ m) ->
    let '(h', q', source') := push_queue h q source in
    queue_is h' q' (l ++ m) /\ queue_is h' source' []) /\
  exists h', destroy_queue (length l) h q = (h', l) /\ forall o, o ∈ l -> detached h' o.
Proof.
  intros Hq. split; [exact (front_spec h q l Hq)|]. split; [intros o Ho; by apply is_enqueued_spec|].
  split; [|split; [|split]].
  - intros o Ho. pose proof (push_spec h q l o Hq Ho) as Hp. destruct (push h q o). apply Hp.
  - intros o l' ->. pose proof (pop_spec h q o l' Hq) as Hp. destruct (pop h q).
    by destruct Hp as (? & ? & _).
  - intros source m Hm Hd. pose proof (push_queue_spec h q l source m Hq Hm Hd) as Hp.
    destruct (push_queue h q source) as [[? ?] ?]. by destruct Hp as (? & ? & _).
  - by apply destroy_queue_spec.
Qed.

(** Three operations pushed, one popped. *)
Definition example_queue : op_store * op_queue :=
  let '(h, q) := push ∅ empty_queue 7 in
  let '(h, q) := push h q 8 in
  let '(h, q) := push h q 9 in
  pop h q.

Lemma op_queue_refines_list_witness :
  exists h', destroy_queue 2 example_queue.1 example_queue.2 = (h', [8; 9]%nat).
Proof.
  destruct (op_queue_refines_list example_queue.1 example_queue.2 [8; 9]%nat)
    as (_ & _ & _ & _ & _ & h' & E & _).
  - split; [done|done|by vm_compute|]. repeat constructor; set_solver.
  - by exists h'.
Defined.
