(* ===== verification/Buffers.v ===== *)
(** [asio/buffer.hpp]: buffers, buffer sequences and the copies between them.

    A buffer is an address and a size; the memory it designates is a finite map
    from addresses to bytes, which [memcpy] reads and writes.  A [size_t] is an
    integer whose sums are reduced modulo 2^64.  The specification of a copy is
    stated on the addresses a sequence lists, one after the other. *)

From S2P Require Import Prelude.

(** * Memory *)

Abbreviation memory := (gmap Z byte).

(** [n] bytes from address [a]. *)
Definition load_bytes (m : memory) (a n : Z) : option bytes := mapM (m !!.) (seqZ a n).

(** The addresses [l] are allocated. *)
Definition allocated (m : memory) (l : list Z) : bool := forallb (fun a => bool_decide (is_Some (m !! a))) l.

(** The bytes [bs] stored at the addresses [l], in order. *)
Definition store_bytes (m : memory) (l : list Z) (bs : bytes) : memory :=
  foldl (fun m '(a, b) => <[a := b]> m) m (zip l bs).

(** [memcpy]: undefined on memory that is not allocated and on ranges that
    overlap. *)
Definition memcpy (m : memory) (dest src n : Z) : outcome memory :=
  if (dest <? src + n) && (src <? dest + n) then Undef
  else if negb (allocated m (seqZ dest n)) then Undef
  else
    match load_bytes m src n with
    | Some bs => Ret (store_bytes m (seqZ dest n) bs)
    | None => Undef
    end.

(** * Buffers *)

Record mutable_buffer := mkBuffer {
  data : Z;
  size : Z
}.

(** A [const_buffer] has the same members; memory is not written through it. *)
Definition const_buffer : Type := mutable_buffer.

Definition empty_buffer : mutable_buffer := mkBuffer 0 0.

(** [b + n], and [b += n]. *)
Definition buffer_plus (b : mutable_buffer) (n : Z) : mutable_buffer :=
  let offset := if n <? size b then n else size b in
  mkBuffer (data b + offset) (size b - offset).

(** [asio::buffer(b, max_size_in_bytes)]. *)
Definition buffer (b : mutable_buffer) (max_size_in_bytes : Z) : mutable_buffer :=
  mkBuffer (data b) (if size b <? max_size_in_bytes then size b else max_size_in_bytes).

(** A buffer sequence, by its cardinality. *)
Inductive buffer_sequence :=
  | one_buffer (b : mutable_buffer)
  | multiple_buffers (bs : list mutable_buffer).

(** [buffer_sequence_begin] to [buffer_sequence_end]. *)
Definition elements (s : buffer_sequence) : list mutable_buffer :=
  match s with
  | one_buffer b => [b]
  | multiple_buffers bs => bs
  end.

Definition buffer_size (s : buffer_sequence) : Z :=
  match s with
  | one_buffer b => size b
  | multiple_buffers bs =>
      foldl (fun total_buffer_size b => u64 (total_buffer_size + size b)) 0 bs
  end.

(** [(std::numeric_limits<std::size_t>::max)()]. *)
Definition size_max : Z := 2 ^ 64 - 1.

(** * Copies

    Each returns the number of bytes copied and the memory. *)

Definition buffer_copy_1 (target : mutable_buffer) (source : const_buffer) (m : memory) :
    outcome (Z * memory) :=
  let target_size := size target in
  let source_size := size source in
  let n := if target_size <? source_size then target_size else source_size in
  if 0 <? n then m' ← memcpy m (data target) (data source) n; Ret (n, m')
  else Ret (n, m).

Definition buffer_copy_one_one (target : mutable_buffer) (source : const_buffer)
    (m : memory) : outcome (Z * memory) :=
  buffer_copy_1 target source m.

Definition buffer_copy_one_one_max (target : mutable_buffer) (source : const_buffer)
    (max_bytes_to_copy : Z) (m : memory) : outcome (Z * memory) :=
  buffer_copy_1 target (buffer source max_bytes_to_copy) m.

(** The loop over the sources, with [target_buffer] and the total so far. *)
Fixpoint copy_sources (target_buffer : mutable_buffer) (sources : list const_buffer)
    (total_bytes_copied : Z) (m : memory) : outcome (Z * memory) :=
  match sources with
  | [] => Ret (total_bytes_copied, m)
  | source_buffer :: sources =>
      if size target_buffer =? 0 then Ret (total_bytes_copied, m)
      else
        '(bytes_copied, m) ← buffer_copy_1 target_buffer source_buffer m;
        copy_sources (buffer_plus target_buffer bytes_copied) sources
          (u64 (total_bytes_copied + bytes_copied)) m
  end.

Definition buffer_copy_one_multiple (target : mutable_buffer) (sources : list const_buffer)
    (max_bytes_to_copy : Z) (m : memory) : outcome (Z * memory) :=
  copy_sources (buffer target max_bytes_to_copy) sources 0 m.

(** The loop over the targets, with [source_buffer] and the total so far. *)
Fixpoint copy_targets (targets : list mutable_buffer) (source_buffer : const_buffer)
    (total_bytes_copied : Z) (m : memory) : outcome (Z * memory) :=
  match targets with
  | [] => Ret (total_bytes_copied, m)
  | target_buffer :: targets =>
      if size source_buffer =? 0 then Ret (total_bytes_copied, m)
      else
        '(bytes_copied, m) ← buffer_copy_1 target_buffer source_buffer m;
        copy_targets targets (buffer_plus source_buffer bytes_copied)
          (u64 (total_bytes_copied + bytes_copied)) m
  end.

Definition buffer_copy_multiple_one (targets : list mutable_buffer) (source : const_buffer)
    (max_bytes_to_copy : Z) (m : memory) : outcome (Z * memory) :=
  copy_targets targets (buffer source max_bytes_to_copy) 0 m.

(** What an iterator and its offset become once [bytes_copied] bytes of
    [current], the buffer at the iterator less the offset, are done with. *)
Definition advance (iter : list mutable_buffer) (offset : Z) (current : mutable_buffer)
    (bytes_copied : Z) : list mutable_buffer * Z :=
  if bytes_copied =? size current then (tail iter, 0) else (iter, u64 (offset + bytes_copied)).

(** The loops over both sequences: [limit] is the number of bytes the copy may
    still take when it is bounded.  Each round moves an iterator or reaches the
    limit. *)
Fixpoint copy_sequences (fuel : nat) (target_iter : list mutable_buffer) (target_offset : Z)
    (source_iter : list const_buffer) (source_offset : Z) (max_bytes_to_copy : option Z)
    (total_bytes_copied : Z) (m : memory) : outcome (Z * memory) :=
  match fuel with
  | O => Undef
  | S fuel =>
      if bool_decide (max_bytes_to_copy = Some total_bytes_copied) then
        Ret (total_bytes_copied, m)
      else
        match target_iter, source_iter with
        | t :: _, s :: _ =>
            let target_buffer := buffer_plus t target_offset in
            let source_buffer := buffer_plus s source_offset in
            '(bytes_copied, m) ←
              buffer_copy_1 target_buffer
                match max_bytes_to_copy with
                | Some max => buffer source_buffer (max - total_bytes_copied)
                | None => source_buffer
                end m;
            let total_bytes_copied := u64 (total_bytes_copied + bytes_copied) in
            let '(target_iter, target_offset) :=
              advance target_iter target_offset target_buffer bytes_copied in
            let '(source_iter, source_offset) :=
              advance source_iter source_offset source_buffer bytes_copied in
            copy_sequences fuel target_iter target_offset source_iter source_offset
              max_bytes_to_copy total_bytes_copied m
        | _, _ => Ret (total_bytes_copied, m)
        end
  end.

Definition copy_fuel (targets sources : list mutable_buffer) : nat :=
  S (S (length targets + length sources)).

Definition buffer_copy_multiple_multiple (targets : list mutable_buffer)
    (sources : list const_buffer) (m : memory) : outcome (Z * memory) :=
  copy_sequences (copy_fuel targets sources) targets 0 sources 0 None 0 m.

Definition buffer_copy_multiple_multiple_max (targets : list mutable_buffer)
    (sources : list const_buffer) (max_bytes_to_copy : Z) (m : memory) :
    outcome (Z * memory) :=
  copy_sequences (copy_fuel targets sources) targets 0 sources 0 (Some max_bytes_to_copy) 0 m.

(** [asio::buffer_copy(target, source)]: the cardinalities choose the copy. *)
Definition buffer_copy (target source : buffer_sequence) (m : memory) : outcome (Z * memory) :=
  match target, source with
  | one_buffer t, one_buffer s => buffer_copy_one_one t s m
  | one_buffer t, multiple_buffers ss => buffer_copy_one_multiple t ss size_max m
  | multiple_buffers ts, one_buffer s => buffer_copy_multiple_one ts s size_max m
  | multiple_buffers ts, multiple_buffers ss => buffer_copy_multiple_multiple ts ss m
  end.

(** [asio::buffer_copy(target, source, max_bytes_to_copy)]. *)
Definition buffer_copy_max (target source : buffer_sequence) (max_bytes_to_copy : Z)
    (m : memory) : outcome (Z * memory) :=
  match target, source with
  | one_buffer t, one_buffer s => buffer_copy_one_one_max t s max_bytes_to_copy m
  | one_buffer t, multiple_buffers ss => buffer_copy_one_multiple t ss max_bytes_to_copy m
  | multiple_buffers ts, one_buffer s => buffer_copy_multiple_one ts s max_bytes_to_copy m
  | multiple_buffers ts, multiple_buffers ss =>
      buffer_copy_multiple_multiple_max ts ss max_bytes_to_copy m
  end.

(** * The addresses of a sequence *)

(** A [size_t] size. *)
Definition buffer_wf (b : mutable_buffer) : Prop := 0 <= size b < 2 ^ 64.

Definition addresses (b : mutable_buffer) : list Z := seqZ (data b) (size b).

Definition flatten (bs : list mutable_buffer) : list Z := concat (addresses <$> bs).

(** Byte by byte, each source to its target. *)
Definition copy_pairs (m : memory) (ps : list (Z * Z)) : memory :=
  foldl (fun m '(t, s) => <[t := m !!! s]> m) m ps.

(** * Lists of addresses *)

Lemma zip_split {A B} n (l : list A) (k : list B) :
  zip l k = zip (take n l) (take n k) ++ zip (drop n l) (drop n k).
Proof.
  revert l k; induction n as [|n IH]; intros [|x l] [|y k]; simpl; try done.
  - by rewrite zip_with_nil_r.
  - by rewrite <- IH.
Qed.

Lemma zip_take_min {A B} n (l : list A) (k : list B) :
  (length l <= n)%nat \/ (length k <= n)%nat -> zip (take n l) (take n k) = zip l k.
Proof.
  revert l k; induction n as [|n IH]; intros [|x l] [|y k] Hn; simpl in *; try done;
    try lia.
  rewrite IH by lia. done.
Qed.

Lemma drop_seqZ n a l : 0 <= n -> drop (Z.to_nat n) (seqZ a l) = seqZ (a + n) (l - n).
Proof.
  intros Hn. destruct (decide (n <= l)).
  - replace l with (n + (l - n)) at 1 by lia.
    rewrite seqZ_app, drop_app_length' by (rewrite ?length_seqZ; lia). done.
  - rewrite drop_ge by (rewrite length_seqZ; lia). symmetry. apply seqZ_nil. lia.
Qed.

Lemma take_seqZ n a l : 0 <= n -> take (Z.to_nat n) (seqZ a l) = seqZ a (Z.min n l).
Proof.
  intros Hn. destruct (decide (n <= l)).
  - replace l with (n + (l - n)) at 1 by lia.
    rewrite seqZ_app, take_app_length' by (rewrite ?length_seqZ; lia). by rewrite Z.min_l.
  - rewrite take_ge by (rewrite length_seqZ; lia). by rewrite Z.min_r by lia.
Qed.

Lemma zlen_addresses b : buffer_wf b -> zlen (addresses b) = size b.
Proof. unfold buffer_wf, addresses, zlen. rewrite length_seqZ. lia. Qed.

Lemma flatten_cons b bs : flatten (b :: bs) = addresses b ++ flatten bs.
Proof. done. Qed.

Lemma addresses_buffer_plus b n :
  buffer_wf b -> 0 <= n -> addresses (buffer_plus b n) = drop (Z.to_nat n) (addresses b).
Proof.
  unfold buffer_wf. intros Hb Hn. unfold addresses, buffer_plus; simpl.
  rewrite drop_seqZ by done. destruct (Z.ltb_spec n (size b)); [done|].
  rewrite !seqZ_nil by lia. done.
Qed.

Lemma addresses_buffer b n :
  0 <= n -> addresses (buffer b n) = take (Z.to_nat n) (addresses b).
Proof.
  intros Hn. unfold addresses, buffer; simpl. rewrite take_seqZ by done.
  f_equal. destruct (Z.ltb_spec (size b) n); lia.
Qed.

Lemma buffer_plus_wf b n : buffer_wf b -> 0 <= n -> buffer_wf (buffer_plus b n).
Proof. unfold buffer_wf; simpl. destruct (Z.ltb_spec n (size b)); lia. Qed.

Lemma buffer_wf_max b n : buffer_wf b -> 0 <= n -> buffer_wf (buffer b n).
Proof. unfold buffer_wf; simpl. destruct (Z.ltb_spec (size b) n); lia. Qed.

Lemma size_buffer_plus b n :
  0 <= n <= size b -> size (buffer_plus b n) = size b - n.
Proof. intros Hn; simpl. destruct (Z.ltb_spec n (size b)); lia. Qed.

Lemma size_buffer b n : size (buffer b n) = Z.min (size b) n.
Proof. simpl. destruct (Z.ltb_spec (size b) n); lia. Qed.

Lemma buffer_size_flatten s :
  Forall buffer_wf (elements s) -> zlen (flatten (elements s)) < 2 ^ 64 ->
  buffer_size s = zlen (flatten (elements s)).
Proof.
  intros Hw. destruct s as [b|bs]; simpl in *.
  { unfold flatten; simpl. rewrite app_nil_r. intros _.
    rewrite Forall_singleton in Hw. by rewrite zlen_addresses. }
  enough (forall acc, 0 <= acc -> acc + zlen (flatten bs) < 2 ^ 64 ->
    foldl (fun t b => u64 (t + size b)) acc bs = acc + zlen (flatten bs)) as Hgen.
  { intros. rewrite Hgen; lia. }
  induction Hw as [|b bs Hb Hw IH]; intros acc Ha Hs; simpl.
  { change (zlen (flatten [])) with 0. lia. }
  rewrite flatten_cons, zlen_app, zlen_addresses in * by done.
  unfold buffer_wf in Hb. pose proof (zlen_nonneg (flatten bs)).
  rewrite u64_small by lia. rewrite IH; lia.
Qed.

(** * Bytes copied *)

Definition mapped (m : memory) (l : list Z) : Prop := Forall (fun a => is_Some (m !! a)) l.

Lemma allocated_mapped m l : allocated m l = true <-> mapped m l.
Proof.
  unfold allocated, mapped. rewrite List.forallb_forall, Forall_forall.
  setoid_rewrite list_elem_of_In. by setoid_rewrite bool_decide_eq_true.
Qed.

Lemma copy_pairs_app m ps qs : copy_pairs m (ps ++ qs) = copy_pairs (copy_pairs m ps) qs.
Proof. apply foldl_app. Qed.

Lemma copy_pairs_mapped m ps l : mapped m l -> mapped (copy_pairs m ps) l.
Proof.
  revert m; induction ps as [|[t s] ps IH]; intros m Hm; simpl; [done|].
  apply IH. eapply Forall_impl; [exact Hm|]. intros a Ha; simpl.
  destruct (decide (t = a)); simplify_map_eq; eauto.
Qed.

Lemma copy_pairs_other m ts ss a : a ∉ ts -> copy_pairs m (zip ts ss) !! a = m !! a.
Proof.
  revert m ss; induction ts as [|t ts IH]; intros m [|s ss] Ha; simpl; try done.
  apply not_elem_of_cons in Ha as [Ht Hts]. rewrite IH by done. by simplify_map_eq.
Qed.

Lemma mapM_ext_in {A B} (f g : A -> option B) l :
  (forall x, x ∈ l -> f x = g x) -> mapM f l = mapM g l.
Proof.
  induction l as [|x l IH]; intros Hl; simpl; [done|].
  rewrite Hl, IH by set_solver. done.
Qed.

Lemma mapM_app_Some {A B} (f : A -> option B) l k bs cs :
  mapM f l = Some bs -> mapM f k = Some cs -> mapM f (l ++ k) = Some (bs ++ cs).
Proof.
  rewrite !mapM_Some. apply Forall2_app.
Qed.

Lemma copy_pairs_load m ts ss :
  NoDup ts -> ts ## ss -> length ts = length ss -> mapped m ss ->
  mapM (copy_pairs m (zip ts ss) !!.) ts = mapM (m !!.) ss.
Proof.
  revert m ss; induction ts as [|t ts IH]; intros m [|s ss] Hn Hd Hl Hm; simpl in *; try done.
  apply NoDup_cons in Hn as [Ht Hn]. apply Forall_cons in Hm as [[b Hb] Hm].
  rewrite copy_pairs_other, lookup_insert_eq by done.
  rewrite (lookup_total_correct _ _ _ Hb), Hb; simpl.
  assert (forall a, a ∈ ss -> <[t:=b]> m !! a = m !! a) as Hsame
    by (intros a Ha; apply lookup_insert_ne; set_solver).
  rewrite IH; [|done|set_solver|lia|].
  - by rewrite (mapM_ext_in _ _ _ Hsame).
  - eapply Forall_forall. intros a Ha. rewrite Hsame by done.
    rewrite Forall_forall in Hm. auto.
Qed.

(** [memcpy] is the byte by byte copy where its ranges are apart. *)
Lemma store_bytes_pairs m ts ss bs :
  ts ## ss -> mapM (m !!.) ss = Some bs -> store_bytes m ts bs = copy_pairs m (zip ts ss).
Proof.
  unfold store_bytes, copy_pairs.
  revert m ss bs; induction ts as [|t ts IH]; intros m [|s ss] bs Hd Hm;
    try by destruct bs; simplify_option_eq.
  simpl in Hm. simplify_option_eq. simpl.
  rewrite (lookup_total_correct m s _) by eassumption.
  rewrite IH with (ss := ss); [done|set_solver|].
  erewrite mapM_ext_in; [eassumption|]. intros a Ha. apply lookup_insert_ne. set_solver.
Qed.

Lemma mapped_load m l : mapped m l -> exists bs, mapM (m !!.) l = Some bs.
Proof.
  induction 1 as [|a l [b Hb] Hl [bs IH]]; simpl; [eauto|]. rewrite Hb, IH; simpl. eauto.
Qed.

Lemma memcpy_pairs m dest src n :
  0 < n -> mapped m (seqZ dest n) -> mapped m (seqZ src n) -> seqZ dest n ## seqZ src n ->
  memcpy m dest src n = Ret (copy_pairs m (zip (seqZ dest n) (seqZ src n))).
Proof.
  intros Hn Hd Hs Hds. unfold memcpy.
  replace ((dest <? src + n) && (src <? dest + n)) with false.
  - apply allocated_mapped in Hd. rewrite Hd; simpl.
    destruct (mapped_load _ _ Hs) as [bs Hbs]. unfold load_bytes. rewrite Hbs.
    by rewrite (store_bytes_pairs m _ (seqZ src n)).
  - destruct (Z.ltb_spec dest (src + n)), (Z.ltb_spec src (dest + n)); try done.
    exfalso. apply (Hds (Z.max dest src)); apply elem_of_seqZ; lia.
Qed.

Lemma mapped_incl m l k : mapped m k -> l ⊆ k -> mapped m l.
Proof. unfold mapped. rewrite !Forall_forall. set_solver. Qed.

Lemma take_subseteq {A} n (l : list A) : take n l ⊆ l.
Proof. intros x Hx. rewrite <- (take_drop n l). set_solver. Qed.

Lemma drop_subseteq {A} n (l : list A) : drop n l ⊆ l.
Proof. intros x Hx. rewrite <- (take_drop n l). set_solver. Qed.

(** What [memcpy] asks of the memory a copy goes through. *)
Definition copyable (m : memory) (ts ss : list Z) : Prop :=
  mapped m ts /\ mapped m ss /\ ts ## ss.

Lemma copyable_incl m ts ss ts' ss' :
  copyable m ts ss -> ts' ⊆ ts -> ss' ⊆ ss -> copyable m ts' ss'.
Proof.
  intros (Mt & Ms & Hd) Ht Hs. split; [|split].
  - exact (mapped_incl _ _ _ Mt Ht).
  - exact (mapped_incl _ _ _ Ms Hs).
  - set_solver.
Qed.

Lemma copyable_pairs m ps ts ss : copyable m ts ss -> copyable (copy_pairs m ps) ts ss.
Proof. intros (Mt & Ms & Hd). repeat split; auto using copy_pairs_mapped. Qed.

Lemma buffer_copy_1_pairs t s m :
  buffer_wf t -> buffer_wf s -> copyable m (addresses t) (addresses s) ->
  buffer_copy_1 t s m =
    Ret (Z.min (size t) (size s), copy_pairs m (zip (addresses t) (addresses s))).
Proof.
  unfold buffer_wf, buffer_copy_1. intros Ht Hs (Mt & Ms & Hd).
  replace (if size t <? size s then size t else size s) with (Z.min (size t) (size s))
    by (destruct (Z.ltb_spec (size t) (size s)); lia).
  set (n := Z.min (size t) (size s)).
  assert (forall a k, n <= k -> seqZ a n ⊆ seqZ a k) as Hincl.
  { intros a k Hk x. rewrite !elem_of_seqZ. lia. }
  rewrite <- (zip_take_min (Z.to_nat n) (addresses t) (addresses s))
    by (unfold addresses; rewrite !length_seqZ; lia).
  unfold addresses in *. rewrite !take_seqZ by lia.
  replace (Z.min n (size t)) with n by lia. replace (Z.min n (size s)) with n by lia.
  destruct (Z.ltb_spec 0 n).
  - rewrite memcpy_pairs; [done|lia|..].
    + eapply mapped_incl; [exact Mt|]. apply Hincl. lia.
    + eapply mapped_incl; [exact Ms|]. apply Hincl. lia.
    + intros x Hx Hy. eapply Hd; eapply Hincl; [|exact Hx| |exact Hy]; lia.
  - by rewrite !(seqZ_nil _ n) by lia.
Qed.

(** Splits the pairs of a copy at the bytes a round copied. *)
Lemma copy_pairs_split m ts ss n :
  copy_pairs m (zip ts ss) =
    copy_pairs (copy_pairs m (zip (take n ts) (take n ss))) (zip (drop n ts) (drop n ss)).
Proof. by rewrite (zip_split n ts ss), copy_pairs_app. Qed.

Lemma zlen_drop {A} (l : list A) n : 0 <= n <= zlen l -> zlen (drop (Z.to_nat n) l) = zlen l - n.
Proof. unfold zlen. rewrite length_drop. lia. Qed.

Lemma drop_addresses_app b n bs :
  buffer_wf b -> 0 <= n <= size b ->
  drop (Z.to_nat n) (addresses b ++ bs) = addresses (buffer_plus b n) ++ bs.
Proof.
  intros Hw Hn. rewrite drop_app_le, addresses_buffer_plus by
    (try done; try lia; pose proof (zlen_addresses _ Hw); unfold zlen in *; lia). done.
Qed.

Lemma take_addresses_app b n bs :
  buffer_wf b -> 0 <= n <= size b ->
  take (Z.to_nat n) (addresses b ++ bs) = take (Z.to_nat n) (addresses b).
Proof.
  intros Hw Hn. apply take_app_le.
  pose proof (zlen_addresses _ Hw); unfold zlen in *; lia.
Qed.

(** One round of [buffer_copy_1] is the head of the whole copy. *)
Lemma copy_round t s k ts ss m :
  buffer_wf t -> buffer_wf s -> k = Z.min (size t) (size s) ->
  copy_pairs m (zip (addresses t ++ ts) (addresses s ++ ss)) =
    copy_pairs (copy_pairs m (zip (addresses t) (addresses s)))
      (zip (addresses (buffer_plus t k) ++ ts) (addresses (buffer_plus s k) ++ ss)).
Proof.
  intros Ht Hs ->. pose proof (zlen_addresses _ Ht). pose proof (zlen_addresses _ Hs).
  unfold buffer_wf, zlen in *.
  rewrite (copy_pairs_split _ _ _ (Z.to_nat (Z.min (size t) (size s)))).
  rewrite !take_addresses_app, !drop_addresses_app by (unfold buffer_wf; lia).
  by rewrite zip_take_min by lia.
Qed.

Lemma addresses_empty b : buffer_wf b -> size b = 0 -> addresses b = [].
Proof. intros _ E. unfold addresses. rewrite E. done. Qed.

Lemma copy_sources_pairs t ss total m :
  buffer_wf t -> Forall buffer_wf ss -> copyable m (addresses t) (flatten ss) ->
  0 <= total -> total + size t < 2 ^ 64 ->
  copy_sources t ss total m =
    Ret (total + Z.min (size t) (zlen (flatten ss)),
         copy_pairs m (zip (addresses t) (flatten ss))).
Proof.
  intros Ht Hss; revert t total m Ht.
  induction Hss as [|s ss Hs Hss IH]; intros t total m Ht Hc Ht0 Htot; simpl.
  - unfold flatten; simpl. rewrite zip_with_nil_r, zlen_nil. unfold buffer_wf in Ht.
    repeat f_equal. lia.
  - rewrite flatten_cons in *. pose proof (zlen_nonneg (flatten ss)).
    pose proof (zlen_addresses _ Hs). pose proof (zlen_addresses _ Ht).
    unfold buffer_wf in *.
    destruct (Z.eqb_spec (size t) 0) as [E|E].
    { rewrite (addresses_empty t) by done. rewrite zlen_app. repeat f_equal. lia. }
    rewrite buffer_copy_1_pairs;
      [|done|done|eapply copyable_incl; [exact Hc|set_solver|set_solver]].
    simpl. rewrite u64_small by lia. rewrite IH.
    + rewrite size_buffer_plus, zlen_app by lia. f_equal. f_equal; [lia|].
      pose proof (copy_round t s _ [] (flatten ss) m Ht Hs eq_refl) as R.
      rewrite !app_nil_r in R. rewrite R.
      destruct (Z.le_gt_cases (size t) (size s)).
      * by rewrite (addresses_empty (buffer_plus t _))
          by (try apply buffer_plus_wf; try done; rewrite ?size_buffer_plus; lia).
      * by rewrite (addresses_empty (buffer_plus s _))
          by (try apply buffer_plus_wf; try done; rewrite ?size_buffer_plus; lia).
    + apply buffer_plus_wf; [done|lia].
    + apply copyable_pairs. eapply copyable_incl; [exact Hc| |set_solver].
      rewrite addresses_buffer_plus by (unfold buffer_wf; lia). apply drop_subseteq.
    + lia.
    + rewrite size_buffer_plus; lia.
Qed.

Lemma copy_targets_pairs ts s total m :
  Forall buffer_wf ts -> buffer_wf s -> copyable m (flatten ts) (addresses s) ->
  0 <= total -> total + size s < 2 ^ 64 ->
  copy_targets ts s total m =
    Ret (total + Z.min (zlen (flatten ts)) (size s),
         copy_pairs m (zip (flatten ts) (addresses s))).
Proof.
  intros Hts; revert s total m.
  induction Hts as [|t ts Ht Hts IH]; intros s total m Hs Hc Ht0 Htot; simpl.
  - unfold flatten; simpl. rewrite zlen_nil. unfold buffer_wf in Hs. repeat f_equal. lia.
  - rewrite flatten_cons in *. pose proof (zlen_nonneg (flatten ts)).
    pose proof (zlen_addresses _ Hs). pose proof (zlen_addresses _ Ht).
    unfold buffer_wf in *.
    destruct (Z.eqb_spec (size s) 0) as [E|E].
    { rewrite (addresses_empty s) by done. rewrite zlen_app, zip_with_nil_r.
      repeat f_equal. lia. }
    rewrite buffer_copy_1_pairs;
      [|done|done|eapply copyable_incl; [exact Hc|set_solver|set_solver]].
    simpl. rewrite u64_small by lia. rewrite IH.
    + rewrite size_buffer_plus, zlen_app by lia. f_equal. f_equal; [lia|].
      pose proof (copy_round t s _ (flatten ts) [] m Ht Hs eq_refl) as R.
      rewrite !app_nil_r in R. rewrite R.
      destruct (Z.le_gt_cases (size t) (size s)).
      * by rewrite (addresses_empty (buffer_plus t _))
          by (try apply buffer_plus_wf; try done; rewrite ?size_buffer_plus; lia).
      * by rewrite (addresses_empty (buffer_plus s _)), !zip_with_nil_r
          by (try apply buffer_plus_wf; try done; rewrite ?size_buffer_plus; lia).
    + apply buffer_plus_wf; [done|lia].
    + apply copyable_pairs. eapply copyable_incl; [exact Hc|set_solver|].
      rewrite addresses_buffer_plus by (unfold buffer_wf; lia). apply drop_subseteq.
    + lia.
    + rewrite size_buffer_plus; lia.
Qed.

(** ** Two iterators *)

(** The addresses from an iterator and its offset on. *)
Definition remaining (iter : list mutable_buffer) (offset : Z) : list Z :=
  drop (Z.to_nat offset) (flatten iter).

Definition position_ok (iter : list mutable_buffer) (offset : Z) : Prop :=
  Forall buffer_wf iter /\
  match iter with
  | [] => offset = 0
  | b :: _ => 0 <= offset <= size b
  end.

Lemma position_start iter : Forall buffer_wf iter -> position_ok iter 0.
Proof.
  intros Hw. split; [done|]. destruct Hw as [|b iter [Hb _] _]; lia.
Qed.

Lemma remaining_cons b iter offset :
  position_ok (b :: iter) offset ->
  remaining (b :: iter) offset = addresses (buffer_plus b offset) ++ flatten iter.
Proof.
  intros [Hw Ho]. apply Forall_cons in Hw as [Hb _].
  unfold remaining. rewrite flatten_cons, drop_addresses_app; done.
Qed.

Lemma advance_position b iter offset k :
  position_ok (b :: iter) offset -> 0 <= k <= size (buffer_plus b offset) ->
  exists iter' offset',
    advance (b :: iter) offset (buffer_plus b offset) k = (iter', offset') /\
    position_ok iter' offset' /\
    remaining iter' offset' = drop (Z.to_nat k) (remaining (b :: iter) offset) /\
    length iter' = (length iter + if decide (k = size (buffer_plus b offset)) then 0 else 1)%nat.
Proof.
  intros Hp Hk. pose proof Hp as [Hw Ho]. apply Forall_cons in Hw as [Hb Hw].
  pose proof (buffer_plus_wf b offset Hb (proj1 Ho)) as Hc. pose proof (zlen_addresses _ Hc) as Hl.
  rewrite size_buffer_plus in Hk, Hl |- * by done. unfold buffer_wf in Hb.
  unfold advance. rewrite size_buffer_plus by done.
  destruct (Z.eqb_spec k (size b - offset)) as [->|E].
  - exists iter, 0. split; [done|]. split; [by apply position_start|].
    rewrite decide_True by done. split; [|lia].
    rewrite remaining_cons, drop_app_length' by (done || (unfold zlen in Hl; lia)). done.
  - exists (b :: iter), (offset + k). rewrite u64_small by lia. split; [done|].
    split; [split; [by constructor|lia]|]. rewrite decide_False by done. split; [|simpl; lia].
    unfold remaining. rewrite drop_drop. f_equal. lia.
Qed.

(** The source bytes a bounded copy may still take. *)
Definition bounded (max_bytes_to_copy : option Z) (total : Z) (ss : list Z) : list Z :=
  match max_bytes_to_copy with
  | Some max => take (Z.to_nat (max - total)) ss
  | None => ss
  end.

Lemma bounded_drop max total k ss :
  0 <= k -> (forall x, max = Some x -> total + k <= x) ->
  drop (Z.to_nat k) (bounded max total ss) = bounded max (total + k) (drop (Z.to_nat k) ss).
Proof.
  intros Hk Hm. destruct max as [x|]; simpl; [|done].
  specialize (Hm x eq_refl). rewrite skipn_firstn_comm. f_equal. lia.
Qed.

Lemma bounded_spent total ss : bounded (Some total) total ss = [].
Proof. simpl. by rewrite Z.sub_diag. Qed.

Lemma bounded_nil max total : bounded max total [] = [].
Proof. destruct max; simpl; [by rewrite take_nil|done]. Qed.

Lemma bounded_subseteq max total ss : bounded max total ss ⊆ ss.
Proof. destruct max; simpl; [apply take_subseteq|done]. Qed.

(** The bytes of one round: the current source buffer, bounded. *)
Lemma bounded_source s max total rest :
  buffer_wf s -> (forall x, max = Some x -> 0 <= x - total) ->
  let s' := match max with Some x => buffer s (x - total) | None => s end in
  buffer_wf s' /\ size s' <= size s /\
  (forall x, max = Some x -> size s' <= x - total) /\
  (size s' = size s \/ max = Some (total + size s')) /\
  addresses s' = take (Z.to_nat (size s')) (addresses s) /\
  bounded max total (addresses s ++ rest) =
    addresses s' ++ drop (Z.to_nat (size s')) (bounded max total (addresses s ++ rest)).
Proof.
  intros Hs Hm. pose proof (zlen_addresses _ Hs) as Hl. unfold zlen in Hl.
  unfold buffer_wf in Hs. destruct max as [x|]; cbv zeta.
  - specialize (Hm x eq_refl). pose proof (size_buffer s (x - total)) as Hz.
    pose proof (addresses_buffer s (x - total) Hm) as Ha.
    assert (addresses (buffer s (x - total)) =
      take (Z.to_nat (size (buffer s (x - total)))) (addresses s)) as Ha'.
    { rewrite Ha, Hz. destruct (Z.le_gt_cases (size s) (x - total)).
      - rewrite !take_ge; [done|lia|lia].
      - f_equal. lia. }
    split; [by apply buffer_wf_max|]. split; [lia|]. split; [naive_solver lia|].
    split; [destruct (Z.le_gt_cases (size s) (x - total)); [left|right; f_equal]; lia|].
    split; [done|].
    rewrite <- (take_drop (Z.to_nat (size (buffer s (x - total)))) (bounded _ _ _)) at 1.
    f_equal. rewrite Ha'. simpl bounded. rewrite take_take, take_app_le by lia. f_equal. lia.
  - split; [done|]. split; [lia|]. split; [done|]. split; [by left|].
    split; [by rewrite take_ge by lia|]. simpl. by rewrite drop_app_length' by lia.
Qed.

Lemma copy_sequences_done fuel ti to si so total m :
  copy_sequences (S fuel) ti to si so (Some total) total m = Ret (total, m).
Proof. simpl. by rewrite bool_decide_true. Qed.

(** A round and the rest of the copy. *)
Lemma copy_step m (t s' : mutable_buffer) ts ss k :
  buffer_wf t -> buffer_wf s' -> k = Z.min (size t) (size s') ->
  let l := addresses t ++ ts in
  let r := addresses s' ++ ss in
  k + Z.min (zlen (drop (Z.to_nat k) l)) (zlen (drop (Z.to_nat k) r)) =
    Z.min (zlen l) (zlen r) /\
  copy_pairs (copy_pairs m (zip (addresses t) (addresses s')))
    (zip (drop (Z.to_nat k) l) (drop (Z.to_nat k) r)) = copy_pairs m (zip l r).
Proof.
  intros Ht Hs -> l r. subst l r.
  pose proof (zlen_addresses _ Ht). pose proof (zlen_addresses _ Hs).
  pose proof (zlen_nonneg ts). pose proof (zlen_nonneg ss).
  unfold buffer_wf in *. split.
  - rewrite !zlen_drop; rewrite ?zlen_app; lia.
  - rewrite !drop_addresses_app by (unfold buffer_wf; lia). symmetry.
    by apply copy_round.
Qed.

Lemma copy_sequences_round fuel t ti to s si so max total m :
  let T := remaining (t :: ti) to in
  let S := remaining (s :: si) so in
  let B := bounded max total S in
  position_ok (t :: ti) to -> position_ok (s :: si) so -> copyable m T S ->
  0 <= total -> (forall x, max = Some x -> total < x) ->
  total + Z.min (zlen T) (zlen S) < 2 ^ 64 ->
  exists k ti' to' si' so' ps,
    copy_sequences (Datatypes.S fuel) (t :: ti) to (s :: si) so max total m =
      copy_sequences fuel ti' to' si' so' max (total + k) (copy_pairs m ps) /\
    position_ok ti' to' /\ position_ok si' so' /\
    remaining ti' to' = drop (Z.to_nat k) T /\ remaining si' so' = drop (Z.to_nat k) S /\
    0 <= k <= Z.min (zlen T) (zlen S) /\ (forall x, max = Some x -> total + k <= x) /\
    ((length ti' + length si' <= length ti + length si + 1)%nat \/ max = Some (total + k)) /\
    k + Z.min (zlen (drop (Z.to_nat k) T)) (zlen (drop (Z.to_nat k) B)) =
      Z.min (zlen T) (zlen B) /\
    copy_pairs (copy_pairs m ps) (zip (drop (Z.to_nat k) T) (drop (Z.to_nat k) B)) =
      copy_pairs m (zip T B).
Proof.
  intros T S B Ht Hs Hc Htot Hmax Hlen.
  assert (forall x, max = Some x -> 0 <= x - total) as Hmax'
    by (intros x Hx; specialize (Hmax x Hx); lia).
  pose proof (buffer_plus_wf t to (Forall_inv (proj1 Ht)) (proj1 (proj2 Ht))) as Wt.
  pose proof (buffer_plus_wf s so (Forall_inv (proj1 Hs)) (proj1 (proj2 Hs))) as Ws.
  pose proof (remaining_cons _ _ _ Ht) as Rt. pose proof (remaining_cons _ _ _ Hs) as Rs.
  destruct (bounded_source _ max total (flatten si) Ws Hmax')
    as (Ws' & Hle & Hfit & Hcut & Hsub & Hb).
  set (s' := match max with Some x => _ | None => _ end) in *.
  set (k := Z.min (size (buffer_plus t to)) (size s')).
  destruct (copy_step m _ s' (flatten ti)
    (drop (Z.to_nat (size s')) (bounded max total (addresses (buffer_plus s so) ++ flatten si)))
    k Wt Ws' eq_refl) as [Hcount Hcopy].
  rewrite <- Hb, <- Rt, <- Rs in Hcount, Hcopy.
  assert (0 <= k) by (unfold buffer_wf in *; lia).
  assert (k = Z.min (size (buffer_plus t to)) (size s')) as Ek by done. clearbody k.
  destruct (advance_position t ti to k Ht ltac:(lia)) as (ti' & to' & At & Pt & Dt & Lt).
  destruct (advance_position s si so k Hs ltac:(lia)) as (si' & so' & As & Ps & Ds & Ls).
  assert (k <= Z.min (zlen T) (zlen S)) as Hk.
  { subst T S. rewrite Rt, Rs, !zlen_app, !zlen_addresses by done.
    pose proof (zlen_nonneg (flatten ti)). pose proof (zlen_nonneg (flatten si)). lia. }
  assert (addresses (buffer_plus t to) ⊆ T) as It by (subst T; rewrite Rt; set_solver +).
  assert (addresses s' ⊆ S) as Is.
  { subst S. rewrite Hsub, Rs. etrans; [apply take_subseteq|set_solver +]. }
  exists k, ti', to', si', so', (zip (addresses (buffer_plus t to)) (addresses s')).
  refine (conj _ (conj Pt (conj Ps (conj Dt (conj Ds (conj (conj _ Hk)
    (conj _ (conj _ (conj Hcount Hcopy)))))))));
    [|done|..].
  - simpl copy_sequences. rewrite bool_decide_false by (intros E; specialize (Hmax _ E); lia).
    match goal with |- context [buffer_copy_1 _ ?x m] => change x with s' end.
    rewrite buffer_copy_1_pairs; [|done|done|].
    2: exact (copyable_incl _ _ _ _ _ Hc It Is).
    rewrite <- Ek. simpl mbind. cbv beta iota. by rewrite At, As, u64_small by lia.
  - intros x Hx. specialize (Hfit x Hx). lia.
  - clearbody s'. unfold const_buffer in *.
    destruct Hcut as [Hcut|Hcut]; [left; repeat case_decide; lia|].
    destruct (Z.le_gt_cases (size s') (size (buffer_plus t to))); [right|left].
    + rewrite Hcut. do 2 f_equal. lia.
    + repeat case_decide; lia.
Qed.

Lemma copy_sequences_pairs fuel ti to si so max total m :
  position_ok ti to -> position_ok si so ->
  copyable m (remaining ti to) (remaining si so) ->
  0 <= total -> (forall x, max = Some x -> total <= x) ->
  (length ti + length si + 1 < fuel)%nat ->
  total + Z.min (zlen (remaining ti to)) (zlen (remaining si so)) < 2 ^ 64 ->
  let ss := bounded max total (remaining si so) in
  copy_sequences fuel ti to si so max total m =
    Ret (total + Z.min (zlen (remaining ti to)) (zlen ss),
         copy_pairs m (zip (remaining ti to) ss)).
Proof.
  revert ti to si so total m.
  induction fuel as [|fuel IH]; intros ti to si so total m Ht Hs Hc Htot Hmax Hf Hlen; [lia|].
  cbv zeta. destruct (decide (max = Some total)) as [->|Hne].
  { rewrite copy_sequences_done, bounded_spent, zip_with_nil_r, zlen_nil.
    pose proof (zlen_nonneg (remaining ti to)). repeat f_equal. simpl. lia. }
  destruct ti as [|t ti].
  { simpl copy_sequences. rewrite bool_decide_false by done. destruct Ht as [_ ->].
    change (remaining [] 0) with (@nil Z). rewrite zlen_nil.
    pose proof (zlen_nonneg (bounded max total (remaining si so))).
    repeat f_equal. simpl. lia. }
  destruct si as [|s si].
  { simpl copy_sequences. rewrite bool_decide_false by done. destruct Hs as [_ ->].
    change (remaining [] 0) with (@nil Z). rewrite bounded_nil, zip_with_nil_r, zlen_nil.
    pose proof (zlen_nonneg (remaining (t :: ti) to)). repeat f_equal. simpl. lia. }
  unfold const_buffer in *.
  destruct (copy_sequences_round fuel t ti to s si so max total m Ht Hs Hc Htot)
    as (k & ti' & to' & si' & so' & ps & -> & Pt & Ps & Dt & Ds & Hk & Hmax2 & Hadv &
        Hcount & Hcopy); [|done|].
  { intros x E. specialize (Hmax x E). assert (x <> total) by congruence. lia. }
  pose proof (bounded_drop max total k (remaining (s :: si) so) (proj1 Hk) Hmax2) as Db.
  rewrite <- Hcount, Z.add_assoc, <- Hcopy, Db, <- Dt, <- Ds.
  destruct (decide (max = Some (total + k))) as [->|Hgo].
  { destruct fuel as [|fuel]; [simpl in Hf; lia|].
    rewrite copy_sequences_done, bounded_spent, zip_with_nil_r, zlen_nil.
    pose proof (zlen_nonneg (remaining ti' to')). f_equal. f_equal. simpl. lia. }
  apply IH; try done.
  - apply copyable_pairs. rewrite Dt, Ds.
    eapply copyable_incl; [exact Hc|apply drop_subseteq..].
  - lia.
  - destruct Hadv as [Hadv|Hadv]; [simpl in Hf; unfold const_buffer in *; lia|done].
  - rewrite Dt, Ds, !zlen_drop by lia. lia.
Qed.

(** ** Whole copies *)

Lemma zip_take_l {A B} n (l : list A) (k : list B) : zip (take n l) k = zip l (take n k).
Proof.
  revert l k; induction n as [|n IH]; intros [|x l] [|y k]; simpl; try done.
  by rewrite IH.
Qed.

Lemma zlen_take {A} (l : list A) n : 0 <= n -> zlen (take (Z.to_nat n) l) = Z.min n (zlen l).
Proof. unfold zlen. rewrite length_take. lia. Qed.

Lemma flatten_one b : flatten [b] = addresses b.
Proof. unfold flatten; simpl. by rewrite app_nil_r. Qed.

(** Every overload, bounded by [max]: the copy of the first [max] source bytes. *)
Lemma buffer_copy_max_pairs target source max m :
  let ts := flatten (elements target) in
  let ss := take (Z.to_nat max) (flatten (elements source)) in
  Forall buffer_wf (elements target) -> Forall buffer_wf (elements source) ->
  0 <= max < 2 ^ 64 -> zlen ts < 2 ^ 64 -> copyable m ts (flatten (elements source)) ->
  buffer_copy_max target source max m =
    Ret (Z.min (zlen ts) (zlen ss), copy_pairs m (zip ts ss)).
Proof.
  intros ts ss Wt Ws Hmax Hlen Hc. subst ts ss. rewrite zlen_take by lia.
  pose proof (copyable_incl _ _ _ _ _ Hc ltac:(done) (take_subseteq (Z.to_nat max) _)) as Hcs.
  pose proof (copyable_incl _ _ _ _ _ Hc (take_subseteq (Z.to_nat max) _) ltac:(done)) as Hct.
  destruct target as [t|ts], source as [s|ss]; simpl elements in *; simpl buffer_copy_max;
    rewrite ?flatten_one, ?Forall_singleton in *;
    try (pose proof (buffer_wf_max s max Ws ltac:(lia)); pose proof (zlen_addresses s Ws));
    try (pose proof (buffer_wf_max t max Wt ltac:(lia)); pose proof (zlen_addresses t Wt));
    rewrite <- ?addresses_buffer in * by lia.
  - unfold buffer_copy_one_one_max. rewrite buffer_copy_1_pairs by done.
    rewrite size_buffer. f_equal. f_equal. lia.
  - unfold buffer_copy_one_multiple.
    rewrite copy_sources_pairs by (try done; rewrite ?size_buffer; lia).
    rewrite size_buffer, addresses_buffer, zip_take_l by lia. f_equal. f_equal. lia.
  - unfold buffer_copy_multiple_one. pose proof (zlen_nonneg (flatten ts)).
    rewrite copy_targets_pairs by (try done; rewrite ?size_buffer; lia).
    rewrite size_buffer. f_equal. f_equal. lia.
  - unfold buffer_copy_multiple_multiple_max. change (flatten ts) with (remaining ts 0) in *.
    change (flatten ss) with (remaining ss 0) in *.
    rewrite copy_sequences_pairs; try done; try (by apply position_start).
    + simpl bounded. rewrite Z.sub_0_r, zlen_take by lia. done.
    + intros x [= <-]. lia.
    + unfold copy_fuel, const_buffer. lia.
    + lia.
Qed.

(** Without a bound the whole source is. *)
Lemma buffer_copy_pairs target source m :
  let ts := flatten (elements target) in
  let ss := flatten (elements source) in
  Forall buffer_wf (elements target) -> Forall buffer_wf (elements source) ->
  zlen ts < 2 ^ 64 -> zlen ss < 2 ^ 64 -> copyable m ts ss ->
  buffer_copy target source m = Ret (Z.min (zlen ts) (zlen ss), copy_pairs m (zip ts ss)).
Proof.
  intros ts ss Wt Ws Ht Hs Hc.
  assert (take (Z.to_nat size_max) ss = ss) as Hall
    by (apply take_ge; unfold zlen, size_max in *; lia).
  assert (buffer_copy_max target source size_max m =
    Ret (Z.min (zlen ts) (zlen ss), copy_pairs m (zip ts ss))) as Hmax.
  { rewrite buffer_copy_max_pairs by (try done; unfold size_max; lia).
    fold ts ss. by rewrite Hall. }
  destruct target as [t|ts'], source as [s|ss']; simpl buffer_copy_max in Hmax;
    simpl buffer_copy; try done.
  - subst ts ss; simpl elements in *. rewrite !flatten_one, !Forall_singleton in *.
    unfold buffer_copy_one_one. rewrite buffer_copy_1_pairs by done.
    by rewrite !zlen_addresses.
  - unfold buffer_copy_multiple_multiple. subst ts ss; simpl elements in *.
    change (flatten ts') with (remaining ts' 0) in *.
    change (flatten ss') with (remaining ss' 0) in *.
    rewrite copy_sequences_pairs; try done; try (by apply position_start).
    + unfold copy_fuel, const_buffer. lia.
    + lia.
Qed.

Lemma copy_pairs_contents m ts ss n :
  copyable m ts ss -> n = Z.min (zlen ts) (zlen ss) ->
  (forall a, a ∉ take (Z.to_nat n) ts -> copy_pairs m (zip ts ss) !! a = m !! a) /\
  (NoDup ts ->
   mapM (copy_pairs m (zip ts ss) !!.) (take (Z.to_nat n) ts) =
     mapM (m !!.) (take (Z.to_nat n) ss)).
Proof.
  intros Hc ->. unfold zlen in *.
  rewrite <- (zip_take_min (Z.to_nat (Z.min (Z.of_nat (length ts)) (Z.of_nat (length ss)))) ts ss) by lia.
  set (n := Z.to_nat _).
  destruct (copyable_incl _ _ _ _ _ Hc (take_subseteq n ts) (take_subseteq n ss))
    as (Mt & Ms & Hd).
  split; [intros a Ha; by apply copy_pairs_other|]. intros Hn.
  apply copy_pairs_load; try done.
  - rewrite <- (take_drop n ts) in Hn. by apply NoDup_app in Hn as [Hn _].
  - rewrite !length_take. lia.
Qed.

(** [buffer_copy(target, source, max_bytes_to_copy)] copies as many bytes
    as the target holds, the source has and the bound allows, whatever buffers
    the two sequences are cut into: the first bytes of the target become the
    first bytes of the source, and no other byte of memory changes. *)
Theorem buffer_copy_max_copies target source max m :
  let ts := flatten (elements target) in
  let ss := flatten (elements source) in
  Forall buffer_wf (elements target) -> Forall buffer_wf (elements source) ->
  0 <= max < 2 ^ 64 -> zlen ts < 2 ^ 64 -> copyable m ts ss ->
  let n := Z.min (Z.min (zlen ts) (zlen ss)) max in
  exists m',
    buffer_copy_max target source max m = Ret (n, m') /\
    (forall a, a ∉ take (Z.to_nat n) ts -> m' !! a = m !! a) /\
    (NoDup ts -> mapM (m' !!.) (take (Z.to_nat n) ts) = mapM (m !!.) (take (Z.to_nat n) ss)).
Proof.
  intros ts ss Wt Ws Hmax Hlen Hc n. subst ts ss.
  rewrite buffer_copy_max_pairs by done.
  set (ts := flatten (elements target)) in *. set (ss := flatten (elements source)) in *.
  assert (n = Z.min (zlen ts) (zlen (take (Z.to_nat max) ss))) as En
    by (rewrite zlen_take by lia; lia).
  destruct (copy_pairs_contents m ts (take (Z.to_nat max) ss) n) as [Ho Hl].
  { eapply copyable_incl; [exact Hc|done|apply take_subseteq]. }
  { done. }
  eexists. split; [by rewrite <- En|]. split; [done|]. intros Hn. rewrite (Hl Hn).
  rewrite take_take. do 2 f_equal. lia.
Qed.

(** Without a bound, [buffer_copy(target, source)] copies as many bytes as
    the target holds and the source has. *)
Theorem buffer_copy_copies target source m :
  let ts := flatten (elements target) in
  let ss := flatten (elements source) in
  Forall buffer_wf (elements target) -> Forall buffer_wf (elements source) ->
  zlen ts < 2 ^ 64 -> zlen ss < 2 ^ 64 -> copyable m ts ss ->
  let n := Z.min (zlen ts) (zlen ss) in
  exists m',
    buffer_copy target source m = Ret (n, m') /\
    (forall a, a ∉ take (Z.to_nat n) ts -> m' !! a = m !! a) /\
    (NoDup ts -> mapM (m' !!.) (take (Z.to_nat n) ts) = mapM (m !!.) (take (Z.to_nat n) ss)).
Proof.
  intros ts ss Wt Ws Ht Hs Hc n. subst ts ss.
  rewrite buffer_copy_pairs by done. eexists. split; [done|].
  by apply copy_pairs_contents.
Qed.

(** A memory of eight bytes. *)
Definition memory8 : memory :=
  list_to_map (zip (seqZ 0 8) (lit "abcdefgh")).

Definition seq_1 : list mutable_buffer := [mkBuffer 0 1; mkBuffer 1 0; mkBuffer 2 2].
Definition seq_2 : list mutable_buffer := [mkBuffer 4 3; mkBuffer 7 1].

Lemma memory8_copyable : copyable memory8 (flatten seq_1) (flatten seq_2).
Proof.
  split; [|split].
  - apply allocated_mapped. by vm_compute.
  - apply allocated_mapped. by vm_compute.
  - change (flatten seq_1) with [0; 2; 3]. change (flatten seq_2) with [4; 5; 6; 7].
    intros x. rewrite !elem_of_cons, elem_of_nil. lia.
Qed.

Lemma buffer_copy_max_copies_witness :
  exists m',
    buffer_copy_max (multiple_buffers seq_1) (multiple_buffers seq_2) 2 memory8 = Ret (2, m') /\
    load_bytes m' 0 8 = Some (lit "ebfdefgh") /\
    (forall a, a ∉ [0; 2] -> m' !! a = memory8 !! a).
Proof.
  destruct (buffer_copy_max_copies (multiple_buffers seq_1) (multiple_buffers seq_2) 2 memory8)
    as (m' & Hr & Ho & _).
  - by repeat constructor.
  - by repeat constructor.
  - done.
  - done.
  - apply memory8_copyable.
  - exists m'. split; [exact Hr|]. split; [|exact Ho].
    vm_compute in Hr. inversion Hr. by vm_compute.
Defined.

Lemma buffer_copy_copies_witness :
  exists m',
    buffer_copy (multiple_buffers seq_1) (multiple_buffers seq_2) memory8 = Ret (3, m') /\
    load_bytes m' 0 8 = Some (lit "ebfgefgh") /\
    (forall a, a ∉ [0; 2; 3] -> m' !! a = memory8 !! a).
Proof.
  destruct (buffer_copy_copies (multiple_buffers seq_1) (multiple_buffers seq_2) memory8)
    as (m' & Hr & Ho & _).
  - by repeat constructor.
  - by repeat constructor.
  - done.
  - done.
  - apply memory8_copyable.
  - exists m'. split; [exact Hr|]. split; [|exact Ho].
    vm_compute in Hr. inversion Hr. by vm_compute.
Defined.
