(* ===== verification/ConsumingBuffers.v ===== *)
(** [asio/detail/consuming_buffers.hpp] and
    [asio/detail/buffer_sequence_adapter.hpp]: the buffers an operation still has
    to transfer, and their translation into the vectors of the system's calls.

    The composed operations use a sequence of buffers through four operations,
    the class [ConsumingBuffers]; [ConsumingLaws] states what they promise, on
    the addresses that are left.  The code has one implementation for any
    sequence and others for one buffer and for two; each has the laws.  The
    specialisation for [null_buffers] is never empty and has no bytes: it is
    outside of the laws. *)

From S2P Require Import Prelude.
From S2P Require Import Buffers.

(** * Adapters *)

(** [max_buffers], 64 or [IOV_MAX]: the limit of Linux is 1024. *)
Definition max_iov_len : Z := 1024.
Definition max_buffers : Z := if 64 <? max_iov_len then 64 else max_iov_len.

(** [iovec]. *)
Record native_buffer_type := mkIovec {
  iov_base : Z;
  iov_len : Z
}.

Definition init_native_buffer (b : mutable_buffer) : native_buffer_type :=
  mkIovec (data b) (size b).

(** [buffers_] up to [count_], and [total_buffer_size_]. *)
Record buffer_sequence_adapter := mkAdapter {
  buffers : list native_buffer_type;
  total_size : Z
}.

Definition count (a : buffer_sequence_adapter) : Z := zlen (buffers a).

Fixpoint adapter_init (iter : list mutable_buffer) (a : buffer_sequence_adapter) :
    buffer_sequence_adapter :=
  match iter with
  | [] => a
  | b :: iter =>
      if count a <? max_buffers then
        adapter_init iter
          (mkAdapter (buffers a ++ [init_native_buffer b]) (u64 (total_size a + size b)))
      else a
  end.

(** [is_single_buffer]. *)
Definition is_single_buffer (s : buffer_sequence) : bool :=
  match s with
  | one_buffer _ => true
  | multiple_buffers _ => false
  end.

Definition new_adapter (s : buffer_sequence) : buffer_sequence_adapter :=
  match s with
  | one_buffer b => mkAdapter [init_native_buffer b] (size b)
  | multiple_buffers bs => adapter_init bs (mkAdapter [] 0)
  end.

(** [all_empty] of an adapter, and of a sequence. *)
Definition adapter_all_empty (a : buffer_sequence_adapter) : bool := total_size a =? 0.

Fixpoint all_empty_loop (iter : list mutable_buffer) (i : Z) : bool :=
  match iter with
  | [] => true
  | b :: iter =>
      if i <? max_buffers then
        if 0 <? size b then false else all_empty_loop iter (i + 1)
      else true
  end.

Definition all_empty (s : buffer_sequence) : bool :=
  match s with
  | one_buffer b => size b =? 0
  | multiple_buffers bs => all_empty_loop bs 0
  end.

Fixpoint first_loop (iter : list mutable_buffer) : mutable_buffer :=
  match iter with
  | [] => empty_buffer
  | b :: iter => if negb (size b =? 0) then b else first_loop iter
  end.

Definition first (s : buffer_sequence) : mutable_buffer :=
  match s with
  | one_buffer b => b
  | multiple_buffers bs => first_loop bs
  end.

(** [linearise]: one buffer with the bytes of the sequence, as far as [storage]
    goes; a first buffer that does is used as it is. *)
Fixpoint linearise_loop (storage : mutable_buffer) (iter : list mutable_buffer)
    (unused_storage : mutable_buffer) (m : memory) : outcome (mutable_buffer * memory) :=
  match iter with
  | [] => Ret (mkBuffer (data storage) (size storage - size unused_storage), m)
  | b :: iter =>
      if size unused_storage =? 0 then
        Ret (mkBuffer (data storage) (size storage - size unused_storage), m)
      else if size b =? 0 then linearise_loop storage iter unused_storage m
      else if (size unused_storage =? size storage)
           && (bool_decide (iter = []) || (size unused_storage <=? size b)) then Ret (b, m)
      else
        '(n, m) ← buffer_copy (one_buffer unused_storage) (one_buffer b) m;
        linearise_loop storage iter (buffer_plus unused_storage n) m
  end.

Definition linearise (s : buffer_sequence) (storage : mutable_buffer) (m : memory) :
    outcome (mutable_buffer * memory) :=
  match s with
  | one_buffer b => Ret (b, m)
  | multiple_buffers bs => linearise_loop storage bs storage m
  end.

(** * Consuming buffers *)

Class ConsumingBuffers (C : Type) := {
  empty : C -> bool;
  prepare : C -> Z -> buffer_sequence;
  consume : C -> Z -> C;
  total_consumed : C -> Z
}.

(** ** Any sequence *)

(** The number of elements of the prepared buffers, by the number of elements of
    the sequence when its type says it ([std::array]). *)
Definition prepared_buffers_max (elems : option Z) : Z :=
  match elems with
  | Some n => n
  | None => max_buffers
  end.

(** [prepared_buffers<Buffer, MaxBuffers>::max_buffers]. *)
Definition prepared_buffers (MaxBuffers : Z) : Z := if MaxBuffers <? 16 then MaxBuffers else 16.

Record consuming_buffers := mkConsuming {
  buffers_ : list mutable_buffer;
  elems_ : option Z;
  total_size_ : Z;
  total_consumed_ : Z;
  next_elem_ : nat;
  next_elem_offset_ : Z
}.

Definition new_consuming (elems : option Z) (bs : list mutable_buffer) : consuming_buffers :=
  mkConsuming bs elems (buffer_size (multiple_buffers bs)) 0 0 0.

(** The loop of [prepare]; [result] is [elems] up to [count]. *)
Fixpoint prepare_loop (next : list mutable_buffer) (elem_offset max_size max_elems : Z)
    (result : list mutable_buffer) : list mutable_buffer :=
  match next with
  | [] => result
  | b :: next =>
      if (0 <? max_size) && (zlen result <? max_elems) then
        let next_buf := buffer_plus b elem_offset in
        let elem := buffer next_buf max_size in
        prepare_loop next 0 (max_size - size elem) max_elems
          (if 0 <? size elem then result ++ [elem] else result)
      else result
  end.

Definition consuming_prepare (c : consuming_buffers) (max_size : Z) : buffer_sequence :=
  multiple_buffers
    (prepare_loop (drop (next_elem_ c) (buffers_ c)) (next_elem_offset_ c) max_size
       (prepared_buffers (prepared_buffers_max (elems_ c))) []).

(** The loop of [consume], with [next_elem_] and [next_elem_offset_]. *)
Fixpoint consume_loop (next : list mutable_buffer) (next_elem : nat) (next_elem_offset size' : Z) :
    nat * Z :=
  match next with
  | [] => (next_elem, next_elem_offset)
  | b :: next =>
      if 0 <? size' then
        let next_buf := buffer_plus b next_elem_offset in
        if size' <? size next_buf then (next_elem, u64 (next_elem_offset + size'))
        else consume_loop next (S next_elem) 0 (size' - size next_buf)
      else (next_elem, next_elem_offset)
  end.

Definition consuming_consume (c : consuming_buffers) (size' : Z) : consuming_buffers :=
  let '(next_elem, next_elem_offset) :=
    consume_loop (drop (next_elem_ c) (buffers_ c)) (next_elem_ c) (next_elem_offset_ c) size' in
  mkConsuming (buffers_ c) (elems_ c) (total_size_ c) (u64 (total_consumed_ c + size'))
    next_elem next_elem_offset.

Definition consuming_empty (c : consuming_buffers) : bool := total_size_ c <=? total_consumed_ c.

#[global] Instance consuming_buffers_ops : ConsumingBuffers consuming_buffers := {
  empty := consuming_empty;
  prepare := consuming_prepare;
  consume := consuming_consume;
  total_consumed := total_consumed_
}.

(** ** One buffer *)

Record consuming_single_buffer := mkSingle {
  single_buffer : mutable_buffer;
  single_consumed : Z
}.

Definition new_single (b : mutable_buffer) : consuming_single_buffer := mkSingle b 0.

Definition single_empty (c : consuming_single_buffer) : bool :=
  size (single_buffer c) <=? single_consumed c.

Definition single_prepare (c : consuming_single_buffer) (max_size : Z) : buffer_sequence :=
  one_buffer (buffer (buffer_plus (single_buffer c) (single_consumed c)) max_size).

Definition single_consume (c : consuming_single_buffer) (size' : Z) : consuming_single_buffer :=
  mkSingle (single_buffer c) (u64 (single_consumed c + size')).

#[global] Instance consuming_single_ops : ConsumingBuffers consuming_single_buffer := {
  empty := single_empty;
  prepare := single_prepare;
  consume := single_consume;
  total_consumed := single_consumed
}.

(** ** An array of two *)

Record consuming_array := mkArray {
  array_0 : mutable_buffer;
  array_1 : mutable_buffer;
  array_consumed : Z
}.

Definition new_array (b0 b1 : mutable_buffer) : consuming_array := mkArray b0 b1 0.

Definition array_empty (c : consuming_array) : bool :=
  u64 (size (array_0 c) + size (array_1 c)) <=? array_consumed c.

Definition array_prepare (c : consuming_array) (max_size : Z) : buffer_sequence :=
  let buffer0_size := size (array_0 c) in
  let result0 := buffer (buffer_plus (array_0 c) (array_consumed c)) max_size in
  let result1 :=
    buffer
      (buffer_plus (array_1 c)
         (if array_consumed c <? buffer0_size then 0 else array_consumed c - buffer0_size))
      (max_size - size result0) in
  multiple_buffers [result0; result1].

Definition array_consume (c : consuming_array) (size' : Z) : consuming_array :=
  mkArray (array_0 c) (array_1 c) (u64 (array_consumed c + size')).

#[global] Instance consuming_array_ops : ConsumingBuffers consuming_array := {
  empty := array_empty;
  prepare := array_prepare;
  consume := array_consume;
  total_consumed := array_consumed
}.

(** ** No buffer *)

(** [null_buffers]. *)
#[global] Instance null_buffers_ops : ConsumingBuffers unit := {
  empty _ := false;
  prepare _ _ := multiple_buffers [];
  consume c _ := c;
  total_consumed _ := 0
}.

(** * What the operations promise *)

Class ConsumingLaws (C : Type) `{ConsumingBuffers C} := {
  cb_ok : C -> Prop;
  cb_rest : C -> list Z;
  cb_empty c : cb_ok c -> empty c = true <-> cb_rest c = [];
  cb_total c : cb_ok c -> 0 <= total_consumed c;
  cb_prepare c n : cb_ok c -> 0 < n < 2 ^ 64 ->
    exists k,
      flatten (elements (prepare c n)) = take k (cb_rest c) /\
      Forall buffer_wf (elements (prepare c n)) /\
      (k <= Z.to_nat n)%nat /\ (cb_rest c <> [] -> 0 < k)%nat /\
      zlen (elements (prepare c n)) <= 16;
  cb_consume c k : cb_ok c -> 0 <= k <= zlen (cb_rest c) ->
    cb_ok (consume c k) /\
    cb_rest (consume c k) = drop (Z.to_nat k) (cb_rest c) /\
    total_consumed (consume c k) = total_consumed c + k
}.

(** ** One buffer *)

#[global, program] Instance consuming_single_laws : ConsumingLaws consuming_single_buffer := {
  cb_ok c := buffer_wf (single_buffer c) /\ 0 <= single_consumed c <= size (single_buffer c);
  cb_rest c := drop (Z.to_nat (single_consumed c)) (addresses (single_buffer c))
}.
Next Obligation.
  intros c (Hw & Hc); simpl. unfold single_empty. rewrite Z.leb_le.
  pose proof (zlen_addresses _ Hw) as Hl. unfold zlen in Hl.
  rewrite <- length_zero_iff_nil, length_drop. lia.
Qed.
Next Obligation. intros c (Hw & Hc); simpl. lia. Qed.
Next Obligation.
  intros c n (Hw & Hc) Hn; simpl. exists (Z.to_nat n).
  rewrite flatten_one, addresses_buffer, addresses_buffer_plus by (done || lia).
  split; [done|]. split; [|split; [lia|split; [lia|done]]].
  apply Forall_singleton, buffer_wf_max; [|lia]. apply buffer_plus_wf; [done|lia].
Qed.
Next Obligation.
  intros c k (Hw & Hc) Hk; simpl in *.
  rewrite zlen_drop, zlen_addresses in Hk by (rewrite ?zlen_addresses; done || lia).
  destruct Hw as [Hw1 Hw2]. rewrite u64_small by lia. split; [split; [done|lia]|].
  split; [|done]. rewrite drop_drop. f_equal. lia.
Qed.

(** ** An array of two *)

Lemma zlen_flatten_2 b0 b1 :
  buffer_wf b0 -> buffer_wf b1 -> zlen (flatten [b0; b1]) = size b0 + size b1.
Proof.
  intros H0' H1'. rewrite flatten_cons, flatten_one, zlen_app, !zlen_addresses by done. done.
Qed.

Lemma array_rest b0 b1 c :
  buffer_wf b0 -> buffer_wf b1 -> 0 <= c ->
  drop (Z.to_nat c) (flatten [b0; b1]) =
    addresses (buffer_plus b0 c) ++
    addresses (buffer_plus b1 (if c <? size b0 then 0 else c - size b0)).
Proof.
  intros W0 W1 Hc. rewrite flatten_cons, flatten_one, drop_app.
  rewrite !addresses_buffer_plus by (done || destruct (Z.ltb_spec c (size b0)); lia).
  f_equal. pose proof (zlen_addresses b0 W0) as Hl. unfold zlen in Hl.
  destruct (Z.ltb_spec c (size b0)); f_equal; lia.
Qed.

#[global, program] Instance consuming_array_laws : ConsumingLaws consuming_array := {
  cb_ok c := buffer_wf (array_0 c) /\ buffer_wf (array_1 c) /\
    size (array_0 c) + size (array_1 c) < 2 ^ 64 /\
    0 <= array_consumed c <= size (array_0 c) + size (array_1 c);
  cb_rest c := drop (Z.to_nat (array_consumed c)) (flatten [array_0 c; array_1 c])
}.
Next Obligation.
  intros c (W0 & W1 & Hs & Hc); simpl. unfold array_empty.
  pose proof (zlen_flatten_2 _ _ W0 W1) as Hl. unfold zlen, buffer_wf in *.
  rewrite u64_small, Z.leb_le, <- length_zero_iff_nil, length_drop by lia. lia.
Qed.
Next Obligation. intros c (W0 & W1 & Hs & Hc); simpl. lia. Qed.
Next Obligation.
  intros c n (W0 & W1 & Hs & Hc) Hn; cbn [prepare consuming_array_ops array_prepare elements].
  unfold array_prepare, elements. exists (Z.to_nat n).
  set (p := if array_consumed c <? size (array_0 c) then 0 else array_consumed c - size (array_0 c)).
  assert (0 <= p) by (subst p; destruct (Z.ltb_spec (array_consumed c) (size (array_0 c))); lia).
  pose proof (buffer_plus_wf _ (array_consumed c) W0 ltac:(lia)) as P0.
  pose proof (buffer_plus_wf _ p W1 ltac:(lia)) as P1.
  rewrite size_buffer. pose proof (zlen_addresses _ P0) as L0. unfold zlen, buffer_wf in L0, P0.
  split; [|split; [|split; [lia|split; [lia|done]]]].
  - rewrite flatten_cons, flatten_one, !addresses_buffer by lia.
    rewrite array_rest by (done || lia). rewrite take_app. f_equal. f_equal. lia.
  - repeat constructor; try apply buffer_wf_max; (done || lia).
Qed.
Next Obligation.
  intros c k (W0 & W1 & Hs & Hc) Hk; simpl in *. pose proof (zlen_flatten_2 _ _ W0 W1) as Hl.
  rewrite zlen_drop in Hk by lia. rewrite u64_small by (unfold buffer_wf in *; lia).
  split; [refine (conj W0 (conj W1 (conj Hs _))); lia|]. split; [|done]. rewrite drop_drop. f_equal. lia.
Qed.

(** ** Any sequence *)

Lemma prepared_elems_bound n : prepared_buffers n <= 16.
Proof. unfold prepared_buffers. destruct (Z.ltb_spec n 16); lia. Qed.

(** [prepare] keeps the elements it has and adds a prefix of what is left, which
    is empty only when nothing is left or wanted. *)
Lemma prepare_loop_prefix next off max_size max_elems result :
  position_ok next off -> 0 <= max_size < 2 ^ 64 -> zlen result <= max_elems ->
  exists k added,
    prepare_loop next off max_size max_elems result = result ++ added /\
    flatten added = take k (remaining next off) /\ Forall buffer_wf added /\
    (k <= Z.to_nat max_size)%nat /\ zlen (result ++ added) <= max_elems /\
    (0 < max_size -> zlen result < max_elems -> remaining next off <> [] -> (0 < k)%nat).
Proof.
  revert off max_size result.
  induction next as [|b next IH]; intros off max_size result Hp Hm Hr;
    cbn [prepare_loop]; cbv zeta.
  { exists O, []. rewrite app_nil_r. destruct Hp as [_ ->]. split_and!; (done || lia || constructor). }
  destruct (Z.ltb_spec 0 max_size), (Z.ltb_spec (zlen result) max_elems); simpl andb; cbv iota;
    try (exists O, []; rewrite app_nil_r; split_and!; [done|done|constructor|lia|lia|lia]).
  pose proof Hp as [Hw Ho]. apply Forall_cons in Hw as [Hb Hw].
  rewrite (remaining_cons _ _ _ Hp). set (nb := buffer_plus b off).
  pose proof (buffer_plus_wf b off Hb (proj1 Ho)) as Wn. fold nb in Wn.
  pose proof (zlen_addresses _ Wn) as Ln. unfold zlen in Ln.
  set (el := buffer nb max_size). pose proof (size_buffer nb max_size) as Es. fold el in Es.
  assert (addresses el = take (Z.to_nat max_size) (addresses nb)) as Ea
    by (apply addresses_buffer; lia).
  assert (buffer_wf el) as We by (apply buffer_wf_max; (done || lia)).
  unfold buffer_wf in Wn, We.
  set (result' := if 0 <? size el then result ++ [el] else result).
  assert (zlen result' <= max_elems) as Hr'.
  { subst result'. destruct (Z.ltb_spec 0 (size el)); [|lia].
    rewrite zlen_app, zlen_cons, zlen_nil. lia. }
  fold nb el result'.
  destruct (IH 0 (max_size - size el) result' (position_start _ Hw) ltac:(lia) Hr')
    as (k & added & -> & Hf & Ha & Hk & Hlen & Hpos).
  change (remaining next 0) with (flatten next) in *.
  exists (Z.to_nat (size el) + k)%nat, (if 0 <? size el then el :: added else added).
  subst result'. destruct (Z.ltb_spec 0 (size el)) as [Hel|Hel].
  - rewrite <- app_assoc in *. simpl app in *. split_and!; try done; try lia; [|by constructor].
    rewrite flatten_cons, Hf, Ea, take_app. f_equal; [|f_equal; lia].
    destruct (Z.le_gt_cases (size nb) max_size); [by rewrite !take_ge by lia|f_equal; lia].
  - assert (size nb = 0) as En by lia. unfold addresses at 1 2. rewrite En.
    change (seqZ (data nb) 0) with (@nil Z). rewrite !app_nil_l. clearbody el nb.
    replace (Z.to_nat (size el) + k)%nat with k by lia.
    split_and!; try done; [lia|]. intros _ Hz Hne. apply Hpos; [lia|done|done].
Qed.

(** [consume] moves to the address that many bytes further. *)
Lemma consume_loop_position next elem off k :
  position_ok next off -> 0 <= k <= zlen (remaining next off) ->
  exists n off',
    consume_loop next elem off k = ((elem + n)%nat, off') /\
    position_ok (drop n next) off' /\
    remaining (drop n next) off' = drop (Z.to_nat k) (remaining next off).
Proof.
  revert elem off k. induction next as [|b next IH]; intros elem off k Hp Hk;
    cbn [consume_loop]; cbv zeta.
  { exists O, off. rewrite Nat.add_0_r. split; [done|]. split; [done|].
    destruct Hp as [_ ->]. unfold remaining; simpl. by rewrite drop_nil. }
  pose proof Hp as [Hw Ho]. apply Forall_cons in Hw as [Hb Hw].
  destruct (Z.ltb_spec 0 k).
  2: { exists O, off. rewrite Nat.add_0_r. split; [done|]. split; [done|].
       by replace (Z.to_nat k) with O by lia. }
  rewrite (remaining_cons _ _ _ Hp) in *. set (nb := buffer_plus b off) in *.
  pose proof (buffer_plus_wf b off Hb (proj1 Ho)) as Wn. fold nb in Wn.
  pose proof (zlen_addresses _ Wn) as Ln.
  pose proof (size_buffer_plus b off Ho) as Sn. fold nb in Sn. unfold buffer_wf in Hb.
  destruct (Z.ltb_spec k (size nb)).
  - exists O, (off + k). rewrite Nat.add_0_r, u64_small by lia. split; [done|].
    change (drop 0 (b :: next)) with (b :: next). split; [split; [by constructor|lia]|].
    subst nb. rewrite <- (remaining_cons _ _ _ Hp). unfold remaining. rewrite drop_drop. f_equal. lia.
  - rewrite zlen_app in Hk. unfold buffer_wf in Wn.
    destruct (IH (S elem) 0 (k - size nb) (position_start _ Hw)) as (n & off' & -> & Hp' & Hr).
    { change (remaining next 0) with (flatten next). lia. }
    exists (S n), off'. split; [f_equal; lia|].
    change (drop (S n) (b :: next)) with (drop n next). split; [done|].
    rewrite Hr. change (remaining next 0) with (flatten next).
    unfold zlen in Ln. rewrite drop_app_ge by lia. f_equal. lia.
Qed.

(** The members of a sequence being consumed agree. *)
Definition consuming_ok (c : consuming_buffers) : Prop :=
  Forall buffer_wf (buffers_ c) /\
  zlen (flatten (buffers_ c)) < 2 ^ 64 /\
  (forall n, elems_ c = Some n -> n = zlen (buffers_ c)) /\
  total_size_ c = zlen (flatten (buffers_ c)) /\
  position_ok (drop (next_elem_ c) (buffers_ c)) (next_elem_offset_ c) /\
  remaining (drop (next_elem_ c) (buffers_ c)) (next_elem_offset_ c) =
    drop (Z.to_nat (total_consumed_ c)) (flatten (buffers_ c)) /\
  0 <= total_consumed_ c <= total_size_ c.

Definition consuming_rest (c : consuming_buffers) : list Z :=
  drop (Z.to_nat (total_consumed_ c)) (flatten (buffers_ c)).

Lemma prepared_room c :
  consuming_ok c -> consuming_rest c <> [] ->
  0 < prepared_buffers (prepared_buffers_max (elems_ c)).
Proof.
  intros (_ & _ & He & _) Hne. unfold prepared_buffers, prepared_buffers_max.
  destruct (elems_ c) as [n|]; [|done].
  rewrite (He n eq_refl). unfold consuming_rest in Hne.
  destruct (buffers_ c) as [|b bs]; [by unfold flatten in Hne; simpl in Hne; rewrite drop_nil in Hne|].
  rewrite zlen_cons. pose proof (zlen_nonneg bs). case_match; lia.
Qed.

Lemma prepared_nonneg c :
  consuming_ok c -> 0 <= prepared_buffers (prepared_buffers_max (elems_ c)).
Proof.
  intros (_ & _ & He & _). unfold prepared_buffers, prepared_buffers_max.
  destruct (elems_ c) as [n|]; [|done].
  rewrite (He n eq_refl). pose proof (zlen_nonneg (buffers_ c)). case_match; lia.
Qed.

#[global, program] Instance consuming_buffers_laws : ConsumingLaws consuming_buffers := {
  cb_ok := consuming_ok;
  cb_rest := consuming_rest
}.
Next Obligation.
  intros c (Hw & Hs & He & Ht & Hp & Hr & Hc); simpl. unfold consuming_empty, consuming_rest.
  rewrite Z.leb_le, <- length_zero_iff_nil, length_drop. unfold zlen in Ht. lia.
Qed.
Next Obligation. intros c Hok; simpl. apply Hok. Qed.
Next Obligation.
  intros c n Hok Hn; cbn [prepare consuming_buffers_ops]; unfold consuming_prepare, elements.
  pose proof Hok as (Hw & Hs & He & Ht & Hp & Hr & Hc).
  destruct (prepare_loop_prefix (drop (next_elem_ c) (buffers_ c)) (next_elem_offset_ c) n
    (prepared_buffers (prepared_buffers_max (elems_ c))) [] Hp ltac:(lia)
    (prepared_nonneg c Hok)) as (k & added & -> & Hf & Ha & Hk & Hlen & Hpos).
  rewrite Hr in Hf, Hpos. fold (consuming_rest c) in Hf, Hpos. simpl app in *.
  exists k. split_and!; try done.
  - intros Hne. apply Hpos; [lia| |done]. rewrite zlen_nil. by apply prepared_room.
  - pose proof (prepared_elems_bound (prepared_buffers_max (elems_ c))). lia.
Qed.
Next Obligation.
  intros c k Hok Hk; cbn [consume total_consumed consuming_buffers_ops].
  pose proof Hok as (Hw & Hs & He & Ht & Hp & Hr & Hc).
  unfold consuming_rest in Hk. pose proof Hk as Hk'. rewrite zlen_drop in Hk' by lia.
  rewrite <- Hr in Hk. unfold consuming_consume.
  destruct (consume_loop_position _ (next_elem_ c) _ k Hp Hk) as (n & off' & -> & Hp' & Hr').
  rewrite drop_drop in Hp', Hr'. rewrite Hr, drop_drop in Hr'.
  rewrite <- Z2Nat.inj_add in Hr' by lia.
  unfold consuming_ok, consuming_rest; cbn [buffers_ elems_ total_size_ total_consumed_
    next_elem_ next_elem_offset_]. rewrite u64_small by lia.
  split; [|split; [|done]].
  - refine (conj Hw (conj Hs (conj He (conj Ht (conj Hp' (conj Hr' _)))))). lia.
  - rewrite drop_drop, Z2Nat.inj_add by lia. done.
Qed.

(** * Sequences of transfers *)

Definition sum_Z (ks : list Z) : Z := foldr Z.add 0 ks.

Lemma sum_Z_nonneg ks : Forall (Z.le 0) ks -> 0 <= sum_Z ks.
Proof. induction 1; simpl; lia. Qed.

Lemma consume_many {C} `{ConsumingLaws C} (c : C) ks :
  cb_ok c -> Forall (Z.le 0) ks -> sum_Z ks <= zlen (cb_rest c) ->
  cb_ok (foldl consume c ks) /\
  cb_rest (foldl consume c ks) = drop (Z.to_nat (sum_Z ks)) (cb_rest c) /\
  total_consumed (foldl consume c ks) = total_consumed c + sum_Z ks.
Proof.
  intros Hc Hks; revert c Hc.
  induction Hks as [|k ks Hk Hks IH]; intros c Hc Hs; simpl in *.
  { rewrite Z.add_0_r. by simpl. }
  pose proof (sum_Z_nonneg ks Hks).
  destruct (cb_consume c k Hc ltac:(lia)) as (Hc' & Hr & Ht).
  destruct (IH (consume c k) Hc') as (Hc2 & Hr2 & Ht2).
  { rewrite Hr, zlen_drop by lia. lia. }
  split; [done|]. rewrite Hr2, Hr, Ht2, Ht, drop_drop. split; [f_equal; lia|lia].
Qed.

Lemma new_consuming_ok elems bs :
  Forall buffer_wf bs -> zlen (flatten bs) < 2 ^ 64 ->
  (forall n, elems = Some n -> n = zlen bs) -> consuming_ok (new_consuming elems bs).
Proof.
  intros Hw Hs He. pose proof (zlen_nonneg (flatten bs)).
  pose proof (buffer_size_flatten (multiple_buffers bs) Hw Hs) as Ht.
  unfold consuming_ok, new_consuming. cbn [buffers_ elems_ total_size_ total_consumed_
    next_elem_ next_elem_offset_]. rewrite Ht. cbn [elements].
  refine (conj Hw (conj Hs (conj He (conj eq_refl (conj (position_start _ Hw) (conj eq_refl _)))))). lia.
Qed.

(** After any transfers [ks] that fit, the next transfer of at most [n]
    bytes is prepared from the bytes just after those transferred: a prefix of
    them no longer than [n], which is empty only when nothing is left, in at most
    16 buffers; and the sequence is at its end just when everything was
    transferred. *)
Theorem consuming_buffers_prepared elems bs ks n
    (Hw : Forall buffer_wf bs) (Hs : zlen (flatten bs) < 2 ^ 64)
    (He : forall n, elems = Some n -> n = zlen bs)
    (Hks : Forall (Z.le 0) ks) (Hfit : sum_Z ks <= zlen (flatten bs)) (Hn : 0 < n < 2 ^ 64) :
  let c := foldl consume (new_consuming elems bs) ks in
  total_consumed c = sum_Z ks /\
  (empty c = true <-> sum_Z ks = zlen (flatten bs)) /\
  zlen (elements (prepare c n)) <= 16 /\
  exists k,
    flatten (elements (prepare c n)) = take k (drop (Z.to_nat (sum_Z ks)) (flatten bs)) /\
    (k <= Z.to_nat n)%nat /\ (sum_Z ks < zlen (flatten bs) -> (0 < k)%nat).
Proof.
  assert (cb_ok (new_consuming elems bs)) as Hc by (by apply new_consuming_ok).
  assert (cb_rest (new_consuming elems bs) = flatten bs) as Hr0 by done.
  destruct (consume_many (new_consuming elems bs) ks Hc Hks) as (Hc' & Hr & Ht);
    [by rewrite Hr0|].
  rewrite Hr0 in Hr. intros c. fold c in Hc', Hr, Ht.
  pose proof (sum_Z_nonneg ks Hks).
  assert (cb_rest c = [] <-> sum_Z ks = zlen (flatten bs)) as Hend.
  { rewrite Hr, <- length_zero_iff_nil, length_drop. unfold zlen in *. lia. }
  split; [exact Ht|]. split; [rewrite <- Hend; by apply cb_empty|].
  destruct (cb_prepare c n Hc' Hn) as (k & Hf & _ & Hk & Hpos & Hcount).
  split; [done|]. exists k. rewrite <- Hr. split; [done|]. split; [done|].
  intros Hlt. apply Hpos. rewrite Hend. lia.
Qed.

Lemma consuming_buffers_prepared_witness :
  let c := foldl consume (new_consuming None [mkBuffer 0 3; mkBuffer 8 0; mkBuffer 4 2]) [1; 1] in
  prepare c 2 = multiple_buffers [mkBuffer 2 1; mkBuffer 4 1] /\
  exists k, flatten (elements (prepare c 2)) = take k [2; 4; 5] /\ (0 < k)%nat.
Proof.
  split; [by vm_compute|].
  destruct (consuming_buffers_prepared None [mkBuffer 0 3; mkBuffer 8 0; mkBuffer 4 2] [1; 1] 2)
    as (_ & _ & _ & k & Hk & _ & Hpos).
  - by repeat constructor.
  - done.
  - done.
  - by repeat constructor.
  - by vm_compute.
  - done.
  - exists k. split; [exact Hk|]. apply Hpos. by vm_compute.
Defined.
