(* ===== verification/SocketOps.v ===== *)
(** [asio/detail/impl/socket_ops.ipp]: the wrappers around the socket calls of
    the operating system, as they are compiled for Linux.

    A wrapper is a function of the answers the system gives: it runs on a trace
    of calls with their answers, and its calls must be those of the trace, in
    order.  It is undefined ([None]) on a trace it does not follow, or that ends
    before it returns.  The error code is a parameter passed by reference; here
    it is taken and returned. *)

From S2P Require Import Prelude.
From S2P Require Import ObjectRepr.
From S2P Require Import AsioError.

(** * Calls of the system *)

Inductive sys_call :=
  | SysAccept (s : Z) (addrlen : option Z)
  | SysBind (s : Z) (addr : bytes)
  | SysClose (s : Z)
  | SysIoctl (s cmd arg : Z)
  | SysShutdown (s what : Z)
  | SysConnect (s : Z) (addr : bytes)
  | SysSocket (af type protocol : Z)
  | SysSocketpair (af type protocol : Z)
  | SysListen (s backlog : Z)
  | SysRecv (s : Z) (size : nat) (flags : Z)
  | SysRecvmsg (s : Z) (bufs : list nat) (flags : Z)
  | SysSend (s : Z) (data : bytes) (flags : Z)
  | SysSendmsg (s : Z) (bufs : list bytes) (flags : Z)
  | SysSetsockopt (s level optname : Z) (optval : bytes)
  | SysGetsockopt (s level optname optlen : Z)
  | SysGetpeername (s addrlen : Z)
  | SysGetsockname (s addrlen : Z)
  | SysPoll (s events timeout : Z).

#[global] Instance sys_call_eq_dec : EqDecision sys_call.
Proof. solve_decision. Defined.

(** The value returned, [errno], the bytes the call stored in memory, and the
    number it stored (a length, an [ioctl] argument). *)
Record answer := mkAnswer {
  an_result : Z;
  an_errno : Z;
  an_data : bytes;
  an_value : Z
}.

Abbreviation sys_trace := (list (sys_call * answer)).

(** * Programs over a trace *)

Definition sys (A : Type) : Type := sys_trace -> option (A * sys_trace).

#[global] Instance sys_ret : MRet sys := fun A a t => Some (a, t).

#[global] Instance sys_bind : MBind sys := fun A B f m t =>
  match m t with
  | Some (a, t) => f a t
  | None => None
  end.

Definition syscall (c : sys_call) : sys answer := fun t =>
  match t with
  | (c', a) :: t => if decide (c = c') then Some (a, t) else None
  | [] => None
  end.

(** [for (;;)]: the body goes round again with [inl], returns with [inr].  The
    rounds are bounded by the calls of the trace: a body makes at least one. *)
Fixpoint loop_fuel {S A} (fuel : nat) (body : S -> sys (S + A)) (s : S) : sys A := fun t =>
  match fuel with
  | O => None
  | Datatypes.S fuel =>
      match body s t with
      | Some (inl s, t) => loop_fuel fuel body s t
      | Some (inr a, t) => Some (a, t)
      | None => None
      end
  end.

Definition loop {S A} (body : S -> sys (S + A)) (s : S) : sys A := fun t =>
  loop_fuel (Datatypes.S (length t)) body s t.

(** * Constants *)

Definition invalid_socket : Z := -1.
Definition socket_error_retval : Z := -1.

(** The bits of [state_type]. *)
Definition user_set_non_blocking : Z := 1.
Definition internal_non_blocking : Z := 2.
Definition non_blocking : Z := Z.lor user_set_non_blocking internal_non_blocking.
Definition enable_connection_aborted : Z := 4.
Definition user_set_linger : Z := 8.
Definition stream_oriented : Z := 16.
Definition datagram_oriented : Z := 32.
Definition possible_dup : Z := 64.

(** [state & flag], [state |= flag] and [state &= ~flag] of an [unsigned char]. *)
Definition has (state flag : Z) : bool := negb (Z.land state flag =? 0).
Definition set_flag (state flag : Z) : Z := Z.lor state flag.
Definition clear_flag (state flag : Z) : Z := Z.ldiff state flag.

Definition EPROTO : Z := 71.
Definition ENOTTY : Z := 25.
Definition AF_UNIX : Z := 1.
Definition FIONBIO : Z := 0x5421.
Definition FIONREAD : Z := 0x541B.
Definition SIOCATMARK : Z := 0x8905.
Definition SOL_SOCKET : Z := 1.
Definition SO_ERROR : Z := 4.
Definition SO_SNDBUF : Z := 7.
Definition SO_RCVBUF : Z := 8.
Definition SO_LINGER : Z := 13.
Definition POLLIN : Z := 1.
Definition POLLPRI : Z := 2.
Definition POLLOUT : Z := 4.
Definition POLLERR : Z := 8.
Definition POLLHUP : Z := 16.
Definition MSG_NOSIGNAL : Z := 0x4000.
Definition sizeof_int : Z := 4.
Definition custom_socket_option_level : Z := s32 0xA5100000.
Definition enable_connection_aborted_option : Z := 1.
Definition always_fail_option : Z := 2.

(** * The wrappers *)

Definition get_last_error (ec : error_code) (is_error_condition : bool) (errno : Z) :
    error_code :=
  if negb is_error_condition then ec_clear ec else mk_error_code errno system_category.

(** [ec == asio::error::would_block || ec == asio::error::try_again]. *)
Definition is_blocking (ec : error_code) : bool :=
  bool_decide (ec = would_block) || bool_decide (ec = try_again).

(** ** Accepting *)

Definition call_accept (s : Z) (addrlen : option Z) : sys (answer * option Z) :=
  a ← syscall (SysAccept s addrlen);
  mret (a, (fun _ => an_value a) <$> addrlen).

Definition accept (s : Z) (addrlen : option Z) (ec : error_code) :
    sys (Z * option Z * error_code) :=
  if s =? invalid_socket then mret (invalid_socket, addrlen, bad_descriptor)
  else
    '(a, addrlen) ← call_accept s addrlen;
    let new_s := an_result a in
    let ec := get_last_error ec (new_s =? invalid_socket) (an_errno a) in
    if new_s =? invalid_socket then mret (new_s, addrlen, ec)
    else mret (new_s, addrlen, ec_clear ec).

(** The errors that mean that a connection went away before it was accepted. *)
Definition is_aborted (ec : error_code) : bool :=
  bool_decide (ec = connection_aborted) || (ec_value ec =? EPROTO).

(** ** Waiting *)

Definition poll_call (s events timeout : Z) (state : Z) (ec : error_code) :
    sys (Z * error_code) :=
  a ← syscall (SysPoll s events timeout);
  let result := an_result a in
  let ec := get_last_error ec (result <? 0) (an_errno a) in
  let ec := if (result =? 0) && has state user_set_non_blocking then would_block else ec in
  mret (result, ec).

Definition poll_read (s state msec : Z) (ec : error_code) : sys (Z * error_code) :=
  if s =? invalid_socket then mret (socket_error_retval, bad_descriptor)
  else
    let timeout := if has state user_set_non_blocking then 0 else msec in
    poll_call s POLLIN timeout state ec.

Definition poll_write (s state msec : Z) (ec : error_code) : sys (Z * error_code) :=
  if s =? invalid_socket then mret (socket_error_retval, bad_descriptor)
  else
    let timeout := if has state user_set_non_blocking then 0 else msec in
    poll_call s POLLOUT timeout state ec.

Definition poll_error (s state msec : Z) (ec : error_code) : sys (Z * error_code) :=
  if s =? invalid_socket then mret (socket_error_retval, bad_descriptor)
  else
    let timeout := if has state user_set_non_blocking then 0 else msec in
    poll_call s (Z.lor (Z.lor POLLPRI POLLERR) POLLHUP) timeout state ec.

Definition poll_connect (s msec : Z) (ec : error_code) : sys (Z * error_code) :=
  if s =? invalid_socket then mret (socket_error_retval, bad_descriptor)
  else
    a ← syscall (SysPoll s POLLOUT msec);
    mret (an_result a, get_last_error ec (an_result a <? 0) (an_errno a)).

Definition sync_accept (s state : Z) (addrlen : option Z) (ec : error_code) :
    sys (Z * option Z * error_code) :=
  loop (fun '(addrlen, ec) =>
    '(new_socket, addrlen, ec) ← accept s addrlen ec;
    if negb (new_socket =? invalid_socket) then mret (inr (new_socket, addrlen, ec))
    else
      let fall_through :=
        '(result, ec) ← poll_read s 0 (-1) ec;
        if result <? 0 then mret (inr (invalid_socket, addrlen, ec))
        else mret (inl (addrlen, ec)) in
      if is_blocking ec then
        if has state user_set_non_blocking then mret (inr (invalid_socket, addrlen, ec))
        else fall_through
      else if is_aborted ec then
        if has state enable_connection_aborted then mret (inr (invalid_socket, addrlen, ec))
        else fall_through
      else mret (inr (invalid_socket, addrlen, ec))) (addrlen, ec).

(** The result is whether the operation is over. *)
Definition non_blocking_accept (s state : Z) (addrlen : option Z) (ec : error_code) :
    sys (bool * Z * option Z * error_code) :=
  loop (fun '(addrlen, ec) =>
    '(new_socket, addrlen, ec) ← accept s addrlen ec;
    if negb (new_socket =? invalid_socket) then mret (inr (true, new_socket, addrlen, ec))
    else if bool_decide (ec = interrupted) then mret (inl (addrlen, ec))
    else if is_blocking ec then mret (inr (false, new_socket, addrlen, ec))
    else if is_aborted ec then
      if has state enable_connection_aborted then mret (inr (true, new_socket, addrlen, ec))
      else mret (inr (false, new_socket, addrlen, ec))
    else mret (inr (true, new_socket, addrlen, ec))) (addrlen, ec).

(** ** Options *)

Definition setsockopt (s state level optname : Z) (optval : bytes) (ec : error_code) :
    sys (Z * Z * error_code) :=
  if s =? invalid_socket then mret (socket_error_retval, state, bad_descriptor)
  else if (level =? custom_socket_option_level) && (optname =? always_fail_option) then
    mret (socket_error_retval, state, invalid_argument)
  else if (level =? custom_socket_option_level)
       && (optname =? enable_connection_aborted_option) then
    if negb (zlen optval =? sizeof_int) then
      mret (socket_error_retval, state, invalid_argument)
    else
      let state :=
        if negb (le_decode optval =? 0) then set_flag state enable_connection_aborted
        else clear_flag state enable_connection_aborted in
      mret (0, state, ec_clear ec)
  else
    let state :=
      if (level =? SOL_SOCKET) && (optname =? SO_LINGER) then set_flag state user_set_linger
      else state in
    a ← syscall (SysSetsockopt s level optname optval);
    mret (an_result a, state, get_last_error ec (negb (an_result a =? 0)) (an_errno a)).

(** The value and its length after the call, with the result; [optval] is the
    memory it is stored in. *)
Definition getsockopt (s state level optname : Z) (optval : bytes) (optlen : Z)
    (ec : error_code) : sys (Z * bytes * Z * error_code) :=
  if s =? invalid_socket then mret (socket_error_retval, optval, optlen, bad_descriptor)
  else if (level =? custom_socket_option_level) && (optname =? always_fail_option) then
    mret (socket_error_retval, optval, optlen, invalid_argument)
  else if (level =? custom_socket_option_level)
       && (optname =? enable_connection_aborted_option) then
    if negb (optlen =? sizeof_int) then
      mret (socket_error_retval, optval, optlen, invalid_argument)
    else
      let value := if has state enable_connection_aborted then 1 else 0 in
      mret (0, std_copy (le_encode 4 value) optval, optlen, ec_clear ec)
  else
    a ← syscall (SysGetsockopt s level optname optlen);
    let result := an_result a in
    let optlen := an_value a in
    let optval := std_copy (an_data a) optval in
    let ec := get_last_error ec (negb (result =? 0)) (an_errno a) in
    let optval :=
      if (result =? 0) && (level =? SOL_SOCKET) && (optlen =? sizeof_int)
         && ((optname =? SO_SNDBUF) || (optname =? SO_RCVBUF))
      then std_copy (le_encode 4 (Z.quot (s32 (le_field 4 optval)) 2)) optval
      else optval in
    mret (result, optval, optlen, ec).

(** ** Modes *)

(** The [ioctl] that sets the mode of the descriptor, with its error. *)
Definition ioctl_mode (s : Z) (value : bool) (ec : error_code) : sys (Z * error_code) :=
  a ← syscall (SysIoctl s FIONBIO (if value then 1 else 0));
  mret (an_result a, get_last_error ec (an_result a <? 0) (an_errno a)).

Definition set_user_non_blocking (s state : Z) (value : bool) (ec : error_code) :
    sys (bool * Z * error_code) :=
  if s =? invalid_socket then mret (false, state, bad_descriptor)
  else
    '(result, ec) ← ioctl_mode s value ec;
    if 0 <=? result then
      let state :=
        if value then set_flag state user_set_non_blocking
        else clear_flag state (Z.lor user_set_non_blocking internal_non_blocking) in
      mret (true, state, ec)
    else mret (false, state, ec).

Definition set_internal_non_blocking (s state : Z) (value : bool) (ec : error_code) :
    sys (bool * Z * error_code) :=
  if s =? invalid_socket then mret (false, state, bad_descriptor)
  else if negb value && has state user_set_non_blocking then
    mret (false, state, invalid_argument)
  else
    '(result, ec) ← ioctl_mode s value ec;
    if 0 <=? result then
      let state :=
        if value then set_flag state internal_non_blocking
        else clear_flag state internal_non_blocking in
      mret (true, state, ec)
    else mret (false, state, ec).

(** [arg] is read and written; the result, the state, the argument, the error. *)
Definition ioctl (s state cmd arg : Z) (ec : error_code) : sys (Z * Z * Z * error_code) :=
  if s =? invalid_socket then mret (socket_error_retval, state, arg, bad_descriptor)
  else
    a ← syscall (SysIoctl s cmd arg);
    let result := an_result a in
    let arg := an_value a in
    let ec := get_last_error ec (result <? 0) (an_errno a) in
    let state :=
      if (0 <=? result) && (cmd =? FIONBIO) then
        if negb (arg =? 0) then set_flag state user_set_non_blocking
        else clear_flag state (Z.lor user_set_non_blocking internal_non_blocking)
      else state in
    mret (result, state, arg, ec).

(** ** Opening, naming and closing *)

Definition socket (af type protocol : Z) (ec : error_code) : sys (Z * error_code) :=
  a ← syscall (SysSocket af type protocol);
  mret (an_result a, get_last_error ec (an_result a <? 0) (an_errno a)).

(** The two descriptors are the answer's data and value. *)
Definition socketpair (af type protocol : Z) (ec : error_code) : sys (Z * error_code) :=
  a ← syscall (SysSocketpair af type protocol);
  mret (an_result a, get_last_error ec (negb (an_result a =? 0)) (an_errno a)).

Definition bind (s : Z) (addr : bytes) (ec : error_code) : sys (Z * error_code) :=
  if s =? invalid_socket then mret (socket_error_retval, bad_descriptor)
  else
    a ← syscall (SysBind s addr);
    mret (an_result a, get_last_error ec (negb (an_result a =? 0)) (an_errno a)).

Definition listen (s backlog : Z) (ec : error_code) : sys (Z * error_code) :=
  if s =? invalid_socket then mret (socket_error_retval, bad_descriptor)
  else
    a ← syscall (SysListen s backlog);
    mret (an_result a, get_last_error ec (negb (an_result a =? 0)) (an_errno a)).

Definition shutdown (s what : Z) (ec : error_code) : sys (Z * error_code) :=
  if s =? invalid_socket then mret (socket_error_retval, bad_descriptor)
  else
    a ← syscall (SysShutdown s what);
    mret (an_result a, get_last_error ec (negb (an_result a =? 0)) (an_errno a)).

(** [struct linger] with both members zero. *)
Definition linger_off : bytes := replicate 8 Byte.x00.

Definition close (s state : Z) (destruction : bool) (ec : error_code) :
    sys (Z * Z * error_code) :=
  if s =? invalid_socket then mret (0, state, ec)
  else
    state ←
      (if destruction && has state user_set_linger then
         '(_, state, _) ← setsockopt s state SOL_SOCKET SO_LINGER linger_off ec_success;
         mret state
       else mret state);
    a ← syscall (SysClose s);
    let result := an_result a in
    let ec := get_last_error ec (negb (result =? 0)) (an_errno a) in
    if negb (result =? 0) && is_blocking ec then
      _ ← syscall (SysIoctl s FIONBIO 0);
      let state := clear_flag state non_blocking in
      a ← syscall (SysClose s);
      mret (an_result a, state, get_last_error ec (negb (an_result a =? 0)) (an_errno a))
    else mret (result, state, ec).

Definition getpeername (s addrlen : Z) (ec : error_code) :
    sys (Z * bytes * Z * error_code) :=
  if s =? invalid_socket then mret (socket_error_retval, [], addrlen, bad_descriptor)
  else
    a ← syscall (SysGetpeername s addrlen);
    mret (an_result a, an_data a, an_value a,
          get_last_error ec (negb (an_result a =? 0)) (an_errno a)).

Definition getsockname (s addrlen : Z) (ec : error_code) :
    sys (Z * bytes * Z * error_code) :=
  if s =? invalid_socket then mret (socket_error_retval, [], addrlen, bad_descriptor)
  else
    a ← syscall (SysGetsockname s addrlen);
    mret (an_result a, an_data a, an_value a,
          get_last_error ec (negb (an_result a =? 0)) (an_errno a)).

(** [ENOTTY] means that the descriptor is not a socket. *)
Definition not_a_socket (ec : error_code) : error_code :=
  if ec_value ec =? ENOTTY then not_socket else ec.

Definition sockatmark (s : Z) (ec : error_code) : sys (bool * error_code) :=
  if s =? invalid_socket then mret (false, bad_descriptor)
  else
    a ← syscall (SysIoctl s SIOCATMARK 0);
    let ec := not_a_socket (get_last_error ec (an_result a <? 0) (an_errno a)) in
    mret (if ec_is_error ec then false else negb (an_value a =? 0), ec).

Definition available (s : Z) (ec : error_code) : sys (Z * error_code) :=
  if s =? invalid_socket then mret (0, bad_descriptor)
  else
    a ← syscall (SysIoctl s FIONREAD 0);
    let ec := not_a_socket (get_last_error ec (an_result a <? 0) (an_errno a)) in
    mret (if ec_is_error ec then 0 else an_value a, ec).

(** ** Connecting *)

(** [sa_family], the first member of a socket address. *)
Definition sa_family (addr : bytes) : Z := le_field 2 addr.

Definition connect (s : Z) (addr : bytes) (ec : error_code) : sys (Z * error_code) :=
  if s =? invalid_socket then mret (socket_error_retval, bad_descriptor)
  else
    a ← syscall (SysConnect s addr);
    let result := an_result a in
    let ec := get_last_error ec (negb (result =? 0)) (an_errno a) in
    let ec :=
      if negb (result =? 0) && bool_decide (ec = try_again) then
        if sa_family addr =? AF_UNIX then in_progress else no_buffer_space
      else ec in
    mret (result, ec).

(** The pending error of the socket: [getsockopt] of [SO_ERROR] into an [int]. *)
Definition get_connect_error (s : Z) (ec : error_code) : sys (Z * Z * error_code) :=
  '(result, optval, _, ec) ←
    getsockopt s 0 SOL_SOCKET SO_ERROR (le_encode 4 0) sizeof_int ec;
  mret (result, s32 (le_field 4 optval), ec).

Definition sync_connect (s : Z) (addr : bytes) (ec : error_code) : sys error_code :=
  '(_, ec) ← connect s addr ec;
  if negb (bool_decide (ec = in_progress)) && negb (bool_decide (ec = would_block)) then mret ec
  else
    '(result, ec) ← poll_connect s (-1) ec;
    if result <? 0 then mret ec
    else
      '(result, connect_error, ec) ← get_connect_error s ec;
      if result =? socket_error_retval then mret ec
      else mret (mk_error_code connect_error system_category).

Definition non_blocking_connect (s : Z) (ec : error_code) : sys (bool * error_code) :=
  a ← syscall (SysPoll s POLLOUT 0);
  if an_result a =? 0 then mret (false, ec)
  else
    '(result, connect_error, ec) ← get_connect_error s ec;
    if result =? 0 then
      if negb (connect_error =? 0) then
        mret (true, mk_error_code connect_error system_category)
      else mret (true, ec_clear ec)
    else mret (true, ec).

(** ** Receiving

    The results are the count returned, the bytes stored in the buffers, and the
    error. *)

Definition recv (s : Z) (bufs : list nat) (flags : Z) (ec : error_code) :
    sys (Z * bytes * error_code) :=
  a ← syscall (SysRecvmsg s bufs flags);
  mret (an_result a, an_data a, get_last_error ec (an_result a <? 0) (an_errno a)).

Definition recv1 (s : Z) (size : nat) (flags : Z) (ec : error_code) :
    sys (Z * bytes * error_code) :=
  a ← syscall (SysRecv s size flags);
  mret (an_result a, an_data a, get_last_error ec (an_result a <? 0) (an_errno a)).

(** The loop of [sync_recv] and [sync_recv1], which differ in the call. *)
Definition sync_recv_loop (recv_call : error_code -> sys (Z * bytes * error_code))
    (s state : Z) (ec : error_code) : sys (Z * bytes * error_code) :=
  loop (fun ec =>
    '(count, data, ec) ← recv_call ec;
    if has state stream_oriented && (count =? 0) then mret (inr (0, [], eof))
    else if 0 <=? count then mret (inr (count, data, ec))
    else if has state user_set_non_blocking || negb (is_blocking ec) then
      mret (inr (0, [], ec))
    else
      '(result, ec) ← poll_read s 0 (-1) ec;
      if result <? 0 then mret (inr (0, [], ec)) else mret (inl ec)) ec.

Definition sync_recv (s state : Z) (bufs : list nat) (flags : Z) (all_empty : bool)
    (ec : error_code) : sys (Z * bytes * error_code) :=
  if s =? invalid_socket then mret (0, [], bad_descriptor)
  else if all_empty && has state stream_oriented then mret (0, [], ec_clear ec)
  else sync_recv_loop (recv s bufs flags) s state ec.

Definition sync_recv1 (s state : Z) (size : nat) (flags : Z) (ec : error_code) :
    sys (Z * bytes * error_code) :=
  if s =? invalid_socket then mret (0, [], bad_descriptor)
  else if (size =? 0)%nat && has state stream_oriented then mret (0, [], ec_clear ec)
  else sync_recv_loop (recv1 s size flags) s state ec.

(** Whether the operation is over; the bytes stored; the count, which the caller
    passes by reference and which the end of a stream leaves as it was; and the
    error. *)
Definition non_blocking_recv_loop (recv_call : error_code -> sys (Z * bytes * error_code))
    (is_stream : bool) (ec : error_code) (bytes_transferred : Z) :
    sys (bool * bytes * error_code * Z) :=
  loop (fun ec =>
    '(count, data, ec) ← recv_call ec;
    if is_stream && (count =? 0) then mret (inr (true, [], eof, bytes_transferred))
    else if 0 <=? count then mret (inr (true, data, ec, count))
    else if bool_decide (ec = interrupted) then mret (inl ec)
    else if is_blocking ec then mret (inr (false, [], ec, bytes_transferred))
    else mret (inr (true, [], ec, 0))) ec.

Definition non_blocking_recv (s : Z) (bufs : list nat) (flags : Z) (is_stream : bool)
    (ec : error_code) (bytes_transferred : Z) : sys (bool * bytes * error_code * Z) :=
  non_blocking_recv_loop (recv s bufs flags) is_stream ec bytes_transferred.

Definition non_blocking_recv1 (s : Z) (size : nat) (flags : Z) (is_stream : bool)
    (ec : error_code) (bytes_transferred : Z) : sys (bool * bytes * error_code * Z) :=
  non_blocking_recv_loop (recv1 s size flags) is_stream ec bytes_transferred.

(** ** Sending *)

Definition send (s : Z) (bufs : list bytes) (flags : Z) (ec : error_code) :
    sys (Z * error_code) :=
  a ← syscall (SysSendmsg s bufs (Z.lor flags MSG_NOSIGNAL));
  mret (an_result a, get_last_error ec (an_result a <? 0) (an_errno a)).

Definition send1 (s : Z) (data : bytes) (flags : Z) (ec : error_code) :
    sys (Z * error_code) :=
  a ← syscall (SysSend s data (Z.lor flags MSG_NOSIGNAL));
  mret (an_result a, get_last_error ec (an_result a <? 0) (an_errno a)).

Definition sync_send_loop (send_call : error_code -> sys (Z * error_code))
    (s state : Z) (ec : error_code) : sys (Z * error_code) :=
  loop (fun ec =>
    '(count, ec) ← send_call ec;
    if 0 <=? count then mret (inr (count, ec))
    else if has state user_set_non_blocking || negb (is_blocking ec) then mret (inr (0, ec))
    else
      '(result, ec) ← poll_write s 0 (-1) ec;
      if result <? 0 then mret (inr (0, ec)) else mret (inl ec)) ec.

Definition sync_send (s state : Z) (bufs : list bytes) (flags : Z) (all_empty : bool)
    (ec : error_code) : sys (Z * error_code) :=
  if s =? invalid_socket then mret (0, bad_descriptor)
  else if all_empty && has state stream_oriented then mret (0, ec_clear ec)
  else sync_send_loop (send s bufs flags) s state ec.

Definition sync_send1 (s state : Z) (data : bytes) (flags : Z) (ec : error_code) :
    sys (Z * error_code) :=
  if s =? invalid_socket then mret (0, bad_descriptor)
  else if (length data =? 0)%nat && has state stream_oriented then mret (0, ec_clear ec)
  else sync_send_loop (send1 s data flags) s state ec.

Definition non_blocking_send_loop (send_call : error_code -> sys (Z * error_code))
    (ec : error_code) (bytes_transferred : Z) : sys (bool * error_code * Z) :=
  loop (fun ec =>
    '(count, ec) ← send_call ec;
    if 0 <=? count then mret (inr (true, ec, count))
    else if bool_decide (ec = interrupted) then mret (inl ec)
    else if is_blocking ec then mret (inr (false, ec, bytes_transferred))
    else mret (inr (true, ec, 0))) ec.

Definition non_blocking_send (s : Z) (bufs : list bytes) (flags : Z) (ec : error_code)
    (bytes_transferred : Z) : sys (bool * error_code * Z) :=
  non_blocking_send_loop (send s bufs flags) ec bytes_transferred.

Definition non_blocking_send1 (s : Z) (data : bytes) (flags : Z) (ec : error_code)
    (bytes_transferred : Z) : sys (bool * error_code * Z) :=
  non_blocking_send_loop (send1 s data flags) ec bytes_transferred.
