(* ===== verification/SocketSpec.v ===== *)
(** What the wrappers of the socket calls make of the system's answers.

    [answer_ok] is the documented behaviour of the system's calls; [received] and
    [sent] are the bytes a trace moves.  The loops are followed by an invariant
    rule ([loop_ind]) and unfold to their rounds ([loop_unfold]): a round makes a
    call, so the fuel they run on is enough. *)

From S2P Require Import Prelude.
From S2P Require Import AsioError.
From S2P Require Import SocketOps.

(** * Loops *)

Lemma loop_ind {S A} (body : S -> sys (S + A)) (P : S -> sys_trace -> Prop)
    (Q : A -> sys_trace -> Prop) s t a t' :
  P s t ->
  (forall s t s' t', P s t -> body s t = Some (inl s', t') -> P s' t') ->
  (forall s t a t', P s t -> body s t = Some (inr a, t') -> Q a t') ->
  loop body s t = Some (a, t') -> Q a t'.
Proof.
  unfold loop. generalize (Datatypes.S (length t)) as fuel. intros fuel Hp Hl Hr.
  revert s t Hp. induction fuel as [|fuel IH]; intros s t Hp; simpl; [done|].
  destruct (body s t) as [[[s'|a'] t1]|] eqn:Hb; [| |done].
  - intros E. eapply IH; [|exact E]. by eapply Hl.
  - intros [= <- <-]. by eapply Hr.
Qed.

(** A body whose rounds take calls from the trace. *)
Definition productive {S A} (body : S -> sys (S + A)) : Prop :=
  forall s t s' t', body s t = Some (inl s', t') -> (length t' < length t)%nat.

Lemma loop_fuel_enough {S A} (body : S -> sys (S + A)) fuel fuel' s t :
  productive body -> (length t < fuel)%nat -> (length t < fuel')%nat ->
  loop_fuel fuel body s t = loop_fuel fuel' body s t.
Proof.
  intros Hp. revert fuel' s t. induction fuel as [|fuel IH]; intros [|fuel'] s t H1 H2; try lia.
  simpl. destruct (body s t) as [[[s'|a] t']|] eqn:Hb; [|done|done].
  apply Hp in Hb. apply IH; lia.
Qed.

Lemma loop_unfold {S A} (body : S -> sys (S + A)) s t :
  productive body ->
  loop body s t =
    match body s t with
    | Some (inl s', t') => loop body s' t'
    | Some (inr a, t') => Some (a, t')
    | None => None
    end.
Proof.
  intros Hp. unfold loop at 1. simpl.
  destruct (body s t) as [[[s'|a] t']|] eqn:Hb; [|done|done].
  apply Hp in Hb. apply loop_fuel_enough; [done|lia|lia].
Qed.

(** The only thing a call does to the trace. *)
Lemma syscall_inv c t a t' : syscall c t = Some (a, t') -> t = (c, a) :: t'.
Proof. destruct t as [|[c' a'] t]; simpl; [done|]. case_decide; naive_solver. Qed.

Lemma syscall_here c a t : syscall c ((c, a) :: t) = Some (a, t).
Proof. simpl. by rewrite decide_True. Qed.

(** Inverts a run of calls. *)
Ltac sys_inv :=
  repeat match goal with
  | H : mbind _ _ _ = Some _ |- _ => unfold mbind, sys_bind in H; cbv beta in H
  | H : mret _ _ = Some _ |- _ => unfold mret, sys_ret in H
  | H : match mbind _ _ _ with _ => _ end = Some _ |- _ =>
      unfold mbind, sys_bind in H; cbv beta in H
  | H : match (match syscall ?c ?t with _ => _ end) with _ => _ end = Some _ |- _ =>
      let E := fresh "Esys" in destruct (syscall c t) as [[? ?]|] eqn:E; [|discriminate H];
      apply syscall_inv in E
  | H : match mret _ _ with _ => _ end = Some _ |- _ =>
      unfold mret, sys_ret in H; cbv beta iota zeta in H
  | H : match syscall ?c ?t with _ => _ end = Some _ |- _ =>
      let E := fresh "Esys" in destruct (syscall c t) as [[? ?]|] eqn:E; [|discriminate H];
      apply syscall_inv in E
  | H : Some _ = Some _ |- _ => injection H as H; subst
  | H : (_, _) = (_, _) |- _ => injection H as H; subst
  | H : (if ?b then _ else _) _ = Some _ |- _ => let E := fresh "Eif" in destruct b eqn:E
  | H : None = Some _ |- _ => discriminate H
  end.

(** The same of programs nested in one another, with all their branches. *)
Ltac sys_run H :=
  unfold mbind, sys_bind, mret, sys_ret in H; cbv beta iota zeta in H;
  repeat (first
    [ match type of H with
      | context [match syscall ?c ?t with _ => _ end] =>
          let E := fresh "Esys" in destruct (syscall c t) as [[? ?]|] eqn:E; [|discriminate H];
          apply syscall_inv in E; subst
      | context [(if ?b then _ else _) _] => let E := fresh "Eif" in destruct b eqn:E
      end
    | discriminate H ]; cbv beta iota zeta in H);
  try (injection H as H; subst).

(** * The answers of the system *)

(** A call that receives at most [n] bytes. *)
Definition recv_answer_ok (n : Z) (a : answer) : Prop :=
  (an_result a < 0 /\ 0 < an_errno a /\ an_data a = []) \/
  (0 <= an_result a <= n /\ zlen (an_data a) = an_result a).

(** A call that sends [n] bytes: it sends some or fails. *)
Definition send_answer_ok (n : Z) (a : answer) : Prop :=
  (an_result a < 0 /\ 0 < an_errno a) \/ (0 <= an_result a <= n /\ (0 < n -> 0 < an_result a)).

Definition sum_sizes (sizes : list nat) : Z := Z.of_nat (sum_list sizes).

Definition answer_ok (e : sys_call * answer) : Prop :=
  match e.1 with
  | SysRecv _ size _ => recv_answer_ok (Z.of_nat size) e.2
  | SysRecvmsg _ sizes _ => recv_answer_ok (sum_sizes sizes) e.2
  | SysSend _ data _ => send_answer_ok (zlen data) e.2
  | SysSendmsg _ bufs _ => send_answer_ok (zlen (concat bufs)) e.2
  | SysIoctl _ _ _ => an_result e.2 < 0 -> 0 < an_errno e.2
  | SysPoll _ _ _ => an_result e.2 < 0 -> 0 < an_errno e.2
  | _ => True
  end.

(** The bytes received and sent by a call. *)
Definition received_by (e : sys_call * answer) : bytes :=
  match e.1 with
  | SysRecv _ _ _ | SysRecvmsg _ _ _ => an_data e.2
  | _ => []
  end.

Definition sent_by (e : sys_call * answer) : bytes :=
  match e.1 with
  | SysSend _ data _ => take (Z.to_nat (an_result e.2)) data
  | SysSendmsg _ bufs _ => take (Z.to_nat (an_result e.2)) (concat bufs)
  | _ => []
  end.

Definition received (t : sys_trace) : bytes := t ≫= received_by.
Definition sent (t : sys_trace) : bytes := t ≫= sent_by.

(** [t'] is what is left of [t] once [bs] has been received, or sent. *)
Definition receives (t : sys_trace) (bs : bytes) (t' : sys_trace) : Prop :=
  exists pre, t = pre ++ t' /\ received pre = bs.

Definition sends (t : sys_trace) (bs : bytes) (t' : sys_trace) : Prop :=
  exists pre, t = pre ++ t' /\ sent pre = bs.

Lemma receives_nil t : receives t [] t.
Proof. by exists []. Qed.

Lemma sends_nil t : sends t [] t.
Proof. by exists []. Qed.

Lemma receives_app t1 bs t2 bs' t3 :
  receives t1 bs t2 -> receives t2 bs' t3 -> receives t1 (bs ++ bs') t3.
Proof.
  intros (p1 & -> & <-) (p2 & -> & <-). exists (p1 ++ p2). rewrite app_assoc. split; [done|].
  unfold received. by rewrite bind_app.
Qed.

Lemma sends_app t1 bs t2 bs' t3 : sends t1 bs t2 -> sends t2 bs' t3 -> sends t1 (bs ++ bs') t3.
Proof.
  intros (p1 & -> & <-) (p2 & -> & <-). exists (p1 ++ p2). rewrite app_assoc. split; [done|].
  unfold sent. by rewrite bind_app.
Qed.

Lemma receives_cons e t : receives (e :: t) (received_by e) t.
Proof. exists [e]. split; [done|]. unfold received. simpl. apply app_nil_r. Qed.

Lemma sends_cons e t : sends (e :: t) (sent_by e) t.
Proof. exists [e]. split; [done|]. unfold sent. simpl. apply app_nil_r. Qed.

Lemma receives_ok t bs t' : receives t bs t' -> Forall answer_ok t -> Forall answer_ok t'.
Proof. intros (pre & -> & _) Ht. by apply Forall_app in Ht as [_ Ht]. Qed.

Lemma sends_ok t bs t' : sends t bs t' -> Forall answer_ok t -> Forall answer_ok t'.
Proof. intros (pre & -> & _) Ht. by apply Forall_app in Ht as [_ Ht]. Qed.

Lemma errno_is_error e c : 0 < e -> ec_is_error (mk_error_code e c) = true.
Proof. intros He. unfold ec_is_error; simpl. destruct (Z.eqb_spec e 0); [lia|done]. Qed.

Lemma is_blocking_error ec : is_blocking ec = true -> ec_is_error ec = true.
Proof.
  unfold is_blocking. rewrite orb_true_iff, !bool_decide_eq_true.
  intros [->| ->]; apply basic_error_is_error.
Qed.

(** * Receiving *)

(** A call that receives into [n] bytes. *)
Definition recv_call_ok (n : Z) (recv_call : error_code -> sys (Z * bytes * error_code)) : Prop :=
  forall ec t count bs ec' t',
    recv_call ec t = Some ((count, bs, ec'), t') ->
    exists c a,
      t = (c, a) :: t' /\ received_by (c, a) = bs /\ sent_by (c, a) = [] /\
      count = an_result a /\ bs = an_data a /\
      ec' = get_last_error ec (an_result a <? 0) (an_errno a) /\
      (answer_ok (c, a) -> recv_answer_ok n a).

Lemma recv_ok s sizes flags : recv_call_ok (sum_sizes sizes) (recv s sizes flags).
Proof.
  intros ec t count bs ec' t' E. unfold recv in E. sys_inv.
  eexists _, _. split_and!; try done.
Qed.

Lemma recv1_ok s size flags : recv_call_ok (Z.of_nat size) (recv1 s size flags).
Proof.
  intros ec t count bs ec' t' E. unfold recv1 in E. sys_inv.
  eexists _, _. split_and!; try done.
Qed.

(** What a transfer of at most [n] bytes leaves: the bytes it received. *)
Definition recv_outcome (n : Z) (is_stream : bool) (t : sys_trace) (bs : bytes) (ec : error_code)
    (bytes_transferred : Z) (t' : sys_trace) : Prop :=
  receives t bs t' /\ bytes_transferred = zlen bs /\ zlen bs <= n /\
  (ec_is_error ec = false -> is_stream = true -> 0 < zlen bs).

(** A failed call: no byte, and an error. *)
Lemma recv_failed n recv_call ec t count bs ec' t' :
  recv_call_ok n recv_call -> Forall answer_ok t ->
  recv_call ec t = Some ((count, bs, ec'), t') ->
  receives t bs t' /\ (length t' < length t)%nat /\ zlen bs <= Z.max 0 n /\
  (count < 0 -> bs = [] /\ ec_is_error ec' = true) /\
  (0 <= count -> zlen bs = count /\ count <= n).
Proof.
  intros Hc Ht E. destruct (Hc _ _ _ _ _ _ E) as (c & a & -> & Hr & _ & -> & -> & -> & Hok).
  apply Forall_cons in Ht as [Ha _]. specialize (Hok Ha).
  split; [rewrite <- Hr; apply receives_cons|]. split; [simpl; lia|].
  destruct Hok as [(Hlt & Herr & Hd)|(Hge & Hd)].
  - rewrite Hd, zlen_nil. split; [lia|]. split; [|lia]. intros _. split; [done|].
    destruct (Z.ltb_spec (an_result a) 0); [|lia]. by apply errno_is_error.
  - split; [lia|]. split; lia.
Qed.

Lemma non_blocking_recv_loop_spec n recv_call is_stream ec t over bs ec' k t' :
  recv_call_ok n recv_call -> 0 <= n -> Forall answer_ok t ->
  non_blocking_recv_loop recv_call is_stream ec 0 t = Some ((over, bs, ec', k), t') ->
  (length t' < length t)%nat /\ recv_outcome n is_stream t bs ec' k t' /\
  (over = false -> bs = []).
Proof.
  intros Hc Hn Ht E. unfold non_blocking_recv_loop in E.
  pose (Q := fun (r : bool * bytes * error_code * Z) (t1 : sys_trace) =>
    let '(over, bs, ec, k) := r in
    (length t1 < length t)%nat /\ recv_outcome n is_stream t bs ec k t1 /\
    (over = false -> bs = [])).
  change (Q (over, bs, ec', k) t'). revert E.
  apply (loop_ind _ (fun _ t1 => receives t [] t1 /\ (length t1 <= length t)%nat)).
  - split; [apply receives_nil|lia].
  - intros ec1 t1 ec2 t2 [Hr Hl] E. sys_inv.
    destruct (recv_call ec1 t1) as [[[[count bs1] ec1'] t1']|] eqn:Ec; [|done].
    destruct (recv_failed _ _ _ _ _ _ _ _ Hc (receives_ok _ _ _ Hr Ht) Ec)
      as (Hr' & Hl' & _ & Hf & _).
    destruct (is_stream && (count =? 0)) eqn:E0; [sys_inv; done|].
    destruct (Z.leb_spec 0 count); [sys_inv; done|]. destruct (Hf ltac:(lia)) as [-> _].
    destruct (bool_decide (ec1' = interrupted)); [|destruct (is_blocking ec1'); sys_inv; done].
    sys_inv. split; [by apply (receives_app _ _ _ _ _ Hr Hr')|lia].
  - intros ec1 t1 r t2 [Hr Hl] E. sys_inv.
    destruct (recv_call ec1 t1) as [[[[count bs1] ec1'] t1']|] eqn:Ec; [|done].
    destruct (recv_failed _ _ _ _ _ _ _ _ Hc (receives_ok _ _ _ Hr Ht) Ec)
      as (Hr' & Hl' & _ & Hf & Hge).
    pose proof (receives_app _ _ _ _ _ Hr Hr') as Hrr. simpl in Hrr.
    destruct (is_stream && (count =? 0)) eqn:E0.
    { apply andb_true_iff in E0 as [-> E0%Z.eqb_eq]. destruct (Hge ltac:(lia)) as [Hz _].
      destruct bs1; [|rewrite zlen_cons in Hz; pose proof (zlen_nonneg bs1); lia].
      sys_inv. unfold Q, recv_outcome. rewrite (@zlen_nil byte). split_and!; try done; lia. }
    destruct (Z.leb_spec 0 count).
    { destruct (Hge ltac:(done)) as [Hz Hle]. sys_inv. unfold Q, recv_outcome.
      split_and!; try done; try lia. intros _ ->. simpl in E0.
      apply Z.eqb_neq in E0. lia. }
    destruct (Hf ltac:(lia)) as [-> He].
    assert (forall over, Q (over, [], ec1', 0) t1') as Hend.
    { intros over'. unfold Q, recv_outcome. rewrite (@zlen_nil byte), He. split_and!; try done; lia. }
    destruct (bool_decide (ec1' = interrupted)); [sys_inv; done|].
    destruct (is_blocking ec1'); sys_inv; apply Hend.
Qed.

(** Waiting for a socket to be readable moves no byte, and fails with an error. *)
Lemma poll_read_failed s state msec ec t result ec' t' :
  Forall answer_ok t -> poll_read s state msec ec t = Some ((result, ec'), t') ->
  receives t [] t' /\ (result < 0 -> ec_is_error ec' = true).
Proof.
  intros Ht E. unfold poll_read in E. destruct (s =? invalid_socket).
  { sys_inv. split; [apply receives_nil|done]. }
  unfold poll_call in E. sys_inv. apply Forall_cons in Ht as [Ha _].
  split; [exact (receives_cons (SysPoll _ _ _, a) t')|]. intros Hlt. unfold answer_ok in Ha. cbn [fst snd] in Ha.
  destruct (Z.eqb_spec (an_result a) 0); [lia|]. cbn [andb].
  destruct (Z.ltb_spec (an_result a) 0); [|lia]. by apply errno_is_error, Ha.
Qed.

Lemma sync_recv_loop_spec n recv_call s state ec t count bs ec' t' :
  recv_call_ok n recv_call -> 0 <= n -> Forall answer_ok t ->
  sync_recv_loop recv_call s state ec t = Some ((count, bs, ec'), t') ->
  recv_outcome n (has state stream_oriented) t bs ec' count t'.
Proof.
  intros Hc Hn Ht E. unfold sync_recv_loop in E.
  change ((fun (r : Z * bytes * error_code) t1 =>
    recv_outcome n (has state stream_oriented) t r.1.2 r.2 r.1.1 t1) (count, bs, ec') t'). revert E.
  apply (loop_ind _ (fun _ t1 => receives t [] t1)); [apply receives_nil| |].
  - intros ec1 t1 ec2 t2 Hr E. sys_inv.
    destruct (recv_call ec1 t1) as [[[[count1 bs1] ec1'] t1']|] eqn:Ec; [|done].
    destruct (recv_failed _ _ _ _ _ _ _ _ Hc (receives_ok _ _ _ Hr Ht) Ec) as (Hr' & _ & _ & Hf & _).
    destruct (has state stream_oriented && (count1 =? 0)); [sys_inv; done|].
    destruct (Z.leb_spec 0 count1); [sys_inv; done|]. destruct (Hf ltac:(lia)) as [-> _].
    pose proof (receives_app _ _ _ _ _ Hr Hr') as Hrr.
    destruct (has state user_set_non_blocking || negb (is_blocking ec1')); [sys_inv; done|]. sys_inv.
    destruct (poll_read s 0 (-1) ec1' t1') as [[[result ec3] t3]|] eqn:Ep; [|done].
    destruct (poll_read_failed _ _ _ _ _ _ _ _ (receives_ok _ _ _ Hrr Ht) Ep) as [Hp _].
    destruct (result <? 0); sys_inv; [done|]. by apply (receives_app _ _ _ _ _ Hrr Hp).
  - intros ec1 t1 r t2 Hr E. sys_inv.
    destruct (recv_call ec1 t1) as [[[[count1 bs1] ec1'] t1']|] eqn:Ec; [|done].
    destruct (recv_failed _ _ _ _ _ _ _ _ Hc (receives_ok _ _ _ Hr Ht) Ec) as (Hr' & _ & _ & Hf & Hge).
    pose proof (receives_app _ _ _ _ _ Hr Hr') as Hrr. simpl in Hrr.
    destruct (has state stream_oriented && (count1 =? 0)) eqn:E0.
    { apply andb_true_iff in E0 as [_ E0%Z.eqb_eq]. destruct (Hge ltac:(lia)) as [Hz _].
      destruct bs1; [|rewrite zlen_cons in Hz; pose proof (zlen_nonneg bs1); lia].
      sys_inv. unfold recv_outcome. simpl. rewrite (@zlen_nil byte). split_and!; done || lia. }
    destruct (Z.leb_spec 0 count1).
    { destruct (Hge ltac:(done)) as [Hz Hle]. sys_inv. unfold recv_outcome. simpl.
      split_and!; try done; try lia. intros _ Hst. rewrite Hst in E0. simpl in E0. apply Z.eqb_neq in E0. lia. }
    destruct (Hf ltac:(lia)) as [-> He].
    assert (forall ec2 t3, receives t [] t3 -> ec_is_error ec2 = true ->
      recv_outcome n (has state stream_oriented) t [] ec2 0 t3) as Hend.
    { intros ec2 t3 ? He2. unfold recv_outcome. rewrite (@zlen_nil byte), He2. split_and!; done || lia. }
    destruct (has state user_set_non_blocking || negb (is_blocking ec1')); [sys_inv; by apply Hend|]. sys_inv.
    destruct (poll_read s 0 (-1) ec1' t1') as [[[result ec3] t3]|] eqn:Ep; [|done].
    destruct (poll_read_failed _ _ _ _ _ _ _ _ (receives_ok _ _ _ Hrr Ht) Ep) as [Hp Herr].
    destruct (Z.ltb_spec result 0); sys_inv; [|done]. apply Hend; [|by apply Herr].
    by apply (receives_app _ _ _ _ _ Hrr Hp).
Qed.

(** * Sending *)

(** A call that sends [data]. *)
Definition send_call_ok (data : bytes) (send_call : error_code -> sys (Z * error_code)) : Prop :=
  forall ec t count ec' t',
    send_call ec t = Some ((count, ec'), t') ->
    exists c a,
      t = (c, a) :: t' /\ sent_by (c, a) = take (Z.to_nat (an_result a)) data /\
      count = an_result a /\
      ec' = get_last_error ec (an_result a <? 0) (an_errno a) /\
      (answer_ok (c, a) -> send_answer_ok (zlen data) a).

Lemma send_ok s bufs flags : send_call_ok (concat bufs) (send s bufs flags).
Proof.
  intros ec t count ec' t' E. unfold send in E. sys_inv. eexists _, _. split_and!; try done.
Qed.

Lemma send1_ok s data flags : send_call_ok data (send1 s data flags).
Proof.
  intros ec t count ec' t' E. unfold send1 in E. sys_inv. eexists _, _. split_and!; try done.
Qed.

(** What a transfer of [data] leaves: a prefix has been sent. *)
Definition send_outcome (data : bytes) (t : sys_trace) (ec : error_code)
    (bytes_transferred : Z) (t' : sys_trace) : Prop :=
  0 <= bytes_transferred <= zlen data /\
  sends t (take (Z.to_nat bytes_transferred) data) t' /\
  (ec_is_error ec = false -> data <> [] -> 0 < bytes_transferred).

Lemma send_failed data send_call ec t count ec' t' :
  send_call_ok data send_call -> Forall answer_ok t ->
  send_call ec t = Some ((count, ec'), t') ->
  sends t (take (Z.to_nat count) data) t' /\ (length t' < length t)%nat /\
  (count < 0 -> ec_is_error ec' = true) /\
  (0 <= count -> count <= zlen data /\ (data <> [] -> 0 < count)).
Proof.
  intros Hc Ht E. destruct (Hc _ _ _ _ _ E) as (c & a & -> & Hs & -> & -> & Hok).
  apply Forall_cons in Ht as [Ha _]. specialize (Hok Ha).
  split; [rewrite <- Hs; apply sends_cons|]. split; [simpl; lia|].
  destruct Hok as [(Hlt & Herr)|(Hge & Hpos)].
  - split; [|lia]. intros _. destruct (Z.ltb_spec (an_result a) 0); [|lia].
    by apply errno_is_error.
  - split; [lia|]. intros _. split; [lia|]. intros Hne. apply Hpos.
    destruct data; [done|]. rewrite zlen_cons. pose proof (zlen_nonneg data). lia.
Qed.

Lemma non_blocking_send_loop_spec data send_call ec t over ec' k t' :
  send_call_ok data send_call -> Forall answer_ok t ->
  non_blocking_send_loop send_call ec 0 t = Some ((over, ec', k), t') ->
  (length t' < length t)%nat /\ send_outcome data t ec' k t' /\ (over = false -> k = 0).
Proof.
  intros Hc Ht E. unfold non_blocking_send_loop in E.
  pose (Q := fun (r : bool * error_code * Z) (t1 : sys_trace) =>
    let '(over, ec, k) := r in
    (length t1 < length t)%nat /\ send_outcome data t ec k t1 /\ (over = false -> k = 0)).
  change (Q (over, ec', k) t'). revert E.
  apply (loop_ind _ (fun _ t1 => sends t [] t1 /\ (length t1 <= length t)%nat)).
  - split; [apply sends_nil|lia].
  - intros ec1 t1 ec2 t2 [Hr Hl] E. sys_inv.
    destruct (send_call ec1 t1) as [[[count ec1'] t1']|] eqn:Ec; [|done].
    destruct (send_failed _ _ _ _ _ _ _ Hc (sends_ok _ _ _ Hr Ht) Ec) as (Hr' & Hl' & _).
    destruct (Z.leb_spec 0 count); [sys_inv; done|].
    replace (Z.to_nat count) with O in Hr' by lia.
    destruct (bool_decide (ec1' = interrupted)); [|destruct (is_blocking ec1'); sys_inv; done].
    sys_inv. split; [by apply (sends_app _ _ _ _ _ Hr Hr')|lia].
  - intros ec1 t1 r t2 [Hr Hl] E. sys_inv.
    destruct (send_call ec1 t1) as [[[count ec1'] t1']|] eqn:Ec; [|done].
    destruct (send_failed _ _ _ _ _ _ _ Hc (sends_ok _ _ _ Hr Ht) Ec) as (Hr' & Hl' & Hf & Hge).
    pose proof (sends_app _ _ _ _ _ Hr Hr') as Hrr. simpl in Hrr.
    destruct (Z.leb_spec 0 count).
    { destruct (Hge ltac:(done)) as [Hle Hpos]. sys_inv. unfold Q, send_outcome.
      split_and!; try done; try lia. }
    replace (Z.to_nat count) with O in Hrr by lia. pose proof (Hf ltac:(lia)) as He.
    pose proof (zlen_nonneg data).
    assert (forall over, Q (over, ec1', 0) t1') as Hend.
    { intros over'. unfold Q, send_outcome. rewrite He. split_and!; try done; lia. }
    destruct (bool_decide (ec1' = interrupted)); [sys_inv; done|].
    destruct (is_blocking ec1'); sys_inv; apply Hend.
Qed.

(** * Retrying *)

(** An answer that the call was interrupted. *)
Definition was_interrupted (a : answer) : Prop :=
  an_result a < 0 /\ an_errno a = ec_value interrupted.

Definition recv_body (s : Z) (size : nat) (flags : Z) (is_stream : bool) (bytes_transferred : Z)
    (ec : error_code) : sys (error_code + (bool * bytes * error_code * Z)) :=
  '(count, data, ec) ← recv1 s size flags ec;
  if is_stream && (count =? 0) then mret (inr (true, [], eof, bytes_transferred))
  else if 0 <=? count then mret (inr (true, data, ec, count))
  else if bool_decide (ec = interrupted) then mret (inl ec)
  else if is_blocking ec then mret (inr (false, [], ec, bytes_transferred))
  else mret (inr (true, [], ec, 0)).

Lemma recv_body_productive s size flags is_stream k :
  productive (recv_body s size flags is_stream k).
Proof.
  intros ec t ec' t' E. unfold recv_body in E. sys_inv.
  destruct (recv1 s size flags ec t) as [[[[count bs] ec1] t1]|] eqn:Er; [|done].
  destruct (recv1_ok _ _ _ _ _ _ _ _ _ Er) as (c & a & -> & _).
  destruct (is_stream && (count =? 0)); [sys_inv; done|].
  destruct (0 <=? count); [sys_inv; done|].
  destruct (bool_decide (ec1 = interrupted)); [sys_inv; simpl; lia|].
  destruct (is_blocking ec1); sys_inv; done.
Qed.

(** What one answer of the system means. *)
Definition recv_result (is_stream : bool) (ec : error_code) (bytes_transferred : Z) (a : answer) :
    bool * bytes * error_code * Z :=
  if is_stream && (an_result a =? 0) then (true, [], eof, bytes_transferred)
  else if 0 <=? an_result a then (true, an_data a, ec_clear ec, an_result a)
  else if an_errno a =? ec_value would_block then (false, [], would_block, bytes_transferred)
  else (true, [], mk_error_code (an_errno a) system_category, 0).

(** [non_blocking_recv1] asks again for as long as it is interrupted; then
    it has finished with the bytes that the system stored and their number, with
    the end of the stream when there were none, or with the system's error; or it
    has not finished, when the call would block. *)
Theorem non_blocking_recv1_result s size flags is_stream ec bytes_transferred intr a t
    (Hintr : Forall was_interrupted intr) (Ha : ~ was_interrupted a) :
  let c := SysRecv s size flags in
  non_blocking_recv1 s size flags is_stream ec bytes_transferred
    ((pair c <$> intr) ++ (c, a) :: t) =
    Some (recv_result is_stream (if decide (intr = []) then ec else interrupted)
            bytes_transferred a, t).
Proof.
  intros c. change (non_blocking_recv1 s size flags is_stream ec bytes_transferred)
    with (loop (recv_body s size flags is_stream bytes_transferred) ec).
  assert (forall ec, loop (recv_body s size flags is_stream bytes_transferred) ec ((c, a) :: t) =
    Some (recv_result is_stream ec bytes_transferred a, t)) as Hlast.
  { intros ec'. rewrite loop_unfold by apply recv_body_productive.
    unfold recv_body, recv1, mbind, sys_bind. rewrite !syscall_here.
    unfold mret, sys_ret, recv_result, get_last_error.
    destruct (is_stream && (an_result a =? 0)); [done|].
    destruct (Z.leb_spec 0 (an_result a)), (Z.ltb_spec (an_result a) 0); try lia; simpl negb;
      cbv iota; [done|].
    rewrite bool_decide_false
      by (intros E; injection E as E; apply Ha; split; [done|exact E]).
    unfold is_blocking, would_block, try_again. simpl ec_value.
    destruct (Z.eqb_spec (an_errno a) 11) as [->|Hne]; [done|].
    rewrite !bool_decide_false by (intros E; injection E as E; done). done. }
  clear Ha. revert ec. induction Hintr as [|b intr [Hb He] Hintr IH]; intros ec.
  { apply Hlast. }
  rewrite fmap_cons. simpl app. rewrite loop_unfold by apply recv_body_productive.
  unfold recv_body at 1, recv1 at 1, mbind, sys_bind. rewrite !syscall_here.
  unfold mret, sys_ret, get_last_error.
  destruct (Z.ltb_spec (an_result b) 0), (Z.leb_spec 0 (an_result b)),
    (Z.eqb_spec (an_result b) 0); try lia. rewrite andb_false_r. simpl negb. cbv iota.
  rewrite He, bool_decide_true by done. rewrite IH.
  rewrite (decide_False (P := b :: intr = [])) by done. by destruct (decide (intr = [])).
Qed.

Lemma non_blocking_recv1_result_witness :
  non_blocking_recv1 7 5 0 true ec_success 0
    [(SysRecv 7 5 0, mkAnswer (-1) 4 [] 0); (SysRecv 7 5 0, mkAnswer 2 0 (lit "he") 0)] =
    Some (true, lit "he", ec_success, 2, []).
Proof.
  apply (non_blocking_recv1_result 7 5 0 true ec_success 0 [mkAnswer (-1) 4 [] 0]
    (mkAnswer 2 0 (lit "he") 0) []).
  - repeat constructor.
  - intros [Hr _]. by vm_compute in Hr.
Defined.

(** * The mode of the descriptor *)

(** The mode after a call, from the mode before it: a successful [FIONBIO] sets
    it. *)
Definition mode_after (non_blocking_mode : bool) (e : sys_call * answer) : bool :=
  match e.1 with
  | SysIoctl _ cmd arg =>
      if (cmd =? FIONBIO) && (0 <=? an_result e.2) then negb (arg =? 0) else non_blocking_mode
  | _ => non_blocking_mode
  end.

(** [FIONBIO] leaves its argument as it is. *)
Definition fionbio_ok (e : sys_call * answer) : Prop :=
  match e.1 with
  | SysIoctl _ cmd arg => cmd = FIONBIO -> an_value e.2 = arg
  | _ => True
  end.

(** The operations that change the mode. *)
Inductive mode_op :=
  | SetUser (value : bool)
  | SetInternal (value : bool)
  | Ioctl (cmd arg : Z).

Definition run_mode_op (s state : Z) (o : mode_op) (ec : error_code) : sys Z :=
  match o with
  | SetUser value => '(_, state, _) ← set_user_non_blocking s state value ec; mret state
  | SetInternal value => '(_, state, _) ← set_internal_non_blocking s state value ec; mret state
  | Ioctl cmd arg => '(_, state, _, _) ← ioctl s state cmd arg ec; mret state
  end.

Fixpoint run_mode_ops (s state : Z) (os : list mode_op) (ec : error_code) : sys Z :=
  match os with
  | [] => mret state
  | o :: os => state ← run_mode_op s state o ec; run_mode_ops s state os ec
  end.

Lemma has_lor state f g : has state (Z.lor f g) = has state f || has state g.
Proof.
  unfold has. rewrite Z.land_lor_distr_r, <- negb_andb. f_equal.
  apply eq_true_iff_eq. rewrite andb_true_iff, !Z.eqb_eq. apply Z.lor_eq_0_iff.
Qed.

Lemma has_set state f : f <> 0 -> has (set_flag state f) f = true.
Proof.
  intros Hf. unfold has, set_flag. rewrite negb_true_iff, Z.eqb_neq, Z.land_lor_distr_l.
  rewrite Z.land_diag. intros E. by apply Z.lor_eq_0_iff in E as [_ E].
Qed.

Lemma has_clear state f : has (clear_flag state f) f = false.
Proof. unfold has, clear_flag. by rewrite Z.land_ldiff. Qed.

Lemma has_clear_other state f g : Z.land (Z.lnot f) g = g -> has (clear_flag state f) g = has state g.
Proof.
  intros E. unfold has, clear_flag. by rewrite Z.ldiff_land, <- Z.land_assoc, E.
Qed.

Lemma mode_user_set state : has (set_flag state user_set_non_blocking) non_blocking = true.
Proof. unfold non_blocking. rewrite has_lor, has_set; done. Qed.

Lemma mode_internal_set state : has (set_flag state internal_non_blocking) non_blocking = true.
Proof. unfold non_blocking. rewrite has_lor, orb_comm, has_set; done. Qed.

Lemma mode_internal_clear state :
  has state user_set_non_blocking = false ->
  has (clear_flag state internal_non_blocking) non_blocking = false.
Proof.
  intros Hu. unfold non_blocking. rewrite has_lor, has_clear, orb_false_r.
  by rewrite has_clear_other.
Qed.

(** The trace an operation takes and the mode it leaves. *)
Definition mode_kept (mode : bool) (state' : Z) (t t' : sys_trace) : Prop :=
  exists pre, t = pre ++ t' /\ has state' non_blocking = foldl mode_after mode pre.

Lemma mode_kept_none state t : mode_kept (has state non_blocking) state t t.
Proof. by exists []. Qed.

Lemma mode_kept_one mode state' e t :
  has state' non_blocking = mode_after mode e -> mode_kept mode state' (e :: t) t.
Proof. by exists [e]. Qed.

Lemma run_mode_op_kept s state o ec t state' t' :
  Forall fionbio_ok t -> run_mode_op s state o ec t = Some (state', t') ->
  mode_kept (has state non_blocking) state' t t'.
Proof.
  intros Ht E. destruct o as [value|value|cmd arg]; unfold run_mode_op in E.
  - unfold set_user_non_blocking, ioctl_mode in E.
    destruct (s =? invalid_socket); [sys_run E; apply mode_kept_none|].
    sys_run E; apply mode_kept_one; unfold mode_after; simpl; rewrite Eif; [|done].
    destruct value; simpl; [apply mode_user_set|apply has_clear].
  - unfold set_internal_non_blocking, ioctl_mode in E.
    destruct (s =? invalid_socket); [sys_run E; apply mode_kept_none|].
    destruct (negb value && has state user_set_non_blocking) eqn:Hu;
      [sys_run E; apply mode_kept_none|].
    sys_run E; apply mode_kept_one; unfold mode_after; simpl; rewrite Eif; [|done].
    destruct value; simpl; [apply mode_internal_set|by apply mode_internal_clear].
  - unfold ioctl in E. destruct (s =? invalid_socket); [sys_run E; apply mode_kept_none|].
    sys_run E. apply mode_kept_one. unfold mode_after; simpl.
    apply Forall_cons in Ht as [Ha _]. unfold fionbio_ok in Ha; simpl in Ha.
    destruct (Z.eqb_spec cmd FIONBIO) as [->|]; simpl; rewrite ?andb_true_r, ?andb_false_r; [|done].
    rewrite Ha by done. destruct (0 <=? an_result a); [|done].
    destruct (Z.eqb_spec arg 0); simpl; [apply has_clear|apply mode_user_set].
Qed.

(** Whatever sequence of [set_user_non_blocking], [set_internal_non_blocking]
    and [ioctl] is run, with whatever failures, the state flags say that the
    socket is non-blocking just when the last [FIONBIO] that succeeded made its
    descriptor so: an operation that relies on the flags does not block. *)
Theorem mode_flags_track_descriptor s os ec state t state' t'
    (Ht : Forall fionbio_ok t) (E : run_mode_ops s state os ec t = Some (state', t')) :
  exists pre,
    t = pre ++ t' /\
    has state' non_blocking = foldl mode_after (has state non_blocking) pre.
Proof.
  change (mode_kept (has state non_blocking) state' t t').
  revert state t Ht E. induction os as [|o os IH]; intros state t Ht E; cbn [run_mode_ops] in E.
  { sys_inv. apply mode_kept_none. }
  sys_inv. destruct (run_mode_op s state o ec t) as [[state1 t1]|] eqn:Eo; [|done].
  destruct (run_mode_op_kept _ _ _ _ _ _ _ Ht Eo) as (pre & -> & Hp).
  apply Forall_app in Ht as [_ Ht]. destruct (IH state1 t1 Ht E) as (pre' & -> & Hp').
  exists (pre ++ pre'). rewrite app_assoc. split; [done|]. by rewrite foldl_app, <- Hp.
Qed.

(** The user's mode outlasts the library's: turning the latter off is refused. *)
Lemma mode_flags_track_descriptor_witness :
  exists pre,
    [(SysIoctl 7 FIONBIO 1, mkAnswer 0 0 [] 1); (SysIoctl 7 FIONBIO 0, mkAnswer (-1) 5 [] 0)] =
      pre ++ [] /\ has 17 non_blocking = foldl mode_after (has 16 non_blocking) pre.
Proof.
  apply (mode_flags_track_descriptor 7 [SetUser true; SetInternal false; SetUser false]
    ec_success 16 _ 17 []).
  - repeat constructor.
  - by vm_compute.
Defined.
