(* ===== verification/ReadWrite.v ===== *)
(** [asio/impl/read.hpp], [asio/impl/write.hpp] and
    [asio/completion_condition.hpp]: the operations that go on until a whole
    buffer sequence is transferred.

    A composed operation transfers what its consuming buffers prepare, again and
    again, until its completion condition or an error stops it.  It is modelled
    over any stream with an operation that transfers some bytes ([Transfers]);
    [TransferLaws] states what the stream promises of one such transfer, through
    a relation on the addresses it covers that is closed under composition. *)

From S2P Require Import Prelude.
From S2P Require Import AsioError.
From S2P Require Import Buffers.
From S2P Require Import ConsumingBuffers.

(** * Completion conditions *)

Definition default_max_transfer_size : Z := 65536.

(** A condition of the old style returns whether the operation is complete. *)
Definition adapt_bool (result : bool) : Z := if result then 0 else default_max_transfer_size.

Definition adapt_size (result : Z) : Z := result.

Definition completion_condition : Type := error_code -> Z -> Z.

Definition transfer_all : completion_condition := fun err _ =>
  if ec_is_error err then 0 else default_max_transfer_size.

Definition transfer_at_least (minimum : Z) : completion_condition := fun err bytes_transferred =>
  if ec_is_error err || (minimum <=? bytes_transferred) then 0 else default_max_transfer_size.

Definition transfer_exactly (size' : Z) : completion_condition := fun err bytes_transferred =>
  if ec_is_error err || (size' <=? bytes_transferred) then 0
  else if size' - bytes_transferred <? default_max_transfer_size then size' - bytes_transferred
  else default_max_transfer_size.

(** [base_from_completion_cond::check_for_completion]. *)
Definition check_for_completion (cond : completion_condition) (ec : error_code)
    (total_transferred : Z) : Z :=
  adapt_size (cond ec total_transferred).

(** * Streams *)

(** [read_some] or [write_some], synchronous or not: the error, the number of
    bytes transferred and the memory after the call; [None] when the operation
    is never over. *)
Class Transfers (S : Type) := {
  transfer_some : S -> buffer_sequence -> memory -> option (error_code * Z * memory * S)
}.

(** What the operation makes of its handler's call: another transfer, or the
    call of the user's handler with the error and the total. *)
Inductive next_step :=
  | Initiate (bufs : buffer_sequence)
  | Invoke (ec : error_code) (total : Z).

Section Composed.
Context {C : Type} `{ConsumingBuffers C}.
Context {S : Type} `{Transfers S}.

(** ** Synchronous operations *)

(** The loop of [read_buffer_seq] and of [detail::write]; the rounds are bounded
    by the fuel. *)
Fixpoint transfer_seq (fuel : nat) (cond : completion_condition) (tmp : C) (ec : error_code)
    (m : memory) (s : S) : option (Z * error_code * memory * S) :=
  if empty tmp then Some (total_consumed tmp, ec, m, s)
  else
    let max_size := adapt_size (cond ec (total_consumed tmp)) in
    if negb (max_size =? 0) then
      match fuel with
      | O => None
      | Datatypes.S fuel =>
          '(ec, n, m, s) ← transfer_some s (prepare tmp max_size) m;
          transfer_seq fuel cond (consume tmp n) ec m s
      end
    else Some (total_consumed tmp, ec, m, s).

Definition read_buffer_seq (fuel : nat) (cond : completion_condition) (buffers : C)
    (m : memory) (s : S) : option (Z * error_code * memory * S) :=
  transfer_seq fuel cond buffers ec_success m s.

Definition write_seq (fuel : nat) (cond : completion_condition) (buffers : C)
    (m : memory) (s : S) : option (Z * error_code * memory * S) :=
  transfer_seq fuel cond buffers ec_success m s.

(** ** Asynchronous operations *)

(** [operator()] of [read_op] and of [write_op]: [start] is 1 in the call that
    starts the operation; the others are the completion of a transfer.
    [cancelled] is whether the operation has been cancelled meanwhile. *)
Definition composed_op (cond : completion_condition) (cancelled : bool) (buffers : C)
    (ec : error_code) (bytes_transferred : Z) (start : Z) : C * next_step :=
  if start =? 1 then
    let max_size := check_for_completion cond ec (total_consumed buffers) in
    (buffers, Initiate (prepare buffers max_size))
  else
    let buffers := consume buffers bytes_transferred in
    if (negb (ec_is_error ec) && (bytes_transferred =? 0)) || empty buffers then
      (buffers, Invoke ec (total_consumed buffers))
    else
      let max_size := check_for_completion cond ec (total_consumed buffers) in
      if max_size =? 0 then (buffers, Invoke ec (total_consumed buffers))
      else if cancelled then (buffers, Invoke operation_aborted (total_consumed buffers))
      else (buffers, Initiate (prepare buffers max_size)).

Definition read_op := composed_op.
Definition write_op := composed_op.

(** [start_read_op] and [start_write_op]. *)
Definition start_read_op (cond : completion_condition) (buffers : C) : C * next_step :=
  read_op cond false buffers ec_success 0 1.

Definition start_write_op (cond : completion_condition) (buffers : C) : C * next_step :=
  write_op cond false buffers ec_success 0 1.

(** How an operation ends: its handler is called; a transfer is never over; or
    there are more rounds than the fuel. *)
Inductive completion :=
  | Completed (ec : error_code) (total : Z) (m : memory) (s : S)
  | InFlight
  | OutOfFuel.

(** The operation from one of its transfers on; [cancelled] says whether it is
    cancelled by the end of each round. *)
Fixpoint run_op (fuel : nat) (cond : completion_condition) (cancelled : nat -> bool)
    (op : C * next_step) (m : memory) (s : S) : completion :=
  match op.2, fuel with
  | Invoke ec total, _ => Completed ec total m s
  | Initiate _, O => OutOfFuel
  | Initiate bufs, Datatypes.S fuel =>
      match transfer_some s bufs m with
      | None => InFlight
      | Some (ec, n, m, s) =>
          run_op fuel cond cancelled (composed_op cond (cancelled fuel) op.1 ec n 0) m s
      end
  end.

End Composed.

(** [consuming_buffers] holds [size_t] totals: a round for every byte, and one
    for an empty sequence. *)
Definition op_fuel (n : nat) : nat := S n.

Section Async.
Context {C : Type} `{ConsumingLaws C}.
Context {S : Type} `{Transfers S}.

(** [async_read(stream, buffers, handler)] and [async_write], with
    [transfer_all()] for a completion condition. *)
Definition async_read (cancelled : nat -> bool) (buffers : C) (m : memory) (s : S) : completion :=
  run_op (op_fuel (length (cb_rest buffers))) transfer_all cancelled
    (start_read_op transfer_all buffers) m s.

Definition async_write (cancelled : nat -> bool) (buffers : C) (m : memory) (s : S) : completion :=
  run_op (op_fuel (length (cb_rest buffers))) transfer_all cancelled
    (start_write_op transfer_all buffers) m s.

(** [read(stream, buffers, ec)] and [write]. *)
Definition read (buffers : C) (m : memory) (s : S) : option (Z * error_code * memory * S) :=
  read_buffer_seq (op_fuel (length (cb_rest buffers))) transfer_all buffers m s.

Definition write (buffers : C) (m : memory) (s : S) : option (Z * error_code * memory * S) :=
  write_seq (op_fuel (length (cb_rest buffers))) transfer_all buffers m s.
End Async.

(** * What a stream promises *)

Class TransferLaws (S : Type) `{Transfers S} := {
  tr_ok : memory -> S -> Prop;
  tr_rel : list Z -> memory * S -> memory * S -> Prop;
  tr_rel_nil m s : tr_rel [] (m, s) (m, s);
  tr_rel_app l k x y z : tr_rel l x y -> tr_rel k y z -> tr_rel (l ++ k) x z;
  tr_some s bufs m ec n m' s' :
    tr_ok m s -> Forall buffer_wf (elements bufs) -> zlen (elements bufs) <= 16 ->
    transfer_some s bufs m = Some (ec, n, m', s') ->
    0 <= n <= zlen (flatten (elements bufs)) /\
    (ec_is_error ec = false -> flatten (elements bufs) <> [] -> 0 < n) /\
    tr_ok m' s' /\
    tr_rel (take (Z.to_nat n) (flatten (elements bufs))) (m, s) (m', s')
}.

(** * Composed operations *)

Section Laws.
Context {C : Type} `{ConsumingLaws C}.
Context {S : Type} `{TransferLaws S}.

(** One round: what was prepared is transferred in part, and consumed. *)
Lemma round_transfers c m s ec n m' s' max_size :
  cb_ok c -> tr_ok m s -> 0 < max_size < 2 ^ 64 ->
  transfer_some s (prepare c max_size) m = Some (ec, n, m', s') ->
  0 <= n <= zlen (cb_rest c) /\
  (ec_is_error ec = false -> cb_rest c <> [] -> 0 < n) /\
  tr_ok m' s' /\ cb_ok (consume c n) /\
  cb_rest (consume c n) = drop (Z.to_nat n) (cb_rest c) /\
  total_consumed (consume c n) = total_consumed c + n /\
  tr_rel (take (Z.to_nat n) (cb_rest c)) (m, s) (m', s').
Proof.
  intros Hc Hs Hmax Ht.
  destruct (cb_prepare c max_size Hc Hmax) as (k & Hf & Hw & _ & Hpos & Hcount).
  destruct (tr_some _ _ _ _ _ _ _ Hs Hw Hcount Ht) as (Hn & Hgt & Hok & Hrel).
  rewrite Hf in Hn, Hgt, Hrel. unfold zlen in Hn. rewrite length_take in Hn.
  assert (0 <= n <= zlen (cb_rest c)) as Hn' by (unfold zlen; lia).
  destruct (cb_consume c n Hc Hn') as (Hc' & Hr & Htot).
  split; [done|]. split.
  { intros He Hne. apply Hgt; [done|]. specialize (Hpos Hne).
    destruct (cb_rest c); [done|]. destruct k; [lia|done]. }
  split; [done|]. split; [done|]. split; [done|]. split; [done|].
  rewrite take_take in Hrel. by rewrite Nat.min_l in Hrel by lia.
Qed.

(** The state of a run after some bytes. *)
Definition progress (c : C) (m : memory) (s : S) (n : Z) (m' : memory) (s' : S) : Prop :=
  0 <= n <= zlen (cb_rest c) /\ tr_rel (take (Z.to_nat n) (cb_rest c)) (m, s) (m', s').

Lemma progress_app c m s n m1 s1 k m2 s2 :
  cb_ok c -> progress c m s n m1 s1 -> progress (consume c n) m1 s1 k m2 s2 ->
  progress c m s (n + k) m2 s2.
Proof.
  intros Hc [Hn Hrel] [Hk Hrel2]. destruct (cb_consume c n Hc Hn) as (_ & Hr & _).
  rewrite Hr in Hk, Hrel2. rewrite zlen_drop in Hk by lia. split; [lia|].
  replace (Z.to_nat (n + k)) with (Z.to_nat n + Z.to_nat k)%nat by lia.
  rewrite <- take_take_drop. by eapply tr_rel_app.
Qed.

Lemma progress_start c m s : progress c m s 0 m s.
Proof. split; [pose proof (zlen_nonneg (cb_rest c)); lia|]. apply tr_rel_nil. Qed.

(** What an operation has done when it ends. *)
Definition op_done (c : C) (m : memory) (s : S) (r : completion) : Prop :=
  match r with
  | Completed ec total m' s' =>
      exists n, progress c m s n m' s' /\ tr_ok m' s' /\ total = total_consumed c + n /\
        (ec_is_error ec = false -> n = zlen (cb_rest c))
  | InFlight =>
      exists n m' s' bufs, progress c m s n m' s' /\ transfer_some s' bufs m' = None
  | OutOfFuel => False
  end.

Lemma op_done_round c m s n m' s' r :
  cb_ok c -> progress c m s n m' s' -> op_done (consume c n) m' s' r -> op_done c m s r.
Proof.
  intros Hc Hp. destruct (cb_consume c n Hc (proj1 Hp)) as (_ & Hr & Ht).
  destruct r as [ec total m2 s2| |]; simpl; [|intros (k & m2 & s2 & bufs & Hk & Hb)|done].
  - intros (k & Hk & Hok & -> & Hfull). exists (n + k). split; [by eapply progress_app|].
    split; [done|]. split; [lia|]. intros He. rewrite (Hfull He), Hr, zlen_drop; [lia|apply Hp].
  - exists (n + k), m2, s2, bufs. split; [by eapply progress_app|done].
Qed.

Lemma run_op_invoke fuel cond cancelled c ec total m s :
  run_op fuel cond cancelled (c, Invoke ec total) m s = Completed ec total m s.
Proof. by destruct fuel. Qed.

Lemma run_op_done fuel cancelled c m s :
  cb_ok c -> tr_ok m s -> (length (cb_rest c) < fuel)%nat ->
  op_done c m s
  (run_op fuel transfer_all cancelled (c, Initiate (prepare c default_max_transfer_size)) m s).
Proof.
  revert c m s. induction fuel as [|fuel IH]; intros c m s Hc Hs Hf; [lia|]. simpl run_op.
  destruct (transfer_some s (prepare c default_max_transfer_size) m)
    as [[[[ec n] m'] s']|] eqn:Ht.
  2: { exists 0, m, s, (prepare c default_max_transfer_size). auto using progress_start. }
  destruct (round_transfers c m s ec n m' s' default_max_transfer_size Hc Hs ltac:(done) Ht)
    as (Hn & Hgt & Hok & Hc' & Hr & Htot & Hrel).
  assert (progress c m s n m' s') as Hp by done.
  assert (forall ec', (ec_is_error ec' = false -> n = zlen (cb_rest c)) ->
    op_done c m s (run_op fuel transfer_all cancelled
    (consume c n, Invoke ec' (total_consumed c + n)) m' s')) as Hend
    by (intros ec' Hfull; rewrite run_op_invoke; exists n; auto).
  unfold composed_op. cbn [fst snd]. change (0 =? 1) with false. cbv iota zeta. rewrite Htot.
  destruct (empty (consume c n)) eqn:He.
  { rewrite orb_true_r. apply Hend. intros _.
    apply cb_empty in He; [|done]. rewrite Hr in He.
    apply (f_equal zlen) in He. rewrite zlen_drop, zlen_nil in He by done. lia. }
  assert (cb_rest c <> []) as Hne.
  { intros E. apply not_true_iff_false in He. apply He. apply cb_empty; [done|].
    by rewrite Hr, E, drop_nil. }
  rewrite orb_false_r. unfold check_for_completion, adapt_size, transfer_all.
  destruct (ec_is_error ec) eqn:Ee; simpl; [by apply Hend; rewrite Ee|].
  specialize (Hgt eq_refl Hne). destruct (Z.eqb_spec n 0); [lia|].
  destruct (cancelled fuel); [by apply Hend|].
  eapply op_done_round; [done|exact Hp|]. apply IH; [done|done|].
  rewrite Hr, length_drop. unfold zlen in Hn. lia.
Qed.

(** The same of a synchronous operation, which returns the error after the
    total. *)
Definition seq_done (c : C) (m : memory) (s : S)
    (r : option (Z * error_code * memory * S)) : Prop :=
  op_done c m s
    match r with
    | Some (total, ec, m', s') => Completed ec total m' s'
    | None => InFlight
    end.

Lemma seq_done_end c ec m s :
  cb_ok c -> tr_ok m s -> (ec_is_error ec = false -> cb_rest c = []) ->
  seq_done c m s (Some (total_consumed c, ec, m, s)).
Proof.
  intros Hc Hs He. exists 0. split; [apply progress_start|]. split; [done|]. split; [lia|].
  intros Hf. by rewrite (He Hf).
Qed.

(** An error is the last round. *)
Lemma transfer_seq_error fuel c ec m s :
  ec_is_error ec = true ->
  transfer_seq fuel transfer_all c ec m s = Some (total_consumed c, ec, m, s).
Proof.
  intros He. destruct fuel; cbn [transfer_seq]; unfold adapt_size, transfer_all; rewrite He;
    by destruct (empty c).
Qed.

Lemma transfer_seq_done fuel c ec m s :
  cb_ok c -> tr_ok m s -> (length (cb_rest c) <= fuel)%nat ->
  seq_done c m s (transfer_seq fuel transfer_all c ec m s).
Proof.
  revert c ec m s. induction fuel as [|fuel IH]; intros c ec m s Hc Hs Hf;
    cbn [transfer_seq]; cbv zeta; pose proof (cb_empty c Hc) as He;
    (destruct (empty c); [apply seq_done_end; tauto|]);
    unfold adapt_size, transfer_all;
    (destruct (ec_is_error ec) eqn:Ee; [by apply seq_done_end; rewrite ?Ee|]);
    (assert (cb_rest c <> []) as Hne by naive_solver);
    change (negb (default_max_transfer_size =? 0)) with true; cbv iota.
  { destruct (cb_rest c); [done|simpl in Hf; lia]. }
  destruct (transfer_some s (prepare c default_max_transfer_size) m)
    as [[[[ec' n] m'] s']|] eqn:Ht; simpl mbind; cbv beta iota.
  2: { exists 0, m, s, (prepare c default_max_transfer_size). auto using progress_start. }
  destruct (round_transfers c m s ec' n m' s' default_max_transfer_size Hc Hs ltac:(done) Ht)
    as (Hn & Hgt & Hok & Hc' & Hr & Htot & Hrel).
  assert (progress c m s n m' s') as Hp by done.
  eapply op_done_round; [done|exact Hp|].
  destruct (ec_is_error ec') eqn:Ee'.
  - rewrite transfer_seq_error by done. apply seq_done_end; [done|done|congruence].
  - apply IH; [done|done|]. specialize (Hgt eq_refl Hne). unfold zlen in Hn.
    rewrite Hr, length_drop. lia.
Qed.
End Laws.
