(* ===== verification/SocketStream.v ===== *)
(** [asio/detail/reactive_socket_recv_op.hpp], [reactive_socket_send_op.hpp],
    [reactor_op.hpp] and the transfers of [reactive_socket_service_base.hpp]: a
    socket as a stream.

    The stream is the state flags of the socket and the trace of the system's
    calls and answers to come.  An asynchronous transfer is performed once it is
    started and then whenever the reactor finds the descriptor ready, until it is
    done: here, again and again.  [answer_ok] states what the system documents
    for its answers. *)

From S2P Require Import Prelude.
From S2P Require Import AsioError.
From S2P Require Import Buffers.
From S2P Require Import ConsumingBuffers.
From S2P Require Import SocketOps.
From S2P Require Import ReadWrite.

(** * Operations of the reactor *)
Module reactor_op.

Inductive status := not_done | done | done_and_exhausted.

Record t := mk {
  ec_ : error_code;
  bytes_transferred_ : Z
}.

(** The constructor, with [success_ec]. *)
Definition new (success_ec : error_code) : t := mk success_ec 0.

(** Whether the operation is finished. *)
Definition finished (s : status) : bool :=
  match s with
  | not_done => false
  | done | done_and_exhausted => true
  end.
End reactor_op.

(** The socket, with the message flags of the transfers. *)
Record endpoint := mkEndpoint {
  ep_socket : Z;
  ep_flags : Z
}.

(** The sizes of the vectors of an adapter, and their bytes in memory. *)
Definition iov_sizes (a : buffer_sequence_adapter) : list nat :=
  (fun v => Z.to_nat (iov_len v)) <$> buffers a.

Definition iov_data (m : memory) (a : buffer_sequence_adapter) : option (list bytes) :=
  mapM (fun v => load_bytes m (iov_base v) (iov_len v)) (buffers a).

Definition iov_addresses (a : buffer_sequence_adapter) : list Z :=
  concat ((fun v => seqZ (iov_base v) (iov_len v)) <$> buffers a).

(** A step on memory that may be out of range. *)
Definition with_memory {A} (o : option A) : sys A := fun t =>
  match o with
  | Some a => Some (a, t)
  | None => None
  end.

(** ** [reactive_socket_recv_op_base] *)

Definition recv_do_perform (e : endpoint) (state : Z) (bufs : buffer_sequence)
    (op : reactor_op.t) (m : memory) : sys (reactor_op.status * reactor_op.t * memory) :=
  let is_stream := has state stream_oriented in
  '(result, op, m) ←
    (if is_single_buffer bufs then
       '(over, bs, ec, n) ←
         non_blocking_recv1 (ep_socket e) (Z.to_nat (size (first bufs))) (ep_flags e) is_stream
           (reactor_op.ec_ op) (reactor_op.bytes_transferred_ op);
       mret (over, reactor_op.mk ec n, store_bytes m (addresses (first bufs)) bs)
     else
       let adapter := new_adapter bufs in
       '(over, bs, ec, n) ←
         non_blocking_recv (ep_socket e) (iov_sizes adapter) (ep_flags e) is_stream
           (reactor_op.ec_ op) (reactor_op.bytes_transferred_ op);
       mret (over, reactor_op.mk ec n, store_bytes m (iov_addresses adapter) bs));
  let result := if (result : bool) then reactor_op.done else reactor_op.not_done in
  let result :=
    if reactor_op.finished result && is_stream && (reactor_op.bytes_transferred_ op =? 0)
    then reactor_op.done_and_exhausted else result in
  mret (result, op, m).

(** ** [reactive_socket_send_op_base] *)

Definition send_do_perform (e : endpoint) (state : Z) (bufs : buffer_sequence)
    (op : reactor_op.t) (m : memory) : sys (reactor_op.status * reactor_op.t * memory) :=
  let is_stream := has state stream_oriented in
  '(result, op, total) ←
    (if is_single_buffer bufs then
       bs ← with_memory (load_bytes m (data (first bufs)) (size (first bufs)));
       '(over, ec, n) ←
         non_blocking_send1 (ep_socket e) bs (ep_flags e)
           (reactor_op.ec_ op) (reactor_op.bytes_transferred_ op);
       mret (over, reactor_op.mk ec n, size (first bufs))
     else
       let adapter := new_adapter bufs in
       bs ← with_memory (iov_data m adapter);
       '(over, ec, n) ←
         non_blocking_send (ep_socket e) bs (ep_flags e)
           (reactor_op.ec_ op) (reactor_op.bytes_transferred_ op);
       mret (over, reactor_op.mk ec n, total_size adapter));
  let result := if (result : bool) then reactor_op.done else reactor_op.not_done in
  let result :=
    if reactor_op.finished result && is_stream && (reactor_op.bytes_transferred_ op <? total)
    then reactor_op.done_and_exhausted else result in
  mret (result, op, m).

(** * Transfers *)

(** An operation performed until it is done. *)
Definition perform_until_done
    (perform : reactor_op.t -> memory -> sys (reactor_op.status * reactor_op.t * memory))
    (op : reactor_op.t) (m : memory) : sys (reactor_op.t * memory) :=
  loop (fun '(op, m) =>
    '(status, op, m) ← perform op m;
    mret (if reactor_op.finished status then inr (op, m) else inl (op, m))) (op, m).

(** [do_start_op]: a no-op completes at once; the descriptor must not block. *)
Definition do_start_op (e : endpoint) (state : Z) (noop : bool) (op : reactor_op.t) (m : memory)
    (perform : Z -> reactor_op.t -> memory -> sys (reactor_op.status * reactor_op.t * memory)) :
    sys (reactor_op.t * memory * Z) :=
  if negb noop then
    '(started, state, ec) ←
      (if has state non_blocking then mret (true, state, reactor_op.ec_ op)
       else set_internal_non_blocking (ep_socket e) state true (reactor_op.ec_ op));
    let op := reactor_op.mk ec (reactor_op.bytes_transferred_ op) in
    if (started : bool) then
      '(op, m) ← perform_until_done (perform state) op m;
      mret (op, m, state)
    else mret (op, m, state)
  else mret (op, m, state).

Definition is_noop (state : Z) (bufs : buffer_sequence) : bool :=
  has state stream_oriented && all_empty bufs.

(** [async_receive] and [async_send]; [success_ec_] is no error. *)
Definition async_receive (e : endpoint) (state : Z) (bufs : buffer_sequence) (m : memory) :
    sys (reactor_op.t * memory * Z) :=
  do_start_op e state (is_noop state bufs) (reactor_op.new ec_success) m
    (fun state op m => recv_do_perform e state bufs op m).

Definition async_send (e : endpoint) (state : Z) (bufs : buffer_sequence) (m : memory) :
    sys (reactor_op.t * memory * Z) :=
  do_start_op e state (is_noop state bufs) (reactor_op.new ec_success) m
    (fun state op m => send_do_perform e state bufs op m).

(** [receive] and [send]: the count, the error and the memory. *)
Definition receive (e : endpoint) (state : Z) (bufs : buffer_sequence) (ec : error_code)
    (m : memory) : sys (Z * error_code * memory) :=
  if is_single_buffer bufs then
    '(count, bs, ec) ←
      sync_recv1 (ep_socket e) state (Z.to_nat (size (first bufs))) (ep_flags e) ec;
    mret (count, ec, store_bytes m (addresses (first bufs)) bs)
  else
    let adapter := new_adapter bufs in
    '(count, bs, ec) ←
      sync_recv (ep_socket e) state (iov_sizes adapter) (ep_flags e)
        (adapter_all_empty adapter) ec;
    mret (count, ec, store_bytes m (iov_addresses adapter) bs).

Definition send (e : endpoint) (state : Z) (bufs : buffer_sequence) (ec : error_code)
    (m : memory) : sys (Z * error_code) :=
  if is_single_buffer bufs then
    bs ← with_memory (load_bytes m (data (first bufs)) (size (first bufs)));
    sync_send1 (ep_socket e) state bs (ep_flags e) ec
  else
    let adapter := new_adapter bufs in
    bs ← with_memory (iov_data m adapter);
    sync_send (ep_socket e) state bs (ep_flags e) (adapter_all_empty adapter) ec.

(** * Streams *)

(** The socket, its state flags, and the trace to come. *)
Record socket_stream := mkStream {
  st_endpoint : endpoint;
  st_state : Z;
  st_trace : sys_trace
}.

(** The streams that read and write, asynchronously, and that read by [read_some]. *)
Record async_reader := mkAsyncReader { ar_stream : socket_stream }.
Record async_writer := mkAsyncWriter { aw_stream : socket_stream }.
Record sync_reader := mkSyncReader { sr_stream : socket_stream }.

#[global] Instance sync_reader_transfers : Transfers sync_reader := {
  transfer_some r bufs m :=
    let st := sr_stream r in
    '(n, ec, m, t) ← receive (st_endpoint st) (st_state st) bufs ec_success m (st_trace st);
    Some (ec, n, m, mkSyncReader (mkStream (st_endpoint st) (st_state st) t))
}.

#[global] Instance async_reader_transfers : Transfers async_reader := {
  transfer_some r bufs m :=
    let st := ar_stream r in
    '(op, m, state, t) ← async_receive (st_endpoint st) (st_state st) bufs m (st_trace st);
    Some (reactor_op.ec_ op, reactor_op.bytes_transferred_ op, m,
          mkAsyncReader (mkStream (st_endpoint st) state t))
}.

#[global] Instance async_writer_transfers : Transfers async_writer := {
  transfer_some w bufs m :=
    let st := aw_stream w in
    '(op, m, state, t) ← async_send (st_endpoint st) (st_state st) bufs m (st_trace st);
    Some (reactor_op.ec_ op, reactor_op.bytes_transferred_ op, m,
          mkAsyncWriter (mkStream (st_endpoint st) state t))
}.
