(* ===== verification/SocketStreamSpec.v ===== *)
(** A socket is a stream in the sense of [TransferLaws]: what an asynchronous
    transfer reads goes, in order, to the first bytes of its buffers, what it
    writes comes from there, and without an error some bytes are moved.  With the
    laws of the composed operations this gives what [async_read] and
    [async_write] promise the handlers of the program. *)

From S2P Require Import Prelude.
From S2P Require Import AsioError.
From S2P Require Import Buffers.
From S2P Require Import ConsumingBuffers.
From S2P Require Import SocketOps.
From S2P Require Import ReadWrite.
From S2P Require Import SocketSpec.
From S2P Require Import SocketStream.

(** * Adapters *)

Lemma max_buffers_64 : max_buffers = 64.
Proof. done. Qed.

Lemma adapter_init_buffers bs a :
  zlen (buffers a) + zlen bs <= 64 ->
  buffers (adapter_init bs a) = buffers a ++ (init_native_buffer <$> bs).
Proof.
  revert a; induction bs as [|b bs IH]; intros a Ha; simpl; [by rewrite app_nil_r|].
  rewrite zlen_cons in Ha. pose proof (zlen_nonneg bs).
  unfold count. rewrite max_buffers_64. destruct (Z.ltb_spec (zlen (buffers a)) 64); [|lia].
  rewrite IH; simpl; [by rewrite <- app_assoc|].
  rewrite zlen_app, zlen_cons, zlen_nil. lia.
Qed.

Lemma adapter_buffers s :
  zlen (elements s) <= 64 -> buffers (new_adapter s) = init_native_buffer <$> elements s.
Proof.
  destruct s as [b|bs]; simpl; [done|]. intros Hl. by rewrite adapter_init_buffers.
Qed.

Lemma iov_addresses_flatten s :
  zlen (elements s) <= 64 -> iov_addresses (new_adapter s) = flatten (elements s).
Proof.
  intros Hl. unfold iov_addresses, flatten. rewrite adapter_buffers by done.
  by rewrite <- list_fmap_compose.
Qed.

Lemma sum_iov_sizes s :
  zlen (elements s) <= 64 -> Forall buffer_wf (elements s) ->
  sum_sizes (iov_sizes (new_adapter s)) = zlen (flatten (elements s)).
Proof.
  intros Hl Hw. unfold iov_sizes, sum_sizes. rewrite adapter_buffers by done. clear Hl.
  induction Hw as [|b bs Hb Hw IH]; [done|].
  rewrite flatten_cons, zlen_app, <- IH, zlen_addresses by done. unfold buffer_wf in Hb.
  rewrite !fmap_cons. simpl. lia.
Qed.

Lemma iov_data_load m s bss :
  zlen (elements s) <= 64 -> iov_data m (new_adapter s) = Some bss ->
  mapM (m !!.) (flatten (elements s)) = Some (concat bss).
Proof.
  intros Hl. unfold iov_data. rewrite adapter_buffers by done. clear Hl.
  revert bss; induction (elements s) as [|b bs IH]; intros bss; rewrite ?fmap_cons; simpl.
  { by intros [= <-]. }
  intros E. apply bind_Some in E as (b1 & Hb & E). apply bind_Some in E as (bss1 & Hbs & [= <-]).
  rewrite flatten_cons. apply mapM_app_Some; [exact Hb|by apply IH].
Qed.

Lemma all_empty_flatten s :
  zlen (elements s) <= 16 -> Forall buffer_wf (elements s) -> all_empty s = true ->
  flatten (elements s) = [].
Proof.
  destruct s as [b|bs]; simpl; intros Hl Hw.
  - rewrite Z.eqb_eq, flatten_one. intros E. unfold addresses. by rewrite E.
  - enough (forall i, 0 <= i -> i + zlen bs <= 16 -> all_empty_loop bs i = true ->
      flatten bs = []) as Hgen by (apply (Hgen 0); lia).
    clear Hl. induction Hw as [|b bs Hb Hw IH]; intros i Hi Hl; simpl; [done|].
    rewrite zlen_cons in Hl. pose proof (zlen_nonneg bs).
    rewrite max_buffers_64. destruct (Z.ltb_spec i 64); [|lia].
    destruct (Z.ltb_spec 0 (size b)); [done|]. intros E.
    rewrite flatten_cons, (IH (i + 1)), app_nil_r by (done || lia).
    unfold addresses. rewrite seqZ_nil; [done|lia].
Qed.

(** * Memory *)

Lemma store_bytes_nil m l : store_bytes m l [] = m.
Proof. unfold store_bytes. by rewrite zip_with_nil_r. Qed.

Lemma store_bytes_take m l bs :
  (length bs <= length l)%nat -> store_bytes m (take (length bs) l) bs = store_bytes m l bs.
Proof.
  intros Hl. unfold store_bytes. f_equal.
  rewrite <- (zip_take_min (length bs) l bs) by lia. by rewrite firstn_all.
Qed.

Lemma store_bytes_app m l k bs cs :
  length l = length bs ->
  store_bytes m (l ++ k) (bs ++ cs) = store_bytes (store_bytes m l bs) k cs.
Proof.
  intros Hl. unfold store_bytes. rewrite zip_with_app by done. apply foldl_app.
Qed.

(** * Receiving *)

(** What an operation that receives into [l] leaves, when it had nothing. *)
Definition recv_op_outcome (l : list Z) (is_stream : bool) (m : memory) (t : sys_trace)
    (op : reactor_op.t) (m' : memory) (t' : sys_trace) : Prop :=
  exists bs,
    receives t bs t' /\ m' = store_bytes m l bs /\
    reactor_op.bytes_transferred_ op = zlen bs /\ zlen bs <= zlen l /\
    (ec_is_error (reactor_op.ec_ op) = false -> is_stream = true -> 0 < zlen bs).

Section Bufs.
Context (bufs : buffer_sequence).
Hypothesis Hwf : Forall buffer_wf (elements bufs).
Hypothesis Hcount : zlen (elements bufs) <= 16.

Lemma recv_do_perform_spec e state op m t status op' m' t' :
  Forall answer_ok t -> reactor_op.bytes_transferred_ op = 0 ->
  recv_do_perform e state bufs op m t = Some ((status, op', m'), t') ->
  (length t' < length t)%nat /\
  recv_op_outcome (flatten (elements bufs)) (has state stream_oriented) m t op' m' t' /\
  (reactor_op.finished status = false ->
  m' = m /\ reactor_op.bytes_transferred_ op' = 0 /\ receives t [] t').
Proof.
  intros Ht Hop E. unfold recv_do_perform in E. rewrite Hop in E. sys_inv.
  set (is_stream := has state stream_oriented) in *.
  assert (forall over bs ec k t1,
    (length t1 < length t)%nat ->
    recv_outcome (zlen (flatten (elements bufs))) is_stream t bs ec k t1 ->
    (over = false -> bs = []) ->
    forall status, (reactor_op.finished status = over) ->
    (length t1 < length t)%nat /\
    recv_op_outcome (flatten (elements bufs)) is_stream m t (reactor_op.mk ec k)
    (store_bytes m (flatten (elements bufs)) bs) t1 /\
    (reactor_op.finished status = false ->
   store_bytes m (flatten (elements bufs)) bs = m /\ k = 0 /\ receives t [] t1)) as Hend.
  { intros over bs ec k t1 Hl (Hr & -> & Hle & Hpos) Ho st <-. split; [done|]. split.
    - exists bs. split_and!; done.
    - intros Hf. rewrite (Ho Hf) in *. by rewrite store_bytes_nil. }
  assert (forall b : bool, reactor_op.finished
    (if b then reactor_op.done else reactor_op.not_done) = b) as Hfin by (by intros []).
  assert (forall (b c : bool), reactor_op.finished
    (if b && c then reactor_op.done_and_exhausted
   else if b then reactor_op.done else reactor_op.not_done) = b) as Hfin2
    by (by intros [] []).
  destruct (is_single_buffer bufs) eqn:Hs.
  - destruct bufs as [b|]; [|done]. cbn [elements first] in *. rewrite flatten_one in *.
    rewrite Forall_singleton in Hwf.
    destruct (non_blocking_recv1 _ _ _ _ _ _ t) as [[[[[over bs] ec] k] t1]|] eqn:En; [|done].
    sys_inv. unfold non_blocking_recv1 in En.
    apply (non_blocking_recv_loop_spec _ _ _ _ _ _ _ _ _ _ (recv1_ok _ _ _)) in En
      as (Hl & Ho & Hno); [|lia|done].
    rewrite Z2Nat.id, <- zlen_addresses in Ho by (unfold buffer_wf in *; simpl; lia).
    rewrite Hfin, <- andb_assoc. eapply Hend; [done|done|done|]. apply Hfin2.
  - destruct (non_blocking_recv _ _ _ _ _ _ t) as [[[[[over bs] ec] k] t1]|] eqn:En; [|done].
    sys_inv. unfold non_blocking_recv in En.
    apply (non_blocking_recv_loop_spec _ _ _ _ _ _ _ _ _ _ (recv_ok _ _ _)) in En
      as (Hl & Ho & Hno); [|unfold sum_sizes; lia|done].
    rewrite sum_iov_sizes, ?iov_addresses_flatten in * by (done || lia).
    rewrite Hfin, <- andb_assoc. eapply Hend; [done|done|done|]. apply Hfin2.
Qed.
End Bufs.

(** * Starting an operation *)

(** Making the descriptor non-blocking moves no byte and keeps the kind of the
    socket; when it fails there is an error. *)
Lemma has_set_flag state flag flag' :
  has state flag = true -> has (set_flag state flag') flag = true.
Proof.
  unfold has, set_flag. rewrite !negb_true_iff, !Z.eqb_neq. intros Hs Hz. apply Hs.
  rewrite Z.land_lor_distr_l in Hz. by apply Z.lor_eq_0_iff in Hz as [Hz _].
Qed.

Lemma set_internal_non_blocking_spec s state ec t ok state' ec' t' :
  Forall answer_ok t -> has state stream_oriented = true -> s <> invalid_socket ->
  set_internal_non_blocking s state true ec t = Some ((ok, state', ec'), t') ->
  receives t [] t' /\ sends t [] t' /\ has state' stream_oriented = true /\
  (ok = false -> ec_is_error ec' = true).
Proof.
  intros Ht Hst Hs E. unfold set_internal_non_blocking in E.
  destruct (Z.eqb_spec s invalid_socket); [done|]. cbn [negb andb] in E.
  unfold ioctl_mode in E. sys_inv;
    apply Forall_cons in Ht as [Ha _]; unfold answer_ok in Ha; cbn [fst snd] in Ha;
    (split; [apply (receives_cons (SysIoctl _ _ _, _))|]);
    (split; [apply (sends_cons (SysIoctl _ _ _, _))|]).
  - split; [by apply has_set_flag|done].
  - apply Z.leb_gt in Eif. split; [done|]. intros _.
    destruct (Z.ltb_spec (an_result a) 0); [|lia]. apply errno_is_error. auto.
Qed.

(** Every transfer an asynchronous operation may end with has the property [Q]
    that its performs keep; a no-op and a failed start move nothing. *)
Lemma do_start_op_ind (Q : reactor_op.t -> memory -> Z -> sys_trace -> Prop)
    e state noop m t perform op m' state' t' :
  Forall answer_ok t -> has state stream_oriented = true -> ep_socket e <> invalid_socket ->
  (noop = true -> Q (reactor_op.new ec_success) m state t) ->
  (forall ec state1 t1,
     ec_is_error ec = true -> has state1 stream_oriented = true ->
     receives t [] t1 -> sends t [] t1 -> Q (reactor_op.mk ec 0) m state1 t1) ->
  (forall op0 state1 t1 op1 m1 t2,
     reactor_op.bytes_transferred_ op0 = 0 -> has state1 stream_oriented = true ->
     noop = false -> receives t [] t1 -> sends t [] t1 ->
     perform_until_done (perform state1) op0 m t1 = Some ((op1, m1), t2) -> Q op1 m1 state1 t2) ->
  do_start_op e state noop (reactor_op.new ec_success) m perform t = Some ((op, m', state'), t') ->
  Q op m' state' t'.
Proof.
  intros Ht Hst Hs Hnoop Hfail Hgo E. unfold do_start_op in E.
  destruct noop; cbn [negb] in E; [sys_inv; by apply Hnoop|]. sys_inv.
  destruct (has state non_blocking).
  - unfold mret at 1, sys_ret at 1 in E. cbv beta iota in E.
    destruct (perform_until_done _ _ _ t) as [[[op1 m1] t1]|] eqn:Ep; sys_inv.
    eapply (Hgo _ _ _ _ _ _ _ Hst); [done|apply receives_nil|apply sends_nil|exact Ep].
    Unshelve. done.
  - destruct (set_internal_non_blocking _ _ _ _ t) as [[[[ok state1] ec1] t1]|] eqn:Es; [|done].
    destruct (set_internal_non_blocking_spec _ _ _ _ _ _ _ _ Ht Hst Hs Es) as (Hr & Hse & Hs1 & Hf).
    destruct ok.
    + destruct (perform_until_done _ _ _ t1) as [[[op1 m1] t2]|] eqn:Ep; sys_inv.
      by eapply (Hgo (reactor_op.mk ec1 0)).
    + sys_inv. apply Hfail; auto.
Qed.

(** * Sending *)

(** What an operation that sends from [l] leaves. *)
Definition send_op_outcome (l : list Z) (m : memory) (t : sys_trace) (op : reactor_op.t)
    (m' : memory) (t' : sys_trace) : Prop :=
  exists bs,
    mapM (m !!.) (take (length bs) l) = Some bs /\ sends t bs t' /\ m' = m /\
    reactor_op.bytes_transferred_ op = zlen bs /\ zlen bs <= zlen l /\
    (ec_is_error (reactor_op.ec_ op) = false -> l <> [] -> 0 < zlen bs).

Lemma mapM_take {A B} (f : A -> option B) l bs n :
  mapM f l = Some bs -> mapM f (take n l) = Some (take n bs).
Proof. rewrite !mapM_Some. apply Forall2_take. Qed.

Lemma mapM_length' {A B} (f : A -> option B) l bs : mapM f l = Some bs -> length bs = length l.
Proof. intros Hl. symmetry. by eapply length_mapM. Qed.

Lemma send_outcome_op l m t data ec k t' :
  mapM (m !!.) l = Some data -> send_outcome data t ec k t' ->
  send_op_outcome l m t (reactor_op.mk ec k) m t'.
Proof.
  intros Hl (Hk & Hs & Hpos). pose proof (mapM_length' _ _ _ Hl) as Hlen.
  unfold zlen in Hk.
  assert (length (take (Z.to_nat k) data) = Z.to_nat k) as Ek by (rewrite length_take; lia).
  exists (take (Z.to_nat k) data). rewrite Ek. unfold zlen. rewrite Ek. simpl.
  split_and!; try done; try lia; [by apply mapM_take|].
  intros He Hne. rewrite Z2Nat.id by lia. apply Hpos; [done|].
  intros ->. destruct l; [done|simpl in Hlen; lia].
Qed.

Section SendBufs.
Context (bufs : buffer_sequence).
Hypothesis Hwf : Forall buffer_wf (elements bufs).
Hypothesis Hcount : zlen (elements bufs) <= 16.

Lemma send_do_perform_spec e state op m t status op' m' t' :
  Forall answer_ok t -> reactor_op.bytes_transferred_ op = 0 ->
  send_do_perform e state bufs op m t = Some ((status, op', m'), t') ->
  (length t' < length t)%nat /\
  send_op_outcome (flatten (elements bufs)) m t op' m' t' /\
  (reactor_op.finished status = false ->
  m' = m /\ reactor_op.bytes_transferred_ op' = 0 /\ sends t [] t').
Proof.
  intros Ht Hop E. unfold send_do_perform in E. rewrite Hop in E. sys_inv.
  set (is_stream := has state stream_oriented) in *.
  assert (forall data over ec k t1,
    mapM (m !!.) (flatten (elements bufs)) = Some data ->
    (length t1 < length t)%nat -> send_outcome data t ec k t1 ->
    (over = false -> k = 0) ->
    forall status, (reactor_op.finished status = over) ->
    (length t1 < length t)%nat /\
    send_op_outcome (flatten (elements bufs)) m t (reactor_op.mk ec k) m t1 /\
    (reactor_op.finished status = false -> m = m /\ k = 0 /\ sends t [] t1)) as Hend.
  { intros data over ec k t1 Hl Hlt Ho Hno st <-. split; [done|]. split.
    - by eapply send_outcome_op.
    - intros Hf. destruct Ho as (_ & Hs & _). rewrite (Hno Hf) in *. done. }
  assert (forall b : bool, reactor_op.finished
    (if b then reactor_op.done else reactor_op.not_done) = b) as Hfin by (by intros []).
  assert (forall (b c : bool), reactor_op.finished
    (if b && c then reactor_op.done_and_exhausted
   else if b then reactor_op.done else reactor_op.not_done) = b) as Hfin2
    by (by intros [] []).
  destruct (is_single_buffer bufs) eqn:Hs.
  - destruct bufs as [b|]; [|done]. cbn [elements first] in *. rewrite flatten_one in *. sys_inv.
    unfold with_memory in E. destruct (load_bytes m (data b) (size b)) as [bs|] eqn:El; [|done].
    sys_inv.
    destruct (non_blocking_send1 _ _ _ _ _ t) as [[[[over ec] k] t1]|] eqn:En; [|done].
    sys_inv. unfold non_blocking_send1 in En.
    apply (non_blocking_send_loop_spec _ _ _ _ _ _ _ _ (send1_ok _ _ _)) in En
      as (Hl & Ho & Hno); [|done].
    rewrite Hfin, <- andb_assoc. eapply Hend; [exact El|done|done|done|]. apply Hfin2.
  - sys_inv. unfold with_memory in E.
    destruct (iov_data m (new_adapter bufs)) as [bss|] eqn:El; [|done]. sys_inv.
    destruct (non_blocking_send _ _ _ _ _ t) as [[[[over ec] k] t1]|] eqn:En; [|done].
    sys_inv. unfold non_blocking_send in En.
    apply (non_blocking_send_loop_spec _ _ _ _ _ _ _ _ (send_ok _ _ _)) in En
      as (Hl & Ho & Hno); [|done].
    apply iov_data_load in El; [|lia].
    rewrite Hfin, <- andb_assoc. eapply Hend; [exact El|done|done|done|]. apply Hfin2.
Qed.
End SendBufs.

(** * Performing until done *)

(** The performs before the last one leave memory as it is and move nothing. *)
Lemma perform_until_done_spec (O : memory -> sys_trace -> reactor_op.t -> memory -> sys_trace -> Prop)
    (moves : sys_trace -> bytes -> sys_trace -> Prop) perform op m t op' m' t' :
  (forall t bs t', moves t bs t' -> Forall answer_ok t -> Forall answer_ok t') ->
  (forall t1 t2 t3, moves t1 [] t2 -> moves t2 [] t3 -> moves t1 [] t3) ->
  (forall m t1 t2 op m' t3, moves t1 [] t2 -> O m t2 op m' t3 -> O m t1 op m' t3) ->
  (forall op m t status op' m' t',
     Forall answer_ok t -> reactor_op.bytes_transferred_ op = 0 ->
     perform op m t = Some ((status, op', m'), t') ->
     O m t op' m' t' /\
     (reactor_op.finished status = false ->
      m' = m /\ reactor_op.bytes_transferred_ op' = 0 /\ moves t [] t')) ->
  moves t [] t -> Forall answer_ok t -> reactor_op.bytes_transferred_ op = 0 ->
  perform_until_done perform op m t = Some ((op', m'), t') -> O m t op' m' t'.
Proof.
  intros Hok Htr Hext Hperf Hnil Ht Hop E. unfold perform_until_done in E.
  pose (Q := fun (r : reactor_op.t * memory) t' => O m t r.1 r.2 t').
  change (Q (op', m') t'). revert E.
  apply (loop_ind _ (fun '(op1, m1) t1 =>
    m1 = m /\ reactor_op.bytes_transferred_ op1 = 0 /\ moves t [] t1)).
  - done.
  - intros [op1 m1] t1 [op2 m2] t2 (-> & Hop1 & Hm) E. sys_inv.
    destruct (perform op1 m t1) as [[[[st op3] m3] t3]|] eqn:Ep; [|done].
    destruct (Hperf _ _ _ _ _ _ _ (Hok _ _ _ Hm Ht) Hop1 Ep) as (_ & Hn). sys_inv.
    destruct (reactor_op.finished st); [done|]. simplify_eq.
    destruct (Hn eq_refl) as (-> & Hop3 & Hm3). split_and!; [done|done|by eapply Htr].
  - intros [op1 m1] t1 r t2 (-> & Hop1 & Hm) E. sys_inv.
    destruct (perform op1 m t1) as [[[[st op3] m3] t3]|] eqn:Ep; [|done].
    destruct (Hperf _ _ _ _ _ _ _ (Hok _ _ _ Hm Ht) Hop1 Ep) as (Ho & _). sys_inv.
    destruct (reactor_op.finished st); [|done]. simplify_eq. by eapply Hext.
Qed.

(** * The laws *)

(** A connected socket whose system answers as documented. *)
Definition stream_ok (st : socket_stream) : Prop :=
  Forall answer_ok (st_trace st) /\ has (st_state st) stream_oriented = true /\
  ep_socket (st_endpoint st) <> invalid_socket.

(** What was read into [l]: the bytes received meanwhile, in order. *)
Definition read_rel (l : list Z) (x y : memory * async_reader) : Prop :=
  exists bs,
    length bs = length l /\ y.1 = store_bytes x.1 l bs /\
    receives (st_trace (ar_stream x.2)) bs (st_trace (ar_stream y.2)).

(** What was written from [l]: the bytes sent meanwhile; memory is as it was. *)
Definition write_rel (l : list Z) (x y : memory * async_writer) : Prop :=
  exists bs,
    mapM (x.1 !!.) l = Some bs /\ y.1 = x.1 /\
    sends (st_trace (aw_stream x.2)) bs (st_trace (aw_stream y.2)).

Lemma take_zlen_store m l bs :
  zlen bs <= zlen l -> store_bytes m l bs = store_bytes m (take (Z.to_nat (zlen bs)) l) bs.
Proof.
  unfold zlen. intros Hl. rewrite Nat2Z.id. symmetry. apply store_bytes_take. lia.
Qed.

Lemma async_receive_spec e state bufs m t op m' state' t' :
  Forall buffer_wf (elements bufs) -> zlen (elements bufs) <= 16 ->
  Forall answer_ok t -> has state stream_oriented = true -> ep_socket e <> invalid_socket ->
  async_receive e state bufs m t = Some ((op, m', state'), t') ->
  has state' stream_oriented = true /\
  exists bs,
    receives t bs t' /\ m' = store_bytes m (flatten (elements bufs)) bs /\
    reactor_op.bytes_transferred_ op = zlen bs /\ zlen bs <= zlen (flatten (elements bufs)) /\
    (ec_is_error (reactor_op.ec_ op) = false -> flatten (elements bufs) <> [] -> 0 < zlen bs).
Proof.
  intros Hw Hn Ht Hst Hs E. revert E. unfold async_receive.
  pose proof (zlen_nonneg (flatten (elements bufs))).
  apply (do_start_op_ind (fun op m' state' t' => has state' stream_oriented = true /\ exists bs,
    receives t bs t' /\ m' = store_bytes m (flatten (elements bufs)) bs /\
    reactor_op.bytes_transferred_ op = zlen bs /\ zlen bs <= zlen (flatten (elements bufs)) /\
    (ec_is_error (reactor_op.ec_ op) = false -> flatten (elements bufs) <> [] -> 0 < zlen bs)));
    [done|done|done| | |].
  - intros Hno. split; [done|]. exists []. rewrite store_bytes_nil.
    unfold is_noop in Hno. rewrite Hst in Hno. apply all_empty_flatten in Hno; [|done|done].
    rewrite Hno in *. split_and!; [apply receives_nil|done..].
  - intros ec state1 t1 He Hst1 Hr _. split; [done|]. exists []. rewrite store_bytes_nil. simpl.
    rewrite He. split_and!; done.
  - intros op0 state1 t1 op1 m1 t2 Hop Hst1 _ Hr _ E. split; [done|].
    apply (perform_until_done_spec
      (recv_op_outcome (flatten (elements bufs)) (has state1 stream_oriented)) receives) in E.
    + destruct E as (bs & Hr2 & -> & Hbt & Hle & Hpos). exists bs.
      split_and!; [by apply (receives_app _ [] _ _ _ Hr Hr2)|done..|]. intros He _. auto.
    + apply receives_ok.
    + intros t3 t4 t5 H1 H2. apply (receives_app _ [] _ [] _ H1 H2).
    + intros m2 t3 t4 op2 m3 t5 H1 (bs & H2 & H3). exists bs.
      split; [apply (receives_app _ [] _ _ _ H1 H2)|done].
    + intros op2 m2 t3 st op3 m3 t4 Ht3 Hop2 Ep.
      eapply recv_do_perform_spec in Ep; [|done..]. tauto.
    + apply receives_nil.
    + by eapply receives_ok.
    + done.
Qed.

Lemma async_send_spec e state bufs m t op m' state' t' :
  Forall buffer_wf (elements bufs) -> zlen (elements bufs) <= 16 ->
  Forall answer_ok t -> has state stream_oriented = true -> ep_socket e <> invalid_socket ->
  async_send e state bufs m t = Some ((op, m', state'), t') ->
  has state' stream_oriented = true /\
  send_op_outcome (flatten (elements bufs)) m t op m' t'.
Proof.
  intros Hw Hn Ht Hst Hs E. revert E. unfold async_send.
  pose proof (zlen_nonneg (flatten (elements bufs))).
  apply (do_start_op_ind (fun op m' state' t' => has state' stream_oriented = true /\
    send_op_outcome (flatten (elements bufs)) m t op m' t'));
    [done|done|done| | |].
  - intros Hno. split; [done|]. exists [].
    unfold is_noop in Hno. rewrite Hst in Hno. apply all_empty_flatten in Hno; [|done|done].
    rewrite Hno in *. split_and!; [done|apply sends_nil|done..].
  - intros ec state1 t1 He Hst1 _ Hse. split; [done|]. exists []. simpl.
    rewrite He. split_and!; done.
  - intros op0 state1 t1 op1 m1 t2 Hop Hst1 _ _ Hse E. split; [done|].
    assert (forall m t1 t2 op m' t3, sends t1 [] t2 ->
      send_op_outcome (flatten (elements bufs)) m t2 op m' t3 ->
      send_op_outcome (flatten (elements bufs)) m t1 op m' t3) as Hext.
    { intros m2 t3 t4 op2 m3 t5 H1 (bs & H2 & H3 & H4). exists bs. split; [done|].
      split; [apply (sends_app _ [] _ _ _ H1 H3)|done]. }
    apply (perform_until_done_spec (send_op_outcome (flatten (elements bufs))) sends) in E.
    + by eapply Hext.
    + apply sends_ok.
    + intros t3 t4 t5 H1 H2. apply (sends_app _ [] _ [] _ H1 H2).
    + done.
    + intros op2 m2 t3 st op3 m3 t4 Ht3 Hop2 Ep.
      eapply send_do_perform_spec in Ep; [|done..]. tauto.
    + apply sends_nil.
    + by eapply sends_ok.
    + done.
Qed.

#[global, program] Instance async_reader_laws : TransferLaws async_reader := {
  tr_ok m r := stream_ok (ar_stream r);
  tr_rel := read_rel
}.
Next Obligation.
  intros m s. exists []. split; [done|]. split; [done|apply receives_nil].
Qed.
Next Obligation.
  intros l k x y z (bs & Hl & Hy & Hr) (cs & Hk & Hz & Hr'). exists (bs ++ cs).
  split; [by rewrite !length_app, Hl, Hk|]. rewrite Hz, Hy. split.
  - by rewrite store_bytes_app.
  - by eapply receives_app.
Qed.
Next Obligation.
  intros s bufs m ec n m' s' (Ht & Hst & Hs) Hw Hn E. simpl in E.
  apply bind_Some in E as ([[[op m1] state1] t1] & E & [= <- <- <- <-]).
  destruct (async_receive_spec _ _ _ _ _ _ _ _ _ Hw Hn Ht Hst Hs E)
    as (Hst1 & bs & Hr & -> & -> & Hle & Hpos).
  pose proof (zlen_nonneg bs). split; [lia|]. split; [done|]. split.
  - split; [by eapply receives_ok|done].
  - exists bs. simpl. rewrite <- take_zlen_store by done. split_and!; [|done|done].
    unfold zlen in *. rewrite length_take. lia.
Qed.

(** [receive] of one buffer stores what it received. *)
Lemma receive_spec e state b ec m t n ec' m' t' :
  buffer_wf b -> Forall answer_ok t -> has state stream_oriented = true -> ep_socket e <> invalid_socket ->
  receive e state (one_buffer b) ec m t = Some ((n, ec', m'), t') ->
  exists bs,
    receives t bs t' /\ m' = store_bytes m (addresses b) bs /\ n = zlen bs /\ zlen bs <= size b /\
    (ec_is_error ec' = false -> 0 < size b -> bs <> []).
Proof.
  intros Hw Ht Hst Hs E. unfold receive in E. cbn [is_single_buffer first] in E. sys_inv.
  destruct (sync_recv1 _ _ _ _ _ t) as [[[[count bs] ec1] t1]|] eqn:Es; [|done]. sys_inv. exists bs.
  unfold sync_recv1 in Es. rewrite (proj2 (Z.eqb_neq _ _) Hs), Hst, andb_true_r in Es. unfold buffer_wf in Hw.
  destruct (Nat.eqb_spec (Z.to_nat (size b)) 0) as [Hz|Hz].
  { sys_inv. split_and!; [apply receives_nil|done|done|rewrite zlen_nil; lia|lia]. }
  apply (sync_recv_loop_spec _ _ _ _ _ _ _ _ _ _ (recv1_ok _ _ _)) in Es as (Hr & -> & Hle & Hpos); [|lia|done].
  rewrite Z2Nat.id in Hle by lia. split_and!; try done. intros He _ ->. by specialize (Hpos He Hst).
Qed.

#[global, program] Instance async_writer_laws : TransferLaws async_writer := {
  tr_ok m w := stream_ok (aw_stream w);
  tr_rel := write_rel
}.
Next Obligation.
  intros m s. exists []. split; [done|]. split; [done|apply sends_nil].
Qed.
Next Obligation.
  intros l k x y z (bs & Hl & Hy & Hr) (cs & Hk & Hz & Hr'). exists (bs ++ cs).
  rewrite Hy in Hk, Hz. split; [by apply mapM_app_Some|]. split; [done|].
  by eapply sends_app.
Qed.
Next Obligation.
  intros s bufs m ec n m' s' (Ht & Hst & Hs) Hw Hn E. simpl in E.
  apply bind_Some in E as ([[[op m1] state1] t1] & E & [= <- <- <- <-]).
  destruct (async_send_spec _ _ _ _ _ _ _ _ _ Hw Hn Ht Hst Hs E)
    as (Hst1 & bs & Hm & Hr & -> & -> & Hle & Hpos).
  pose proof (zlen_nonneg bs). split; [lia|]. split; [done|]. split.
  - split; [by eapply sends_ok|done].
  - exists bs. unfold zlen. rewrite Nat2Z.id. done.
Qed.

(** * Composed operations on a socket *)

Lemma async_read_done {C} `{ConsumingLaws C} cancelled (c : C) m r :
  cb_ok c -> stream_ok (ar_stream r) -> op_done c m r (async_read cancelled c m r).
Proof. intros Hc Hr. apply run_op_done; [done|exact Hr|unfold op_fuel; lia]. Qed.

Lemma async_write_done {C} `{ConsumingLaws C} cancelled (c : C) m w :
  cb_ok c -> stream_ok (aw_stream w) -> op_done c m w (async_write cancelled c m w).
Proof. intros Hc Hw. apply run_op_done; [done|exact Hw|unfold op_fuel; lia]. Qed.

Lemma progress_read {C} `{ConsumingLaws C} (c : C) m r n m' r' :
  progress c m r n m' r' ->
  exists bs,
    zlen bs = n /\ n <= zlen (cb_rest c) /\ m' = store_bytes m (cb_rest c) bs /\
    receives (st_trace (ar_stream r)) bs (st_trace (ar_stream r')).
Proof.
  intros [Hn (bs & Hl & Hm & Hr)]. exists bs. simpl in *.
  rewrite length_take in Hl. unfold zlen in *. split; [lia|]. split; [lia|]. split; [|done].
  rewrite Hm, (take_zlen_store m (cb_rest c) bs) by (unfold zlen; lia).
  do 2 f_equal. unfold zlen. lia.
Qed.

Lemma progress_write {C} `{ConsumingLaws C} (c : C) m w n m' w' :
  progress c m w n m' w' ->
  0 <= n <= zlen (cb_rest c) /\ m' = m /\
  exists bs,
    mapM (m !!.) (take (Z.to_nat n) (cb_rest c)) = Some bs /\
    sends (st_trace (aw_stream w)) bs (st_trace (aw_stream w')).
Proof. intros [Hn (bs & Hl & Hm & Hr)]. split; [done|]. split; [done|]. by exists bs. Qed.

(** C32. [async_read] on a socket, over whatever buffers and however the system
    cuts the stream, interrupts its calls or has nothing to read yet, calls its
    handler with the bytes received meanwhile stored in order at the start of the
    buffers, their number as the total and never more than the buffers hold; when
    it reports no error they fill the buffers.  It ends before its fuel: if the
    handler is not called, a transfer is waiting. *)
Theorem async_read_fills {C} `{ConsumingLaws C} cancelled (c : C) m r
    (Hc : cb_ok c) (Hr : stream_ok (ar_stream r)) :
  match async_read cancelled c m r with
  | Completed ec total m' r' =>
      exists bs,
        receives (st_trace (ar_stream r)) bs (st_trace (ar_stream r')) /\
        m' = store_bytes m (cb_rest c) bs /\
        total = total_consumed c + zlen bs /\ zlen bs <= zlen (cb_rest c) /\
        (ec_is_error ec = false -> zlen bs = zlen (cb_rest c))
  | InFlight =>
      exists bs r' bufs,
        receives (st_trace (ar_stream r)) bs (st_trace (ar_stream r')) /\
        zlen bs <= zlen (cb_rest c) /\
        transfer_some r' bufs (store_bytes m (cb_rest c) bs) = None
  | OutOfFuel => False
  end.
Proof.
  pose proof (async_read_done cancelled c m r Hc Hr) as Hd.
  destruct (async_read cancelled c m r) as [ec total m' r'| |]; simpl in Hd; [| |done].
  - destruct Hd as (n & Hp & _ & -> & Hfull).
    destruct (progress_read _ _ _ _ _ _ Hp) as (bs & <- & Hle & Hm & Hrec). by exists bs.
  - destruct Hd as (n & m' & r' & bufs & Hp & Hb).
    destruct (progress_read _ _ _ _ _ _ Hp) as (bs & <- & Hle & -> & Hrec).
    by exists bs, r', bufs.
Qed.

(** [async_write] on a socket calls its handler with the number of bytes
    sent, which are the first bytes of the buffers, in order; when it reports no
    error all of them have been sent.  It ends before its fuel: if the handler is
    not called, a transfer is waiting. *)
Theorem async_write_sends {C} `{ConsumingLaws C} cancelled (c : C) m w
    (Hc : cb_ok c) (Hw : stream_ok (aw_stream w)) :
  match async_write cancelled c m w with
  | Completed ec total m' w' =>
      exists n bs,
        total = total_consumed c + n /\ 0 <= n <= zlen (cb_rest c) /\ m' = m /\
        mapM (m !!.) (take (Z.to_nat n) (cb_rest c)) = Some bs /\
        sends (st_trace (aw_stream w)) bs (st_trace (aw_stream w')) /\
        (ec_is_error ec = false -> mapM (m !!.) (cb_rest c) = Some bs)
  | InFlight => exists w' bufs, transfer_some w' bufs m = None
  | OutOfFuel => False
  end.
Proof.
  pose proof (async_write_done cancelled c m w Hc Hw) as Hd.
  destruct (async_write cancelled c m w) as [ec total m' w'| |]; simpl in Hd; [| |done].
  - destruct Hd as (n & Hp & _ & -> & Hfull).
    destruct (progress_write _ _ _ _ _ _ Hp) as (Hn & -> & bs & Hl & Hs).
    exists n, bs. split_and!; try done; try lia. intros He. specialize (Hfull He). subst n.
    unfold zlen in Hl. by rewrite Nat2Z.id, firstn_all in Hl.
  - destruct Hd as (n & m' & w' & bufs & Hp & Hb).
    destruct (progress_write _ _ _ _ _ _ Hp) as (_ & -> & _). by exists w', bufs.
Qed.

(** ** A connection that is interrupted, has to wait, and is cut in two *)

Definition test_endpoint : endpoint := mkEndpoint 7 0.

Definition failure (errno : Z) : answer := mkAnswer (-1) errno [] 0.

Definition recv_trace : sys_trace :=
  [(SysIoctl 7 FIONBIO 1, mkAnswer 0 0 [] 1);
   (SysRecv 7 5 0, failure 4); (SysRecv 7 5 0, failure 11);
   (SysRecv 7 5 0, mkAnswer 2 0 (lit "he") 0);
   (SysRecv 7 3 0, mkAnswer 3 0 (lit "llo") 0)].

Definition send_trace : sys_trace :=
  [(SysIoctl 7 FIONBIO 1, mkAnswer 0 0 [] 1);
   (SysSend 7 (lit "hello") MSG_NOSIGNAL, failure 11);
   (SysSend 7 (lit "hello") MSG_NOSIGNAL, mkAnswer 4 0 [] 0);
   (SysSend 7 (lit "o") MSG_NOSIGNAL, mkAnswer 1 0 [] 0)].

Definition test_stream (t : sys_trace) : socket_stream :=
  mkStream test_endpoint stream_oriented t.

Definition memory5 (bs : bytes) : memory := list_to_map (zip (seqZ 0 5) bs).

Lemma buffer5_ok : cb_ok (new_single (mkBuffer 0 5)).
Proof. simpl. unfold buffer_wf; simpl. lia. Qed.

Lemma recv_trace_ok : stream_ok (test_stream recv_trace).
Proof.
  split; [|done]. unfold recv_trace.
  repeat constructor; (by right || (left; split_and!; done) || done).
Qed.

Lemma send_trace_ok : stream_ok (test_stream send_trace).
Proof.
  split; [|done]. unfold send_trace.
  repeat constructor; (by right || (left; split_and!; done) || done).
Qed.

Lemma async_read_fills_witness :
  exists m' r' bs,
    async_read (fun _ => false) (new_single (mkBuffer 0 5)) (memory5 (lit "....."))
      (mkAsyncReader (test_stream recv_trace)) = Completed ec_success 5 m' r' /\
    load_bytes m' 0 5 = Some (lit "hello") /\
    receives recv_trace bs (st_trace (ar_stream r')) /\ zlen bs = 5.
Proof.
  assert (exists m' r',
    async_read (fun _ => false) (new_single (mkBuffer 0 5)) (memory5 (lit "....."))
      (mkAsyncReader (test_stream recv_trace)) = Completed ec_success 5 m' r' /\
    load_bytes m' 0 5 = Some (lit "hello")) as (m' & r' & E & Hl)
    by (eexists _, _; split; by vm_compute).
  pose proof (async_read_fills (fun _ => false) (new_single (mkBuffer 0 5))
    (memory5 (lit ".....")) (mkAsyncReader (test_stream recv_trace))
    buffer5_ok recv_trace_ok) as Hf.
  rewrite E in Hf. destruct Hf as (bs & Hr & _ & _ & _ & Hfull).
  exists m', r', bs. split; [exact E|]. split; [exact Hl|]. split; [exact Hr|].
  exact (Hfull eq_refl).
Defined.

Lemma async_write_sends_witness :
  exists w' bs,
    async_write (fun _ => false) (new_single (mkBuffer 0 5)) (memory5 (lit "hello"))
      (mkAsyncWriter (test_stream send_trace)) =
      Completed ec_success 5 (memory5 (lit "hello")) w' /\
    sends send_trace bs (st_trace (aw_stream w')) /\
    load_bytes (memory5 (lit "hello")) 0 5 = Some bs.
Proof.
  assert (exists w',
    async_write (fun _ => false) (new_single (mkBuffer 0 5)) (memory5 (lit "hello"))
      (mkAsyncWriter (test_stream send_trace)) =
      Completed ec_success 5 (memory5 (lit "hello")) w') as (w' & E)
    by (eexists _; by vm_compute).
  pose proof (async_write_sends (fun _ => false) (new_single (mkBuffer 0 5))
    (memory5 (lit "hello")) (mkAsyncWriter (test_stream send_trace))
    buffer5_ok send_trace_ok) as Hf.
  rewrite E in Hf. destruct Hf as (n & bs & _ & _ & _ & _ & Hs & Hfull).
  exists w', bs. split; [exact E|]. split; [exact Hs|]. exact (Hfull eq_refl).
Defined.
