(* ===== verification/Containers.v ===== *)
(** Containers of bytes as memory: a [std::string], [std::array] or [std::vector] whose
    bytes operations on buffers read and write.  A container is at address 0 of a memory
    of its own. *)

From S2P Require Import Prelude.
From S2P Require Import ObjectRepr.
From S2P Require Import Buffers.
From S2P Require Import SocketStreamSpec.

Definition memory_of (bs : bytes) : memory := list_to_map (zip (seqZ 0 (zlen bs)) bs).

Definition bytes_of (m : memory) (n : Z) : bytes := (fun a => default Byte.x00 (m !! a)) <$> seqZ 0 n.

(** * Stored bytes *)

Lemma store_bytes_other m l bs a : a ∉ l -> store_bytes m l bs !! a = m !! a.
Proof.
  unfold store_bytes. revert m bs. induction l as [|x l IH]; intros m [|b bs] Ha; simpl; try done.
  apply not_elem_of_cons in Ha as [Hx Ha]. rewrite IH by done. by simplify_map_eq.
Qed.

Lemma load_store m l bs :
  NoDup l -> (length bs <= length l)%nat ->
  mapM (store_bytes m l bs !!.) (take (length bs) l) = Some bs.
Proof.
  intros Hn. revert m bs; induction Hn as [|x l Hx Hn IH]; intros m [|b bs] Hl; simpl in *;
    try done; [lia|].
  change (store_bytes m (x :: l) (b :: bs)) with (store_bytes (<[x:=b]> m) l bs).
  rewrite store_bytes_other, lookup_insert_eq by done. simpl.
  rewrite IH by lia. done.
Qed.

(** * Containers in memory *)

Lemma memory_of_lookup bs a : 0 <= a -> memory_of bs !! a = bs !! Z.to_nat a.
Proof.
  intros Ha. unfold memory_of. destruct (bs !! Z.to_nat a) as [b|] eqn:E.
  - apply elem_of_list_to_map_1.
    + rewrite fst_zip; [apply NoDup_seqZ|]. rewrite length_seqZ. unfold zlen. lia.
    + apply list_elem_of_lookup. exists (Z.to_nat a). apply lookup_zip_with_Some. exists a, b.
      split; [done|]. split; [|done]. apply lookup_seqZ. apply lookup_lt_Some in E. unfold zlen. lia.
  - apply not_elem_of_list_to_map_1. intros (x & Ex & Hx)%list_elem_of_fmap. destruct x as [a' b]. simpl in Ex. subst a'.
    apply list_elem_of_lookup in Hx as (i & Hi). apply lookup_zip_with_Some in Hi as (a2 & b2 & [= <- <-] & Hi & Hb).
    apply lookup_seqZ in Hi as [-> _]. rewrite Z.add_0_l, Nat2Z.id in E. congruence.
Qed.

Lemma lookup_bytes_of m n i :
  bytes_of m n !! i = if decide (Z.of_nat i < n) then Some (default Byte.x00 (m !! Z.of_nat i)) else None.
Proof.
  unfold bytes_of. rewrite list_lookup_fmap. case_decide as Hi.
  - rewrite (proj2 (lookup_seqZ 0 n i (Z.of_nat i))) by lia. done.
  - rewrite lookup_seqZ_ge by lia. done.
Qed.

(** What was not changed is read back. *)
Lemma bytes_of_memory bs : bytes_of (memory_of bs) (zlen bs) = bs.
Proof.
  apply list_eq. intros i. rewrite lookup_bytes_of. unfold zlen. case_decide as Hi.
  - rewrite memory_of_lookup, Nat2Z.id by lia.
    destruct (lookup_lt_is_Some_2 bs i) as [b Hb]; [lia|]. by rewrite Hb.
  - symmetry. apply lookup_ge_None. lia.
Qed.

(** A byte stored on distinct addresses is the one at its place. *)
Lemma store_bytes_lookup m l bs k a :
  NoDup l -> l !! k = Some a -> store_bytes m l bs !! a = match bs !! k with Some b => Some b | None => m !! a end.
Proof.
  revert m bs k. induction l as [|x l IH]; intros m bs k Hn Hk; [done|].
  apply NoDup_cons in Hn as [Hx Hn]. destruct bs as [|b bs]; [by rewrite store_bytes_nil, lookup_nil|].
  change (store_bytes m (x :: l) (b :: bs)) with (store_bytes (<[x:=b]> m) l bs).
  destruct k as [|k]; simpl in *.
  - injection Hk as <-. rewrite store_bytes_other by done. by rewrite lookup_insert_eq.
  - rewrite (IH _ _ k) by done. destruct (bs !! k); [done|]. rewrite lookup_insert_ne; [done|].
    intros <-. by eapply Hx, list_elem_of_lookup_2.
Qed.

Lemma lookup_std_copy d c i :
  (length d <= length c)%nat -> std_copy d c !! i = match d !! i with Some b => Some b | None => c !! i end.
Proof.
  intros Hl. unfold std_copy. destruct (decide (i < length d)%nat) as [Hi|Hi].
  - rewrite lookup_app_l by done. destruct (lookup_lt_is_Some_2 d i Hi) as [b Hb]. by rewrite Hb.
  - rewrite lookup_app_r, (lookup_ge_None_2 d i) by lia. rewrite lookup_drop. f_equal. lia.
Qed.

(** Bytes stored behind those received so far. *)
Lemma bytes_of_received d bs c n :
  (length d + length bs <= length c)%nat -> zlen bs <= n ->
  bytes_of (store_bytes (memory_of (std_copy d c)) (seqZ (zlen d) n) bs) (zlen (std_copy d c)) =
  std_copy (d ++ bs) c.
Proof.
  intros Hl Hn.
  assert (zlen (std_copy d c) = zlen c) as -> by (unfold zlen; rewrite length_std_copy by lia; done).
  unfold zlen in *. apply list_eq. intros i. rewrite lookup_bytes_of, lookup_std_copy by (rewrite length_app; lia).
  case_decide as Hi.
  2: { rewrite !lookup_ge_None_2; [done|lia|rewrite length_app; lia]. }
  destruct (lookup_lt_is_Some_2 c i) as [b Hb]; [lia|].
  destruct (decide (i < length d)%nat) as [Hd|Hd].
  - rewrite store_bytes_other by (rewrite elem_of_seqZ; lia).
    rewrite memory_of_lookup, Nat2Z.id, lookup_std_copy, lookup_app_l by lia.
    destruct (lookup_lt_is_Some_2 d i Hd) as [b' Hb']. by rewrite Hb'.
  - rewrite lookup_app_r by lia. destruct (decide (Z.of_nat i < Z.of_nat (length d) + n)) as [Hin|Hin].
    + rewrite (store_bytes_lookup _ _ _ (i - length d)%nat) by (apply NoDup_seqZ || apply lookup_seqZ; lia).
      destruct (bs !! (i - length d)%nat); [done|].
      by rewrite memory_of_lookup, Nat2Z.id, lookup_std_copy, (lookup_ge_None_2 d i), Hb by lia.
    + rewrite store_bytes_other by (rewrite elem_of_seqZ; lia).
      rewrite memory_of_lookup, Nat2Z.id, lookup_std_copy, (lookup_ge_None_2 d i), Hb by lia.
      by rewrite lookup_ge_None_2 by lia.
Qed.
