(* ===== verification/DynamicBuffers.v ===== *)
(** [asio/buffer.hpp]: strings and vectors of characters as buffers that grow.

    A [dynamic_buffer] is a [dynamic_string_buffer] or a [dynamic_vector_buffer] with
    the container it refers to.  The library has two protocols to read into one:
    [prepare] and [commit] (version 1), [grow] and [shrink] (version 2).
    [DynamicBuffer] is what the reading operations use of either, and
    [DynamicBufferLaws] what they rely on; both protocols have it.  [ReadLaws] is what
    they rely on of a stream. *)

From S2P Require Import Prelude.
From S2P Require Import ObjectRepr.
From S2P Require Import AsioError.
From S2P Require Import Buffers.
From S2P Require Import SocketOps.
From S2P Require Import ReadWrite.
From S2P Require Import SocketSpec.
From S2P Require Import SocketStream.
From S2P Require Import SocketStreamSpec.
From S2P Require Import Containers.

(** * Containers *)

(** A container, with the size it has memory for. *)
Record container := mkContainer {
  chars : bytes;
  reserved : Z
}.

(** The memory that a container with memory for [c] gets when it needs [n]. *)
Class Allocator := { grown : Z -> Z -> Z }.

Class AllocatorLaws `{Allocator} := {
  grown_enough c n : n <= grown c n;
  grown_bound c n : n <= size_max -> grown c n <= size_max
}.

Definition csize (c : container) : Z := zlen (chars c).

Section Dynamic.
Context `{Allocator}.

(** [resize(n)]: new characters are zero.  Memory does not run out. *)
Definition resize_to (n : Z) (c : container) : container :=
  mkContainer (resize (Z.to_nat n) Byte.x00 (chars c))
    (if n <=? reserved c then reserved c else grown (reserved c) n).

(** [erase] of the first [n]. *)
Definition erase_first (n : Z) (c : container) : container :=
  mkContainer (drop (Z.to_nat n) (chars c)) (reserved c).

(** [asio::buffer] of the whole container. *)
Definition whole (c : container) : mutable_buffer := mkBuffer 0 (csize c).

(** * Dynamic buffers *)

Record dynamic_buffer := mkDynamic {
  string_ : container;
  size_ : Z;
  max_size_ : Z
}.

Definition dynamic (c : container) (maximum_size : Z) : dynamic_buffer :=
  mkDynamic c size_max maximum_size.

Definition set_string (b : dynamic_buffer) (c : container) : dynamic_buffer :=
  mkDynamic c (size_ b) (max_size_ b).

Definition dsize (b : dynamic_buffer) : Z :=
  if negb (size_ b =? size_max) then size_ b else Z.min (csize (string_ b)) (max_size_ b).

Definition capacity (b : dynamic_buffer) : Z := Z.min (reserved (string_ b)) (max_size_ b).

(** [data()] of version 1, and [data(pos, n)] of version 2. *)
Definition data_v1 (b : dynamic_buffer) : mutable_buffer := buffer (whole (string_ b)) (size_ b).

Definition data_v2 (pos n : Z) (b : dynamic_buffer) : mutable_buffer :=
  buffer (buffer_plus (buffer (whole (string_ b)) (max_size_ b)) pos) n.

Definition too_long (n : Z) (b : dynamic_buffer) : bool :=
  (max_size_ b <? dsize b) || (u64 (max_size_ b - dsize b) <? n).

Definition prepare (n : Z) (b : dynamic_buffer) : outcome (mutable_buffer * dynamic_buffer) :=
  if too_long n b then Throw std_length_error
  else
    let size' := if size_ b =? size_max then csize (string_ b) else size_ b in
    let s := resize_to (u64 (size' + n)) (string_ b) in
    Ret (buffer (buffer_plus (whole s) size') n, mkDynamic s size' (max_size_ b)).

Definition commit (n : Z) (b : dynamic_buffer) : dynamic_buffer :=
  let size' := u64 (size_ b + Z.min n (u64 (csize (string_ b) - size_ b))) in
  mkDynamic (resize_to size' (string_ b)) size' (max_size_ b).

Definition grow (n : Z) (b : dynamic_buffer) : outcome dynamic_buffer :=
  if too_long n b then Throw std_length_error
  else Ret (set_string b (resize_to (u64 (dsize b + n)) (string_ b))).

Definition shrink (n : Z) (b : dynamic_buffer) : dynamic_buffer :=
  set_string b (resize_to (if dsize b <? n then 0 else dsize b - n) (string_ b)).

(** [consume], of a string and of a vector. *)
Definition consume_with (erased : Z) (n : Z) (b : dynamic_buffer) : dynamic_buffer :=
  if negb (size_ b =? size_max) then
    let consume_length := Z.min n (size_ b) in
    mkDynamic (erase_first consume_length (string_ b)) (size_ b - consume_length) (max_size_ b)
  else set_string b (erase_first erased (string_ b)).

Definition consume_string (n : Z) (b : dynamic_buffer) : dynamic_buffer := consume_with n n b.

Definition consume_vector (n : Z) (b : dynamic_buffer) : dynamic_buffer :=
  consume_with (Z.min (dsize b) n) n b.
End Dynamic.

(** * The two protocols *)

(** What the reading operations use of a dynamic buffer: its contents, memory for [n]
    more characters, and keeping the first [k] of them. *)
Class DynamicBuffer := {
  db_data : dynamic_buffer -> mutable_buffer;
  db_extend : Z -> dynamic_buffer -> outcome (mutable_buffer * dynamic_buffer);
  db_keep : Z -> Z -> dynamic_buffer -> dynamic_buffer
}.

Definition version1 `{Allocator} : DynamicBuffer := {|
  db_data := data_v1;
  db_extend := prepare;
  db_keep n k := commit k
|}.

Definition version2 `{Allocator} : DynamicBuffer := {|
  db_data b := data_v2 0 (dsize b) b;
  db_extend n b :=
    let pos := dsize b in
    b ← grow n b;
    Ret (data_v2 pos n b, b);
  db_keep n k := shrink (u64 (n - k))
|}.

Definition contents (b : dynamic_buffer) : bytes := chars (string_ b).

(** The characters of the container changed, through a buffer. *)
Definition set_contents (bs : bytes) (b : dynamic_buffer) : dynamic_buffer :=
  set_string b (mkContainer bs (reserved (string_ b))).

(** A transfer to a part of the container. *)
Definition transfer_into {S} `{Transfers S} (s : S) (target : mutable_buffer) (b : dynamic_buffer) :
    option (error_code * Z * dynamic_buffer * S) :=
  '(ec, n, m, s) ← transfer_some s (one_buffer target) (memory_of (contents b));
  Some (ec, n, set_contents (bytes_of m (zlen (contents b))) b, s).

(** How much is read next, when no more than [max_size] is asked for. *)
Definition bytes_available (max_size : Z) (b : dynamic_buffer) : Z :=
  Z.min (Z.max 512 (u64 (capacity b - dsize b))) (Z.min max_size (u64 (max_size_ b - dsize b))).

(** How a read ends: it returns, or calls its handler; it raises an exception, or is
    undefined; a transfer is never over; or there are more rounds than the fuel. *)
Inductive read_result (S : Type) :=
  | Finished (ec : error_code) (n : Z) (b : dynamic_buffer) (s : S)
  | Raised (e : option exn)
  | Blocked
  | Exhausted.
Arguments Finished {S} ec n b s.
Arguments Raised {S} e.
Arguments Blocked {S}.
Arguments Exhausted {S}.

Definition spare (n k : Z) : bytes := replicate (Z.to_nat (n - k)) Byte.x00.

Class DynamicBufferLaws `{DynamicBuffer} := {
  db_ok : dynamic_buffer -> Prop;
  db_size b : db_ok b -> dsize b = zlen (contents b) /\ zlen (contents b) <= max_size_ b <= size_max;
  db_capacity b : db_ok b -> zlen (contents b) <= capacity b <= size_max;
  db_data_whole b : db_ok b -> db_data b = mkBuffer 0 (zlen (contents b));
  db_extended b n :
    db_ok b -> 0 <= n <= max_size_ b - zlen (contents b) ->
    exists b1,
      db_extend n b = Ret (mkBuffer (zlen (contents b)) n, b1) /\
      contents b1 = contents b ++ spare n 0 /\
      forall bs, zlen bs <= n ->
        let b2 := db_keep n (zlen bs) (set_contents (contents b ++ bs ++ spare n (zlen bs)) b1) in
        db_ok b2 /\ contents b2 = contents b ++ bs /\ max_size_ b2 = max_size_ b
}.

(** What a stream promises an operation that reads. *)
Class ReadLaws (S : Type) `{Transfers S} := {
  rd_ok : S -> Prop;
  rd_gets : S -> bytes -> S -> Prop;
  rd_gets_nil s : rd_gets s [] s;
  rd_gets_app s1 bs s2 cs s3 : rd_gets s1 bs s2 -> rd_gets s2 cs s3 -> rd_gets s1 (bs ++ cs) s3;
  rd_some s b m ec n m' s' :
    rd_ok s -> buffer_wf b -> transfer_some s (one_buffer b) m = Some (ec, n, m', s') ->
    exists bs,
      n = zlen bs /\ zlen bs <= size b /\ m' = store_bytes m (addresses b) bs /\
      rd_gets s bs s' /\ rd_ok s' /\ (ec_is_error ec = false -> 0 < size b -> bs <> [])
}.

(** * The protocols have the laws *)

Section Laws.
Context `{AllocatorLaws}.

Lemma length_spare n k : length (spare n k) = Z.to_nat (n - k).
Proof. apply length_replicate. Qed.

Lemma csize_resize_to n c : 0 <= n -> csize (resize_to n c) = n.
Proof. intros. unfold csize, zlen. simpl. rewrite length_resize. lia. Qed.

(** Memory is enough for what a container holds. *)
Definition container_ok (c : container) : Prop := csize c <= reserved c <= size_max.

Lemma resize_to_ok n c : container_ok c -> 0 <= n <= size_max -> container_ok (resize_to n c).
Proof.
  intros [Hc Hr] Hn. unfold container_ok. rewrite csize_resize_to by lia. simpl.
  destruct (Z.leb_spec n (reserved c)); [lia|].
  pose proof (grown_enough (reserved c) n). pose proof (grown_bound (reserved c) n). lia.
Qed.

Lemma resize_to_more n c : csize c <= n -> chars (resize_to n c) = chars c ++ spare n (csize c).
Proof.
  intros Hn. simpl. unfold csize, zlen in *. rewrite resize_ge by lia. unfold spare. do 2 f_equal. lia.
Qed.

Lemma resize_to_less bs cs n c :
  chars c = bs ++ cs -> n = zlen bs -> chars (resize_to n c) = bs.
Proof.
  intros Hc ->. simpl. rewrite Hc. unfold zlen. rewrite Nat2Z.id.
  rewrite resize_le by (rewrite length_app; lia). by rewrite take_app_length.
Qed.

(** The container fits the maximum. *)
Definition dynamic_ok (b : dynamic_buffer) : Prop :=
  container_ok (string_ b) /\ csize (string_ b) <= max_size_ b <= size_max.

Lemma extent_fits b n : dynamic_ok b -> dsize b = csize (string_ b) ->
  0 <= n <= max_size_ b - csize (string_ b) ->
  too_long n b = false /\ u64 (csize (string_ b) + n) = csize (string_ b) + n.
Proof.
  intros [Hc Hm] Hd Hn. pose proof (zlen_nonneg (chars (string_ b))) as Hz. unfold csize, size_max in *.
  unfold too_long. rewrite Hd, !u64_small by lia. split; [|done].
  apply orb_false_iff. split; [apply Z.ltb_ge|apply Z.ltb_ge]; lia.
Qed.

Lemma spare_split n k : 0 <= k <= n -> spare n 0 = spare k 0 ++ spare n k.
Proof. intros. unfold spare. rewrite <- replicate_add. f_equal. lia. Qed.

(** The parts of a container. *)
Lemma buffer_whole c n : csize c <= n -> buffer (whole c) n = whole c.
Proof. intros. unfold buffer, whole. simpl. f_equal. case_match; lia. Qed.

Lemma buffer_tail c m n : 0 <= m -> 0 <= n -> csize c = m + n -> buffer (buffer_plus (whole c) m) n = mkBuffer m n.
Proof.
  intros ? ? Hc. unfold buffer, buffer_plus, whole. cbn [data size]. rewrite Hc.
  assert ((if m <? m + n then m else m + n) = m) as -> by (case_match; lia).
  f_equal. case_match; lia.
Qed.

(** A container that was extended, and what was stored behind its contents kept. *)
Lemma kept_container s c n bs :
  container_ok s -> csize s + n <= size_max -> zlen bs <= n -> c = resize_to (csize s + n) s ->
  let c' := mkContainer (chars s ++ bs ++ spare n (zlen bs)) (reserved c) in
  let kept := resize_to (csize s + zlen bs) c' in
  csize c' = csize s + n /\ container_ok kept /\ csize kept = csize s + zlen bs /\ chars kept = chars s ++ bs.
Proof.
  intros Hs Hn Hbs ->. pose proof (zlen_nonneg bs) as Hk. pose proof (zlen_nonneg (chars s)) as Hz.
  intros c' kept. assert (csize c' = csize s + n) as Ec.
  { unfold c', csize. cbn [chars]. rewrite !zlen_app. unfold zlen at 3. rewrite length_spare. lia. }
  assert (csize kept = csize s + zlen bs) as Ek by (apply csize_resize_to; unfold csize; lia).
  split; [done|]. split; [|split; [done|]].
  - apply resize_to_ok; [|unfold csize in *; lia]. unfold container_ok. rewrite Ec. simpl.
    pose proof (resize_to_ok (csize s + n) s Hs ltac:(unfold csize in *; lia)) as H1. unfold container_ok in H1.
    by rewrite csize_resize_to in H1 by (unfold csize in *; lia).
  - apply (resize_to_less _ (spare n (zlen bs))); [simpl; by rewrite app_assoc|]. by rewrite zlen_app.
Qed.

Lemma commit_kept b m n k :
  size_ b = m -> csize (string_ b) = m + n -> 0 <= k <= n -> 0 <= m -> m + n < 2 ^ 64 ->
  commit k b = mkDynamic (resize_to (m + k) (string_ b)) (m + k) (max_size_ b).
Proof.
  intros Hs Hc Hk Hm Hn. unfold commit. rewrite Hs, Hc. replace (m + n - m) with n by lia.
  by rewrite (u64_small n), Z.min_l, u64_small by lia.
Qed.

Lemma shrink_kept b m n k :
  size_ b = size_max -> csize (string_ b) = m + n -> m + n <= max_size_ b -> 0 <= k <= n -> 0 <= m -> n < 2 ^ 64 ->
  shrink (u64 (n - k)) b = set_string b (resize_to (m + k) (string_ b)).
Proof.
  intros Hs Hc Hmax Hk Hm Hn. unfold shrink, dsize. rewrite Hs, Z.eqb_refl, Hc. cbn [negb].
  rewrite u64_small, Z.min_l by lia. destruct (Z.ltb_spec (m + n) (n - k)); [lia|]. do 2 f_equal. lia.
Qed.

(** Version 1 keeps the size of the input itself, once it is used. *)
Definition v1_ok (b : dynamic_buffer) : Prop :=
  dynamic_ok b /\ (size_ b = size_max \/ size_ b = csize (string_ b)).

Lemma v1_size b : v1_ok b -> dsize b = csize (string_ b).
Proof.
  intros [[_ Hm] Hs]. unfold dsize. destruct (Z.eqb_spec (size_ b) size_max) as [E|E]; cbn [negb]; [lia|].
  by destruct Hs.
Qed.

#[global] Program Instance version1_laws : @DynamicBufferLaws version1 := { db_ok := v1_ok }.
Next Obligation. intros b Hb. rewrite (v1_size b Hb). split; [done|apply Hb]. Qed.
Next Obligation.
  intros b [[[Hc Hr] Hm] _]. unfold capacity, contents, csize in *. lia.
Qed.
Next Obligation.
  intros b [[[Hc Hr] Hm] Hs]. simpl. unfold data_v1, buffer, whole. simpl. unfold contents.
  f_equal. unfold csize in *. destruct Hs as [->| ->]; case_match; lia.
Qed.
Next Obligation.
  intros b n Hb Hn. pose proof (v1_size b Hb) as Hd. destruct Hb as [Hb Hs].
  destruct (extent_fits b n Hb Hd Hn) as [Ht Hu].
  assert ((if size_ b =? size_max then csize (string_ b) else size_ b) = csize (string_ b)) as Hsize
    by (destruct (Z.eqb_spec (size_ b) size_max); [done|]; by destruct Hs).
  pose proof (zlen_nonneg (chars (string_ b))) as Hz. destruct Hb as [Hc Hm]. unfold contents in *.
  set (c := resize_to (csize (string_ b) + n) (string_ b)).
  assert (csize c = csize (string_ b) + n) as Ec by (apply csize_resize_to; unfold csize in *; lia).
  exists (mkDynamic c (csize (string_ b)) (max_size_ b)). split; [|split].
  - simpl. unfold prepare. rewrite Ht, Hsize, Hu. cbv zeta. fold c.
    by rewrite buffer_tail by (unfold csize in *; lia).
  - change (chars c = chars (string_ b) ++ spare n 0). unfold c. rewrite resize_to_more by lia.
    unfold spare. do 2 f_equal. lia.
  - intros bs Hbs. pose proof (zlen_nonneg bs).
    destruct (kept_container (string_ b) c n bs Hc ltac:(unfold csize; lia) Hbs eq_refl) as (Ec' & Hok & Hsz & Hch).
    cbv zeta. change (db_keep n (zlen bs)) with (commit (zlen bs)).
    rewrite (commit_kept _ (csize (string_ b)) n) by (done || unfold csize, size_max in *; lia).
    split; [|split; [exact Hch|done]]. split; [|by right]. split; [exact Hok|].
    split; [eapply Z.le_trans; [apply Z.eq_le_incl, Hsz|]|];
      cbn [max_size_ set_contents set_string]; unfold csize; lia.
Qed.

(** Version 2 leaves the size to the container. *)
Definition v2_ok (b : dynamic_buffer) : Prop := dynamic_ok b /\ size_ b = size_max.

Lemma v2_size b : v2_ok b -> dsize b = csize (string_ b).
Proof. intros [Hb Hs]. apply v1_size. split; [done|by left]. Qed.

#[global] Program Instance version2_laws : @DynamicBufferLaws version2 := { db_ok := v2_ok }.
Next Obligation. intros b Hb. rewrite (v2_size b Hb). split; [done|apply Hb]. Qed.
Next Obligation.
  intros b [[[Hc Hr] Hm] _]. unfold capacity, contents, csize in *. lia.
Qed.
Next Obligation.
  intros b Hb. simpl. rewrite (v2_size b Hb). destruct Hb as [[Hc Hm] Hs]. unfold data_v2.
  rewrite buffer_whole by lia. apply buffer_tail; [lia|apply zlen_nonneg|done].
Qed.
Next Obligation.
  intros b n Hb Hn. pose proof (v2_size b Hb) as Hd. destruct Hb as [Hb Hs].
  destruct (extent_fits b n Hb Hd Hn) as [Ht Hu].
  pose proof (zlen_nonneg (chars (string_ b))) as Hz. destruct Hb as [Hc Hm]. unfold contents in *.
  set (c := resize_to (csize (string_ b) + n) (string_ b)).
  assert (csize c = csize (string_ b) + n) as Ec by (apply csize_resize_to; unfold csize in *; lia).
  exists (set_string b c). split; [|split].
  - simpl. unfold grow. rewrite Ht, Hd, Hu. fold c. simpl. unfold data_v2.
    cbn [string_ set_string max_size_]. rewrite buffer_whole by (unfold csize, contents in *; lia).
    by rewrite buffer_tail by (unfold csize in *; lia).
  - change (chars c = chars (string_ b) ++ spare n 0). unfold c. rewrite resize_to_more by lia.
    unfold spare. do 2 f_equal. lia.
  - intros bs Hbs. pose proof (zlen_nonneg bs).
    destruct (kept_container (string_ b) c n bs Hc ltac:(unfold csize; lia) Hbs eq_refl) as (Ec' & Hok & Hsz & Hch).
    cbv zeta. change (db_keep n (zlen bs)) with (shrink (u64 (n - zlen bs))).
    rewrite (shrink_kept _ (csize (string_ b)) n) by (done || unfold csize, size_max in *; simpl in *; lia).
    split; [|split; [exact Hch|done]]. split; [|done]. split; [exact Hok|].
    split; [eapply Z.le_trans; [apply Z.eq_le_incl, Hsz|]|];
      cbn [max_size_ set_contents set_string]; unfold csize; lia.
Qed.
End Laws.

(** Growing a container that is longer than the maximum makes it shorter. *)
Lemma grow_truncates `{Allocator} b :
  size_ b = size_max -> 0 <= max_size_ b <= csize (string_ b) -> csize (string_ b) <= size_max ->
  exists b', grow 0 b = Ret b' /\ contents b' = take (Z.to_nat (max_size_ b)) (contents b).
Proof.
  intros Hs Hm Hc. assert (dsize b = max_size_ b) as Hd by (unfold dsize; rewrite Hs, Z.eqb_refl; cbn [negb]; lia).
  unfold size_max in Hc. unfold grow, too_long. rewrite Hd, Z.sub_diag, Z.add_0_r, Z.ltb_irrefl, u64_small by lia.
  eexists. split; [reflexivity|]. unfold contents. simpl. rewrite u64_small by lia. apply resize_le.
  unfold csize, zlen in Hm. lia.
Qed.

(** * One transfer *)

(** What is stored behind the contents of a container that was extended. *)
Lemma bytes_of_extended c bs n :
  zlen bs <= n ->
  bytes_of (store_bytes (memory_of (c ++ spare n 0)) (seqZ (zlen c) n) bs) (zlen (c ++ spare n 0)) =
  c ++ bs ++ spare n (zlen bs).
Proof.
  intros Hn. assert (std_copy c (c ++ spare n 0) = c ++ spare n 0) as E
    by (unfold std_copy; by rewrite drop_app_length).
  rewrite <- E at 1 2. rewrite bytes_of_received; [|rewrite length_app, length_spare; unfold zlen in *; lia|done].
  unfold std_copy. rewrite length_app, <- drop_drop, drop_app_length, <- app_assoc. do 2 f_equal.
  unfold spare, zlen. rewrite drop_replicate. f_equal. lia.
Qed.

Section Transfer.
Context `{DynamicBufferLaws} {S : Type} `{ReadLaws S}.

Lemma transfer_kept b s n target b1 ec k b2 s' :
  db_ok b -> rd_ok s -> 0 <= n <= max_size_ b - zlen (contents b) ->
  db_extend n b = Ret (target, b1) -> transfer_into s target b1 = Some (ec, k, b2, s') ->
  exists bs,
    k = zlen bs /\ zlen bs <= n /\ rd_gets s bs s' /\ rd_ok s' /\
    (ec_is_error ec = false -> 0 < n -> bs <> []) /\
    db_ok (db_keep n k b2) /\ contents (db_keep n k b2) = contents b ++ bs /\
    max_size_ (db_keep n k b2) = max_size_ b.
Proof.
  intros Hb Hs Hn Ex Et. destruct (db_extended b n Hb Hn) as (b1' & Ex' & Hc & Hkept).
  rewrite Ex in Ex'. injection Ex' as -> <-. destruct (db_size b Hb) as [_ Hmax].
  pose proof (zlen_nonneg (contents b)) as Hz. unfold transfer_into in Et. apply bind_Some in Et as ([[[ec' n'] m] s1] & Et & [= <- <- <- <-]).
  assert (buffer_wf (mkBuffer (zlen (contents b)) n)) as Hw by (unfold buffer_wf, size_max in *; simpl; lia).
  destruct (rd_some _ _ _ _ _ _ _ Hs Hw Et)
    as (bs & -> & Hbs & -> & Hg & Hok & Hpos).
  exists bs. simpl in Hbs, Hpos. do 5 (split; [done|]). cbv zeta in Hkept.
  rewrite Hc. unfold addresses. cbn [data size]. rewrite bytes_of_extended by done. by apply Hkept.
Qed.

(** The errors of a stream. *)
Definition stream_error (ec : error_code) : Prop :=
  exists (s : S) b m n m' s', transfer_some s (one_buffer b) m = Some (ec, n, m', s').

Lemma transfer_into_error s target b ec n b' s' : transfer_into s target b = Some (ec, n, b', s') -> stream_error ec.
Proof.
  unfold transfer_into. intros E. apply bind_Some in E as ([[[e' n'] m'] s''] & E & [= -> _ _ _]).
  by eexists _, _, _, _, _, _.
Qed.

(** What is read fits, and is something unless the buffer is full. *)
Lemma bytes_available_fits b max_size :
  db_ok b -> 0 <= max_size ->
  0 <= bytes_available max_size b <= max_size_ b - zlen (contents b) /\ bytes_available max_size b <= max_size /\
  (0 < max_size -> zlen (contents b) < max_size_ b -> 0 < bytes_available max_size b).
Proof.
  intros Hb Hmax. destruct (db_size b Hb) as [Hd Hm]. pose proof (db_capacity b Hb).
  pose proof (zlen_nonneg (contents b)). unfold bytes_available, size_max in *. rewrite Hd in *.
  rewrite !u64_small by lia. lia.
Qed.
End Transfer.

(** * Consuming *)

Section Consume.
Context `{AllocatorLaws}.

(** Either protocol consumes the first [n] characters, or all. *)
Lemma consume_with_spec n erased b :
  v1_ok b -> 0 <= n -> erased = n \/ erased = Z.min (dsize b) n ->
  v1_ok (consume_with erased n b) /\
  contents (consume_with erased n b) = drop (Z.to_nat n) (contents b) /\
  max_size_ (consume_with erased n b) = max_size_ b.
Proof.
  intros Hb Hn He. pose proof (v1_size b Hb) as Hd. destruct Hb as [[[Hc Hr] Hm] Hs].
  pose proof (zlen_nonneg (chars (string_ b))) as Hz.
  assert (forall k, k = n \/ k = Z.min (csize (string_ b)) n ->
    drop (Z.to_nat k) (contents b) = drop (Z.to_nat n) (contents b)) as Hdrop.
  { intros k [->| ->]; [done|]. unfold csize, zlen, contents. destruct (Z.min_spec (Z.of_nat (length (chars (string_ b)))) n)
      as [[Hl ->]|[_ ->]]; [|done]. rewrite !drop_ge by lia. done. }
  assert (forall k, csize (erase_first k (string_ b)) = Z.max 0 (csize (string_ b) - Z.max 0 k)) as Hsize.
  { intros k. unfold csize, zlen. simpl. rewrite length_drop. lia. }
  unfold consume_with. destruct (Z.eqb_spec (size_ b) size_max) as [E|E]; cbn [negb]; cbv zeta.
  - rewrite Hd in He. split; [|split; [by apply Hdrop|done]]. split; [|by left].
    split; [split|]; cbn [set_string string_ max_size_]; rewrite ?Hsize; simpl; unfold csize in *; lia.
  - destruct Hs as [|Hs]; [done|]. rewrite Hs. split; [|split; [|done]].
    + split; [split; [split|]|right]; cbn [string_ max_size_ size_]; rewrite ?Hsize; simpl; unfold csize in *; lia.
    + apply Hdrop. right. apply Z.min_comm.
Qed.
End Consume.

(** * Sockets *)

(** A socket read asynchronously, and by [read_some]. *)
#[global] Program Instance async_reader_reads : ReadLaws async_reader := {
  rd_ok r := stream_ok (ar_stream r);
  rd_gets r bs r' := receives (st_trace (ar_stream r)) bs (st_trace (ar_stream r'))
}.
Next Obligation. intros r. apply receives_nil. Qed.
Next Obligation. intros r1 bs r2 cs r3. apply receives_app. Qed.
Next Obligation.
  intros r b m ec n m' r' (Ht & Hst & Hs) Hw E. simpl in E.
  apply bind_Some in E as ([[[op m1] state1] t1] & E & [= <- <- <- <-]).
  destruct (async_receive_spec _ _ (one_buffer b) _ _ _ _ _ _ (proj2 (Forall_singleton _ _) Hw) ltac:(done) Ht Hst Hs E)
    as (Hst1 & bs & Hr & -> & -> & Hle & Hpos).
  cbn [elements] in *. rewrite flatten_one in *. rewrite zlen_addresses in Hle by done.
  exists bs. split_and!; try done; [split; [by eapply receives_ok|done]|].
  intros He Hb ->. specialize (Hpos He). rewrite (@zlen_nil byte) in Hpos. apply Z.lt_irrefl with 0, Hpos.
  intros Ha. apply (f_equal zlen) in Ha. rewrite zlen_addresses, zlen_nil in Ha by done. lia.
Qed.

#[global] Program Instance sync_reader_reads : ReadLaws sync_reader := {
  rd_ok r := stream_ok (sr_stream r);
  rd_gets r bs r' := receives (st_trace (sr_stream r)) bs (st_trace (sr_stream r'))
}.
Next Obligation. intros r. apply receives_nil. Qed.
Next Obligation. intros r1 bs r2 cs r3. apply receives_app. Qed.
Next Obligation.
  intros r b m ec n m' r' (Ht & Hst & Hs) Hw E. simpl in E.
  apply bind_Some in E as ([[[n1 ec1] m1] t1] & E & [= <- <- <- <-]).
  destruct (receive_spec _ _ _ _ _ _ _ _ _ _ Hw Ht Hst Hs E) as (bs & Hr & -> & -> & Hle & Hpos).
  exists bs. split_and!; try done. split; [by eapply receives_ok|done].
Qed.

(** A container's memory doubles when it grows. *)
#[global] Instance doubling : Allocator := { grown c n := Z.max n (Z.min (2 * c) size_max) }.

#[global] Instance doubling_laws : AllocatorLaws.
Proof. split; intros; simpl; lia. Qed.
