(* ===== verification/ReadDynamic.v ===== *)
(** [asio/impl/read.hpp] and [asio/impl/write.hpp]: reads into, and writes from, dynamic
    buffers, for both protocols.

    A read goes on until its completion condition asks for nothing more or the buffer is
    full.  [ConditionLaws] is what a condition has to satisfy; those of the library do. *)

From S2P Require Import Prelude.
From S2P Require Import AsioError.
From S2P Require Import Buffers.
From S2P Require Import ConsumingBuffers.
From S2P Require Import SocketOps.
From S2P Require Import ReadWrite.
From S2P Require Import SocketSpec.
From S2P Require Import SocketStream.
From S2P Require Import SocketStreamSpec.
From S2P Require Import Containers.
From S2P Require Import DynamicBuffers.

(** * Reading *)

Section Read.
Context {P : DynamicBuffer} (condition : completion_condition) {S : Type} `{Transfers S}.

(** The loop of [read(stream, buffers, completion_condition, ec)]. *)
Fixpoint read_loop (fuel : nat) (ec : error_code) (total_transferred : Z) (b : dynamic_buffer) (s : S) :
    read_result S :=
  let max_size := adapt_size (condition ec total_transferred) in
  let n := bytes_available max_size b in
  if 0 <? n then
    match fuel with
    | O => Exhausted
    | Datatypes.S fuel =>
        match db_extend n b with
        | Ret (target, b) =>
            match transfer_into s target b with
            | Some (ec, bytes_transferred, b, s) =>
                read_loop fuel ec (total_transferred + bytes_transferred) (db_keep n bytes_transferred b) s
            | None => Blocked
            end
        | Throw e => Raised (Some e)
        | Undef => Raised None
        end
    end
  else Finished ec total_transferred b s.

Definition read_dynamic (fuel : nat) (b : dynamic_buffer) (s : S) : read_result S := read_loop fuel ec_success 0 b s.

(** The members of a [read_dynbuf_..._op], and what a call of it starts. *)
Record dynbuf_op := mkDynbufOp {
  op_buffers : dynamic_buffer;
  total_transferred_ : Z;
  bytes_available_ : Z
}.

Inductive dynbuf_next :=
  | StartRead (target : mutable_buffer)
  | CallHandler (ec : error_code) (total : Z).

Definition start_read (op : dynbuf_op) : outcome (dynbuf_op * dynbuf_next) :=
  '(target, b) ← db_extend (bytes_available_ op) (op_buffers op);
  Ret (mkDynbufOp b (total_transferred_ op) (bytes_available_ op), StartRead target).

Definition set_available (ec : error_code) (op : dynbuf_op) : dynbuf_op :=
  let max_size := check_for_completion condition ec (total_transferred_ op) in
  mkDynbufOp (op_buffers op) (total_transferred_ op) (bytes_available max_size (op_buffers op)).

(** [operator()]: [start] in the call that starts the operation; in the others a
    transfer is over, and [cancelled] says whether the operation was cancelled. *)
Definition read_dynbuf_op (start cancelled : bool) (ec : error_code) (bytes_transferred : Z) (op : dynbuf_op) :
    outcome (dynbuf_op * dynbuf_next) :=
  if start then start_read (set_available ec op)
  else
    let op := set_available ec
      (mkDynbufOp (db_keep (bytes_available_ op) bytes_transferred (op_buffers op))
         (total_transferred_ op + bytes_transferred) (bytes_available_ op)) in
    if (negb (ec_is_error ec) && (bytes_transferred =? 0)) || (bytes_available_ op =? 0) then
      Ret (op, CallHandler ec (total_transferred_ op))
    else if cancelled then Ret (op, CallHandler operation_aborted (total_transferred_ op))
    else start_read op.

Fixpoint run_dynbuf (fuel : nat) (cancelled : nat -> bool) (call : outcome (dynbuf_op * dynbuf_next)) (s : S) :
    read_result S :=
  match call with
  | Throw e => Raised (Some e)
  | Undef => Raised None
  | Ret (op, CallHandler ec n) => Finished ec n (op_buffers op) s
  | Ret (op, StartRead target) =>
      match fuel with
      | O => Exhausted
      | Datatypes.S fuel =>
          match transfer_into s target (op_buffers op) with
          | Some (ec, n, b, s) =>
              run_dynbuf fuel cancelled
                (read_dynbuf_op false (cancelled fuel) ec n
                   (mkDynbufOp b (total_transferred_ op) (bytes_available_ op))) s
          | None => Blocked
          end
      end
  end.

Definition async_read_dynamic (fuel : nat) (cancelled : nat -> bool) (b : dynamic_buffer) (s : S) : read_result S :=
  run_dynbuf fuel cancelled (read_dynbuf_op true false ec_success 0 (mkDynbufOp b 0 0)) s.
End Read.

(** * Conditions *)

(** A condition asks for a number of bytes, and for none after an error. *)
Class ConditionLaws (condition : completion_condition) : Prop := {
  cn_nonneg ec n : 0 <= condition ec n;
  cn_error ec n : ec_is_error ec = true -> condition ec n = 0;
  cn_success ec ec' n : ec_is_error ec = ec_is_error ec' -> condition ec n = condition ec' n
}.

#[global] Instance transfer_all_laws : ConditionLaws transfer_all.
Proof.
  split; [intros ec n|intros ec n He|intros ec ec' n He]; unfold transfer_all;
    [by destruct (ec_is_error ec)|by rewrite He..].
Qed.

#[global] Instance transfer_at_least_laws minimum : ConditionLaws (transfer_at_least minimum).
Proof.
  split; [intros ec n|intros ec n He|intros ec ec' n He]; unfold transfer_at_least;
    [by destruct (_ || _)|by rewrite He..].
Qed.

#[global] Instance transfer_exactly_laws n : ConditionLaws (transfer_exactly n).
Proof.
  split; [intros ec k|intros ec k He|intros ec ec' k He]; unfold transfer_exactly; [|by rewrite He..].
  destruct (ec_is_error ec || (n <=? k)) eqn:E; [done|]. apply orb_false_iff in E as [_ E%Z.leb_gt].
  case_match; [lia|done].
Qed.

(** The total that a condition never goes beyond. *)
Definition bounded_by (condition : completion_condition) (bound : Z) : Prop :=
  0 <= bound /\ forall ec n, n <= bound -> n + condition ec n <= bound.

Lemma transfer_exactly_bound n : 0 <= n -> bounded_by (transfer_exactly n) n.
Proof.
  intros Hn. split; [done|]. intros ec k Hk. unfold transfer_exactly.
  destruct (ec_is_error ec || (n <=? k)); [lia|]. case_match; lia.
Qed.

(** * What the operations do *)

Section Spec.
Context `{DynamicBufferLaws} (condition : completion_condition) `{!ConditionLaws condition} {S : Type} `{ReadLaws S}.

(** A read appends what it gets from the stream, and reports how much; it gets no more
    than the condition allows, and without an error it has got that, or the buffer is
    full. *)
Definition read_done (errors : error_code -> Prop) (total : Z) (b : dynamic_buffer) (s : S) (r : read_result S) : Prop :=
  match r with
  | Finished ec n b' s' =>
      exists bs,
        rd_gets s bs s' /\ rd_ok s' /\ db_ok b' /\ contents b' = contents b ++ bs /\ max_size_ b' = max_size_ b /\
        n = total + zlen bs /\ (forall bound, bounded_by condition bound -> total <= bound -> n <= bound) /\
        (if ec_is_error ec then errors ec else zlen (contents b') = max_size_ b \/ condition ec n = 0)
  | Blocked => True
  | Raised _ | Exhausted => False
  end.

Lemma read_done_end (errors : error_code -> Prop) total b s ec :
  db_ok b -> rd_ok s -> (if ec_is_error ec then errors ec else zlen (contents b) = max_size_ b \/ condition ec total = 0) ->
  read_done errors total b s (Finished ec total b s).
Proof.
  intros Hb Hs He. exists []. rewrite app_nil_r, (@zlen_nil byte). split_and!; auto using rd_gets_nil; lia.
Qed.

Lemma read_done_more errors total ec b s bs b1 s1 r :
  0 <= total -> zlen bs <= condition ec total ->
  rd_gets s bs s1 -> contents b1 = contents b ++ bs -> max_size_ b1 = max_size_ b ->
  read_done errors (total + zlen bs) b1 s1 r -> read_done errors total b s r.
Proof.
  intros Ht Hbs Hg Hc Hm. destruct r as [ec' n b' s'| | |]; [|done..].
  intros (bs' & Hg' & Hok & Hb' & Hc' & Hm' & -> & Hbound & He). exists (bs ++ bs').
  rewrite Hm in He. split_and!; [by eapply rd_gets_app|done|done| |congruence| | |done].
  - by rewrite Hc', Hc, app_assoc.
  - rewrite zlen_app. lia.
  - intros bound Hbd Hle. apply Hbound; [done|]. pose proof (proj2 Hbd ec total Hle). lia.
Qed.

(** Nothing more is asked for. *)
Lemma bytes_available_none b ec total :
  db_ok b -> bytes_available (condition ec total) b = 0 -> zlen (contents b) = max_size_ b \/ condition ec total = 0.
Proof.
  intros Hb E. destruct (bytes_available_fits b (condition ec total) Hb (cn_nonneg _ _)) as (_ & _ & Hpos).
  destruct (db_size b Hb) as [_ Hm]. pose proof (cn_nonneg ec total).
  destruct (Z.eq_dec (condition ec total) 0); [by right|]. left. destruct (Z.eq_dec (zlen (contents b)) (max_size_ b)); [done|].
  specialize (Hpos ltac:(lia) ltac:(lia)). lia.
Qed.

Lemma bytes_available_error b ec total :
  db_ok b -> ec_is_error ec = true -> bytes_available (condition ec total) b = 0.
Proof.
  intros Hb He. rewrite cn_error by done. destruct (bytes_available_fits b 0 Hb ltac:(done)) as (? & ? & _). lia.
Qed.

Lemma read_loop_done fuel ec total b s :
  db_ok b -> rd_ok s -> 0 <= total -> max_size_ b - zlen (contents b) < Z.of_nat fuel ->
  ec_is_error ec = false ->
  read_done stream_error total b s (read_loop condition fuel ec total b s).
Proof.
  revert ec total b s. induction fuel as [|fuel IH]; intros ec total b s Hb Hs Ht Hf He;
    destruct (db_size b Hb) as [_ Hm]; [lia|].
  cbn [read_loop]. unfold adapt_size. cbv zeta. set (n := bytes_available (condition ec total) b).
  destruct (bytes_available_fits b (condition ec total) Hb (cn_nonneg _ _)) as (Hfit & Hle & _). fold n in Hfit, Hle.
  destruct (Z.ltb_spec 0 n) as [Hn|Hn].
  2: { apply read_done_end; [done..|]. rewrite He. apply bytes_available_none; [done|]. fold n. lia. }
  destruct (db_extended b n Hb Hfit) as (b1 & Ex & _). rewrite Ex.
  destruct (transfer_into s _ b1) as [[[[ec' k] b2] s']|] eqn:Et; [|done].
  destruct (transfer_kept b s n _ b1 ec' k b2 s' Hb Hs Hfit Ex Et)
    as (bs & -> & Hbs & Hg & Hs' & Hpos & Hb2 & Hc2 & Hm2). pose proof (zlen_nonneg bs).
  eapply (read_done_more _ _ ec _ _ bs); [done|lia|exact Hg|exact Hc2|exact Hm2|].
  destruct (ec_is_error ec') eqn:He'.
  - replace (read_loop condition fuel ec' (total + zlen bs) (db_keep n (zlen bs) b2) s') with
      (Finished ec' (total + zlen bs) (db_keep n (zlen bs) b2) s').
    { apply read_done_end; [done..|]. rewrite He'. by eapply transfer_into_error. }
    destruct fuel; cbn [read_loop]; unfold adapt_size; cbv zeta; by rewrite bytes_available_error.
  - apply IH; [done|done|lia| |done]. rewrite Hm2, Hc2, zlen_app. specialize (Hpos eq_refl Hn).
    destruct bs; [done|]. rewrite zlen_cons. pose proof (zlen_nonneg bs). lia.
Qed.
(** ** The operation *)

Definition async_error (ec : error_code) : Prop := stream_error ec \/ ec = operation_aborted.

(** Why a transfer without error was the last. *)
Lemma transfer_ends ec ec' total b b3 bs :
  db_ok b -> db_ok b3 -> ec_is_error ec' = ec_is_error ec ->
  (0 < bytes_available (condition ec total) b -> bs <> []) ->
  contents b3 = contents b ++ bs -> max_size_ b3 = max_size_ b ->
  0 <= bytes_available (condition ec total) b ->
  (zlen bs =? 0) || (bytes_available (condition ec' (total + zlen bs)) b3 =? 0) = true ->
  zlen (contents b3) = max_size_ b3 \/ condition ec' (total + zlen bs) = 0.
Proof.
  intros Hb Hb3 He Hpos Hc Hm Hn [Ez%Z.eqb_eq|Ez%Z.eqb_eq]%orb_true_iff; [|by apply bytes_available_none].
  destruct bs as [|x bs]; [|rewrite zlen_cons in Ez; pose proof (zlen_nonneg bs); lia].
  rewrite app_nil_r in Hc. rewrite Hc, Hm, (@zlen_nil byte), Z.add_0_r, (cn_success ec' ec) by done.
  apply bytes_available_none; [done|]. destruct (Z.eq_dec (bytes_available (condition ec total) b) 0); [done|].
  by destruct (Hpos ltac:(lia)).
Qed.

(** The rest of the operation, once it has decided how much to read. *)
Lemma start_read_done fuel cancelled total b s ec :
  db_ok b -> rd_ok s -> 0 <= total -> max_size_ b - zlen (contents b) < Z.of_nat fuel -> ec_is_error ec = false ->
  read_done async_error total b s
    (run_dynbuf condition fuel cancelled (start_read (set_available condition ec (mkDynbufOp b total 0))) s).
Proof.
  revert total b s ec. induction fuel as [|fuel IH]; intros total b s ec Hb Hs Ht Hf He;
    destruct (db_size b Hb) as [_ Hm]; [lia|].
  unfold start_read, set_available, check_for_completion, adapt_size. cbn [op_buffers total_transferred_ bytes_available_].
  set (n := bytes_available (condition ec total) b).
  destruct (bytes_available_fits b (condition ec total) Hb (cn_nonneg _ _)) as (Hfit & Hle & _). fold n in Hfit, Hle.
  destruct (db_extended b n Hb Hfit) as (b1 & Ex & _). rewrite Ex. cbn [mbind outcome_bind run_dynbuf].
  cbn [op_buffers total_transferred_ bytes_available_].
  destruct (transfer_into s _ b1) as [[[[ec' k] b2] s']|] eqn:Et; [|done].
  destruct (transfer_kept b s n _ b1 ec' k b2 s' Hb Hs Hfit Ex Et)
    as (bs & -> & Hbs & Hg & Hs' & Hpos & Hb2 & Hc2 & Hm2). pose proof (zlen_nonneg bs).
  eapply (read_done_more _ _ ec _ _ bs); [done|lia|exact Hg|exact Hc2|exact Hm2|].
  assert (ec_is_error ec' = true -> async_error ec') as Herr by (intros _; left; by eapply transfer_into_error).
  unfold read_dynbuf_op, set_available, check_for_completion, adapt_size.
  cbn [op_buffers total_transferred_ bytes_available_]. set (b3 := db_keep n _ b2) in *.
  assert (forall ec0, (if ec_is_error ec0 then async_error ec0 else
      zlen (contents b3) = max_size_ b3 \/ condition ec0 (total + zlen bs) = 0) -> forall avail,
    read_done async_error (total + zlen bs) b3 s' (run_dynbuf condition fuel cancelled
      (Ret (mkDynbufOp b3 (total + zlen bs) avail, CallHandler ec0 (total + zlen bs))) s')) as Hend.
  { intros ec0 H0e avail. destruct fuel; by apply read_done_end. }
  destruct ((negb (ec_is_error ec') && (zlen bs =? 0)) || _) eqn:Eend.
  { apply Hend. destruct (ec_is_error ec') eqn:He'; [by apply Herr|].
    apply (transfer_ends ec ec' total b b3 bs); [done|done|congruence|by apply Hpos|done|done|apply Hfit|done]. }
  apply orb_false_iff in Eend as [Ez Ea]. destruct (ec_is_error ec') eqn:He'.
  { by rewrite bytes_available_error in Ea. }
  destruct (cancelled fuel); [apply Hend; by right|]. apply IH; [done|done|lia| |done].
  rewrite Hm2, Hc2, zlen_app. simpl in Ez. apply Z.eqb_neq in Ez. lia.
Qed.
End Spec.

(** * Writing *)

Section Write.
Context {P : DynamicBuffer} (condition : completion_condition).

(** [consume] of the buffer's kind. *)
Context (consume : Z -> dynamic_buffer -> dynamic_buffer).
Context {S : Type} `{Transfers S}.

(** [write(stream, buffers, completion_condition, ec)]. *)
Definition write_dynamic (fuel : nat) (b : dynamic_buffer) (s : S) : read_result S :=
  match write_seq fuel condition (new_single (db_data b)) (memory_of (contents b)) s with
  | Some (bytes_transferred, ec, _, s) => Finished ec bytes_transferred (consume bytes_transferred b) s
  | None => Blocked
  end.

(** [operator()] of [write_dynbuf_..._op]: the write that it starts, and what it does when
    that is over. *)
Definition write_dynbuf_start (b : dynamic_buffer) : consuming_single_buffer * next_step :=
  start_write_op condition (new_single (db_data b)).

Definition write_dynbuf_done (ec : error_code) (bytes_transferred : Z) (b : dynamic_buffer) :
    dynamic_buffer * error_code * Z :=
  (consume bytes_transferred b, ec, bytes_transferred).

Definition async_write_dynamic (fuel : nat) (cancelled : nat -> bool) (b : dynamic_buffer) (s : S) : read_result S :=
  match run_op fuel condition cancelled (write_dynbuf_start b) (memory_of (contents b)) s with
  | Completed ec n _ s => let '(b, ec, n) := write_dynbuf_done ec n b in Finished ec n b s
  | InFlight => Blocked
  | OutOfFuel => Exhausted
  end.
End Write.

Section WriteSpec.
Context `{DynamicBufferLaws}.

(** The bytes of a container, from memory. *)
Lemma load_container bs n :
  0 <= n <= zlen bs -> mapM (memory_of bs !!.) (take (Z.to_nat n) (seqZ 0 (zlen bs))) = Some (take (Z.to_nat n) bs).
Proof.
  intros Hn. apply mapM_Some, Forall2_same_length_lookup_2.
  { rewrite !length_take, length_seqZ. unfold zlen in *. lia. }
  intros i a b Ha Hb. apply lookup_take_Some in Ha as [Ha Hi], Hb as [Hb _].
  apply lookup_seqZ in Ha as [-> Hlt]. by rewrite Z.add_0_l, memory_of_lookup, Nat2Z.id by lia.
Qed.

(** What was written: the first characters, all of them without an error; they are
    consumed. *)
Definition write_done (consume : Z -> dynamic_buffer -> dynamic_buffer) (b : dynamic_buffer) (w : async_writer)
    (r : read_result async_writer) : Prop :=
  match r with
  | Finished ec n b' w' =>
      0 <= n <= zlen (contents b) /\
      sends (st_trace (aw_stream w)) (take (Z.to_nat n) (contents b)) (st_trace (aw_stream w')) /\
      b' = consume n b /\ (ec_is_error ec = false -> n = zlen (contents b))
  | Blocked => True
  | Raised _ | Exhausted => False
  end.

Lemma op_done_writes consume b w ec n m' w' :
  db_ok b -> op_done (new_single (db_data b)) (memory_of (contents b)) w (Completed ec n m' w') ->
  write_done consume b w (Finished ec n (consume n b) w').
Proof.
  intros Hb (k & Hp & Hok & -> & Hfull).
  assert (cb_rest (new_single (db_data b)) = seqZ 0 (zlen (contents b))) as Hrest by by rewrite db_data_whole.
  destruct (progress_write _ _ _ _ _ _ Hp) as (Hk & _ & bs & Hm & Hs). rewrite Hrest in *.
  assert (zlen (seqZ 0 (zlen (contents b))) = zlen (contents b)) as Hlen
    by (unfold zlen at 1; rewrite length_seqZ; pose proof (zlen_nonneg (contents b)); lia).
  rewrite Hlen in *. rewrite load_container in Hm by done. injection Hm as <-.
  change (total_consumed (new_single (db_data b))) with 0. rewrite !Z.add_0_l. done.
Qed.

Lemma single_data_ok b : db_ok b -> cb_ok (new_single (db_data b)).
Proof.
  intros Hb. rewrite db_data_whole by done. destruct (db_size b Hb) as [_ Hm].
  pose proof (zlen_nonneg (contents b)). unfold size_max in *. split; simpl; unfold buffer_wf; simpl; lia.
Qed.

(** [write] and [async_write] of a dynamic buffer send its first characters, consume
    what they sent, and without an error have sent all. *)
Lemma write_dynamic_sends consume fuel cancelled b w :
  db_ok b -> stream_ok (aw_stream w) -> (length (contents b) < fuel)%nat ->
  write_done consume b w (write_dynamic transfer_all consume fuel b w) /\
  write_done consume b w (async_write_dynamic transfer_all consume fuel cancelled b w).
Proof.
  intros Hb Hw Hf. pose proof (single_data_ok b Hb) as Hc.
  assert (length (cb_rest (new_single (db_data b))) = length (contents b)) as Hl
    by (rewrite db_data_whole by done; change (cb_rest _) with (seqZ 0 (zlen (contents b)));
        rewrite length_seqZ; unfold zlen; lia).
  split.
  - unfold write_dynamic. pose proof (transfer_seq_done fuel (new_single (db_data b)) ec_success (memory_of (contents b)) w
      Hc Hw ltac:(lia)) as Hd. unfold seq_done, write_seq in *.
    destruct (transfer_seq _ _ _ _ _ _) as [[[[n ec] m'] w']|]; [|done]. by eapply op_done_writes.
  - unfold async_write_dynamic. pose proof (run_op_done fuel cancelled (new_single (db_data b)) (memory_of (contents b)) w
      Hc Hw ltac:(lia)) as Hd.
    change (write_dynbuf_start transfer_all b) with
      (new_single (db_data b), Initiate (ConsumingBuffers.prepare (new_single (db_data b)) default_max_transfer_size)).
    destruct (run_op _ _ _ _ _ _) as [ec n m' w'| |]; [|done..]. by eapply op_done_writes.
Qed.
End WriteSpec.

(** * The overloads *)

Section Overloads.
Context `{Allocator} {S : Type} `{Transfers S} (condition : completion_condition).

Definition read_dynamic_v1 := read_dynamic (P := version1) (S := S) condition.
Definition read_dynamic_v2 := read_dynamic (P := version2) (S := S) condition.
Definition read_dynbuf_v1_op := read_dynbuf_op (P := version1) condition.
Definition read_dynbuf_v2_op := read_dynbuf_op (P := version2) condition.
Definition write_dynamic_v1 (consume : Z -> dynamic_buffer -> dynamic_buffer) :
  nat -> dynamic_buffer -> S -> read_result S := write_dynamic (P := version1) condition consume.
Definition write_dynamic_v2 (consume : Z -> dynamic_buffer -> dynamic_buffer) :
  nat -> dynamic_buffer -> S -> read_result S := write_dynamic (P := version2) condition consume.
Definition write_dynbuf_v1_start := write_dynbuf_start (P := version1) condition.
Definition write_dynbuf_v2_start := write_dynbuf_start (P := version2) condition.
End Overloads.

(** * Properties *)

(** C36. [read] and [async_read] into a dynamic buffer of either kind, with any completion
    condition that stops at errors: what was received is appended to the buffer, within
    its maximum, and its size is reported; they never get more than the condition
    allows, and without an error they have got what it asks for, or filled the buffer.
    They throw nothing, and have a result once the fuel exceeds the free space. *)
Theorem read_dynamic_reads `{DynamicBufferLaws} (condition : completion_condition) `{!ConditionLaws condition}
    {S : Type} `{ReadLaws S} fuel cancelled (b : dynamic_buffer) (s : S)
    (Hb : db_ok b) (Hs : rd_ok s) (Hfuel : max_size_ b - zlen (contents b) < Z.of_nat fuel) :
  read_done condition (stream_error (S := S)) 0 b s (read_dynamic condition fuel b s) /\
  read_done condition (async_error (S := S)) 0 b s (async_read_dynamic condition fuel cancelled b s).
Proof. split; [by apply read_loop_done|by apply start_read_done]. Qed.

(** * Witnesses *)

(** Three bytes are asked for, and come in two pieces. *)
Definition three_buffer : dynamic_buffer := dynamic (mkContainer (lit "x") 15) 32.

Definition three_reader : sync_reader :=
  mkSyncReader (test_stream [(SysRecv 7 3 0, mkAnswer 1 0 (lit "a") 0); (SysRecv 7 2 0, mkAnswer 2 0 (lit "bc") 0)]).

Lemma three_reader_ok : rd_ok three_reader.
Proof. split; [repeat (constructor; [by right|]); constructor|done]. Qed.

Lemma read_dynamic_reads_witness :
  exists b' s',
    read_dynamic (P := version1) (transfer_exactly 3) 40 three_buffer three_reader = Finished ec_success 3 b' s' /\
    contents b' = lit "xabc" /\ zlen (contents b') <= max_size_ three_buffer.
Proof.
  assert (exists b' s', read_dynamic (P := version1) (transfer_exactly 3) 40 three_buffer three_reader =
    Finished ec_success 3 b' s') as (b' & s' & E) by (eexists _, _; vm_compute; reflexivity).
  assert (v1_ok three_buffer) as Hb by (vm_compute; split; [repeat split; discriminate|by left]).
  pose proof (read_dynamic_reads (H := version1) (transfer_exactly 3) 40 (fun _ => false) three_buffer three_reader
    Hb three_reader_ok ltac:(vm_compute; reflexivity)) as [Hr _].
  assert (contents b' = lit "xabc") as Hc.
  { assert (match read_dynamic (P := version1) (transfer_exactly 3) 40 three_buffer three_reader with
            | Finished _ _ b _ => contents b = lit "xabc" | _ => False end) as Hc by (vm_compute; reflexivity).
    rewrite E in Hc. exact Hc. }
  rewrite E in Hr. destruct Hr as (bs & _ & _ & Hb' & _ & Hm & _).
  exists b', s'. split; [exact E|]. split; [exact Hc|]. rewrite <- Hm. apply (db_size b' Hb').
Defined.
