(* ===== verification/ReadUntil.v ===== *)
(** [asio/impl/read_until.hpp]: reading into a dynamic buffer until it holds a
    delimiter.

    There is a loop of [read_until], and an operation of [async_read_until], for each
    protocol of dynamic buffers and for each kind of delimiter: a character, a string,
    a condition of the caller's.  They differ in how they extend the buffer
    ([DynamicBuffer]) and in how they look for a match ([matcher]), so the loop and the
    operation are defined once, over both.  [MatcherLaws] states what a matcher finds,
    independently of where it resumes its search. *)

From S2P Require Import Prelude.
From S2P Require Import AsioError.
From S2P Require Import Buffers.
From S2P Require Import SocketOps.
From S2P Require Import ReadWrite.
From S2P Require Import SocketSpec.
From S2P Require Import SocketStream.
From S2P Require Import SocketStreamSpec.
From S2P Require Import Containers.
From S2P Require Import DynamicBuffers.

(** * Looking for a match *)

(** A match that ends at [n], or where the next search starts. *)
Inductive search_result :=
  | Found (n : Z)
  | Resume (search_position : Z).

(** A search of the data from a position. *)
Definition matcher : Type := bytes -> Z -> search_result.

(** [std::find], with the position of the first element. *)
Fixpoint std_find (delim : byte) (l : bytes) (first : Z) : Z :=
  match l with
  | [] => first
  | b :: l => if bool_decide (b = delim) then first else std_find delim l (first + 1)
  end.

Definition find_delim (delim : byte) : matcher := fun data search_position =>
  let iter := std_find delim (drop (Z.to_nat search_position) data) search_position in
  if negb (iter =? zlen data) then Found (iter + 1) else Resume (zlen data).

(** The inner loop of [partial_search]: a full match; the end of the data, after some
    equal elements or none; or a difference. *)
Inductive comparison :=
  | full_match
  | data_ends (moved : bool)
  | differs.

Fixpoint compare (test1 test2 : bytes) (moved : bool) : comparison :=
  match test2, test1 with
  | [], _ => full_match
  | _, [] => data_ends moved
  | b2 :: test2, b1 :: test1 => if bool_decide (b1 = b2) then compare test1 test2 true else differs
  end.

(** [partial_search], with the position of the first element. *)
Fixpoint partial_search (l delim : bytes) (first : Z) : Z * bool :=
  match l with
  | [] => (first, false)
  | _ :: l' =>
      match compare l delim false with
      | full_match => (first, true)
      | data_ends true => (first, false)
      | data_ends false | differs => partial_search l' delim (first + 1)
      end
  end.

Definition find_string (delim : bytes) : matcher := fun data search_position =>
  let '(iter, full) := partial_search (drop (Z.to_nat search_position) data) delim search_position in
  if negb (iter =? zlen data) then
    if (full : bool) then Found (iter + zlen delim) else Resume iter
  else Resume (zlen data).

(** A [MatchCondition] of the caller's: how far from the start of the range it is, and
    whether that is the end of a match. *)
Definition match_condition : Type := bytes -> Z * bool.

Definition find_match (condition : match_condition) : matcher := fun data search_position =>
  let '(offset, full) := condition (drop (Z.to_nat search_position) data) in
  let iter := search_position + offset in
  if (full : bool) then Found iter
  else if negb (iter =? zlen data) then Resume iter
  else Resume (zlen data).

(** * Reading *)

Section Read.
Context {P : DynamicBuffer} (look : matcher) {S : Type} `{Transfers S}.

Definition bytes_to_read (b : dynamic_buffer) : Z := bytes_available 65536 b.

(** What [db_data] designates, read back. *)
Definition range_of (b : dynamic_buffer) : bytes :=
  let r := db_data b in take (Z.to_nat (size r)) (drop (Z.to_nat (data r)) (contents b)).

(** [read_until(stream, buffers, delim, ec)]. *)
Fixpoint read_until_loop (fuel : nat) (search_position : Z) (b : dynamic_buffer) (s : S) : read_result S :=
  match look (range_of b) search_position with
  | Found n => Finished ec_success n b s
  | Resume search_position =>
      if dsize b =? max_size_ b then Finished not_found 0 b s
      else
        match fuel with
        | O => Exhausted
        | Datatypes.S fuel =>
            let n := bytes_to_read b in
            match db_extend n b with
            | Ret (target, b) =>
                match transfer_into s target b with
                | Some (ec, bytes_transferred, b, s) =>
                    let b := db_keep n bytes_transferred b in
                    if ec_is_error ec then Finished ec 0 b s
                    else read_until_loop fuel search_position b s
                | None => Blocked
                end
            | Throw e => Raised (Some e)
            | Undef => Raised None
            end
        end
  end.

Definition read_until (fuel : nat) (b : dynamic_buffer) (s : S) : read_result S := read_until_loop fuel 0 b s.

(** The members of a [read_until_..._op], and what a call of it starts: a transfer, or
    its handler. *)
Record until_op := mkUntilOp {
  buffers_ : dynamic_buffer;
  search_position_ : Z;
  bytes_to_read_ : Z
}.

Inductive until_next :=
  | StartRead (target : mutable_buffer)
  | CallHandler (result_ec : error_code) (result_n : Z).

Definition not_found_position : Z := size_max.

Definition search_buffer (op : until_op) : until_op :=
  match look (range_of (buffers_ op)) (search_position_ op) with
  | Found n => mkUntilOp (buffers_ op) n 0
  | Resume search_position =>
      if dsize (buffers_ op) =? max_size_ (buffers_ op) then mkUntilOp (buffers_ op) not_found_position 0
      else mkUntilOp (buffers_ op) search_position (bytes_to_read (buffers_ op))
  end.

Definition call_handler (ec : error_code) (op : until_op) : outcome (until_op * until_next) :=
  let result_ec := if search_position_ op =? not_found_position then not_found else ec in
  let result_n :=
    if ec_is_error ec || (search_position_ op =? not_found_position) then 0 else search_position_ op in
  Ret (op, CallHandler result_ec result_n).

(** Checks whether it is done, or starts a read. *)
Definition until_continue (start : bool) (ec : error_code) (op : until_op) : outcome (until_op * until_next) :=
  if negb start && (bytes_to_read_ op =? 0) then call_handler ec op
  else
    '(target, b) ← db_extend (bytes_to_read_ op) (buffers_ op);
    Ret (mkUntilOp b (search_position_ op) (bytes_to_read_ op), StartRead target).

Definition until_round (start : bool) (ec : error_code) (op : until_op) : outcome (until_op * until_next) :=
  until_continue start ec (search_buffer op).

(** [operator()]: [start] in the call that starts the operation; in the others a
    transfer is over, and [cancelled] says whether the operation was cancelled. *)
Definition read_until_op (start cancelled : bool) (ec : error_code) (bytes_transferred : Z) (op : until_op) :
    outcome (until_op * until_next) :=
  if start then until_round true ec op
  else
    let op := mkUntilOp (db_keep (bytes_to_read_ op) bytes_transferred (buffers_ op))
                (search_position_ op) (bytes_to_read_ op) in
    if ec_is_error ec || (bytes_transferred =? 0) then call_handler ec op
    else if cancelled then call_handler operation_aborted op
    else until_round false ec op.

(** The operation, from one of its calls on. *)
Fixpoint run_until (fuel : nat) (cancelled : nat -> bool) (call : outcome (until_op * until_next)) (s : S) :
    read_result S :=
  match call with
  | Throw e => Raised (Some e)
  | Undef => Raised None
  | Ret (op, CallHandler ec n) => Finished ec n (buffers_ op) s
  | Ret (op, StartRead target) =>
      match fuel with
      | O => Exhausted
      | Datatypes.S fuel =>
          match transfer_into s target (buffers_ op) with
          | Some (ec, n, b, s) =>
              run_until fuel cancelled
                (read_until_op false (cancelled fuel) ec n (mkUntilOp b (search_position_ op) (bytes_to_read_ op))) s
          | None => Blocked
          end
      end
  end.

Definition async_read_until (fuel : nat) (cancelled : nat -> bool) (b : dynamic_buffer) (s : S) : read_result S :=
  run_until fuel cancelled (read_until_op true false ec_success 0 (mkUntilOp b 0 0)) s.
End Read.

(** * What matchers promise *)

(** [mt_first] is where the first match of the data ends, whatever was searched before;
    [mt_from] says that no search needs to start before a position. *)
Class MatcherLaws (look : matcher) := {
  mt_first : bytes -> option Z;
  mt_from : bytes -> Z -> Prop;
  mt_from_bound data p : mt_from data p -> 0 <= p <= zlen data;
  mt_first_bound data n : mt_first data = Some n -> n <= zlen data;
  mt_from_start data : mt_from data 0;
  mt_from_more data more p : mt_from data p -> mt_from (data ++ more) p;
  mt_look data p :
    mt_from data p ->
    match look data p with
    | Found n => mt_first data = Some n
    | Resume q => mt_first data = None /\ mt_from data q
    end
}.

(** Where a string first occurs. *)
Fixpoint occurrence (delim data : bytes) : option Z :=
  if bool_decide (delim `prefix_of` data) then Some 0
  else match data with
       | [] => None
       | _ :: data => Z.succ <$> occurrence delim data
       end.

Definition first_end (delim data : bytes) : option Z := (Z.add (zlen delim)) <$> occurrence delim data.

Lemma occurrence_split delim data i :
  occurrence delim data = Some i -> exists pre post, data = pre ++ delim ++ post /\ i = zlen pre.
Proof.
  revert i. induction data as [|b data IH]; intros i; cbn [occurrence]; case_bool_decide as Hp.
  - intros [= <-]. destruct Hp as [k ->]. by exists [], k.
  - done.
  - intros [= <-]. destruct Hp as [k ->]. by exists [], k.
  - destruct (occurrence delim data) as [j|] eqn:E; [|done]. intros [= <-].
    destruct (IH j eq_refl) as (pre & post & -> & ->). exists (b :: pre), post. by rewrite zlen_cons, Z.add_1_l.
Qed.

Lemma first_end_bound delim data n : first_end delim data = Some n -> n <= zlen data.
Proof.
  unfold first_end. destruct (occurrence delim data) as [i|] eqn:E; [|done]. intros [= <-].
  destruct (occurrence_split _ _ _ E) as (pre & post & -> & ->). rewrite !zlen_app.
  pose proof (zlen_nonneg post). lia.
Qed.

(** No occurrence starts among the first characters, however the data goes on. *)
Definition settled (delim data : bytes) (p : Z) : Prop :=
  0 <= p <= zlen data /\
  forall i more, 0 <= i < p -> ~ delim `prefix_of` drop (Z.to_nat i) (data ++ more).

Lemma occurrence_drop delim n data :
  (forall i, (i < n)%nat -> ~ delim `prefix_of` drop i data) -> (n <= length data)%nat ->
  occurrence delim data = Z.add (Z.of_nat n) <$> occurrence delim (drop n data).
Proof.
  revert data. induction n as [|n IH]; intros data Hn Hl.
  { rewrite drop_0. by destruct (occurrence delim data) as [[]|]. }
  destruct data as [|b data]; [simpl in Hl; lia|]. cbn [occurrence].
  rewrite bool_decide_false by (apply (Hn 0%nat); lia). simpl in Hl.
  rewrite IH; [|intros i Hi; apply (Hn (S i)); lia|lia]. simpl.
  destruct (occurrence delim (drop n data)); simpl; [|done]. f_equal. lia.
Qed.

Lemma settled_start delim data : settled delim data 0.
Proof. split; [pose proof (zlen_nonneg data); lia|]. intros i more Hi. lia. Qed.

Lemma settled_more delim data more p : settled delim data p -> settled delim (data ++ more) p.
Proof.
  intros [Hp Hs]. split; [rewrite zlen_app; pose proof (zlen_nonneg more); lia|].
  intros i more' Hi. rewrite <- app_assoc. by apply Hs.
Qed.

(** The search of the data from such a position finds the first occurrence. *)
Lemma settled_first delim data p :
  settled delim data p ->
  occurrence delim data = Z.add p <$> occurrence delim (drop (Z.to_nat p) data).
Proof.
  intros [Hp Hs]. rewrite (occurrence_drop _ (Z.to_nat p)).
  - by rewrite Z2Nat.id by lia.
  - intros i Hi Hx. apply (Hs (Z.of_nat i) []); [lia|]. by rewrite Nat2Z.id, app_nil_r.
  - unfold zlen in *. lia.
Qed.

(** More characters that no occurrence starts at. *)
Lemma settled_next delim data p k :
  settled delim data p -> 0 <= k -> p + k <= zlen data ->
  (forall i more, 0 <= i < k -> ~ delim `prefix_of` drop (Z.to_nat i) (drop (Z.to_nat p) data ++ more)) ->
  settled delim data (p + k).
Proof.
  intros [Hp Hs] Hk Hl Hn. split; [lia|]. intros i more Hi.
  destruct (decide (i < p)) as [Hlt|Hge]; [apply Hs; lia|]. specialize (Hn (i - p) more ltac:(lia)).
  rewrite <- (drop_app_le data more (Z.to_nat p)), drop_drop in Hn by (unfold zlen in *; lia).
  by replace (Z.to_nat p + Z.to_nat (i - p))%nat with (Z.to_nat i) in Hn by lia.
Qed.

(** ** Characters *)

Lemma prefix_one c (l : bytes) : [c] `prefix_of` l <-> head l = Some c.
Proof.
  split; [by intros [k ->]|]. destruct l as [|b l]; simpl; [done|]. intros [= ->]. by exists l.
Qed.

Lemma std_find_spec c l first :
  let iter := std_find c l first in
  first <= iter <= first + zlen l /\
  occurrence [c] l = (if iter =? first + zlen l then None else Some (iter - first)) /\
  forall i more, 0 <= i < iter - first -> ~ [c] `prefix_of` drop (Z.to_nat i) (l ++ more).
Proof.
  revert first. induction l as [|b l IH]; intros first; cbn [std_find occurrence].
  { rewrite zlen_nil, Z.add_0_r, Z.eqb_refl. split; [lia|]. split; [|lia]. rewrite bool_decide_false; [done|].
    by rewrite prefix_one. }
  rewrite zlen_cons. pose proof (zlen_nonneg l). case_bool_decide as Hb.
  { subst b. rewrite (bool_decide_true ([c] `prefix_of` c :: l)) by (by apply prefix_one).
    split; [lia|]. destruct (Z.eqb_spec first (first + (1 + zlen l))); [lia|]. split; [by rewrite Z.sub_diag|lia]. }
  rewrite bool_decide_false by (rewrite prefix_one; naive_solver).
  destruct (IH (first + 1)) as (Hi & -> & Hn). split; [lia|]. split.
  - replace (first + 1 + zlen l) with (first + (1 + zlen l)) by lia. destruct (_ =? _); simpl; [done|]. f_equal. lia.
  - intros i more Hi'. destruct (Z.eq_dec i 0) as [->|Hz]; [rewrite prefix_one; naive_solver|].
    specialize (Hn (i - 1) more ltac:(lia)). by replace (Z.to_nat i) with (S (Z.to_nat (i - 1))) by lia.
Qed.

#[global] Program Instance find_delim_laws c : MatcherLaws (find_delim c) := {
  mt_first := first_end [c];
  mt_from := settled [c]
}.
Next Obligation. intros c data p Hs. apply Hs. Qed.
Next Obligation. intros c. apply first_end_bound. Qed.
Next Obligation. intros c. apply settled_start. Qed.
Next Obligation. intros c data more p. apply settled_more. Qed.
Next Obligation.
  intros c data p Hs. pose proof (settled_first _ _ _ Hs) as Hf. pose proof (proj1 Hs) as Hp.
  destruct (std_find_spec c (drop (Z.to_nat p) data) p) as (Hi & Ho & Hn). rewrite zlen_drop in Hi, Ho by done.
  replace (p + (zlen data - p)) with (zlen data) in Ho, Hi by lia. rewrite Ho in Hf. unfold find_delim, first_end.
  set (iter := std_find c _ p) in *. destruct (Z.eqb_spec iter (zlen data)) as [E|E]; cbn [negb]; rewrite Hf; simpl.
  - split; [done|]. rewrite <- E. replace iter with (p + (iter - p)) by lia. apply settled_next; [done|lia|lia|done].
  - rewrite zlen_cons, zlen_nil. f_equal. lia.
Qed.

(** ** Strings *)

Lemma compare_spec l delim moved :
  match compare l delim moved with
  | full_match => delim `prefix_of` l
  | data_ends m => (length l < length delim)%nat /\ (l = [] -> m = moved) /\ (l <> [] -> m = true)
  | differs => forall more, ~ delim `prefix_of` l ++ more
  end.
Proof.
  revert l moved. induction delim as [|b delim IH]; intros [|a l] moved; simpl; [apply prefix_nil..| |].
  { split; [lia|done]. }
  case_bool_decide as Hab.
  2: { intros more Hp. apply prefix_cons_inv_1 in Hp. congruence. }
  subst b. specialize (IH l true). destruct (compare l delim true) as [|m|].
  - by apply prefix_cons.
  - destruct IH as (Hl & H0 & H1). split; [lia|]. split; [done|]. intros _. destruct l; [by apply H0|by apply H1].
  - intros more Hp. by apply prefix_cons_inv_2, IH in Hp.
Qed.

(** The data is too short. *)
Lemma occurrence_short delim l : (length l < length delim)%nat -> occurrence delim l = None.
Proof.
  induction l as [|b l IH]; intros Hl; cbn [occurrence];
    (rewrite bool_decide_false; [|intros Hp%prefix_length; lia]); [done|]. rewrite IH; [done|]. simpl in Hl. lia.
Qed.

Lemma partial_search_spec delim l first :
  delim <> [] ->
  let '(iter, full) := partial_search l delim first in
  first <= iter <= first + zlen l /\
  (full = true -> iter < first + zlen l) /\
  occurrence delim l = (if full then Some (iter - first) else None) /\
  forall i more, 0 <= i < iter - first -> ~ delim `prefix_of` drop (Z.to_nat i) (l ++ more).
Proof.
  intros Hd. revert first. induction l as [|b l IH]; intros first.
  { simpl. rewrite zlen_nil, bool_decide_false by (by intros ?%prefix_nil_inv). split; [lia|]. split; [done|].
    split; [done|lia]. }
  change (partial_search (b :: l) delim first) with
    (match compare (b :: l) delim false with
     | full_match => (first, true)
     | data_ends true => (first, false)
     | data_ends false | differs => partial_search l delim (first + 1)
     end).
  pose proof (compare_spec (b :: l) delim false) as Hc. rewrite zlen_cons. pose proof (zlen_nonneg l).
  destruct (compare (b :: l) delim false) as [|m|].
  - split; [lia|]. split; [lia|]. split; [|lia]. cbn [occurrence]. rewrite bool_decide_true, Z.sub_diag by done. done.
  - destruct Hc as (Hl & _ & Hm). rewrite (Hm ltac:(done)). split; [lia|]. split; [done|].
    split; [by apply occurrence_short|lia].
  - specialize (IH (first + 1)). destruct (partial_search l delim (first + 1)) as [iter full].
    destruct IH as (Hi & Hfull & Ho & Hn). split; [lia|]. split; [intros Hf; specialize (Hfull Hf); lia|]. split.
    + cbn [occurrence]. rewrite bool_decide_false, Ho by (rewrite <- (app_nil_r (b :: l)); apply Hc).
      destruct full; simpl; [f_equal; lia|done].
    + intros i more Hi'. destruct (Z.eq_dec i 0) as [->|Hz]; [apply Hc|].
      specialize (Hn (i - 1) more ltac:(lia)). by replace (Z.to_nat i) with (S (Z.to_nat (i - 1))) by lia.
Qed.

(** A delimiter that is not empty. *)
Class Delimiter (delim : bytes) : Prop := delimiter_not_empty : delim <> [].

#[global] Program Instance find_string_laws delim `{Hd : !Delimiter delim} : MatcherLaws (find_string delim) := {
  mt_first := first_end delim;
  mt_from := settled delim
}.
Next Obligation. intros delim _ data p Hs. apply Hs. Qed.
Next Obligation. intros delim _. apply first_end_bound. Qed.
Next Obligation. intros delim _. apply settled_start. Qed.
Next Obligation. intros delim _ data more p. apply settled_more. Qed.
Next Obligation.
  intros delim Hd data p Hs. pose proof (settled_first _ _ _ Hs) as Hf. pose proof (proj1 Hs) as Hp.
  pose proof (partial_search_spec delim (drop (Z.to_nat p) data) p Hd) as H. unfold find_string, first_end.
  destruct (partial_search _ _ _) as [iter full]. rewrite zlen_drop in H by done. destruct H as (Hi & Hfull & Ho & Hn).
  assert (settled delim data iter) as Hset
    by (replace iter with (p + (iter - p)) by lia; apply settled_next; [done|lia|lia|done]).
  rewrite Hf, Ho. destruct (Z.eqb_spec iter (zlen data)) as [E|E]; cbn [negb].
  - destruct full; [specialize (Hfull eq_refl); lia|]. simpl. by rewrite <- E.
  - destruct full; simpl; [|done]. f_equal. lia.
Qed.

(** * What the operations do *)

Section Spec.
Context `{DynamicBufferLaws} (look : matcher) `{!MatcherLaws look} {S : Type} `{ReadLaws S}.

Lemma range_of_ok b : db_ok b -> range_of b = contents b.
Proof.
  intros Hb. unfold range_of. rewrite (db_data_whole b Hb). cbn [size data]. unfold zlen.
  by rewrite Nat2Z.id, drop_0, take_ge by done.
Qed.

(** A read appends what it gets from the stream to the buffer, as far as its maximum.
    It ends with the end of the first match, if there is one; when the buffer is full
    without; with an error of the stream, or of the operation itself.  Nothing is got
    when there is a match at first. *)
Definition until_done (errors : error_code -> Prop) (b : dynamic_buffer) (s : S) (r : read_result S) : Prop :=
  match r with
  | Finished ec n b' s' =>
      exists bs,
        rd_gets s bs s' /\ rd_ok s' /\ db_ok b' /\ contents b' = contents b ++ bs /\ max_size_ b' = max_size_ b /\
        (mt_first (contents b) <> None -> bs = []) /\
        (ec_is_error ec = false /\ mt_first (contents b') = Some n \/
         ec = not_found /\ n = 0 /\ zlen (contents b') = max_size_ b /\
           default not_found_position (mt_first (contents b')) = not_found_position \/
         ec_is_error ec = true /\ n = 0 /\ errors ec)
  | Blocked => True
  | Raised _ | Exhausted => False
  end.

Lemma until_done_more errors b s bs b1 s1 r :
  mt_first (contents b) = None \/ bs = [] ->
  rd_gets s bs s1 -> contents b1 = contents b ++ bs -> max_size_ b1 = max_size_ b ->
  until_done errors b1 s1 r -> until_done errors b s r.
Proof.
  intros Hor Hg Hc Hm. destruct r as [ec n b' s'| | |]; [|done..]. simpl.
  intros (bs' & Hg' & Hok & Hb' & Hc' & Hm' & Hno & He). exists (bs ++ bs').
  rewrite Hm in He. split_and!; [by eapply rd_gets_app|done|done| |congruence| |done].
  - by rewrite Hc', Hc, app_assoc.
  - intros Hne. destruct Hor as [|Hbs]; [done|]. rewrite Hbs in *. rewrite app_nil_r in Hc. rewrite Hc in Hno. by rewrite Hno.
Qed.

Lemma bytes_to_read_fits b :
  db_ok b -> dsize b <> max_size_ b -> 0 < bytes_to_read b <= max_size_ b - zlen (contents b).
Proof.
  intros Hb Hne. destruct (db_size b Hb) as [Hd Hm].
  destruct (bytes_available_fits b 65536 Hb ltac:(done)) as (Hfit & _ & Hpos).
  unfold bytes_to_read. split; [|lia]. apply Hpos; lia.
Qed.

(** A search of the buffer. *)
Lemma look_buffer b p :
  db_ok b -> mt_from (contents b) p ->
  match look (range_of b) p with
  | Found n => mt_first (contents b) = Some n
  | Resume q => mt_first (contents b) = None /\ mt_from (contents b) q
  end.
Proof. intros Hb Hp. rewrite range_of_ok by done. by apply mt_look. Qed.

Lemma read_until_loop_done fuel p b s :
  db_ok b -> rd_ok s -> mt_from (contents b) p -> max_size_ b - zlen (contents b) < Z.of_nat fuel ->
  until_done stream_error b s (read_until_loop look fuel p b s).
Proof.
  revert p b s. induction fuel as [|fuel IH]; intros p b s Hb Hs Hp Hf; destruct (db_size b Hb) as [Hd Hm]; [lia|].
  cbn [read_until_loop]. pose proof (look_buffer b p Hb Hp) as Hl.
  destruct (look (range_of b) p) as [n|q].
  { exists []. rewrite app_nil_r. split_and!; auto using rd_gets_nil. }
  destruct Hl as [Hnone Hq]. destruct (Z.eqb_spec (dsize b) (max_size_ b)) as [E|E].
  { exists []. rewrite app_nil_r. split_and!; auto using rd_gets_nil. right; left. rewrite Hnone. split_and!; [done|done|congruence|done]. }
  cbv zeta. pose proof (bytes_to_read_fits b Hb E) as Hn.
  destruct (db_extended b (bytes_to_read b) Hb ltac:(lia)) as (b1 & Ex & _). rewrite Ex. cbv iota.
  destruct (transfer_into s _ b1) as [[[[ec k] b2] s']|] eqn:Et; [|done].
  destruct (transfer_kept b s (bytes_to_read b) _ b1 ec k b2 s' Hb Hs ltac:(lia) Ex Et) as (bs & -> & Hle & Hg & Hs' & Hpos & Hb2 & Hc2 & Hm2).
  eapply until_done_more; [by left|exact Hg|exact Hc2|exact Hm2|]. destruct (ec_is_error ec) eqn:He.
  - exists []. rewrite app_nil_r. split_and!; auto using rd_gets_nil. right; right. split_and!; [done|done|].
    by eapply transfer_into_error.
  - apply IH; [done|done|rewrite Hc2; by apply mt_from_more|]. specialize (Hpos eq_refl ltac:(lia)).
    rewrite Hm2, Hc2, zlen_app. destruct bs; [done|]. rewrite zlen_cons. pose proof (zlen_nonneg bs). lia.
Qed.
(** ** The operation *)

Definition async_error (ec : error_code) : Prop := stream_error ec \/ ec = operation_aborted.

(** The operation has nothing to read: the position says whether there is a match. *)
Definition settled_op (op : until_op) : Prop :=
  search_position_ op = default not_found_position (mt_first (contents (buffers_ op))) /\
  (mt_first (contents (buffers_ op)) = None -> zlen (contents (buffers_ op)) = max_size_ (buffers_ op)).

Lemma call_handler_done fuel cancelled ec op s :
  db_ok (buffers_ op) -> rd_ok s -> settled_op op \/ ec_is_error ec = true /\ search_position_ op < size_max ->
  (ec_is_error ec = true -> async_error ec) ->
  until_done async_error (buffers_ op) s (run_until look fuel cancelled (call_handler ec op) s).
Proof.
  intros Hb Hs Hop He. unfold call_handler, settled_op in *. set (pos := search_position_ op) in *.
  replace (run_until look fuel cancelled _ s) with (Finished (if pos =? not_found_position then not_found else ec)
    (if ec_is_error ec || (pos =? not_found_position) then 0 else pos) (buffers_ op) s) by by destruct fuel.
  exists []. rewrite app_nil_r. split_and!; auto using rd_gets_nil.
  destruct Hop as [[Hpos Hfull]|[Hec Hlt]].
  - clearbody pos. destruct (Z.eqb_spec pos not_found_position) as [E|E].
    + right; left. rewrite orb_true_r, <- Hpos. split_and!; [done|done| |done].
      destruct (mt_first (contents (buffers_ op))) as [n|] eqn:Ef; [|by apply Hfull]. simpl in Hpos. subst pos n.
      apply mt_first_bound in Ef. unfold not_found_position in Ef. pose proof (db_size _ Hb). lia.
    + rewrite orb_false_r. destruct (ec_is_error ec) eqn:Hec; [right; right; auto|]. left.
      split; [done|]. rewrite Hpos in *. by destruct (mt_first _).
  - unfold not_found_position. destruct (Z.eqb_spec pos size_max); [lia|]. rewrite Hec. right; right. auto.
Qed.
(** The operation after a search of its buffer. *)
Record searched (op : until_op) : Prop := {
  se_ok : db_ok (buffers_ op);
  se_fits : 0 <= bytes_to_read_ op <= max_size_ (buffers_ op) - zlen (contents (buffers_ op));
  se_over : bytes_to_read_ op = 0 -> settled_op op;
  se_goes : 0 < bytes_to_read_ op ->
    mt_first (contents (buffers_ op)) = None /\ mt_from (contents (buffers_ op)) (search_position_ op)
}.

Lemma search_buffer_searched op :
  db_ok (buffers_ op) -> mt_from (contents (buffers_ op)) (search_position_ op) ->
  searched (search_buffer look op) /\ buffers_ (search_buffer look op) = buffers_ op.
Proof.
  intros Hb Hp. pose proof (look_buffer _ _ Hb Hp) as Hl. destruct (db_size _ Hb) as [Hd Hm].
  unfold search_buffer. destruct (look _ _) as [n|q].
  { split; [|done]. split; simpl; [done|lia| |lia]. intros _. unfold settled_op. simpl. by rewrite Hl. }
  destruct Hl as [Hnone Hq]. destruct (Z.eqb_spec (dsize (buffers_ op)) (max_size_ (buffers_ op))) as [E|E].
  - split; [|done]. split; simpl; [done|lia| |lia]. intros _. unfold settled_op. simpl. rewrite Hnone.
    split; [done|congruence].
  - pose proof (bytes_to_read_fits _ Hb E) as Hn. split; [|done]. split; simpl; done || lia.
Qed.

(** What a transfer that ends the operation leaves. *)
Lemma searched_ends op b bs ec :
  searched op -> zlen bs <= bytes_to_read_ op ->
  contents b = contents (buffers_ op) ++ bs -> max_size_ b = max_size_ (buffers_ op) ->
  (ec_is_error ec = false -> 0 < bytes_to_read_ op -> bs <> []) ->
  ec_is_error ec = true \/ bs = [] ->
  settled_op (mkUntilOp b (search_position_ op) (bytes_to_read_ op)) \/
  ec_is_error ec = true /\ search_position_ op < size_max.
Proof.
  intros [Hb Hfit Hover Hgoes] Hle Hc Hm Hpos Hend. destruct (Z.eq_dec (bytes_to_read_ op) 0) as [Hz|Hz].
  - left. destruct bs; [|rewrite zlen_cons in Hle; pose proof (zlen_nonneg bs); lia].
    rewrite app_nil_r in Hc. unfold settled_op. cbn [buffers_ search_position_]. rewrite Hc, Hm. by apply Hover.
  - right. destruct (Hgoes ltac:(lia)) as [_ Hp%mt_from_bound]. destruct (db_size _ Hb) as [_ Hmax].
    split; [|lia]. destruct Hend as [|Hbs]; [done|]. destruct (ec_is_error ec); [done|].
    by destruct (Hpos eq_refl ltac:(lia)).
Qed.

(** The rest of the operation, when it has enough fuel for what is free of the buffer. *)
Definition goes_on (fuel : nat) (op : until_op) : Prop :=
  forall start cancelled ec s,
    rd_ok s -> (start = false -> ec_is_error ec = false) ->
    until_done async_error (buffers_ op) s (run_until look fuel cancelled (until_continue start ec op) s).

Lemma searched_goes_on fuel op :
  searched op -> max_size_ (buffers_ op) - zlen (contents (buffers_ op)) < Z.of_nat fuel -> goes_on fuel op.
Proof.
  revert op. induction fuel as [|fuel IH]; intros op [Hb Hfit Hover Hgoes] Hf start cancelled ec s Hs Hec; [lia|].
  unfold until_continue. destruct (negb start && (bytes_to_read_ op =? 0)) eqn:E0.
  { apply andb_true_iff in E0 as [Est%negb_true_iff E0%Z.eqb_eq]. specialize (Hec Est).
    apply call_handler_done; [done|done|by left; apply Hover|congruence]. }
  destruct (db_extended _ _ Hb Hfit) as (b1 & Ex & _). rewrite Ex. cbn [mbind outcome_bind run_until].
  cbn [buffers_ search_position_ bytes_to_read_].
  destruct (transfer_into s _ b1) as [[[[ec' k] b2] s']|] eqn:Et; [|done].
  destruct (transfer_kept _ s _ _ b1 ec' k b2 s' Hb Hs Hfit Ex Et)
    as (bs & -> & Hle & Hg & Hs' & Hpos & Hb2 & Hc2 & Hm2).
  assert (ec_is_error ec' = true -> async_error ec') as Herr.
  { intros _. left. by eapply transfer_into_error. }
  unfold read_until_op. cbn [buffers_ search_position_ bytes_to_read_]. cbv zeta.
  set (b3 := db_keep _ _ b2) in *. set (op' := mkUntilOp b3 _ _).
  assert (mt_first (contents (buffers_ op)) = None \/ bs = []) as Hor.
  { destruct (Z.eq_dec (bytes_to_read_ op) 0) as [Hz|Hz]; [right|left; apply Hgoes; lia].
    destruct bs; [done|]. rewrite zlen_cons in Hle. pose proof (zlen_nonneg bs). lia. }
  apply (until_done_more _ _ _ bs b3 s'); [done|done|done|done|].
  destruct (ec_is_error ec' || (zlen bs =? 0)) eqn:Eend.
  { apply (call_handler_done fuel cancelled ec' op'); [done|done| |done].
    apply (searched_ends op b3 bs); [by split|done|done|done|done|].
    apply orb_true_iff in Eend as [|Ez%Z.eqb_eq]; [by left|right]. destruct bs; [done|].
    rewrite zlen_cons in Ez. pose proof (zlen_nonneg bs). lia. }
  apply orb_false_iff in Eend as [Ee Ez%Z.eqb_neq]. pose proof (zlen_nonneg bs).
  destruct (Hgoes ltac:(lia)) as [_ Hp]. destruct (db_size _ Hb) as [_ Hm].
  destruct (cancelled fuel).
  { apply (call_handler_done fuel cancelled operation_aborted op'); [done|done| |by right].
    right. split; [done|]. apply mt_from_bound in Hp. simpl. lia. }
  destruct (search_buffer_searched op') as [Hse Eb]; [done|simpl; rewrite Hc2; by apply mt_from_more|].
  unfold until_round. change b3 with (buffers_ op'). rewrite <- Eb. apply IH; [done| |done|done].
  rewrite Eb. simpl. rewrite Hm2, Hc2, zlen_app. lia.
Qed.
End Spec.

(** The condition [match_char] of the library's documentation. *)
Fixpoint match_char (c : byte) (l : bytes) : Z * bool :=
  match l with
  | [] => (0, false)
  | b :: l => if bool_decide (c = b) then (1, true) else let '(i, full) := match_char c l in (i + 1, full)
  end.

Lemma match_char_find c l first :
  match_char c l = let iter := std_find c l first in
    if iter =? first + zlen l then (zlen l, false) else (iter - first + 1, true).
Proof.
  revert first. induction l as [|b l IH]; intros first; cbn [match_char std_find]; cbv zeta.
  { change (zlen (@nil byte)) with 0. by rewrite Z.add_0_r, Z.eqb_refl. }
  rewrite zlen_cons. pose proof (zlen_nonneg l). do 2 case_bool_decide; try congruence.
  - destruct (Z.eqb_spec first (first + (1 + zlen l))); [lia|]. by rewrite Z.sub_diag.
  - rewrite (IH (first + 1)). cbv zeta. replace (first + 1 + zlen l) with (first + (1 + zlen l)) by lia.
    destruct (_ =? _); f_equal; lia.
Qed.

#[global] Program Instance match_char_laws c : MatcherLaws (find_match (match_char c)) := {
  mt_first := first_end [c];
  mt_from := settled [c]
}.
Next Obligation. intros c data p Hs. apply Hs. Qed.
Next Obligation. intros c. apply first_end_bound. Qed.
Next Obligation. intros c. apply settled_start. Qed.
Next Obligation. intros c data more p. apply settled_more. Qed.
Next Obligation.
  intros c data p Hs. pose proof (mt_look (look := find_delim c) data p Hs) as Hl. pose proof (proj1 Hs) as Hp.
  unfold find_match. rewrite (match_char_find c _ p), zlen_drop by done.
  destruct (std_find_spec c (drop (Z.to_nat p) data) p) as (Hi & _). rewrite zlen_drop in Hi by done.
  unfold find_delim in Hl. cbv zeta. replace (p + (zlen data - p)) with (zlen data) in * by lia.
  set (iter := std_find c _ p) in *. destruct (Z.eqb_spec iter (zlen data)) as [E|E]; cbn [negb] in Hl.
  - rewrite Zplus_minus. by destruct (_ =? _).
  - by replace (p + (iter - p + 1)) with (iter + 1) by lia.
Qed.

(** * The overloads *)

Section Overloads.
Context `{Allocator} {S : Type} `{Transfers S}.

(** Those that throw instead of giving the error. *)
Definition throwing (r : read_result S) : read_result S :=
  match r with
  | Finished ec n b s => if ec_is_error ec then Raised (Some (asio_system_error (ec_value ec))) else r
  | r => r
  end.

Definition read_until_delim_v1 (delim : byte) := read_until (P := version1) (S := S) (find_delim delim).
Definition read_until_string_v1 (delim : bytes) := read_until (P := version1) (S := S) (find_string delim).
Definition read_until_match_v1 (condition : match_condition) :=
  read_until (P := version1) (S := S) (find_match condition).
Definition read_until_delim_v2 (delim : byte) := read_until (P := version2) (S := S) (find_delim delim).
Definition read_until_string_v2 (delim : bytes) := read_until (P := version2) (S := S) (find_string delim).
Definition read_until_match_v2 (condition : match_condition) :=
  read_until (P := version2) (S := S) (find_match condition).

Definition read_until_delim_op_v1 (delim : byte) := read_until_op (P := version1) (find_delim delim).
Definition read_until_delim_string_op_v1 (delim : bytes) := read_until_op (P := version1) (find_string delim).
Definition read_until_match_op_v1 (condition : match_condition) :=
  read_until_op (P := version1) (find_match condition).
Definition read_until_delim_op_v2 (delim : byte) := read_until_op (P := version2) (find_delim delim).
Definition read_until_delim_string_op_v2 (delim : bytes) := read_until_op (P := version2) (find_string delim).
Definition read_until_match_op_v2 (condition : match_condition) :=
  read_until_op (P := version2) (find_match condition).
End Overloads.

(** * Properties *)

(** C34. [read_until], for a character, a string or a condition, over either kind of
    dynamic buffer: whatever the stream delivers, what was received is appended to the
    buffer, which never exceeds its maximum; without an error the number returned is
    where the first match ends, a match that is there already is returned without
    reading, and [not_found] means that the buffer is full and has none.  It throws
    nothing, and has a result once the fuel exceeds the free space. *)
Theorem read_until_finds `{DynamicBufferLaws} (look : matcher) `{!MatcherLaws look} {S : Type} `{ReadLaws S}
    fuel (b : dynamic_buffer) (s : S)
    (Hb : db_ok b) (Hs : rd_ok s) (Hfuel : max_size_ b - zlen (contents b) < Z.of_nat fuel) :
  until_done look (stream_error (S := S)) b s (read_until look fuel b s).
Proof. apply read_until_loop_done; [done|done|apply mt_from_start|done]. Qed.

(** C35. [async_read_until] calls its handler with what [read_until] would return, an
    error of the stream or [operation_aborted] apart, however its transfers complete and
    whenever it is cancelled: it reads into no more than the buffer's maximum, appends
    what it received, finds the first match, and resumes its searches where they
    stopped. *)
Theorem async_read_until_finds `{DynamicBufferLaws} (look : matcher) `{!MatcherLaws look} {S : Type} `{ReadLaws S}
    fuel cancelled (b : dynamic_buffer) (s : S)
    (Hb : db_ok b) (Hs : rd_ok s) (Hfuel : max_size_ b - zlen (contents b) < Z.of_nat fuel) :
  until_done look (async_error (S := S)) b s (async_read_until look fuel cancelled b s).
Proof.
  destruct (search_buffer_searched look (mkUntilOp b 0 0)) as [Hse Eb]; [done|apply mt_from_start|].
  unfold async_read_until, read_until_op, until_round. change (buffers_ _) with b in Eb at 2. rewrite <- Eb at 1.
  apply searched_goes_on; [done|by rewrite Eb|done..].
Qed.

(** * Witnesses *)

(** A line whose end is cut in two. *)
Definition line_end : bytes := [Byte.x0d; Byte.x0a].

#[local] Instance line_end_delimiter : Delimiter line_end.
Proof. done. Qed.

Definition line_trace : sys_trace :=
  [(SysRecv 7 31 0, mkAnswer 4 0 (lit "ET " ++ [Byte.x0d]) 0);
   (SysRecv 7 27 0, mkAnswer 5 0 ([Byte.x0a] ++ lit "Host") 0)].

Definition line_buffer : dynamic_buffer := dynamic (mkContainer (lit "G") 15) 32.

Definition line_reader : sync_reader := mkSyncReader (test_stream line_trace).

Lemma line_buffer_v1 : v1_ok line_buffer.
Proof. vm_compute. split; [|by left]. repeat split; discriminate. Qed.

Lemma line_reader_ok : rd_ok line_reader.
Proof. split; [|done]. unfold line_trace. repeat (constructor; [by right|]). constructor. Qed.

Lemma line_read :
  match read_until (P := version1) (find_string line_end) 40 line_buffer line_reader with
  | Finished ec n b s => ec = ec_success /\ n = 6 /\ contents b = lit "GET " ++ line_end ++ lit "Host"
  | _ => False
  end.
Proof. vm_compute. repeat split. Qed.

Lemma read_until_finds_witness :
  exists b' s',
    read_until_string_v1 line_end 40 line_buffer line_reader = Finished ec_success 6 b' s' /\
    first_end line_end (contents b') = Some 6 /\
    contents b' = lit "GET " ++ line_end ++ lit "Host".
Proof.
  unfold read_until_string_v1. pose proof line_read as Hread.
  pose proof (read_until_finds (H := version1) (find_string line_end) 40 line_buffer line_reader
    line_buffer_v1 line_reader_ok ltac:(vm_compute; reflexivity)) as Hr.
  destruct (read_until (find_string line_end) 40 line_buffer line_reader) as [ec n b' s'|e| |];
    [|done..].
  destruct Hread as (-> & -> & Hc). destruct Hr as (bs & _ & _ & _ & _ & _ & _ & Hor).
  exists b', s'. split; [done|]. split; [|exact Hc].
  destruct Hor as [[_ Hf]|[[Hn _]|[Hn _]]]; [exact Hf|discriminate Hn|discriminate Hn].
Defined.

(** The delimiter comes after an interruption. *)
Definition field_trace : sys_trace :=
  [(SysIoctl 7 FIONBIO 1, mkAnswer 0 0 [] 1); (SysRecv 7 31 0, failure 4);
   (SysRecv 7 31 0, mkAnswer 3 0 (lit "a;b") 0)].

Definition field_reader : async_reader := mkAsyncReader (test_stream field_trace).

Lemma line_buffer_v2 : v2_ok line_buffer.
Proof. vm_compute. split; [|done]. repeat split; discriminate. Qed.

Lemma field_reader_ok : rd_ok field_reader.
Proof. split; [|done]. unfold field_trace. repeat (constructor; [first [by left|by right|done]|]). constructor. Qed.

Lemma async_read_until_finds_witness :
  exists b' s',
    async_read_until (P := version2) (find_delim Byte.x3b) 40 (fun _ => false) line_buffer field_reader =
      Finished ec_success 3 b' s' /\
    first_end [Byte.x3b] (contents b') = Some 3 /\ contents b' = lit "Ga;b".
Proof.
  assert (exists b' s', async_read_until (P := version2) (find_delim Byte.x3b) 40 (fun _ => false) line_buffer
    field_reader = Finished ec_success 3 b' s' /\ contents b' = lit "Ga;b") as (b' & s' & E & Hc)
    by (eexists _, _; split; vm_compute; reflexivity).
  pose proof (async_read_until_finds (H := version2) (find_delim Byte.x3b) 40 (fun _ => false) line_buffer field_reader
    line_buffer_v2 field_reader_ok ltac:(vm_compute; reflexivity)) as Hr.
  rewrite E in Hr. destruct Hr as (bs & _ & _ & _ & _ & _ & _ & Hor).
  exists b', s'. split; [exact E|]. split; [|exact Hc].
  destruct Hor as [[_ Hf]|[[Hn _]|[Hn _]]]; [exact Hf|discriminate Hn|discriminate Hn].
Defined.
