(* ===== verification/ConnectionIO.v ===== *)
(** The reads of a connection on the socket they go through.

    The model of the server takes of each asynchronous read that it is no longer
    than its buffer and fills it unless there is an error
    ([Connection.completes]).  Here the buffer is memory, the read is
    [asio::async_read] over the socket's calls, and the assumption is a theorem:
    whatever the library calls a handler with is a step of the connection. *)

From S2P Require Import Prelude.
From S2P Require Import ObjectRepr.
From S2P Require Import FileSystem.
From S2P Require Import AsioError.
From S2P Require Import Requests.
From S2P Require Import Connection.
From S2P Require Import Buffers.
From S2P Require Import ConsumingBuffers.
From S2P Require Import SocketOps.
From S2P Require Import ReadWrite.
From S2P Require Import SocketSpec.
From S2P Require Import SocketStream.
From S2P Require Import SocketStreamSpec.
From S2P Require Import Containers.

(** [asio::buffer] of the container an operation reads into, at an address. *)
Definition read_buffer (op : async_op) (c : connection) (address : Z) : mutable_buffer :=
  mkBuffer address (Z.of_nat (read_size op c)).

(** The bytes the handler finds at the start of its container. *)
Definition stored (m : memory) (b : mutable_buffer) (total : Z) : option bytes :=
  load_bytes m (data b) total.

Lemma stored_prefix m b bs :
  buffer_wf b -> zlen bs <= size b ->
  stored (store_bytes m (addresses b) bs) b (zlen bs) = Some bs.
Proof.
  intros Hw Hl. unfold stored, load_bytes.
  replace (seqZ (data b) (zlen bs)) with (take (length bs) (addresses b)).
  - apply load_store; [apply NoDup_seqZ|].
    pose proof (zlen_addresses b Hw). unfold zlen in *. lia.
  - unfold addresses. rewrite <- (Nat2Z.id (length bs)), take_seqZ by lia.
    f_equal. unfold zlen in *. lia.
Qed.

Section IO.
Context `{OS}.

(** Whenever [asio::async_read] calls the handler of one of a connection's
    reads, on any socket and after any interruptions, waits and partial
    transfers, the handler finds in its container the bytes received from the
    peer meanwhile, and its call is a step of the connection: no more than the
    container was filled, and all of it unless there is an error. *)
Theorem connection_reads_are_steps op c fs address cancelled m r ec total m' r'
    (Hsize : Z.of_nat (read_size op c) < 2 ^ 64) (Hr : stream_ok (ar_stream r))
    (Hrun : async_read cancelled (new_single (read_buffer op c address)) m r =
  Completed ec total m' r') :
  exists bs,
  receives (st_trace (ar_stream r)) bs (st_trace (ar_stream r')) /\
  stored m' (read_buffer op c address) total = Some bs /\
  completes op ec bs c /\
    (forall st', resume op ec bs c fs = Ret st' -> step (mkState c fs (Some op)) st').
Proof.
  set (b := read_buffer op c address) in *.
  assert (buffer_wf b) as Hb by (unfold buffer_wf; simpl; lia).
  assert (cb_ok (new_single b)) as Hc by (split; simpl; [done|lia]).
  pose proof (async_read_done cancelled (new_single b) m r Hc Hr) as Hd.
  rewrite Hrun in Hd. destruct Hd as (n & Hp & _ & -> & Hfull).
  destruct (progress_read _ _ _ _ _ _ Hp) as (bs & <- & Hle & -> & Hrec).
  change (cb_rest (new_single b)) with (addresses b) in *.
  rewrite zlen_addresses in * by done.
  assert (completes op ec bs c) as Hcomp.
  { unfold completes, zlen in *. simpl in *. split; [lia|]. intros He. specialize (Hfull He). lia. }
  exists bs. split; [done|]. split; [by apply stored_prefix|]. split; [done|].
  intros st' Hst'. by econstructor.
Qed.
End IO.

(** A pre-request header of 16 bytes that comes in two pieces. *)
Definition header_bytes : bytes := replicate 16 Byte.x01.

Definition header_trace : sys_trace :=
  [(SysIoctl 7 FIONBIO 1, mkAnswer 0 0 [] 1);
   (SysRecv 7 16 0, mkAnswer 10 0 (take 10 header_bytes) 0);
   (SysRecv 7 6 0, mkAnswer 6 0 (drop 10 header_bytes) 0)].

Definition memory16 : memory := list_to_map (zip (seqZ 0 16) (replicate 16 Byte.x00)).

Lemma header_trace_ok : stream_ok (test_stream header_trace).
Proof. split; [|done]. unfold header_trace. repeat constructor; (by right || done). Qed.

Lemma connection_reads_are_steps_witness :
  exists m' r' bs,
    async_read (fun _ => false)
      (new_single (read_buffer ReadingPreRequestHeader new_connection 0)) memory16
      (mkAsyncReader (test_stream header_trace)) = Completed ec_success 16 m' r' /\
    stored m' (read_buffer ReadingPreRequestHeader new_connection 0) 16 = Some bs /\
    completes ReadingPreRequestHeader ec_success bs new_connection.
Proof.
  assert (exists m' r',
    async_read (fun _ => false)
      (new_single (read_buffer ReadingPreRequestHeader new_connection 0)) memory16
      (mkAsyncReader (test_stream header_trace)) = Completed ec_success 16 m' r')
    as (m' & r' & E) by (eexists _, _; by vm_compute).
  destruct (@connection_reads_are_steps simple_os ReadingPreRequestHeader new_connection ∅ 0
    (fun _ => false) memory16 (mkAsyncReader (test_stream header_trace)) ec_success 16 m' r')
    as (bs & _ & Hs & Hc & _).
  - by vm_compute.
  - exact header_trace_ok.
  - exact E.
  - exists m', r', bs. split; [exact E|]. split; [exact Hs|exact Hc].
Defined.
