(* ===== verification/ChronoTimeTraits.v ===== *)
(** [asio/detail/chrono_time_traits.hpp] and [asio/wait_traits.hpp]: the times of
    a clock of the standard library, whose ticks are 64-bit signed integers, as
    the timer queues use them.  Overflow of the ticks is undefined, and the code
    avoids it by saturating; [chrono_saturates] and [duration_cast_scales]
    show it does. *)

From S2P Require Import Prelude.

Definition INT64_MAX : Z := 2 ^ 63 - 1.
Definition INT64_MIN : Z := - 2 ^ 63.

Definition int64 (z : Z) : Prop := INT64_MIN <= z <= INT64_MAX.

#[global] Instance int64_dec z : Decision (int64 z).
Proof. unfold int64. apply _. Defined.

(** The result of a 64-bit signed operation. *)
Definition checked (z : Z) : outcome Z := if decide (int64 z) then Ret z else Undef.

Lemma checked_ok z : int64 z -> checked z = Ret z.
Proof. intros H. unfold checked. by rewrite decide_True. Qed.

(** Times and durations are counts of ticks; the default time is the epoch. *)
Definition epoch : Z := 0.

Definition add (t d : Z) : outcome Z :=
  saturated ←
    (if epoch <=? t then
       room ← checked (INT64_MAX - t);
       Ret (if room <? d then Some INT64_MAX else None)
     else
       above ← checked (t - INT64_MIN);
       below ← checked (- above);
       Ret (if d <? below then Some INT64_MIN else None));
  match saturated with
  | Some t => Ret t
  | None => checked (t + d)
  end.

Definition subtract (t1 t2 : Z) : outcome Z :=
  if epoch <=? t1 then
    if epoch <=? t2 then checked (t1 - t2)
    else if t2 =? INT64_MIN then Ret INT64_MAX
    else
      room ← checked (INT64_MAX - t1);
      before ← checked (epoch - t2);
      if room <? before then Ret INT64_MAX else checked (t1 - t2)
  else
    if t2 <? epoch then checked (t1 - t2)
    else if t1 =? INT64_MIN then Ret INT64_MIN
    else
      room ← checked (INT64_MAX - t2);
      before ← checked (epoch - t1);
      if room <? before then Ret INT64_MIN
      else
        d ← checked (t2 - t1);
        checked (- d).

Definition less_than (t1 t2 : Z) : bool := t1 <? t2.

(** [wait_traits::to_wait_duration] of a duration. *)
Definition to_wait_duration (d : Z) : Z := d.

(** [gcd<v1, v2>::value], which the compiler computes; the recursion ends as the
    second argument decreases. *)
Fixpoint gcd_value (fuel : nat) (v1 v2 : Z) : Z :=
  match fuel with
  | O => v1
  | S fuel => if v2 =? 0 then v1 else gcd_value fuel v2 (Z.rem v1 v2)
  end.

Definition gcd (v1 v2 : Z) : Z := gcd_value (S (Z.to_nat v2)) v1 v2.

(** [posix_time_duration] for a clock of period [num / den]. *)
Section PosixTimeDuration.
Context (period_num period_den : Z).

Definition ticks (d : Z) : Z := d.

Definition duration_cast (Num Den : Z) (d : Z) : outcome Z :=
  let num1 := period_num ÷ gcd period_num Num in
  let num2 := Num ÷ gcd period_num Num in
  let den1 := period_den ÷ gcd period_den Den in
  let den2 := Den ÷ gcd period_den Den in
  let num := num1 * den2 in
  let den := num2 * den1 in
  if (num =? 1) && (den =? 1) then Ret (ticks d)
  else if negb (num =? 1) && (den =? 1) then checked (ticks d * num)
  else if (num =? 1) && negb (period_den =? 1) then checked (ticks d ÷ den)
  else
    scaled ← checked (ticks d * num);
    checked (scaled ÷ den).

Definition total_seconds : Z -> outcome Z := duration_cast 1 1.
Definition total_milliseconds : Z -> outcome Z := duration_cast 1 1000.
Definition total_microseconds : Z -> outcome Z := duration_cast 1 1000000.
End PosixTimeDuration.

(** The nearest 64-bit value. *)
Definition saturate (z : Z) : Z := Z.max INT64_MIN (Z.min INT64_MAX z).

Lemma saturate_ok z : int64 z -> saturate z = z.
Proof. unfold int64, saturate. lia. Qed.

(** Split the checks and comparisons of an expression of bounded integers. *)
Ltac checks :=
  unfold checked, epoch;
  repeat first
    [ progress simpl
    | match goal with |- context [if ?b <=? ?c then _ else _] => destruct (Z.leb_spec b c) end
    | match goal with |- context [if ?b <? ?c then _ else _] => destruct (Z.ltb_spec b c) end
    | match goal with |- context [if ?b =? ?c then _ else _] => destruct (Z.eqb_spec b c) end
    | case_decide ];
  unfold saturate, int64, INT64_MAX, INT64_MIN in *; first [f_equal; lia | lia].

Lemma add_ok t d : int64 t -> int64 d -> add t d = Ret (saturate (t + d)).
Proof. intros Ht Hd. unfold add. checks. Qed.

Lemma subtract_ok t1 t2 : int64 t1 -> int64 t2 -> subtract t1 t2 = Ret (saturate (t1 - t2)).
Proof. intros H1 H2. unfold subtract. checks. Qed.

(** Times are added and subtracted without overflow: the result is the exact
    one, or the nearest end of the clock's range. *)
Theorem chrono_saturates t u d (Ht : int64 t) (Hu : int64 u) (Hd : int64 d) :
  add t d = Ret (saturate (t + d)) /\ subtract t u = Ret (saturate (t - u)).
Proof. split; [by apply add_ok|by apply subtract_ok]. Qed.

Lemma chrono_saturates_witness :
  int64 (2 ^ 62) /\
  add (2 ^ 62) (2 ^ 62) = Ret (2 ^ 63 - 1) /\ subtract (2 ^ 62) (- 2 ^ 62) = Ret (2 ^ 63 - 1).
Proof.
  split; [by vm_compute|].
  exact (chrono_saturates (2 ^ 62) (- 2 ^ 62) (2 ^ 62)
           ltac:(by vm_compute) ltac:(by vm_compute) ltac:(by vm_compute)).
Defined.

Lemma gcd_value_spec fuel v1 v2 :
  0 < v1 -> 0 <= v2 -> v2 < Z.of_nat fuel -> gcd_value fuel v1 v2 = Z.gcd v1 v2.
Proof.
  revert v1 v2. induction fuel as [|fuel IH]; intros v1 v2 H1 H2 Hf; [lia|].
  cbn [gcd_value]. destruct (Z.eqb_spec v2 0) as [->|Hne].
  - rewrite Z.gcd_0_r. lia.
  - rewrite Z.rem_mod_nonneg by lia. pose proof (Z.mod_pos_bound v1 v2 ltac:(lia)).
    rewrite IH by lia. rewrite (Z.gcd_comm v2), Z.gcd_mod by lia. apply Z.gcd_comm.
Qed.

Lemma gcd_spec v1 v2 : 0 < v1 -> 0 < v2 -> gcd v1 v2 = Z.gcd v1 v2.
Proof. intros. apply gcd_value_spec; lia. Qed.

(** Both numbers as multiples of their greatest common divisor. *)
Lemma gcd_parts a b :
  0 < a -> 0 < b ->
  exists g x y, Z.gcd a b = g /\ 0 < g /\ a = x * g /\ b = y * g /\ a ÷ g = x /\ b ÷ g = y /\
    0 < x /\ 0 < y.
Proof.
  intros Ha Hb. pose proof (Z.gcd_nonneg a b).
  assert (Z.gcd a b <> 0) by (intros E; apply Z.gcd_eq_0 in E; lia).
  destruct (Z.gcd_divide_l a b) as [x Hx], (Z.gcd_divide_r a b) as [y Hy].
  exists (Z.gcd a b), x, y. set (g := Z.gcd a b) in *. clearbody g.
  split_and!; [done|lia|done|done| | |nia|nia]; subst; by rewrite Z.quot_mul by lia.
Qed.

Lemma quot_int64 a b : int64 a -> 0 < b -> int64 (a ÷ b).
Proof.
  unfold int64, INT64_MAX, INT64_MIN. intros Ha Hb. Z.to_euclidean_division_equations. nia.
Qed.

(** Converting a duration between two periods is the exact conversion,
    rounded towards zero, whatever branch computes it, as long as the scaled ticks
    fit. *)
Theorem duration_cast_scales period_num period_den Num Den d
    (Hpn : 0 < period_num) (Hpd : 0 < period_den) (HN : 0 < Num) (HD : 0 < Den)
    (Hd : int64 d)
    (Hfit : int64 (d * (period_num ÷ Z.gcd period_num Num * (Den ÷ Z.gcd period_den Den)))) :
  duration_cast period_num period_den Num Den d =
    Ret ((d * period_num * Den) ÷ (period_den * Num)).
Proof.
  unfold duration_cast, ticks. rewrite !gcd_spec by done.
  destruct (gcd_parts period_num Num) as (g1 & x1 & y1 & G1 & Hg1 & -> & -> & E1 & E2 & Hx1 & Hy1);
    [done|done|].
  destruct (gcd_parts period_den Den) as (g2 & x2 & y2 & G2 & Hg2 & -> & -> & E3 & E4 & Hx2 & Hy2);
    [done|done|].
  rewrite G1, G2, E1, E4 in Hfit. rewrite G1, G2, E1, E2, E3, E4. cbv zeta.
  assert ((d * (x1 * g1) * (y2 * g2)) ÷ (x2 * g2 * (y1 * g1)) = (d * (x1 * y2)) ÷ (y1 * x2)) as ->.
  { replace (d * (x1 * g1) * (y2 * g2)) with (d * (x1 * y2) * (g1 * g2)) by ring.
    replace (x2 * g2 * (y1 * g1)) with (y1 * x2 * (g1 * g2)) by ring.
    apply Z.quot_mul_cancel_r; nia. }
  assert (0 < y1 * x2) as Hden by nia.
  pose proof (quot_int64 _ _ Hfit Hden) as Hq.
  destruct (Z.eqb_spec (x1 * y2) 1) as [En|En], (Z.eqb_spec (y1 * x2) 1) as [Ed|Ed]; cbn [andb negb].
  - rewrite En, Ed, Z.mul_1_r, Z.quot_1_r. done.
  - rewrite En, Z.mul_1_r in Hq |- *.
    destruct (Z.eqb_spec (x2 * g2) 1); cbn [andb negb]; [|by apply checked_ok].
    rewrite (checked_ok d Hd). by apply checked_ok.
  - rewrite Ed, Z.quot_1_r in *. by apply checked_ok.
  - rewrite (checked_ok _ Hfit). by apply checked_ok.
Qed.

Lemma duration_cast_scales_witness :
  int64 1500000001 /\ duration_cast 1 1000000000 1 1000 1500000001 = Ret 1500.
Proof.
  split; [by vm_compute|].
  exact (duration_cast_scales 1 1000000000 1 1000 1500000001 eq_refl eq_refl eq_refl eq_refl
           ltac:(by vm_compute) ltac:(by vm_compute)).
Defined.

(** The standard clocks count nanoseconds. *)
Lemma total_milliseconds_ns d : int64 d -> total_milliseconds 1 1000000000 d = Ret (d ÷ 1000000).
Proof.
  intros Hd. unfold total_milliseconds, duration_cast, ticks.
  change (gcd 1 1) with 1. change (gcd 1000000000 1000) with 1000. simpl.
  rewrite checked_ok; [done|]. by apply quot_int64.
Qed.

Lemma total_microseconds_ns d : int64 d -> total_microseconds 1 1000000000 d = Ret (d ÷ 1000).
Proof.
  intros Hd. unfold total_microseconds, duration_cast, ticks.
  change (gcd 1 1) with 1. change (gcd 1000000000 1000000) with 1000000. simpl.
  rewrite checked_ok; [done|]. by apply quot_int64.
Qed.
