(* ===== verification/TimerQueue.v ===== *)
(** [asio/detail/timer_queue.hpp]: the timers of a reactor.

    Active timers are threaded on a doubly linked list and, but for those that
    never expire, held by a binary heap in the order of their times; every timer
    knows its place in the heap.  Pointers are positive numbers, and what they
    point to is a finite map.  Dereferencing a dangling pointer, or an index out
    of the heap, is undefined.  The operations waiting on a timer are a list: the
    queue they are linked on behaves as one ([OpQueue.op_queue_refines_list]). *)

From S2P Require Import Prelude.
From S2P Require Import AsioError.
From S2P Require Import ChronoTimeTraits.

Abbreviation timer_ptr := positive.

(** A waiting operation: its identity and its cancellation key. *)
Record wait_op := mkWaitOp {
  op_id : positive;
  cancellation_key_ : positive
}.

#[global] Instance wait_op_eq_dec : EqDecision wait_op.
Proof. solve_decision. Defined.

(** [(std::numeric_limits<std::size_t>::max)()]. *)
Definition npos : Z := 2 ^ 64 - 1.

Record per_timer_data := mkTimer {
  op_queue_ : list wait_op;
  heap_index_ : Z;
  next_ : option timer_ptr;
  prev_ : option timer_ptr
}.

Definition new_timer : per_timer_data := mkTimer [] npos None None.

Record heap_entry := mkEntry {
  time_ : Z;
  timer_ : timer_ptr
}.

Record timer_queue := mkTimers {
  timers_ : option timer_ptr;
  heap_ : list heap_entry;
  memory_ : gmap timer_ptr per_timer_data
}.

(** Completed operations with their error, in the order they were pushed. *)
Abbreviation completions := (list (wait_op * error_code)).

Definition set_queue (ops : list wait_op) (d : per_timer_data) : per_timer_data :=
  mkTimer ops (heap_index_ d) (next_ d) (prev_ d).
Definition set_index (i : Z) (d : per_timer_data) : per_timer_data :=
  mkTimer (op_queue_ d) i (next_ d) (prev_ d).
Definition set_next (n : option timer_ptr) (d : per_timer_data) : per_timer_data :=
  mkTimer (op_queue_ d) (heap_index_ d) n (prev_ d).
Definition set_prev (n : option timer_ptr) (d : per_timer_data) : per_timer_data :=
  mkTimer (op_queue_ d) (heap_index_ d) (next_ d) n.

Definition set_heap (h : list heap_entry) (q : timer_queue) : timer_queue :=
  mkTimers (timers_ q) h (memory_ q).
Definition set_timers (t : option timer_ptr) (q : timer_queue) : timer_queue :=
  mkTimers t (heap_ q) (memory_ q).

(** [*p], and an assignment to one of its members. *)
Definition load (q : timer_queue) (p : timer_ptr) : outcome per_timer_data :=
  match memory_ q !! p with
  | Some d => Ret d
  | None => Undef
  end.

Definition update (f : per_timer_data -> per_timer_data) (p : timer_ptr) (q : timer_queue) :
    outcome timer_queue :=
  d ← load q p;
  Ret (mkTimers (timers_ q) (heap_ q) (<[p := f d]> (memory_ q))).

(** [if (p) p->... = ...]. *)
Definition update_opt (f : per_timer_data -> per_timer_data) (p : option timer_ptr)
    (q : timer_queue) : outcome timer_queue :=
  match p with
  | Some p => update f p q
  | None => Ret q
  end.

(** [heap_[index]]. *)
Definition entry (q : timer_queue) (index : nat) : outcome heap_entry :=
  match heap_ q !! index with
  | Some e => Ret e
  | None => Undef
  end.

(** * The heap *)

Definition swap_heap (index1 index2 : nat) (q : timer_queue) : outcome timer_queue :=
  tmp ← entry q index1;
  e2 ← entry q index2;
  let q := set_heap (<[index1 := e2]> (heap_ q)) q in
  let q := set_heap (<[index2 := tmp]> (heap_ q)) q in
  e1 ← entry q index1;
  q ← update (set_index (Z.of_nat index1)) (timer_ e1) q;
  e2 ← entry q index2;
  update (set_index (Z.of_nat index2)) (timer_ e2) q.

(** The loops run at most as often as the heap has entries. *)
Fixpoint up_heap (fuel : nat) (index : nat) (q : timer_queue) : outcome timer_queue :=
  match fuel with
  | O => Undef
  | S fuel =>
      if (0 <? index)%nat then
        let parent := ((index - 1) / 2)%nat in
        e ← entry q index;
        e' ← entry q parent;
        if negb (less_than (time_ e) (time_ e')) then Ret q
        else
          q ← swap_heap index parent q;
          up_heap fuel parent q
      else Ret q
  end.

Fixpoint down_heap (fuel : nat) (index : nat) (q : timer_queue) : outcome timer_queue :=
  match fuel with
  | O => Undef
  | S fuel =>
      let child := (index * 2 + 1)%nat in
      if (child <? length (heap_ q))%nat then
        left ←
          (if (child + 1 =? length (heap_ q))%nat then Ret true
           else
             e1 ← entry q child;
             e2 ← entry q (child + 1);
             Ret (less_than (time_ e1) (time_ e2)));
        let min_child := if (left : bool) then child else (child + 1)%nat in
        e ← entry q index;
        e' ← entry q min_child;
        if less_than (time_ e) (time_ e') then Ret q
        else
          q ← swap_heap index min_child q;
          down_heap fuel min_child q
      else Ret q
  end.

Definition heap_fuel (q : timer_queue) : nat := S (length (heap_ q)).

Definition pop_back (q : timer_queue) : timer_queue :=
  set_heap (take (length (heap_ q) - 1) (heap_ q)) q.

(** * Removing and adding *)

(** [remove_timer], from the heap and from the list. *)
(** The entry at [index] goes where it belongs. *)
Definition restore_heap (index : nat) (q : timer_queue) : outcome timer_queue :=
  up ←
    (if (0 <? index)%nat then
       e ← entry q index;
       e' ← entry q ((index - 1) / 2)%nat;
       Ret (less_than (time_ e) (time_ e'))
     else Ret false);
  if (up : bool) then up_heap (heap_fuel q) index q else down_heap (heap_fuel q) index q.

Definition remove_from_heap (p : timer_ptr) (q : timer_queue) : outcome timer_queue :=
  d ← load q p;
  let index := heap_index_ d in
  if negb (bool_decide (heap_ q = [])) && (index <? zlen (heap_ q)) then
    if index =? zlen (heap_ q) - 1 then
      q ← update (set_index npos) p q;
      Ret (pop_back q)
    else
      let index := Z.to_nat index in
      q ← swap_heap index (length (heap_ q) - 1) q;
      q ← update (set_index npos) p q;
      restore_heap index (pop_back q)
  else Ret q.

Definition remove_from_list (p : timer_ptr) (q : timer_queue) : outcome timer_queue :=
  d ← load q p;
  let q := if decide (timers_ q = Some p) then set_timers (next_ d) q else q in
  q ← update_opt (set_next (next_ d)) (prev_ d) q;
  q ← update_opt (set_prev (prev_ d)) (next_ d) q;
  q ← update (set_next None) p q;
  update (set_prev None) p q.

Definition remove_timer (p : timer_ptr) (q : timer_queue) : outcome timer_queue :=
  q ← remove_from_heap p q;
  remove_from_list p q.

(** Whether a timer is on the list. *)
Definition is_active (p : timer_ptr) (d : per_timer_data) (q : timer_queue) : bool :=
  bool_decide (prev_ d <> None) || bool_decide (timers_ q = Some p).

Section Queue.
(** The overloads of [is_positive_infinity]; only one time is ever infinite, and
    the times of the standard clocks never are. *)
Context (is_positive_infinity : Z -> bool).

(** A timer that is not active is put into the heap and the list. *)
Definition insert_timer (time : Z) (p : timer_ptr) (q : timer_queue) : outcome timer_queue :=
  q ←
    (if is_positive_infinity time then update (set_index npos) p q
    else
      q ← update (set_index (zlen (heap_ q))) p q;
      let q := set_heap (heap_ q ++ [mkEntry time p]) q in
      up_heap (heap_fuel q) (length (heap_ q) - 1) q);
      q ← update (set_next (timers_ q)) p q;
      q ← update (set_prev None) p q;
      q ← update_opt (set_prev (Some p)) (timers_ q) q;
      Ret (set_timers (Some p) q).

Definition enqueue_timer (time : Z) (p : timer_ptr) (op : wait_op) (q : timer_queue) :
    outcome (bool * timer_queue) :=
  d ← load q p;
  q ← (if negb (is_active p d q) then insert_timer time p q else Ret q);
  d ← load q p;
  q ← update (set_queue (op_queue_ d ++ [op])) p q;
  d ← load q p;
  Ret ((heap_index_ d =? 0) && bool_decide (head (op_queue_ d) = Some op), q).
End Queue.

Definition is_empty (q : timer_queue) : bool := bool_decide (timers_ q = None).

(** * Waiting *)

(** The conversions, for a clock that counts nanoseconds. *)
Definition to_msec (d max_duration : Z) : outcome Z :=
  if ticks d <=? 0 then Ret 0
  else
    msec ← total_milliseconds 1 1000000000 d;
    if msec =? 0 then Ret 1
    else if max_duration <? msec then Ret max_duration
    else Ret msec.

Definition to_usec (d max_duration : Z) : outcome Z :=
  if ticks d <=? 0 then Ret 0
  else
    usec ← total_microseconds 1 1000000000 d;
    if usec =? 0 then Ret 1
    else if max_duration <? usec then Ret max_duration
    else Ret usec.

Definition wait_duration_msec (now : Z) (max_duration : Z) (q : timer_queue) : outcome Z :=
  match heap_ q with
  | [] => Ret max_duration
  | e :: _ =>
      d ← subtract (time_ e) now;
      to_msec (to_wait_duration d) max_duration
  end.

Definition wait_duration_usec (now : Z) (max_duration : Z) (q : timer_queue) : outcome Z :=
  match heap_ q with
  | [] => Ret max_duration
  | e :: _ =>
      d ← subtract (time_ e) now;
      to_usec (to_wait_duration d) max_duration
  end.

(** * Dequeuing *)

(** All the operations of a timer, with no error. *)
Definition take_all (p : timer_ptr) (q : timer_queue) : outcome (completions * timer_queue) :=
  d ← load q p;
  q ← update (set_queue []) p q;
  Ret ((fun op => (op, ec_success)) <$> op_queue_ d, q).

Fixpoint get_ready_loop (fuel : nat) (now : Z) (ops : completions) (q : timer_queue) :
    outcome (completions * timer_queue) :=
  match heap_ q, fuel with
  | [], _ => Ret (ops, q)
  | _ :: _, O => Undef
  | e :: _, S fuel =>
      if negb (less_than now (time_ e)) then
        '(new, q) ← take_all (timer_ e) q;
        q ← remove_timer (timer_ e) q;
        get_ready_loop fuel now (ops ++ new) q
      else Ret (ops, q)
  end.

Definition get_ready_timers (now : Z) (ops : completions) (q : timer_queue) :
    outcome (completions * timer_queue) :=
  get_ready_loop (length (heap_ q)) now ops q.

(** The timers of the list, with their operations' errors as they are ([ecs]);
    [n] bounds the list. *)
Fixpoint get_all_loop (n : nat) (ecs : wait_op -> error_code) (ops : completions)
    (q : timer_queue) : outcome (completions * timer_queue) :=
  match timers_ q with
  | None => Ret (ops, q)
  | Some p =>
      match n with
      | O => Undef
      | S n =>
          d ← load q p;
          let q := set_timers (next_ d) q in
          q ← update (set_queue []) p q;
          q ← update (set_next None) p q;
          q ← update (set_prev None) p q;
          get_all_loop n ecs (ops ++ ((fun op => (op, ecs op)) <$> op_queue_ d)) q
      end
  end.

Definition get_all_timers (ecs : wait_op -> error_code) (ops : completions) (q : timer_queue) :
    outcome (completions * timer_queue) :=
  '(ops, q) ← get_all_loop (size (memory_ q)) ecs ops q;
  Ret (ops, set_heap [] q).

(** * Cancelling *)

(** The first [max_cancelled] operations, or all. *)
Definition cancelled_part {A} (max_cancelled : Z) (ops : list A) : list A :=
  take (Z.to_nat max_cancelled) ops.

Definition cancel_timer (p : timer_ptr) (ops : completions) (max_cancelled : Z) (q : timer_queue) :
    outcome (Z * completions * timer_queue) :=
  d ← load q p;
  if is_active p d q then
    let gone := cancelled_part max_cancelled (op_queue_ d) in
    let left := drop (length gone) (op_queue_ d) in
    q ← update (set_queue left) p q;
    q ← (if bool_decide (left = []) then remove_timer p q else Ret q);
    Ret (zlen gone, ops ++ ((fun op => (op, operation_aborted)) <$> gone), q)
  else Ret (0, ops, q).

Definition cancel_timer_by_key (p : timer_ptr) (ops : completions) (key : positive)
    (q : timer_queue) : outcome (completions * timer_queue) :=
  d ← load q p;
  if is_active p d q then
    let gone := filter (fun op => cancellation_key_ op = key) (op_queue_ d) in
    let other_ops := filter (fun op => cancellation_key_ op <> key) (op_queue_ d) in
    q ← update (set_queue other_ops) p q;
    q ← (if bool_decide (other_ops = []) then remove_timer p q else Ret q);
    Ret (ops ++ ((fun op => (op, operation_aborted)) <$> gone), q)
  else Ret (ops, q).

(** [move_timer(target, source)]. *)
Definition move_timer (target source : timer_ptr) (q : timer_queue) : outcome timer_queue :=
  s ← load q source;
  t ← load q target;
  q ← update (set_queue (op_queue_ t ++ op_queue_ s)) target q;
  q ← update (set_queue []) source q;
  q ← update (set_index (heap_index_ s)) target q;
  q ← update (set_index npos) source q;
  q ←
    (if heap_index_ s <? zlen (heap_ q) then
       e ← entry q (Z.to_nat (heap_index_ s));
       Ret (set_heap (<[Z.to_nat (heap_index_ s) := mkEntry (time_ e) target]> (heap_ q)) q)
     else Ret q);
  let q := if decide (timers_ q = Some source) then set_timers (Some target) q else q in
  q ← update_opt (set_next (Some target)) (prev_ s) q;
  q ← update_opt (set_prev (Some target)) (next_ s) q;
  s ← load q source;
  q ← update (set_next (next_ s)) target q;
  q ← update (set_prev (prev_ s)) target q;
  q ← update (set_next None) source q;
  update (set_prev None) source q.
