(* ===== verification/TimerQueueSpec.v ===== *)
(** The timer queue keeps its timers: its operations refine those of a map from
    the active timers to their times and waiting operations ([represents]), they
    never dereference a dangling pointer or index out of the heap, and the timers
    that are due are found. *)

From S2P Require Import Prelude.
From S2P Require Import AsioError.
From S2P Require Import ChronoTimeTraits.
From S2P Require Import TimerQueue.

Lemma Ret_bind {A B} (a : A) (f : A -> outcome B) : Ret a ≫= f = f a.
Proof. done. Qed.

(** * Heaps *)

Definition parent (i : nat) : nat := ((i - 1) / 2)%nat.

Lemma parent_spec i : (0 < i)%nat -> (i = 2 * parent i + 1 \/ i = 2 * parent i + 2)%nat.
Proof.
  intros Hi. unfold parent. pose proof (Nat.div_mod_eq (i - 1) 2).
  pose proof (Nat.mod_upper_bound (i - 1) 2). lia.
Qed.

Lemma parent_left i : parent (i * 2 + 1) = i.
Proof. pose proof (parent_spec (i * 2 + 1) ltac:(lia)). lia. Qed.

Lemma parent_right i : parent (i * 2 + 2) = i.
Proof. pose proof (parent_spec (i * 2 + 2) ltac:(lia)). lia. Qed.

(** The time at an index. *)
Definition tm (h : list heap_entry) (i : nat) : Z := default 0 (time_ <$> h !! i).

Lemma tm_lookup h i e : h !! i = Some e -> tm h i = time_ e.
Proof. unfold tm. by intros ->. Qed.

(** No timer is earlier than its parent. *)
Definition heap_ordered (h : list heap_entry) : Prop :=
  forall j, (0 < j < length h)%nat -> tm h (parent j) <= tm h j.

(** The same but at one index, which may be too early for its parent, or too
    late for its children. *)
Definition ordered_above (h : list heap_entry) (i : nat) : Prop :=
  (forall j, (0 < j < length h)%nat -> j <> i -> tm h (parent j) <= tm h j) /\
  (forall j, (0 < j < length h)%nat -> parent j = i -> (0 < i)%nat -> tm h (parent i) <= tm h j).

Definition ordered_below (h : list heap_entry) (i : nat) : Prop :=
  (forall j, (0 < j < length h)%nat -> parent j <> i -> tm h (parent j) <= tm h j) /\
  (forall j, (0 < j < length h)%nat -> parent j = i -> (0 < i)%nat -> tm h (parent i) <= tm h j).

Lemma heap_ordered_min h i : heap_ordered h -> (i < length h)%nat -> tm h 0 <= tm h i.
Proof.
  intros Hh. induction i as [i IH] using lt_wf_ind. intros Hi.
  destruct (decide (i = 0%nat)) as [->|]; [lia|].
  pose proof (parent_spec i ltac:(lia)). specialize (IH (parent i) ltac:(lia) ltac:(lia)).
  specialize (Hh i ltac:(lia)). lia.
Qed.

Definition swap (h : list heap_entry) (i j : nat) (ei ej : heap_entry) : list heap_entry :=
  <[j := ei]> (<[i := ej]> h).

Lemma length_swap h i j ei ej : length (swap h i j ei ej) = length h.
Proof. unfold swap. by rewrite !length_insert. Qed.

Lemma lookup_swap h i j ei ej k :
  h !! i = Some ei -> h !! j = Some ej ->
  swap h i j ei ej !! k =
    if decide (k = j) then Some ei else if decide (k = i) then Some ej else h !! k.
Proof.
  intros Hi Hj. apply lookup_lt_Some in Hi as Li, Hj as Lj. unfold swap.
  destruct (decide (k = j)) as [->|].
  { rewrite list_lookup_insert_eq; [done|]. by rewrite length_insert. }
  rewrite list_lookup_insert_ne by done.
  destruct (decide (k = i)) as [->|]; [by rewrite list_lookup_insert_eq|].
  by rewrite list_lookup_insert_ne.
Qed.

Lemma tm_swap h i j ei ej k :
  h !! i = Some ei -> h !! j = Some ej ->
  tm (swap h i j ei ej) k =
    if decide (k = j) then tm h i else if decide (k = i) then tm h j else tm h k.
Proof.
  intros Hi Hj. unfold tm. rewrite lookup_swap by done.
  destruct (decide (k = j)); [by rewrite Hi|]. destruct (decide (k = i)); [by rewrite Hj|done].
Qed.

Lemma swap_permutation h i j ei ej :
  h !! i = Some ei -> h !! j = Some ej -> swap h i j ei ej ≡ₚ h.
Proof.
  intros Hi Hj. unfold swap. destruct (decide (i = j)) as [->|Hne].
  { simplify_eq. rewrite !list_insert_id; [done|done|].
    rewrite list_insert_id; done. }
  rewrite <- (list_insert_id h i ei Hi) at 2.
  apply Permutation_inj. split; [by rewrite !length_insert|].
  exists (fun k => if decide (k = j) then i else if decide (k = i) then j else k).
  apply lookup_lt_Some in Hi as Li, Hj as Lj.
  split.
  - intros x y. repeat case_decide; congruence.
  - intros k. repeat case_decide; subst.
    + rewrite list_lookup_insert_eq by (by rewrite length_insert).
      by rewrite list_lookup_insert_eq.
    + rewrite list_lookup_insert_ne, list_lookup_insert_eq by done.
      by rewrite list_lookup_insert_ne.
    + by rewrite !list_lookup_insert_ne.
Qed.

Lemma up_step h i ei ep :
  (0 < i)%nat -> h !! i = Some ei -> h !! parent i = Some ep -> time_ ei < time_ ep ->
  ordered_above h i -> ordered_above (swap h i (parent i) ei ep) (parent i).
Proof.
  intros Hi Ei Ep Hlt [H1 H2]. pose proof (parent_spec i Hi) as Pi.
  pose proof (tm_lookup _ _ _ Ei). pose proof (tm_lookup _ _ _ Ep).
  split; rewrite length_swap; intros j Hj.
  - intros Hne. pose proof (parent_spec j ltac:(lia)).
    rewrite !(tm_swap h i (parent i) ei ep) by done.
    destruct (decide (j = i)) as [->|].
    { repeat case_decide; lia. }
    rewrite (decide_False (P := j = parent i)) by done.
    destruct (decide (parent j = parent i)).
    { specialize (H1 j Hj ltac:(done)). rewrite e in H1. lia. }
    destruct (decide (parent j = i)).
    { specialize (H2 j Hj e Hi). lia. }
    by apply H1.
  - intros Hpj Hp. pose proof (parent_spec j ltac:(lia)). pose proof (parent_spec (parent i) Hp).
    apply lookup_lt_Some in Ep as Lp, Ei as Li.
    pose proof (H1 (parent i) ltac:(lia) ltac:(lia)).
    rewrite !(tm_swap h i (parent i) ei ep) by done.
    rewrite !(decide_False (P := parent (parent i) = _)) by lia.
    destruct (decide (j = parent i)); [lia|].
    destruct (decide (j = i)); [lia|].
    specialize (H1 j Hj ltac:(done)). rewrite Hpj in H1. lia.
Qed.

Lemma up_end h i :
  (i = 0%nat \/ tm h (parent i) <= tm h i) -> ordered_above h i -> heap_ordered h.
Proof.
  intros Hi [H1 _] j Hj. destruct (decide (j = i)) as [->|]; [|by apply H1].
  destruct Hi; [lia|done].
Qed.

Lemma down_step h i m ei em :
  parent m = i -> (0 < m < length h)%nat -> h !! i = Some ei -> h !! m = Some em ->
  time_ em <= time_ ei ->
  (forall j, (0 < j < length h)%nat -> parent j = i -> tm h m <= tm h j) ->
  ordered_below h i -> ordered_below (swap h i m ei em) m.
Proof.
  intros Pm Hm Ei Em Hle Hmin [H1 H2]. pose proof (parent_spec m ltac:(lia)) as Sm.
  pose proof (tm_lookup _ _ _ Ei). pose proof (tm_lookup _ _ _ Em).
  split; rewrite length_swap; intros j Hj.
  - intros Hne. pose proof (parent_spec j ltac:(lia)).
    rewrite !(tm_swap h i m ei em) by done. rewrite (decide_False (P := parent j = m)) by done.
    destruct (decide (parent j = i)).
    + destruct (decide (j = m)); [lia|]. rewrite (decide_False (P := j = i)) by lia.
      by apply Hmin.
    + rewrite (decide_False (P := j = m)) by congruence.
      destruct (decide (j = i)) as [->|].
      * apply H2; lia.
      * apply H1; done.
  - intros Hpj _. pose proof (parent_spec j ltac:(lia)).
    rewrite !(tm_swap h i m ei em) by done. rewrite Pm.
    rewrite (decide_False (P := i = m)) by lia. rewrite (decide_True (P := i = i)) by done.
    rewrite (decide_False (P := j = m)), (decide_False (P := j = i)) by lia.
    specialize (H1 j Hj ltac:(lia)). rewrite Hpj in H1. done.
Qed.

Lemma down_end h i :
  (forall j, (0 < j < length h)%nat -> parent j = i -> tm h i <= tm h j) ->
  ordered_below h i -> heap_ordered h.
Proof.
  intros Hi [H1 _] j Hj. destruct (decide (parent j = i)) as [<-|]; [by apply Hi|by apply H1].
Qed.

(** * Pointers into the heap *)

(** Every timer of the heap knows its place. *)
Definition indexed (q : timer_queue) : Prop :=
  forall i e, heap_ q !! i = Some e ->
    exists d, memory_ q !! timer_ e = Some d /\ heap_index_ d = Z.of_nat i.

(** Everything about a timer but its place in the heap. *)
Definition links (d : per_timer_data) := (op_queue_ d, next_ d, prev_ d).

(** [q'] differs from [q] in the order of the heap only. *)
Record reordered (q q' : timer_queue) : Prop := {
  re_timers : timers_ q' = timers_ q;
  re_heap : heap_ q' ≡ₚ heap_ q;
  re_links : (links <$> memory_ q') = (links <$> memory_ q);
  re_other p : p ∉ (timer_ <$> heap_ q) -> memory_ q' !! p = memory_ q !! p
}.

#[global] Instance reordered_preorder : PreOrder reordered.
Proof.
  split.
  - intros q. by split.
  - intros q1 q2 q3 [T1 H1 L1 O1] [T2 H2 L2 O2]. split; [congruence|by etrans|congruence|].
    intros p Hp. rewrite O2, O1; [done|done|]. by rewrite H1.
Qed.

Lemma length_reordered q q' : reordered q q' -> length (heap_ q') = length (heap_ q).
Proof. intros Hr. apply Permutation_length, Hr. Qed.

Lemma indexed_nodup q : indexed q -> NoDup (timer_ <$> heap_ q).
Proof.
  intros Hi. apply NoDup_alt. intros i j p Hpi Hpj.
  apply list_lookup_fmap_Some in Hpi as (e & -> & He).
  apply list_lookup_fmap_Some in Hpj as (e' & Hee & He').
  destruct (Hi _ _ He) as (d & Hd & Hdi). destruct (Hi _ _ He') as (d' & Hd' & Hdi').
  rewrite <- Hee in Hd'. simplify_eq. lia.
Qed.

Lemma update_here f p q d :
  memory_ q !! p = Some d ->
  update f p q = Ret (mkTimers (timers_ q) (heap_ q) (<[p := f d]> (memory_ q))).
Proof. unfold update, load. by intros ->. Qed.

Lemma entry_here q i e : heap_ q !! i = Some e -> entry q i = Ret e.
Proof. unfold entry. by intros ->. Qed.

Lemma load_here q p d : memory_ q !! p = Some d -> load q p = Ret d.
Proof. unfold load. by intros ->. Qed.

Lemma links_set_index (m : gmap timer_ptr per_timer_data) p d i :
  m !! p = Some d -> links <$> <[p := set_index i d]> m = links <$> m.
Proof.
  intros Hd. apply map_eq. intros k. rewrite !lookup_fmap.
  destruct (decide (k = p)) as [->|]; [by rewrite lookup_insert_eq, Hd|].
  by rewrite lookup_insert_ne.
Qed.

(** No timer has two entries. *)
Lemma indexed_inj q i j ei ej :
  indexed q -> heap_ q !! i = Some ei -> heap_ q !! j = Some ej -> timer_ ei = timer_ ej -> i = j.
Proof.
  intros Hi Ei Ej E. destruct (Hi _ _ Ei) as (di & Hdi & Idi). destruct (Hi _ _ Ej) as (dj & Hdj & Idj).
  rewrite E in Hdi. simplify_eq. lia.
Qed.

(** What [swap_heap] leaves in the memory. *)
Lemma swap_heap_memory i j q ei ej :
  indexed q -> heap_ q !! i = Some ei -> heap_ q !! j = Some ej ->
  exists q',
    swap_heap i j q = Ret q' /\ heap_ q' = swap (heap_ q) i j ei ej /\ timers_ q' = timers_ q /\
    forall k, memory_ q' !! k =
      if decide (k = timer_ ei) then set_index (Z.of_nat j) <$> memory_ q !! k
      else if decide (k = timer_ ej) then set_index (Z.of_nat i) <$> memory_ q !! k
      else memory_ q !! k.
Proof.
  intros Hi Ei Ej. unfold swap_heap. rewrite (entry_here _ _ _ Ei), (entry_here _ _ _ Ej). simpl.
  pose proof (fun k => lookup_swap (heap_ q) i j ei ej k Ei Ej) as Hh. set (h := swap (heap_ q) i j ei ej) in *.
  destruct (Hi _ _ Ei) as (di & Hdi & _). destruct (Hi _ _ Ej) as (dj & Hdj & _).
  assert (h !! j = Some ei) as Hj by (by rewrite Hh, decide_True).
  destruct (decide (i = j)) as [->|Hij].
  - erewrite entry_here; [|exact Hj]. simpl. erewrite update_here; [|exact Hdi]. simpl.
    erewrite entry_here; [|exact Hj]. simpl.
    erewrite update_here; [|simpl; by rewrite lookup_insert_eq]. eexists. split; [done|].
    split; [done|]. split; [done|]. intros k. simpl. rewrite insert_insert_eq. destruct (decide (k = timer_ ei)) as [->|].
    + by rewrite lookup_insert_eq, Hdi.
    + rewrite lookup_insert_ne by done. destruct (decide _) as [->|]; [by simplify_eq|done].
  - assert (h !! i = Some ej) as Hi' by (by rewrite Hh, decide_False, decide_True).
    assert (timer_ ej <> timer_ ei) by (intros E; by eapply Hij, eq_sym, indexed_inj).
    erewrite entry_here; [|exact Hi']. simpl. erewrite update_here; [|exact Hdj]. simpl.
    erewrite entry_here; [|exact Hj]. simpl.
    erewrite update_here; [|simpl; by rewrite lookup_insert_ne]. eexists. split; [done|].
    split; [done|]. split; [done|]. intros k. simpl. destruct (decide (k = timer_ ei)) as [->|].
    + by rewrite lookup_insert_eq, Hdi.
    + rewrite lookup_insert_ne by done. destruct (decide (k = timer_ ej)) as [->|].
      * by rewrite lookup_insert_eq, Hdj.
      * by rewrite lookup_insert_ne.
Qed.

Lemma swap_heap_spec i j q ei ej :
  indexed q -> heap_ q !! i = Some ei -> heap_ q !! j = Some ej ->
  exists q',
    swap_heap i j q = Ret q' /\ heap_ q' = swap (heap_ q) i j ei ej /\
    indexed q' /\ reordered q q'.
Proof.
  intros Hi Ei Ej. destruct (swap_heap_memory i j q ei ej Hi Ei Ej) as (q' & E & Hh & Ht & Hm).
  exists q'. split; [done|]. split; [done|]. split.
  - intros k e Hk. rewrite Hh, lookup_swap in Hk by done. rewrite Hm.
    destruct (decide (k = j)) as [->|Hkj].
    { injection Hk as <-. destruct (Hi _ _ Ei) as (d & Hd & _).
      rewrite decide_True, Hd by done. by exists (set_index (Z.of_nat j) d). }
    destruct (decide (k = i)) as [->|Hki].
    { injection Hk as <-. destruct (Hi _ _ Ej) as (d & Hd & _).
      rewrite decide_False by (intros E'; by eapply Hkj, indexed_inj).
      rewrite decide_True, Hd by done. by exists (set_index (Z.of_nat i) d). }
    rewrite !decide_False; [by apply Hi|intros E'; by eapply Hkj, indexed_inj
      |intros E'; by eapply Hki, indexed_inj].
  - split; [..|intros p Hp]; rewrite ?Hh; [done|by apply swap_permutation| |].
    + apply map_eq. intros k. rewrite !lookup_fmap, Hm.
      repeat case_decide; by destruct (memory_ q !! k).
    + rewrite Hm, !decide_False; [done|..]; intros ->; apply Hp, list_elem_of_fmap;
        eexists; (split; [done|by eapply list_elem_of_lookup_2]).
Qed.

(** [q] became the queue [q'], whose heap is a heap. *)
Definition heapified (q q' : timer_queue) : Prop :=
  indexed q' /\ reordered q q' /\ heap_ordered (heap_ q').

Lemma heapified_trans q q1 q' : reordered q q1 -> heapified q1 q' -> heapified q q'.
Proof. intros Hr (Hi & Hr' & Ho). split; [done|]. split; [by etrans|done]. Qed.

Lemma up_heap_spec fuel i q :
  indexed q -> (i < length (heap_ q))%nat -> (i < fuel)%nat -> ordered_above (heap_ q) i ->
  exists q', up_heap fuel i q = Ret q' /\ heapified q q'.
Proof.
  revert i q. induction fuel as [|fuel IH]; intros i q Hi Hl Hf Ho; [lia|]. cbn [up_heap].
  destruct (Nat.ltb_spec 0 i) as [Hpos|Hpos].
  2: { exists q. split; [done|]. split; [done|]. split; [done|].
       apply (up_end _ i); [lia|done]. }
  pose proof (parent_spec i Hpos). fold (parent i).
  destruct (lookup_lt_is_Some_2 _ _ Hl) as [e He].
  destruct (lookup_lt_is_Some_2 (heap_ q) (parent i) ltac:(lia)) as [e' He'].
  rewrite (entry_here _ _ _ He), (entry_here _ _ _ He'). simpl.
  unfold less_than. destruct (Z.ltb_spec (time_ e) (time_ e')) as [Hlt|Hge]; simpl.
  2: { exists q. split; [done|]. split; [done|]. split; [done|].
       apply (up_end _ i); [|done]. right.
       by rewrite (tm_lookup _ _ _ He), (tm_lookup _ _ _ He'). }
  destruct (swap_heap_spec i (parent i) q e e' Hi He He') as (q1 & -> & Hh & Hi1 & Hr1). simpl.
  destruct (IH (parent i) q1 Hi1) as (q' & -> & Hq').
  - rewrite (length_reordered _ _ Hr1). lia.
  - lia.
  - rewrite Hh. by apply up_step.
  - exists q'. split; [done|]. by eapply heapified_trans.
Qed.

(** The child that [down_heap] compares with. *)
Lemma min_child_spec q i :
  (i * 2 + 1 < length (heap_ q))%nat ->
  exists left : bool,
    (if (i * 2 + 1 + 1 =? length (heap_ q))%nat then Ret true
     else
       e1 ← entry q (i * 2 + 1);
       e2 ← entry q (i * 2 + 1 + 1);
       Ret (less_than (time_ e1) (time_ e2))) = Ret left /\
    let m := if left then (i * 2 + 1)%nat else (i * 2 + 1 + 1)%nat in
    (0 < m < length (heap_ q))%nat /\ parent m = i /\
    forall j, (0 < j < length (heap_ q))%nat -> parent j = i -> tm (heap_ q) m <= tm (heap_ q) j.
Proof.
  intros Hl. pose proof (parent_left i) as Pl. pose proof (parent_right i) as Pr.
  destruct (Nat.eqb_spec (i * 2 + 1 + 1) (length (heap_ q))) as [E|E].
  - exists true. split; [done|]. split; [lia|]. split; [done|]. intros j Hj Hp.
    pose proof (parent_spec j ltac:(lia)). replace j with (i * 2 + 1)%nat by lia. lia.
  - destruct (lookup_lt_is_Some_2 _ _ Hl) as [e1 He1].
    destruct (lookup_lt_is_Some_2 (heap_ q) (i * 2 + 1 + 1) ltac:(lia)) as [e2 He2].
    rewrite (entry_here _ _ _ He1), (entry_here _ _ _ He2). simpl.
    exists (less_than (time_ e1) (time_ e2)). split; [done|]. unfold less_than.
    pose proof (tm_lookup _ _ _ He1). pose proof (tm_lookup _ _ _ He2).
    assert (forall j, (0 < j < length (heap_ q))%nat -> parent j = i ->
      j = (i * 2 + 1)%nat \/ j = (i * 2 + 1 + 1)%nat) as Hj.
    { intros j Hj Hp. pose proof (parent_spec j ltac:(lia)). lia. }
    destruct (Z.ltb_spec (time_ e1) (time_ e2)).
    + split; [lia|]. split; [done|]. intros j Hjl Hp. destruct (Hj j Hjl Hp) as [->| ->]; lia.
    + split; [lia|]. split; [by replace (i * 2 + 1 + 1)%nat with (i * 2 + 2)%nat by lia|].
      intros j Hjl Hp. destruct (Hj j Hjl Hp) as [->| ->]; lia.
Qed.

Lemma down_heap_spec fuel i q :
  indexed q -> (i < length (heap_ q))%nat -> (length (heap_ q) - i < fuel)%nat ->
  ordered_below (heap_ q) i ->
  exists q', down_heap fuel i q = Ret q' /\ heapified q q'.
Proof.
  revert i q. induction fuel as [|fuel IH]; intros i q Hi Hl Hf Ho; [lia|].
  cbn [down_heap]. cbv zeta.
  destruct (Nat.ltb_spec (i * 2 + 1) (length (heap_ q))) as [Hc|Hc].
  2: { exists q. split; [done|]. split; [done|]. split; [done|].
       apply (down_end _ i); [|done]. intros j Hj Hp. pose proof (parent_spec j ltac:(lia)). lia. }
  destruct (min_child_spec q i Hc) as (left & Heq & Hm). rewrite Heq. simpl mbind. cbv beta.
  set (m := if left then _ else _) in *. destruct Hm as (Hm & Pm & Hmin).
  destruct (lookup_lt_is_Some_2 _ _ Hl) as [e He].
  destruct (lookup_lt_is_Some_2 (heap_ q) m ltac:(lia)) as [e' He'].
  rewrite (entry_here _ _ _ He), (entry_here _ _ _ He'). simpl.
  unfold less_than. destruct (Z.ltb_spec (time_ e) (time_ e')) as [Hlt|Hge].
  { exists q. split; [done|]. split; [done|]. split; [done|].
    apply (down_end _ i); [|done]. intros j Hj Hp. specialize (Hmin j Hj Hp).
    rewrite (tm_lookup _ _ _ He') in Hmin. rewrite (tm_lookup _ _ _ He). lia. }
  destruct (swap_heap_spec i m q e e' Hi He He') as (q1 & -> & Hh & Hi1 & Hr1). simpl.
  pose proof (length_reordered _ _ Hr1) as Hl1. pose proof (parent_spec m ltac:(lia)).
  destruct (IH m q1 Hi1) as (q' & -> & Hq').
  - lia.
  - lia.
  - rewrite Hh. by apply down_step.
  - exists q'. split; [done|]. by eapply heapified_trans.
Qed.

(** * Removal from the heap *)

Lemma pop_last {A} (l : list A) x i :
  l !! i = Some x -> i = (length l - 1)%nat -> l = take (length l - 1) l ++ [x].
Proof.
  intros Hx ->. rewrite <- (take_drop (length l - 1) l) at 1. f_equal.
  rewrite (drop_S l x (length l - 1)) by done. f_equal. apply drop_ge.
  apply lookup_lt_Some in Hx. lia.
Qed.

Lemma tm_take h n k : (k < n)%nat -> tm (take n h) k = tm h k.
Proof. intros Hk. unfold tm. by rewrite lookup_take_lt. Qed.

Lemma filter_all {A} (P : A -> Prop) `{!forall x, Decision (P x)} l :
  Forall P l -> filter P l = l.
Proof. induction 1 as [|x l Hx Hl IH]; [done|]. by rewrite filter_cons_True, IH. Qed.

(** The entries of the other timers. *)
Definition others (p : timer_ptr) (h : list heap_entry) : list heap_entry :=
  filter (fun e => timer_ e <> p) h.

Lemma others_last p h l e :
  h ≡ₚ l ++ [e] -> NoDup (timer_ <$> h) -> timer_ e = p -> l ≡ₚ others p h.
Proof.
  intros Hp Hn He. unfold others. rewrite Hp, filter_app, filter_cons_False, filter_nil, app_nil_r
    by (simpl; congruence).
  rewrite Hp, fmap_app in Hn. apply NoDup_app in Hn as (_ & Hd & _).
  rewrite filter_all; [done|]. apply Forall_forall. intros e' He' E.
  apply (Hd (timer_ e')); [by apply list_elem_of_fmap_2|]. rewrite E. simpl. set_solver.
Qed.

Lemma others_none p h : p ∉ (timer_ <$> h) -> others p h = h.
Proof.
  intros Hp. apply filter_all. apply Forall_forall. intros e He E. apply Hp.
  rewrite <- E. by apply list_elem_of_fmap_2.
Qed.

(** [q'] is [q] without the entry of [p]. *)
Record unheaped (p : timer_ptr) (q q' : timer_queue) : Prop := {
  un_indexed : indexed q';
  un_ordered : heap_ordered (heap_ q');
  un_timers : timers_ q' = timers_ q;
  un_heap : heap_ q' ≡ₚ others p (heap_ q);
  un_links : (links <$> memory_ q') = (links <$> memory_ q);
  un_other k : k <> p -> k ∉ (timer_ <$> heap_ q) -> memory_ q' !! k = memory_ q !! k;
  un_npos d : memory_ q' !! p = Some d -> heap_index_ d = npos
}.

Lemma tm_swapped_out h i ei el k :
  h !! i = Some ei -> h !! (length h - 1)%nat = Some el -> (k < length h - 1)%nat ->
  tm (take (length h - 1) (swap h i (length h - 1) ei el)) k =
    if decide (k = i) then time_ el else tm h k.
Proof.
  intros Ei El Hk. rewrite tm_take by done. rewrite tm_swap by done.
  rewrite decide_False by lia. destruct (decide (k = i)); [|done]. by apply tm_lookup.
Qed.

(** The heap [h] with another time at [i], and cut off. *)
Section SwappedOut.
Context (h h' : list heap_entry) (i : nat) (x : Z).
Hypothesis Hlen : (length h' <= length h)%nat.
Hypothesis Hord : heap_ordered h.
Hypothesis Htm : forall k, (k < length h')%nat -> tm h' k = if decide (k = i) then x else tm h k.

Lemma grandchildren j :
  (0 < j < length h')%nat -> parent j = i -> (0 < i)%nat -> tm h' (parent i) <= tm h' j.
Proof.
  intros Hj Hp Hi. pose proof (parent_spec j ltac:(lia)). pose proof (parent_spec i Hi).
  rewrite !Htm by lia. rewrite !decide_False by lia.
  pose proof (Hord j ltac:(lia)) as H1. pose proof (Hord i ltac:(lia)). rewrite Hp in H1. lia.
Qed.

Lemma swapped_out_above :
  (0 < i < length h')%nat -> x < tm h (parent i) -> ordered_above h' i.
Proof.
  intros Hi Hx. split; [|apply grandchildren]. intros j Hj Hne.
  pose proof (parent_spec j ltac:(lia)). pose proof (parent_spec i ltac:(lia)).
  rewrite !Htm by lia. rewrite (decide_False (P := j = i)) by done.
  pose proof (Hord j ltac:(lia)) as H1. destruct (decide (parent j = i)) as [E|]; [|done].
  pose proof (Hord i ltac:(lia)). rewrite E in H1. lia.
Qed.

Lemma swapped_out_below :
  ((0 < i < length h')%nat -> tm h (parent i) <= x) -> ordered_below h' i.
Proof.
  intros Hx. split; [|apply grandchildren]. intros j Hj Hne.
  pose proof (parent_spec j ltac:(lia)).
  rewrite !Htm by lia. rewrite (decide_False (P := parent j = i)) by done.
  destruct (decide (j = i)) as [->|]; [apply Hx; lia|apply Hord; lia].
Qed.
End SwappedOut.

(** The entry of [p] popped off the back of the heap. *)
Definition popped (p : timer_ptr) (d : per_timer_data) (q : timer_queue) : timer_queue :=
  pop_back (mkTimers (timers_ q) (heap_ q) (<[p := set_index npos d]> (memory_ q))).

Lemma popped_spec q e d :
  indexed q -> heap_ q !! (length (heap_ q) - 1)%nat = Some e ->
  memory_ q !! timer_ e = Some d ->
  let q' := popped (timer_ e) d q in
  indexed q' /\ heap_ q' ≡ₚ others (timer_ e) (heap_ q) /\
  (timer_ e ∉ timer_ <$> heap_ q') /\ (links <$> memory_ q') = (links <$> memory_ q).
Proof.
  intros Hi He Hd q'. pose proof (indexed_nodup q Hi) as Hn.
  pose proof (pop_last _ _ _ He eq_refl) as Hsplit.
  assert (timer_ e ∉ timer_ <$> heap_ q') as Hout.
  { rewrite Hsplit, fmap_app in Hn. apply NoDup_app in Hn as (_ & Hd' & _).
    intros Hin. apply (Hd' _ Hin). simpl. set_solver +. }
  split; [|split; [|split]].
  - intros k e' Hk. pose proof Hk as Hk'. simpl in Hk. apply lookup_take_Some in Hk as [Hk _].
    destruct (Hi _ _ Hk) as (d' & Hd' & Hidx). exists d'. split; [|done]. simpl.
    rewrite lookup_insert_ne; [done|]. intros E. apply Hout. rewrite E.
    apply list_elem_of_fmap_2. by eapply list_elem_of_lookup_2.
  - apply (others_last _ _ _ e); [|done|done].
    change (heap_ q') with (take (length (heap_ q) - 1) (heap_ q)). by rewrite <- Hsplit.
  - done.
  - simpl. by apply links_set_index.
Qed.

Lemma others_perm p h h' : h ≡ₚ h' -> others p h ≡ₚ others p h'.
Proof. intros Hp. unfold others. by rewrite Hp. Qed.

Lemma prefix_ordered n h : heap_ordered h -> heap_ordered (take n h).
Proof.
  intros Hh j Hj. rewrite length_take in Hj. pose proof (parent_spec j ltac:(lia)).
  rewrite !tm_take by lia. apply Hh. lia.
Qed.

Lemma popped_unheaped p d e q q1 q' :
  reordered q q1 -> indexed q1 -> heap_ q1 !! (length (heap_ q1) - 1)%nat = Some e ->
  timer_ e = p -> memory_ q1 !! p = Some d -> heapified (popped p d q1) q' -> unheaped p q q'.
Proof.
  intros [Ht Hh Hl Ho] Hi He <- Hd (Hi' & [Ht' Hh' Hl' Ho'] & Hord).
  destruct (popped_spec q1 e d Hi He Hd) as (_ & Hheap & Hout & Hlinks).
  split.
  - done.
  - done.
  - by rewrite Ht'.
  - rewrite Hh', Hheap. by apply others_perm.
  - by rewrite Hl', Hlinks, Hl.
  - intros k Hk Hkh. rewrite Ho'; [simpl; rewrite lookup_insert_ne by done; by apply Ho|].
    rewrite Hheap. intros Hin. apply Hkh. rewrite <- Hh.
    apply list_elem_of_fmap in Hin as (e' & -> & Hin).
    apply list_elem_of_filter in Hin as [_ Hin]. by apply list_elem_of_fmap_2.
  - intros d' Hd'. rewrite Ho' in Hd' by done. simpl in Hd'.
    rewrite lookup_insert_eq in Hd'. by injection Hd' as <-.
Qed.

(** An entry that replaced another is moved up or down, and the heap is ordered. *)
Lemma restore_heap_spec q q2 i x :
  indexed q2 -> heap_ordered (heap_ q) ->
  (i < length (heap_ q2))%nat -> (length (heap_ q2) <= length (heap_ q))%nat ->
  (forall k, (k < length (heap_ q2))%nat ->
    tm (heap_ q2) k = if decide (k = i) then x else tm (heap_ q) k) ->
  exists q', restore_heap i q2 = Ret q' /\ heapified q2 q'.
Proof.
  intros Hi2 Ho Hlt Hle Htm. unfold restore_heap.
  assert (exists up : bool,
    (if (0 <? i)%nat then
       e ← entry q2 i;
       e' ← entry q2 ((i - 1) / 2)%nat;
       Ret (less_than (time_ e) (time_ e'))
     else Ret false) = Ret up /\
    if up then ordered_above (heap_ q2) i else ordered_below (heap_ q2) i)
    as (up & -> & Hup).
  { fold (parent i). destruct (Nat.ltb_spec 0 i) as [Hpos|Hpos].
    - pose proof (parent_spec i Hpos).
      destruct (lookup_lt_is_Some_2 (heap_ q2) i ltac:(lia)) as [f Hf].
      destruct (lookup_lt_is_Some_2 (heap_ q2) (parent i) ltac:(lia)) as [f' Hf'].
      rewrite (entry_here _ _ _ Hf), (entry_here _ _ _ Hf'), !Ret_bind.
      rewrite <- (tm_lookup _ _ _ Hf), <- (tm_lookup _ _ _ Hf'), !Htm by lia.
      rewrite decide_True, decide_False by (done || lia). unfold less_than.
      eexists. split; [done|]. destruct (Z.ltb_spec x (tm (heap_ q) (parent i))).
      + apply (swapped_out_above (heap_ q) (heap_ q2) i x); (done || lia).
      + apply (swapped_out_below (heap_ q) (heap_ q2) i x); (done || lia).
    - exists false. split; [done|].
      apply (swapped_out_below (heap_ q) (heap_ q2) i x); (done || lia). }
  rewrite Ret_bind. unfold heap_fuel.
  destruct up; [apply up_heap_spec|apply down_heap_spec]; (done || lia).
Qed.

Lemma remove_from_heap_in q i e :
  indexed q -> heap_ordered (heap_ q) -> heap_ q !! i = Some e ->
  exists q', remove_from_heap (timer_ e) q = Ret q' /\ unheaped (timer_ e) q q'.
Proof.
  intros Hi Ho He. set (p := timer_ e). destruct (Hi _ _ He) as (d & Hd & Hidx). fold p in Hd.
  pose proof (lookup_lt_Some _ _ _ He) as Hlt.
  unfold remove_from_heap. rewrite (load_here _ _ _ Hd). rewrite Ret_bind. cbv zeta.
  rewrite bool_decide_false by (intros E; rewrite E in Hlt; simpl in Hlt; lia).
  rewrite Hidx. unfold zlen. destruct (Z.ltb_spec (Z.of_nat i) (Z.of_nat (length (heap_ q)))); [|lia].
  simpl andb. cbv iota.
  destruct (Z.eqb_spec (Z.of_nat i) (Z.of_nat (length (heap_ q)) - 1)) as [E|E].
  { rewrite (update_here _ _ _ _ Hd). rewrite Ret_bind. eexists. split; [reflexivity|].
    replace i with (length (heap_ q) - 1)%nat in He by lia.
    apply (popped_unheaped p d e q q); [done|done|done|done|done|].
    destruct (popped_spec q e d Hi He Hd) as (Hi' & _).
    split; [done|]. split; [done|]. by apply prefix_ordered. }
  rewrite Nat2Z.id.
  destruct (lookup_lt_is_Some_2 (heap_ q) (length (heap_ q) - 1) ltac:(lia)) as [el Hel].
  destruct (swap_heap_spec i (length (heap_ q) - 1) q e el Hi He Hel)
    as (q1 & -> & Hh1 & Hi1 & Hr1). rewrite Ret_bind.
  pose proof (length_reordered _ _ Hr1) as Hl1.
  assert (heap_ q1 !! (length (heap_ q1) - 1)%nat = Some e) as He1.
  { rewrite Hl1, Hh1, lookup_swap by done. by rewrite decide_True. }
  destruct (Hi1 _ _ He1) as (d1 & Hd1 & _). fold p in Hd1.
  rewrite (update_here _ _ _ _ Hd1). rewrite Ret_bind. cbv zeta.
  change (pop_back _) with (popped p d1 q1).
  set (q2 := popped p d1 q1).
  destruct (popped_spec q1 e d1 Hi1 He1 Hd1) as (Hi2 & _). fold p q2 in Hi2.
  assert (length (heap_ q2) = length (heap_ q) - 1)%nat as Hl2.
  { simpl. rewrite length_take, Hl1. lia. }
  assert (forall k, (k < length (heap_ q2))%nat ->
    tm (heap_ q2) k = if decide (k = i) then time_ el else tm (heap_ q) k) as Htm.
  { intros k Hk. simpl. rewrite Hl1, Hh1. apply tm_swapped_out; [done|done|lia]. }
  destruct (restore_heap_spec q q2 i (time_ el) Hi2 Ho) as (q' & -> & Hq'); [lia|lia|done|].
  exists q'. split; [done|]. by apply (popped_unheaped p d1 e q q1).
Qed.

Lemma remove_from_heap_out q p d :
  indexed q -> heap_ordered (heap_ q) -> memory_ q !! p = Some d ->
  heap_index_ d = npos -> zlen (heap_ q) < npos -> p ∉ (timer_ <$> heap_ q) ->
  remove_from_heap p q = Ret q /\ unheaped p q q.
Proof.
  intros Hi Ho Hd Hidx Hlen Hp. split.
  - unfold remove_from_heap. rewrite (load_here _ _ _ Hd). simpl. rewrite Hidx.
    destruct (Z.ltb_spec npos (zlen (heap_ q))); [lia|]. by rewrite andb_false_r.
  - split; try done; [by rewrite others_none|]. intros d' Hd'. congruence.
Qed.

(** * The list of active timers *)

(** The timers of [l], each pointing to its neighbours, from [timers_] on; no
    other timer points anywhere, or has operations waiting. *)
Record linked (q : timer_queue) (l : list timer_ptr) : Prop := {
  lk_nodup : NoDup l;
  lk_head : timers_ q = head l;
  lk_in l1 p l2 : l = l1 ++ p :: l2 ->
    exists d, memory_ q !! p = Some d /\ next_ d = head l2 /\ prev_ d = last l1;
  lk_out p d : memory_ q !! p = Some d -> p ∉ l ->
    op_queue_ d = [] /\ next_ d = None /\ prev_ d = None
}.

Lemma links_lookup (m m' : gmap timer_ptr per_timer_data) p :
  (links <$> m') = (links <$> m) ->
  forall d, m !! p = Some d -> exists d', m' !! p = Some d' /\ links d' = links d.
Proof.
  intros E d Hd. apply (f_equal (.!! p)) in E. rewrite !lookup_fmap, Hd in E. simpl in E.
  destruct (m' !! p) as [d'|]; [|done]. simpl in E. injection E as E1 E2 E3.
  exists d'. split; [done|]. unfold links. congruence.
Qed.

Lemma linked_links q q' l :
  timers_ q' = timers_ q -> (links <$> memory_ q') = (links <$> memory_ q) ->
  linked q l -> linked q' l.
Proof.
  intros Ht Hl [Hn Hh Hin Hout]. split; [done|congruence| |].
  - intros l1 p l2 E. destruct (Hin _ _ _ E) as (d & Hd & Hx & Hp).
    destruct (links_lookup _ _ _ Hl _ Hd) as (d' & Hd' & E'). unfold links in E'.
    exists d'. split; [done|]. split; congruence.
  - intros p d Hd Hp. symmetry in Hl. destruct (links_lookup _ _ _ Hl _ Hd) as (d' & Hd' & E').
    unfold links in E'. destruct (Hout _ _ Hd' Hp) as (? & ? & ?). split_and!; congruence.
Qed.

Lemma linked_here q l p : linked q l -> p ∈ l -> exists d, memory_ q !! p = Some d.
Proof.
  intros Hl Hp. apply list_elem_of_split in Hp as (l1 & l2 & E).
  destruct (lk_in _ _ Hl _ _ _ E) as (d & Hd & _). eauto.
Qed.

Lemma linked_active q l p d :
  linked q l -> memory_ q !! p = Some d -> is_active p d q = true <-> p ∈ l.
Proof.
  intros Hl Hd. unfold is_active. rewrite orb_true_iff, !bool_decide_eq_true. split.
  - intros [Hp|Hp].
    + destruct (decide (p ∈ l)) as [|Hn]; [done|].
      destruct (lk_out _ _ Hl _ _ Hd Hn) as (_ & _ & E). done.
    + rewrite (lk_head _ _ Hl) in Hp. destruct l as [|x l]; [done|].
      injection Hp as ->. set_solver.
  - intros Hp. apply list_elem_of_split in Hp as (l1 & l2 & E).
    destruct (lk_in _ _ Hl _ _ _ E) as (d' & Hd' & _ & Hp). simplify_eq.
    destruct l1 as [|x l1]; [right; by rewrite (lk_head _ _ Hl)|left].
    rewrite Hp. by rewrite last_cons; destruct (last l1).
Qed.

(** Everything about a timer but its neighbours. *)
Definition payload (d : per_timer_data) := (op_queue_ d, heap_index_ d).

(** [q'] differs from [q] in its list only. *)
Definition relinked (q q' : timer_queue) : Prop :=
  heap_ q' = heap_ q /\ (payload <$> memory_ q') = (payload <$> memory_ q).

Lemma payload_insert (m : gmap timer_ptr per_timer_data) p d d' :
  m !! p = Some d -> payload d' = payload d -> (payload <$> <[p := d']> m) = (payload <$> m).
Proof.
  intros Hd E. rewrite fmap_insert. apply map_eq. intros k.
  destruct (decide (k = p)) as [->|]; [|by rewrite lookup_insert_ne].
  by rewrite lookup_insert_eq, lookup_fmap, Hd, E.
Qed.

(** An update of an optional neighbour, as the map it leaves. *)
Lemma update_opt_spec f o q :
  (forall p, o = Some p -> is_Some (memory_ q !! p)) -> (forall d, payload (f d) = payload d) ->
  exists q',
    update_opt f o q = Ret q' /\ timers_ q' = timers_ q /\ relinked q q' /\
    forall p, memory_ q' !! p = if decide (o = Some p) then f <$> memory_ q !! p else memory_ q !! p.
Proof.
  intros Hs Hf. destruct o as [p|]; simpl.
  - destruct (Hs p eq_refl) as [d Hd]. rewrite (update_here _ _ _ _ Hd). eexists.
    split; [done|]. split; [done|]. split; [split; [done|by eapply payload_insert]|].
    intros k; simpl. destruct (decide (Some p = Some k)) as [E|E].
    + injection E as <-. by rewrite lookup_insert_eq, Hd.
    + rewrite lookup_insert_ne; congruence.
  - exists q. split; [done|]. split; [done|]. split; [done|]. done.
Qed.

Lemma last_Some_elem {A} (l : list A) x : last l = Some x -> x ∈ l.
Proof. intros Hl. apply last_Some in Hl as [l' ->]. set_solver. Qed.

Lemma head_Some_elem {A} (l : list A) x : head l = Some x -> x ∈ l.
Proof. destruct l; simpl; [done|]. intros [= ->]. set_solver. Qed.

Lemma last_app_cons {A} (l k : list A) x : last (l ++ x :: k) = last (x :: k).
Proof. rewrite last_app. by rewrite last_cons; destruct (last k). Qed.

(** The memory once [p], whose data were [d], is taken off the list. *)
Definition unlinked_memory (p : timer_ptr) (d : per_timer_data)
    (m m' : gmap timer_ptr per_timer_data) : Prop :=
  forall k, m' !! k =
    if decide (k = p) then Some (set_prev None (set_next None d))
    else if decide (next_ d = Some k) then set_prev (prev_ d) <$> m !! k
    else if decide (prev_ d = Some k) then set_next (next_ d) <$> m !! k
    else m !! k.

(** The entries around an entry of a list. *)
Lemma linked_split q l1 p l2 d :
  linked q (l1 ++ p :: l2) -> memory_ q !! p = Some d ->
  next_ d = head l2 /\ prev_ d = last l1 /\ NoDup l1 /\ NoDup l2 /\ p ∉ l1 /\ p ∉ l2 /\ l1 ## l2.
Proof.
  intros Hl Hd. destruct (lk_in _ _ Hl _ _ _ eq_refl) as (d0 & Hd0 & Hnext & Hprev). simplify_eq.
  pose proof (lk_nodup _ _ Hl) as Hn. apply NoDup_app in Hn as (Hn1 & Hd12 & Hn2).
  apply NoDup_cons in Hn2 as [Hp2 Hn2].
  split_and!; try done; [intros Hp; apply (Hd12 p Hp); set_solver +|].
  intros x Hx Hx'. apply (Hd12 x Hx). set_solver +Hx'.
Qed.

Section Unlink.
Context (q q' : timer_queue) (p : timer_ptr) (d : per_timer_data) (l1 l2 : list timer_ptr).
Hypothesis Hl : linked q (l1 ++ p :: l2).
Hypothesis Hd : memory_ q !! p = Some d.
Hypothesis Hm : unlinked_memory p d (memory_ q) (memory_ q').

(** The links of the entries before and after the one that is taken off. *)
Lemma unlinked_before k1 x r :
  l1 = k1 ++ x :: r ->
  exists dx, memory_ q' !! x = Some dx /\ next_ dx = head (r ++ l2) /\ prev_ dx = last k1.
Proof.
  intros E. destruct (linked_split _ _ _ _ _ Hl Hd) as (Hnext & Hprev & Hn1 & _ & Hp1 & _ & H12).
  assert (x ∈ l1) as Hx by (subst l1; set_solver +).
  destruct (lk_in _ _ Hl k1 x (r ++ p :: l2)) as (dx & Hdx & Hnx & Hpx);
    [by rewrite E, <- app_assoc|].
  rewrite Hm, decide_False by (by intros ->).
  rewrite decide_False by (rewrite Hnext; intros Eh; apply head_Some_elem in Eh; by apply (H12 x)).
  rewrite Hdx, Hprev, E, last_app_cons. destruct r as [|z r].
  - simpl. rewrite decide_True by done. by exists (set_next (next_ d) dx).
  - rewrite decide_False; [by exists dx|]. rewrite last_cons_cons. intros El. apply last_Some_elem in El.
    rewrite E in Hn1. apply NoDup_app in Hn1 as (_ & _ & Hn1). by apply NoDup_cons in Hn1 as [Hn1 _].
Qed.

Lemma unlinked_after r x k2 :
  l2 = r ++ x :: k2 ->
  exists dx, memory_ q' !! x = Some dx /\ next_ dx = head k2 /\ prev_ dx = last (l1 ++ r).
Proof.
  intros E. destruct (linked_split _ _ _ _ _ Hl Hd) as (Hnext & Hprev & _ & Hn2 & _ & Hp2 & H12).
  assert (x ∈ l2) as Hx by (subst l2; set_solver +).
  destruct (lk_in _ _ Hl (l1 ++ p :: r) x k2) as (dx & Hdx & Hnx & Hpx);
    [by rewrite E, <- app_assoc|].
  rewrite Hm, decide_False by (by intros ->). rewrite Hnext, E. destruct r as [|z r].
  - simpl. rewrite decide_True, Hdx by done. exists (set_prev (prev_ d) dx). by rewrite app_nil_r.
  - rewrite E in Hn2. rewrite decide_False.
    2: { simpl. intros [= ->]. apply NoDup_cons in Hn2 as [Hn2 _]. set_solver. }
    rewrite decide_False by (rewrite Hprev; intros El; apply last_Some_elem in El; by apply (H12 x)).
    rewrite Hdx. exists dx. split; [done|]. split; [done|]. rewrite Hpx, !last_app_cons.
    by rewrite last_cons_cons.
Qed.

Lemma unlinked_linked : op_queue_ d = [] -> timers_ q' = head (l1 ++ l2) -> linked q' (l1 ++ l2).
Proof.
  intros Hops Ht. destruct (linked_split _ _ _ _ _ Hl Hd) as (Hnext & Hprev & Hn1 & Hn2 & _ & _ & H12).
  split; [by apply NoDup_app|done|..].
  - intros k1 x k2 E. apply app_eq_inv in E as [(r & E1 & E2)|(r & E1 & E2)].
    + destruct r as [|y r]; simpl in E2.
      * destruct (unlinked_after [] x k2 (eq_sym E2)) as (dx & Hx).
        rewrite E1, !app_nil_r in Hx. by exists dx.
      * injection E2 as <- ->. by apply unlinked_before.
    + rewrite E1. by apply unlinked_after.
  - intros k dk Hk Hout. rewrite Hm in Hk. destruct (decide (k = p)) as [->|Hkp].
    { by injection Hk as <-. }
    rewrite !decide_False in Hk.
    + apply (lk_out _ _ Hl _ _ Hk). set_solver.
    + rewrite Hprev. intros E. apply last_Some_elem in E. set_solver.
    + rewrite Hnext. intros E. apply head_Some_elem in E. set_solver.
Qed.
End Unlink.

Lemma relinked_trans q1 q2 q3 : relinked q1 q2 -> relinked q2 q3 -> relinked q1 q3.
Proof. intros [H1 P1] [H2 P2]. split; congruence. Qed.

Lemma update_relinked f p q d :
  memory_ q !! p = Some d -> payload (f d) = payload d ->
  exists q', update f p q = Ret q' /\ timers_ q' = timers_ q /\ relinked q q' /\
    memory_ q' = <[p := f d]> (memory_ q).
Proof.
  intros Hd Hf. rewrite (update_here _ _ _ _ Hd). eexists. split; [done|]. split; [done|].
  split; [|done]. split; [done|]. by eapply payload_insert.
Qed.

(** The head of the list, once the first entry may have been taken off. *)
Lemma unlink_head q l1 p l2 d :
  linked q (l1 ++ p :: l2) -> memory_ q !! p = Some d ->
  let q0 := if decide (timers_ q = Some p) then set_timers (next_ d) q else q in
  heap_ q0 = heap_ q /\ memory_ q0 = memory_ q /\ timers_ q0 = head (l1 ++ l2).
Proof.
  intros Hl Hd. destruct (linked_split _ _ _ _ _ Hl Hd) as (Hnext & _ & _ & _ & Hp1 & _).
  cbv zeta. rewrite (lk_head _ _ Hl). destruct l1 as [|x l1]; simpl.
  - by rewrite decide_True.
  - rewrite decide_False by (intros [= ->]; apply Hp1; set_solver +).
    split_and!; [done|done|by rewrite (lk_head _ _ Hl)].
Qed.

Lemma remove_from_list_spec q l1 p l2 d :
  linked q (l1 ++ p :: l2) -> memory_ q !! p = Some d -> op_queue_ d = [] ->
  exists q', remove_from_list p q = Ret q' /\ relinked q q' /\ linked q' (l1 ++ l2).
Proof.
  intros Hl Hd Hops. destruct (linked_split _ _ _ _ _ Hl Hd) as (Hnext & Hprev & _ & _ & Hp1 & Hp2 & H12).
  assert (forall k, prev_ d = Some k -> k ∈ l1) as Hpk
    by (intros k E; rewrite Hprev in E; by apply last_Some_elem).
  assert (forall k, next_ d = Some k -> k ∈ l2) as Hnk
    by (intros k E; rewrite Hnext in E; by apply head_Some_elem).
  assert (forall k, k ∈ l1 ++ l2 -> is_Some (memory_ q !! k)) as Hhere.
  { intros k Hk. destruct (linked_here q _ k Hl) as [dk Hdk]; [set_solver|eauto]. }
  unfold remove_from_list. rewrite (load_here _ _ _ Hd), Ret_bind.
  destruct (unlink_head _ _ _ _ _ Hl Hd) as (H0h & H0m & H0t). cbv zeta in *.
  set (q0 := if decide (timers_ q = Some p) then _ else q) in *. clearbody q0.
  destruct (update_opt_spec (set_next (next_ d)) (prev_ d) q0) as (q1 & -> & T1 & [R1h R1p] & M1);
    [intros k E; rewrite H0m; apply Hhere; set_solver|done|].
  rewrite Ret_bind.
  destruct (update_opt_spec (set_prev (prev_ d)) (next_ d) q1) as (q2 & -> & T2 & R2 & M2);
    [intros k E; rewrite M1, H0m; destruct (decide (prev_ d = Some k));
     rewrite ?fmap_is_Some; apply Hhere; set_solver|done|].
  rewrite Ret_bind.
  assert (memory_ q2 !! p = Some d) as Hp2'.
  { rewrite M2, decide_False by (by intros E%Hnk). rewrite M1, decide_False by (by intros E%Hpk).
    by rewrite H0m. }
  destruct (update_relinked (set_next None) p q2 d Hp2' eq_refl) as (q3 & -> & T3 & R3 & M3).
  rewrite Ret_bind.
  destruct (update_relinked (set_prev None) p q3 (set_next None d)) as (q4 & -> & T4 & R4 & M4);
    [by rewrite M3, lookup_insert_eq|done|].
  exists q4. split; [done|]. split.
  - eapply relinked_trans; [|exact R4]. eapply relinked_trans; [|exact R3].
    eapply relinked_trans; [|exact R2]. split; [congruence|by rewrite R1p, H0m].
  - eapply unlinked_linked; [exact Hl|exact Hd| |done|congruence].
    intros k. rewrite M4, M3, insert_insert_eq. destruct (decide (k = p)) as [->|Hkp].
    { by rewrite lookup_insert_eq. }
    rewrite lookup_insert_ne, M2, M1, H0m by done.
    destruct (decide (next_ d = Some k)) as [E%Hnk|E]; [|done].
    by rewrite decide_False by (intros E'%Hpk; by apply (H12 k)).
Qed.

(** * The queue as a map *)

(** The time of every timer of the heap. *)
Definition times (h : list heap_entry) : gmap timer_ptr Z :=
  list_to_map ((fun e => (timer_ e, time_ e)) <$> h).

Lemma times_nodup h :
  NoDup (timer_ <$> h) -> NoDup ((fun e => (timer_ e, time_ e)) <$> h).*1.
Proof. by rewrite <- list_fmap_compose. Qed.

Lemma times_perm h h' : NoDup (timer_ <$> h) -> h ≡ₚ h' -> times h = times h'.
Proof.
  intros Hn Hp. apply list_to_map_proper; [by apply times_nodup|]. by rewrite Hp.
Qed.

Lemma times_lookup h p x :
  NoDup (timer_ <$> h) -> times h !! p = Some x <-> mkEntry x p ∈ h.
Proof.
  intros Hn. unfold times. rewrite <- elem_of_list_to_map by (by apply times_nodup).
  rewrite list_elem_of_fmap. split.
  - intros ([x' p'] & E & He). simpl in E. by injection E as -> ->.
  - intros He. by exists (mkEntry x p).
Qed.

Lemma times_none h p : p ∉ (timer_ <$> h) -> times h !! p = None.
Proof.
  intros Hp. apply not_elem_of_list_to_map_1. by rewrite <- list_fmap_compose.
Qed.

Lemma others_nodup p h : NoDup (timer_ <$> h) -> NoDup (timer_ <$> others p h).
Proof.
  unfold others. induction h as [|e h IH]; simpl; [done|]. intros Hn.
  apply NoDup_cons in Hn as [He Hn]. rewrite filter_cons. case_decide; [|by apply IH].
  simpl. apply NoDup_cons. split; [|by apply IH]. intros Hin. apply He.
  apply list_elem_of_fmap in Hin as (e' & -> & Hin).
  apply list_elem_of_filter in Hin as [_ Hin]. by apply list_elem_of_fmap_2.
Qed.

Lemma times_others p h : NoDup (timer_ <$> h) -> times (others p h) = delete p (times h).
Proof.
  intros Hn. apply map_eq. intros k. apply option_eq. intros x.
  pose proof (others_nodup p h Hn) as Hn'.
  rewrite times_lookup, lookup_delete_Some, times_lookup by done. unfold others.
  rewrite list_elem_of_filter. simpl. split; intros [? ?]; split; congruence.
Qed.

(** The invariant of a queue whose active timers are [l]. *)
Record timer_queue_wf (q : timer_queue) (l : list timer_ptr) : Prop := {
  tw_indexed : indexed q;
  tw_ordered : heap_ordered (heap_ q);
  tw_size : zlen (heap_ q) < npos;
  tw_active e : e ∈ heap_ q -> timer_ e ∈ l;
  tw_npos p d : memory_ q !! p = Some d -> p ∉ timer_ <$> heap_ q -> heap_index_ d = npos;
  tw_linked : linked q l
}.

(** The abstract queue: the active timers with their times, if they ever expire,
    and their waiting operations. *)
Abbreviation timer_map := (gmap timer_ptr (option Z * list wait_op)).

Definition represents (q : timer_queue) (a : timer_map) : Prop :=
  exists l,
    timer_queue_wf q l /\ (forall p, p ∈ l <-> is_Some (a !! p)) /\
    forall p d t ops,
      memory_ q !! p = Some d -> a !! p = Some (t, ops) ->
      op_queue_ d = ops /\ times (heap_ q) !! p = t.

(** Timers the queue may be asked about. *)
Definition allocated (q : timer_queue) (p : timer_ptr) : Prop := is_Some (memory_ q !! p).

Lemma payload_lookup (m m' : gmap timer_ptr per_timer_data) p d' :
  (payload <$> m') = (payload <$> m) -> m' !! p = Some d' ->
  exists d, m !! p = Some d /\ op_queue_ d' = op_queue_ d /\ heap_index_ d' = heap_index_ d.
Proof.
  intros E Hd. apply (f_equal (.!! p)) in E. rewrite !lookup_fmap, Hd in E. simpl in E.
  destruct (m !! p) as [d|]; [|done]. injection E as E1 E2. eauto.
Qed.

Lemma fmap_same_is_Some {A} (f : per_timer_data -> A) (m m' : gmap timer_ptr per_timer_data) p :
  (f <$> m') = (f <$> m) -> is_Some (m' !! p) <-> is_Some (m !! p).
Proof.
  intros E. apply (f_equal (.!! p)) in E. rewrite !lookup_fmap in E.
  destruct (m' !! p), (m !! p); try done; by split; intros [? ?].
Qed.

(** [remove_timer] of a timer without operations. *)
Lemma remove_timer_spec q l1 p l2 d :
  timer_queue_wf q (l1 ++ p :: l2) -> memory_ q !! p = Some d -> op_queue_ d = [] ->
  exists q',
    remove_timer p q = Ret q' /\ timer_queue_wf q' (l1 ++ l2) /\
    heap_ q' ≡ₚ others p (heap_ q) /\
    (forall k, allocated q' k <-> allocated q k) /\
    (forall k d', memory_ q' !! k = Some d' ->
      exists d, memory_ q !! k = Some d /\ op_queue_ d' = op_queue_ d).
Proof.
  intros Hw Hd Hops. pose proof Hw as [Hi Ho Hs Ha Hnp Hl].
  assert (exists q1, remove_from_heap p q = Ret q1 /\ unheaped p q q1) as (q1 & E1 & U).
  { destruct (decide (p ∈ timer_ <$> heap_ q)) as [Hin|Hout].
    - apply list_elem_of_fmap in Hin as (e & -> & He).
      apply list_elem_of_lookup in He as [i He]. by eapply remove_from_heap_in.
    - exists q. apply (remove_from_heap_out q p d); try done. by apply (Hnp p). }
  destruct U as [Ui Uo Ut Uh Ul Uother Unpos].
  pose proof (linked_links _ _ _ Ut Ul Hl) as Hl1.
  destruct (links_lookup _ _ _ Ul _ Hd) as (d1 & Hd1 & El). unfold links in El.
  destruct (remove_from_list_spec q1 l1 p l2 d1 Hl1 Hd1 ltac:(congruence))
    as (q' & E2 & [Rh Rp] & Hl').
  exists q'. unfold remove_timer. rewrite E1, Ret_bind. split; [done|].
  assert (forall k d', memory_ q' !! k = Some d' ->
    exists d1, memory_ q1 !! k = Some d1 /\ op_queue_ d' = op_queue_ d1 /\
      heap_index_ d' = heap_index_ d1) as Hback by (intros; by eapply payload_lookup).
  split; [|split; [|split]].
  - split.
    + intros i e He. rewrite Rh in He. destruct (Ui _ _ He) as (de & Hde & Hidx).
      symmetry in Rp. destruct (payload_lookup _ _ _ _ Rp Hde) as (d' & Hd' & _ & E').
      exists d'. split; [done|congruence].
    + by rewrite Rh.
    + rewrite Rh. unfold zlen in *. rewrite Uh. unfold others.
      pose proof (length_filter (fun e => timer_ e <> p) (heap_ q)). lia.
    + intros e He. rewrite Rh, Uh in He. apply list_elem_of_filter in He as [Hne He].
      specialize (Ha e He). set_solver.
    + intros k d' Hd' Hk. destruct (Hback _ _ Hd') as (dk & Hdk & _ & ->).
      rewrite Rh, Uh in Hk. destruct (decide (k = p)) as [->|Hkp]; [by apply Unpos|].
      assert (k ∉ timer_ <$> heap_ q) as Hk'.
      { intros Hin. apply Hk. apply list_elem_of_fmap in Hin as (e & -> & He).
        apply list_elem_of_fmap_2. by apply list_elem_of_filter. }
      rewrite Uother in Hdk by done. by apply (Hnp k).
    + done.
  - by rewrite Rh.
  - intros k. unfold allocated. rewrite (fmap_same_is_Some _ _ _ k Rp).
    by apply (fmap_same_is_Some links).
  - intros k d' Hd'. destruct (Hback _ _ Hd') as (dk & Hdk & -> & _).
    symmetry in Ul. destruct (links_lookup _ _ _ Ul _ Hdk) as (dk' & Hdk' & E).
    exists dk'. split; [done|]. unfold links in E. congruence.
Qed.

(** ** Operations on one timer *)

Lemma represents_here q a p t ops :
  represents q a -> a !! p = Some (t, ops) ->
  exists d, memory_ q !! p = Some d /\ is_active p d q = true /\ op_queue_ d = ops.
Proof.
  intros (l & Hw & Hl & Ha) Hp. assert (p ∈ l) as Hpl by (apply Hl; eauto).
  destruct (linked_here _ _ _ (tw_linked _ _ Hw) Hpl) as [d Hd]. exists d. split; [done|].
  split; [by apply (linked_active _ _ _ _ (tw_linked _ _ Hw) Hd)|]. by apply (Ha p d t ops).
Qed.

Lemma represents_none q a p d :
  represents q a -> a !! p = None -> memory_ q !! p = Some d -> is_active p d q = false.
Proof.
  intros (l & Hw & Hl & _) Hp Hd. apply not_true_iff_false. intros Hact.
  apply (linked_active _ _ _ _ (tw_linked _ _ Hw) Hd) in Hact. apply Hl in Hact.
  rewrite Hp in Hact. by destruct Hact.
Qed.

Lemma set_queue_represents q a p t ops ops' :
  represents q a -> a !! p = Some (t, ops) ->
  exists q',
    update (set_queue ops') p q = Ret q' /\ represents q' (<[p := (t, ops')]> a) /\
    heap_ q' = heap_ q /\ (forall k, allocated q' k <-> allocated q k).
Proof.
  intros Hr Hp. destruct (represents_here _ _ _ _ _ Hr Hp) as (d & Hd & _ & Hops).
  destruct Hr as (l & Hw & Hl & Ha). rewrite (update_here _ _ _ _ Hd). eexists. split; [done|].
  pose proof Hw as [Hi Ho Hs Hact Hnp [Ln Lh Lin Lout]].
  assert (p ∈ l) as Hpl by (apply Hl; eauto).
  split; [|split; [done|]].
  - exists l. split; [split; simpl; try done|split].
    + intros i e Hie. destruct (Hi _ _ Hie) as (de & Hde & Hidx). simpl.
      destruct (decide (timer_ e = p)) as [E|].
      * exists (set_queue ops' d). rewrite E in *. rewrite lookup_insert_eq. split; [done|]. simpl. congruence.
      * exists de. by rewrite lookup_insert_ne.
    + intros k d' Hd' Hk. destruct (decide (k = p)) as [->|].
      * rewrite lookup_insert_eq in Hd'. injection Hd' as <-. simpl. by apply (Hnp p).
      * rewrite lookup_insert_ne in Hd' by done. by apply (Hnp k).
    + split; [done|done| |].
      * intros l1 k l2 E. destruct (Lin _ _ _ E) as (dk & Hdk & Hn & Hpv). simpl.
        destruct (decide (k = p)) as [->|].
        -- exists (set_queue ops' d). rewrite lookup_insert_eq. simpl. split; [done|]. split; congruence.
        -- exists dk. by rewrite lookup_insert_ne.
      * intros k dk Hdk Hk. simpl in Hdk. rewrite lookup_insert_ne in Hdk by (intros ->; done).
        by apply (Lout k).
    + intros k. destruct (decide (k = p)) as [->|];
        [rewrite lookup_insert_eq, Hl, Hp; naive_solver|by rewrite lookup_insert_ne].
    + intros k dk tk opsk Hdk Hk. simpl in *. destruct (decide (k = p)) as [->|].
      * rewrite lookup_insert_eq in Hdk. rewrite lookup_insert_eq in Hk. simplify_eq.
        split; [done|]. by eapply Ha.
      * rewrite lookup_insert_ne in Hdk by done. rewrite lookup_insert_ne in Hk by done.
        by eapply Ha.
  - intros k. unfold allocated. simpl. destruct (decide (k = p)) as [->|];
      [rewrite lookup_insert_eq, Hd; naive_solver|by rewrite lookup_insert_ne].
Qed.

Lemma remove_timer_represents q a p t :
  represents q a -> a !! p = Some (t, []) ->
  exists q',
    remove_timer p q = Ret q' /\ represents q' (delete p a) /\
    heap_ q' ≡ₚ others p (heap_ q) /\ (forall k, allocated q' k <-> allocated q k).
Proof.
  intros Hr Hp. destruct (represents_here _ _ _ _ _ Hr Hp) as (d & Hd & _ & Hops).
  destruct Hr as (l & Hw & Hl & Ha). assert (p ∈ l) as Hpl by (apply Hl; eauto).
  apply list_elem_of_split in Hpl as (l1 & l2 & ->).
  destruct (remove_timer_spec _ _ _ _ _ Hw Hd Hops) as (q' & E & Hw' & Hh & Hall & Hback).
  exists q'. split; [done|]. split; [|done].
  pose proof (indexed_nodup _ (tw_indexed _ _ Hw)) as Hn.
  pose proof (lk_nodup _ _ (tw_linked _ _ Hw)) as Hnd.
  exists (l1 ++ l2). split; [done|]. split.
  - intros k. destruct (decide (k = p)) as [->|Hk].
    + rewrite lookup_delete_eq. split; [|by intros [? ?]]. intros Hin.
      apply NoDup_app in Hnd as (_ & Hd12 & Hn2). apply NoDup_cons in Hn2 as [Hp2 _].
      apply elem_of_app in Hin as [Hin|Hin]; [|done].
      exfalso. apply (Hd12 p Hin). set_solver +.
    + rewrite lookup_delete_ne by done. rewrite <- Hl. set_solver.
  - intros k d' tk opsk Hd' Hk. apply lookup_delete_Some in Hk as [Hkp Hk].
    destruct (Hback _ _ Hd') as (dk & Hdk & ->).
    rewrite (times_perm (heap_ q') (others p (heap_ q))); [|by rewrite Hh; apply others_nodup|done].
    rewrite times_others by done. rewrite lookup_delete_ne by done. by eapply Ha.
Qed.

(** What is left of a timer whose waiting operations become [ops]. *)
Definition leave (p : timer_ptr) (t : option Z) (ops : list wait_op) (a : timer_map) : timer_map :=
  if decide (ops = []) then delete p a else <[p := (t, ops)]> a.

Lemma drop_ops_represents q a p t ops ops' :
  represents q a -> a !! p = Some (t, ops) ->
  exists q',
    (q1 ← update (set_queue ops') p q;
     if bool_decide (ops' = []) then remove_timer p q1 else Ret q1) = Ret q' /\
    represents q' (leave p t ops' a) /\ (forall k, allocated q' k <-> allocated q k).
Proof.
  intros Hr Hp. destruct (set_queue_represents _ _ _ _ _ ops' Hr Hp) as (q1 & -> & Hr1 & _ & Hall).
  rewrite Ret_bind. unfold leave. destruct (decide (ops' = [])) as [->|Hne].
  - rewrite bool_decide_true by done.
    destruct (remove_timer_represents _ _ p t Hr1 (lookup_insert_eq _ _ _)) as (q' & -> & Hr' & _ & Hall').
    exists q'. split; [done|]. rewrite delete_insert_eq in Hr'. split; [done|].
    intros k. by rewrite Hall'.
  - rewrite bool_decide_false by done. by exists q1.
Qed.
