(* ===== verification/TimerMoves.v ===== *)
(** [timer_queue::move_timer]: the queue forgets the source and knows the target in its
    place.  The list, the heap and the links between the timers are those of before,
    with the source renamed. *)

From S2P Require Import Prelude.
From S2P Require Import AsioError.
From S2P Require Import TimerQueue.
From S2P Require Import TimerQueueSpec.

Section Move.
Context (t s : timer_ptr).
Hypothesis Hts : t <> s.

(** A pointer to the source becomes one to the target. *)
Definition renamed (k : timer_ptr) : timer_ptr := if decide (k = s) then t else k.

Definition renamed_links (d : per_timer_data) : per_timer_data :=
  mkTimer (op_queue_ d) (heap_index_ d) (renamed <$> next_ d) (renamed <$> prev_ d).

Definition renamed_entry (e : heap_entry) : heap_entry := mkEntry (time_ e) (renamed (timer_ e)).

(** The queue once the source, whose data were [ds], is moved. *)
Record moved (ds : per_timer_data) (q q' : timer_queue) : Prop := {
  mv_timers : timers_ q' = renamed <$> timers_ q;
  mv_heap : heap_ q' = renamed_entry <$> heap_ q;
  mv_memory k : memory_ q' !! k =
    if decide (k = t) then Some ds
    else if decide (k = s) then Some new_timer
    else renamed_links <$> memory_ q !! k
}.

Lemma renamed_source : renamed s = t.
Proof. unfold renamed. by rewrite decide_True. Qed.

Lemma renamed_other k : k <> s -> renamed k = k.
Proof. intros Hk. unfold renamed. by rewrite decide_False. Qed.

Lemma renamed_inj x y : x <> t -> y <> t -> renamed x = renamed y -> x = y.
Proof. unfold renamed. intros Hx Hy. destruct (decide (x = s)), (decide (y = s)); congruence. Qed.

Lemma renamed_id (o : option timer_ptr) : o <> Some s -> renamed <$> o = o.
Proof. destruct o as [k|]; simpl; [|done]. intros Hk. rewrite renamed_other; congruence. Qed.

(** ** Links *)

(** The links of two timers agree. *)
Lemma linked_refs q l k d ds :
  linked q l -> memory_ q !! k = Some d -> memory_ q !! s = Some ds ->
  (next_ d = Some s <-> prev_ ds = Some k) /\ (prev_ d = Some s <-> next_ ds = Some k).
Proof.
  assert (forall x y dx dy, linked q l -> memory_ q !! x = Some dx -> memory_ q !! y = Some dy ->
    next_ dx = Some y <-> prev_ dy = Some x) as H.
  { intros x y dx dy Hl Hx Hy. split; intros E.
    - destruct (decide (x ∈ l)) as [Hin|Hout]; [|by destruct (lk_out _ _ Hl _ _ Hx Hout) as (_ & ? & _); congruence].
      apply list_elem_of_split in Hin as (l1 & l2 & ->).
      destruct (lk_in _ _ Hl l1 x l2 eq_refl) as (d' & Hd' & Hn & _). simplify_eq.
      rewrite E in Hn. destruct l2 as [|z l2]; [done|]. injection Hn as <-.
      destruct (lk_in _ _ Hl (l1 ++ [x]) y l2) as (d' & Hd' & _ & Hp); [by rewrite <- app_assoc|].
      simplify_eq. by rewrite Hp, last_snoc.
    - destruct (decide (y ∈ l)) as [Hin|Hout]; [|by destruct (lk_out _ _ Hl _ _ Hy Hout) as (_ & _ & ?); congruence].
      apply list_elem_of_split in Hin as (l1 & l2 & ->).
      destruct (lk_in _ _ Hl l1 y l2 eq_refl) as (d' & Hd' & _ & Hp). simplify_eq.
      rewrite Hp in E. apply last_Some in E as [l0 ->].
      destruct (lk_in _ _ Hl l0 x (y :: l2)) as (d' & Hd' & Hn & _); [by rewrite <- app_assoc|].
      by simplify_eq. }
  intros Hl Hk Hs. split; [by apply H|]. symmetry. by apply H.
Qed.

Lemma next_other q l p d : linked q l -> memory_ q !! p = Some d -> next_ d <> Some p /\ prev_ d <> Some p.
Proof.
  intros Hl Hd. destruct (decide (p ∈ l)) as [Hin|Hout].
  - apply list_elem_of_split in Hin as (l1 & l2 & ->).
    destruct (linked_split _ _ _ _ _ Hl Hd) as (-> & -> & _ & _ & Hp1 & Hp2 & _).
    split; intros E; [by apply Hp2, head_Some_elem|by apply Hp1, last_Some_elem].
  - by destruct (lk_out _ _ Hl _ _ Hd Hout) as (_ & -> & ->).
Qed.

Lemma refs_in q l p d k :
  linked q l -> memory_ q !! p = Some d -> next_ d = Some k \/ prev_ d = Some k -> k ∈ l.
Proof.
  intros Hl Hd E. destruct (decide (p ∈ l)) as [Hin|Hout].
  - apply list_elem_of_split in Hin as (l1 & l2 & ->).
    destruct (lk_in _ _ Hl l1 p l2 eq_refl) as (d' & Hd' & Hn & Hp). simplify_eq.
    rewrite Hn, Hp in E. destruct E as [E%head_Some_elem|E%last_Some_elem]; set_solver.
  - destruct (lk_out _ _ Hl _ _ Hd Hout) as (_ & Hn & Hp). rewrite Hn, Hp in E. naive_solver.
Qed.

(** The entry of the source, in the heap. *)
Lemma rename_heap q l ds :
  timer_queue_wf q l -> memory_ q !! s = Some ds ->
  if heap_index_ ds <? zlen (heap_ q) then
    exists e, heap_ q !! Z.to_nat (heap_index_ ds) = Some e /\
      <[Z.to_nat (heap_index_ ds) := mkEntry (time_ e) t]> (heap_ q) = renamed_entry <$> heap_ q
  else renamed_entry <$> heap_ q = heap_ q.
Proof.
  intros Hw Hs. pose proof (tw_indexed _ _ Hw) as Hi.
  destruct (decide (s ∈ timer_ <$> heap_ q)) as [Hin|Hout].
  - apply list_elem_of_fmap in Hin as (e & Es & He). apply list_elem_of_lookup in He as [i He].
    destruct (Hi _ _ He) as (d & Hd & Hidx). rewrite <- Es in Hd. simplify_eq. rewrite Hidx, Nat2Z.id.
    pose proof (lookup_lt_Some _ _ _ He) as Hlt. rewrite (proj2 (Z.ltb_lt _ _)) by (unfold zlen; lia).
    exists e. split; [done|]. apply list_eq. intros j. rewrite list_lookup_fmap.
    destruct (decide (j = i)) as [->|Hj].
    + rewrite list_lookup_insert_eq, He by done. simpl. unfold renamed_entry. by rewrite <- Es, renamed_source.
    + rewrite list_lookup_insert_ne by done. destruct (heap_ q !! j) as [e'|] eqn:He'; [|done].
      simpl. unfold renamed_entry. rewrite renamed_other; [by destruct e'|].
      intros E. apply Hj. eapply indexed_inj; [done..|congruence].
  - rewrite (tw_npos _ _ Hw _ _ Hs Hout). pose proof (tw_size _ _ Hw).
    rewrite (proj2 (Z.ltb_ge _ _)) by lia. rewrite <- (list_fmap_id (heap_ q)) at 2.
    apply list_fmap_ext. intros i [x k] He%list_elem_of_lookup_2. unfold renamed_entry. simpl.
    rewrite renamed_other; [done|]. intros ->. apply Hout. by apply (list_elem_of_fmap_2 timer_) in He.
Qed.

(** The last lines of [move_timer]: the neighbours of the source, and its links. *)
Definition move_links (ds : per_timer_data) (q : timer_queue) : outcome timer_queue :=
  q ← update_opt (set_next (Some t)) (prev_ ds) q;
  q ← update_opt (set_prev (Some t)) (next_ ds) q;
  s' ← load q s;
  q ← update (set_next (next_ s')) t q;
  q ← update (set_prev (prev_ s')) t q;
  q ← update (set_next None) s q;
  update (set_prev None) s q.

(** What the neighbours of the source are left with. *)
Lemma renamed_neighbour q l k d ds :
  linked q l -> memory_ q !! k = Some d -> memory_ q !! s = Some ds ->
  (let d := if decide (prev_ ds = Some k) then set_next (Some t) d else d in
   if decide (next_ ds = Some k) then set_prev (Some t) d else d) = renamed_links d.
Proof.
  intros Hl Hd Hds. destruct (linked_refs _ _ _ _ _ Hl Hd Hds) as [Hn Hp].
  assert (renamed <$> next_ d = if decide (prev_ ds = Some k) then Some t else next_ d) as En.
  { destruct (decide (prev_ ds = Some k)) as [E|E]; [rewrite (proj2 Hn E); simpl; by rewrite renamed_source|].
    apply renamed_id. by rewrite Hn. }
  assert (renamed <$> prev_ d = if decide (next_ ds = Some k) then Some t else prev_ d) as Ep.
  { destruct (decide (next_ ds = Some k)) as [E|E]; [rewrite (proj2 Hp E); simpl; by rewrite renamed_source|].
    apply renamed_id. by rewrite Hp. }
  unfold renamed_links. rewrite En, Ep. destruct d. by repeat case_decide.
Qed.

Lemma move_links_moved q l ds dt m :
  linked q l -> t ∉ l -> memory_ q !! s = Some ds ->
  m !! t = Some (mkTimer (op_queue_ ds) (heap_index_ ds) (next_ dt) (prev_ dt)) ->
  m !! s = Some (mkTimer [] npos (next_ ds) (prev_ ds)) ->
  (forall k, k <> t -> k <> s -> m !! k = memory_ q !! k) ->
  exists q',
    move_links ds (mkTimers (renamed <$> timers_ q) (renamed_entry <$> heap_ q) m) = Ret q' /\ moved ds q q'.
Proof.
  intros Hl Ht Hds Hmt Hms Hmk. set (q1 := mkTimers _ _ m).
  assert (forall k, next_ ds = Some k \/ prev_ ds = Some k -> k <> t /\ k <> s /\ is_Some (m !! k)) as Href.
  { intros k Hk. pose proof (refs_in _ _ _ _ _ Hl Hds Hk) as Hkl.
    assert (k <> t) as Hkt by (by intros ->). destruct (next_other _ _ _ _ Hl Hds).
    assert (k <> s) as Hks by (by intros ->; destruct Hk). split_and!; [done..|].
    rewrite Hmk by done. destruct (linked_here _ _ _ Hl Hkl) as [dk ->]. eauto. }
  unfold move_links.
  destruct (update_opt_spec (set_next (Some t)) (prev_ ds) q1) as (q2 & -> & T2 & [H2 _] & M2);
    [intros k E; by apply Href; right|done|].
  rewrite Ret_bind.
  destruct (update_opt_spec (set_prev (Some t)) (next_ ds) q2) as (q3 & -> & T3 & [H3 _] & M3);
    [intros k E; rewrite M2; case_decide; rewrite ?fmap_is_Some; by apply Href; left|done|].
  rewrite Ret_bind.
  assert (memory_ q3 !! s = m !! s /\ memory_ q3 !! t = m !! t) as [E3s E3t].
  { rewrite !M3, !M2. split; rewrite !decide_False; try done; intros E;
      [destruct (Href s)|destruct (Href s)|destruct (Href t)|destruct (Href t)]; naive_solver. }
  rewrite Hms in E3s. rewrite Hmt in E3t. rewrite (load_here _ _ _ E3s), Ret_bind.
  rewrite (update_here _ _ _ _ E3t), Ret_bind.
  erewrite update_here by (simpl; by rewrite lookup_insert_eq). rewrite Ret_bind.
  erewrite update_here by (simpl; by rewrite !lookup_insert_ne by done). rewrite Ret_bind.
  erewrite update_here by (simpl; by rewrite lookup_insert_eq). eexists. split; [done|].
  split; cbn [timers_ heap_ memory_]; [by rewrite T3, T2|by rewrite H3, H2|].
  intros k. destruct (decide (k = t)) as [->|Hkt].
  { rewrite !(lookup_insert_ne _ s t), lookup_insert_eq by done. by destruct ds. }
  destruct (decide (k = s)) as [->|Hks]; [by rewrite lookup_insert_eq|].
  rewrite !lookup_insert_ne by done. rewrite M3, M2. unfold q1. cbn [memory_]. rewrite Hmk by done.
  destruct (memory_ q !! k) as [d|] eqn:Hk; [|by repeat case_decide].
  simpl. rewrite <- (renamed_neighbour q l k d ds) by done. by repeat case_decide.
Qed.

(** What [move_timer] leaves. *)
Lemma move_timer_moved q l dt ds :
  timer_queue_wf q l -> t ∉ l -> memory_ q !! t = Some dt -> memory_ q !! s = Some ds ->
  exists q', move_timer t s q = Ret q' /\ moved ds q q'.
Proof.
  intros Hw Ht Hdt Hds. pose proof (tw_linked _ _ Hw) as Hl.
  destruct (lk_out _ _ Hl _ _ Hdt Ht) as (Hqt & _ & _).
  unfold move_timer. rewrite (load_here _ _ _ Hds), (load_here _ _ _ Hdt), !Ret_bind.
  rewrite Hqt, app_nil_l, (update_here _ _ _ _ Hdt), Ret_bind.
  erewrite update_here by (simpl; by rewrite lookup_insert_ne). rewrite Ret_bind.
  erewrite update_here by (simpl; by rewrite lookup_insert_ne, lookup_insert_eq by done). rewrite Ret_bind.
  erewrite update_here by (simpl; by rewrite lookup_insert_ne, lookup_insert_eq by done). rewrite Ret_bind.
  cbn [timers_ heap_ memory_]. set (m := <[s := _]> (<[t := _]> _)).
  pose proof (rename_heap _ _ _ Hw Hds) as Hh.
  match goal with |- exists q', ?x ≫= _ = _ /\ _ =>
    assert (x = Ret (mkTimers (timers_ q) (renamed_entry <$> heap_ q) m)) as -> end.
  { destruct (_ <? _).
    - destruct Hh as (e & He & <-). by erewrite entry_here by exact He.
    - by rewrite Hh. }
  rewrite Ret_bind. cbn [timers_].
  match goal with |- context [update_opt _ _ ?x] =>
    assert (x = mkTimers (renamed <$> timers_ q) (renamed_entry <$> heap_ q) m) as -> end.
  { case_decide as E; [by rewrite E; simpl; rewrite renamed_source|by rewrite renamed_id]. }
  apply (move_links_moved q l ds dt m); [done|done|done|unfold m..|].
  - by rewrite lookup_insert_ne, lookup_insert_eq by done.
  - by rewrite lookup_insert_eq.
  - intros k ??. unfold m. by rewrite !lookup_insert_ne.
Qed.

(** ** The queue afterwards *)

Section After.
Context (q q' : timer_queue) (l : list timer_ptr) (ds : per_timer_data).
Hypothesis Hw : timer_queue_wf q l.
Hypothesis Ht : t ∉ l.
Hypothesis Hds : memory_ q !! s = Some ds.
Hypothesis Hm : moved ds q q'.

(** The data of a timer, at its new place. *)
Lemma moved_lookup k d :
  memory_ q !! k = Some d -> k <> t ->
  memory_ q' !! renamed k = Some (if decide (k = s) then ds else renamed_links d).
Proof.
  intros Hk Hkt. rewrite (mv_memory _ _ _ Hm). destruct (decide (k = s)) as [->|Hks].
  - by rewrite renamed_source, decide_True.
  - by rewrite renamed_other, !decide_False, Hk by done.
Qed.

Lemma moved_indexed : indexed q'.
Proof.
  intros i e' He. rewrite (mv_heap _ _ _ Hm), list_lookup_fmap_Some in He.
  destruct He as (e & -> & He). destruct (tw_indexed _ _ Hw _ _ He) as (d & Hd & Hidx).
  assert (timer_ e <> t) as Het.
  { intros E. apply Ht. rewrite <- E. apply (tw_active _ _ Hw). by eapply list_elem_of_lookup_2. }
  simpl. rewrite (moved_lookup _ _ Hd Het). eexists. split; [done|].
  destruct (decide (timer_ e = s)) as [E|E]; [|done]. rewrite E in Hd. congruence.
Qed.

Lemma moved_linked : linked q' (renamed <$> l).
Proof.
  pose proof (tw_linked _ _ Hw) as Hl. destruct Hl as [Hn Hh Hin Hout]. split.
  - apply NoDup_fmap_2_strong; [|done]. intros x y Hx Hy. apply renamed_inj; by intros ->.
  - rewrite (mv_timers _ _ _ Hm), Hh. by destruct l.
  - intros l1' p' l2' E. apply fmap_app_inv in E as (l1 & l2 & -> & E & ->).
    symmetry in E. apply fmap_cons_inv in E as (p & l3 & -> & -> & ->).
    destruct (Hin l1 p l3 eq_refl) as (d & Hd & Hnext & Hprev).
    eexists. split; [apply moved_lookup; [exact Hd|intros ->; apply Ht; set_solver +]|].
    rewrite fmap_last. assert (head (renamed <$> l3) = renamed <$> head l3) as -> by (by destruct l3). destruct (decide (p = s)) as [->|Hps].
    + simplify_eq. rewrite Hnext, Hprev. destruct (next_other _ _ _ _ (tw_linked _ _ Hw) Hds) as [En Ep].
      rewrite Hnext in En. rewrite Hprev in Ep. by rewrite !renamed_id.
    + simpl. by rewrite Hnext, Hprev.
  - intros p d Hd Hp. rewrite (mv_memory _ _ _ Hm) in Hd.
    destruct (decide (p = t)) as [->|Hpt].
    { injection Hd as <-. apply (Hout s ds Hds). intros Hs. apply Hp. rewrite <- renamed_source.
      by apply list_elem_of_fmap_2. }
    destruct (decide (p = s)) as [->|Hps]; [by injection Hd as <-|].
    apply fmap_Some in Hd as (d0 & Hd0 & ->). destruct (Hout p d0 Hd0) as (Eq & En & Ep).
    { intros Hpl. apply Hp. rewrite <- (renamed_other p) by done. by apply list_elem_of_fmap_2. }
    simpl. by rewrite Eq, En, Ep.
Qed.

Lemma moved_wf : timer_queue_wf q' (renamed <$> l).
Proof.
  split; [exact moved_indexed|..|exact moved_linked].
  - intros j Hj. rewrite (mv_heap _ _ _ Hm) in *. rewrite length_fmap in Hj.
    assert (forall i, tm (renamed_entry <$> heap_ q) i = tm (heap_ q) i) as E
      by (intros i; unfold tm; rewrite list_lookup_fmap; by destruct (heap_ q !! i)).
    rewrite !E. by apply (tw_ordered _ _ Hw).
  - unfold zlen. rewrite (mv_heap _ _ _ Hm), length_fmap. apply (tw_size _ _ Hw).
  - intros e He. rewrite (mv_heap _ _ _ Hm) in He. apply list_elem_of_fmap in He as (e0 & -> & He).
    simpl. by apply list_elem_of_fmap_2, (tw_active _ _ Hw).
  - intros p d Hd Hp. rewrite (mv_heap _ _ _ Hm), <- list_fmap_compose in Hp.
    rewrite (mv_memory _ _ _ Hm) in Hd.
    assert (forall k, renamed k = p -> k ∉ timer_ <$> heap_ q) as Hk.
    { intros k <- Hk. apply list_elem_of_fmap in Hk as (e & -> & He). apply Hp.
      by apply (list_elem_of_fmap_2 (timer_ ∘ renamed_entry)). }
    destruct (decide (p = t)) as [->|Hpt].
    { injection Hd as <-. apply (tw_npos _ _ Hw s); [done|]. by apply Hk, renamed_source. }
    destruct (decide (p = s)) as [->|Hps]; [by injection Hd as <-|].
    apply fmap_Some in Hd as (d0 & Hd0 & ->). apply (tw_npos _ _ Hw p d0 Hd0). by apply Hk, renamed_other.
Qed.

(** The time of a timer, at its new place. *)
Lemma moved_times k : k <> t -> times (heap_ q') !! renamed k = times (heap_ q) !! k.
Proof.
  intros Hkt. apply option_eq. intros x.
  rewrite times_lookup by apply indexed_nodup, moved_indexed.
  rewrite times_lookup by apply indexed_nodup, (tw_indexed _ _ Hw).
  rewrite (mv_heap _ _ _ Hm). split; intros Hin.
  - apply list_elem_of_fmap in Hin as ([y j] & E & He). injection E as -> E.
    apply renamed_inj in E as ->; [done|done|]. intros ->. by apply Ht, (tw_active _ _ Hw _ He).
  - by apply (list_elem_of_fmap_2 renamed_entry) in Hin.
Qed.
End After.

(** The map of the timers, with the source renamed. *)
Definition moved_map (a : timer_map) : timer_map :=
  match a !! s with
  | Some v => <[t := v]> (delete s a)
  | None => a
  end.

Lemma moved_map_lookup a k : a !! t = None -> k <> t -> moved_map a !! renamed k = a !! k.
Proof.
  intros Ht Hkt. unfold moved_map, renamed. destruct (decide (k = s)) as [->|Hks].
  - destruct (a !! s) as [v|] eqn:Hs; [by rewrite lookup_insert_eq|done].
  - destruct (a !! s) as [v|] eqn:Hs; [|done]. by rewrite lookup_insert_ne, lookup_delete_ne.
Qed.

Lemma moved_map_source a : a !! t = None -> moved_map a !! s = None.
Proof.
  intros Ht. unfold moved_map. destruct (a !! s) as [v|] eqn:Hs; [|done].
  by rewrite lookup_insert_ne, lookup_delete_eq.
Qed.

(** [move_timer], to a timer on which nothing waits. *)
Lemma move_timer_spec q a :
  represents q a -> allocated q t -> allocated q s -> a !! t = None ->
  exists q',
    move_timer t s q = Ret q' /\ represents q' (moved_map a) /\ (forall k, allocated q' k <-> allocated q k).
Proof.
  intros (l & Hw & Hl & Ha) [dt Hdt] [ds Hds] Hat.
  assert (t ∉ l) as Ht by (intros Hin%Hl; rewrite Hat in Hin; by destruct Hin).
  destruct (move_timer_moved q l dt ds Hw Ht Hdt Hds) as (q' & E & Hm). exists q'. split; [done|]. split.
  - exists (renamed <$> l). split; [by eapply moved_wf|]. split.
    + intros p. split; intros Hp.
      * apply list_elem_of_fmap in Hp as (k & -> & Hk). rewrite moved_map_lookup; [by apply Hl|done|].
        by intros ->.
      * destruct (decide (p = s)) as [->|Hps]; [rewrite moved_map_source in Hp by done; by destruct Hp|].
        destruct (decide (p = t)) as [->|Hpt].
        -- rewrite <- renamed_source in Hp |- *. rewrite moved_map_lookup in Hp by done.
           by apply list_elem_of_fmap_2, Hl.
        -- rewrite <- (renamed_other p) in Hp |- * by done. rewrite moved_map_lookup in Hp by done.
           by apply list_elem_of_fmap_2, Hl.
    + intros p d x ops Hd Hp. assert (exists k, p = renamed k /\ k <> t) as (k & -> & Hkt).
      { destruct (decide (p = t)) as [->|]; [exists s; by rewrite renamed_source|].
        destruct (decide (p = s)) as [->|]; [by rewrite moved_map_source in Hp|].
        exists p. by rewrite renamed_other. }
      rewrite moved_map_lookup in Hp by done. rewrite (moved_times q q' l ds) by done.
      destruct (linked_here q l k (tw_linked _ _ Hw)) as [dk Hdk]; [apply Hl; eauto|].
      rewrite (moved_lookup q q' ds Hm k dk) in Hd by done. injection Hd as <-.
      destruct (Ha k dk x ops Hdk Hp) as [Hops Hx]. split; [|done].
      destruct (decide (k = s)) as [->|]; [congruence|done].
  - intros k. unfold allocated. rewrite (mv_memory _ _ _ Hm).
    destruct (decide (k = t)) as [->|]; [by rewrite Hdt|]. destruct (decide (k = s)) as [->|]; [by rewrite Hds|].
    by rewrite fmap_is_Some.
Qed.
End Move.
