(* ===== verification/TimerQueueRefines.v ===== *)
(** The operations of the timer queue refine those of its map
    ([TimerQueueSpec.represents]). *)

From S2P Require Import Prelude.
From S2P Require Import AsioError.
From S2P Require Import ChronoTimeTraits.
From S2P Require Import TimerQueue.
From S2P Require Import TimerQueueSpec.
From Stdlib Require Import Sorted.

(** * Enqueuing *)

(** [q'] is [q] with a timer, which expires at [t] if ever, in its heap. *)
Record heaped (p : timer_ptr) (t : option Z) (q q' : timer_queue) : Prop := {
  hp_indexed : indexed q';
  hp_ordered : heap_ordered (heap_ q');
  hp_timers : timers_ q' = timers_ q;
  hp_heap : heap_ q' ≡ₚ heap_ q ++ match t with Some x => [mkEntry x p] | None => [] end;
  hp_links : (links <$> memory_ q') = (links <$> memory_ q);
  hp_other k : k <> p -> k ∉ (timer_ <$> heap_ q) -> memory_ q' !! k = memory_ q !! k;
  hp_npos d : t = None -> memory_ q' !! p = Some d -> heap_index_ d = npos
}.

Lemma indexed_set_index q p d i :
  indexed q -> p ∉ (timer_ <$> heap_ q) -> memory_ q !! p = Some d ->
  indexed (mkTimers (timers_ q) (heap_ q) (<[p := set_index i d]> (memory_ q))).
Proof.
  intros Hi Hp Hd j e He. simpl in *. destruct (Hi _ _ He) as (de & Hde & Hidx).
  exists de. rewrite lookup_insert_ne; [done|]. intros ->. apply Hp. apply list_elem_of_fmap_2.
  by eapply list_elem_of_lookup_2.
Qed.

Lemma tm_app h e k : (k < length h)%nat -> tm (h ++ [e]) k = tm h k.
Proof. intros Hk. unfold tm. by rewrite lookup_app_l. Qed.

(** The first lines of [insert_timer]. *)
Definition push_heap (t : option Z) (p : timer_ptr) (q : timer_queue) : outcome timer_queue :=
  match t with
  | None => update (set_index npos) p q
  | Some time =>
      q ← update (set_index (zlen (heap_ q))) p q;
      let q := set_heap (heap_ q ++ [mkEntry time p]) q in
      up_heap (heap_fuel q) (length (heap_ q) - 1) q
  end.

Lemma push_heap_spec t p q d :
  indexed q -> heap_ordered (heap_ q) -> p ∉ (timer_ <$> heap_ q) -> memory_ q !! p = Some d ->
  exists q', push_heap t p q = Ret q' /\ heaped p t q q'.
Proof.
  intros Hi Ho Hp Hd. destruct t as [x|]; unfold push_heap; rewrite (update_here _ _ _ _ Hd).
  2: { eexists. split; [done|]. split; simpl; try done.
       - by apply indexed_set_index.
       - by rewrite app_nil_r.
       - by apply links_set_index.
       - intros k Hk _. by rewrite lookup_insert_ne.
       - intros d' _ Hd'. rewrite lookup_insert_eq in Hd'. by injection Hd' as <-. }
  rewrite Ret_bind. cbv zeta. unfold set_heap. cbn [heap_ timers_ memory_].
  set (q1 := mkTimers _ (_ ++ _) _).
  assert (indexed q1) as Hi1.
  { intros j e He. cbn [q1 heap_] in He. apply lookup_snoc_Some in He as [[Hj He]|[-> <-]].
    - apply (indexed_set_index q p d (zlen (heap_ q)) Hi Hp Hd j e He).
    - exists (set_index (zlen (heap_ q)) d). simpl. by rewrite lookup_insert_eq. }
  destruct (up_heap_spec (heap_fuel q1) (length (heap_ q1) - 1) q1)
    as (q' & E & Hi' & [Rt Rh Rl Ro] & Ho'); [done|..].
  - unfold q1. cbn [heap_]. rewrite length_app. simpl. lia.
  - unfold heap_fuel. lia.
  - split; intros j Hj Hj'; unfold q1 in *; cbn [heap_] in *; rewrite length_app in *; simpl in *.
    + rewrite !tm_app by (pose proof (parent_spec j); lia). apply Ho. lia.
    + pose proof (parent_spec j). lia.
  - exists q'. split; [exact E|]. split; try done.
    + rewrite Rl. by apply links_set_index.
    + intros k Hk Hk'. rewrite Ro; [by apply lookup_insert_ne|].
      unfold q1. cbn [heap_]. rewrite fmap_app, elem_of_app. simpl. set_solver.
Qed.

Lemma times_push h h' p t :
  NoDup (timer_ <$> h) -> p ∉ (timer_ <$> h) ->
  h' ≡ₚ h ++ match t with Some x => [mkEntry x p] | None => [] end ->
  times h' = partial_alter (fun _ => t) p (times h).
Proof.
  intros Hn Hp Hh. destruct t as [x|].
  - rewrite Permutation_app_comm in Hh. rewrite <- (times_perm (mkEntry x p :: h) h'); [done| |done].
    simpl. by apply NoDup_cons.
  - rewrite app_nil_r in Hh. rewrite <- (times_perm h h') by done.
    symmetry. change (delete p (times h) = times h). rewrite delete_id; [done|]. by apply times_none.
Qed.

Lemma relinked_indexed q q' : relinked q q' -> indexed q -> indexed q'.
Proof.
  intros [Rh Rp] Hi i e He. rewrite Rh in He. destruct (Hi _ _ He) as (de & Hde & Hidx).
  symmetry in Rp. destruct (payload_lookup _ _ _ _ Rp Hde) as (d' & Hd' & _ & E').
  exists d'. split; [done|congruence].
Qed.

(** The last lines of [insert_timer]. *)
Definition push_list (p : timer_ptr) (q : timer_queue) : outcome timer_queue :=
  q ← update (set_next (timers_ q)) p q;
  q ← update (set_prev None) p q;
  q ← update_opt (set_prev (Some p)) (timers_ q) q;
  Ret (set_timers (Some p) q).

Lemma insert_timer_parts is_infinite time p q :
  insert_timer is_infinite time p q =
    (q ← push_heap (if is_infinite time then None else Some time) p q; push_list p q).
Proof. unfold insert_timer, push_heap, push_list. by destruct (is_infinite time). Qed.

(** The memory after [p] was put before the list starting with [h]. *)
Definition consed_memory (p : timer_ptr) (d : per_timer_data) (h : option timer_ptr)
    (m m' : gmap timer_ptr per_timer_data) : Prop :=
  forall k, m' !! k =
    if decide (k = p) then Some (set_prev None (set_next h d))
    else if decide (h = Some k) then set_prev (Some p) <$> m !! k
    else m !! k.

Lemma consed_linked q q' p d l :
  linked q l -> p ∉ l -> timers_ q' = Some p ->
  consed_memory p d (head l) (memory_ q) (memory_ q') -> linked q' (p :: l).
Proof.
  intros [Hn Hh Hin Hout] Hp Ht Hm. split.
  - by apply NoDup_cons.
  - done.
  - intros l1 k l2 E. rewrite Hm. destruct l1 as [|x l1]; injection E as <- E.
    + subst l2. rewrite decide_True by done. eexists. split; [done|]. by destruct d.
    + destruct (Hin _ _ _ E) as (dk & Hdk & Hnext & Hprev).
      assert (k <> p) as Hkp by (intros ->; apply Hp; set_solver).
      rewrite decide_False by done. destruct l1 as [|y l1]; simpl in E; subst l.
      * rewrite decide_True by done. rewrite Hdk. eexists. split; [done|]. by destruct dk.
      * rewrite decide_False; [by exists dk|]. simpl. intros [= ->].
        apply NoDup_cons in Hn as [Hn _]. set_solver.
  - intros k dk Hdk Hk. apply not_elem_of_cons in Hk as [Hkp Hkl].
    rewrite Hm, decide_False in Hdk by done.
    rewrite decide_False in Hdk by (intros E; apply Hkl; by apply head_Some_elem). by apply (Hout k dk).
Qed.

Lemma push_list_spec q l p d :
  linked q l -> p ∉ l -> memory_ q !! p = Some d ->
  exists q', push_list p q = Ret q' /\ relinked q q' /\ linked q' (p :: l).
Proof.
  intros Hl Hp Hd. unfold push_list.
  destruct (update_relinked (set_next (timers_ q)) p q d Hd eq_refl) as (q1 & -> & T1 & R1 & M1).
  rewrite Ret_bind.
  destruct (update_relinked (set_prev None) p q1 (set_next (timers_ q) d)) as (q2 & -> & T2 & R2 & M2);
    [by rewrite M1, lookup_insert_eq|done|].
  rewrite Ret_bind, T2, T1, (lk_head _ _ Hl).
  destruct (update_opt_spec (set_prev (Some p)) (head l) q2) as (q3 & -> & T3 & R3 & M3); [|done|].
  { intros k E. destruct (linked_here q l k Hl) as [dk Hdk]; [by apply head_Some_elem|].
    rewrite M2, M1, insert_insert_eq. destruct (decide (k = p)) as [->|].
    - rewrite lookup_insert_eq. eauto.
    - rewrite lookup_insert_ne by done. eauto. }
  rewrite Ret_bind. exists (set_timers (Some p) q3). split; [done|]. split.
  - unfold relinked. simpl. eapply relinked_trans; [exact R1|]. by eapply relinked_trans.
  - eapply consed_linked; [done|done|done|]. intros k. simpl. rewrite M3, M2, M1, insert_insert_eq.
    rewrite (lk_head _ _ Hl). destruct (decide (k = p)) as [->|].
    + rewrite decide_False by (intros E; apply Hp; by apply head_Some_elem).
      by rewrite lookup_insert_eq.
    + by rewrite lookup_insert_ne.
Qed.

(** A timer enters the queue, without operations. *)
Lemma insert_timer_represents is_infinite time q a p :
  represents q a -> allocated q p -> a !! p = None -> zlen (heap_ q) + 1 < npos ->
  exists q',
    insert_timer is_infinite time p q = Ret q' /\
    represents q' (<[p := (if is_infinite time then None else Some time, [])]> a) /\
    (forall k, allocated q' k <-> allocated q k).
Proof.
  intros (l & Hw & Hl & Ha) [d Hd] Hp Hs. rewrite insert_timer_parts.
  set (t := if is_infinite time then None else Some time). clearbody t.
  pose proof Hw as [Hi Ho Hsz Hact Hnp Hlk].
  assert (p ∉ l) as Hpl by (rewrite Hl, Hp; by intros [? ?]).
  assert (p ∉ (timer_ <$> heap_ q)) as Hph.
  { intros Hin. apply list_elem_of_fmap in Hin as (e & -> & He). by apply Hpl, Hact. }
  destruct (push_heap_spec t p q d Hi Ho Hph Hd) as (q1 & -> & H1). rewrite Ret_bind.
  destruct H1 as [Hi1 Ho1 Ht1 Hh1 Hl1 Hother1 Hnpos1].
  destruct (links_lookup _ _ _ Hl1 _ Hd) as (d1 & Hd1 & _).
  destruct (push_list_spec q1 l p d1) as (q' & E & [Rh Rp] & Hl');
    [by apply (linked_links q q1 l)|done|done|].
  exists q'. split; [done|].
  assert (forall k, allocated q' k <-> allocated q k) as Hall.
  { intros k. unfold allocated. rewrite (fmap_same_is_Some _ _ _ k Rp).
    by apply (fmap_same_is_Some links). }
  split; [|done]. exists (p :: l).
  assert (forall k dk, memory_ q' !! k = Some dk ->
    exists d1, memory_ q1 !! k = Some d1 /\ op_queue_ dk = op_queue_ d1 /\
      heap_index_ dk = heap_index_ d1) as Hback by (intros; by eapply payload_lookup).
  assert (forall k, k ∈ timer_ <$> heap_ q' <-> k ∈ (timer_ <$> heap_ q) \/ t <> None /\ k = p) as Hin.
  { intros k. rewrite Rh, Hh1, fmap_app, elem_of_app. destruct t; simpl; set_solver. }
  split; [split|split].
  - by eapply relinked_indexed.
  - by rewrite Rh.
  - rewrite Rh. unfold zlen in *. rewrite Hh1, length_app. destruct t; simpl; lia.
  - intros e He. apply (list_elem_of_fmap_2 timer_), Hin in He as [He|[_ ->]]; [|set_solver +].
    apply list_elem_of_fmap in He as (e' & -> & He). apply elem_of_cons. right. by apply Hact.
  - intros k dk Hdk Hk. destruct (Hback _ _ Hdk) as (dk1 & Hdk1 & _ & ->).
    destruct (decide (k = p)) as [->|Hkp].
    + apply Hnpos1; [|done]. destruct t; [|done]. exfalso. apply Hk, Hin. by right.
    + assert (k ∉ (timer_ <$> heap_ q)) as Hkh by (intros Hkh; apply Hk, Hin; by left).
      rewrite Hother1 in Hdk1 by done. by apply (Hnp k).
  - done.
  - intros k. rewrite elem_of_cons, lookup_insert_is_Some', Hl. naive_solver.
  - intros k dk tk opsk Hdk Hk. destruct (Hback _ _ Hdk) as (dk1 & Hdk1 & -> & _).
    symmetry in Hl1. destruct (links_lookup _ _ _ Hl1 _ Hdk1) as (dk0 & Hdk0 & El).
    unfold links in El. injection El as <- _ _. rewrite Rh.
    rewrite (times_push (heap_ q) _ p t) by (by try apply indexed_nodup).
    destruct (decide (k = p)) as [->|Hkp].
    + rewrite lookup_insert_eq in Hk. injection Hk as <- <-.
      rewrite lookup_partial_alter_eq. split; [|done]. by apply (lk_out _ _ Hlk p).
    + rewrite lookup_insert_ne in Hk by done. rewrite lookup_partial_alter_ne by done. by eapply Ha.
Qed.

(** The finite times of the map are those of the heap. *)
Lemma represents_entry q a p x :
  represents q a -> (exists ops, a !! p = Some (Some x, ops)) <-> mkEntry x p ∈ heap_ q.
Proof.
  intros (l & Hw & Hl & Ha). pose proof (indexed_nodup _ (tw_indexed _ _ Hw)) as Hn.
  rewrite <- times_lookup by done. split.
  - intros [ops Hp]. destruct (linked_here q l p (tw_linked _ _ Hw)) as [d Hd]; [apply Hl; eauto|].
    by apply (Ha p d _ ops).
  - intros Hx. pose proof Hx as He. apply times_lookup in He; [|done].
    pose proof (tw_active _ _ Hw _ He) as Hpl. simpl in Hpl. pose proof Hpl as Hp.
    apply Hl in Hp as [[t ops] Hp].
    destruct (linked_here q l p (tw_linked _ _ Hw) Hpl) as [d Hd].
    destruct (Ha p d t ops Hd Hp) as [_ <-]. exists ops. by rewrite Hp, Hx.
Qed.

(** A finite time no other of the map is before. *)
Definition earliest (a : timer_map) (x : Z) : Prop :=
  forall k x' ops, a !! k = Some (Some x', ops) -> x <= x'.

Lemma root_earliest q a e h :
  represents q a -> heap_ q = e :: h -> earliest a (time_ e).
Proof.
  intros Hr He k x' ops Hk.
  assert (mkEntry x' k ∈ heap_ q) as Hin by (apply (represents_entry _ a); eauto).
  apply list_elem_of_lookup in Hin as [i Hi]. destruct Hr as (l & Hw & _).
  pose proof (heap_ordered_min _ i (tw_ordered _ _ Hw) (lookup_lt_Some _ _ _ Hi)) as Hmin.
  by rewrite (tm_lookup _ _ _ Hi), (tm_lookup _ 0 e) in Hmin by (by rewrite He).
Qed.

(** A timer is at the root when its index says so. *)
Lemma index_root q a p d :
  represents q a -> memory_ q !! p = Some d ->
  (heap_index_ d =? 0) = true <-> exists x h, heap_ q = mkEntry x p :: h.
Proof.
  intros (l & Hw & _) Hd. pose proof (tw_indexed _ _ Hw) as Hi. rewrite Z.eqb_eq. split.
  - intros E. destruct (decide (p ∈ timer_ <$> heap_ q)) as [Hin|Hout].
    + apply list_elem_of_fmap in Hin as (e & -> & He). apply list_elem_of_lookup in He as [i He].
      destruct (Hi _ _ He) as (d' & Hd' & Hidx). assert (i = 0%nat) as -> by (simplify_eq; lia).
      destruct (heap_ q) as [|e' h]; [done|]. injection He as ->. exists (time_ e), h. by destruct e.
    + rewrite (tw_npos _ _ Hw p d Hd Hout) in E. done.
  - intros (x & h & E). destruct (Hi 0%nat (mkEntry x p)) as (d' & Hd' & Hidx); [by rewrite E|].
    simpl in Hd'. simplify_eq. lia.
Qed.

(** What [enqueue_timer] makes of the abstract queue. *)
Definition enqueued (t : option Z) (p : timer_ptr) (op : wait_op) (a : timer_map) :
    option Z * list wait_op :=
  match a !! p with
  | Some (t, ops) => (t, ops ++ [op])
  | None => (t, [op])
  end.

(** A timer at the root has an earliest time, and the only earliest timer is at the
    root. *)
Lemma index_earliest q a p d t ops :
  represents q a -> memory_ q !! p = Some d -> a !! p = Some (t, ops) -> (heap_index_ d =? 0) = true ->
  exists x, t = Some x /\ earliest a x.
Proof.
  intros Hr Hd Hp (x & h & E)%(index_root _ _ _ _ Hr Hd). exists x.
  split; [|by apply (root_earliest _ _ _ _ Hr E)].
  destruct (represents_entry q a p x Hr) as [_ Hx].
  destruct Hx as [ops' Hx]; [rewrite E; set_solver +|]. by rewrite Hp in Hx; injection Hx.
Qed.

Lemma earliest_index q a p d x ops :
  represents q a -> memory_ q !! p = Some d -> a !! p = Some (Some x, ops) ->
  earliest (delete p a) (x + 1) -> (heap_index_ d =? 0) = true.
Proof.
  intros Hr Hd Hp Hearly. apply (index_root _ _ _ _ Hr Hd).
  assert (mkEntry x p ∈ heap_ q) as Hin by (apply (represents_entry _ a); eauto).
  destruct (heap_ q) as [|[y k] h] eqn:E; [set_solver +Hin|].
  pose proof (root_earliest _ _ _ _ Hr E p x ops Hp) as Hmin. simpl in Hmin.
  destruct (represents_entry q a k y Hr) as [_ Hk].
  destruct Hk as [opsk Hk]; [rewrite E; set_solver +|].
  destruct (decide (k = p)) as [->|Hkp].
  - rewrite Hp in Hk. injection Hk as -> _. eauto.
  - specialize (Hearly k y opsk). rewrite lookup_delete_ne in Hearly by done. specialize (Hearly Hk). lia.
Qed.

(** The start of [enqueue_timer]: the timer is in the queue. *)
Lemma inserted_unless_active is_infinite time p q a :
  represents q a -> allocated q p -> zlen (heap_ q) + 1 < npos ->
  exists d q' t ops,
    load q p = Ret d /\ (if negb (is_active p d q) then insert_timer is_infinite time p q else Ret q) = Ret q' /\
    represents q' (<[p := (t, ops)]> a) /\ (forall k, allocated q' k <-> allocated q k) /\
    forall op, enqueued (if is_infinite time then None else Some time) p op a = (t, ops ++ [op]).
Proof.
  intros Hr [d Hd] Hs. unfold enqueued. exists d. rewrite (load_here _ _ _ Hd).
  destruct (a !! p) as [[t ops]|] eqn:Ha.
  - destruct (represents_here _ _ _ _ _ Hr Ha) as (d' & Hd' & Hact & _). simplify_eq.
    rewrite Hact. exists q, t, ops. by rewrite insert_id.
  - rewrite (represents_none _ _ _ _ Hr Ha Hd). simpl.
    destruct (insert_timer_represents is_infinite time q a p Hr) as (q1 & E & Hr1 & Hall);
      [by exists d|done|done|].
    by eexists q1, _, (@nil wait_op).
Qed.

(** [enqueue_timer], on every timer. *)
Lemma enqueue_timer_spec (is_infinite : Z -> bool) time p op q a
    (Hr : represents q a) (Hp : allocated q p) (Hs : zlen (heap_ q) + 1 < npos) :
  let now := enqueued (if is_infinite time then None else Some time) p op a in
  let a' := <[p := now]> a in
  exists first q',
    enqueue_timer is_infinite time p op q = Ret (first, q') /\
    represents q' a' /\ (forall k, allocated q' k <-> allocated q k) /\
    (first = true -> head now.2 = Some op /\ exists x, now.1 = Some x /\ earliest a' x) /\
    (forall x, head now.2 = Some op -> now.1 = Some x -> earliest (delete p a) (x + 1) ->
      first = true).
Proof.
  intros now a'. destruct (inserted_unless_active is_infinite time p q a Hr Hp Hs)
    as (d0 & q1 & t & ops & E0 & E1 & Hr1 & Hall1 & Hnow). specialize (Hnow op). fold now in Hnow.
  unfold enqueue_timer. rewrite E0, Ret_bind, E1, Ret_bind.
  destruct (represents_here _ _ _ _ _ Hr1 (lookup_insert_eq _ _ _)) as (d1 & Hd1 & _ & Hops1).
  rewrite (load_here _ _ _ Hd1), Ret_bind, Hops1.
  destruct (set_queue_represents _ _ p t ops (ops ++ [op]) Hr1 (lookup_insert_eq _ _ _))
    as (q2 & -> & Hr2 & _ & Hall2).
  rewrite Ret_bind. rewrite insert_insert_eq, <- Hnow in Hr2. fold a' in Hr2.
  assert (a' !! p = Some (t, ops ++ [op])) as Hp' by (unfold a'; rewrite Hnow; apply lookup_insert_eq).
  destruct (represents_here q2 a' p t (ops ++ [op]) Hr2 Hp') as (d & Hd & _ & Hops).
  rewrite (load_here _ _ _ Hd), Ret_bind. eexists _, q2. split; [done|]. split; [done|].
  split; [by intros k; rewrite Hall2|]. rewrite Hops, Hnow. simpl.
  rewrite andb_true_iff, bool_decide_eq_true. split.
  - intros [Hroot Hhead]. split; [done|]. by eapply index_earliest.
  - intros x Hhead -> Hearly. rewrite andb_true_iff, bool_decide_eq_true. split; [|done].
    eapply earliest_index; [done..|].
    unfold a'. by rewrite delete_insert_eq.
Qed.

(** Enqueuing on any timer adds the operation after those that wait on it;
    a timer that was not active becomes so with its time, and one that was keeps
    its own.  The reactor is told to wake up when, and only when, the operation is
    now the first of a timer no other is before, ties with the others aside. *)
Theorem enqueue_timer_refines (is_infinite : Z -> bool) time p op q a
    (Hr : represents q a) (Hp : allocated q p) (Hs : zlen (heap_ q) + 1 < npos) :
  let now := enqueued (if is_infinite time then None else Some time) p op a in
  let a' := <[p := now]> a in
  exists first q',
    enqueue_timer is_infinite time p op q = Ret (first, q') /\
    represents q' a' /\ (forall k, allocated q' k <-> allocated q k) /\
    (first = true -> head now.2 = Some op /\ exists x, now.1 = Some x /\ earliest a' x) /\
    (forall x, head now.2 = Some op -> now.1 = Some x -> earliest (delete p a) (x + 1) ->
      first = true).
Proof. by apply enqueue_timer_spec. Qed.

(** * Dequeuing *)

(** The timers that expire no later than [now], as entries. *)
Definition is_due (now : Z) (a : timer_map) (e : heap_entry) : Prop :=
  (exists ops, a !! timer_ e = Some (Some (time_ e), ops)) /\ time_ e <= now.

(** The timers that are not due. *)
Definition not_due (now : Z) (kv : timer_ptr * (option Z * list wait_op)) : Prop :=
  match kv.2.1 with Some x => now < x | None => True end.

#[global] Instance not_due_dec now kv : Decision (not_due now kv).
Proof. unfold not_due. destruct (kv.2.1); apply _. Defined.

(** The completions of a timer's operations. *)
Definition ready_ops (a : timer_map) (e : heap_entry) : completions :=
  match a !! timer_ e with
  | Some (_, ops) => (fun op => (op, ec_success)) <$> ops
  | None => []
  end.

Definition no_later (e e' : heap_entry) : Prop := time_ e <= time_ e'.

(** The entries of the due timers, in the order of their times. *)
Definition due_timers (now : Z) (a : timer_map) (due : list heap_entry) : Prop :=
  NoDup due /\ StronglySorted no_later due /\ forall e, e ∈ due <-> is_due now a e.

Lemma due_none now a :
  (forall p x ops, a !! p = Some (Some x, ops) -> now < x) ->
  due_timers now a [] /\ filter (not_due now) a = a.
Proof.
  intros Hlate. split.
  - split; [apply NoDup_nil_2|]. split; [constructor|]. intros e. split; [by intros ?%elem_of_nil|].
    intros [[ops Hops] Hle]. specialize (Hlate _ _ _ Hops). lia.
  - apply map_filter_id. intros p [[x|] ops] Hp; [|done]. by eapply Hlate.
Qed.

Lemma due_cons now a e ops due :
  a !! timer_ e = Some (Some (time_ e), ops) -> time_ e <= now -> earliest a (time_ e) ->
  due_timers now (delete (timer_ e) a) due ->
  due_timers now a (e :: due) /\
  filter (not_due now) (delete (timer_ e) a) = filter (not_due now) a /\
  concat (ready_ops a <$> e :: due) =
    ((fun op => (op, ec_success)) <$> ops) ++ concat (ready_ops (delete (timer_ e) a) <$> due).
Proof.
  intros Hp Hle Hmin (Hn & Hsorted & Hdue).
  assert (forall e', e' ∈ due -> timer_ e' <> timer_ e /\ is_due now a e') as Hin.
  { intros e' He'. apply Hdue in He' as [[ops' Hops'] Hle'].
    apply lookup_delete_Some in Hops' as [Hne Hops']. split; [done|]. split; [eauto|done]. }
  split; [split; [|split]|split].
  - apply NoDup_cons. split; [|done]. intros He. by destruct (Hin e He).
  - constructor; [done|]. apply Forall_forall. intros e' He'.
    destruct (Hin e' He') as (_ & [ops' Hops'] & _). by eapply Hmin.
  - intros e'. rewrite elem_of_cons. split; [intros [->|He']|].
    + split; [eauto|done].
    + by apply Hin.
    + intros [[ops' Hops'] Hle']. destruct (decide (timer_ e' = timer_ e)) as [E|E].
      * left. rewrite E, Hp in Hops'. destruct e, e'. simpl in *. congruence.
      * right. apply Hdue. split; [|done]. exists ops'. by rewrite lookup_delete_ne.
  - apply map_eq. intros k. apply option_eq. intros [t o]. rewrite !map_lookup_filter_Some.
    rewrite lookup_delete_Some. split; [tauto|]. intros [Hk Hd]. split; [|done]. split; [|done].
    intros <-. rewrite Hp in Hk. injection Hk as <- <-. unfold not_due in Hd. simpl in Hd. lia.
  - cbn [fmap list_fmap concat]. f_equal; [unfold ready_ops; by rewrite Hp|].
    f_equal. apply list_fmap_ext. intros i e' He'. apply list_elem_of_lookup_2 in He'.
    unfold ready_ops. rewrite lookup_delete_ne; [done|]. by apply not_eq_sym, Hin.
Qed.

(** One round of the loop: the first timer gives its operations and leaves. *)
Lemma take_first q a e h :
  represents q a -> heap_ q = e :: h ->
  exists ops q',
    a !! timer_ e = Some (Some (time_ e), ops) /\
    ('(new, q) ← take_all (timer_ e) q; q ← remove_timer (timer_ e) q; Ret (new, q)) =
      Ret ((fun op => (op, ec_success)) <$> ops, q') /\
    represents q' (delete (timer_ e) a) /\ (forall k, allocated q' k <-> allocated q k) /\
    (length (heap_ q') <= length h)%nat.
Proof.
  intros Hr He. destruct (represents_entry q a (timer_ e) (time_ e) Hr) as [_ [ops Hops]].
  { rewrite He. destruct e. set_solver +. }
  exists ops. destruct (represents_here _ _ _ _ _ Hr Hops) as (d & Hd & _ & Hdops).
  unfold take_all. rewrite (load_here _ _ _ Hd), Ret_bind, Hdops.
  destruct (set_queue_represents _ _ _ _ _ [] Hr Hops) as (q1 & -> & Hr1 & Hh1 & Hall1).
  rewrite !Ret_bind.
  destruct (remove_timer_represents _ _ _ _ Hr1 (lookup_insert_eq _ _ _))
    as (q' & -> & Hr' & Hh' & Hall').
  exists q'. rewrite delete_insert_eq in Hr'. split; [done|]. split; [done|]. split; [done|].
  split; [by intros k; rewrite Hall'|]. rewrite Hh', Hh1, He. unfold others.
  rewrite filter_cons_False by (by intros []). apply length_filter.
Qed.

Lemma get_ready_loop_spec fuel q a now ops :
  represents q a -> (length (heap_ q) <= fuel)%nat ->
  exists due q',
    get_ready_loop fuel now ops q = Ret (ops ++ concat (ready_ops a <$> due), q') /\
    due_timers now a due /\ represents q' (filter (not_due now) a) /\
    (forall k, allocated q' k <-> allocated q k).
Proof.
  revert q a ops. induction fuel as [|fuel IH]; intros q a ops Hr Hf.
  all: cbn [get_ready_loop]; destruct (heap_ q) as [|e h] eqn:He; simpl in Hf; try lia.
  1, 2: destruct (due_none now a) as [Hd E];
    [intros p x o Hp; assert (mkEntry x p ∈ heap_ q) as Hin
      by (apply (represents_entry _ a); eauto); rewrite He in Hin; set_solver +Hin|];
    exists [], q; rewrite E, app_nil_r; done.
  unfold less_than. destruct (Z.ltb_spec now (time_ e)) as [Hlt|Hge]; simpl.
  - destruct (due_none now a) as [Hd E].
    { intros p x o Hp. pose proof (root_earliest _ _ _ _ Hr He _ _ _ Hp). lia. }
    exists [], q. rewrite E, app_nil_r. done.
  - destruct (take_first q a e h Hr He) as (o & q2 & Ho & Hstep & Hr2 & Hall2 & Hlen).
    destruct (IH q2 (delete (timer_ e) a) (ops ++ ((fun op => (op, ec_success)) <$> o)) Hr2)
      as (due & q' & E & Hdue & Hr' & Hall'); [lia|].
    destruct (due_cons now a e o due Ho Hge (root_earliest _ _ _ _ Hr He) Hdue)
      as (Hdue' & Ef & Ec).
    exists (e :: due), q'. rewrite Ec, app_assoc, <- E, <- Ef.
    split; [|split; [done|split; [done|by intros k; rewrite Hall']]].
    revert Hstep. destruct (take_all _ _) as [[new q1]|?|]; rewrite ?Ret_bind; [|done|done].
    destruct (remove_timer _ _) as [q3|?|]; rewrite ?Ret_bind; [|done|done].
    by intros [= -> ->].
Qed.

(** Dequeuing moves the operations of exactly the timers that are due, in
    the order of their times and without error, and leaves exactly the timers that
    expire later or never; the loop ends. *)
Theorem get_ready_timers_refines q a now ops (Hr : represents q a) :
  exists due q',
    get_ready_timers now ops q = Ret (ops ++ concat (ready_ops a <$> due), q') /\
    due_timers now a due /\ represents q' (filter (not_due now) a) /\
    (forall k, allocated q' k <-> allocated q k).
Proof. by apply get_ready_loop_spec. Qed.

(** * Waiting *)

(** The clock's time to wait, in units of [unit] ticks. *)
Definition wait_units (unit d max_duration : Z) : Z :=
  if d <=? 0 then 0
  else if d ÷ unit =? 0 then 1
  else Z.min max_duration (d ÷ unit).

Lemma to_msec_units d max_duration :
  int64 d -> to_msec d max_duration = Ret (wait_units 1000000 d max_duration).
Proof.
  intros Hd. unfold to_msec, wait_units, ticks. rewrite total_milliseconds_ns by done. simpl.
  repeat case_match; f_equal; lia.
Qed.

Lemma to_usec_units d max_duration :
  int64 d -> to_usec d max_duration = Ret (wait_units 1000 d max_duration).
Proof.
  intros Hd. unfold to_usec, wait_units, ticks. rewrite total_microseconds_ns by done. simpl.
  repeat case_match; f_equal; lia.
Qed.

Lemma saturate_int64 z : int64 (saturate z).
Proof. unfold saturate, int64, INT64_MAX, INT64_MIN. lia. Qed.

(** [w] units are a good time to wait for the timers of [a]: no longer than asked,
    nothing when a timer is due, at least a unit when none is, then not past a
    timer unless that unit is, and not short of all of them by a unit. *)
Definition good_wait (unit now max_duration : Z) (a : timer_map) (w : Z) : Prop :=
  0 <= w <= max_duration /\
  (w = 0 <-> exists e, is_due now a e) /\
  (forall p x ops, a !! p = Some (Some x, ops) -> 1 < w -> now + w * unit <= x) /\
  (w = max_duration \/ exists p x ops, a !! p = Some (Some x, ops) /\ x < now + (w + 1) * unit).

Lemma wait_units_bounds unit z max_duration :
  1 < unit -> 1 <= max_duration -> (max_duration + 1) * unit <= INT64_MAX ->
  let w := wait_units unit (saturate z) max_duration in
  0 <= w <= max_duration /\ (w = 0 <-> z <= 0) /\ (1 < w -> w * unit <= z) /\
  (w = max_duration \/ z < (w + 1) * unit).
Proof.
  intros Hu Hm Hmax w. subst w. unfold wait_units.
  destruct (Z.leb_spec (saturate z) 0) as [Hs|Hs].
  { unfold saturate, INT64_MIN, INT64_MAX in Hs. lia. }
  assert (0 < saturate z <= z /\ (saturate z = z \/ saturate z = INT64_MAX)) as [Hz Hsat].
  { unfold saturate, INT64_MIN, INT64_MAX in *. lia. }
  pose proof (Z.quot_rem' (saturate z) unit).
  pose proof (Z.rem_bound_pos (saturate z) unit ltac:(lia) ltac:(lia)).
  set (k := saturate z ÷ unit) in *. assert (0 <= k) by nia.
  destruct (Z.eqb_spec k 0) as [->|].
  - split; [lia|]. split; [lia|]. split; [lia|]. right. destruct Hsat; nia.
  - split; [lia|]. split; [lia|].
    destruct (Z.min_spec max_duration k) as [[? ->]|[? ->]]; (split; [nia|]); [by left|].
    right. destruct Hsat as [Hsat|]; nia.
Qed.

Lemma wait_units_good unit now max_duration q a e h :
  represents q a -> heap_ q = e :: h -> 1 < unit -> 1 <= max_duration ->
  (max_duration + 1) * unit <= INT64_MAX ->
  good_wait unit now max_duration a (wait_units unit (saturate (time_ e - now)) max_duration).
Proof.
  intros Hr He Hu Hm Hmax. pose proof (root_earliest _ _ _ _ Hr He) as Hmin.
  destruct (represents_entry q a (timer_ e) (time_ e) Hr) as [_ [ops Hops]].
  { rewrite He. destruct e. set_solver +. }
  set (w := wait_units _ _ _).
  destruct (wait_units_bounds unit (time_ e - now) max_duration) as (H1 & H2 & H3 & H4);
    [done|done|done|].
  fold w in H1, H2, H3, H4.
  split; [done|]. split; [|split].
  - rewrite H2. split.
    + intros Hle. exists e. split; [eauto|lia].
    + intros (e' & [ops' Hops'] & Hle). specialize (Hmin _ _ _ Hops'). lia.
  - intros p x ops' Hp Hw. specialize (Hmin _ _ _ Hp). specialize (H3 Hw). lia.
  - destruct H4 as [H4|H4]; [by left|right]. exists (timer_ e), (time_ e), ops. split; [done|lia].
Qed.

(** The reactor asks how long it may wait and gets a good time in
    milliseconds, without overflow, whatever the times of the timers. *)
Theorem wait_duration_good q a now max_duration
    (Hr : represents q a) (Hnow : int64 now) (Hm : 1 <= max_duration)
    (Hmax : (max_duration + 1) * 1000000 <= INT64_MAX)
    (Ht : forall p x ops, a !! p = Some (Some x, ops) -> int64 x) :
  exists w, wait_duration_msec now max_duration q = Ret w /\
            good_wait 1000000 now max_duration a w.
Proof.
  unfold wait_duration_msec. destruct (heap_ q) as [|e h] eqn:He.
  - exists max_duration. split; [done|].
    assert (forall p x ops, a !! p <> Some (Some x, ops)) as Hno.
    { intros p x ops Hp. assert (mkEntry x p ∈ heap_ q) as Hin
        by (apply (represents_entry _ a); eauto). rewrite He in Hin. by apply elem_of_nil in Hin. }
    split; [lia|]. split; [|split; [|by left]].
    + split; [lia|]. intros (e & [ops Hops] & _). by apply Hno in Hops.
    + intros p x ops Hp. by apply Hno in Hp.
  - destruct (represents_entry q a (timer_ e) (time_ e) Hr) as [_ [ops Hops]].
    { rewrite He. destruct e. set_solver +. }
    rewrite subtract_ok by (done || by eapply Ht). rewrite Ret_bind.
    rewrite to_msec_units by apply saturate_int64. eexists. split; [done|].
    by eapply wait_units_good.
Qed.

(** * Cancelling *)

(** What [cancel_timer] takes from the abstract queue. *)
Definition cancelled_ops (a : timer_map) (p : timer_ptr) (max_cancelled : Z) : list wait_op :=
  match a !! p with
  | Some (_, ops) => cancelled_part max_cancelled ops
  | None => []
  end.

Definition cancelled_map (a : timer_map) (p : timer_ptr) (max_cancelled : Z) : timer_map :=
  match a !! p with
  | Some (t, ops) => leave p t (drop (length (cancelled_part max_cancelled ops)) ops) a
  | None => a
  end.

Lemma cancel_timer_spec q a p ops max_cancelled
    (Hr : represents q a) (Hp : allocated q p) :
  exists q',
    cancel_timer p ops max_cancelled q =
      Ret (zlen (cancelled_ops a p max_cancelled),
           ops ++ ((fun op => (op, operation_aborted)) <$> cancelled_ops a p max_cancelled), q') /\
    represents q' (cancelled_map a p max_cancelled) /\
    (forall k, allocated q' k <-> allocated q k).
Proof.
  unfold cancel_timer, cancelled_ops, cancelled_map.
  destruct (a !! p) as [[t ops0]|] eqn:Ha.
  - destruct (represents_here _ _ _ _ _ Hr Ha) as (d & Hd & Hact & Hops).
    rewrite (load_here _ _ _ Hd), Ret_bind, Hact, Hops.
    destruct (drop_ops_represents _ _ _ _ _
      (drop (length (cancelled_part max_cancelled ops0)) ops0) Hr Ha) as (q' & E & Hr' & Hall).
    exists q'. split; [|done]. cbv zeta. revert E.
    destruct (update _ _ _) as [q1|?|]; rewrite ?Ret_bind; [|done|done]. by intros ->.
  - destruct Hp as [d Hd]. rewrite (load_here _ _ _ Hd), Ret_bind.
    rewrite (represents_none _ _ _ _ Hr Ha Hd). exists q. by rewrite app_nil_r.
Qed.

(** Cancelling on any timer takes as many of its first waiting operations
    as asked, in order, and completes them with [operation_aborted]; the others
    stay as they were, and a timer is active as long as operations wait on it. *)
Theorem cancel_timer_refines q a p ops max_cancelled
    (Hr : represents q a) (Hp : allocated q p) :
  exists q',
    cancel_timer p ops max_cancelled q =
      Ret (zlen (cancelled_ops a p max_cancelled),
           ops ++ ((fun op => (op, operation_aborted)) <$> cancelled_ops a p max_cancelled), q') /\
    represents q' (cancelled_map a p max_cancelled) /\
    (forall k, allocated q' k <-> allocated q k).
Proof. by apply cancel_timer_spec. Qed.

(** What [cancel_timer_by_key] takes. *)
Definition keyed_ops (a : timer_map) (p : timer_ptr) (key : positive) : list wait_op :=
  match a !! p with
  | Some (_, ops) => filter (fun op => cancellation_key_ op = key) ops
  | None => []
  end.

Definition keyed_map (a : timer_map) (p : timer_ptr) (key : positive) : timer_map :=
  match a !! p with
  | Some (t, ops) => leave p t (filter (fun op => cancellation_key_ op <> key) ops) a
  | None => a
  end.

Lemma cancel_timer_by_key_spec q a p ops key
    (Hr : represents q a) (Hp : allocated q p) :
  exists q',
    cancel_timer_by_key p ops key q =
      Ret (ops ++ ((fun op => (op, operation_aborted)) <$> keyed_ops a p key), q') /\
    represents q' (keyed_map a p key) /\ (forall k, allocated q' k <-> allocated q k).
Proof.
  unfold cancel_timer_by_key, keyed_ops, keyed_map.
  destruct (a !! p) as [[t ops0]|] eqn:Ha.
  - destruct (represents_here _ _ _ _ _ Hr Ha) as (d & Hd & Hact & Hops).
    rewrite (load_here _ _ _ Hd), Ret_bind, Hact, Hops.
    destruct (drop_ops_represents _ _ _ _ _
      (filter (fun op => cancellation_key_ op <> key) ops0) Hr Ha) as (q' & E & Hr' & Hall).
    exists q'. split; [|done]. cbv zeta. revert E.
    destruct (update _ _ _) as [q1|?|]; rewrite ?Ret_bind; [|done|done]. by intros ->.
  - destruct Hp as [d Hd]. rewrite (load_here _ _ _ Hd), Ret_bind.
    rewrite (represents_none _ _ _ _ Hr Ha Hd). exists q. by rewrite app_nil_r.
Qed.

(** Cancelling by key takes the waiting operations with that key, in order,
    and no other. *)
Theorem cancel_timer_by_key_refines q a p ops key
    (Hr : represents q a) (Hp : allocated q p) :
  exists q',
    cancel_timer_by_key p ops key q =
      Ret (ops ++ ((fun op => (op, operation_aborted)) <$> keyed_ops a p key), q') /\
    represents q' (keyed_map a p key) /\ (forall k, allocated q' k <-> allocated q k).
Proof. by apply cancel_timer_by_key_spec. Qed.

(** * Examples *)

Lemma new_queue_represents (m : gmap timer_ptr per_timer_data) :
  (forall p d, m !! p = Some d -> d = new_timer) -> represents (mkTimers None [] m) ∅.
Proof.
  intros Hm. exists []. split; [split|split].
  - by intros i e He.
  - intros j Hj. simpl in Hj. lia.
  - done.
  - intros e He. by apply elem_of_nil in He.
  - intros p d Hd _. by rewrite (Hm p d Hd).
  - split; [apply NoDup_nil_2|done| |].
    + intros l1 p l2 E. by destruct l1.
    + intros p d Hd _. by rewrite (Hm p d Hd).
  - intros p. split; [intros Hp; by apply elem_of_nil in Hp|by intros [? ?]].
  - done.
Qed.

(** Three timers of which two have operations: two of the first at 30, one of
    the second at 10. *)
Definition ex_new : timer_queue :=
  mkTimers None [] {[1%positive := new_timer; 2%positive := new_timer; 3%positive := new_timer]}.
Definition ex_op (i : positive) : wait_op := mkWaitOp i 1.
Definition never_infinite (t : Z) : bool := false.

Definition ex_run : outcome timer_queue :=
  '(_, q) ← enqueue_timer never_infinite 30 1 (ex_op 1) ex_new;
  '(_, q) ← enqueue_timer never_infinite 10 2 (ex_op 2) q;
  '(_, q) ← enqueue_timer never_infinite 30 1 (ex_op 3) q;
  Ret q.
Definition ex_queue : timer_queue := match ex_run with Ret q => q | _ => ex_new end.
Definition ex_map : timer_map :=
  {[1%positive := (Some 30, [ex_op 1; ex_op 3]); 2%positive := (Some 10, [ex_op 2])]}.

Lemma ex_new_represents : represents ex_new ∅.
Proof.
  apply new_queue_represents. intros p d.
  rewrite !lookup_insert_Some, lookup_singleton_Some. naive_solver.
Qed.

Lemma ex_queue_represents : represents ex_queue ex_map.
Proof.
  assert (forall p, p = 1%positive \/ p = 2%positive -> allocated ex_new p) as Hall
    by (intros p [-> | ->]; by eexists).
  destruct (enqueue_timer_spec never_infinite 30 1 (ex_op 1) ex_new ∅ ex_new_represents)
    as (b1 & q1 & E1 & R1 & A1 & _); [by apply Hall; left|done|].
  vm_compute in E1. injection E1 as <- E1.
  destruct (enqueue_timer_spec never_infinite 10 2 (ex_op 2) q1 _ R1)
    as (b2 & q2 & E2 & R2 & A2 & _); [by apply A1, Hall; right|by rewrite <- E1|].
  rewrite <- E1 in E2. vm_compute in E2. injection E2 as <- E2.
  destruct (enqueue_timer_spec never_infinite 30 1 (ex_op 3) q2 _ R2)
    as (b3 & q3 & E3 & R3 & A3 & _); [by apply A2, A1, Hall; left|by rewrite <- E2|].
  rewrite <- E2 in E3. vm_compute in E3. injection E3 as <- E3.
  replace ex_queue with q3 by (rewrite <- E3; by vm_compute).
  replace ex_map with (<[1%positive := (Some 30, [ex_op 1; ex_op 3])]>
    (<[2%positive := (Some 10, [ex_op 2])]> (<[1%positive := (Some 30, [ex_op 1])]> ∅)) : timer_map)
    by (by vm_compute).
  exact R3.
Qed.

Lemma ex_allocated p : (p =? 1)%positive || (p =? 2)%positive || (p =? 3)%positive = true ->
  allocated ex_queue p.
Proof.
  rewrite !orb_true_iff, !Pos.eqb_eq. intros [[->| ->]| ->]; by eexists.
Qed.

Lemma cancel_timer_refines_witness :
  represents ex_queue ex_map /\ allocated ex_queue 1 /\
  exists q',
    cancel_timer 1 [] 1 ex_queue = Ret (1, [(ex_op 1, operation_aborted)], q') /\
    represents q' (<[1%positive := (Some 30, [ex_op 3])]> ex_map).
Proof.
  split; [exact ex_queue_represents|]. split; [by apply ex_allocated|].
  destruct (cancel_timer_refines ex_queue ex_map 1 [] 1 ex_queue_represents)
    as (q' & E & Hr & _); [by apply ex_allocated|]. exists q'. split; [exact E|exact Hr].
Defined.

Lemma cancel_timer_by_key_refines_witness :
  represents ex_queue ex_map /\ allocated ex_queue 2 /\
  exists q',
    cancel_timer_by_key 2 [] 1 ex_queue = Ret ([(ex_op 2, operation_aborted)], q') /\
    represents q' (delete 2%positive ex_map).
Proof.
  split; [exact ex_queue_represents|]. split; [by apply ex_allocated|].
  destruct (cancel_timer_by_key_refines ex_queue ex_map 2 [] 1 ex_queue_represents)
    as (q' & E & Hr & _); [by apply ex_allocated|]. exists q'. split; [exact E|exact Hr].
Defined.

Lemma enqueue_timer_refines_witness :
  represents ex_queue ex_map /\ allocated ex_queue 3 /\ zlen (heap_ ex_queue) + 1 < npos /\
  exists q',
    enqueue_timer never_infinite 5 3 (ex_op 4) ex_queue = Ret (true, q') /\
    represents q' (<[3%positive := (Some 5, [ex_op 4])]> ex_map).
Proof.
  split; [exact ex_queue_represents|]. split; [by apply ex_allocated|]. split; [done|].
  destruct (enqueue_timer_refines never_infinite 5 3 (ex_op 4) ex_queue ex_map
    ex_queue_represents) as (b & q' & E & Hr & _ & _ & Hb); [by apply ex_allocated|done|].
  exists q'. split; [|exact Hr]. rewrite E, (Hb 5); [done|done|done|].
  intros k x ops. unfold ex_map. rewrite delete_id by done.
  rewrite lookup_insert_Some, lookup_singleton_Some. intros [[_ [= <- _]]|[_ [_ [= <- _]]]]; lia.
Defined.

Lemma get_ready_timers_refines_witness :
  represents ex_queue ex_map /\
  exists due q',
    get_ready_timers 30 [] ex_queue = Ret (concat (ready_ops ex_map <$> due), q') /\
    due_timers 30 ex_map due /\ represents q' ∅.
Proof.
  split; [exact ex_queue_represents|].
  destruct (get_ready_timers_refines ex_queue ex_map 30 [] ex_queue_represents)
    as (due & q' & E & Hdue & Hr & _). exists due, q'. split; [exact E|]. split; [exact Hdue|exact Hr].
Defined.

Lemma wait_duration_good_witness :
  represents ex_queue ex_map /\
  exists w, wait_duration_msec 0 300000 ex_queue = Ret w /\ good_wait 1000000 0 300000 ex_map w.
Proof.
  split; [exact ex_queue_represents|].
  apply (wait_duration_good ex_queue ex_map 0 300000 ex_queue_represents); [by vm_compute|done|by vm_compute|].
  intros p x ops. unfold ex_map. rewrite lookup_insert_Some, lookup_singleton_Some.
  intros [[_ [= <- _]]|[_ [_ [= <- _]]]]; by vm_compute.
Defined.
