(* ===== verification/Scheduler.v ===== *)
(** [asio/detail/scheduler.hpp] and [impl/scheduler.ipp]: the queue of operations
    ready to be completed, and the count of unfinished work that keeps
    [io_context::run] from returning.

    One thread runs the scheduler, as the server's does; what it keeps while it
    runs is [this_thread].  An operation in the queue is the reactor's task, the
    state of a descriptor with events ready, or an operation of the user with its
    result.  The mutex and the wake-up event only matter between threads; calls of
    [task_->interrupt()] are counted. *)

From S2P Require Import Prelude.
From S2P Require Import AsioError.

(** The result an operation is completed with. *)
Record completion := mkCompletion {
  co_id : positive;
  co_ec : error_code;
  co_bytes : Z
}.

Inductive operation :=
  | task_operation
  | descriptor_op (d : positive)
  | user_op (c : completion).

#[global] Instance completion_eq_dec : EqDecision completion.
Proof. solve_decision. Defined.

#[global] Instance operation_eq_dec : EqDecision operation.
Proof. solve_decision. Defined.

Record thread_info := mkThread {
  private_outstanding_work : Z;
  private_op_queue : list operation
}.

Module scheduler.

Record t := mk {
  one_thread_ : bool;
  op_queue_ : list operation;
  outstanding_work_ : Z;
  stopped_ : bool;
  shutdown_ : bool;
  task_ : bool;
  task_interrupted_ : bool;
  interrupts : Z;
  this_thread : option thread_info
}.

(** [scheduler::scheduler], without a thread of its own. *)
Definition new (one_thread : bool) : t := mk one_thread [] 0 false false false true 0 None.

Definition set_queue (q : list operation) (s : t) : t :=
  mk (one_thread_ s) q (outstanding_work_ s) (stopped_ s) (shutdown_ s) (task_ s)
    (task_interrupted_ s) (interrupts s) (this_thread s).
Definition set_outstanding (n : Z) (s : t) : t :=
  mk (one_thread_ s) (op_queue_ s) n (stopped_ s) (shutdown_ s) (task_ s)
    (task_interrupted_ s) (interrupts s) (this_thread s).
Definition set_stopped (b : bool) (s : t) : t :=
  mk (one_thread_ s) (op_queue_ s) (outstanding_work_ s) b (shutdown_ s) (task_ s)
    (task_interrupted_ s) (interrupts s) (this_thread s).
Definition set_task (b : bool) (s : t) : t :=
  mk (one_thread_ s) (op_queue_ s) (outstanding_work_ s) (stopped_ s) (shutdown_ s) b
    (task_interrupted_ s) (interrupts s) (this_thread s).
Definition set_interrupted (b : bool) (s : t) : t :=
  mk (one_thread_ s) (op_queue_ s) (outstanding_work_ s) (stopped_ s) (shutdown_ s) (task_ s)
    b (interrupts s) (this_thread s).
Definition set_thread (i : option thread_info) (s : t) : t :=
  mk (one_thread_ s) (op_queue_ s) (outstanding_work_ s) (stopped_ s) (shutdown_ s) (task_ s)
    (task_interrupted_ s) (interrupts s) i.

(** [task_->interrupt()], unless the task is interrupted already. *)
Definition interrupt_task (s : t) : t :=
  if negb (task_interrupted_ s) && task_ s then
    mk (one_thread_ s) (op_queue_ s) (outstanding_work_ s) (stopped_ s) (shutdown_ s) (task_ s)
      true (interrupts s + 1) (this_thread s)
  else s.

(** No other thread waits for the event. *)
Definition wake_one_thread_and_unlock (s : t) : t := interrupt_task s.

Definition push (ops : list operation) (s : t) : t := set_queue (op_queue_ s ++ ops) s.

Definition init_task (s : t) : t :=
  if negb (shutdown_ s) && negb (task_ s) then
    wake_one_thread_and_unlock (push [task_operation] (set_task true s))
  else s.

Definition stop_all_threads (s : t) : t := interrupt_task (set_stopped true s).

Definition stop (s : t) : t := stop_all_threads s.

Definition stopped (s : t) : bool := stopped_ s.

Definition restart (s : t) : t := set_stopped false s.

(** [shutdown]: the operations in the queue are destroyed, not completed. *)
Definition shutdown (s : t) : t :=
  mk (one_thread_ s) [] (outstanding_work_ s) (stopped_ s) true false
    (task_interrupted_ s) (interrupts s) (this_thread s).

(** * The count of work *)

Definition work_started (s : t) : t := set_outstanding (outstanding_work_ s + 1) s.

Definition work_finished (s : t) : t :=
  let s := set_outstanding (outstanding_work_ s - 1) s in
  if outstanding_work_ s =? 0 then stop s else s.

(** Only called by the thread that runs the scheduler. *)
Definition compensating_work_started (s : t) : outcome t :=
  i ← deref (this_thread s);
  Ret (set_thread (Some (mkThread (private_outstanding_work i + 1) (private_op_queue i))) s).

(** * Posting *)

Definition post_immediate_completion (op : operation) (is_continuation : bool) (s : t) : t :=
  match (if one_thread_ s || is_continuation then this_thread s else None) with
  | Some i =>
      set_thread (Some (mkThread (private_outstanding_work i + 1) (private_op_queue i ++ [op]))) s
  | None => wake_one_thread_and_unlock (push [op] (work_started s))
  end.

Definition post_immediate_completions (n : Z) (ops : list operation) (is_continuation : bool)
    (s : t) : t :=
  match (if one_thread_ s || is_continuation then this_thread s else None) with
  | Some i =>
      set_thread (Some (mkThread (private_outstanding_work i + n) (private_op_queue i ++ ops))) s
  | None => wake_one_thread_and_unlock (push ops (set_outstanding (outstanding_work_ s + n) s))
  end.

Definition post_deferred_completion (op : operation) (s : t) : t :=
  match (if one_thread_ s then this_thread s else None) with
  | Some i => set_thread (Some (mkThread (private_outstanding_work i) (private_op_queue i ++ [op]))) s
  | None => wake_one_thread_and_unlock (push [op] s)
  end.

Definition post_deferred_completions (ops : list operation) (s : t) : t :=
  if bool_decide (ops = []) then s
  else
    match (if one_thread_ s then this_thread s else None) with
    | Some i => set_thread (Some (mkThread (private_outstanding_work i) (private_op_queue i ++ ops))) s
    | None => wake_one_thread_and_unlock (push ops s)
    end.

Definition do_dispatch (op : operation) (s : t) : t :=
  wake_one_thread_and_unlock (push [op] (work_started s)).

(** * The end of a step *)

(** [task_cleanup::~task_cleanup]. *)
Definition task_cleanup (s : t) : outcome t :=
  i ← deref (this_thread s);
  let s :=
    if 0 <? private_outstanding_work i
    then set_outstanding (outstanding_work_ s + private_outstanding_work i) s else s in
  let s := set_interrupted true s in
  let s := push (private_op_queue i) s in
  let s := push [task_operation] s in
  Ret (set_thread (Some (mkThread 0 [])) s).

(** [work_cleanup::~work_cleanup]. *)
Definition work_cleanup (s : t) : outcome t :=
  i ← deref (this_thread s);
  let s :=
    if 1 <? private_outstanding_work i
    then set_outstanding (outstanding_work_ s + (private_outstanding_work i - 1)) s
    else if private_outstanding_work i <? 1 then work_finished s else s in
  let s := if bool_decide (private_op_queue i = []) then s else push (private_op_queue i) s in
  Ret (set_thread (Some (mkThread 0 [])) s).

(** * Running *)

(** What the loop of [do_run_one] does next: it returns as the scheduler is
    stopped, waits for another thread, runs the task, polling or not, or completes
    an operation. *)
Inductive next_step :=
  | returns_stopped
  | waits
  | runs_task (polling : bool) (s : t)
  | completes (op : operation) (s : t).

Definition do_run_one (s : t) : next_step :=
  if negb (stopped_ s) then
    match op_queue_ s with
    | [] => waits
    | o :: rest =>
        let s := set_queue rest s in
        let more_handlers := negb (bool_decide (rest = [])) in
        match o with
        | task_operation => runs_task more_handlers (set_interrupted more_handlers s)
        | _ =>
            completes o
              (if more_handlers && negb (one_thread_ s) then wake_one_thread_and_unlock s else s)
        end
    end
  else returns_stopped.

(** The end of [do_poll_one] and [do_wait_one]: the first operation is completed,
    unless the queue is empty or the task comes first. *)
Definition take_first (s : t) : option (operation * t) :=
  match op_queue_ s with
  | [] | task_operation :: _ => None
  | o :: rest =>
      let s := set_queue rest s in
      let more_handlers := negb (bool_decide (rest = [])) in
      Some (o, if more_handlers && negb (one_thread_ s) then wake_one_thread_and_unlock s else s)
  end.

(** The start of [run]: whether there is any work.  Without work the scheduler is
    stopped. *)
Definition run_enter (s : t) : bool * t :=
  if outstanding_work_ s =? 0 then (false, stop s)
  else (true, set_thread (Some (mkThread 0 [])) s).

End scheduler.
