(* ===== verification/EpollReactor.v ===== *)
(** [asio/detail/epoll_reactor.hpp], [impl/epoll_reactor.ipp], [impl/epoll_reactor.hpp],
    [object_pool.hpp] and [impl/timer_queue_set.ipp]: the reactor, which performs the
    operations waiting on descriptors when the system says they are ready, and
    those waiting on timers when they are due.

    The system is a parameter ([Kernel]): what performing an operation does, and
    the answers of [epoll] and the clock.  A descriptor's state is reached by a
    pointer into the pool of states, which never returns its memory; the identity
    of an operation is the pointer to it. *)

From S2P Require Import Prelude.
From S2P Require Import AsioError.
From S2P Require Import SocketOps.
From S2P Require Import SocketStream.
From S2P Require Import TimerQueue.
From S2P Require Import Scheduler.

(** * The system *)

Inductive epoll_op := EPOLL_CTL_ADD | EPOLL_CTL_MOD | EPOLL_CTL_DEL.

Definition EPOLLIN : Z := 1.
Definition EPOLLPRI : Z := 2.
Definition EPOLLOUT : Z := 4.
Definition EPOLLERR : Z := 8.
Definition EPOLLHUP : Z := 16.
Definition EPOLLET : Z := 2 ^ 31.
Definition EPERM : Z := 1.

(** What an event's [data.ptr] points to. *)
Inductive event_source :=
  | at_interrupter
  | at_timer_fd
  | at_descriptor (p : positive).

(** Performing an operation, [epoll_ctl] ([errno] when it fails), [epoll_wait],
    closing a descriptor, [timerfd_settime] and the clock. *)
Class Kernel (W : Type) := {
  perform : positive -> reactor_op.t -> W -> reactor_op.status * reactor_op.t * W;
  epoll_ctl : epoll_op -> Z -> Z -> event_source -> W -> option Z * W;
  epoll_wait : Z -> W -> list (event_source * Z) * W;
  close_fd : Z -> W -> W;
  timerfd_settime : bool -> Z -> Z -> W -> W;
  clock_now : W -> Z * W
}.

(** * Descriptors *)

Inductive op_types := read_op | write_op | except_op.

#[global] Instance op_types_eq_dec : EqDecision op_types.
Proof. solve_decision. Defined.

(** [connect_op] has the value of [write_op]. *)
Definition connect_op : op_types := write_op.

(** An array indexed by [op_types]. *)
Record per_op (A : Type) := mkPerOp {
  for_read : A;
  for_write : A;
  for_except : A
}.
Arguments mkPerOp {A}.
Arguments for_read {A}.
Arguments for_write {A}.
Arguments for_except {A}.

Definition op_at {A} (t : op_types) (x : per_op A) : A :=
  match t with
  | read_op => for_read x
  | write_op => for_write x
  | except_op => for_except x
  end.

Definition op_set {A} (t : op_types) (a : A) (x : per_op A) : per_op A :=
  match t with
  | read_op => mkPerOp a (for_write x) (for_except x)
  | write_op => mkPerOp (for_read x) a (for_except x)
  | except_op => mkPerOp (for_read x) (for_write x) a
  end.

Definition all_ops {A} (a : A) : per_op A := mkPerOp a a a.

(** A [reactor_op]: its identity, its cancellation key, and its result. *)
Record queued_op := mkOp {
  op_ptr : positive;
  op_key : positive;
  op_result : reactor_op.t
}.

Definition set_ec (ec : error_code) (op : queued_op) : queued_op :=
  mkOp (op_ptr op) (op_key op) (reactor_op.mk ec (reactor_op.bytes_transferred_ (op_result op))).

Definition set_result (r : reactor_op.t) (op : queued_op) : queued_op :=
  mkOp (op_ptr op) (op_key op) r.

(** The operation as the scheduler sees it. *)
Definition completion_of (op : queued_op) : completion :=
  mkCompletion (op_ptr op) (reactor_op.ec_ (op_result op))
    (reactor_op.bytes_transferred_ (op_result op)).

Definition completed (op : queued_op) : operation := user_op (completion_of op).

Module descriptor_state.

Record t := mk {
  descriptor_ : Z;
  registered_events_ : Z;
  op_queue_ : per_op (list queued_op);
  try_speculative_ : per_op bool;
  shutdown_ : bool;
  task_result_ : Z
}.

(** A state that was never registered; its members are set by the registration. *)
Definition new : t := mk (-1) 0 (all_ops []) (all_ops false) false 0.

Definition set_events (e : Z) (d : t) : t :=
  mk (descriptor_ d) e (op_queue_ d) (try_speculative_ d) (shutdown_ d) (task_result_ d).
Definition set_queue (k : op_types) (q : list queued_op) (d : t) : t :=
  mk (descriptor_ d) (registered_events_ d) (op_set k q (op_queue_ d)) (try_speculative_ d)
    (shutdown_ d) (task_result_ d).
Definition set_try (k : op_types) (b : bool) (d : t) : t :=
  mk (descriptor_ d) (registered_events_ d) (op_queue_ d) (op_set k b (try_speculative_ d))
    (shutdown_ d) (task_result_ d).

Definition set_ready_events (events : Z) (d : t) : t :=
  mk (descriptor_ d) (registered_events_ d) (op_queue_ d) (try_speculative_ d) (shutdown_ d) events.
Definition add_ready_events (events : Z) (d : t) : t :=
  set_ready_events (Z.lor (task_result_ d) events) d.

(** The members that the registration sets. *)
Definition registered (descriptor : Z) (events : Z) (d : t) : t :=
  mk descriptor events (op_queue_ d) (all_ops true) false (task_result_ d).

(** The members that the deregistration sets; the queues are emptied. *)
Definition deregistered (d : t) : t :=
  mk (-1) (registered_events_ d) (all_ops []) (try_speculative_ d) true (task_result_ d).

Definition queue (k : op_types) (d : t) : list queued_op := op_at k (op_queue_ d).

(** All the operations of the descriptor, in the order the code visits them. *)
Definition all_queued (d : t) : list queued_op :=
  queue read_op d ++ queue write_op d ++ queue except_op d.

End descriptor_state.

(** * The reactor *)

Module reactor.

Record t := mk {
  interrupter_ : Z;
  timer_fd_ : Z;
  timer_queues_ : list (positive * timer_queue);
  shutdown_ : bool;
  descriptors : gmap positive descriptor_state.t;
  live_list_ : list positive;
  free_list_ : list positive
}.

Definition set_timers (q : list (positive * timer_queue)) (r : t) : t :=
  mk (interrupter_ r) (timer_fd_ r) q (shutdown_ r) (descriptors r) (live_list_ r) (free_list_ r).
Definition set_shutdown (b : bool) (r : t) : t :=
  mk (interrupter_ r) (timer_fd_ r) (timer_queues_ r) b (descriptors r) (live_list_ r) (free_list_ r).
Definition set_descriptors (m : gmap positive descriptor_state.t) (r : t) : t :=
  mk (interrupter_ r) (timer_fd_ r) (timer_queues_ r) (shutdown_ r) m (live_list_ r) (free_list_ r).
Definition set_pool (live free : list positive) (r : t) : t :=
  mk (interrupter_ r) (timer_fd_ r) (timer_queues_ r) (shutdown_ r) (descriptors r) live free.

Definition set_descriptor (p : positive) (d : descriptor_state.t) (r : t) : t :=
  set_descriptors (<[p := d]> (descriptors r)) r.

(** [object_pool::alloc]: a free object, or a new one. *)
Definition alloc (r : t) : positive * t :=
  match free_list_ r with
  | p :: free => (p, set_pool (p :: live_list_ r) free r)
  | [] =>
      let p := fresh (dom (descriptors r)) in
      (p, set_pool (p :: live_list_ r) [] (set_descriptor p descriptor_state.new r))
  end.

(** [object_pool::free], of a live object. *)
Definition free (p : positive) (r : t) : outcome t :=
  if decide (p ∈ live_list_ r) then
    Ret (set_pool (filter (fun q => q <> p) (live_list_ r)) (p :: free_list_ r) r)
  else Undef.

End reactor.

Record context (W : Type) := mkContext {
  sched : scheduler.t;
  react : reactor.t;
  world : W
}.
Arguments mkContext {W}.
Arguments sched {W}.
Arguments react {W}.
Arguments world {W}.

Definition set_sched {W} (s : scheduler.t) (c : context W) : context W :=
  mkContext s (react c) (world c).
Definition set_react {W} (r : reactor.t) (c : context W) : context W :=
  mkContext (sched c) r (world c).
Definition set_world {W} (w : W) (c : context W) : context W :=
  mkContext (sched c) (react c) w.

(** [*descriptor_data], and an assignment to it. *)
Definition load_descriptor {W} (p : positive) (c : context W) : outcome descriptor_state.t :=
  deref (reactor.descriptors (react c) !! p).

Definition store_descriptor {W} (p : positive) (d : descriptor_state.t) (c : context W) :
    context W :=
  set_react (reactor.set_descriptor p d (react c)) c.

Section Reactor.
Context {W : Type} `{Kernel W}.

Definition ctl (op : epoll_op) (fd events : Z) (source : event_source) (c : context W) :
    option Z * context W :=
  let '(r, w) := epoll_ctl op fd events source (world c) in (r, set_world w c).

(** [interrupt]. *)
Definition interrupt (c : context W) : context W :=
  snd (ctl EPOLL_CTL_MOD (reactor.interrupter_ (react c)) (Z.lor EPOLLIN (Z.lor EPOLLERR EPOLLET))
    at_interrupter c).

Definition post_immediate_completion (op : operation) (is_continuation : bool) (c : context W) :
    context W :=
  set_sched (scheduler.post_immediate_completion op is_continuation (sched c)) c.

Definition post_deferred_completions (ops : list operation) (c : context W) : context W :=
  set_sched (scheduler.post_deferred_completions ops (sched c)) c.

Definition work_started (c : context W) : context W :=
  set_sched (scheduler.work_started (sched c)) c.

(** ** Registration *)

Definition all_events : Z :=
  Z.lor EPOLLIN (Z.lor EPOLLERR (Z.lor EPOLLHUP (Z.lor EPOLLPRI EPOLLET))).

(** The error and the descriptor's state. *)
Definition register_descriptor (descriptor : Z) (c : context W) :
    outcome (Z * positive * context W) :=
  let '(p, r) := reactor.alloc (react c) in
  let c := set_react r c in
  d ← load_descriptor p c;
  let d := descriptor_state.registered descriptor all_events d in
  let c := store_descriptor p d c in
  let '(result, c) := ctl EPOLL_CTL_ADD descriptor all_events (at_descriptor p) c in
  match result with
  | Some errno =>
      if errno =? EPERM then Ret (0, p, store_descriptor p (descriptor_state.set_events 0 d) c)
      else Ret (errno, p, c)
  | None => Ret (0, p, c)
  end.

(** The descriptor starts with an operation. *)
Definition register_internal_descriptor (op_type : op_types) (descriptor : Z) (op : queued_op)
    (c : context W) : outcome (Z * positive * context W) :=
  let '(p, r) := reactor.alloc (react c) in
  let c := set_react r c in
  d ← load_descriptor p c;
  let d := descriptor_state.set_queue op_type (descriptor_state.queue op_type d ++ [op]) d in
  let d := descriptor_state.registered descriptor all_events d in
  let c := store_descriptor p d c in
  let '(result, c) := ctl EPOLL_CTL_ADD descriptor all_events (at_descriptor p) c in
  match result with
  | Some errno => Ret (errno, p, c)
  | None => Ret (0, p, c)
  end.

(** ** Operations *)

(** The operation joins the queue of its type and counts as work. *)
Definition enqueue_op (op_type : op_types) (p : positive) (op : queued_op) (c : context W) :
    outcome (context W) :=
  d ← load_descriptor p c;
  let d := descriptor_state.set_queue op_type (descriptor_state.queue op_type d ++ [op]) d in
  Ret (work_started (store_descriptor p d c)).

(** The speculative attempt: whether the operation was finished by it. *)
Definition try_perform (op_type : op_types) (p : positive) (d : descriptor_state.t)
    (op : queued_op) (c : context W) : bool * queued_op * descriptor_state.t * context W :=
  if op_at op_type (descriptor_state.try_speculative_ d) then
    let '(status, r, w) := perform (op_ptr op) (op_result op) (world c) in
    let op := set_result r op in
    let c := set_world w c in
    match status with
    | reactor_op.not_done => (false, op, d, c)
    | reactor_op.done => (true, op, d, c)
    | reactor_op.done_and_exhausted =>
        let d :=
          if negb (descriptor_state.registered_events_ d =? 0)
          then descriptor_state.set_try op_type false d else d in
        (true, op, d, store_descriptor p d c)
    end
  else (false, op, d, c).

(** [on_immediate]. *)
Definition complete_now (op : queued_op) (is_continuation : bool) (c : context W) :
    outcome (context W) :=
  Ret (post_immediate_completion (completed op) is_continuation c).

(** The first operation that waits to write: [epoll] is asked to say when it can. *)
Definition enqueue_first_write (descriptor : Z) (p : positive) (d : descriptor_state.t)
    (op : queued_op) (is_continuation : bool) (c : context W) : outcome (context W) :=
  let events := Z.lor (descriptor_state.registered_events_ d) EPOLLOUT in
  let '(result, c) := ctl EPOLL_CTL_MOD descriptor events (at_descriptor p) c in
  match result with
  | None =>
      let d := descriptor_state.set_events
                 (Z.lor (descriptor_state.registered_events_ d) events) d in
      enqueue_op write_op p op (store_descriptor p d c)
  | Some errno => complete_now (set_ec (mk_error_code errno system_category) op) is_continuation c
  end.

(** The operation is attempted, and waits if it is not finished. *)
Definition start_speculative (op_type : op_types) (descriptor : Z) (p : positive)
    (d : descriptor_state.t) (op : queued_op) (is_continuation : bool) (c : context W) :
    outcome (context W) :=
  let '(finished, op, d, c) := try_perform op_type p d op c in
  if (finished : bool) then complete_now op is_continuation c
  else if descriptor_state.registered_events_ d =? 0 then
    complete_now (set_ec (make_error_code error.operation_not_supported) op) is_continuation c
  else if bool_decide (op_type = write_op) &&
          (Z.land (descriptor_state.registered_events_ d) EPOLLOUT =? 0) then
    enqueue_first_write descriptor p d op is_continuation c
  else enqueue_op op_type p op c.

(** The operation waits; [epoll] reports the descriptor again if it is ready. *)
Definition start_waiting (op_type : op_types) (descriptor : Z) (p : positive)
    (d : descriptor_state.t) (op : queued_op) (is_continuation : bool) (c : context W) :
    outcome (context W) :=
  if descriptor_state.registered_events_ d =? 0 then
    complete_now (set_ec (make_error_code error.operation_not_supported) op) is_continuation c
  else
    let d :=
      if bool_decide (op_type = write_op) then
        descriptor_state.set_events (Z.lor (descriptor_state.registered_events_ d) EPOLLOUT) d
      else d in
    let c := store_descriptor p d c in
    let '(_, c) :=
      ctl EPOLL_CTL_MOD descriptor (descriptor_state.registered_events_ d) (at_descriptor p) c in
    enqueue_op op_type p op c.

Definition start_op (op_type : op_types) (descriptor : Z) (descriptor_data : option positive)
    (op : queued_op) (is_continuation allow_speculative : bool) (c : context W) :
    outcome (context W) :=
  match descriptor_data with
  | None => complete_now (set_ec bad_descriptor op) is_continuation c
  | Some p =>
      d ← load_descriptor p c;
      if descriptor_state.shutdown_ d then complete_now op is_continuation c
      else if bool_decide (descriptor_state.queue op_type d = []) then
        if allow_speculative &&
           (negb (bool_decide (op_type = read_op)) ||
            bool_decide (descriptor_state.queue except_op d = [])) then
          start_speculative op_type descriptor p d op is_continuation c
        else start_waiting op_type descriptor p d op is_continuation c
      else enqueue_op op_type p op c
  end.

(** An operation ends with [operation_aborted]. *)
Definition aborted (op : queued_op) : operation := completed (set_ec operation_aborted op).

Definition cancel_ops (descriptor_data : option positive) (c : context W) : outcome (context W) :=
  match descriptor_data with
  | None => Ret c
  | Some p =>
      d ← load_descriptor p c;
      let ops := aborted <$> descriptor_state.all_queued d in
      let d := descriptor_state.set_queue read_op []
        (descriptor_state.set_queue write_op []
        (descriptor_state.set_queue except_op [] d)) in
      Ret (post_deferred_completions ops (store_descriptor p d c))
  end.

Definition cancel_ops_by_key (descriptor_data : option positive) (op_type : op_types)
    (cancellation_key : positive) (c : context W) : outcome (context W) :=
  match descriptor_data with
  | None => Ret c
  | Some p =>
      d ← load_descriptor p c;
      let q := descriptor_state.queue op_type d in
      let ops := aborted <$> filter (fun op => op_key op = cancellation_key) q in
      let other_ops := filter (fun op => op_key op <> cancellation_key) q in
      let d := descriptor_state.set_queue op_type other_ops d in
      Ret (post_deferred_completions ops (store_descriptor p d c))
  end.

(** The [descriptor_data] left in the caller, which [cleanup_descriptor_data] takes. *)
Definition deregister_descriptor (descriptor : Z) (descriptor_data : option positive)
    (closing : bool) (c : context W) : outcome (option positive * context W) :=
  match descriptor_data with
  | None => Ret (None, c)
  | Some p =>
      d ← load_descriptor p c;
      if negb (descriptor_state.shutdown_ d) then
        let c :=
          if closing then c
          else if negb (descriptor_state.registered_events_ d =? 0)
          then snd (ctl EPOLL_CTL_DEL descriptor 0 (at_descriptor p) c) else c in
        let ops := aborted <$> descriptor_state.all_queued d in
        let c := store_descriptor p (descriptor_state.deregistered d) c in
        Ret (Some p, post_deferred_completions ops c)
      else Ret (None, c)
  end.

(** The operations are destroyed, not completed. *)
Definition deregister_internal_descriptor (descriptor : Z) (descriptor_data : option positive)
    (c : context W) : outcome (option positive * context W) :=
  match descriptor_data with
  | None => Ret (None, c)
  | Some p =>
      d ← load_descriptor p c;
      if negb (descriptor_state.shutdown_ d) then
        let c := snd (ctl EPOLL_CTL_DEL descriptor 0 (at_descriptor p) c) in
        Ret (Some p, store_descriptor p (descriptor_state.deregistered d) c)
      else Ret (None, c)
  end.

Definition cleanup_descriptor_data (descriptor_data : option positive) (c : context W) :
    outcome (context W) :=
  match descriptor_data with
  | None => Ret c
  | Some p => r ← reactor.free p (react c); Ret (set_react r c)
  end.

(** ** Performing *)

(** Operations are performed in order until one is not done, or has exhausted the
    descriptor: those left, those finished, and whether it was exhausted. *)
Fixpoint perform_queue (q : list queued_op) (w : W) :
    list queued_op * list queued_op * bool * W :=
  match q with
  | [] => ([], [], false, w)
  | op :: q' =>
      let '(status, r, w) := perform (op_ptr op) (op_result op) w in
      let op := set_result r op in
      match status with
      | reactor_op.not_done => (op :: q', [], false, w)
      | reactor_op.done =>
          let '(remaining, finished, exhausted, w) := perform_queue q' w in
          (remaining, op :: finished, exhausted, w)
      | reactor_op.done_and_exhausted => (q', [op], true, w)
      end
  end.

Definition flag (op_type : op_types) : Z :=
  match op_type with
  | read_op => EPOLLIN
  | write_op => EPOLLOUT
  | except_op => EPOLLPRI
  end.

(** The events of one type of operation. *)
Definition perform_type (op_type : op_types) (events : Z) (d : descriptor_state.t) (w : W) :
    descriptor_state.t * list queued_op * W :=
  if negb (Z.land events (Z.lor (flag op_type) (Z.lor EPOLLERR EPOLLHUP)) =? 0) then
    let d := descriptor_state.set_try op_type true d in
    let '(remaining, finished, exhausted, w) := perform_queue (descriptor_state.queue op_type d) w in
    let d := descriptor_state.set_queue op_type remaining d in
    let d := if (exhausted : bool) then descriptor_state.set_try op_type false d else d in
    (d, finished, w)
  else (d, [], w).

(** [perform_io] and the destructor of its guard: the operation to complete now. *)
Definition perform_io (p : positive) (events : Z) (c : context W) :
    outcome (option queued_op * context W) :=
  d ← load_descriptor p c;
  let '(d, ops2, w) := perform_type except_op events d (world c) in
  let '(d, ops1, w) := perform_type write_op events d w in
  let '(d, ops0, w) := perform_type read_op events d w in
  let c := store_descriptor p d (set_world w c) in
  match ops2 ++ ops1 ++ ops0 with
  | first :: rest => Ret (Some first, post_deferred_completions (completed <$> rest) c)
  | [] =>
      s ← scheduler.compensating_work_started (sched c);
      Ret (None, set_sched s c)
  end.

(** ** Timers *)

(** [timer_queue_set]: the queues in the order of their list. *)
Fixpoint wait_duration_usec_all (now max_duration : Z) (qs : list (positive * timer_queue)) :
    outcome Z :=
  match qs with
  | [] => Ret max_duration
  | (_, q) :: qs =>
      min_duration ← wait_duration_usec now max_duration q;
      wait_duration_usec_all now min_duration qs
  end.

Fixpoint wait_duration_msec_all (now max_duration : Z) (qs : list (positive * timer_queue)) :
    outcome Z :=
  match qs with
  | [] => Ret max_duration
  | (_, q) :: qs =>
      min_duration ← wait_duration_msec now max_duration q;
      wait_duration_msec_all now min_duration qs
  end.

Fixpoint get_ready_timers_all (now : Z) (ops : completions) (qs : list (positive * timer_queue)) :
    outcome (completions * list (positive * timer_queue)) :=
  match qs with
  | [] => Ret (ops, [])
  | (k, q) :: qs =>
      '(ops, q) ← get_ready_timers now ops q;
      '(ops, qs) ← get_ready_timers_all now ops qs;
      Ret (ops, (k, q) :: qs)
  end.

(** A wait operation as the scheduler sees it. *)
Definition expired (op : wait_op * error_code) : operation :=
  user_op (mkCompletion (op_id op.1) op.2 0).

Definition read_clock (c : context W) : Z * context W :=
  let '(now, w) := clock_now (world c) in (now, set_world w c).

(** [get_timeout(itimerspec&)] and [timerfd_settime]. *)
Definition arm_timer_fd (c : context W) : outcome (context W) :=
  let '(now, c) := read_clock c in
  usec ← wait_duration_usec_all now (5 * 60 * 1000 * 1000) (reactor.timer_queues_ (react c));
  let tv_sec := usec ÷ 1000000 in
  let tv_nsec := if usec =? 0 then 1 else Z.rem usec 1000000 * 1000 in
  Ret (set_world (timerfd_settime (usec =? 0) tv_sec tv_nsec (world c)) c).

Definition update_timeout (c : context W) : outcome (context W) :=
  if negb (reactor.timer_fd_ (react c) =? -1) then arm_timer_fd c
  else Ret (interrupt c).

(** [get_timeout(int)]. *)
Definition get_timeout (msec : Z) (c : context W) : outcome (Z * context W) :=
  let max_msec := 5 * 60 * 1000 in
  let '(now, c) := read_clock c in
  w ← wait_duration_msec_all now (if (msec <? 0) || (max_msec <? msec) then max_msec else msec)
    (reactor.timer_queues_ (react c));
  Ret (w, c).

(** The queue [k] of the set. *)
Definition timer_queue_at (k : positive) (r : reactor.t) : outcome timer_queue :=
  deref (snd <$> find (fun kq => (kq.1 =? k)%positive) (reactor.timer_queues_ r)).

Definition store_timer_queue (k : positive) (q : timer_queue) (r : reactor.t) : reactor.t :=
  reactor.set_timers
    ((fun kq => if (kq.1 =? k)%positive then (k, q) else kq) <$> reactor.timer_queues_ r) r.

Definition add_timer_queue (k : positive) (q : timer_queue) (c : context W) : context W :=
  set_react (reactor.set_timers ((k, q) :: reactor.timer_queues_ (react c)) (react c)) c.

Definition remove_timer_queue (k : positive) (c : context W) : context W :=
  set_react (reactor.set_timers
    (filter (fun kq => kq.1 <> k) (reactor.timer_queues_ (react c))) (react c)) c.

(** The times of the clocks are never infinite. *)
Definition is_positive_infinity (time : Z) : bool := false.

Definition schedule_timer (k : positive) (time : Z) (timer : timer_ptr) (op : wait_op)
    (c : context W) : outcome (context W) :=
  if reactor.shutdown_ (react c) then
    Ret (post_immediate_completion (expired (op, ec_success)) false c)
  else
    q ← timer_queue_at k (react c);
    '(earliest, q) ← enqueue_timer is_positive_infinity time timer op q;
    let c := work_started (set_react (store_timer_queue k q (react c)) c) in
    if (earliest : bool) then update_timeout c else Ret c.

Definition cancel_timer (k : positive) (timer : timer_ptr) (max_cancelled : Z) (c : context W) :
    outcome (Z * context W) :=
  q ← timer_queue_at k (react c);
  '(n, ops, q) ← TimerQueue.cancel_timer timer [] max_cancelled q;
  Ret (n, post_deferred_completions (expired <$> ops)
    (set_react (store_timer_queue k q (react c)) c)).

Definition cancel_timer_by_key (k : positive) (timer : timer_ptr) (key : positive)
    (c : context W) : outcome (context W) :=
  q ← timer_queue_at k (react c);
  '(ops, q) ← TimerQueue.cancel_timer_by_key timer [] key q;
  Ret (post_deferred_completions (expired <$> ops)
    (set_react (store_timer_queue k q (react c)) c)).

(** ** The reactor's task *)

(** [ops.is_enqueued(p)]: linked to a successor, in whatever queue, or last of [ops]. *)
Definition is_enqueued (p : positive) (ops : list operation) (c : context W) : bool :=
  let q := scheduler.op_queue_ (sched c) in
  bool_decide (descriptor_op p ∈ take (length q - 1) q) || bool_decide (descriptor_op p ∈ ops).

Definition has_timer_fd (c : context W) : bool := negb (reactor.timer_fd_ (react c) =? -1).

(** One of the events: the operations, and whether the timers are to be checked. *)
Definition dispatch_event (event : event_source * Z) (ops : list operation) (check_timers : bool)
    (c : context W) : outcome (list operation * bool * context W) :=
  match event.1 with
  | at_interrupter => Ret (ops, check_timers || negb (has_timer_fd c), c)
  | at_timer_fd => Ret (ops, true, c)
  | at_descriptor p =>
      d ← load_descriptor p c;
      if negb (is_enqueued p ops c) then
        Ret (ops ++ [descriptor_op p], check_timers,
          store_descriptor p (descriptor_state.set_ready_events event.2 d) c)
      else Ret (ops, check_timers, store_descriptor p (descriptor_state.add_ready_events event.2 d) c)
  end.

Fixpoint dispatch_events (events : list (event_source * Z)) (ops : list operation)
    (check_timers : bool) (c : context W) : outcome (list operation * bool * context W) :=
  match events with
  | [] => Ret (ops, check_timers, c)
  | event :: events =>
      '(ops, check_timers, c) ← dispatch_event event ops check_timers c;
      dispatch_events events ops check_timers c
  end.

(** The milliseconds [epoll_wait] may block. *)
Definition epoll_timeout (usec : Z) (c : context W) : outcome (Z * context W) :=
  if usec =? 0 then Ret (0, c)
  else
    let timeout := if usec <? 0 then -1 else (usec - 1) ÷ 1000 + 1 in
    if has_timer_fd c then Ret (timeout, c) else get_timeout timeout c.

(** What [run] does to check the timers. *)
Definition expire_timers (ops : list operation) (c : context W) : outcome (list operation * context W) :=
  let '(now, c) := read_clock c in
  '(ready, qs) ← get_ready_timers_all now [] (reactor.timer_queues_ (react c));
  let c := set_react (reactor.set_timers qs (react c)) c in
  c ← (if has_timer_fd c then arm_timer_fd c else Ret c);
  Ret (ops ++ (expired <$> ready), c).

(** [run(usec, ops)]; at most 128 events are taken at once. *)
Definition run (usec : Z) (ops : list operation) (c : context W) :
    outcome (list operation * context W) :=
  '(timeout, c) ← epoll_timeout usec c;
  let '(events, w) := epoll_wait timeout (world c) in
  let c := set_world w c in
  '(ops, check_timers, c) ← dispatch_events (take 128 events) ops (negb (has_timer_fd c)) c;
  if (check_timers : bool) then expire_timers ops c else Ret (ops, c).

(** ** Start and end *)

(** [epoll_reactor::epoll_reactor], with the descriptors it was given. *)
Definition create (s : scheduler.t) (interrupter timer_fd : Z) (w : W) : context W :=
  let c := mkContext s (reactor.mk interrupter timer_fd [] false ∅ [] []) w in
  let '(_, c) :=
    ctl EPOLL_CTL_ADD interrupter (Z.lor EPOLLIN (Z.lor EPOLLERR EPOLLET)) at_interrupter c in
  if has_timer_fd c then
    snd (ctl EPOLL_CTL_ADD timer_fd (Z.lor EPOLLIN EPOLLERR) at_timer_fd c)
  else c.

Fixpoint get_all_timers_all (qs : list (positive * timer_queue)) :
    outcome (list (positive * timer_queue)) :=
  match qs with
  | [] => Ret []
  | (k, q) :: qs =>
      '(_, q) ← get_all_timers (fun _ => ec_success) [] q;
      qs ← get_all_timers_all qs;
      Ret ((k, q) :: qs)
  end.

(** [shutdown]: every live descriptor is shut down and freed, and its operations,
    with those of the timers, are destroyed. *)
Definition shutdown (c : context W) : outcome (context W) :=
  let r := react c in
  let close (d : descriptor_state.t) : descriptor_state.t :=
    descriptor_state.mk (descriptor_state.descriptor_ d) (descriptor_state.registered_events_ d)
      (all_ops []) (descriptor_state.try_speculative_ d) true (descriptor_state.task_result_ d) in
  let ds := map_imap (fun p d => Some (if decide (p ∈ reactor.live_list_ r) then close d else d))
    (reactor.descriptors r) in
  let r := reactor.set_shutdown true (reactor.set_descriptors ds r) in
  let r := reactor.set_pool [] (reverse (reactor.live_list_ r) ++ reactor.free_list_ r) r in
  qs ← get_all_timers_all (reactor.timer_queues_ r);
  Ret (set_react (reactor.set_timers qs r) c).

End Reactor.
