(* ===== verification/IoContext.v ===== *)
(** [asio/impl/io_context.ipp], the loop of [scheduler::run] with the reactor as its
    task, and the handlers of the program, which may call the reactor and the
    scheduler as they like while they run.

    [loop_once] is one round of the loop of [do_run_one]; [poll_once] and [wait_once]
    are [do_poll_one] and [do_wait_one].  No handler runs the scheduler itself, so
    the loops are not nested.  A run is a sequence of rounds ([io_step]), in which the
    history keeps the operations that were started and those that were completed. *)

From S2P Require Import Prelude.
From S2P Require Import AsioError.
From S2P Require Import TimerQueue.
From S2P Require Import Scheduler.
From S2P Require Import EpollReactor.

(** * Calls *)

(** What the code of a handler may call. *)
Inductive call :=
  | call_register (descriptor : Z)
  | call_start_op (op_type : op_types) (descriptor : Z) (data : option positive) (op : queued_op)
      (is_continuation allow_speculative : bool)
  | call_cancel_ops (data : option positive)
  | call_cancel_ops_by_key (data : option positive) (op_type : op_types) (key : positive)
  | call_close (descriptor : Z) (data : option positive) (closing : bool)
  | call_release (descriptor : Z) (data : option positive)
  | call_post (op : completion) (is_continuation : bool)
  | call_schedule_timer (k : positive) (time : Z) (timer : timer_ptr) (op : wait_op)
  | call_cancel_timer (k : positive) (timer : timer_ptr) (max_cancelled : Z)
  | call_cancel_timer_by_key (k : positive) (timer : timer_ptr) (key : positive)
  | call_stop.

(** The operations a call starts. *)
Definition call_starts (x : call) : list positive :=
  match x with
  | call_start_op _ _ _ op _ _ => [op_ptr op]
  | call_post op _ => [co_id op]
  | call_schedule_timer _ _ _ op => [op_id op]
  | _ => []
  end.

Definition starts (script : list call) : list positive := concat (call_starts <$> script).

Section IoContext.
Context {W : Type} `{Kernel W}.

(** Closing a socket takes its descriptor from the reactor, closes it, then gives its
    state back. *)
Definition close_descriptor (descriptor : Z) (data : option positive) (closing : bool)
    (c : context W) : outcome (context W) :=
  '(data, c) ← deregister_descriptor descriptor data closing c;
  let c := set_world (close_fd descriptor (world c)) c in
  cleanup_descriptor_data data c.

(** Releasing it leaves it open. *)
Definition release_descriptor (descriptor : Z) (data : option positive) (c : context W) :
    outcome (context W) :=
  '(data, c) ← deregister_descriptor descriptor data false c;
  cleanup_descriptor_data data c.

Definition run_call (x : call) (c : context W) : outcome (context W) :=
  match x with
  | call_register descriptor => snd <$> register_descriptor descriptor c
  | call_start_op op_type descriptor data op is_continuation allow_speculative =>
      start_op op_type descriptor data op is_continuation allow_speculative c
  | call_cancel_ops data => cancel_ops data c
  | call_cancel_ops_by_key data op_type key => cancel_ops_by_key data op_type key c
  | call_close descriptor data closing => close_descriptor descriptor data closing c
  | call_release descriptor data => release_descriptor descriptor data c
  | call_post op is_continuation => Ret (post_immediate_completion (user_op op) is_continuation c)
  | call_schedule_timer k time timer op => schedule_timer k time timer op c
  | call_cancel_timer k timer max_cancelled => snd <$> cancel_timer k timer max_cancelled c
  | call_cancel_timer_by_key k timer key => cancel_timer_by_key k timer key c
  | call_stop => Ret (set_sched (scheduler.stop (sched c)) c)
  end.

Fixpoint run_calls (script : list call) (c : context W) : outcome (context W) :=
  match script with
  | [] => Ret c
  | x :: script => c ← run_call x c; run_calls script c
  end.

(** * The loop *)

(** [operation::complete], up to the handler: the state of a descriptor performs its
    operations and completes the first that is done.  The operation completed, if
    any. *)
Definition ready (o : operation) (c : context W) : outcome (option completion * context W) :=
  match o with
  | task_operation => Undef
  | user_op cp => Ret (Some cp, c)
  | descriptor_op p =>
      d ← load_descriptor p c;
      '(op, c) ← perform_io p (descriptor_state.task_result_ d) c;
      Ret (option_map completion_of op, c)
  end.

(** Its handler, and what the handler calls. *)
Definition complete (o : operation) (handler : completion -> list call) (c : context W) :
    outcome (option completion * context W) :=
  '(cp, c) ← ready o c;
  match cp with
  | None => Ret (None, c)
  | Some cp => c ← run_calls (handler cp) c; Ret (Some cp, c)
  end.

(** The operation is completed and its work is taken off the count. *)
Definition finish (o : operation) (s : scheduler.t) (handler : completion -> list call)
    (c : context W) : outcome (option completion * context W) :=
  '(cp, c) ← complete o handler (set_sched s c);
  s ← scheduler.work_cleanup (sched c);
  Ret (cp, set_sched s c).

(** The task runs with the private queue of the thread for its operations. *)
Definition run_task (usec : Z) (c : context W) : outcome (context W) :=
  i ← deref (scheduler.this_thread (sched c));
  '(ops, c) ← run usec (private_op_queue i) c;
  let s := scheduler.set_thread (Some (mkThread (private_outstanding_work i) ops)) (sched c) in
  s ← scheduler.task_cleanup s;
  Ret (set_sched s c).

(** [do_run_one] returns 0, waits for another thread, or goes on after one round,
    returning 1 if [returns_one]. *)
Inductive loop_result :=
  | loop_returns
  | loop_waits
  | loop_goes (returns_one : bool) (completed : option completion) (c : context W).

Definition loop_once (handler : completion -> list call) (c : context W) : outcome loop_result :=
  match scheduler.do_run_one (sched c) with
  | scheduler.returns_stopped => Ret loop_returns
  | scheduler.waits => Ret loop_waits
  | scheduler.runs_task polling s =>
      c ← run_task (if polling then 0 else -1) (set_sched s c);
      Ret (loop_goes false None c)
  | scheduler.completes o s =>
      '(cp, c) ← finish o s handler c;
      Ret (loop_goes true cp c)
  end.

(** The number of operations, as the loop of [run] counts it. *)
Definition counted (returns_one : bool) (n : Z) : Z :=
  if returns_one then Z.min (n + 1) (2 ^ 64 - 1) else n.

(** The loop of [run], or of [run_one] if [once], for as many rounds as there is fuel:
    whether it returns, what it returns, and what was completed. *)
Fixpoint run_loop (fuel : nat) (once : bool) (handler : completion -> list call) (c : context W) :
    outcome (bool * Z * list completion * context W) :=
  match fuel with
  | O => Ret (false, 0, [], c)
  | S fuel =>
      r ← loop_once handler c;
      match r with
      | loop_returns => Ret (true, 0, [], c)
      | loop_waits => Ret (false, 0, [], c)
      | loop_goes returns_one cp c =>
          if once && returns_one then Ret (true, 1, option_list cp, c)
          else
            '(over, n, cps, c) ← run_loop fuel once handler c;
            Ret (over, counted returns_one n, option_list cp ++ cps, c)
      end
  end.

(** ** Polling *)

(** The task if it comes first, without waiting. *)
Definition poll_task (c : context W) : outcome (context W) :=
  match scheduler.op_queue_ (sched c) with
  | task_operation :: rest => run_task 0 (set_sched (scheduler.set_queue rest (sched c)) c)
  | _ => Ret c
  end.

(** The task if it comes first, waiting up to [usec] if it is alone. *)
Definition wait_task (usec : Z) (c : context W) : outcome (context W) :=
  match scheduler.op_queue_ (sched c) with
  | task_operation :: rest =>
      let more_handlers := negb (bool_decide (rest = [])) in
      let s := scheduler.set_interrupted more_handlers (scheduler.set_queue rest (sched c)) in
      run_task (if more_handlers then 0 else usec) (set_sched s c)
  | _ => Ret c
  end.

(** The first operation, if there is one before the task: whether one was completed. *)
Definition finish_first (handler : completion -> list call) (c : context W) :
    outcome (bool * option completion * context W) :=
  match scheduler.take_first (sched c) with
  | None => Ret (false, None, c)
  | Some (o, s) => '(cp, c) ← finish o s handler c; Ret (true, cp, c)
  end.

(** [do_poll_one]. *)
Definition poll_once (handler : completion -> list call) (c : context W) :
    outcome (bool * option completion * context W) :=
  if scheduler.stopped_ (sched c) then Ret (false, None, c)
  else c ← poll_task c; finish_first handler c.

(** [do_wait_one]. *)
Definition wait_once (usec : Z) (handler : completion -> list call) (c : context W) :
    outcome (bool * option completion * context W) :=
  if scheduler.stopped_ (sched c) then Ret (false, None, c)
  else c ← wait_task usec c; finish_first handler c.

(** The loop of [poll]. *)
Fixpoint poll_loop (fuel : nat) (handler : completion -> list call) (c : context W) :
    outcome (bool * Z * list completion * context W) :=
  match fuel with
  | O => Ret (false, 0, [], c)
  | S fuel =>
      '(returns_one, cp, c) ← poll_once handler c;
      if (returns_one : bool) then
        '(over, n, cps, c) ← poll_loop fuel handler c;
        Ret (over, counted true n, option_list cp ++ cps, c)
      else Ret (true, 0, [], c)
  end.

(** ** Calls from outside *)

(** The end of [run] takes the thread's context off the call stack. *)
Definition leave (c : context W) : context W := set_sched (scheduler.set_thread None (sched c)) c.

(** The start and the end that [run], [run_one], [wait_one], [poll] and [poll_one]
    share: whether the loop returned, what it returned, and what it completed. *)
Definition entered (loop : context W -> outcome (bool * Z * list completion * context W))
    (c : context W) : outcome (bool * Z * list completion * context W) :=
  let '(goes, s) := scheduler.run_enter (sched c) in
  let c := set_sched s c in
  if (goes : bool) then
    '(over, n, cps, c) ← loop c;
    Ret (over, n, cps, if (over : bool) then leave c else c)
  else Ret (true, 0, [], c).

Definition one_step (r : outcome (bool * option completion * context W)) :
    outcome (bool * Z * list completion * context W) :=
  '(returns_one, cp, c) ← r;
  Ret (true, if (returns_one : bool) then 1 else 0, option_list cp, c).

Definition io_run (fuel : nat) (handler : completion -> list call) :=
  entered (run_loop fuel false handler).
Definition io_run_one (fuel : nat) (handler : completion -> list call) :=
  entered (run_loop fuel true handler).
Definition io_wait_one (usec : Z) (handler : completion -> list call) :=
  entered (fun c => one_step (wait_once usec handler c)).
Definition io_poll (fuel : nat) (handler : completion -> list call) :=
  entered (poll_loop fuel handler).
Definition io_poll_one (handler : completion -> list call) :=
  entered (fun c => one_step (poll_once handler c)).

(** A reactor with the timer queues [qs], and a scheduler with its task. *)
Definition begin (one_thread : bool) (interrupter timer_fd : Z)
    (qs : list (positive * timer_queue)) (w : W) : context W :=
  let c := create (scheduler.new one_thread) interrupter timer_fd w in
  let c := foldr (fun kq c => add_timer_queue kq.1 kq.2 c) c qs in
  set_sched (scheduler.init_task (sched c)) c.

(** * Histories *)

Record io := mkIo {
  io_context : context W;
  io_started : list positive;
  io_completed : list completion
}.

(** A round in which the handler that runs, if one does, calls [script]. *)
Inductive io_step (script : list call) : io -> io -> Prop :=
  | io_round c started done returns_one cp c' :
      loop_once (fun _ => script) c = Ret (loop_goes returns_one cp c') ->
      io_step script (mkIo c started done)
      (mkIo c' (started ++ match cp with Some _ => starts script | None => [] end)
      (done ++ option_list cp)).
End IoContext.
Arguments loop_result : clear implicits.
Arguments io : clear implicits.
