(* ===== verification/ReactorSpec.v ===== *)
(** The operations of the scheduler and the reactor, as what they do to the pending
    operations and to the count of work: whatever starts an operation counts it,
    and whatever moves or ends one leaves the count to the end of its handler. *)

From S2P Require Import Prelude.
From S2P Require Import AsioError.
From S2P Require Import SocketStream.
From S2P Require Import ChronoTimeTraits.
From S2P Require Import TimerQueue.
From S2P Require Import TimerQueueSpec.
From S2P Require Import TimerQueueRefines.
From S2P Require Import Scheduler.
From S2P Require Import EpollReactor.
From Stdlib Require Import Sorted.
From AAC_tactics Require Import AAC.
From AAC_tactics Require Instances.
Import Instances.Lists.

(** Permutations of concatenations, up to associativity and commutativity. *)
#[export] Instance permutation_lift A : AAC_lift (@Permutation A) (@Permutation A) :=
  Build_AAC_lift _ _.

(** * The scheduler *)

Definition user_id (o : operation) : option positive :=
  match o with
  | user_op c => Some (co_id c)
  | _ => None
  end.

(** The user operations of a queue. *)
Definition users (q : list operation) : list positive := omap user_id q.

Definition is_user (o : operation) : Prop := is_Some (user_id o).

Lemma users_app q k : users (q ++ k) = users q ++ users k.
Proof. apply omap_app. Qed.

Lemma users_completed ops : users (completed <$> ops) = op_ptr <$> ops.
Proof. induction ops; simpl; [done|]. by f_equal. Qed.

Lemma users_aborted ops : users (aborted <$> ops) = op_ptr <$> ops.
Proof. induction ops; simpl; [done|]. by f_equal. Qed.

Lemma users_expired (ops : completions) : users (expired <$> ops) = op_id <$> ops.*1.
Proof. induction ops; simpl; [done|]. by f_equal. Qed.

Lemma is_user_fmap {A} (f : A -> operation) l : (forall x, is_user (f x)) -> Forall is_user (f <$> l).
Proof. intros Hf. apply Forall_fmap, Forall_true. done. Qed.

Lemma is_user_completed op : is_user (completed op). Proof. by eexists. Qed.
Lemma is_user_aborted op : is_user (aborted op). Proof. by eexists. Qed.
Lemma is_user_expired op : is_user (expired op). Proof. by eexists. Qed.
#[export] Hint Resolve is_user_completed is_user_aborted is_user_expired is_user_fmap : horcrux.

Definition private_work (s : scheduler.t) : Z :=
  match scheduler.this_thread s with Some i => private_outstanding_work i | None => 0 end.

Definition private_queue (s : scheduler.t) : list operation :=
  match scheduler.this_thread s with Some i => private_op_queue i | None => [] end.

Definition sched_pending (s : scheduler.t) : list positive :=
  users (scheduler.op_queue_ s) ++ users (private_queue s).

(** The work counted, by the scheduler and by the thread. *)
Definition sched_work (s : scheduler.t) : Z := scheduler.outstanding_work_ s + private_work s.

(** The scheduler takes the user operations [ids] and counts [n] more; [stops] says
    it was stopped. *)
Record posted (ids : list positive) (n : Z) (stops : bool) (s s' : scheduler.t) : Prop := {
  po_pending : sched_pending s' ≡ₚ ids ++ sched_pending s;
  po_work : sched_work s' = sched_work s + n;
  po_outstanding : scheduler.outstanding_work_ s <= scheduler.outstanding_work_ s';
  po_private_work : private_work s <= private_work s';
  po_queue : exists k, Forall is_user k /\ scheduler.op_queue_ s' = scheduler.op_queue_ s ++ k;
  po_private : exists k, Forall is_user k /\ private_queue s' = private_queue s ++ k;
  po_thread : is_Some (scheduler.this_thread s') <-> is_Some (scheduler.this_thread s);
  po_task : scheduler.task_ s' = scheduler.task_ s;
  po_stopped : scheduler.stopped_ s' = stops || scheduler.stopped_ s
}.

Lemma posted_refl s : posted [] 0 false s s.
Proof.
  split; try done; try lia; try (by exists []; split; [constructor|rewrite app_nil_r]).
Qed.

Lemma posted_trans ids1 n1 b1 ids2 n2 b2 s1 s2 s3 :
  posted ids1 n1 b1 s1 s2 -> posted ids2 n2 b2 s2 s3 ->
  posted (ids2 ++ ids1) (n1 + n2) (b2 || b1) s1 s3.
Proof.
  intros [P1 W1 O1 V1 [k1 [Q1 E1]] [p1 [F1 G1]] T1 K1 S1] [P2 W2 O2 V2 [k2 [Q2 E2]] [p2 [F2 G2]] T2 K2 S2].
  split; [|lia|lia|lia| | |tauto|congruence|].
  - by rewrite P2, P1, app_assoc.
  - exists (k1 ++ k2). rewrite E2, E1, app_assoc. split; [by apply Forall_app|done].
  - exists (p1 ++ p2). rewrite G2, G1, app_assoc. split; [by apply Forall_app|done].
  - by rewrite S2, S1, orb_assoc.
Qed.

(** Waking another thread and interrupting the task change nothing of this. *)
Lemma interrupt_task_spec s :
  scheduler.op_queue_ (scheduler.interrupt_task s) = scheduler.op_queue_ s /\
  scheduler.outstanding_work_ (scheduler.interrupt_task s) = scheduler.outstanding_work_ s /\
  scheduler.this_thread (scheduler.interrupt_task s) = scheduler.this_thread s /\
  scheduler.task_ (scheduler.interrupt_task s) = scheduler.task_ s /\
  scheduler.stopped_ (scheduler.interrupt_task s) = scheduler.stopped_ s /\
  scheduler.one_thread_ (scheduler.interrupt_task s) = scheduler.one_thread_ s.
Proof. unfold scheduler.interrupt_task. by destruct (_ && _). Qed.

Lemma posted_intro ids n b s s' :
  scheduler.this_thread s' = scheduler.this_thread s ->
  (exists k, Forall is_user k /\ users k = ids /\
             scheduler.op_queue_ s' = scheduler.op_queue_ s ++ k) ->
  scheduler.outstanding_work_ s' = scheduler.outstanding_work_ s + n -> 0 <= n ->
  scheduler.task_ s' = scheduler.task_ s -> scheduler.stopped_ s' = b || scheduler.stopped_ s ->
  posted ids n b s s'.
Proof.
  intros T (k & Hk & <- & Q) O Hn K S.
  split; unfold sched_pending, sched_work, private_queue, private_work; rewrite ?T; try done; try lia.
  - rewrite Q, users_app. aac_reflexivity.
  - eauto.
  - exists []. split; [constructor|by rewrite app_nil_r].
Qed.

(** To the thread's private queue. *)
Lemma posted_private k n s i :
  scheduler.this_thread s = Some i -> Forall is_user k -> 0 <= n ->
  posted (users k) n false s
    (scheduler.set_thread
       (Some (mkThread (private_outstanding_work i + n) (private_op_queue i ++ k))) s).
Proof.
  intros Hi Hk Hn. split; unfold sched_pending, sched_work, private_queue, private_work; simpl;
    rewrite ?Hi; try done; try lia.
  - rewrite users_app. aac_reflexivity.
  - exists []. split; [constructor|by rewrite app_nil_r].
  - eauto.
Qed.

Lemma wake_posted s s' ids n :
  posted ids n false s s' -> posted ids n false s (scheduler.wake_one_thread_and_unlock s').
Proof.
  unfold scheduler.wake_one_thread_and_unlock.
  destruct (interrupt_task_spec s') as (E1 & E2 & E3 & E4 & E5 & _).
  intros [P1 P2 P3 P4 P5 P6 P7 P8 P9].
  split; unfold sched_pending, sched_work, private_queue, private_work in *;
    rewrite ?E1, ?E2, ?E3, ?E4, ?E5; done.
Qed.

Lemma post_immediate_posted o id is_continuation s :
  user_id o = Some id ->
  posted [id] 1 false s (scheduler.post_immediate_completion o is_continuation s).
Proof.
  intros Ho. assert (users [o] = [id]) as Hu by (simpl; by rewrite Ho).
  assert (Forall is_user [o]) as Hf by (apply Forall_singleton; by exists id).
  unfold scheduler.post_immediate_completion.
  destruct (if scheduler.one_thread_ s || is_continuation then _ else None) as [i|] eqn:E.
  - rewrite <- Hu. apply posted_private; [|done|lia]. by destruct (_ || _).
  - apply wake_posted. apply posted_intro; try done. by exists [o].
Qed.

Lemma post_deferred_posted ops s :
  Forall is_user ops -> posted (users ops) 0 false s (scheduler.post_deferred_completions ops s).
Proof.
  intros Hf. unfold scheduler.post_deferred_completions. case_bool_decide as E.
  { subst. apply posted_refl. }
  destruct (if scheduler.one_thread_ s then _ else None) as [i|] eqn:Ei.
  - pose proof (posted_private ops 0 s i) as Hp. rewrite Z.add_0_r in Hp. apply Hp; [|done|lia].
    by destruct (scheduler.one_thread_ s).
  - apply wake_posted. apply posted_intro; try done; [by exists ops|simpl; lia].
Qed.

Lemma work_started_posted s : posted [] 1 false s (scheduler.work_started s).
Proof.
  apply posted_intro; try done. exists []. split; [constructor|]. by rewrite app_nil_r.
Qed.

Lemma stop_posted s : posted [] 0 true s (scheduler.stop s).
Proof.
  unfold scheduler.stop, scheduler.stop_all_threads.
  destruct (interrupt_task_spec (scheduler.set_stopped true s)) as (E1 & E2 & E3 & E4 & E5 & _).
  apply posted_intro; rewrite ?E1, ?E2, ?E3, ?E4, ?E5; try done; simpl; try lia.
  exists []. split; [constructor|]. by rewrite app_nil_r.
Qed.

Lemma compensating_posted s :
  is_Some (scheduler.this_thread s) ->
  exists s', scheduler.compensating_work_started s = Ret s' /\ posted [] 1 false s s'.
Proof.
  intros [i Hi]. unfold scheduler.compensating_work_started. rewrite Hi. simpl.
  eexists. split; [done|]. pose proof (posted_private [] 1 s i Hi ltac:(constructor) ltac:(lia)) as Hp.
  by rewrite app_nil_r in Hp.
Qed.

(** * Timers *)

Lemma filter_split {A} (P : A -> Prop) `{!forall x, Decision (P x)} (l : list A) :
  filter P l ++ filter (fun x => ~ P x) l ≡ₚ l.
Proof. symmetry. induction l as [|x l IH]; [done|]. rewrite !filter_cons.
  destruct (decide (P x)), (decide (~ P x)); try done; rewrite IH at 1; [done|].
  by rewrite Permutation_middle.
Qed.

(** The operations of a queue's timers are those of its map. *)
Lemma represents_waiting q a :
  represents q a -> gather op_queue_ (memory_ q) ≡ₚ gather snd a.
Proof.
  intros (l & Hw & Hl & Ha). apply gather_agree. intros p.
  destruct (a !! p) as [[t ops]|] eqn:Hp.
  - destruct (linked_here q l p (tw_linked _ _ Hw)) as [d Hd]; [apply Hl; eauto|].
    rewrite Hd. simpl. by destruct (Ha _ _ _ _ Hd Hp).
  - destruct (memory_ q !! p) as [d|] eqn:Hd; [|done]. simpl.
    assert (p ∉ l) as Hpl by (rewrite Hl, Hp; by intros [? ?]).
    by destruct (lk_out _ _ (tw_linked _ _ Hw) _ _ Hd Hpl).
Qed.

Lemma gather_enqueued t p op (a : timer_map) :
  gather snd (<[p := enqueued t p op a]> a) ≡ₚ [op] ++ gather snd a.
Proof.
  rewrite gather_insert. unfold enqueued. destruct (a !! p) as [[t' ops]|] eqn:Hp.
  - rewrite (gather_delete snd a p _ Hp). cbn [snd]. aac_reflexivity.
  - by rewrite delete_id.
Qed.

Lemma gather_leave p t ops ops' (a : timer_map) gone :
  a !! p = Some (t, ops) -> gone ++ ops' ≡ₚ ops ->
  gone ++ gather snd (leave p t ops' a) ≡ₚ gather snd a.
Proof.
  intros Hp E. rewrite (gather_delete snd a p _ Hp). simpl. rewrite <- E.
  unfold leave. case_decide; subst; [by rewrite app_nil_r|].
  rewrite gather_insert. simpl. aac_reflexivity.
Qed.

Lemma cancelled_waiting a p n :
  cancelled_ops a p n ++ gather snd (cancelled_map a p n) ≡ₚ gather snd a.
Proof.
  unfold cancelled_ops, cancelled_map. destruct (a !! p) as [[t ops]|] eqn:Hp; [|done].
  apply (gather_leave _ _ ops); [done|]. unfold cancelled_part.
  rewrite length_take. destruct (Nat.min_spec (Z.to_nat n) (length ops)) as [[_ ->]|[Hle ->]].
  - by rewrite take_drop.
  - by rewrite drop_all, app_nil_r, take_ge.
Qed.

Lemma keyed_waiting a p key :
  keyed_ops a p key ++ gather snd (keyed_map a p key) ≡ₚ gather snd a.
Proof.
  unfold keyed_ops, keyed_map. destruct (a !! p) as [[t ops]|] eqn:Hp; [|done].
  apply (gather_leave _ _ ops); [done|]. apply filter_split.
Qed.

Lemma due_inv now a e due :
  due_timers now a (e :: due) ->
  exists ops, a !! timer_ e = Some (Some (time_ e), ops) /\ time_ e <= now /\
    earliest a (time_ e) /\ due_timers now (delete (timer_ e) a) due.
Proof.
  intros (Hn & Hs & Hd). destruct (proj1 (Hd e)) as [[ops Hops] Hle]; [set_solver +|].
  exists ops. split; [done|]. split; [done|]. apply NoDup_cons in Hn as [He Hn].
  apply StronglySorted_inv in Hs as [Hs Hf]. rewrite Forall_forall in Hf. split.
  - intros k x o Hk. destruct (Z.le_gt_cases x now) as [Hx|Hx]; [|lia].
    assert (mkEntry x k ∈ e :: due) as Hin by (apply Hd; split; [by exists o|done]).
    apply elem_of_cons in Hin as [<-|Hin]; [simpl; lia|]. by apply (Hf _ Hin).
  - split; [done|]. split; [done|]. intros e'. split.
    + intros He'. destruct (proj1 (Hd e')) as [[o Ho] Hle']; [set_solver|].
      split; [|done]. exists o. rewrite lookup_delete_ne; [done|]. intros E. apply He.
      rewrite <- E, Hops in Ho. destruct e, e'. simpl in *. congruence.
    + intros [[o Ho] Hle']. apply lookup_delete_Some in Ho as [Hne Ho].
      assert (e' ∈ e :: due) as Hin by (apply Hd; split; [by exists o|done]).
      apply elem_of_cons in Hin as [->|]; done.
Qed.

Lemma fst_with {A B} (y : B) (l : list A) : ((fun x => (x, y)) <$> l).*1 = l.
Proof. induction l as [|x l IH]; simpl; [done|by f_equal]. Qed.

Lemma due_waiting now due a :
  due_timers now a due ->
  (concat (ready_ops a <$> due)).*1 ++ gather snd (filter (not_due now) a) ≡ₚ gather snd a.
Proof.
  revert a. induction due as [|e due IH]; intros a Hd.
  - simpl. rewrite map_filter_id; [done|]. intros p [[x|] ops] Hp; [|done]. unfold not_due. simpl.
    destruct Hd as (_ & _ & Hd). destruct (Z.le_gt_cases x now) as [Hx|Hx]; [|lia].
    assert (mkEntry x p ∈ []) as Hin by (apply Hd; split; [by exists ops|done]).
    by apply elem_of_nil in Hin.
  - destruct (due_inv _ _ _ _ Hd) as (ops & Hops & Hle & Hmin & Hd').
    destruct (due_cons _ _ _ _ _ Hops Hle Hmin Hd') as (_ & <- & ->).
    rewrite (gather_delete snd a _ _ Hops). simpl. rewrite fmap_app, <- app_assoc, IH by done.
    by rewrite fst_with.
Qed.

(** Times within the range of the clock. *)
Definition times_ok (a : timer_map) : Prop :=
  forall p x ops, a !! p = Some (Some x, ops) -> int64 x.

Definition timers_ok (q : timer_queue) : Prop := exists a, represents q a /\ times_ok a.

Lemma times_ok_enqueued time p op a :
  int64 time -> times_ok a -> times_ok (<[p := enqueued (Some time) p op a]> a).
Proof.
  intros Ht Ha q x ops. rewrite lookup_insert_Some. unfold enqueued.
  intros [[<- E]|[_ E]]; [|by eapply Ha].
  destruct (a !! p) as [[t' o]|] eqn:Hp; injection E as -> <-; [by eapply Ha|done].
Qed.

Lemma times_ok_leave a p t ops ops' :
  a !! p = Some (t, ops) -> times_ok a -> times_ok (leave p t ops' a).
Proof.
  intros Hp Ha q x o. unfold leave. case_decide.
  - intros [_ E]%lookup_delete_Some. by eapply Ha.
  - rewrite lookup_insert_Some. intros [[<- [= -> <-]]|[_ E]]; by eapply Ha.
Qed.

Lemma times_ok_filter now a : times_ok a -> times_ok (filter (not_due now) a).
Proof. intros Ha p x ops [E _]%map_lookup_filter_Some. by eapply Ha. Qed.

(** The time to wait for a queue is computed without overflow. *)
Lemma wait_duration_total now m q :
  timers_ok q -> int64 now ->
  (exists w, wait_duration_usec now m q = Ret w) /\ (exists w, wait_duration_msec now m q = Ret w).
Proof.
  intros (a & Hr & Ha) Hnow. unfold wait_duration_usec, wait_duration_msec.
  destruct (heap_ q) as [|e h] eqn:He; [eauto|].
  destruct (represents_entry q a (timer_ e) (time_ e) Hr) as [_ [ops Hops]].
  { rewrite He. destruct e. set_solver +. }
  rewrite subtract_ok by (done || by eapply Ha). rewrite !Ret_bind.
  rewrite to_usec_units, to_msec_units by apply saturate_int64. eauto.
Qed.

Lemma wait_duration_all_total now m (qs : list (positive * timer_queue)) :
  Forall (fun kq => timers_ok kq.2) qs -> int64 now ->
  (exists w, wait_duration_usec_all now m qs = Ret w) /\
  (exists w, wait_duration_msec_all now m qs = Ret w).
Proof.
  intros Hqs Hnow. revert m. induction Hqs as [|[k q] qs Hq _ IH]; intros m; simpl; [eauto|].
  destruct (wait_duration_total now m q Hq Hnow) as [[w1 ->] [w2 ->]]. rewrite !Ret_bind.
  split; [apply (IH w1)|apply (IH w2)].
Qed.

(** * The reactor *)

(** The operations waiting on a descriptor, and on a timer of a queue. *)
Definition pointers (d : descriptor_state.t) : list positive :=
  op_ptr <$> descriptor_state.all_queued d.

Definition timer_waiting (q : timer_queue) : list positive := op_id <$> gather op_queue_ (memory_ q).

Definition timers_waiting (qs : list (positive * timer_queue)) : list positive :=
  concat ((fun kq => timer_waiting kq.2) <$> qs).

Definition react_pending (r : reactor.t) : list positive :=
  gather pointers (reactor.descriptors r) ++ timers_waiting (reactor.timer_queues_ r).

(** The system is asked for the events the operations of a descriptor wait for: for
    any at all, and to write when one waits to write. *)
Definition registered_ok (d : descriptor_state.t) : Prop :=
  (descriptor_state.queue write_op d <> [] ->
   Z.land (descriptor_state.registered_events_ d) EPOLLOUT <> 0) /\
  (descriptor_state.all_queued d <> [] -> descriptor_state.registered_events_ d <> 0).

(** The pool is made of distinct states that exist, no operation waits on a free
    one, every descriptor is registered for what its operations wait for, and
    every timer queue is well formed. *)
Record reactor_ok (r : reactor.t) : Prop := {
  ro_pool : NoDup (reactor.live_list_ r ++ reactor.free_list_ r);
  ro_here p : p ∈ reactor.live_list_ r ++ reactor.free_list_ r ->
              is_Some (reactor.descriptors r !! p);
  ro_free p d : p ∈ reactor.free_list_ r -> reactor.descriptors r !! p = Some d ->
                descriptor_state.all_queued d = [];
  ro_registered p d : reactor.descriptors r !! p = Some d -> registered_ok d;
  ro_timers : Forall (fun kq => timers_ok kq.2) (reactor.timer_queues_ r);
  ro_keys : NoDup (reactor.timer_queues_ r).*1
}.

(** What the system documents: the clock shows times in its range, and [epoll]
    reports the pointers it was given. *)
Class KernelLaws (W : Type) `{Kernel W} := {
  given : W -> gset positive;
  clock_int64 w : int64 (clock_now w).1;
  given_clock w : given (clock_now w).2 ⊆ given w;
  given_perform id r w : given (perform id r w).2 ⊆ given w;
  given_close fd w : given (close_fd fd w) ⊆ given w;
  given_settime abs sec nsec w : given (timerfd_settime abs sec nsec w) ⊆ given w;
  given_ctl op fd events source w :
    given (epoll_ctl op fd events source w).2 ⊆
    match source with at_descriptor p => {[p]} ∪ given w | _ => given w end;
  given_wait timeout w : given (epoll_wait timeout w).2 ⊆ given w;
  reported timeout w p events :
    (at_descriptor p, events) ∈ (epoll_wait timeout w).1 -> p ∈ given w
}.

Section Spec.
Context {W : Type} `{KernelLaws W}.

(** The reactor is well formed, and [epoll] knows none but its descriptors. *)
Definition context_ok (c : context W) : Prop :=
  reactor_ok (react c) /\ given (world c) ⊆ dom (reactor.descriptors (react c)).

Record keeps (c c' : context W) : Prop := {
  kp_ok : context_ok c -> context_ok c';
  kp_dom : dom (reactor.descriptors (react c)) ⊆ dom (reactor.descriptors (react c'))
}.

#[global] Instance keeps_preorder : PreOrder keeps.
Proof.
  split; [by split|]. intros r1 r2 r3 [O1 D1] [O2 D2]. split; [by auto|by etrans].
Qed.

Lemma keeps_sched s (c c' : context W) : keeps c c' -> keeps c (set_sched s c').
Proof. by intros [O D]. Qed.

(** From [c] to [c'] the operations [ids] were started and counted, none was lost,
    and the scheduler was stopped if [stops]. *)
Record advanced (ids : list positive) (stops : bool) (c c' : context W) : Prop := {
  ad_posted : exists moved,
    posted moved (zlen ids) stops (sched c) (sched c') /\
    moved ++ react_pending (react c') ≡ₚ ids ++ react_pending (react c);
  ad_keeps : keeps c c'
}.

(** All operations that wait for their handler to run. *)
Definition pending (c : context W) : list positive :=
  sched_pending (sched c) ++ react_pending (react c).

Lemma advanced_pending ids stops c c' :
  advanced ids stops c c' -> pending c' ≡ₚ ids ++ pending c.
Proof.
  intros [(moved & P & E) _]. unfold pending. rewrite (po_pending _ _ _ _ _ P).
  aac_rewrite E. aac_reflexivity.
Qed.

Lemma advanced_refl c : advanced [] false c c.
Proof. split; [|done]. exists []. split; [apply posted_refl|done]. Qed.

Lemma advanced_trans ids1 b1 ids2 b2 c1 c2 c3 :
  advanced ids1 b1 c1 c2 -> advanced ids2 b2 c2 c3 -> advanced (ids2 ++ ids1) (b2 || b1) c1 c3.
Proof.
  intros [(m1 & P1 & E1) K1] [(m2 & P2 & E2) K2]. split; [|by etrans].
  exists (m2 ++ m1). split.
  - rewrite zlen_app, Z.add_comm. by eapply posted_trans.
  - aac_rewrite E2. aac_rewrite E1. aac_reflexivity.
Qed.

(** First changes that start nothing. *)
Lemma advanced_quiet ids b c1 c2 c3 :
  advanced [] false c1 c2 -> advanced ids b c2 c3 -> advanced ids b c1 c3.
Proof.
  intros A1 A2. pose proof (advanced_trans _ _ _ _ _ _ _ A1 A2) as A.
  by rewrite app_nil_r, orb_false_r in A.
Qed.

Lemma advanced_world w c : given w ⊆ given (world c) -> advanced [] false c (set_world w c).
Proof.
  intros Hw. split; [by exists []; split; [apply posted_refl|]|].
  split; [|done]. intros [Hok Hg]. split; [done|]. simpl. set_solver.
Qed.

(** The source of an event is known. *)
Definition known (source : event_source) (c : context W) : Prop :=
  match source with
  | at_descriptor p => is_Some (reactor.descriptors (react c) !! p)
  | _ => True
  end.

Lemma advanced_ctl op fd events source c :
  known source c ->
  advanced [] false c (snd (ctl op fd events source c)) /\
  react (snd (ctl op fd events source c)) = react c.
Proof.
  intros Hs. unfold ctl. pose proof (given_ctl op fd events source (world c)) as Hg.
  destruct (epoll_ctl _ _ _ _ _) as [r w]. split; [|done].
  split; [by exists []; split; [apply posted_refl|]|]. split; [|done]. intros [Hok Hd].
  split; [done|]. simpl in *. destruct source as [| |p]; [set_solver|set_solver|].
  apply elem_of_dom in Hs. set_solver.
Qed.

(** A change of a descriptor that the invariant allows. *)
Definition may_become (p : positive) (d d' : descriptor_state.t) (r : reactor.t) : Prop :=
  (registered_ok d -> registered_ok d') /\
    (p ∈ reactor.free_list_ r -> descriptor_state.all_queued d = [] ->
    descriptor_state.all_queued d' = []).

Lemma may_become_same p d d' r :
  descriptor_state.op_queue_ d' = descriptor_state.op_queue_ d ->
  descriptor_state.registered_events_ d' = descriptor_state.registered_events_ d ->
  may_become p d d' r.
Proof.
  intros Eq Er. unfold may_become, registered_ok, descriptor_state.all_queued, descriptor_state.queue.
  by rewrite Eq, Er.
Qed.

Lemma all_queued_pointers d : descriptor_state.all_queued d = [] <-> pointers d = [].
Proof. unfold pointers. destruct (descriptor_state.all_queued d); simpl; split; done. Qed.

(** Operations leave a descriptor. *)
Lemma may_become_shrink p d d' r gone :
  gone ++ pointers d' ≡ₚ pointers d ->
  descriptor_state.registered_events_ d' = descriptor_state.registered_events_ d ->
  (descriptor_state.queue write_op d = [] -> descriptor_state.queue write_op d' = []) ->
  may_become p d d' r.
Proof.
  intros E Er Hw.
  assert (descriptor_state.all_queued d = [] -> descriptor_state.all_queued d' = []) as Ha.
  { rewrite !all_queued_pointers. intros Hd. rewrite Hd in E.
    apply Permutation_nil_r in E. by apply app_nil in E as [_ ?]. }
  split; [|done]. unfold registered_ok. rewrite Er. intros [H1 H2]. split; auto.
Qed.

Lemma keeps_store p d d' (c : context W) :
  reactor.descriptors (react c) !! p = Some d -> may_become p d d' (react c) ->
  keeps c (store_descriptor p d' c).
Proof.
  intros Hd [Hreg Hfree]. split; [|simpl; rewrite dom_insert; set_solver +].
  intros [[P Hh F R T K] Hg]. split; [|simpl; rewrite dom_insert; set_solver].
  split; try done; simpl.
  - intros q Hq. destruct (decide (q = p)) as [->|]; [by rewrite lookup_insert_eq; eauto|].
    rewrite lookup_insert_ne by done. by apply Hh.
  - intros q dq Hq. rewrite lookup_insert_Some. intros [[<- <-]|[_ Hdq]]; [|by eapply F].
    apply Hfree; [done|]. by eapply F.
  - intros q dq. rewrite lookup_insert_Some. intros [[<- <-]|[_ Hdq]]; [|by eapply R].
    apply Hreg. by eapply R.
Qed.

Lemma react_pending_store p d d' r moved ids :
  reactor.descriptors r !! p = Some d -> moved ++ pointers d' ≡ₚ ids ++ pointers d ->
  moved ++ react_pending (reactor.set_descriptor p d' r) ≡ₚ ids ++ react_pending r.
Proof.
  intros Hd E. unfold react_pending. simpl.
  rewrite gather_insert, (gather_delete _ _ _ _ Hd), !app_assoc.
  by rewrite E.
Qed.

(** A descriptor's queues change and the scheduler takes what left them. *)
Lemma advanced_move p d d' moved ids b s' (c : context W) :
  reactor.descriptors (react c) !! p = Some d -> posted moved (zlen ids) b (sched c) s' ->
  moved ++ pointers d' ≡ₚ ids ++ pointers d -> may_become p d d' (react c) ->
  advanced ids b c (set_sched s' (store_descriptor p d' c)).
Proof.
  intros Hd P E Hm. split; [|by eapply keeps_sched, keeps_store]. exists moved. split; [done|].
  by apply (react_pending_store p d).
Qed.

Lemma advanced_store p d d' (c : context W) :
  reactor.descriptors (react c) !! p = Some d -> pointers d' ≡ₚ pointers d ->
  may_become p d d' (react c) -> advanced [] false c (store_descriptor p d' c).
Proof.
  intros Hd E Hm. split; [|by eapply keeps_store]. exists []. split; [apply posted_refl|].
  by apply (react_pending_store p d).
Qed.

Lemma advanced_immediate op id is_continuation c :
  user_id op = Some id ->
  advanced [id] false c (post_immediate_completion op is_continuation c).
Proof.
  intros Ho. split; [|done]. exists [id]. split; [by apply post_immediate_posted|done].
Qed.

Lemma load_here_descriptor p d (c : context W) :
  reactor.descriptors (react c) !! p = Some d -> load_descriptor p c = Ret d.
Proof. intros Hd. unfold load_descriptor. by rewrite Hd. Qed.

Lemma load_store_descriptor p d (c : context W) : load_descriptor p (store_descriptor p d c) = Ret d.
Proof. apply load_here_descriptor. apply lookup_insert_eq. Qed.

Lemma pointers_set_queue k q d :
  pointers (descriptor_state.set_queue k q d) ++ (op_ptr <$> descriptor_state.queue k d) ≡ₚ
  (op_ptr <$> q) ++ pointers d.
Proof.
  unfold pointers, descriptor_state.all_queued, descriptor_state.queue.
  destruct d as [? ? [r w e] ? ? ?], k; simpl; rewrite !fmap_app; aac_reflexivity.
Qed.

(** ** Starting *)

Lemma alloc_spec r p r' :
  reactor_ok r -> reactor.alloc r = (p, r') ->
  (exists d, reactor.descriptors r' !! p = Some d /\ descriptor_state.all_queued d = []) /\
  react_pending r' ≡ₚ react_pending r /\
  reactor_ok r' /\ dom (reactor.descriptors r) ⊆ dom (reactor.descriptors r').
Proof.
  intros [Hn Hh Hf Hr Ht Hk]. unfold reactor.alloc.
  destruct (reactor.free_list_ r) as [|q free] eqn:E; intros [= <- <-].
  - set (p := fresh (dom (reactor.descriptors r))).
    assert (reactor.descriptors r !! p = None) as Hp by (apply not_elem_of_dom, is_fresh).
    split; [simpl; rewrite lookup_insert_eq; by eexists|]. split.
    + unfold react_pending. simpl. by rewrite gather_insert_new by done.
    + split; [|simpl; rewrite dom_insert; set_solver +].
      assert (p ∉ reactor.live_list_ r) as Hl.
      { intros Hin. destruct (Hh p) as [d Hd]; [set_solver|]. congruence. }
      split; simpl; [|intros q Hq|by intros ? ? ?%elem_of_nil| |done|done].
      * rewrite app_nil_r in Hn |- *. by apply NoDup_cons.
      * rewrite app_nil_r in Hq. apply elem_of_cons in Hq as [->|Hq].
        -- rewrite lookup_insert_eq. eauto.
        -- rewrite lookup_insert_ne by (intros ->; done). apply Hh. set_solver.
      * intros q d. rewrite lookup_insert_Some. intros [[_ <-]|[_ Hq]]; [done|by eapply Hr].
  - destruct (Hh q) as [d Hd]; [set_solver +|]. split; [exists d; split; [done|]|].
    { apply (Hf q); [set_solver +|done]. }
    split; [done|]. split; [|done]. split; try done; simpl.
    + by rewrite <- Permutation_middle in Hn.
    + intros x Hx. apply Hh. set_solver.
    + intros x dx Hx. apply Hf. set_solver.
Qed.

Lemma advanced_alloc p r' (c : context W) :
  reactor_ok (react c) -> reactor.alloc (react c) = (p, r') ->
  advanced [] false c (set_react r' c) /\
  exists d, reactor.descriptors r' !! p = Some d /\ descriptor_state.all_queued d = [].
Proof.
  intros Hok E. destruct (alloc_spec _ _ _ Hok E) as (Hp & Hpend & Hk & Hdom). split; [|done].
  split; [exists []; split; [apply posted_refl|done]|]. split; [|done].
  intros [_ Hg]. split; [done|]. simpl. by etrans.
Qed.

Lemma pointers_registered fd e d : pointers (descriptor_state.registered fd e d) = pointers d.
Proof. done. Qed.

Lemma advanced_snd_ctl ids b op fd events source (c c' : context W) :
  advanced ids b c c' -> known source c' -> advanced ids b c (snd (ctl op fd events source c')).
Proof.
  intros A Hs. destruct (advanced_ctl op fd events source c' Hs) as [A' _].
  pose proof (advanced_trans _ _ _ _ _ _ _ A A') as T. done.
Qed.

Lemma register_descriptor_spec fd (c : context W) :
  reactor_ok (react c) ->
  exists e p c', register_descriptor fd c = Ret (e, p, c') /\ advanced [] false c c'.
Proof.
  intros Hok. unfold register_descriptor. destruct (reactor.alloc (react c)) as [p r'] eqn:Ea.
  destruct (advanced_alloc _ _ _ Hok Ea) as (A1 & d & Hd & Hempty).
  apply app_nil in Hempty as [Hq1 [Hq2 Hq3]%app_nil].
  rewrite (load_here_descriptor p d) by done. rewrite Ret_bind. cbv zeta.
  set (d' := descriptor_state.registered _ _ _).
  assert (advanced [] false c (store_descriptor p d' (set_react r' c))) as A2.
  { eapply advanced_quiet; [exact A1|]. apply (advanced_store p d); [done|done|].
    split; [|done]. intros _. unfold registered_ok. split; [|done]. by destruct d. }
  assert (known (at_descriptor p) (store_descriptor p d' (set_react r' c))) as Hs
    by (simpl; rewrite lookup_insert_eq; eauto).
  pose proof (advanced_snd_ctl _ _ EPOLL_CTL_ADD fd all_events (at_descriptor p) _ _ A2 Hs) as A3.
  destruct (advanced_ctl EPOLL_CTL_ADD fd all_events (at_descriptor p) _ Hs) as [_ Er].
  destruct (ctl _ _ _ _ _) as [[errno|] c1]; simpl in A3, Er; [|by eexists _, _, _].
  destruct (errno =? EPERM); [|by eexists _, _, _]. eexists _, _, _. split; [done|].
  eapply advanced_quiet; [exact A3|]. apply (advanced_store p d'); [|done|].
  - rewrite Er. apply lookup_insert_eq.
  - split; [|done]. intros _. unfold registered_ok, descriptor_state.all_queued.
    change (descriptor_state.queue write_op _) with (descriptor_state.queue write_op d).
    change (descriptor_state.queue read_op _) with (descriptor_state.queue read_op d).
    change (descriptor_state.queue except_op _) with (descriptor_state.queue except_op d).
    by rewrite Hq1, Hq2, Hq3.
Qed.

Lemma try_perform_spec k p d op (c : context W) fin op' d' c' :
  reactor.descriptors (react c) !! p = Some d -> try_perform k p d op c = (fin, op', d', c') ->
  advanced [] false c c' /\ reactor.descriptors (react c') !! p = Some d' /\
  op_ptr op' = op_ptr op /\ reactor.free_list_ (react c') = reactor.free_list_ (react c).
Proof.
  intros Hd. unfold try_perform. destruct (op_at _ _).
  2: { intros [= <- <- <- <-]. split; [apply advanced_refl|done]. }
  pose proof (given_perform (op_ptr op) (op_result op) (world c)) as Hg.
  destruct (perform _ _ _) as [[status r] w]. pose proof (advanced_world w c Hg) as A.
  destruct status; intros [= <- <- <- <-]; try done.
  split; [|split; [apply lookup_insert_eq|done]].
  eapply advanced_quiet; [exact A|]. apply (advanced_store p d); [done|by destruct (negb _)|].
  by apply may_become_same; destruct (negb _).
Qed.

(** The descriptor is registered for operations of the type. *)
Definition registered_for (k : op_types) (d : descriptor_state.t) : Prop :=
  descriptor_state.registered_events_ d <> 0 /\
    (k = write_op -> Z.land (descriptor_state.registered_events_ d) EPOLLOUT <> 0).

Lemma enqueue_op_spec k p d op (c : context W) :
  reactor.descriptors (react c) !! p = Some d -> p ∉ reactor.free_list_ (react c) ->
  (registered_ok d -> registered_for k d) ->
  exists c', enqueue_op k p op c = Ret c' /\ advanced [op_ptr op] false c c'.
Proof.
  intros Hd Hp Hreg. unfold enqueue_op. rewrite (load_here_descriptor _ _ _ Hd), Ret_bind.
  eexists. split; [done|]. apply (advanced_move p d _ []); [done| | |].
  - apply work_started_posted.
  - set (q := descriptor_state.queue k d).
    pose proof (pointers_set_queue k (q ++ [op]) d) as E. rewrite fmap_app in E.
    change (op_ptr <$> [op]) with [op_ptr op] in E. fold q in E. rewrite app_nil_l.
    apply (Permutation_app_inv_r (op_ptr <$> q)). rewrite E. aac_reflexivity.
  - split; [|done]. intros Hd'. destruct (Hreg Hd') as [Hr Hw]. destruct Hd' as [Hd1 Hd2].
    split; [|done]. destruct k; [apply Hd1|by intros _; apply Hw|apply Hd1].
Qed.

Lemma immediate_op op is_continuation (c c' : context W) :
  advanced [] false c c' ->
  exists c'', complete_now op is_continuation c' = Ret c'' /\
  advanced [op_ptr op] false c c''.
Proof.
  intros A. eexists. split; [done|]. eapply advanced_quiet; [exact A|]. by apply advanced_immediate.
Qed.

Lemma enqueue_quiet k p d op (c c' : context W) :
  advanced [] false c c' -> reactor.descriptors (react c') !! p = Some d ->
  p ∉ reactor.free_list_ (react c') -> (registered_ok d -> registered_for k d) ->
  exists c'', enqueue_op k p op c' = Ret c'' /\ advanced [op_ptr op] false c c''.
Proof.
  intros A Hd Hp Hreg. destruct (enqueue_op_spec k p d op c' Hd Hp Hreg) as (c'' & E & A').
  exists c''. split; [done|]. by eapply advanced_quiet.
Qed.

(** A descriptor in use. *)
Definition in_use (data : option positive) (c : context W) : Prop :=
  forall p, data = Some p ->
    is_Some (reactor.descriptors (react c) !! p) /\ p ∉ reactor.free_list_ (react c).

Lemma live_in_use data (c : context W) :
  reactor_ok (react c) -> (forall p, data = Some p -> p ∈ reactor.live_list_ (react c)) ->
  in_use data c.
Proof.
  intros Hok Hdata p Hp. specialize (Hdata p Hp). split.
  - apply (ro_here _ Hok). set_solver.
  - intros Hf. pose proof (ro_pool _ Hok) as Hn. apply NoDup_app in Hn as (_ & Hn & _).
    by apply (Hn p).
Qed.

Lemma land_lor_same a b : b <> 0 -> Z.land (Z.lor a b) b <> 0.
Proof.
  intros Hb. assert (Z.land (Z.lor a b) b = b) as ->; [|done]. apply Z.bits_inj'. intros n Hn.
  rewrite Z.land_spec, Z.lor_spec. by destruct (Z.testbit a n), (Z.testbit b n).
Qed.

Lemma land_nonzero a b : Z.land a b <> 0 -> a <> 0.
Proof. intros E ->. by rewrite Z.land_0_l in E. Qed.

(** Asking for more events. *)
Lemma may_become_events p d e r :
  Z.land e EPOLLOUT <> 0 -> may_become p d (descriptor_state.set_events e d) r.
Proof.
  intros He. split; [|done]. intros _. split; [done|]. intros _. simpl. by eapply land_nonzero.
Qed.

(** The error of an operation does not change its identity. *)
Lemma immediate_error ec op is_continuation (c c' : context W) :
  advanced [] false c c' ->
  exists c'', complete_now (set_ec ec op) is_continuation c' = Ret c'' /\
  advanced [op_ptr op] false c c''.
Proof. apply (immediate_op (set_ec ec op)). Qed.

Lemma enqueue_first_write_spec fd p d op is_continuation (c c' : context W) :
  advanced [] false c c' -> reactor.descriptors (react c') !! p = Some d ->
  p ∉ reactor.free_list_ (react c') ->
  exists c'', enqueue_first_write fd p d op is_continuation c' = Ret c'' /\
  advanced [op_ptr op] false c c''.
Proof.
  intros A Hd Hp. unfold enqueue_first_write. set (events := Z.lor _ _).
  assert (known (at_descriptor p) c') as Hs by (simpl; rewrite Hd; eauto).
  pose proof (advanced_snd_ctl _ _ EPOLL_CTL_MOD fd events (at_descriptor p) _ _ A Hs) as A2.
  destruct (advanced_ctl EPOLL_CTL_MOD fd events (at_descriptor p) c' Hs) as [_ Er].
  destruct (ctl _ _ _ _ c') as [[errno|] c2]; simpl in A2, Er; [by apply immediate_error|].
  set (e2 := Z.lor (descriptor_state.registered_events_ d) events).
  assert (Z.land e2 EPOLLOUT <> 0) as He2.
  { subst e2 events. rewrite Z.lor_assoc. by apply land_lor_same. }
  eapply (enqueue_quiet write_op p (descriptor_state.set_events e2 d)).
  - eapply advanced_quiet; [exact A2|].
    apply (advanced_store p d); [by rewrite Er|done|by apply may_become_events].
  - apply lookup_insert_eq.
  - simpl. by rewrite Er.
  - intros _. split; [by eapply land_nonzero|done].
Qed.

Lemma start_speculative_spec k fd p d op is_continuation (c : context W) :
  reactor.descriptors (react c) !! p = Some d -> p ∉ reactor.free_list_ (react c) ->
  exists c', start_speculative k fd p d op is_continuation c = Ret c' /\
  advanced [op_ptr op] false c c'.
Proof.
  intros Hd Hp. unfold start_speculative.
  destruct (try_perform k p d op c) as [[[fin op'] d'] c1] eqn:Et.
  destruct (try_perform_spec _ _ _ _ _ _ _ _ _ Hd Et) as (A1 & Hd1 & <- & Hf1).
  rewrite <- Hf1 in Hp. destruct fin; [by apply immediate_op|].
  destruct (Z.eqb_spec (descriptor_state.registered_events_ d') 0) as [|Hreg];
    [by apply immediate_error|].
  destruct (bool_decide (k = write_op) && _) eqn:Hout; [by apply enqueue_first_write_spec|].
  eapply enqueue_quiet; [done|done|done|]. intros _. split; [done|]. intros ->.
  apply andb_false_iff in Hout as [Hout|Hout]; [by rewrite bool_decide_true in Hout|].
  by apply Z.eqb_neq in Hout.
Qed.

Lemma start_waiting_spec k fd p d op is_continuation (c : context W) :
  reactor.descriptors (react c) !! p = Some d -> p ∉ reactor.free_list_ (react c) ->
  exists c', start_waiting k fd p d op is_continuation c = Ret c' /\
  advanced [op_ptr op] false c c'.
Proof.
  intros Hd Hp. unfold start_waiting.
  destruct (Z.eqb_spec (descriptor_state.registered_events_ d) 0) as [|Hreg];
    [apply immediate_error, advanced_refl|].
  set (d1 := if bool_decide (k = write_op) then _ else d).
  assert (pointers d1 = pointers d /\ may_become p d d1 (react c) /\ registered_for k d1)
    as (Hp1 & Hm1 & Hr1).
  { subst d1. case_bool_decide as Ek.
    - assert (Z.land (Z.lor (descriptor_state.registered_events_ d) EPOLLOUT) EPOLLOUT <> 0) as He
        by by apply land_lor_same.
      split; [done|]. split; [by apply may_become_events|]. split; [by eapply land_nonzero|done].
    - split; [done|]. split; [by apply may_become_same|]. by split. }
  assert (advanced [] false c (store_descriptor p d1 c)) as A1
    by (apply (advanced_store p d); [done|by rewrite Hp1|done]).
  assert (known (at_descriptor p) (store_descriptor p d1 c)) as Hs
    by (simpl; rewrite lookup_insert_eq; eauto).
  pose proof (advanced_snd_ctl _ _ EPOLL_CTL_MOD fd (descriptor_state.registered_events_ d1)
    (at_descriptor p) _ _ A1 Hs) as A2.
  destruct (advanced_ctl EPOLL_CTL_MOD fd (descriptor_state.registered_events_ d1)
    (at_descriptor p) _ Hs) as [_ Er].
  destruct (ctl _ _ _ _ _) as [r c2]. simpl in A2, Er.
  eapply (enqueue_quiet k p d1); [done|rewrite Er; apply lookup_insert_eq|by rewrite Er|done].
Qed.

(** Every branch of [start_op] starts the operation, once. *)
Lemma start_op_spec k fd data op is_continuation allow_speculative (c : context W) :
  in_use data c ->
  exists c', start_op k fd data op is_continuation allow_speculative c = Ret c' /\
  advanced [op_ptr op] false c c'.
Proof.
  intros Hdata. unfold start_op.
  destruct data as [p|]; [|apply immediate_error, advanced_refl].
  destruct (Hdata p eq_refl) as [[d Hd] Hp]. rewrite (load_here_descriptor _ _ _ Hd), Ret_bind.
  destruct (descriptor_state.shutdown_ d); [apply immediate_op, advanced_refl|].
  case_bool_decide as Hq.
  - destruct (allow_speculative && _); [by apply start_speculative_spec|by apply start_waiting_spec].
  - apply (enqueue_op_spec k p d); [done|done|]. intros [H1 H2]. split; [|by intros ->; apply H1].
    apply H2. intros Hall. apply Hq. unfold descriptor_state.all_queued in Hall.
    apply app_nil in Hall as [? [? ?]%app_nil]. by destruct k.
Qed.

(** ** Ending *)

Lemma aborted_users ops : Forall is_user (aborted <$> ops).
Proof. auto with horcrux. Qed.

Lemma advanced_abort p d d' ops (c : context W) :
  reactor.descriptors (react c) !! p = Some d -> (op_ptr <$> ops) ++ pointers d' ≡ₚ pointers d ->
  descriptor_state.registered_events_ d' = descriptor_state.registered_events_ d ->
  (descriptor_state.queue write_op d = [] -> descriptor_state.queue write_op d' = []) ->
  advanced [] false c (post_deferred_completions (aborted <$> ops) (store_descriptor p d' c)).
Proof.
  intros Hd E Er Hw. apply (advanced_move p d d' (op_ptr <$> ops)); [done| |done|];
    [|by eapply may_become_shrink].
  rewrite <- users_aborted. apply post_deferred_posted, aborted_users.
Qed.

Lemma cancel_ops_spec data (c : context W) :
  in_use data c ->
  exists c', cancel_ops data c = Ret c' /\ advanced [] false c c'.
Proof.
  intros Hdata. unfold cancel_ops. destruct data as [p|]; [|eexists; split; [done|apply advanced_refl]].
  destruct (Hdata p eq_refl) as [[d Hd] _]. rewrite (load_here_descriptor _ _ _ Hd), Ret_bind.
  eexists. split; [done|]. apply (advanced_abort p d); [done| |by destruct d|by destruct d].
  change (pointers d) with (op_ptr <$> descriptor_state.all_queued d).
  destruct d as [? ? [r w e] ? ? ?]. unfold pointers, descriptor_state.all_queued. simpl.
  by rewrite app_nil_r.
Qed.

Lemma cancel_ops_by_key_spec data k key (c : context W) :
  in_use data c ->
  exists c', cancel_ops_by_key data k key c = Ret c' /\ advanced [] false c c'.
Proof.
  intros Hdata. unfold cancel_ops_by_key.
  destruct data as [p|]; [|eexists; split; [done|apply advanced_refl]].
  destruct (Hdata p eq_refl) as [[d Hd] _]. rewrite (load_here_descriptor _ _ _ Hd), Ret_bind.
  eexists. split; [done|]. apply (advanced_abort p d); [done| |done|].
  2: { destruct k; simpl; [done| |done]. unfold descriptor_state.queue. simpl. by intros ->. }
  set (q := descriptor_state.queue k d). set (q' := filter _ q) at 2.
  pose proof (pointers_set_queue k q' d) as E. fold q in E.
  rewrite <- (filter_split (fun op => op_key op = key) q) in E at 1. fold q' in E.
  rewrite fmap_app in E.
  apply (Permutation_app_inv_r (op_ptr <$> q')). rewrite (Permutation_app_comm (pointers d)).
  rewrite <- E. aac_reflexivity.
Qed.

Lemma deregister_descriptor_spec fd data closing (c : context W) :
  (forall p, data = Some p -> p ∈ reactor.live_list_ (react c)) -> reactor_ok (react c) ->
  exists data' c', deregister_descriptor fd data closing c = Ret (data', c') /\
  advanced [] false c c' /\
  (forall p, data' = Some p -> p ∈ reactor.live_list_ (react c') /\
  forall d, reactor.descriptors (react c') !! p = Some d -> descriptor_state.all_queued d = []).
Proof.
  intros Hdata Hok. unfold deregister_descriptor.
  destruct data as [p|]; [|eexists _, _; split; [done|]; split; [apply advanced_refl|done]].
  destruct (ro_here _ Hok p) as [d Hd]; [apply elem_of_app; left; by apply Hdata|].
  rewrite (load_here_descriptor _ _ _ Hd), Ret_bind.
  destruct (negb _); [|eexists _, _; split; [done|]; split; [apply advanced_refl|done]].
  set (c1 := if closing then c else _).
  assert (advanced [] false c c1 /\ react c1 = react c) as [A1 Er].
  { subst c1. destruct closing; [by split; [apply advanced_refl|]|].
    destruct (negb _); [apply advanced_ctl; simpl; rewrite Hd; eauto|by split; [apply advanced_refl|]]. }
  eexists _, _. split; [done|]. split.
  - eapply advanced_quiet; [exact A1|]. apply (advanced_abort p d); [by rewrite Er| |done|done].
    unfold pointers at 1. simpl. by rewrite app_nil_r.
  - intros q [= <-]. simpl. rewrite Er. split; [by apply Hdata|]. intros dq.
    rewrite lookup_insert_eq. by intros [= <-].
Qed.

Lemma cleanup_descriptor_data_spec data (c : context W) :
  (forall p, data = Some p -> p ∈ reactor.live_list_ (react c) /\
  forall d, reactor.descriptors (react c) !! p = Some d -> descriptor_state.all_queued d = []) ->
  exists c', cleanup_descriptor_data data c = Ret c' /\ advanced [] false c c'.
Proof.
  intros Hdata. unfold cleanup_descriptor_data.
  destruct data as [p|]; [|eexists; split; [done|apply advanced_refl]].
  destruct (Hdata p eq_refl) as [Hlive Hempty].
  unfold reactor.free. rewrite decide_True by done. rewrite Ret_bind.
  eexists. split; [done|]. split; [|split; [|done]].
  - exists []. split; [apply posted_refl|done].
  - assert (forall l : list positive, NoDup l -> p ∈ l -> p :: filter (fun q => q <> p) l ≡ₚ l) as Hrm.
    { intros l Hn Hp. apply NoDup_Permutation; [|done|].
      - apply NoDup_cons. split; [by intros [? _]%list_elem_of_filter|by apply NoDup_filter].
      - intros q. rewrite elem_of_cons, list_elem_of_filter. destruct (decide (q = p)); set_solver. }
    intros [[Hn Hh Hf Hr Ht Hk] Hg]. split; [|done]. specialize (Hrm (reactor.live_list_ (react c))).
    assert (filter (fun q => q <> p) (reactor.live_list_ (react c)) ++
            p :: reactor.free_list_ (react c) ≡ₚ
            reactor.live_list_ (react c) ++ reactor.free_list_ (react c)) as E.
    { rewrite <- Permutation_middle, app_comm_cons, Hrm; [done| |done].
      by apply NoDup_app in Hn as [? _]. }
    split; simpl; [by rewrite E| | |done|done|done].
    + intros q Hq. rewrite E in Hq. by apply Hh.
    + intros q d [->|Hq]%elem_of_cons Hd; [by apply Hempty|by eapply Hf].
Qed.

(** ** Performing *)

(** Operations are finished in the order they were queued. *)
Lemma perform_queue_spec q (w : W) remaining finished exhausted w' :
  perform_queue q w = (remaining, finished, exhausted, w') ->
  op_ptr <$> q = (op_ptr <$> finished) ++ (op_ptr <$> remaining) /\ given w' ⊆ given w.
Proof.
  revert w remaining finished exhausted w'.
  induction q as [|op q IH]; intros w remaining finished exhausted w' E; simpl in E.
  - by injection E as <- <- <- <-.
  - pose proof (given_perform (op_ptr op) (op_result op) w) as Hg.
    destruct (perform _ _ _) as [[status r] w1]. simpl in Hg. destruct status.
    + by injection E as <- <- <- <-.
    + destruct (perform_queue q w1) as [[[rem fin] ex] w2] eqn:Eq. injection E as <- <- <- <-.
      destruct (IH _ _ _ _ _ Eq) as [Eq' Hg2]. split; [by rewrite !fmap_cons, Eq'|set_solver].
    + by injection E as <- <- <- <-.
Qed.

(** One type's queue loses the operations finished, in order; the others are left. *)
Lemma perform_type_queues k events d (w : W) d' finished w' k' :
  perform_type k events d w = (d', finished, w') ->
  op_ptr <$> descriptor_state.queue k' d =
  (if decide (k' = k) then op_ptr <$> finished else []) ++
  (op_ptr <$> descriptor_state.queue k' d').
Proof.
  unfold perform_type. destruct (negb _).
  2: { intros [= <- <- <-]. by case_decide. }
  destruct (perform_queue _ _) as [[[rem fin] ex] w1] eqn:Eq. intros [= <- <- <-].
  apply perform_queue_spec in Eq as [Eq _]. set (d1 := descriptor_state.set_try k true d) in *.
  assert (forall b, descriptor_state.queue k' (if b : bool then
    descriptor_state.set_try k false (descriptor_state.set_queue k rem d1)
    else descriptor_state.set_queue k rem d1) = descriptor_state.queue k'
      (descriptor_state.set_queue k rem d1)) as -> by (by intros []).
  change (descriptor_state.queue k' d) with (descriptor_state.queue k' d1).
  case_decide as Ek; [subst k'; rewrite Eq; by destruct k|]. by destruct k, k'.
Qed.

Lemma perform_type_spec k events d (w : W) d' finished w' :
  perform_type k events d w = (d', finished, w') ->
  pointers d ≡ₚ (op_ptr <$> finished) ++ pointers d' /\ given w' ⊆ given w /\
  descriptor_state.registered_events_ d' = descriptor_state.registered_events_ d.
Proof.
  intros E. split.
  - unfold pointers, descriptor_state.all_queued. rewrite !fmap_app.
    rewrite !(perform_type_queues _ _ _ _ _ _ _ _ E).
    destruct k; simpl; aac_reflexivity.
  - unfold perform_type in E. destruct (negb _); [|by injection E as <- <- <-].
    destruct (perform_queue _ _) as [[[rem fin] ex] w1] eqn:Eq. injection E as <- <- <-.
    apply perform_queue_spec in Eq as [_ Hg]. by destruct ex.
Qed.

Lemma perform_type_write k events d (w : W) d' finished w' :
  perform_type k events d w = (d', finished, w') ->
  descriptor_state.queue write_op d = [] -> descriptor_state.queue write_op d' = [].
Proof.
  intros E Hq. pose proof (perform_type_queues _ _ _ _ _ _ _ write_op E) as Ew. rewrite Hq in Ew.
  symmetry in Ew. apply app_nil in Ew as [_ Ew]. by apply fmap_nil_inv in Ew.
Qed.

(** The operation [o] left the pending ones; [n] more work was counted. *)
Record took (o : list positive) (n : Z) (c c' : context W) : Prop := {
  tk_posted : exists moved,
    posted moved n false (sched c) (sched c') /\
    o ++ moved ++ react_pending (react c') ≡ₚ react_pending (react c);
  tk_keeps : keeps c c'
}.

Lemma perform_io_spec p events (c : context W) :
  is_Some (reactor.descriptors (react c) !! p) -> is_Some (scheduler.this_thread (sched c)) ->
  exists o c', perform_io p events c = Ret (o, c') /\
  took (op_ptr <$> option_list o) (match o with Some _ => 0 | None => 1 end) c c'.
Proof.
  intros [d Hd] Hrun. unfold perform_io. rewrite (load_here_descriptor _ _ _ Hd), Ret_bind.
  destruct (perform_type except_op events d (world c)) as [[d2 ops2] w2] eqn:E2.
  destruct (perform_type write_op events d2 w2) as [[d1 ops1] w1] eqn:E1.
  destruct (perform_type read_op events d1 w1) as [[d0 ops0] w0] eqn:E0.
  pose proof (perform_type_write _ _ _ _ _ _ _ E2) as W2.
  pose proof (perform_type_write _ _ _ _ _ _ _ E1) as W1.
  pose proof (perform_type_write _ _ _ _ _ _ _ E0) as W0.
  apply perform_type_spec in E2 as (E2 & G2 & R2), E1 as (E1 & G1 & R1), E0 as (E0 & G0 & R0).
  assert (pointers d ≡ₚ (op_ptr <$> ops2 ++ ops1 ++ ops0) ++ pointers d0) as E.
  { rewrite E2, E1, E0, !fmap_app. aac_reflexivity. }
  assert (keeps c (store_descriptor p d0 (set_world w0 c))) as Hk.
  { etrans; [eapply ad_keeps, (advanced_world w0); set_solver|].
    apply (keeps_store p d); [done|]. eapply may_become_shrink; [by rewrite <- E|congruence|auto]. }
  destruct (ops2 ++ ops1 ++ ops0) as [|first rest].
  - destruct (compensating_posted (sched c) Hrun) as (s' & Es & P). simpl sched.
    rewrite Es, Ret_bind. exists None. eexists. split; [done|].
    split; [|by apply keeps_sched]. exists []. split; [done|].
    by apply (react_pending_store p d _ _ [] []).
  - exists (Some first). eexists. split; [done|].
    split; [|by apply keeps_sched]. exists (op_ptr <$> rest). split.
    + simpl. rewrite <- users_completed. apply post_deferred_posted. auto with horcrux.
    + simpl. rewrite app_comm_cons. apply (react_pending_store p d _ _ _ []); [done|].
      by rewrite E.
Qed.

(** ** Timers of the reactor *)

Lemma timer_queue_split k q (r : reactor.t) :
  timer_queue_at k r = Ret q -> NoDup (reactor.timer_queues_ r).*1 ->
  exists l1 l2, reactor.timer_queues_ r = l1 ++ (k, q) :: l2 /\
  forall q', reactor.timer_queues_ (store_timer_queue k q' r) = l1 ++ (k, q') :: l2.
Proof.
  unfold timer_queue_at, store_timer_queue. simpl. generalize (reactor.timer_queues_ r) as qs.
  induction qs as [|[k' q0] qs IH]; simpl; [done|]. intros Hf Hn.
  apply NoDup_cons in Hn as [Hk Hn]. destruct (Pos.eqb_spec k' k) as [->|Hne].
  - simpl in Hf. injection Hf as ->. exists [], qs. split; [done|]. intros q'. simpl. f_equal.
    rewrite <- (list_fmap_id qs) at 2. apply list_fmap_ext. intros i [k1 q1] Hi. simpl.
    destruct (Pos.eqb_spec k1 k) as [->|]; [|done]. exfalso. apply Hk.
    apply list_elem_of_fmap. exists (k, q1). split; [done|]. by eapply list_elem_of_lookup_2.
  - destruct (IH Hf Hn) as (l1 & l2 & -> & Hs). exists ((k', q0) :: l1), l2. split; [done|].
    intros q'. simpl. f_equal. apply Hs.
Qed.

(** A timer queue changes. *)
Lemma keeps_timers k q q' (c : context W) :
  timer_queue_at k (react c) = Ret q -> reactor_ok (react c) -> timers_ok q' ->
  keeps c (set_react (store_timer_queue k q' (react c)) c).
Proof.
  intros Hq Hok Hq'. destruct (timer_queue_split _ _ _ Hq (ro_keys _ Hok)) as (l1 & l2 & El & Es).
  split; [|done]. intros [_ Hg]. split; [|done].
  destruct Hok as [Hn Hh Hf Hr Ht Hk]. rewrite El in Ht, Hk.
  apply Forall_app in Ht as [Ht1 Ht2]. apply Forall_cons in Ht2 as [_ Ht2].
  specialize (Es q'). simpl in Es. split; simpl; try done; rewrite Es.
  - by rewrite Forall_app, Forall_cons.
  - by rewrite fmap_app in *.
Qed.

(** A timer queue changes and the scheduler takes what left it. *)
Lemma advanced_timers k q q' moved ids b s' (c : context W) :
  timer_queue_at k (react c) = Ret q -> reactor_ok (react c) -> timers_ok q' ->
  posted moved (zlen ids) b (sched c) s' ->
  moved ++ timer_waiting q' ≡ₚ ids ++ timer_waiting q ->
  advanced ids b c (set_sched s' (set_react (store_timer_queue k q' (react c)) c)).
Proof.
  intros Hq Hok Hq' P E. destruct (timer_queue_split _ _ _ Hq (ro_keys _ Hok)) as (l1 & l2 & El & Es).
  split.
  - exists moved. split; [done|]. unfold react_pending, timers_waiting. simpl react.
    rewrite Es, El, !fmap_app, !fmap_cons, !concat_app. simpl.
    rewrite (app_assoc moved), (Permutation_app_comm moved). aac_rewrite E. aac_reflexivity.
  - by eapply keeps_sched, keeps_timers.
Qed.

Lemma arm_timer_fd_spec (c : context W) :
  reactor_ok (react c) ->
  exists c', arm_timer_fd c = Ret c' /\ advanced [] false c c'.
Proof.
  intros Hok. unfold arm_timer_fd, read_clock.
  pose proof (clock_int64 (world c)) as Hnow. pose proof (given_clock (world c)) as Hg.
  destruct (clock_now (world c)) as [now w]. simpl in Hnow, Hg.
  destruct (wait_duration_all_total now (5 * 60 * 1000 * 1000) (reactor.timer_queues_ (react c)))
    as [[u E] _]; [apply Hok|done|].
  simpl react. rewrite E, Ret_bind. eexists. split; [done|].
  eapply advanced_quiet; [by apply (advanced_world w)|]. apply advanced_world. simpl.
  apply given_settime.
Qed.

Lemma update_timeout_spec (c : context W) :
  reactor_ok (react c) ->
  exists c', update_timeout c = Ret c' /\ advanced [] false c c'.
Proof.
  intros Hok. unfold update_timeout. destruct (negb _); [by apply arm_timer_fd_spec|].
  eexists. split; [done|]. by apply advanced_ctl.
Qed.

(** The timer is one of the queue [k]. *)
Definition timer_here (k : positive) (timer : timer_ptr) (c : context W) : Prop :=
  exists q, timer_queue_at k (react c) = Ret q /\ allocated q timer.

Lemma timer_queue_ok k q (c : context W) :
  reactor_ok (react c) -> timer_queue_at k (react c) = Ret q -> timers_ok q.
Proof.
  intros Hok Hq. destruct (timer_queue_split _ _ _ Hq (ro_keys _ Hok)) as (l1 & l2 & El & _).
  pose proof (ro_timers _ Hok) as Ht. rewrite El in Ht. apply Forall_app in Ht as [_ Ht].
  by apply Forall_cons in Ht as [Ht _].
Qed.

Lemma represents_timer_waiting q a :
  represents q a -> timer_waiting q ≡ₚ op_id <$> gather snd a.
Proof. intros Hr. unfold timer_waiting. by rewrite (represents_waiting _ _ Hr). Qed.

Lemma schedule_timer_spec k time timer op (c : context W) :
  context_ok c -> timer_here k timer c -> int64 time ->
  (forall q, timer_queue_at k (react c) = Ret q -> zlen (heap_ q) + 1 < npos) ->
  exists c', schedule_timer k time timer op c = Ret c' /\ advanced [op_id op] false c c'.
Proof.
  intros [Hok Hg] (q & Hq & Hal) Ht Hsize. unfold schedule_timer.
  destruct (reactor.shutdown_ _).
  { eexists. split; [done|]. by apply advanced_immediate. }
  rewrite Hq, Ret_bind. destruct (timer_queue_ok _ _ _ Hok Hq) as (a & Hr & Ha).
  destruct (enqueue_timer_spec is_positive_infinity time timer op q a Hr Hal (Hsize q Hq))
    as (b & q' & -> & Hr' & _). rewrite Ret_bind. simpl in Hr'.
  set (c1 := work_started _). assert (advanced [op_id op] false c c1) as A.
  { apply (advanced_timers k q q' []); [done|done| |apply work_started_posted|].
    - eexists. split; [exact Hr'|]. by apply times_ok_enqueued.
    - rewrite (represents_timer_waiting _ _ Hr'), (represents_timer_waiting _ _ Hr).
      rewrite gather_enqueued, fmap_app. done. }
  destruct b; [|by eexists].
  destruct (update_timeout_spec c1) as (c2 & -> & A2); [by apply (kp_ok _ _ (ad_keeps _ _ _ _ A))|].
  eexists. split; [done|]. pose proof (advanced_trans _ _ _ _ _ _ _ A A2) as A3. done.
Qed.

Lemma advanced_cancelled k q q' (gone : list wait_op) ec a a' (c : context W) :
  timer_queue_at k (react c) = Ret q -> reactor_ok (react c) ->
  represents q a -> represents q' a' -> times_ok a' -> gone ++ gather snd a' ≡ₚ gather snd a ->
  advanced [] false c
  (post_deferred_completions (expired <$> ((fun op => (op, ec)) <$> gone))
  (set_react (store_timer_queue k q' (react c)) c)).
Proof.
  intros Hq Hok Hr Hr' Ha' E.
  apply (advanced_timers k q q' (op_id <$> gone)); [done|done|by exists a'| |].
  - pose proof (users_expired ((fun op => (op, ec)) <$> gone)) as Hu. rewrite fst_with in Hu.
    rewrite <- Hu. apply post_deferred_posted. auto with horcrux.
  - rewrite (represents_timer_waiting _ _ Hr'), (represents_timer_waiting _ _ Hr), <- fmap_app.
    by rewrite E.
Qed.

Lemma reactor_cancel_timer_spec k timer n (c : context W) :
  reactor_ok (react c) -> timer_here k timer c ->
  exists m c', cancel_timer k timer n c = Ret (m, c') /\ advanced [] false c c'.
Proof.
  intros Hok (q & Hq & Hal). unfold cancel_timer. rewrite Hq, Ret_bind.
  destruct (timer_queue_ok _ _ _ Hok Hq) as (a & Hr & Ha).
  destruct (cancel_timer_spec q a timer [] n Hr Hal) as (q' & -> & Hr' & _). rewrite Ret_bind.
  eexists _, _. split; [done|]. eapply advanced_cancelled; [done|done|exact Hr|exact Hr'| |].
  - unfold cancelled_map. destruct (a !! timer) as [[t ops]|] eqn:Hp; [|done].
    by eapply times_ok_leave.
  - apply cancelled_waiting.
Qed.

Lemma reactor_cancel_timer_by_key_spec k timer key (c : context W) :
  reactor_ok (react c) -> timer_here k timer c ->
  exists c', cancel_timer_by_key k timer key c = Ret c' /\ advanced [] false c c'.
Proof.
  intros Hok (q & Hq & Hal). unfold cancel_timer_by_key. rewrite Hq, Ret_bind.
  destruct (timer_queue_ok _ _ _ Hok Hq) as (a & Hr & Ha).
  destruct (cancel_timer_by_key_spec q a timer [] key Hr Hal) as (q' & -> & Hr' & _).
  rewrite Ret_bind.
  eexists. split; [done|]. eapply advanced_cancelled; [done|done|exact Hr|exact Hr'| |].
  - unfold keyed_map. destruct (a !! timer) as [[t ops]|] eqn:Hp; [|done].
    by eapply times_ok_leave.
  - apply keyed_waiting.
Qed.

(** ** The reactor's task *)

Lemma get_ready_timers_all_spec now (qs : list (positive * timer_queue)) ops :
  Forall (fun kq => timers_ok kq.2) qs ->
  exists new qs', get_ready_timers_all now ops qs = Ret (ops ++ new, qs') /\
  Forall (fun kq => timers_ok kq.2) qs' /\ qs'.*1 = qs.*1 /\
  (op_id <$> new.*1) ++ timers_waiting qs' ≡ₚ timers_waiting qs.
Proof.
  intros Hqs. revert ops. induction Hqs as [|[k q] qs (a & Hr & Ha) _ IH]; intros ops; simpl.
  - exists [], []. by rewrite app_nil_r.
  - unfold get_ready_timers.
    destruct (get_ready_loop_spec (length (heap_ q)) q a now ops Hr) as (due & q' & -> & Hd & Hr' & _);
      [done|].
    rewrite Ret_bind.
    destruct (IH (ops ++ concat (ready_ops a <$> due))) as (new & qs' & -> & Hok & Hk & Hw).
    rewrite Ret_bind. exists (concat (ready_ops a <$> due) ++ new), ((k, q') :: qs').
    rewrite app_assoc. split; [done|]. split.
    + apply Forall_cons. split; [|done]. eexists. split; [exact Hr'|]. by apply times_ok_filter.
    + split; [simpl; by f_equal|]. unfold timers_waiting in *. rewrite !fmap_cons. cbn [concat snd].
      rewrite (represents_timer_waiting _ _ Hr'), (represents_timer_waiting _ _ Hr).
      rewrite <- Hw, <- (due_waiting _ _ _ Hd), !fmap_app. aac_reflexivity.
Qed.

(** The descriptors of a queue. *)
Definition descriptor_id (o : operation) : option positive :=
  match o with
  | descriptor_op p => Some p
  | _ => None
  end.

Definition descs (q : list operation) : list positive := omap descriptor_id q.

Lemma elem_of_descs p q : p ∈ descs q <-> descriptor_op p ∈ q.
Proof.
  unfold descs. rewrite list_elem_of_omap. split.
  - intros ([| |] & Hin & [= ->]). done.
  - intros Hin. by exists (descriptor_op p).
Qed.

Lemma descs_app q k : descs (q ++ k) = descs q ++ descs k.
Proof. apply omap_app. Qed.

Lemma users_no_descs k : Forall is_user k -> descs k = [].
Proof. induction 1 as [|[| |] k Hx _ IH]; simpl; [done|by destruct Hx|by destruct Hx|done]. Qed.

Lemma dispatch_events_spec events ops b (c : context W) :
  (forall p e, (at_descriptor p, e) ∈ events -> is_Some (reactor.descriptors (react c) !! p)) ->
  NoDup (descs ops) -> (forall p, p ∈ descs ops -> is_Some (reactor.descriptors (react c) !! p)) ->
  exists ds b' c', dispatch_events events ops b c = Ret (ops ++ (descriptor_op <$> ds), b', c') /\
  advanced [] false c c' /\ sched c' = sched c /\ world c' = world c /\
  NoDup (descs (ops ++ (descriptor_op <$> ds))) /\
  (forall p, p ∈ ds -> is_Some (reactor.descriptors (react c') !! p)).
Proof.
  revert ops b c. induction events as [|[source e] events IH]; intros ops b c Hev Hn Hd; simpl.
  { exists [], b, c. rewrite app_nil_r. split; [done|]. split; [apply advanced_refl|].
    split; [done|]. split; [done|]. split; [done|]. intros p Hp. by apply elem_of_nil in Hp. }
  assert (forall p e, (at_descriptor p, e) ∈ events -> is_Some (reactor.descriptors (react c) !! p))
    as Hev' by (intros p e' Hp; apply (Hev p e'); by right).
  destruct source as [| |p]; unfold dispatch_event; cbn [fst snd]; [by rewrite Ret_bind; apply IH..|].
  destruct (Hev p e) as [d Hp]; [by left|]. rewrite (load_here_descriptor _ _ _ Hp), !Ret_bind.
  assert (forall d', pointers d' ≡ₚ pointers d -> may_become p d d' (react c) ->
    advanced [] false c (store_descriptor p d' c)) as Hst by (intros; by apply (advanced_store p d)).
  assert (forall d' q, is_Some (reactor.descriptors (react c) !! q) ->
    is_Some (reactor.descriptors (react (store_descriptor p d' c)) !! q)) as Hmono.
  { intros d' q Hq. simpl. destruct (decide (q = p)) as [->|]; [rewrite lookup_insert_eq; eauto|].
    by rewrite lookup_insert_ne. }
  destruct (is_enqueued p ops c) eqn:Ein; simpl.
  - destruct (IH ops b (store_descriptor p (descriptor_state.add_ready_events e d) c))
      as (ds & b' & c' & -> & A & Hs & Hw & Hn' & Hd');
      [by intros; eapply Hmono, Hev'|done|by intros; apply Hmono, Hd|].
    exists ds, b', c'. split; [done|]. split; [|done]. eapply advanced_quiet; [|exact A]. apply Hst; [done|by apply may_become_same].
  - unfold is_enqueued in Ein. apply orb_false_iff in Ein as [_ Ein].
    apply bool_decide_eq_false in Ein.
    destruct (IH (ops ++ [descriptor_op p]) b
      (store_descriptor p (descriptor_state.set_ready_events e d) c))
      as (ds & b' & c' & -> & A & Hs & Hw & Hn' & Hd').
    + by intros; eapply Hmono, Hev'.
    + rewrite descs_app. apply NoDup_app. split; [done|]. split; [|apply NoDup_singleton].
      intros q Hq Hq'. apply elem_of_descs in Hq. simpl in Hq'.
      apply list_elem_of_singleton in Hq' as ->. done.
    + intros q. rewrite descs_app, elem_of_app. simpl. rewrite list_elem_of_singleton.
      intros [Hq|Hq]; [by apply Hmono, Hd|subst; apply Hmono; eauto].
    + rewrite <- app_assoc in Hn' |- *. exists (p :: ds), b', c'. split; [done|].
      split; [eapply advanced_quiet; [|exact A]; apply Hst; [done|by apply may_become_same]|]. split; [done|]. split; [done|].
      split; [done|]. intros q [->|Hq]%elem_of_cons; [|by apply Hd'].
      apply elem_of_dom. apply (kp_dom _ _ (ad_keeps _ _ _ _ A)). simpl. rewrite dom_insert. set_solver +.
Qed.

(** Steps that only change the world. *)
Definition same_but_world (c c' : context W) : Prop :=
  sched c' = sched c /\ react c' = react c /\ given (world c') ⊆ given (world c).

Lemma same_but_world_keeps c c' : same_but_world c c' -> keeps c c'.
Proof.
  intros (Hs & Hr & Hg). split; [|by rewrite Hr]. intros [Hok Hd]. split; [by rewrite Hr|].
  rewrite Hr. by etrans.
Qed.

Lemma read_clock_spec (c : context W) :
  exists now c', read_clock c = (now, c') /\ int64 now /\ same_but_world c c'.
Proof.
  unfold read_clock. pose proof (clock_int64 (world c)). pose proof (given_clock (world c)).
  destruct (clock_now (world c)) as [now w]. by exists now, (set_world w c).
Qed.

Lemma epoll_timeout_spec usec (c : context W) :
  reactor_ok (react c) ->
  exists t c', epoll_timeout usec c = Ret (t, c') /\ same_but_world c c'.
Proof.
  intros Hok. unfold epoll_timeout, get_timeout.
  destruct (_ =? 0); [by exists 0, c|]. destruct (has_timer_fd c); [by eexists _, c|].
  destruct (read_clock_spec c) as (now & c' & -> & Hnow & Hsame).
  destruct Hsame as (Hs & Hr & Hg). rewrite Hr.
  destruct (wait_duration_all_total now
    (if ((if usec <? 0 then -1 else (usec - 1) ÷ 1000 + 1) <? 0) ||
        (5 * 60 * 1000 <? (if usec <? 0 then -1 else (usec - 1) ÷ 1000 + 1)) then 5 * 60 * 1000
     else (if usec <? 0 then -1 else (usec - 1) ÷ 1000 + 1)) (reactor.timer_queues_ (react c)))
    as [_ [m E]]; [apply Hok|done|].
  rewrite E, Ret_bind. by exists m, c'.
Qed.

Lemma arm_timer_fd_same (c : context W) :
  reactor_ok (react c) -> exists c', arm_timer_fd c = Ret c' /\ same_but_world c c'.
Proof.
  intros Hok. unfold arm_timer_fd.
  destruct (read_clock_spec c) as (now & c' & -> & Hnow & Hs & Hr & Hg). rewrite Hr.
  destruct (wait_duration_all_total now (5 * 60 * 1000 * 1000) (reactor.timer_queues_ (react c)))
    as [[u ->] _]; [apply Hok|done|].
  rewrite Ret_bind. eexists. split; [done|]. split; [done|]. split; [done|]. simpl.
  etrans; [apply given_settime|done].
Qed.

(** Checking the timers takes the operations of those that are due. *)
Lemma take_due_timers qs new (c : context W) :
  Forall (fun kq => timers_ok kq.2) qs -> qs.*1 = (reactor.timer_queues_ (react c)).*1 ->
  new ++ timers_waiting qs ≡ₚ timers_waiting (reactor.timer_queues_ (react c)) ->
  keeps c (set_react (reactor.set_timers qs (react c)) c) /\
  new ++ react_pending (reactor.set_timers qs (react c)) ≡ₚ react_pending (react c).
Proof.
  intros Hqs Hk Hw. split.
  - split; [|done]. intros [[Hn Hh Hf Hr Ht Hkeys] Hg]. split; [|done]. split; try done. simpl.
    by rewrite Hk.
  - unfold react_pending. simpl. rewrite <- Hw. aac_reflexivity.
Qed.

(** What a run of the task gives: descriptors with events, each once, and expired
    operations, which no longer wait. *)
Record task_ran (c : context W) (ops : list operation) (c' : context W) : Prop := {
  tr_sched : sched c' = sched c;
  tr_keeps : keeps c c';
  tr_pending : users ops ++ react_pending (react c') ≡ₚ react_pending (react c);
  tr_task : task_operation ∉ ops;
  tr_nodup : NoDup (descs ops);
  tr_known p : p ∈ descs ops -> is_Some (reactor.descriptors (react c') !! p)
}.

Lemma users_descs ds : users (descriptor_op <$> ds) = [].
Proof. by induction ds. Qed.

Lemma descs_expired (ops : completions) : descs (expired <$> ops) = [].
Proof. by induction ops. Qed.

Lemma descs_descs ds : descs (descriptor_op <$> ds) = ds.
Proof. induction ds; simpl; [done|by f_equal]. Qed.

Lemma no_task_descs (ds : list positive) : task_operation ∉ (descriptor_op <$> ds).
Proof. rewrite list_elem_of_fmap. by intros (? & ? & _). Qed.

Lemma no_task_expired (ops : completions) : task_operation ∉ (expired <$> ops).
Proof. rewrite list_elem_of_fmap. by intros (? & ? & _). Qed.

(** Checking the timers expires the operations it adds, and touches no descriptor. *)
Lemma expire_timers_spec ops (c : context W) :
  context_ok c ->
  exists (new : completions) (c' : context W),
    expire_timers ops c = Ret (ops ++ (expired <$> new), c') /\ sched c' = sched c /\ keeps c c' /\
    reactor.descriptors (react c') = reactor.descriptors (react c) /\
    (op_id <$> new.*1) ++ react_pending (react c') ≡ₚ react_pending (react c).
Proof.
  intros Hok. unfold expire_timers. destruct (read_clock_spec c) as (now & c4 & -> & Hnow & S4).
  pose proof (same_but_world_keeps _ _ S4) as K4. destruct S4 as (Hs4 & Hr4 & _). rewrite Hr4.
  destruct (get_ready_timers_all_spec now (reactor.timer_queues_ (react c)) [])
    as (new & qs' & -> & Hq' & Hk' & Hw'); [apply Hok|]. rewrite Ret_bind, app_nil_l.
  rewrite <- Hr4 in Hk', Hw'. destruct (take_due_timers qs' _ c4 Hq' Hk' Hw') as [K5 Hp5].
  rewrite <- Hr4. set (c5 := set_react _ c4) in *.
  assert (exists c6, (if has_timer_fd c5 then arm_timer_fd c5 else Ret c5) = Ret c6 /\
      same_but_world c5 c6) as (c6 & -> & S6).
  { destruct (has_timer_fd c5); [|by exists c5]. apply arm_timer_fd_same.
    assert (context_ok c5) as [? _]; [|done]. by apply (kp_ok _ _ K5), (kp_ok _ _ K4). }
  pose proof (same_but_world_keeps _ _ S6) as K6. destruct S6 as (Hs6 & Hr6 & _).
  rewrite Ret_bind. exists new, c6. split; [done|]. split; [rewrite Hs6; simpl; congruence|].
  split; [etrans; [exact K4|]; by etrans|]. rewrite Hr6. subst c5. simpl. by rewrite Hr4 in *.
Qed.

Lemma run_spec usec (c : context W) :
  context_ok c -> exists ops c', run usec [] c = Ret (ops, c') /\ task_ran c ops c'.
Proof.
  intros Hok. unfold run. destruct (epoll_timeout_spec usec c (proj1 Hok)) as (t & c1 & -> & S1).
  rewrite Ret_bind. pose proof (same_but_world_keeps _ _ S1) as K1. destruct S1 as (Hs1 & Hr1 & Hg1).
  pose proof (given_wait t (world c1)) as Hg2. pose proof (reported t (world c1)) as Hrep.
  destruct (epoll_wait t (world c1)) as [events w]. simpl in Hg2, Hrep.
  set (c2 := set_world w c1). assert (keeps c c2) as K2.
  { etrans; [exact K1|]. by apply same_but_world_keeps. }
  pose proof (kp_ok _ _ K2 Hok) as Hok2.
  destruct (dispatch_events_spec (take 128 events) [] (negb (has_timer_fd c2)) c2)
    as (ds & b & c3 & E3 & A3 & Hs3 & Hw3 & Hn3 & Hd3).
  { intros p e Hin. apply elem_of_dom. apply (proj2 (kp_ok _ _ K1 Hok)). apply (Hrep p e).
    by eapply subseteq_take. }
  { apply NoDup_nil_2. }
  { intros p Hp. by apply elem_of_nil in Hp. }
  rewrite app_nil_l in E3, Hn3. rewrite E3, Ret_bind.
  assert (keeps c c3) as K3 by (etrans; [exact K2|exact (ad_keeps _ _ _ _ A3)]).
  pose proof (kp_ok _ _ K3 Hok) as Hok3.
  assert (react_pending (react c3) ≡ₚ react_pending (react c)) as Hp3.
  { pose proof (advanced_pending _ _ _ _ A3) as E. unfold pending in E. rewrite Hs3 in E.
    simpl in E. rewrite Hr1 in E. by apply Permutation_app_inv_l in E. }
  assert (sched c3 = sched c) as Hsc by (rewrite Hs3; simpl; done).
  destruct b.
  - destruct (expire_timers_spec (descriptor_op <$> ds) c3 Hok3) as (new & c6 & -> & Hs6 & K6 & Hr6 & Hp6).
    eexists _, c6. split; [done|]. split.
    + congruence.
    + by etrans.
    + by rewrite users_app, users_descs, users_expired, app_nil_l, Hp6.
    + rewrite elem_of_app. intros [Hin|Hin]; [by apply no_task_descs in Hin|by apply no_task_expired in Hin].
    + by rewrite descs_app, descs_expired, app_nil_r.
    + intros p. rewrite descs_app, descs_expired, app_nil_r, descs_descs, Hr6. apply Hd3.
  - eexists _, c3. split; [done|]. split; try done.
    + by rewrite users_descs.
    + apply no_task_descs.
    + intros p. rewrite descs_descs. apply Hd3.
Qed.
End Spec.

(** * The minimum over the timer queues *)

(** The time the set of queues waits can be longer than that of one of its queues: a
    due timer allows no wait, and a timer due within the millisecond in a later queue
    makes it one. *)
Theorem timer_queue_set_oversleeps :
  wait_duration_msec 10 300000 TimerQueueRefines.ex_queue = Ret 0 /\
  wait_duration_msec_all 10 300000 [(1%positive, TimerQueueRefines.ex_queue)] = Ret 0 /\
  exists later, enqueue_timer is_positive_infinity 20 1 (mkWaitOp 1 1) TimerQueueRefines.ex_new =
      Ret (true, later) /\
    wait_duration_msec_all 10 300000
      [(1%positive, TimerQueueRefines.ex_queue); (2%positive, later)] = Ret 1.
Proof.
  split; [by vm_compute|]. split; [by vm_compute|]. eexists. split; [by vm_compute|by vm_compute].
Qed.
