(* ===== verification/IoContextSpec.v ===== *)
(** [io_context::run] keeps count: at every round of its loop the outstanding work is
    the number of operations that were started and not yet completed, each operation
    is completed once, the reactor's task is in the queue, behind the descriptors it
    found ready, and the loop ends when, and only when, nothing is left to wait for,
    unless it is stopped. *)

From S2P Require Import Prelude.
From S2P Require Import AsioError.
From S2P Require Import ChronoTimeTraits.
From S2P Require Import TimerQueue.
From S2P Require Import TimerQueueSpec.
From S2P Require Import Scheduler.
From S2P Require Import EpollReactor.
From S2P Require Import IoContext.
From S2P Require Import ReactorSpec.
From AAC_tactics Require Import AAC.
From AAC_tactics Require Instances.
Import Instances.Lists.

Section Spec.
Context {W : Type} `{KernelLaws W}.

(** * Calls *)

(** A call names descriptors that are registered, and timers of the queues. *)
Definition call_ok (x : call) (c : context W) : Prop :=
  match x with
  | call_register _ | call_post _ _ | call_stop => True
  | call_start_op _ _ data _ _ _ | call_cancel_ops data | call_cancel_ops_by_key data _ _
  | call_close _ data _ | call_release _ data => forall p, data = Some p -> p ∈ reactor.live_list_ (react c)
  | call_schedule_timer k time timer _ =>
      timer_here k timer c /\ int64 time /\
        forall q, timer_queue_at k (react c) = Ret q -> zlen (heap_ q) + 1 < npos
  | call_cancel_timer k timer _ | call_cancel_timer_by_key k timer _ => timer_here k timer c
  end.

Fixpoint calls_ok (script : list call) (c : context W) : Prop :=
  match script with
  | [] => True
  | x :: script => call_ok x c /\ forall c', run_call x c = Ret c' -> calls_ok script c'
  end.

Definition is_stop (x : call) : bool :=
  match x with
  | call_stop => true
  | _ => false
  end.

Definition stops (script : list call) : bool := existsb is_stop script.

Lemma advanced_ids ids ids' b (c c' : context W) :
  ids ≡ₚ ids' -> advanced ids b c c' -> advanced ids' b c c'.
Proof.
  intros E [(moved & P & Em) K]. split; [|done]. exists moved. split; [|by rewrite <- E].
  unfold zlen in *. by rewrite <- E.
Qed.

Lemma run_call_spec x (c : context W) :
  context_ok c -> call_ok x c ->
  exists c', run_call x c = Ret c' /\ advanced (call_starts x) (is_stop x) c c'.
Proof.
  intros Hok Hx. destruct x; simpl in Hx |- *.
  - destruct (register_descriptor_spec descriptor c (proj1 Hok)) as (e & p & c' & -> & A). eauto.
  - by apply start_op_spec, live_in_use; [apply Hok|].
  - by apply cancel_ops_spec, live_in_use; [apply Hok|].
  - by apply cancel_ops_by_key_spec, live_in_use; [apply Hok|].
  - unfold close_descriptor.
    destruct (deregister_descriptor_spec descriptor data closing c Hx (proj1 Hok))
      as (data' & c1 & -> & A1 & Hd). rewrite Ret_bind.
    set (c1' := set_world _ c1).
    destruct (cleanup_descriptor_data_spec data' c1' Hd) as (c2 & -> & A2).
    exists c2. split; [done|]. eapply advanced_quiet; [|exact A2].
    eapply advanced_quiet; [exact A1|]. apply advanced_world, given_close.
  - unfold release_descriptor.
    destruct (deregister_descriptor_spec descriptor data false c Hx (proj1 Hok))
      as (data' & c1 & -> & A1 & Hd). rewrite Ret_bind.
    destruct (cleanup_descriptor_data_spec data' c1 Hd) as (c2 & -> & A2).
    exists c2. split; [done|]. by eapply advanced_quiet.
  - eexists. split; [done|]. by apply advanced_immediate.
  - destruct Hx as (Ht & Htime & Hsize). by apply schedule_timer_spec.
  - destruct (reactor_cancel_timer_spec k timer max_cancelled c (proj1 Hok) Hx) as (m & c' & -> & A). eauto.
  - by apply reactor_cancel_timer_by_key_spec; [apply Hok|].
  - eexists. split; [done|]. split; [|done]. exists []. split; [apply stop_posted|done].
Qed.

Lemma run_calls_spec script (c : context W) :
  context_ok c -> calls_ok script c ->
  exists c', run_calls script c = Ret c' /\ advanced (starts script) (stops script) c c'.
Proof.
  revert c. induction script as [|x script IH]; intros c Hok Hs; simpl in *.
  - exists c. split; [done|]. apply advanced_refl.
  - destruct Hs as [Hx Hs]. destruct (run_call_spec x c Hok Hx) as (c1 & E1 & A1).
    destruct (IH c1) as (c2 & E2 & A2); [by apply (kp_ok _ _ (ad_keeps _ _ _ _ A1))|by apply Hs|].
    exists c2. rewrite E1, Ret_bind. split; [done|].
    pose proof (advanced_trans _ _ _ _ _ _ _ A1 A2) as A. rewrite orb_comm in A.
    eapply advanced_ids; [|exact A]. apply Permutation_app_comm.
Qed.

(** * The invariant *)

(** The queue: descriptors with events, each once, then the task, then user
    operations only; the user operations may come anywhere. *)
Record queue_ok (q : list operation) (c : context W) : Prop := {
  qo_split : exists pre post, q = pre ++ (task_operation :: post) /\
    (task_operation ∉ pre) /\ Forall is_user post /\ NoDup (descs pre);
  qo_known p : descriptor_op p ∈ q -> is_Some (reactor.descriptors (react c) !! p)
}.

Record loop_inv (c : context W) : Prop := {
  li_ok : context_ok c;
  li_thread : scheduler.this_thread (sched c) = Some (mkThread 0 []);
  li_task : scheduler.task_ (sched c) = true;
  li_queue : queue_ok (scheduler.op_queue_ (sched c)) c;
  li_balance : scheduler.outstanding_work_ (sched c) = zlen (pending c);
  li_stopped : scheduler.stopped_ (sched c) = false -> 0 < scheduler.outstanding_work_ (sched c)
}.

(** While an operation is completed, its own work still counts. *)
Record running_inv (c : context W) : Prop := {
  ri_ok : context_ok c;
  ri_thread : is_Some (scheduler.this_thread (sched c));
  ri_task : scheduler.task_ (sched c) = true;
  ri_queue : queue_ok (scheduler.op_queue_ (sched c)) c;
  ri_private : Forall is_user (private_queue (sched c));
  ri_private_work : 0 <= private_work (sched c);
  ri_balance : sched_work (sched c) = zlen (pending c) + 1;
  ri_outstanding : 0 < scheduler.outstanding_work_ (sched c)
}.

Lemma user_not_task k : Forall is_user k -> task_operation ∉ k.
Proof. rewrite Forall_forall. intros Hk Hin. by destruct (Hk _ Hin). Qed.

Lemma user_not_desc k p : Forall is_user k -> descriptor_op p ∉ k.
Proof. rewrite Forall_forall. intros Hk Hin. by destruct (Hk _ Hin). Qed.

(** User operations are added at the end. *)
Lemma queue_ok_users q k (c c' : context W) :
  queue_ok q c -> Forall is_user k ->
  dom (reactor.descriptors (react c)) ⊆ dom (reactor.descriptors (react c')) ->
  queue_ok (q ++ k) c'.
Proof.
  intros [(pre & post & -> & Ht & Hp & Hn) Hd] Hk Hdom. split.
  - exists pre, (post ++ k). rewrite <- app_assoc. split; [done|]. split; [done|].
    split; [by apply Forall_app|done].
  - intros p [Hin|Hin]%elem_of_app; [|by apply (user_not_desc k p) in Hin].
    apply elem_of_dom, Hdom, elem_of_dom. by apply Hd.
Qed.

Lemma running_advanced ids b (c c' : context W) :
  running_inv c -> advanced ids b c c' -> running_inv c'.
Proof.
  intros [Hok Ht Hk Hq Hp Hw Hb Ho] A. pose proof (advanced_pending _ _ _ _ A) as Hpend.
  destruct A as [(moved & [P1 P2 P3 P4 (k & Fk & P5) (k' & Fk' & P6) P7 P8 P9] & E) K].
  split.
  - by apply (kp_ok _ _ K).
  - by apply P7.
  - by rewrite P8.
  - rewrite P5. by eapply queue_ok_users; [|done|apply K].
  - rewrite P6. by apply Forall_app.
  - lia.
  - rewrite P2, Hb. unfold zlen. rewrite Hpend, length_app. lia.
  - lia.
Qed.

(** The end of an operation takes its work off the count, and stops the scheduler
    when none is left. *)
Lemma work_cleanup_spec (c : context W) :
  running_inv c ->
  exists s, scheduler.work_cleanup (sched c) = Ret s /\
  loop_inv (set_sched s c) /\ pending (set_sched s c) ≡ₚ pending c /\
  (scheduler.stopped_ s = true ->
  scheduler.stopped_ (sched c) = true \/ pending (set_sched s c) = []).
Proof.
  intros [Hok [i Hi] Hk Hq Hp Hw Hb Ho].
  unfold private_queue, private_work, sched_work in *. unfold private_work in Hb.
  rewrite Hi in Hp, Hw, Hb. unfold scheduler.work_cleanup. rewrite Hi. simpl.
  set (s1 := if 1 <? private_outstanding_work i then _ else _).
  assert (scheduler.op_queue_ s1 = scheduler.op_queue_ (sched c) /\
    scheduler.task_ s1 = true /\
    scheduler.outstanding_work_ s1 =
      scheduler.outstanding_work_ (sched c) + private_outstanding_work i - 1 /\
    (scheduler.stopped_ s1 = false -> 0 < scheduler.outstanding_work_ s1) /\
    (scheduler.stopped_ s1 = true -> scheduler.stopped_ (sched c) = true \/
       scheduler.outstanding_work_ s1 = 0)) as (Eq & Ek & Eo & Hs & Hs').
  { subst s1. destruct (Z.ltb_spec 1 (private_outstanding_work i)).
    { simpl. split; [done|]. split; [done|]. split; [lia|]. split; [lia|auto]. }
    destruct (Z.ltb_spec (private_outstanding_work i) 1).
    2: { split; [done|]. split; [done|]. split; [lia|]. split; [lia|auto]. }
    unfold scheduler.work_finished. simpl.
    destruct (Z.eqb_spec (scheduler.outstanding_work_ (sched c) - 1) 0).
    - unfold scheduler.stop, scheduler.stop_all_threads.
      match goal with |- context [scheduler.interrupt_task ?t] =>
        destruct (interrupt_task_spec t) as (-> & -> & _ & -> & -> & _) end.
      simpl. split; [done|]. split; [done|]. split; [lia|]. split; [done|]. intros _. right. lia.
    - simpl. split; [done|]. split; [done|]. split; [lia|]. split; [lia|auto]. }
  clearbody s1. set (s2 := if bool_decide _ then s1 else _).
  assert (scheduler.op_queue_ s2 = scheduler.op_queue_ (sched c) ++ private_op_queue i /\
    scheduler.task_ s2 = true /\ scheduler.outstanding_work_ s2 = scheduler.outstanding_work_ s1 /\
    scheduler.stopped_ s2 = scheduler.stopped_ s1) as (Eq2 & Ek2 & Eo2 & Es2).
  { subst s2. case_bool_decide as E; simpl; [rewrite E, app_nil_r|]; by rewrite Eq. }
  clearbody s2. eexists. split; [done|].
  assert (pending (set_sched (scheduler.set_thread (Some (mkThread 0 [])) s2) c) ≡ₚ pending c) as Epend.
  { unfold pending, sched_pending, private_queue. simpl. rewrite Hi, Eq2, users_app. simpl.
    by rewrite app_nil_r. }
  split; [|split; [done|]].
  - split; simpl; try done.
    + rewrite Eq2. by eapply queue_ok_users.
    + unfold zlen in *. rewrite Epend, Eo2, Eo. lia.
    + rewrite Es2, Eo2. done.
  - simpl. rewrite Es2. intros Hst. destruct (Hs' Hst) as [?|Hz]; [by left|right].
    assert (pending c = []) as Hnil by (apply nil_length_inv; unfold zlen in Hb; lia).
    apply Permutation_nil_r. by rewrite Epend, Hnil.
Qed.

(** * Rounds *)

(** The front of the queue is taken. *)
Lemma queue_ok_pop o rest (c : context W) :
  queue_ok (o :: rest) c -> o <> task_operation -> queue_ok rest c.
Proof.
  intros [(pre & post & E & Ht & Hp & Hn) Hd] Ho. split.
  - destruct pre as [|x pre]; injection E as Eo E; [done|]. subst x. exists pre, post.
    split; [done|]. split; [by intros Hin; apply Ht; right|]. split; [done|].
    simpl in Hn. destruct (descriptor_id o); [by apply NoDup_cons in Hn as [_ ?]|done].
  - intros p Hp'. apply Hd. by right.
Qed.

(** The scheduler as [do_run_one] completes the operation [o]. *)
Record popped_sched (o : operation) (rest : list operation) (s s' : scheduler.t) : Prop := {
  ps_queue : scheduler.op_queue_ s' = rest;
  ps_work : scheduler.outstanding_work_ s' = scheduler.outstanding_work_ s;
  ps_thread : scheduler.this_thread s' = scheduler.this_thread s;
  ps_task : scheduler.task_ s' = scheduler.task_ s;
  ps_stopped : scheduler.stopped_ s' = scheduler.stopped_ s
}.

Lemma do_run_one_pops o rest s :
  scheduler.stopped_ s = false -> scheduler.op_queue_ s = o :: rest -> o <> task_operation ->
  exists s', scheduler.do_run_one s = scheduler.completes o s' /\
  scheduler.take_first s = Some (o, s') /\ popped_sched o rest s s'.
Proof.
  intros Hs Hq Ho. unfold scheduler.do_run_one, scheduler.take_first. rewrite Hs, Hq. simpl.
  set (s1 := if _ && _ then _ else _). exists s1. split; [by destruct o|]. split; [by destruct o|].
  subst s1. destruct (_ && _); [|done]. unfold scheduler.wake_one_thread_and_unlock.
  destruct (interrupt_task_spec (scheduler.set_queue rest s)) as (E1 & E2 & E3 & E4 & E5 & _).
  by split; rewrite ?E1, ?E2, ?E3, ?E4, ?E5.
Qed.

(** Whatever the front is, completing it leaves the rest of the work counted, and
    one more. *)
Lemma ready_spec o rest s' (c : context W) :
  loop_inv c -> scheduler.stopped_ (sched c) = false ->
  scheduler.op_queue_ (sched c) = o :: rest -> o <> task_operation ->
  popped_sched o rest (sched c) s' ->
  exists cp c', ready o (set_sched s' c) = Ret (cp, c') /\ running_inv c' /\
  (co_id <$> option_list cp) ++ pending c' ≡ₚ pending c /\
  scheduler.stopped_ (sched c') = false.
Proof.
  intros [Hok Ht Hk Hq Hb Hst] Hs Eq Ho [Q1 Q2 Q3 Q4 Q5]. rewrite Eq in Hq.
  pose proof (queue_ok_pop _ _ _ Hq Ho) as Hrest. specialize (Hst Hs).
  assert (is_Some (scheduler.this_thread s')) as Hthread by (rewrite Q3, Ht; eauto).
  assert (forall x, users [o] ++ users rest ++ x ≡ₚ users (scheduler.op_queue_ (sched c)) ++ x) as Hu.
  { intros x. rewrite Eq. change (o :: rest) with ([o] ++ rest). rewrite users_app. aac_reflexivity. }
  destruct o as [|p|cp]; [done| |].
  - destruct (qo_known _ _ Hq p) as [d Hd]; [by left|]. simpl.
    rewrite (load_here_descriptor p d) by done. rewrite Ret_bind.
    destruct (perform_io_spec p (descriptor_state.task_result_ d) (set_sched s' c))
      as (op & c2 & -> & [(moved & [P1 P2 P3 P4 (k & Fk & P5) (k' & Fk' & P6) P7 P8 P9] & E) K]);
      [by exists d|done|]. rewrite Ret_bind.
    assert ((op_ptr <$> option_list op) ++ pending c2 ≡ₚ pending c) as Hpend.
    { unfold pending. rewrite P1. aac_rewrite E. unfold sched_pending, private_queue. simpl.
      rewrite Q1, Q3. specialize (Hu []). simpl in Hu. rewrite !app_nil_r in Hu. rewrite Hu. aac_reflexivity. }
    eexists _, c2. split; [done|]. split; [|split].
    + unfold private_queue, private_work, sched_work, private_work in *. simpl in *.
      rewrite Q3, Ht in *. split; try done.
      * by apply (kp_ok _ _ K).
      * by apply P7.
      * by rewrite P8, Q4.
      * rewrite P5, Q1. eapply queue_ok_users; [done|done|apply K].
      * unfold private_queue. by rewrite P6.
      * unfold sched_work, private_work. rewrite P2, Q2, Hb. unfold zlen.
        rewrite <- Hpend, length_app, length_fmap. destruct op; simpl; lia.
      * rewrite Q2 in P3. lia.
    + rewrite <- Hpend. by destruct op.
    + rewrite P9. simpl. by rewrite Q5.
  - exists (Some cp), (set_sched s' c). split; [done|].
    assert ([co_id cp] ++ pending (set_sched s' c) ≡ₚ pending c) as Hpend.
    { unfold pending, sched_pending, private_queue. simpl. rewrite Q1, Q3, Eq, <- !app_assoc. done. }
    split; [|split; [exact Hpend|by simpl; rewrite Q5]].
    split; unfold private_queue, private_work, sched_work, private_work; simpl;
      rewrite ?Q1, ?Q2, ?Q3, ?Ht, ?Q4; try done.
    + destruct Hrest as [Hsplit Hknown]. by split.
    + rewrite Hb. unfold zlen. rewrite <- Hpend, length_app. simpl. lia.
Qed.

(** The task takes the events, and goes to the end of the queue, behind what it
    found ready. *)
Lemma task_round usec flag rest (c : context W) :
  loop_inv c -> scheduler.stopped_ (sched c) = false ->
  scheduler.op_queue_ (sched c) = task_operation :: rest ->
  exists c',
  run_task usec (set_sched (scheduler.set_interrupted flag
  (scheduler.set_queue rest (sched c))) c) = Ret c' /\
  loop_inv c' /\ pending c' ≡ₚ pending c /\ scheduler.stopped_ (sched c') = false.
Proof.
  intros [Hok Ht Hk Hq Hb Hst] Hs Eq. specialize (Hst Hs). rewrite Eq in Hq.
  assert (Forall is_user rest) as Hrest.
  { destruct Hq as [(pre & post & E & Htk & Hp & _) _]. destruct pre as [|x pre].
    - by injection E as ->.
    - injection E as <- _. exfalso. apply Htk. by left. }
  unfold run_task. simpl. rewrite Ht. simpl.
  set (c1 := set_sched _ c).
  destruct (run_spec usec c1) as (ops & c2 & E & [R1 R2 R3 R4 R5 R6]); [done|].
  rewrite E. simpl. eexists. split; [done|].
  match goal with |- loop_inv ?c3 /\ _ => set (c' := c3) end.
  assert (scheduler.op_queue_ (sched c') = rest ++ ops ++ [task_operation]) as Eq'.
  { simpl. rewrite R1. simpl. by rewrite app_assoc. }
  assert (pending c' ≡ₚ pending c) as Hpend.
  { unfold pending. change (react c') with (react c2). unfold sched_pending at 1. rewrite Eq'.
    rewrite !users_app. unfold private_queue. simpl.
    unfold sched_pending, private_queue. rewrite Ht, Eq. simpl. rewrite !app_nil_r.
    change (react c) with (react c1). rewrite <- R3. aac_reflexivity. }
  split; [|split; [exact Hpend|]].
  - split.
    + assert (context_ok c2) as [H1 H2] by by apply (kp_ok _ _ R2). by split.
    + done.
    + simpl. by rewrite R1.
    + rewrite Eq'. split.
      * exists (rest ++ ops), []. rewrite app_assoc. split; [done|]. split.
        -- intros [Hin|Hin]%elem_of_app; [by apply user_not_task in Hin|done].
        -- split; [constructor|]. rewrite descs_app, (users_no_descs rest) by done. done.
      * intros p. rewrite !elem_of_app. intros [Hin|[Hin|Hin]].
        -- by apply (user_not_desc rest p) in Hin.
        -- apply R6. by apply elem_of_descs.
        -- by apply list_elem_of_singleton in Hin.
    + simpl. rewrite R1. simpl. rewrite Hb. unfold zlen. by rewrite Hpend.
    + intros _. simpl. rewrite R1. done.
  - simpl. rewrite R1. done.
Qed.

(** A script is good for a round when its calls are, at the time its handler runs. *)
Definition script_ok (script : list call) (c : context W) : Prop :=
  forall o s cp c1,
    scheduler.take_first (sched c) = Some (o, s) ->
    ready o (set_sched s c) = Ret (Some cp, c1) -> calls_ok script c1.

Lemma script_ok_nil (c : context W) : script_ok [] c.
Proof. by intros o s cp c1 _ _. Qed.

(** The operations a round starts. *)
Definition started_in (script : list call) (cp : option completion) : list positive :=
  match cp with
  | Some _ => starts script
  | None => []
  end.

(** From [c] to [c'] a round completed [cp], if anything, and its handler called
    [script]. *)
Record round_done (script : list call) (cp : option completion) (c c' : context W) : Prop := {
  rd_loop : loop_inv c';
  rd_pending : (co_id <$> option_list cp) ++ pending c' ≡ₚ started_in script cp ++ pending c;
  rd_stopped : stops script = false -> scheduler.stopped_ (sched c') = true -> pending c' = []
}.

Lemma handler_spec script cp (c1 : context W) :
  running_inv c1 -> scheduler.stopped_ (sched c1) = false ->
  (is_Some cp -> calls_ok script c1) ->
  exists c2, (match cp with
  | Some cp => c ← run_calls script c1; Ret (Some cp, c)
  | None => Ret (None, c1) end) = Ret (cp, c2) /\ running_inv c2 /\
  pending c2 ≡ₚ started_in script cp ++ pending c1 /\
  (stops script = false -> scheduler.stopped_ (sched c2) = false).
Proof.
  intros Hrun Hs Hscript. destruct cp as [cp|]; [|by exists c1].
  destruct (run_calls_spec script c1) as (c2 & E2 & A); [apply Hrun|by apply Hscript|].
  rewrite E2, Ret_bind. exists c2. split; [done|].
  split; [by eapply running_advanced|]. split; [by eapply advanced_pending|]. intros Hst.
  destruct A as [(moved & P & _) _]. by rewrite (po_stopped _ _ _ _ _ P), Hs, Hst.
Qed.

Lemma finish_spec script o rest s' (c : context W) :
  loop_inv c -> script_ok script c -> scheduler.stopped_ (sched c) = false ->
  scheduler.op_queue_ (sched c) = o :: rest -> o <> task_operation ->
  popped_sched o rest (sched c) s' -> scheduler.take_first (sched c) = Some (o, s') ->
  exists cp c', finish o s' (fun _ => script) c = Ret (cp, c') /\ round_done script cp c c'.
Proof.
  intros Hinv Hscript Hs Eq Ho Hpop Htake. unfold finish, complete.
  destruct (ready_spec o rest s' c Hinv Hs Eq Ho Hpop) as (cp & c1 & Er & Hrun & Hpend & Hs1).
  destruct (handler_spec script cp c1 Hrun Hs1) as (c2 & Ec & Hrun2 & Hpend2 & Hstop).
  { intros [x ->]. by eapply Hscript. }
  rewrite Er, Ret_bind.
  assert ((match cp with
    | Some cp0 => c0 ← run_calls ((fun _ => script) cp0) c1; Ret (Some cp0, c0)
    | None => Ret (None, c1) end) = Ret (cp, c2)) as -> by exact Ec.
  rewrite Ret_bind.
  destruct (work_cleanup_spec c2 Hrun2) as (s2 & -> & Hinv2 & Hpend3 & Hz). rewrite Ret_bind.
  exists cp, (set_sched s2 c2). split; [done|]. split; [done| |].
  - rewrite Hpend3, Hpend2, <- Hpend. aac_reflexivity.
  - intros Hns Hs2. destruct (Hz Hs2) as [Hs3|]; [|done]. rewrite (Hstop Hns) in Hs3. congruence.
Qed.

Lemma task_done script (c c' : context W) :
  loop_inv c' -> pending c' ≡ₚ pending c -> scheduler.stopped_ (sched c') = false ->
  round_done script None c c'.
Proof. intros Hl Hp Hs. split; [done|done|]. by rewrite Hs. Qed.

(** A round of the loop, in any state of the invariant that is not stopped. *)
Lemma round_spec script (c : context W) :
  loop_inv c -> script_ok script c -> scheduler.stopped_ (sched c) = false ->
  exists b cp c', loop_once (fun _ => script) c = Ret (loop_goes b cp c') /\
  round_done script cp c c'.
Proof.
  intros Hinv Hscript Hs. unfold loop_once.
  destruct (scheduler.op_queue_ (sched c)) as [|o rest] eqn:Eq.
  { destruct (qo_split _ _ (li_queue _ Hinv)) as (pre & post & E & _).
    rewrite Eq in E. by destruct pre. }
  destruct (decide (o = task_operation)) as [->|Ho].
  - unfold scheduler.do_run_one. rewrite Hs, Eq. simpl.
    destruct (task_round (if negb (bool_decide (rest = [])) then 0 else -1)
      (negb (bool_decide (rest = []))) rest c Hinv Hs Eq) as (c' & E & Hinv' & Hpend & Hs').
    rewrite E. simpl. exists false, None, c'. split; [done|]. by apply task_done.
  - destruct (do_run_one_pops o rest (sched c) Hs Eq Ho) as (s' & E & Htake & Hpop). rewrite E.
    destruct (finish_spec script o rest s' c Hinv Hscript Hs Eq Ho Hpop Htake)
      as (cp & c' & -> & Hd). rewrite Ret_bind. by exists true, cp, c'.
Qed.

(** ** Handlers *)

(** A handler is good for a round when the calls it makes are, and do not stop the
    scheduler. *)
Definition handler_ok (handler : completion -> list call) (c : context W) : Prop :=
  forall o s cp c1,
    scheduler.take_first (sched c) = Some (o, s) ->
    ready o (set_sched s c) = Ret (Some cp, c1) ->
    calls_ok (handler cp) c1 /\ stops (handler cp) = false.

(** The calls of the handler that ran. *)
Definition script_of (handler : completion -> list call) (cp : option completion) : list call :=
  match cp with
  | Some cp => handler cp
  | None => []
  end.

Lemma do_run_one_takes o s' s :
  scheduler.do_run_one s = scheduler.completes o s' -> scheduler.take_first s = Some (o, s').
Proof.
  unfold scheduler.do_run_one, scheduler.take_first. destruct (negb _); [|done].
  destruct (scheduler.op_queue_ s) as [|[] rest]; [done|done|..]; by intros [= <- <-].
Qed.

(** In one round a handler is the script it runs. *)
Lemma finish_handler handler o s (c : context W) :
  exists script, finish o s handler c = finish o s (fun _ => script) c /\
  (scheduler.take_first (sched c) = Some (o, s) -> handler_ok handler c ->
  script_ok script c /\ stops script = false) /\
  (forall cp c', finish o s handler c = Ret (Some cp, c') -> script = handler cp).
Proof.
  unfold finish, complete.
  destruct (ready o (set_sched s c)) as [[[cp|] c1]|e|] eqn:E; rewrite ?Ret_bind.
  1: exists (handler cp); split; [done|]; split.
  - intros Ht Hok. destruct (Hok o s cp c1 Ht E) as [Hc Hs]. split; [|done].
    intros o' s' cp' c1' Ht' E'. rewrite Ht in Ht'. injection Ht' as <- <-.
    rewrite E in E'. by injection E' as <- <-.
  - intros cp' c'. destruct (run_calls (handler cp) c1) as [c2|?|]; [|done|done].
    rewrite !Ret_bind. by destruct (scheduler.work_cleanup (sched c2)); intros [= <- _].
  - exists []. split; [done|]. split; [by intros; split; [apply script_ok_nil|]|].
    intros cp' c'. by destruct (scheduler.work_cleanup (sched c1)).
  - exists []. split; [done|]. split; [by intros; split; [apply script_ok_nil|]|done].
  - exists []. split; [done|]. split; [by intros; split; [apply script_ok_nil|]|done].
Qed.

Lemma script_of_eq (handler : completion -> list call) (script : list call) (cp : option completion) c c' :
  (is_Some cp -> script = script_of handler cp) -> stops script = false ->
  round_done script cp c c' ->
  round_done (script_of handler cp) cp c c' /\ stops (script_of handler cp) = false.
Proof.
  intros Hs Hst [Hl Hp Hz]. destruct cp as [cp|]; simpl in *.
  - by rewrite <- Hs by eauto.
  - split; [|done]. split; [done|done|]. intros _. by apply Hz.
Qed.

(** A round with a handler. *)
Lemma handled_round handler (c : context W) :
  loop_inv c -> handler_ok handler c -> scheduler.stopped_ (sched c) = false ->
  exists b cp c', loop_once handler c = Ret (loop_goes b cp c') /\
  round_done (script_of handler cp) cp c c' /\ stops (script_of handler cp) = false.
Proof.
  intros Hinv Hok Hs.
  assert (exists script, loop_once handler c = loop_once (fun _ => script) c /\
    script_ok script c /\ stops script = false /\
    forall b cp c', loop_once handler c = Ret (loop_goes b (Some cp) c') -> script = handler cp)
    as (script & El & Hscript & Hst & Hcp).
  { unfold loop_once. destruct (scheduler.do_run_one (sched c)) as [| |polling s|o s] eqn:E.
    1-3: exists []; split; [done|]; split; [apply script_ok_nil|]; split; [done|].
    1-3: intros b cp c'; try by destruct (run_task _ _).
    1-2: done.
    - destruct (finish_handler handler o s c) as (script & Ef & Hgood & Hcp).
      destruct (Hgood (do_run_one_takes o s (sched c) E) Hok) as [Hscript Hst].
      exists script. rewrite <- Ef. split; [done|]. split; [done|]. split; [done|].
      intros b cp c'. destruct (finish o s handler c) as [[cp1 c1]|?|] eqn:E1; [|done|done].
      intros [= <- -> ->]. by eapply Hcp. }
  destruct (round_spec script c Hinv Hscript Hs) as (b & cp & c' & E & Hd).
  rewrite <- El in E. exists b, cp, c'. split; [done|].
  apply (script_of_eq handler script); [|done|done]. intros [x ->]. by eapply Hcp.
Qed.

(** ** Polls *)

Lemma wait_task_spec usec (c : context W) :
  loop_inv c -> scheduler.stopped_ (sched c) = false ->
  exists c', wait_task usec c = Ret c' /\ loop_inv c' /\ pending c' ≡ₚ pending c /\
  scheduler.stopped_ (sched c') = false.
Proof.
  intros Hinv Hs. unfold wait_task.
  destruct (scheduler.op_queue_ (sched c)) as [|[] rest] eqn:Eq; [by exists c| |by exists c..].
  by apply task_round.
Qed.

Lemma poll_task_spec (c : context W) :
  loop_inv c -> scheduler.stopped_ (sched c) = false ->
  exists c', poll_task c = Ret c' /\ loop_inv c' /\ pending c' ≡ₚ pending c /\
  scheduler.stopped_ (sched c') = false.
Proof.
  intros Hinv Hs. unfold poll_task.
  destruct (scheduler.op_queue_ (sched c)) as [|[] rest] eqn:Eq; [by exists c| |by exists c..].
  exact (task_round 0 (scheduler.task_interrupted_ (sched c)) rest c Hinv Hs Eq).
Qed.

Lemma finish_first_spec script (c : context W) :
  loop_inv c -> script_ok script c -> scheduler.stopped_ (sched c) = false ->
  exists b cp c', finish_first (fun _ => script) c = Ret (b, cp, c') /\ round_done script cp c c'.
Proof.
  intros Hinv Hscript Hs. unfold finish_first.
  destruct (scheduler.take_first (sched c)) as [[o s]|] eqn:Et.
  - destruct (scheduler.op_queue_ (sched c)) as [|o' rest] eqn:Eq.
    { unfold scheduler.take_first in Et. by rewrite Eq in Et. }
    assert (o' <> task_operation) as Ho.
    { intros ->. unfold scheduler.take_first in Et. by rewrite Eq in Et. }
    destruct (do_run_one_pops o' rest (sched c) Hs Eq Ho) as (s' & _ & Htake & Hpop).
    pose proof Htake as Htake'. rewrite Et in Htake'. injection Htake' as -> ->.
    destruct (finish_spec script o' rest s' c Hinv Hscript Hs Eq Ho Hpop Htake)
      as (cp & c' & -> & Hd). rewrite Ret_bind. by exists true, cp, c'.
  - exists false, None, c. split; [done|]. by apply task_done.
Qed.

Lemma round_done_after script cp (c c1 c' : context W) :
  pending c1 ≡ₚ pending c -> round_done script cp c1 c' -> round_done script cp c c'.
Proof. intros Hp [Hl Hp' Hz]. split; [done| |done]. by rewrite Hp', Hp. Qed.

(** * Histories *)

(** The program makes the calls [setup], all good, before it calls [run]. *)
Definition io_setup (setup : list call) (c : context W) : Prop :=
  exists one_thread interrupter timer_fd qs w,
    Forall (fun kq => timers_ok kq.2) qs /\ NoDup qs.*1 /\ timers_waiting qs = [] /\
    given w = ∅ /\ stops setup = false /\
    calls_ok setup (begin one_thread interrupter timer_fd qs w) /\
    run_calls setup (begin one_thread interrupter timer_fd qs w) = Ret c.

(** A history starts as [run] enters its loop. *)
Definition io_initial (st : io W) : Prop :=
  exists setup c s,
    io_setup setup c /\ scheduler.run_enter (sched c) = (true, s) /\
    st = mkIo (set_sched s c) (starts setup) [].

(** A round whose handler, if one runs, makes good calls; [may_stop] allows it to
    stop the scheduler. *)
Definition io_good_step (may_stop : bool) (st st' : io W) : Prop :=
  exists script, script_ok script (io_context st) /\ (stops script = true -> may_stop = true) /\
    io_step script st st'.

Record io_inv (may_stop : bool) (st : io W) : Prop := {
  ii_loop : loop_inv (io_context st);
  ii_history : io_started st ≡ₚ (co_id <$> io_completed st) ++ pending (io_context st);
  ii_stopped : may_stop = false -> scheduler.stopped_ (sched (io_context st)) = true ->
    pending (io_context st) = []
}.

Lemma begin_spec one_thread interrupter timer_fd qs w :
  Forall (fun kq => timers_ok kq.2) qs -> NoDup qs.*1 -> timers_waiting qs = [] -> given w = ∅ ->
  let c := begin one_thread interrupter timer_fd qs w in
  context_ok c /\ pending c = [] /\ scheduler.op_queue_ (sched c) = [task_operation] /\
  scheduler.task_ (sched c) = true /\ scheduler.stopped_ (sched c) = false /\
  scheduler.outstanding_work_ (sched c) = 0 /\ scheduler.this_thread (sched c) = None.
Proof.
  intros Hqs Hn Hw Hg. unfold begin.
  assert (exists w', create (scheduler.new one_thread) interrupter timer_fd w =
    mkContext (scheduler.new one_thread) (reactor.mk interrupter timer_fd [] false ∅ [] []) w' /\
    given w' = ∅) as (w' & -> & Hg').
  { unfold create, ctl.
    pose proof (given_ctl EPOLL_CTL_ADD interrupter (Z.lor EPOLLIN (Z.lor EPOLLERR EPOLLET))
      at_interrupter w) as G1. simpl in *.
    destruct (epoll_ctl _ _ _ _ _) as [r1 w1]. simpl in *. unfold has_timer_fd. simpl.
    destruct (negb _); [|exists w1; split; [done|set_solver]].
    pose proof (given_ctl EPOLL_CTL_ADD timer_fd (Z.lor EPOLLIN EPOLLERR) at_timer_fd w1) as G2.
    simpl in *. destruct (epoll_ctl _ _ _ _ _) as [r2 w2]. exists w2. split; [done|set_solver]. }
  assert (forall c : context W, reactor.timer_queues_ (react c) = [] ->
    foldr (fun kq c => add_timer_queue kq.1 kq.2 c) c qs =
    set_react (reactor.set_timers qs (react c)) c) as Hfold.
  { intros c Hc. induction qs as [|[k q] qs IH]; simpl.
    - destruct c as [? [] ?]; simpl in *; by subst.
    - rewrite IH; [done|by apply Forall_cons in Hqs as [_ ?]|by apply NoDup_cons in Hn as [_ ?]|].
      unfold timers_waiting in *. simpl in Hw. by apply app_nil in Hw as [_ ?]. }
  rewrite Hfold by done. simpl.
  split; [split; [split; simpl; try done|]|].
  - apply NoDup_nil_2.
  - intros p Hp. by apply elem_of_nil in Hp.
  - simpl. rewrite Hg'. set_solver +.
  - split; [|done]. unfold pending, sched_pending, react_pending. simpl.
    by rewrite gather_empty, Hw.
Qed.

(** What holds while no thread runs the scheduler. *)
Record idle_inv (c : context W) : Prop := {
  id_ok : context_ok c;
  id_thread : scheduler.this_thread (sched c) = None;
  id_task : scheduler.task_ (sched c) = true;
  id_queue : queue_ok (scheduler.op_queue_ (sched c)) c;
  id_balance : scheduler.outstanding_work_ (sched c) = zlen (pending c)
}.

Lemma idle_advanced ids b (c c' : context W) : idle_inv c -> advanced ids b c c' -> idle_inv c'.
Proof.
  intros [Hok Hnone Htask Hq Hb] A. pose proof (advanced_pending _ _ _ _ A) as Hpend.
  destruct A as [(moved & [P1 P2 P3 P4 (k & Fk & P5) (k' & Fk' & P6) P7 P8 P9] & E) K].
  assert (scheduler.this_thread (sched c') = None) as Hnone'.
  { destruct (scheduler.this_thread (sched c')) eqn:Et; [|done]. exfalso.
    rewrite Hnone in P7. destruct P7 as [P7 _]. destruct P7 as [? ?]; [by eexists|done]. }
  split; [by apply (kp_ok _ _ K)|done|by rewrite P8|rewrite P5; by eapply queue_ok_users; [|done|apply K]|].
  unfold sched_work, private_work in P2. rewrite Hnone, Hnone' in P2. unfold zlen in *.
  rewrite Hpend, length_app. lia.
Qed.

Lemma idle_begin one_thread interrupter timer_fd qs w :
  Forall (fun kq => timers_ok kq.2) qs -> NoDup qs.*1 -> timers_waiting qs = [] -> given w = ∅ ->
  idle_inv (begin one_thread interrupter timer_fd qs w).
Proof.
  intros Hqs Hn Hw Hg. destruct (begin_spec one_thread interrupter timer_fd qs w Hqs Hn Hw Hg)
    as (B1 & B2 & B3 & B4 & B5 & B6 & B7).
  split; [done..| |by rewrite B2, B6]. rewrite B3. split.
  - exists [], []. split; [done|]. split; [by intros ?%elem_of_nil|]. split; [constructor|].
    apply NoDup_nil_2.
  - intros p Hp. by apply list_elem_of_singleton in Hp.
Qed.

Lemma setup_spec setup c :
  io_setup setup c ->
  idle_inv c /\ pending c ≡ₚ starts setup /\ scheduler.stopped_ (sched c) = false.
Proof.
  intros (one & i & t & qs & w & Hqs & Hn & Hw & Hg & Hst & Hok & Hrun).
  destruct (begin_spec one i t qs w Hqs Hn Hw Hg) as (B1 & B2 & _ & _ & B5 & _).
  destruct (run_calls_spec setup _ B1 Hok) as (c' & E & A). rewrite Hrun in E. injection E as <-.
  rewrite Hst in A. pose proof (advanced_pending _ _ _ _ A) as Hpend. rewrite B2, app_nil_r in Hpend.
  split; [by eapply idle_advanced; [apply idle_begin|exact A]|]. split; [done|].
  destruct A as [(moved & P & _) _]. by rewrite (po_stopped _ _ _ _ _ P), B5.
Qed.

Lemma enter_spec c s :
  idle_inv c -> scheduler.run_enter (sched c) = (true, s) ->
  loop_inv (set_sched s c) /\ pending (set_sched s c) = pending c /\
  scheduler.stopped_ s = scheduler.stopped_ (sched c).
Proof.
  intros [Hok Hnone Htask Hq Hb]. unfold scheduler.run_enter.
  destruct (Z.eqb_spec (scheduler.outstanding_work_ (sched c)) 0); [done|]. intros [= <-].
  assert (pending (set_sched (scheduler.set_thread (Some (mkThread 0 [])) (sched c)) c) = pending c)
    as Hp by (unfold pending, sched_pending, private_queue; simpl; by rewrite Hnone).
  split; [|done]. split; simpl; [|done|done| | |].
  - by destruct Hok.
  - by destruct Hq.
  - by rewrite Hp.
  - intros _. pose proof (zlen_nonneg (pending c)). lia.
Qed.

(** The loop is not entered when nothing waits. *)
Lemma enter_refused c s :
  idle_inv c -> scheduler.run_enter (sched c) = (false, s) ->
  pending c = [] /\ pending (set_sched s c) = [].
Proof.
  intros [Hok Hnone Htask Hq Hb]. unfold scheduler.run_enter.
  destruct (Z.eqb_spec (scheduler.outstanding_work_ (sched c)) 0) as [Hz|]; [|done]. intros [= <-].
  assert (pending c = []) as Hp by (apply nil_length_inv; unfold zlen in Hb; lia).
  split; [done|]. rewrite <- Hp. unfold pending, sched_pending, private_queue. simpl.
  unfold scheduler.stop, scheduler.stop_all_threads.
  destruct (interrupt_task_spec (scheduler.set_stopped true (sched c))) as (-> & _ & -> & _). done.
Qed.

Lemma leave_spec c : loop_inv c -> idle_inv (leave c) /\ pending (leave c) = pending c.
Proof.
  intros [Hok Ht Hk Hq Hb Hst].
  assert (pending (leave c) = pending c) as Hp
    by (unfold pending, sched_pending, private_queue; simpl; by rewrite Ht).
  split; [|done]. split; simpl; [by destruct Hok|done|done|by destruct Hq|by rewrite Hp].
Qed.

Lemma initial_inv may_stop st : io_initial st -> io_inv may_stop st.
Proof.
  intros (setup & c & s & Hsetup & Henter & ->).
  destruct (setup_spec setup c Hsetup) as (Hidle & Hpend & Hs).
  destruct (enter_spec c s Hidle Henter) as (Hloop & Hp & Hs').
  split; simpl; [done|by rewrite Hp, Hpend|]. by rewrite Hs', Hs.
Qed.

Lemma good_step_inv may_stop st st' :
  io_inv may_stop st -> io_good_step may_stop st st' -> io_inv may_stop st'.
Proof.
  intros Hinv0 (script & Hscript & Hms & Hstep). destruct Hstep as [c started over b cp c' E].
  destruct Hinv0 as [Hloop Hh Hst]. simpl in *.
  assert (scheduler.stopped_ (sched c) = false) as Hs.
  { apply not_true_iff_false. intros Hs. unfold loop_once, scheduler.do_run_one in E.
    by rewrite Hs in E. }
  destruct (round_spec script c Hloop Hscript Hs) as (b' & cp' & c2 & E' & [Hinv Hpend Hz]).
  rewrite E' in E. injection E as -> -> ->. split; simpl; [done| |].
  - rewrite fmap_app, Hh, <- (app_assoc _ (co_id <$> option_list cp)), Hpend. unfold started_in.
    aac_reflexivity.
  - intros Hno Hs2. apply Hz; [|done]. apply not_true_iff_false. intros Ht. specialize (Hms Ht). congruence.
Qed.

Lemma reachable_inv may_stop st0 st :
  io_initial st0 -> rtc (io_good_step may_stop) st0 st -> io_inv may_stop st.
Proof.
  intros Hinit Hr. apply (initial_inv may_stop) in Hinit.
  induction Hr as [|st1 st2 st3 Hstep Hr IH]; [done|]. apply IH. by eapply good_step_inv.
Qed.

(** C26. Whatever the handlers do and the system answers, at every round of
    [run] the operations started are those completed and those that wait, each
    once, and the outstanding work is the number that wait. *)
Theorem io_completes_once may_stop st0 st
    (Hinit : io_initial st0) (Hrun : rtc (io_good_step may_stop) st0 st) :
  io_started st ≡ₚ (co_id <$> io_completed st) ++ pending (io_context st) /\
  scheduler.outstanding_work_ (sched (io_context st)) = zlen (pending (io_context st)).
Proof.
  destruct (reachable_inv _ _ _ Hinit Hrun) as [Hloop Hh _]. split; [done|]. apply Hloop.
Qed.

(** C27. Unless a handler stops it, [run] goes on as long as an operation waits,
    and returns as soon as none does: the loop neither blocks on its event nor does
    anything undefined. *)
Theorem io_runs_while_pending st0 st script
    (Hinit : io_initial st0) (Hrun : rtc (io_good_step false) st0 st)
    (Hscript : script_ok script (io_context st)) :
  (pending (io_context st) <> [] ->
  exists b cp c, loop_once (fun _ => script) (io_context st) = Ret (loop_goes b cp c)) /\
  (pending (io_context st) = [] ->
  loop_once (fun _ => script) (io_context st) = Ret loop_returns).
Proof.
  destruct (reachable_inv _ _ _ Hinit Hrun) as [Hloop _ Hst]. specialize (Hst eq_refl).
  destruct (scheduler.stopped_ (sched (io_context st))) eqn:Hs; split.
  - intros Hp. by destruct Hp; apply Hst.
  - intros _. unfold loop_once, scheduler.do_run_one. by rewrite Hs.
  - intros _. destruct (round_spec _ _ Hloop Hscript Hs) as (b & cp & c & E & _). eauto.
  - intros Hp. pose proof (li_stopped _ Hloop Hs) as Ho. rewrite (li_balance _ Hloop), Hp in Ho. done.
Qed.

(** C29. When the reactor's task runs, no descriptor is in the scheduler's queue:
    all those it returned before were dequeued, so it may queue them again. *)
Theorem io_task_behind_descriptors may_stop st0 st polling s
    (Hinit : io_initial st0) (Hrun : rtc (io_good_step may_stop) st0 st)
    (Htask : scheduler.do_run_one (sched (io_context st)) = scheduler.runs_task polling s) :
  descs (scheduler.op_queue_ s) = [] /\ (task_operation ∉ scheduler.op_queue_ s) /\
  polling = negb (bool_decide (scheduler.op_queue_ s = [])).
Proof.
  destruct (reachable_inv _ _ _ Hinit Hrun) as [Hloop _ _].
  destruct (li_queue _ Hloop) as [(pre & post & Eq & Ht & Hp & _) _].
  unfold scheduler.do_run_one in Htask. rewrite Eq in Htask. destruct (negb _); [|done].
  destruct pre as [|x pre]; simpl in Htask; [|by destruct x; [destruct Ht; left|..]].
  injection Htask as <- <-. simpl. split; [by apply users_no_descs|].
  split; [by apply user_not_task|done].
Qed.

(** An operation waits only on a state that has events registered, as the reactor
    recorded them, and [EPOLLOUT] among them when one waits to write.  The record is
    made before [epoll_ctl] is called to add [EPOLLOUT], whose failure is not looked
    at. *)
Theorem io_waits_registered may_stop st0 st p d
    (Hinit : io_initial st0) (Hrun : rtc (io_good_step may_stop) st0 st)
    (Hd : reactor.descriptors (react (io_context st)) !! p = Some d) :
  (descriptor_state.queue write_op d <> [] ->
  Z.land (descriptor_state.registered_events_ d) EPOLLOUT <> 0) /\
  (descriptor_state.all_queued d <> [] -> descriptor_state.registered_events_ d <> 0).
Proof.
  destruct (reachable_inv _ _ _ Hinit Hrun) as [Hloop _ _].
  exact (ro_registered _ (proj1 (li_ok _ Hloop)) p d Hd).
Qed.

(** ** Whole runs *)

(** A round of the loop with this handler. *)
Definition follows (handler : completion -> list call) (c c' : context W) : Prop :=
  exists b cp, loop_once handler c = Ret (loop_goes b cp c').

(** What the handlers of these completions start. *)
Definition handlers_start (handler : completion -> list call) (cps : list completion) : list positive :=
  concat ((fun cp => starts (handler cp)) <$> cps).

Lemma handlers_start_app handler cps1 cps2 :
  handlers_start handler (cps1 ++ cps2) = handlers_start handler cps1 ++ handlers_start handler cps2.
Proof. unfold handlers_start. by rewrite fmap_app, concat_app. Qed.

Lemma started_in_handler handler cp :
  started_in (script_of handler cp) cp = handlers_start handler (option_list cp).
Proof. destruct cp; simpl; [|done]. unfold handlers_start. simpl. by rewrite app_nil_r. Qed.

Lemma run_loop_spec handler fuel (c : context W) :
  loop_inv c -> (scheduler.stopped_ (sched c) = true -> pending c = []) ->
  (forall c', rtc (follows handler) c c' -> handler_ok handler c') ->
  exists over n cps c', run_loop fuel false handler c = Ret (over, n, cps, c') /\
  loop_inv c' /\ (co_id <$> cps) ++ pending c' ≡ₚ handlers_start handler cps ++ pending c /\
  (over = true -> pending c' = []).
Proof.
  revert c. induction fuel as [|fuel IH]; intros c Hinv Hz Hok; simpl.
  { exists false, 0, [], c. by split; [|split]. }
  destruct (scheduler.stopped_ (sched c)) eqn:Hs.
  { unfold loop_once, scheduler.do_run_one. rewrite Hs. simpl.
    exists true, 0, [], c. split; [done|]. split; [done|]. split; [done|]. by rewrite Hz. }
  destruct (handled_round handler c Hinv (Hok c (rtc_refl _ _)) Hs)
    as (b & cp & c1 & E & [Hinv1 Hp1 Hz1] & Hst). rewrite E, Ret_bind. simpl.
  destruct (IH c1 Hinv1 (Hz1 Hst)) as (over & n & cps & c' & -> & Hinv' & Hp & Hover).
  { intros c2 Hr. apply Hok. eapply rtc_l; [|exact Hr]. by exists b, cp. }
  rewrite Ret_bind. exists over, (counted b n), (option_list cp ++ cps), c'.
  split; [done|]. split; [done|]. split; [|done]. rewrite started_in_handler in Hp1.
  rewrite handlers_start_app, fmap_app, <- app_assoc, Hp.
  rewrite (Permutation_app_swap_app (co_id <$> option_list cp)), Hp1. aac_reflexivity.
Qed.

(** C25. A run of [io_context::run] whose handlers make good calls never fails;
    what it completed and what still waits are, each once, the operations the program
    and its handlers started; when it returns, everything was completed. *)
Theorem io_run_completes fuel handler setup (c : context W)
    (Hsetup : io_setup setup c)
    (Hhandler : forall c', rtc (follows handler) (set_sched (scheduler.run_enter (sched c)).2 c) c' ->
  handler_ok handler c') :
  exists over n cps c', io_run fuel handler c = Ret (over, n, cps, c') /\
  starts setup ++ handlers_start handler cps ≡ₚ (co_id <$> cps) ++ pending c' /\
    (over = true -> pending c' = []).
Proof.
  destruct (setup_spec setup c Hsetup) as (Hidle & Hpend & Hs).
  unfold io_run, entered. destruct (scheduler.run_enter (sched c)) as [goes s] eqn:E. simpl in Hhandler.
  destruct goes.
  - destruct (enter_spec c s Hidle E) as (Hloop & Hp & Hs').
    destruct (run_loop_spec handler fuel (set_sched s c) Hloop) as (over & n & cps & c' & -> & Hl & Hc & Ho).
    { simpl. by rewrite Hs', Hs. }
    { done. }
    rewrite Ret_bind. exists over, n, cps, (if over then leave c' else c').
    split; [done|].
    assert (pending (if over then leave c' else c') = pending c') as ->
      by (destruct over; [by apply leave_spec|done]).
    split; [|done]. rewrite Hc, Hp, Hpend. aac_reflexivity.
  - destruct (enter_refused c s Hidle E) as [H1 H2]. exists true, 0, [], (set_sched s c).
    split; [done|]. rewrite H2. split; [|done]. rewrite <- Hpend, H1. done.
Qed.

(** A poll, or a wait of any length, never waits for another thread, and keeps count
    as a round of [run] does. *)
Lemma wait_once_counts usec script (c : context W) :
  loop_inv c -> scheduler.stopped_ (sched c) = false ->
  (forall c', wait_task usec c = Ret c' -> script_ok script c') ->
  exists b cp c', wait_once usec (fun _ => script) c = Ret (b, cp, c') /\ round_done script cp c c'.
Proof.
  intros Hinv Hs Hscript. unfold wait_once. rewrite Hs.
  destruct (wait_task_spec usec c Hinv Hs) as (c1 & E & Hinv1 & Hp1 & Hs1).
  rewrite E, Ret_bind. destruct (finish_first_spec script c1 Hinv1 (Hscript _ E) Hs1)
    as (b & cp & c' & Ef & Hd). exists b, cp, c'. split; [done|]. by eapply round_done_after.
Qed.

Lemma poll_once_counts script (c : context W) :
  loop_inv c -> scheduler.stopped_ (sched c) = false ->
  (forall c', poll_task c = Ret c' -> script_ok script c') ->
  exists b cp c', poll_once (fun _ => script) c = Ret (b, cp, c') /\ round_done script cp c c'.
Proof.
  intros Hinv Hs Hscript. unfold poll_once. rewrite Hs.
  destruct (poll_task_spec c Hinv Hs) as (c1 & E & Hinv1 & Hp1 & Hs1).
  rewrite E, Ret_bind. destruct (finish_first_spec script c1 Hinv1 (Hscript _ E) Hs1)
    as (b & cp & c' & Ef & Hd). exists b, cp, c'. split; [done|]. by eapply round_done_after.
Qed.

(** C31. The reactor stays well formed: whatever good calls a handler makes, in
    whatever order, none fails, and the descriptors' states are each in one list of
    the pool, free ones without operations, operations wait only on registered
    descriptors, the timer queues stand for maps of timers, and [epoll] is given
    pointers to the pool only. *)
Theorem calls_keep_well_formed script (c : context W)
    (Hok : context_ok c) (Hcalls : calls_ok script c) :
  exists c', run_calls script c = Ret c' /\ context_ok c' /\
    dom (reactor.descriptors (react c)) ⊆ dom (reactor.descriptors (react c')).
Proof.
  destruct (run_calls_spec script c Hok Hcalls) as (c' & E & [_ K]).
  exists c'. split; [done|]. by split; apply K.
Qed.

(** Closing a descriptor that is in use completes all its operations with
    [operation_aborted], in order, and forgets it. *)
Theorem close_aborts descriptor p closing (c : context W) d
    (Hok : context_ok c) (Hone : scheduler.one_thread_ (sched c) = false)
    (Hlive : p ∈ reactor.live_list_ (react c))
    (Hd : reactor.descriptors (react c) !! p = Some d)
    (Hopen : descriptor_state.shutdown_ d = false) :
  exists c', close_descriptor descriptor (Some p) closing c = Ret c' /\
  scheduler.op_queue_ (sched c') =
  scheduler.op_queue_ (sched c) ++ (aborted <$> descriptor_state.all_queued d) /\
  scheduler.outstanding_work_ (sched c') = scheduler.outstanding_work_ (sched c) /\
  reactor.descriptors (react c') !! p = Some (descriptor_state.deregistered d) /\
  p ∉ reactor.live_list_ (react c').
Proof.
  unfold close_descriptor, deregister_descriptor.
  rewrite (load_here_descriptor _ _ _ Hd), Ret_bind, Hopen. simpl negb. cbv iota zeta.
  set (c1 := if closing then c else _).
  assert (sched c1 = sched c /\ react c1 = react c) as [Es Er].
  { subst c1. destruct closing; [done|]. destruct (negb _); [|done]. unfold ctl.
    by destruct (epoll_ctl _ _ _ _ _). }
  rewrite Ret_bind. unfold cleanup_descriptor_data, reactor.free. simpl.
  rewrite Er, decide_True by done. rewrite Ret_bind. eexists. split; [done|]. simpl.
  rewrite Es. unfold scheduler.post_deferred_completions. rewrite Hone.
  assert (forall s ops, scheduler.op_queue_ s = scheduler.op_queue_ (sched c) ++ ops ->
    scheduler.outstanding_work_ s = scheduler.outstanding_work_ (sched c) ->
    scheduler.op_queue_ (scheduler.wake_one_thread_and_unlock s) =
      scheduler.op_queue_ (sched c) ++ ops /\
    scheduler.outstanding_work_ (scheduler.wake_one_thread_and_unlock s) =
      scheduler.outstanding_work_ (sched c)) as Hwake.
  { intros s ops Hq Ho. unfold scheduler.wake_one_thread_and_unlock.
    by destruct (interrupt_task_spec s) as (-> & -> & _). }
  split; [|split; [|split]].
  - case_bool_decide as E; [by rewrite E, app_nil_r|]. by apply Hwake.
  - case_bool_decide as E; [done|]. by eapply Hwake.
  - apply lookup_insert_eq.
  - intros Hin. by apply list_elem_of_filter in Hin as [? _].
Qed.
End Spec.

(** * An example *)

(** A system whose descriptors become ready when it is asked for events: every
    [epoll_wait] reports the next of the lists of events, as far as the descriptors
    were given to it, and from then on operations are done at once. *)
Record toy := mkToy {
  toy_given : gset positive;
  toy_events : list (list (event_source * Z));
  toy_ready : bool
}.

Definition toy_knows (w : toy) (e : event_source * Z) : Prop :=
  match e.1 with
  | at_descriptor p => p ∈ toy_given w
  | _ => True
  end.

#[global] Instance toy_knows_dec w e : Decision (toy_knows w e).
Proof. unfold toy_knows. destruct (e.1); apply _. Defined.

#[global] Instance toy_kernel : Kernel toy := {
  perform id r w :=
    (if toy_ready w then SocketStream.reactor_op.done else SocketStream.reactor_op.not_done,
     SocketStream.reactor_op.mk ec_success 5, w);
  epoll_ctl op fd events source w :=
    (None, match source with
           | at_descriptor p => mkToy ({[p]} ∪ toy_given w) (toy_events w) (toy_ready w)
           | _ => w
           end);
  epoll_wait timeout w :=
    (filter (toy_knows w) (default [] (head (toy_events w))),
     mkToy (toy_given w) (tail (toy_events w)) true);
  close_fd fd w := w;
  timerfd_settime abs sec nsec w := w;
  clock_now w := (0, w)
}.

#[global] Program Instance toy_laws : KernelLaws toy := { given := toy_given }.
Next Obligation. intros w. by vm_compute. Qed.
Next Obligation. intros w. done. Qed.
Next Obligation. intros id r w. done. Qed.
Next Obligation. intros fd w. done. Qed.
Next Obligation. intros abs sec nsec w. done. Qed.
Next Obligation. intros op fd events [| |p] w; simpl; set_solver. Qed.
Next Obligation. intros timeout w. done. Qed.
Next Obligation. intros timeout w p events. simpl. by intros [Hk _]%list_elem_of_filter. Qed.

Definition ex_world : toy := mkToy ∅ [[(at_descriptor 1, EPOLLIN)]] false.

(** The program registers a socket, starts a read on it, and posts an operation. *)
Definition ex_read : queued_op := mkOp 10 1 (SocketStream.reactor_op.new ec_success).
Definition ex_setup : list call :=
  [call_register 7; call_start_op read_op 7 (Some 1%positive) ex_read false true;
   call_post (mkCompletion 11 ec_success 0) false].
Definition ex_begin : context toy := begin false 3 (-1) [] ex_world.

Definition returned {A} (o : outcome A) (a : A) : A :=
  match o with
  | Ret a => a
  | _ => a
  end.

Definition ex_context : context toy := returned (run_calls ex_setup ex_begin) ex_begin.
Definition ex_entered : scheduler.t :=
  (scheduler.run_enter (sched ex_context)).2.
Definition ex_start : io toy := mkIo (set_sched ex_entered ex_context) (starts ex_setup) [].

Lemma ex_setup_ok : calls_ok ex_setup ex_begin.
Proof.
  split; [done|]. intros c1 E1. vm_compute in E1. injection E1 as <-.
  split; [intros p [= <-]; by left|]. intros c2 E2. split; [done|]. by intros.
Qed.

Lemma ex_io_setup : io_setup ex_setup ex_context.
Proof.
  exists false, 3, (-1), [], ex_world.
  split; [constructor|]. split; [apply NoDup_nil_2|]. split; [done|]. split; [done|].
  split; [done|]. split; [exact ex_setup_ok|by vm_compute].
Qed.

Lemma ex_initial : io_initial ex_start.
Proof.
  exists ex_setup, ex_context, ex_entered. split; [exact ex_io_setup|].
  split; [by vm_compute|done].
Qed.

(** Some rounds whose handlers call nothing. *)
Fixpoint io_rounds (n : nat) (st : io toy) : io toy :=
  match n with
  | O => st
  | S n =>
      match loop_once (fun _ => []) (io_context st) with
      | Ret (loop_goes _ cp c) => io_rounds n (mkIo c (io_started st) (io_completed st ++ option_list cp))
      | _ => st
      end
  end.

Lemma io_rounds_related (R : io toy -> io toy -> Prop) :
  (forall st st', io_step [] st st' -> R st st') -> forall n st, rtc R st (io_rounds n st).
Proof.
  intros HR n. induction n as [|n IH]; intros [c started over]; simpl; [done|].
  destruct (loop_once _ c) as [[| |b cp c']|?|] eqn:E; try done.
  eapply rtc_l; [|apply IH]. apply HR.
  pose proof (io_round [] c started over b cp c' E) as Hs.
  assert (started ++ match cp with Some _ => starts [] | None => [] end = started) as Es
    by (destruct cp; apply app_nil_r).
  by rewrite Es in Hs.
Qed.

Lemma io_rounds_steps n st : rtc (io_good_step false) st (io_rounds n st).
Proof.
  apply io_rounds_related. intros st1 st2 Hs. exists []. split; [apply script_ok_nil|by split].
Qed.

(** The task, then the posted operation, whose handler has run; the read waits. *)
Definition ex_mid : io toy := io_rounds 2 ex_start.

Lemma io_completes_once_witness :
  io_initial ex_start /\ rtc (io_good_step false) ex_start ex_mid /\
  scheduler.outstanding_work_ (sched (io_context ex_mid)) = zlen (pending (io_context ex_mid)) /\
  io_started ex_mid ≡ₚ (co_id <$> io_completed ex_mid) ++ pending (io_context ex_mid).
Proof.
  split; [exact ex_initial|]. split; [apply io_rounds_steps|].
  destruct (io_completes_once false ex_start ex_mid ex_initial (io_rounds_steps 2 ex_start))
    as [Hp Hw]. split; [exact Hw|exact Hp].
Defined.

Lemma io_runs_while_pending_witness :
  io_initial ex_start /\ rtc (io_good_step false) ex_start ex_mid /\
  script_ok [] (io_context ex_mid) /\
  exists b cp c, loop_once (fun _ => []) (io_context ex_mid) = Ret (loop_goes b cp c).
Proof.
  split; [exact ex_initial|]. split; [apply io_rounds_steps|]. split; [apply script_ok_nil|].
  destruct (io_runs_while_pending ex_start ex_mid [] ex_initial (io_rounds_steps 2 ex_start)
    (script_ok_nil _)) as [Hgo _]. apply Hgo. by vm_compute.
Defined.

Lemma io_task_behind_descriptors_witness :
  io_initial ex_start /\ rtc (io_good_step false) ex_start ex_start /\
  exists s, scheduler.do_run_one (sched (io_context ex_start)) = scheduler.runs_task true s /\
            descs (scheduler.op_queue_ s) = [].
Proof.
  split; [exact ex_initial|]. split; [exact (io_rounds_steps 0 ex_start)|].
  destruct (scheduler.do_run_one (sched (io_context ex_start))) as [| |polling s|o s] eqn:E;
    [by vm_compute in E..| |by vm_compute in E].
  destruct (io_task_behind_descriptors false ex_start ex_start polling s ex_initial
    (io_rounds_steps 0 ex_start) E) as (Hd & _ & Hp).
  exists s. split; [|exact Hd]. f_equal. rewrite Hp. vm_compute in E. by injection E as <- <-.
Defined.

Lemma io_waits_registered_witness :
  io_initial ex_start /\ rtc (io_good_step false) ex_start ex_mid /\
  exists d, reactor.descriptors (react (io_context ex_mid)) !! 1%positive = Some d /\
    descriptor_state.registered_events_ d <> 0.
Proof.
  split; [exact ex_initial|]. split; [apply io_rounds_steps|].
  eexists. split; [by vm_compute|].
  eapply (io_waits_registered false ex_start ex_mid 1%positive _ ex_initial (io_rounds_steps 2 ex_start));
    [by vm_compute|by vm_compute].
Defined.

Lemma ex_context_ok : context_ok (io_context ex_mid).
Proof. exact (li_ok _ (ii_loop _ _ (reachable_inv false _ _ ex_initial (io_rounds_steps 2 ex_start)))). Qed.

Definition ex_descriptor : descriptor_state.t :=
  default descriptor_state.new (reactor.descriptors (react (io_context ex_mid)) !! 1%positive).

Lemma close_aborts_witness :
  context_ok (io_context ex_mid) /\
  exists c', close_descriptor 7 (Some 1%positive) true (io_context ex_mid) = Ret c' /\
    scheduler.op_queue_ (sched c') =
      scheduler.op_queue_ (sched (io_context ex_mid)) ++ (aborted <$> descriptor_state.all_queued ex_descriptor).
Proof.
  split; [exact ex_context_ok|].
  destruct (close_aborts 7 1%positive true (io_context ex_mid) ex_descriptor ex_context_ok)
    as (c' & E & Eq & _); [by vm_compute|by left|by vm_compute|by vm_compute|].
  exists c'. split; [exact E|]. exact Eq.
Defined.

(** The handler of the posted operation posts another. *)
Definition ex_handler (cp : completion) : list call :=
  if (co_id cp =? 11)%positive then [call_post (mkCompletion 12 ec_success 0) false] else [].

Lemma ex_run :
  exists c, io_run 8 ex_handler ex_context =
    Ret (true, 3, [mkCompletion 11 ec_success 0; mkCompletion 10 ec_success 5;
                   mkCompletion 12 ec_success 0], c).
Proof. eexists. by vm_compute. Qed.

Lemma io_run_completes_witness :
  io_setup ex_setup ex_context /\
  exists over n cps c', io_run 8 ex_handler ex_context = Ret (over, n, cps, c') /\
    starts ex_setup ++ handlers_start ex_handler cps ≡ₚ (co_id <$> cps) ++ pending c' /\
    (over = true -> pending c' = []).
Proof.
  split; [exact ex_io_setup|]. apply (io_run_completes 8 ex_handler ex_setup ex_context ex_io_setup).
  intros c' _ o s cp c1 _ _. unfold ex_handler. by destruct (co_id cp =? 11)%positive.
Defined.

Lemma calls_keep_well_formed_witness :
  context_ok ex_begin /\ calls_ok ex_setup ex_begin /\
  exists c', run_calls ex_setup ex_begin = Ret c' /\ context_ok c'.
Proof.
  assert (context_ok ex_begin) as Hok
    by (apply (begin_spec false 3 (-1) [] ex_world); [constructor|apply NoDup_nil_2|done|done]).
  split; [exact Hok|]. split; [exact ex_setup_ok|].
  destruct (calls_keep_well_formed ex_setup ex_begin Hok ex_setup_ok) as (c' & E & Hc & _).
  exists c'. split; [exact E|exact Hc].
Defined.
