(* ===== verification/PerformSpec.v ===== *)
(** What the reactor does with the events of a descriptor ([perform_io] of
    [detail/impl/epoll_reactor.ipp]): which of its operations are attempted, in what
    order, when it stops, and where those that are done go. *)

From S2P Require Import Prelude.
From S2P Require Import AsioError.
From S2P Require Import SocketStream.
From S2P Require Import TimerQueueSpec.
From S2P Require Import Scheduler.
From S2P Require Import EpollReactor.
From S2P Require Import IoContext.
From S2P Require Import ReactorSpec.
From S2P Require Import IoContextSpec.

Section Perform.
Context {W : Type} `{Kernel W}.

(** * One type of operation *)

(** An attempt at an operation, with its result. *)
Definition attempted_as (st : reactor_op.status) (op op' : queued_op) (w w' : W) : Prop :=
  perform (op_ptr op) (op_result op) w = (st, op_result op', w') /\ op' = set_result (op_result op') op.

(** Operations attempted one after the other, all done. *)
Inductive all_done : W -> list queued_op -> list queued_op -> W -> Prop :=
  | all_done_nil w : all_done w [] [] w
  | all_done_cons w op op' w1 ops ops' w' :
      attempted_as reactor_op.done op op' w w1 -> all_done w1 ops ops' w' ->
      all_done w (op :: ops) (op' :: ops') w'.

(** The events that wake the operations of a type; an error wakes them all. *)
Definition wakes (events : Z) (k : op_types) : bool :=
  negb (Z.land events (Z.lor (flag k) (Z.lor EPOLLERR EPOLLHUP)) =? 0).

Definition try_of (k : op_types) (d : descriptor_state.t) : bool :=
  op_at k (descriptor_state.try_speculative_ d).

(** The operations of type [k] of the descriptor [d] that are done, [finished]: those in
    front of the first that is not done, which stays with the result of its attempt, or
    up to the first that exhausts the descriptor, which is then not tried at once
    the next time. *)
Definition performed (k : op_types) (events : Z) (d d' : descriptor_state.t)
    (finished : list queued_op) (w w' : W) : Prop :=
  let q' := descriptor_state.queue k d' in
  if wakes events k then
    exists before rest ops w1, descriptor_state.queue k d = before ++ rest /\ all_done w before ops w1 /\
    match rest with
    | [] => finished = ops /\ q' = [] /\ try_of k d' = true /\ w' = w1
    | op :: rest =>
        exists st op', attempted_as st op op' w1 w' /\
        match st with
        | reactor_op.not_done => finished = ops /\ q' = op' :: rest /\ try_of k d' = true
        | reactor_op.done_and_exhausted => finished = ops ++ [op'] /\ q' = rest /\ try_of k d' = false
        | reactor_op.done => False
        end
    end
  else finished = [] /\ q' = descriptor_state.queue k d /\ try_of k d' = try_of k d /\ w' = w.

Lemma performed_ext k events d1 d2 d1' d2' finished w w' :
  descriptor_state.queue k d1 = descriptor_state.queue k d2 -> try_of k d1 = try_of k d2 ->
  descriptor_state.queue k d1' = descriptor_state.queue k d2' -> try_of k d1' = try_of k d2' ->
  performed k events d1 d1' finished w w' -> performed k events d2 d2' finished w w'.
Proof. unfold performed. by intros -> -> -> ->. Qed.

Lemma perform_queue_performed q (w : W) rest finished exhausted w' :
  perform_queue q w = (rest, finished, exhausted, w') ->
  exists before after ops w1, q = before ++ after /\ all_done w before ops w1 /\
  match after with
  | [] => finished = ops /\ rest = [] /\ exhausted = false /\ w' = w1
  | op :: after =>
      exists st op', attempted_as st op op' w1 w' /\
      match st with
      | reactor_op.not_done => finished = ops /\ rest = op' :: after /\ exhausted = false
      | reactor_op.done_and_exhausted => finished = ops ++ [op'] /\ rest = after /\ exhausted = true
      | reactor_op.done => False
      end
  end.
Proof.
  revert w rest finished exhausted w'.
  induction q as [|op q IH]; intros w rest finished exhausted w' E; simpl in E.
  { injection E as <- <- <- <-. exists [], [], [], w. split; [done|]. split; [constructor|done]. }
  destruct (perform (op_ptr op) (op_result op) w) as [[st r] w1] eqn:Ep.
  assert (attempted_as st op (set_result r op) w w1) as Ha by by split.
  destruct st.
  - injection E as <- <- <- <-. exists [], (op :: q), [], w. split; [done|]. split; [constructor|].
    by exists reactor_op.not_done, (set_result r op).
  - destruct (perform_queue q w1) as [[[rest1 fin1] ex1] w2] eqn:Eq. injection E as <- <- <- <-.
    destruct (IH _ _ _ _ _ Eq) as (before & after & ops & w3 & -> & Hd & Hr).
    exists (op :: before), after, (set_result r op :: ops), w3.
    split; [done|]. split; [by econstructor|].
    destruct after as [|op1 after]; [by destruct Hr as (-> & -> & -> & ->)|].
    destruct Hr as (st & op' & Ha' & Hst). exists st, op'. split; [done|].
    destruct st; [by destruct Hst as (-> & -> & ->)|done|by destruct Hst as (-> & -> & ->)].
  - injection E as <- <- <- <-. exists [], (op :: q), [], w. split; [done|]. split; [constructor|].
    by exists reactor_op.done_and_exhausted, (set_result r op).
Qed.

(** One type's events leave the other types alone. *)
Lemma perform_type_performed k events d (w : W) d' finished w' :
  perform_type k events d w = (d', finished, w') ->
  performed k events d d' finished w w' /\
  forall k', k' <> k -> descriptor_state.queue k' d' = descriptor_state.queue k' d /\ try_of k' d' = try_of k' d.
Proof.
  unfold perform_type, performed. fold (wakes events k). destruct (wakes events k).
  2: { by intros [= <- <- <-]. }
  destruct (perform_queue _ _) as [[[rest fin] ex] w1] eqn:Eq. intros [= <- <- <-].
  assert (descriptor_state.queue k (descriptor_state.set_try k true d) = descriptor_state.queue k d)
    as Eqk by by destruct k.
  rewrite Eqk in Eq. split.
  - destruct (perform_queue_performed _ _ _ _ _ _ Eq) as (before & after & ops & w2 & Hq & Hd & Hr).
    exists before, after, ops, w2. split; [done|]. split; [done|].
    assert (forall x : bool, ex = x -> descriptor_state.queue k (if ex then
        descriptor_state.set_try k false (descriptor_state.set_queue k rest (descriptor_state.set_try k true d))
      else descriptor_state.set_queue k rest (descriptor_state.set_try k true d)) = rest /\
      try_of k (if ex then
        descriptor_state.set_try k false (descriptor_state.set_queue k rest (descriptor_state.set_try k true d))
      else descriptor_state.set_queue k rest (descriptor_state.set_try k true d)) = negb x) as Hafter
      by (intros x ->; destruct x, k; done).
    destruct after as [|op after].
    + destruct Hr as (-> & -> & Hx & ->). by destruct (Hafter _ Hx) as [-> ->].
    + destruct Hr as (st & op' & Ha & Hst). exists st, op'. split; [done|].
      destruct st; [|done|]; destruct Hst as (-> & -> & Hx); by destruct (Hafter _ Hx) as [-> ->].
  - intros k' Hk. destruct ex, k, k'; done.
Qed.

(** * The events of a descriptor *)

(** C30. When events arrive for a descriptor, its operations are attempted type by
    type, exceptional ones first, then writes, then reads; those of a type that the
    events do not wake stay as they are; of the others the front is attempted until one
    is not done, which stays with the result of its attempt, or one exhausts the
    descriptor, and nothing behind it is attempted.  The first that is done is
    completed at once and the others are queued behind what the scheduler has, in that
    order, with the results that performing them gave; when none is done, the count of
    work is made up for.  Other descriptors are left alone. *)
Theorem perform_io_attempts p events (c : context W) d i
    (Hd : reactor.descriptors (react c) !! p = Some d)
    (Hone : scheduler.one_thread_ (sched c) = false)
    (Hthread : scheduler.this_thread (sched c) = Some i) :
  exists c' d' excepts writes reads w2 w1,
  performed except_op events d d' excepts (world c) w2 /\
  performed write_op events d d' writes w2 w1 /\
  performed read_op events d d' reads w1 (world c') /\
  reactor.descriptors (react c') = <[p := d']> (reactor.descriptors (react c)) /\
  match excepts ++ writes ++ reads with
  | first :: rest =>
      perform_io p events c = Ret (Some first, c') /\
      scheduler.op_queue_ (sched c') = scheduler.op_queue_ (sched c) ++ (completed <$> rest) /\
      scheduler.this_thread (sched c') = Some i
  | [] =>
      perform_io p events c = Ret (None, c') /\
      scheduler.op_queue_ (sched c') = scheduler.op_queue_ (sched c) /\
      scheduler.this_thread (sched c') =
        Some (mkThread (private_outstanding_work i + 1) (private_op_queue i))
  end.
Proof.
  unfold perform_io. rewrite (load_here_descriptor _ _ _ Hd), Ret_bind.
  destruct (perform_type except_op events d (world c)) as [[d2 ops2] w2] eqn:E2.
  destruct (perform_type write_op events d2 w2) as [[d1 ops1] w1] eqn:E1.
  destruct (perform_type read_op events d1 w1) as [[d0 ops0] w0] eqn:E0.
  apply perform_type_performed in E2 as [P2 F2], E1 as [P1 F1], E0 as [P0 F0].
  assert (exists c', match ops2 ++ ops1 ++ ops0 with
    | first :: rest =>
        Ret (Some first, post_deferred_completions (completed <$> rest)
          (store_descriptor p d0 (set_world w0 c))) = Ret (Some first, c') /\
        scheduler.op_queue_ (sched c') = scheduler.op_queue_ (sched c) ++ (completed <$> rest) /\
        scheduler.this_thread (sched c') = Some i
    | [] =>
        (s ← scheduler.compensating_work_started (sched (store_descriptor p d0 (set_world w0 c)));
         Ret (None, set_sched s (store_descriptor p d0 (set_world w0 c))) :
           outcome (option queued_op * context W)) = Ret (None, c') /\
        scheduler.op_queue_ (sched c') = scheduler.op_queue_ (sched c) /\
        scheduler.this_thread (sched c') =
          Some (mkThread (private_outstanding_work i + 1) (private_op_queue i))
    end /\ react c' = react (store_descriptor p d0 (set_world w0 c)) /\ world c' = w0) as (c' & Hc & Er & Ew).
  { destruct (ops2 ++ ops1 ++ ops0) as [|first rest].
    - unfold scheduler.compensating_work_started. simpl. rewrite Hthread. by eexists.
    - eexists. split; [split; [done|]|done]. simpl.
      unfold scheduler.post_deferred_completions. rewrite Hone.
      case_bool_decide as E; [apply fmap_nil_inv in E as ->; by rewrite app_nil_r|].
      unfold scheduler.wake_one_thread_and_unlock.
      match goal with |- context [scheduler.interrupt_task ?t] =>
        by destruct (interrupt_task_spec t) as (-> & _ & -> & _) end. }
  exists c', d0, ops2, ops1, ops0, w2, w1. rewrite Er, Ew.
  destruct (F1 except_op), (F0 except_op), (F2 write_op), (F0 write_op), (F2 read_op), (F1 read_op); try done.
  split; [by eapply performed_ext; [..|exact P2]; congruence|].
  split; [by eapply performed_ext; [..|exact P1]; congruence|].
  split; [by eapply performed_ext; [..|exact P0]; congruence|].
  split; [done|]. destruct (ops2 ++ ops1 ++ ops0); exact Hc.
Qed.

End Perform.

(** The read of the example of [IoContextSpec] is done when the descriptor can be read. *)
Lemma perform_io_attempts_witness :
  exists first rest d' c',
    performed read_op EPOLLIN ex_descriptor d' (first :: rest) (world (io_context ex_mid)) (world c') /\
    perform_io 1 EPOLLIN (io_context ex_mid) = Ret (Some first, c') /\
    completion_of first = mkCompletion 10 ec_success 5.
Proof.
  destruct (perform_io_attempts 1 EPOLLIN (io_context ex_mid) ex_descriptor (mkThread 0 []))
    as (c' & d' & e & w & r & w2 & w1 & He & Hw & Hr & _ & E); [by vm_compute..|].
  unfold performed in He, Hw.
  change (wakes EPOLLIN except_op) with false in He. change (wakes EPOLLIN write_op) with false in Hw.
  destruct He as (-> & _ & _ & ->), Hw as (-> & _ & _ & ->). simpl app in E.
  assert (exists first c2, perform_io 1 EPOLLIN (io_context ex_mid) = Ret (Some first, c2) /\
    completion_of first = mkCompletion 10 ec_success 5) as (first & c2 & E2 & Ef).
  { eexists _, _. split; [by vm_compute|reflexivity]. }
  rewrite E2 in E. destruct r as [|first' rest]; [by destruct E as [E _]|].
  destruct E as [[= <- <-] _]. exists first, rest, d', c2. split; [exact Hr|]. split; [exact E2|exact Ef].
Defined.
