(* ===== verification/ResultsSpec.v ===== *)
(** The results the event loop delivers: a handler is called with what performing its
    operation last gave, or with an error of the reactor, whatever happened to other
    operations in between.

    What is known of an operation that waits, and of one that is done, is a [Story] of
    the world; every operation of the loop keeps the stories of the pending operations
    and of the queued completions ([results_ok]). *)

From S2P Require Import Prelude.
From S2P Require Import AsioError.
From S2P Require Import SocketStream.
From S2P Require Import ChronoTimeTraits.
From S2P Require Import TimerQueue.
From S2P Require Import TimerQueueSpec.
From S2P Require Import TimerQueueRefines.
From S2P Require Import Scheduler.
From S2P Require Import EpollReactor.
From S2P Require Import IoContext.
From S2P Require Import ReactorSpec.
From S2P Require Import IoContextSpec.
From AAC_tactics Require Import AAC.
From AAC_tactics Require Instances.
Import Instances.Lists.

Lemma Forall_filter_of {A} (P Q : A -> Prop) `{!forall x, Decision (P x)} (l : list A) :
  Forall Q l -> Forall Q (filter P l).
Proof. rewrite !Forall_forall. intros Hl x [_ Hx]%list_elem_of_filter. by apply Hl. Qed.

Lemma elem_of_gather {A B} (f : A -> list B) (m : gmap positive A) y :
  y ∈ gather f m -> exists k x, m !! k = Some x /\ y ∈ f x.
Proof.
  unfold gather. intros (l & Hl%list_elem_of_In & Hy%list_elem_of_In)%list_elem_of_In%in_concat.
  apply list_elem_of_fmap in Hl as ([k x] & -> & Hin%elem_of_map_to_list). by exists k, x.
Qed.

Section Pending.
Context {W : Type} `{KernelLaws W}.

Lemma pending_queue (c : context W) : users (scheduler.op_queue_ (sched c)) ⊆ pending c.
Proof. unfold pending, sched_pending. set_solver. Qed.

Lemma pending_private (c : context W) : users (private_queue (sched c)) ⊆ pending c.
Proof. unfold pending, sched_pending. set_solver. Qed.

Lemma pending_pointers p d (c : context W) : reactor.descriptors (react c) !! p = Some d -> pointers d ⊆ pending c.
Proof.
  intros Hd. unfold pending, react_pending. rewrite (gather_delete pointers _ p d Hd). set_solver.
Qed.

End Pending.

(** * Stories

    A story says what holds, in a world, of an operation that waits with the result it
    has so far, and of a completion.  Performing an operation carries its story on and
    leaves those of the others alone; the rest of the kernel touches none.  What is
    said of an operation may rest on the operations being distinct, unless no world
    matters ([stable]). *)

Section Errors.
Context {W : Type} `{Kernel W}.

(** The errors of the reactor itself. *)
Inductive reactor_error : error_code -> Prop :=
  | cancelled_error : reactor_error operation_aborted
  | unregistered_error : reactor_error bad_descriptor
  | unsupported_error : reactor_error (make_error_code error.operation_not_supported)
  | epoll_error op fd events source w errno :
      (epoll_ctl op fd events source w).1 = Some errno ->
      reactor_error (mk_error_code errno system_category).
End Errors.
Arguments reactor_error W {_} ec.

Section Kept.
Context {W : Type} (Waiting : W -> positive -> reactor_op.t -> Prop) (Finished : W -> completion -> Prop).

(** What is said of an operation outlives a change of the world. *)
Record kept (id : positive) (w w' : W) : Prop := {
  kept_waiting r : Waiting w id r -> Waiting w' id r;
  kept_finished ec n : Finished w (mkCompletion id ec n) -> Finished w' (mkCompletion id ec n)
}.

#[global] Instance kept_preorder id : PreOrder (kept id).
Proof. split; [by split|]. intros w1 w2 w3 [W1 F1] [W2 F2]. split; auto. Qed.

Definition calm (w w' : W) : Prop := forall id, kept id w w'.

#[global] Instance calm_preorder : PreOrder calm.
Proof.
  split; [by intros w id|]. intros w1 w2 w3 H1 H2 id. etrans; [apply H1|apply H2].
Qed.
End Kept.

Class Story {W : Type} `{Kernel W} (stable : Prop) (Waiting : W -> positive -> reactor_op.t -> Prop)
    (Finished : W -> completion -> Prop) (Waits : positive -> Prop) : Prop := {
  story_perform id r w st r' w' :
    Waiting w id r -> perform id r w = (st, r', w') ->
    match st with
    | reactor_op.not_done => Waiting w' id r'
    | _ => Finished w' (mkCompletion id (reactor_op.ec_ r') (reactor_op.bytes_transferred_ r'))
    end;
  story_frame id r w st r' w' id' :
    Waiting w id r -> perform id r w = (st, r', w') -> stable \/ id' <> id ->
    kept Waiting Finished id' w w';
  story_ctl op fd events source w : calm Waiting Finished w (epoll_ctl op fd events source w).2;
  story_wait timeout w : calm Waiting Finished w (epoll_wait timeout w).2;
  story_close fd w : calm Waiting Finished w (close_fd fd w);
  story_settime abs sec nsec w : calm Waiting Finished w (timerfd_settime abs sec nsec w);
  story_clock w : calm Waiting Finished w (clock_now w).2;
  story_fails id r w ec :
    Waiting w id r -> reactor_error W ec ->
    Finished w (mkCompletion id ec (reactor_op.bytes_transferred_ r));
  story_waits id ec w :
    Waits id -> ec = ec_success \/ ec = operation_aborted -> Finished w (mkCompletion id ec 0)
}.

Section Results.
Context {W : Type} `{KernelLaws W} (stable : Prop)
    (Waiting : W -> positive -> reactor_op.t -> Prop) (Finished : W -> completion -> Prop)
    (Waits : positive -> Prop) `{!Story stable Waiting Finished Waits}.

Local Abbreviation kept := (kept Waiting Finished).
Local Abbreviation calm := (calm Waiting Finished).

Definition finished_op (w : W) (o : operation) : Prop :=
  match o with
  | user_op cp => Finished w cp
  | _ => True
  end.

Definition op_ok (w : W) (op : queued_op) : Prop := Waiting w (op_ptr op) (op_result op).

Record results_ok (c : context W) : Prop := {
  rs_ops p d : reactor.descriptors (react c) !! p = Some d ->
    Forall (op_ok (world c)) (descriptor_state.all_queued d);
  rs_timers : Forall Waits (timers_waiting (reactor.timer_queues_ (react c)));
  rs_queue : Forall (finished_op (world c)) (scheduler.op_queue_ (sched c));
  rs_private : Forall (finished_op (world c)) (private_queue (sched c))
}.

(** The operations that are listed do not matter to each other. *)
Definition distinct (ids : list positive) : Prop := stable \/ NoDup ids.

(** All but the operations listed are kept. *)
Definition frame (ids : list positive) (w w' : W) : Prop :=
  forall id, stable \/ (id ∉ ids) -> kept id w w'.

Lemma frame_refl ids w : frame ids w w.
Proof. by intros id _. Qed.

Lemma frame_trans ids ids' w1 w2 w3 :
  ids' ⊆ ids -> frame ids w1 w2 -> frame ids' w2 w3 -> frame ids w1 w3.
Proof.
  intros Hsub F1 F2 id Hid. etrans; [by apply F1|]. apply F2. destruct Hid as [|Hid]; [by left|right].
  intros Hin. by apply Hid, Hsub.
Qed.

Lemma op_kept w w' op : kept (op_ptr op) w w' -> op_ok w op -> op_ok w' op.
Proof. intros Hk. apply (kept_waiting Waiting Finished), Hk. Qed.

Lemma finished_kept w w' o : (forall id, user_id o = Some id -> kept id w w') -> finished_op w o -> finished_op w' o.
Proof. intros Hk. destruct o as [| |[id ec n]]; simpl; [done..|]. by apply (Hk id). Qed.

Lemma finished_frame ids w w' q :
  frame ids w w' -> (stable \/ forall id, id ∈ users q -> id ∉ ids) ->
  Forall (finished_op w) q -> Forall (finished_op w') q.
Proof.
  intros Hf Hid. rewrite !Forall_forall. intros Hq o Ho. eapply finished_kept; [|by apply Hq].
  intros id Hu. apply Hf. destruct Hid as [|Hid]; [by left|right]. apply Hid.
  apply list_elem_of_omap. by exists o.
Qed.

Lemma ops_frame ids w w' q :
  frame ids w w' -> (stable \/ forall id, id ∈ op_ptr <$> q -> id ∉ ids) ->
  Forall (op_ok w) q -> Forall (op_ok w') q.
Proof.
  intros Hf Hid. rewrite !Forall_forall. intros Hq op Hop. eapply op_kept; [|by apply Hq].
  apply Hf. destruct Hid as [|Hid]; [by left|right]. apply Hid. by apply list_elem_of_fmap_2.
Qed.

(** * Steps that change little *)

Lemma aborted_finished w op : op_ok w op -> finished_op w (aborted op).
Proof.
  intros Hop. unfold aborted, completed, completion_of, finished_op. simpl.
  eapply story_fails; [exact Hop|constructor].
Qed.

Lemma aborted_all w ops : Forall (op_ok w) ops -> Forall (finished_op w) (aborted <$> ops).
Proof. intros Hops. apply Forall_fmap. by eapply Forall_impl; [|apply aborted_finished]. Qed.

Lemma results_world w c : calm (world c) w -> results_ok c -> results_ok (set_world w c).
Proof.
  intros Hw [Ho Ht Hq Hp]. split; [|done|..]; simpl.
  - intros p d Hd. specialize (Ho p d Hd). eapply Forall_impl; [exact Ho|].
    intros op. apply op_kept, Hw.
  - eapply (finished_frame [] (world c)); [by intros id _|right; set_solver|done].
  - eapply (finished_frame [] (world c)); [by intros id _|right; set_solver|done].
Qed.

(** Only the queues of the scheduler matter. *)
Lemma results_sched s c :
  results_ok c -> Forall (finished_op (world c)) (scheduler.op_queue_ s) ->
  Forall (finished_op (world c)) (private_queue s) -> results_ok (set_sched s c).
Proof. by intros [Ho Ht _ _] Hq Hp. Qed.

Lemma results_wake s c :
  results_ok c -> Forall (finished_op (world c)) (scheduler.op_queue_ s) ->
  Forall (finished_op (world c)) (private_queue s) ->
  results_ok (set_sched (scheduler.interrupt_task s) c).
Proof.
  intros Hc Hq Hp. destruct (interrupt_task_spec s) as (E1 & _ & E3 & _).
  apply results_sched; [done|by rewrite E1|]. unfold private_queue. by rewrite E3.
Qed.

Lemma results_work_started c : results_ok c -> results_ok (work_started c).
Proof. intros Hc. apply results_sched; [done|apply Hc|apply Hc]. Qed.

Lemma results_immediate op b c :
  finished_op (world c) op -> results_ok c -> results_ok (post_immediate_completion op b c).
Proof.
  intros Hop Hc. unfold post_immediate_completion, scheduler.post_immediate_completion.
  pose proof (rs_queue _ Hc) as Hq. pose proof (rs_private _ Hc) as Hp. unfold private_queue in Hp.
  destruct (if _ || b then _ else None) as [i|] eqn:E.
  - apply results_sched; [done|done|]. unfold private_queue. simpl.
    destruct (_ || b); [|done]. rewrite E in Hp. apply Forall_app. split; [done|by constructor].
  - apply results_wake; [done| |done]. simpl. apply Forall_app. split; [done|by constructor].
Qed.

Lemma results_deferred ops c :
  Forall (finished_op (world c)) ops -> results_ok c -> results_ok (post_deferred_completions ops c).
Proof.
  intros Hops Hc. unfold post_deferred_completions, scheduler.post_deferred_completions.
  pose proof (rs_queue _ Hc) as Hq. pose proof (rs_private _ Hc) as Hp. unfold private_queue in Hp.
  destruct (bool_decide _); [by apply results_sched; [|apply Hc..]|].
  destruct (if scheduler.one_thread_ _ then _ else None) as [i|] eqn:E.
  - apply results_sched; [done|done|]. unfold private_queue. simpl.
    destruct (scheduler.one_thread_ _); [|done]. rewrite E in Hp. by apply Forall_app.
  - apply results_wake; [done| |done]. simpl. by apply Forall_app.
Qed.

Lemma results_store p d c :
  Forall (op_ok (world c)) (descriptor_state.all_queued d) -> results_ok c ->
  results_ok (store_descriptor p d c).
Proof.
  intros Hd [Ho Ht Hq Hp]. split; try done. intros p' d'. simpl.
  intros [[<- <-]|[_ Hp']]%lookup_insert_Some; [done|by eapply Ho].
Qed.

Lemma results_ctl op fd events source c r c' :
  ctl op fd events source c = (r, c') -> results_ok c ->
  results_ok c' /\ calm (world c) (world c') /\
  (forall errno, r = Some errno -> reactor_error W (mk_error_code errno system_category)).
Proof.
  unfold ctl. pose proof (story_ctl op fd events source (world c)) as Hcalm.
  destruct (epoll_ctl op fd events source (world c)) as [r1 w] eqn:Ec. intros [= <- <-] Hc.
  split; [by apply results_world|]. split; [done|]. intros errno ->. eapply epoll_error.
  by rewrite Ec.
Qed.

Lemma results_snd_ctl op fd events source c :
  results_ok c -> results_ok (snd (ctl op fd events source c)).
Proof.
  destruct (ctl op fd events source c) as [r c'] eqn:E. intros Hc.
  by apply (results_ctl _ _ _ _ _ _ _ E Hc).
Qed.

Lemma ctl_world op fd events source c :
  calm (world c) (world (snd (ctl op fd events source c))).
Proof.
  unfold ctl. pose proof (story_ctl op fd events source (world c)). by destruct (epoll_ctl _ _ _ _ _).
Qed.

Lemma ops_calm w w' q : calm w w' -> Forall (op_ok w) q -> Forall (op_ok w') q.
Proof. intros Hw. apply (ops_frame []); [by intros id _|right; set_solver]. Qed.

Lemma finished_calm w w' q : calm w w' -> Forall (finished_op w) q -> Forall (finished_op w') q.
Proof. intros Hw. apply (finished_frame []); [by intros id _|right; set_solver]. Qed.

Lemma results_load p d c :
  load_descriptor p c = Ret d -> results_ok c -> Forall (op_ok (world c)) (descriptor_state.all_queued d).
Proof. intros E%deref_Ret Hc. by eapply rs_ops. Qed.

(** * The reactor *)

Lemma results_alloc p r' c :
  reactor.alloc (react c) = (p, r') -> results_ok c -> results_ok (set_react r' c).
Proof.
  intros E [Ho Ht Hq Hp]. unfold reactor.alloc in E.
  destruct (reactor.free_list_ (react c)); injection E as <- <-; split; try done.
  intros p' d'. simpl. intros [[_ <-]|[_ Hp']]%lookup_insert_Some; [constructor|by eapply Ho].
Qed.

Lemma results_register fd c e p c' :
  register_descriptor fd c = Ret (e, p, c') -> results_ok c ->
  results_ok c' /\ calm (world c) (world c').
Proof.
  unfold register_descriptor. intros E Hc. destruct (reactor.alloc (react c)) as [q r'] eqn:Ea.
  pose proof (results_alloc _ _ _ Ea Hc) as Hc1. apply bind_Ret in E as (d & Hd & E).
  pose proof (results_load _ _ _ Hd Hc1) as Hops.
  destruct (ctl _ _ _ _ _) as [r c2] eqn:Ec.
  destruct (results_ctl _ _ _ _ _ _ _ Ec (results_store q (descriptor_state.registered fd all_events d) _ Hops Hc1))
    as (Hc2 & Hw & _). simpl in Hw.
  destruct r as [errno|]; [destruct (errno =? EPERM)|]; injection E as <- <- <-; try done.
  split; [|done]. apply results_store; [|done]. by eapply (ops_calm (world c)).
Qed.

Lemma results_enqueue k p op c c' :
  enqueue_op k p op c = Ret c' -> op_ok (world c) op -> results_ok c -> results_ok c'.
Proof.
  unfold enqueue_op. intros (d & Hd & [= <-])%bind_Ret Hop Hc. apply results_work_started.
  pose proof (results_load _ _ _ Hd Hc) as Hops. apply results_store; [|done].
  unfold descriptor_state.all_queued in *. rewrite !Forall_app in Hops.
  destruct Hops as (H1 & H2 & H3).
  destruct k; simpl; rewrite !Forall_app; repeat split; try done; by constructor.
Qed.

(** ** Operations that are distinct *)

(** An operation that is not pending changes the world. *)
Lemma results_other id w' c :
  frame [id] (world c) w' -> (stable \/ (id ∉ pending c)) -> results_ok c -> results_ok (set_world w' c).
Proof.
  intros Hf Hid [Ho Ht Hq Hp].
  assert (forall ids, ids ⊆ pending c -> stable \/ forall id', id' ∈ ids -> id' ∉ [id]) as Hids.
  { intros ids Hsub. destruct Hid as [|Hid]; [by left|right]. intros id' Hin ->%list_elem_of_singleton.
    by apply Hid, Hsub. }
  split; simpl; [|done|..].
  - intros p d Hd. eapply (ops_frame [id]); [exact Hf|by apply Hids, (pending_pointers p)|by eapply Ho].
  - eapply (finished_frame [id]); [exact Hf|apply Hids, pending_queue|done].
  - eapply (finished_frame [id]); [exact Hf|apply Hids, pending_private|done].
Qed.

(** The operations of one descriptor change the world, and are then as they should. *)
Lemma results_descriptor p d d' w' c :
  reactor.descriptors (react c) !! p = Some d -> frame (pointers d) (world c) w' ->
  distinct (pending c) -> Forall (op_ok w') (descriptor_state.all_queued d') -> results_ok c ->
  results_ok (store_descriptor p d' (set_world w' c)).
Proof.
  intros Hd Hf Hn Hd' [Ho Ht Hq Hp].
  assert (distinct (pointers d ++ sched_pending (sched c) ++
    gather pointers (delete p (reactor.descriptors (react c))))) as Hn'.
  { destruct Hn as [|Hn]; [by left|right]. unfold pending, react_pending in Hn.
    rewrite (gather_delete pointers _ p d Hd) in Hn.
    apply (NoDup_app _ (timers_waiting (reactor.timer_queues_ (react c)))).
    eapply NoDup_Permutation_proper; [|exact Hn]. aac_reflexivity. }
  assert (forall ids, ids ⊆ sched_pending (sched c) ++
    gather pointers (delete p (reactor.descriptors (react c))) ->
    stable \/ forall id', id' ∈ ids -> id' ∉ pointers d) as Hids.
  { intros ids Hsub. destruct Hn' as [|Hn']; [by left|right]. intros id' Hin Hin'.
    apply NoDup_app in Hn' as (_ & Hn' & _). by eapply Hn', Hsub. }
  split; simpl; [|done|..].
  - intros p' dp'. intros [[<- <-]|[Hne Hp']]%lookup_insert_Some; [done|].
    eapply (ops_frame (pointers d)); [exact Hf| |by eapply Ho]. apply Hids.
    assert (delete p (reactor.descriptors (react c)) !! p' = Some dp') as Hp2
      by (by rewrite lookup_delete_ne).
    rewrite (gather_delete pointers _ p' dp' Hp2). set_solver.
  - eapply (finished_frame (pointers d)); [exact Hf| |done]. apply Hids. unfold sched_pending. set_solver.
  - eapply (finished_frame (pointers d)); [exact Hf| |done]. apply Hids. unfold sched_pending. set_solver.
Qed.

(** ** Starting *)

(** A speculative attempt carries the story on, finished or not. *)
Lemma results_try k p d op c fin op' d' c' :
  try_perform k p d op c = (fin, op', d', c') -> op_ok (world c) op ->
  (stable \/ (op_ptr op ∉ pending c)) -> reactor.descriptors (react c) !! p = Some d -> results_ok c ->
  results_ok c' /\ Forall (op_ok (world c')) (descriptor_state.all_queued d') /\ op_ptr op' = op_ptr op /\
  (if fin then finished_op (world c') (completed op') else op_ok (world c') op').
Proof.
  unfold try_perform. intros E Hop Hid Hd Hc. pose proof (rs_ops _ Hc _ _ Hd) as Hops.
  destruct (op_at _ _); [|by injection E as <- <- <- <-].
  destruct (perform (op_ptr op) (op_result op) (world c)) as [[st r] w] eqn:Ep.
  pose proof (story_perform _ _ _ _ _ _ Hop Ep) as Hst.
  assert (frame [op_ptr op] (world c) w) as Hf.
  { intros id Hne. eapply story_frame; [exact Hop|exact Ep|]. destruct Hne; [by left|right; set_solver]. }
  pose proof (results_other _ _ _ Hf Hid Hc) as Hc1. pose proof (rs_ops _ Hc1 p d Hd) as Hd1.
  destruct st; injection E as <- <- <- <-; try done.
  assert (Forall (op_ok w) (descriptor_state.all_queued (if negb (descriptor_state.registered_events_ d =? 0)
    then descriptor_state.set_try k false d else d))) as Hd' by by destruct (negb _).
  split; [by apply results_store|done].
Qed.

Lemma results_now op b c c' :
  complete_now op b c = Ret c' -> finished_op (world c) (completed op) -> results_ok c -> results_ok c'.
Proof. intros [= <-]. apply results_immediate. Qed.

Lemma results_failed op ec b c c' :
  complete_now (set_ec ec op) b c = Ret c' -> op_ok (world c) op -> reactor_error W ec -> results_ok c ->
  results_ok c'.
Proof.
  intros E Hop Hec. apply (results_now _ _ _ _ E). unfold completed, completion_of, finished_op. simpl.
  by eapply story_fails.
Qed.

Lemma results_speculative k fd p d op b c c' :
  start_speculative k fd p d op b c = Ret c' -> op_ok (world c) op ->
  (stable \/ (op_ptr op ∉ pending c)) -> reactor.descriptors (react c) !! p = Some d -> results_ok c ->
  results_ok c'.
Proof.
  unfold start_speculative. intros E Hop Hid Hd Hc.
  destruct (try_perform k p d op c) as [[[fin op1] d1] c1] eqn:Et.
  destruct (results_try _ _ _ _ _ _ _ _ _ Et Hop Hid Hd Hc) as (Hc1 & Hd1 & _ & Hop1).
  destruct fin; [by eapply results_now|].
  destruct (_ =? 0); [by eapply results_failed; [..|constructor|]|].
  destruct (bool_decide _ && _); [|by eapply results_enqueue].
  unfold enqueue_first_write in E.
  destruct (ctl _ _ _ _ _) as [r c2] eqn:Ec.
  destruct (results_ctl _ _ _ _ _ _ _ Ec Hc1) as (Hc2 & Hw & He).
  assert (op_ok (world c2) op1) as Hop2 by (eapply op_kept; [apply Hw|done]).
  destruct r as [errno|].
  - eapply results_failed; [exact E|done|by apply He|done].
  - eapply results_enqueue; [exact E|done|]. apply results_store; [|done].
    by apply (ops_calm (world c1)).
Qed.

Lemma results_waiting k fd p d op b c c' :
  start_waiting k fd p d op b c = Ret c' -> op_ok (world c) op ->
  Forall (op_ok (world c)) (descriptor_state.all_queued d) -> results_ok c -> results_ok c'.
Proof.
  unfold start_waiting. intros E Hop Hd Hc.
  destruct (_ =? 0); [by eapply results_failed; [..|constructor|]|].
  set (d1 := if bool_decide _ then _ else d) in *.
  assert (Forall (op_ok (world c)) (descriptor_state.all_queued d1)) as Hd1 by (subst d1; by case_bool_decide).
  destruct (ctl _ _ _ _ _) as [r c2] eqn:Ec.
  destruct (results_ctl _ _ _ _ _ _ _ Ec (results_store p d1 c Hd1 Hc)) as (Hc2 & Hw & _).
  eapply results_enqueue; [exact E| |done]. eapply op_kept; [apply Hw|done].
Qed.

(** An operation that is started on a descriptor that is shut down completes as it is. *)
Definition refusable (data : option positive) (op : queued_op) (c : context W) : Prop :=
  forall p d, data = Some p -> reactor.descriptors (react c) !! p = Some d ->
    descriptor_state.shutdown_ d = true -> finished_op (world c) (completed op).

Lemma results_start_op k fd data op b speculative c c' :
  start_op k fd data op b speculative c = Ret c' -> op_ok (world c) op -> refusable data op c ->
  (stable \/ (op_ptr op ∉ pending c)) -> results_ok c -> results_ok c'.
Proof.
  unfold start_op. intros E Hop Hs Hid Hc.
  destruct data as [p|]; [|by eapply results_failed; [..|constructor|]].
  apply bind_Ret in E as (d & Hd & E). pose proof (results_load _ _ _ Hd Hc) as Hops.
  apply deref_Ret in Hd.
  destruct (descriptor_state.shutdown_ d) eqn:Hshut.
  { eapply results_now; [exact E| |done]. by eapply Hs. }
  destruct (bool_decide _); [|by eapply results_enqueue].
  destruct (speculative && _); [by eapply results_speculative|by eapply results_waiting].
Qed.

(** ** Ending operations *)

Lemma results_cancel_ops data c c' :
  cancel_ops data c = Ret c' -> results_ok c -> results_ok c'.
Proof.
  unfold cancel_ops. intros E Hc. destruct data as [p|]; [|by injection E as <-].
  apply bind_Ret in E as (d & Hd & [= <-]). pose proof (results_load _ _ _ Hd Hc) as Hops.
  apply results_deferred; [by apply aborted_all|]. apply results_store; [constructor|done].
Qed.

Lemma results_cancel_by_key data k key c c' :
  cancel_ops_by_key data k key c = Ret c' -> results_ok c -> results_ok c'.
Proof.
  unfold cancel_ops_by_key. intros E Hc. destruct data as [p|]; [|by injection E as <-].
  apply bind_Ret in E as (d & Hd & [= <-]). pose proof (results_load _ _ _ Hd Hc) as Hops.
  unfold descriptor_state.all_queued in Hops. rewrite !Forall_app in Hops.
  destruct Hops as (H1 & H2 & H3).
  assert (forall P `{!forall x, Decision (P x)}, Forall (op_ok (world c)) (filter P (descriptor_state.queue k d)))
    as Hf by (intros P ?; apply Forall_filter_of; by destruct k).
  apply results_deferred; [apply aborted_all, Hf|]. apply results_store; [|done].
  unfold descriptor_state.all_queued. rewrite !Forall_app.
  destruct k; simpl; repeat split; (done || apply Hf).
Qed.

Lemma results_deregister fd data closing c data' c' :
  deregister_descriptor fd data closing c = Ret (data', c') -> results_ok c ->
  results_ok c'.
Proof.
  unfold deregister_descriptor. intros E Hc. destruct data as [p|]; [|by injection E as <- <-].
  apply bind_Ret in E as (d & Hd & E). pose proof (results_load _ _ _ Hd Hc) as Hops.
  destruct (negb _); [|by injection E as <- <-]. injection E as <- <-.
  set (c1 := if closing then c else _).
  assert (results_ok c1 /\ calm (world c) (world c1)) as [Hc1 Hw].
  { subst c1. destruct closing; [done|]. destruct (negb _); [|done].
    split; [by apply results_snd_ctl|apply ctl_world]. }
  apply results_deferred; [|by apply results_store; [constructor|]].
  apply aborted_all. by eapply ops_calm.
Qed.

Lemma results_cleanup data c c' :
  cleanup_descriptor_data data c = Ret c' -> results_ok c -> results_ok c'.
Proof.
  unfold cleanup_descriptor_data. intros E Hc. destruct data as [p|]; [|by injection E as <-].
  apply bind_Ret in E as (r & Er & [= <-]). unfold reactor.free in Er.
  destruct (decide _); [|done]. injection Er as <-. by destruct Hc.
Qed.

(** ** Performing *)

Lemma results_perform_queue q (w : W) rest over b w' :
  perform_queue q w = (rest, over, b, w') -> distinct (op_ptr <$> q) -> Forall (op_ok w) q ->
  Forall (op_ok w') rest /\ Forall (finished_op w') (completed <$> over) /\ frame (op_ptr <$> q) w w'.
Proof.
  revert w rest over b w'. induction q as [|op q IH]; intros w rest over b w'; simpl.
  { intros [= <- <- <- <-] _ _. split; [done|]. split; [constructor|apply frame_refl]. }
  destruct (perform (op_ptr op) (op_result op) w) as [[st r] w1] eqn:Ep.
  intros E Hn [Hop Hq]%Forall_cons. pose proof (story_perform _ _ _ _ _ _ Hop Ep) as Hst.
  assert (frame (op_ptr <$> op :: q) w w1) as Hf.
  { intros id Hid. eapply story_frame; [exact Hop|exact Ep|].
    destruct Hid; [by left|right; set_solver]. }
  assert (stable \/ (op_ptr op ∉ op_ptr <$> q)) as Hout
    by (destruct Hn as [|Hn]; [by left|right; by apply NoDup_cons in Hn as [? _]]).
  assert (Forall (op_ok w1) q) as Hq1.
  { eapply (ops_frame [op_ptr op]); [|destruct Hout; [by left|right; set_solver]|exact Hq].
    intros id Hid. eapply story_frame; [exact Hop|exact Ep|].
    destruct Hid; [by left|right; set_solver]. }
  destruct st.
  - injection E as <- <- <- <-. split; [by constructor|]. by split; [constructor|].
  - destruct (perform_queue q w1) as [[[rest1 over1] b1] w2] eqn:Eq. injection E as <- <- <- <-.
    destruct (IH _ _ _ _ _ Eq) as (Hrest & Hover & Hf2); [|done|].
    { destruct Hn as [|Hn]; [by left|right; by apply NoDup_cons in Hn as [_ ?]]. }
    split; [done|]. split; [|by eapply frame_trans; [|exact Hf|exact Hf2]; set_solver].
    constructor; [|done]. eapply finished_kept; [|exact Hst]. intros id [= <-]. by apply Hf2.
  - injection E as <- <- <- <-. split; [done|]. by split; [constructor|].
Qed.

(** The performing of a descriptor's operations so far: [over] are finished. *)
Record performing (ids : list positive) (w0 : W) (d : descriptor_state.t) (over : list queued_op)
    (w : W) : Prop := {
  pf_ids : ids ≡ₚ (op_ptr <$> over) ++ pointers d;
  pf_ops : Forall (op_ok w) (descriptor_state.all_queued d);
  pf_over : Forall (finished_op w) (completed <$> over);
  pf_frame : frame ids w0 w
}.

Lemma results_perform_type ids w0 k events d over w d' over' w' :
  performing ids w0 d over w -> distinct ids -> perform_type k events d w = (d', over', w') ->
  performing ids w0 d' (over ++ over') w'.
Proof.
  intros [Hids Hd Ho Hf] Hn E. destruct (perform_type_spec _ _ _ _ _ _ _ E) as (Eids & _).
  unfold perform_type in E. destruct (negb _); [|injection E as <- <- <-; by rewrite app_nil_r].
  destruct (perform_queue _ w) as [[[rest over1] b] w1] eqn:Eq.
  assert (distinct ((op_ptr <$> over) ++ pointers d)) as Hn1
    by (destruct Hn as [|Hn]; [by left|right; by rewrite <- Hids]).
  set (q := descriptor_state.queue k (descriptor_state.set_try k true d)) in *.
  assert (q ⊆ descriptor_state.all_queued d /\ distinct (op_ptr <$> q)) as [Hsub Hnq].
  { unfold q, descriptor_state.all_queued. split; [destruct k; simpl; set_solver|].
    destruct Hn1 as [|Hn1]; [by left|right]. apply NoDup_app in Hn1 as (_ & _ & Hn1).
    unfold pointers, descriptor_state.all_queued in Hn1. rewrite !fmap_app, !NoDup_app in Hn1.
    destruct Hn1 as (? & ? & ? & ? & ?). by destruct k. }
  assert (op_ptr <$> q ⊆ pointers d) as Hsubp
    by (intros id (op & -> & Hin)%list_elem_of_fmap; by apply list_elem_of_fmap_2, Hsub).
  destruct (results_perform_queue _ _ _ _ _ _ Eq Hnq) as (Hrest & Hover & Hf1).
  { rewrite Forall_forall in *. intros op Hop. by apply Hd, Hsub. }
  injection E as <- <- <-. split.
  - rewrite fmap_app, Hids, Eids. aac_reflexivity.
  - unfold descriptor_state.all_queued, pointers in *. unfold descriptor_state.all_queued in *.
    rewrite !Forall_app in Hd |- *. destruct Hd as (H1 & H2 & H3).
    assert (forall l, Forall (op_ok w) l -> (stable \/ forall id, id ∈ op_ptr <$> l -> id ∉ op_ptr <$> q) ->
      Forall (op_ok w1) l) as Hkeep by (intros l Hl Hid; by eapply ops_frame).
    destruct Hn1 as [Hn1|Hn1].
    { destruct k, b; simpl; repeat split; try done; apply Hkeep; try done; by left. }
    apply NoDup_app in Hn1 as (_ & _ & Hn1). rewrite !fmap_app, !NoDup_app in Hn1.
    destruct k, b; simpl in *; repeat split; try done; apply Hkeep; try done; right; set_solver.
  - rewrite fmap_app, Forall_app. split; [|done]. eapply (finished_frame (op_ptr <$> q)); [done| |done].
    destruct Hn1 as [|Hn1]; [by left|right]. intros id Hin Hin2. apply NoDup_app in Hn1 as (_ & Hn1 & _).
    rewrite users_completed in Hin. by apply (Hn1 id Hin), Hsubp.
  - eapply frame_trans; [|exact Hf|exact Hf1]. rewrite Hids. set_solver.
Qed.

Lemma results_perform_io p events c op c' :
  perform_io p events c = Ret (op, c') -> distinct (pending c) -> results_ok c ->
  results_ok c' /\ (forall x, op = Some x -> finished_op (world c') (completed x)).
Proof.
  unfold perform_io. intros E Hn Hc. apply bind_Ret in E as (d & Hd & E).
  pose proof (results_load _ _ _ Hd Hc) as Hops. apply deref_Ret in Hd.
  destruct (perform_type except_op _ _ _) as [[d2 ops2] w2] eqn:E2.
  destruct (perform_type write_op _ _ _) as [[d1 ops1] w1] eqn:E1.
  destruct (perform_type read_op _ _ _) as [[d0 ops0] w0] eqn:E0.
  assert (distinct (pointers d)) as Hnd.
  { destruct Hn as [|Hn]; [by left|right]. unfold pending, react_pending in Hn.
    rewrite (gather_delete pointers _ p d Hd), !NoDup_app in Hn. naive_solver. }
  assert (performing (pointers d) (world c) d [] (world c)) as P by (split; [done|done|constructor|apply frame_refl]).
  pose proof (results_perform_type _ _ _ _ _ _ _ _ _ _ P Hnd E2) as P2.
  pose proof (results_perform_type _ _ _ _ _ _ _ _ _ _ P2 Hnd E1) as P1.
  destruct (results_perform_type _ _ _ _ _ _ _ _ _ _ P1 Hnd E0) as [_ Hd0 Hall Hf].
  pose proof (results_descriptor p d d0 w0 c Hd Hf Hn Hd0 Hc) as Hc1.
  simpl app in Hall. rewrite <- app_assoc in Hall.
  destruct (ops2 ++ ops1 ++ ops0) as [|first rest].
  - apply bind_Ret in E as (s & Hs & [= <- <-]). split; [|done].
    unfold scheduler.compensating_work_started in Hs. apply bind_Ret in Hs as (i & Hi & [= <-]).
    apply deref_Ret in Hi. apply results_sched; [done|apply Hc1|]. pose proof (rs_private _ Hc1) as Hp.
    unfold private_queue in *. simpl in *. by rewrite Hi in Hp.
  - injection E as <- <-. apply Forall_cons in Hall as [Hfirst Hrest].
    split; [by apply results_deferred|]. by intros x [= <-].
Qed.

(** ** Timers *)

Lemma results_timers k q q' c :
  timer_queue_at k (react c) = Ret q -> reactor_ok (react c) ->
  (Forall Waits (timer_waiting q) -> Forall Waits (timer_waiting q')) -> results_ok c ->
  results_ok (set_react (store_timer_queue k q' (react c)) c).
Proof.
  intros Hq Hok Hw [Ho Ht Hu Hp]. split; try done.
  destruct (timer_queue_split _ _ _ Hq (ro_keys _ Hok)) as (l1 & l2 & El & Es).
  rewrite El in Ht. simpl react. rewrite Es. unfold timers_waiting in *.
  rewrite !fmap_app, !fmap_cons, !concat_app, !Forall_app in *. simpl in *.
  rewrite !Forall_app in *. naive_solver.
Qed.

Lemma waits_of q a (l : list wait_op) :
  represents q a -> l ⊆ gather snd a -> Forall Waits (timer_waiting q) -> Forall Waits (op_id <$> l).
Proof.
  intros Hr Hl Hq. rewrite Forall_forall. intros id (op & -> & Hop)%list_elem_of_fmap.
  rewrite Forall_forall in Hq. apply Hq. rewrite (represents_timer_waiting _ _ Hr).
  apply list_elem_of_fmap. exists op. split; [done|]. by apply Hl.
Qed.

Lemma expired_finished (w : W) (l : list wait_op) ec :
  Forall Waits (op_id <$> l) -> ec = ec_success \/ ec = operation_aborted ->
  Forall (finished_op w) (expired <$> ((fun op => (op, ec)) <$> l)).
Proof.
  intros Hl Hec. rewrite !Forall_fmap. rewrite Forall_fmap in Hl.
  eapply Forall_impl; [exact Hl|]. intros op Hop. unfold finished_op. simpl. by apply story_waits.
Qed.

(** What left a queue, and what stays in it, was there. *)
Lemma results_leave k q q' a a' gone c :
  timer_queue_at k (react c) = Ret q -> reactor_ok (react c) ->
  represents q a -> represents q' a' -> gone ++ gather snd a' ≡ₚ gather snd a -> results_ok c ->
  results_ok (set_react (store_timer_queue k q' (react c)) c) /\
  Forall (finished_op (world c)) (expired <$> ((fun op => (op, operation_aborted)) <$> gone)).
Proof.
  intros Hq Hok Hr Hr' E Hc. split.
  - apply (results_timers k q q'); [done|done| |done]. intros Hw.
    rewrite (represents_timer_waiting _ _ Hr'). eapply waits_of; [exact Hr| |exact Hw].
    intros x Hx. rewrite <- E. set_solver.
  - apply expired_finished; [|by right]. eapply (waits_of q a); [done| |].
    + intros x Hx. rewrite <- E. set_solver.
    + destruct (timer_queue_split _ _ _ Hq (ro_keys _ Hok)) as (l1 & l2 & El & _).
      pose proof (rs_timers _ Hc) as Ht. rewrite El in Ht. unfold timers_waiting in Ht.
      rewrite fmap_app, fmap_cons, concat_app, Forall_app in Ht. simpl in Ht.
      rewrite Forall_app in Ht. naive_solver.
Qed.

Lemma results_clock c now c' :
  read_clock c = (now, c') -> results_ok c ->
  results_ok c' /\ calm (world c) (world c') /\ react c' = react c.
Proof.
  unfold read_clock. pose proof (story_clock (world c)) as Hw.
  destruct (clock_now (world c)) as [n w]. intros [= <- <-] Hc. split; [by apply results_world|done].
Qed.

Lemma results_arm c c' :
  arm_timer_fd c = Ret c' -> results_ok c -> results_ok c' /\ calm (world c) (world c').
Proof.
  unfold arm_timer_fd. intros E Hc. destruct (read_clock c) as [now c1] eqn:Ec.
  apply bind_Ret in E as (usec & _ & [= <-]). destruct (results_clock _ _ _ Ec Hc) as (Hc1 & Hw & _).
  pose proof (story_settime (usec =? 0) (usec ÷ 1000000)
    (if usec =? 0 then 1 else Z.rem usec 1000000 * 1000) (world c1)) as Hw2.
  split; [by apply results_world|]. by etrans.
Qed.

Lemma results_update_timeout c c' : update_timeout c = Ret c' -> results_ok c -> results_ok c'.
Proof.
  unfold update_timeout. destruct (negb _); [intros; by eapply results_arm|].
  intros [= <-]. apply results_snd_ctl.
Qed.

Lemma results_schedule k time timer op c c' :
  context_ok c -> timer_here k timer c -> int64 time ->
  (forall q, timer_queue_at k (react c) = Ret q -> zlen (heap_ q) + 1 < npos) ->
  schedule_timer k time timer op c = Ret c' -> Waits (op_id op) -> results_ok c -> results_ok c'.
Proof.
  intros Hctx (q & Hq & Hal) Htime Hsize E Hop Hc. unfold schedule_timer in E.
  destruct Hctx as [Hok Hg]. destruct (reactor.shutdown_ _).
  { injection E as <-. apply results_immediate; [|done]. unfold finished_op. simpl.
    apply story_waits; [done|by left]. }
  rewrite Hq, Ret_bind in E. destruct (timer_queue_ok _ _ _ Hok Hq) as (a & Hr & Ha).
  destruct (enqueue_timer_spec is_positive_infinity time timer op q a Hr Hal (Hsize q Hq))
    as (b & q' & Eq & Hr' & _). rewrite Eq, Ret_bind in E. simpl in Hr'.
  set (c1 := work_started _) in E. assert (results_ok c1) as Hc1.
  { apply results_work_started, (results_timers k q); [done|done| |done]. intros Hw.
    rewrite (represents_timer_waiting _ _ Hr'), gather_enqueued. simpl. constructor; [done|].
    by rewrite <- (represents_timer_waiting _ _ Hr). }
  destruct b; [|by injection E as <-]. by eapply results_update_timeout.
Qed.

Lemma results_cancel_timer k timer n c m c' :
  reactor_ok (react c) -> timer_here k timer c -> cancel_timer k timer n c = Ret (m, c') ->
  results_ok c -> results_ok c'.
Proof.
  intros Hok (q & Hq & Hal) E Hc. unfold cancel_timer in E. rewrite Hq, Ret_bind in E.
  destruct (timer_queue_ok _ _ _ Hok Hq) as (a & Hr & Ha).
  destruct (cancel_timer_spec q a timer [] n Hr Hal) as (q' & Eq & Hr' & _).
  rewrite Eq, Ret_bind in E. injection E as <- <-.
  destruct (results_leave k q q' a _ _ c Hq Hok Hr Hr' (cancelled_waiting a timer n) Hc).
  by apply results_deferred.
Qed.

Lemma results_cancel_timer_by_key k timer key c c' :
  reactor_ok (react c) -> timer_here k timer c -> cancel_timer_by_key k timer key c = Ret c' ->
  results_ok c -> results_ok c'.
Proof.
  intros Hok (q & Hq & Hal) E Hc. unfold cancel_timer_by_key in E. rewrite Hq, Ret_bind in E.
  destruct (timer_queue_ok _ _ _ Hok Hq) as (a & Hr & Ha).
  destruct (cancel_timer_by_key_spec q a timer [] key Hr Hal) as (q' & Eq & Hr' & _).
  rewrite Eq, Ret_bind in E. injection E as <-.
  destruct (results_leave k q q' a _ _ c Hq Hok Hr Hr' (keyed_waiting a timer key) Hc).
  by apply results_deferred.
Qed.

(** ** The task *)

Lemma results_timeout usec t c c' :
  epoll_timeout usec c = Ret (t, c') -> results_ok c ->
  results_ok c' /\ calm (world c) (world c') /\ react c' = react c.
Proof.
  unfold epoll_timeout, get_timeout. intros E Hc. destruct (_ =? 0); [by injection E as <- <-|].
  destruct (has_timer_fd c); [by injection E as <- <-|].
  destruct (read_clock c) as [now c1] eqn:Ec. apply bind_Ret in E as (m & _ & [= <- <-]).
  by eapply results_clock.
Qed.

Lemma results_dispatch events ops b c ops' b' c' :
  dispatch_events events ops b c = Ret (ops', b', c') -> Forall (finished_op (world c)) ops -> results_ok c ->
  Forall (finished_op (world c')) ops' /\ results_ok c' /\
  reactor.timer_queues_ (react c') = reactor.timer_queues_ (react c).
Proof.
  revert ops b c. induction events as [|[source e] events IH]; intros ops b c; simpl.
  { by intros [= <- <- <-]. }
  intros ([[ops1 b1] c1] & E1 & E)%bind_Ret Hops Hc. unfold dispatch_event in E1. simpl in E1.
  destruct source as [| |p]; [injection E1 as <- <- <-; by eapply IH..|].
  apply bind_Ret in E1 as (d & Hd & E1). pose proof (results_load _ _ _ Hd Hc) as Hq.
  destruct (negb _); injection E1 as <- <- <-; eapply IH in E as (H1 & H2 & H3);
    try done; try by apply results_store.
  apply Forall_app. split; [done|by constructor].
Qed.

Lemma take_all_success p q l q' :
  take_all p q = Ret (l, q') -> Forall (fun x : wait_op * error_code => x.2 = ec_success) l.
Proof.
  unfold take_all. intros (d & _ & E)%bind_Ret. apply bind_Ret in E as (q1 & _ & [= <- <-]).
  by apply Forall_fmap, Forall_true.
Qed.

Lemma ready_success fuel now ops q ops' q' :
  get_ready_loop fuel now ops q = Ret (ops', q') ->
  Forall (fun x : wait_op * error_code => x.2 = ec_success) ops ->
  Forall (fun x : wait_op * error_code => x.2 = ec_success) ops'.
Proof.
  revert ops q. induction fuel as [|fuel IH]; intros ops q E Hops; simpl in E;
    destruct (heap_ q) as [|e h]; try done; try by injection E as <- <-.
  destruct (negb _); [|by injection E as <- <-].
  apply bind_Ret in E as ([new q1] & E1 & E). apply bind_Ret in E as (q2 & _ & E).
  apply IH in E; [done|]. apply Forall_app. split; [done|]. by eapply take_all_success.
Qed.

Lemma ready_all_success now ops qs ops' qs' :
  get_ready_timers_all now ops qs = Ret (ops', qs') ->
  Forall (fun x : wait_op * error_code => x.2 = ec_success) ops ->
  Forall (fun x : wait_op * error_code => x.2 = ec_success) ops'.
Proof.
  revert ops qs'. induction qs as [|[k q] qs IH]; intros ops qs' E Hops; simpl in E.
  { by injection E as <- <-. }
  apply bind_Ret in E as ([ops1 q1] & E1 & E). apply bind_Ret in E as ([ops2 qs1] & E2 & E).
  injection E as <- <-. eapply IH; [exact E2|]. by eapply ready_success.
Qed.

Lemma results_ready_timers now qs' new c :
  Forall (fun kq => timers_ok kq.2) (reactor.timer_queues_ (react c)) ->
  get_ready_timers_all now [] (reactor.timer_queues_ (react c)) = Ret (new, qs') -> results_ok c ->
  Forall (finished_op (world c)) (expired <$> new) /\
  results_ok (set_react (reactor.set_timers qs' (react c)) c).
Proof.
  intros Hqs E Hc. pose proof (ready_all_success _ _ _ _ _ E (Forall_nil_2 _)) as Hsuccess.
  destruct (get_ready_timers_all_spec now _ [] Hqs) as (new1 & qs1 & E' & _ & _ & Hw).
  rewrite E in E'. injection E' as -> ->. pose proof (rs_timers _ Hc) as Ht.
  rewrite <- Hw, Forall_app, Forall_fmap, Forall_fmap in Ht. destruct Ht as [Hn Ht]. split.
  - rewrite Forall_fmap, Forall_forall in *. intros [op ec] Hin. simpl.
    apply story_waits; [exact (Hn _ Hin)|]. left. exact (Hsuccess _ Hin).
  - destruct Hc as [Ho _ Hq Hp]. by split.
Qed.

Lemma results_expire ops c ops' c' :
  Forall (fun kq => timers_ok kq.2) (reactor.timer_queues_ (react c)) ->
  expire_timers ops c = Ret (ops', c') -> Forall (finished_op (world c)) ops -> results_ok c ->
  Forall (finished_op (world c')) ops' /\ results_ok c'.
Proof.
  intros Ht E Hops Hc. unfold expire_timers in E. destruct (read_clock c) as [now c4] eqn:E4.
  destruct (results_clock _ _ _ E4 Hc) as (Hc4 & Hw4 & Hr4).
  apply bind_Ret in E as ([ready qs'] & E5 & E).
  destruct (results_ready_timers now qs' ready c4) as [Hready Hc5]; [by rewrite Hr4|done|done|].
  apply bind_Ret in E as (c6 & E6 & [= <- <-]). set (c5 := set_react _ c4) in *.
  assert (results_ok c6 /\ calm (world c5) (world c6)) as [Hc6 Hw6].
  { destruct (has_timer_fd c5); [by eapply results_arm|by injection E6 as <-]. }
  split; [|done]. apply Forall_app. split; [|by eapply finished_calm].
  eapply finished_calm; [exact Hw6|]. by eapply finished_calm.
Qed.

Lemma results_run usec ops c ops' c' :
  context_ok c -> run usec ops c = Ret (ops', c') -> Forall (finished_op (world c)) ops -> results_ok c ->
  Forall (finished_op (world c')) ops' /\ results_ok c'.
Proof.
  intros Hok E Hops Hc. unfold run in E. apply bind_Ret in E as ([t c1] & Et & E).
  destruct (results_timeout _ _ _ _ Et Hc) as (Hc1 & Hw1 & Hr1).
  pose proof (story_wait t (world c1)) as Hw2.
  destruct (epoll_wait t (world c1)) as [events w]. set (c2 := set_world w c1) in E.
  assert (results_ok c2) as Hc2 by by apply results_world.
  apply bind_Ret in E as ([[ops3 b] c3] & E3 & E).
  assert (Forall (finished_op (world c2)) ops) as Hops2
    by (eapply finished_calm; [exact Hw2|]; by eapply finished_calm).
  destruct (results_dispatch _ _ _ _ _ _ _ E3 Hops2 Hc2) as (Hops3 & Hc3 & Hq3).
  destruct b; [|by injection E as <- <-].
  eapply results_expire; [|exact E|by eapply finished_calm|done].
  rewrite Hq3. simpl. rewrite Hr1. apply (ro_timers _ (proj1 Hok)).
Qed.

Lemma results_run_task usec c c' :
  context_ok c -> run_task usec c = Ret c' -> results_ok c -> results_ok c'.
Proof.
  intros Hok E Hc. unfold run_task in E. apply bind_Ret in E as (i & Hi & E).
  apply deref_Ret in Hi. apply bind_Ret in E as ([ops c1] & Er & E).
  pose proof (rs_private _ Hc) as Hp. unfold private_queue in Hp. rewrite Hi in Hp.
  destruct (results_run _ _ _ _ _ Hok Er Hp Hc) as [Hops Hc1].
  apply bind_Ret in E as (s & Es & [= <-]). unfold scheduler.task_cleanup in Es. simpl in Es.
  injection Es as <-. apply results_sched; [done| |constructor]. simpl.
  rewrite !Forall_app. pose proof (rs_queue _ Hc1) as Hq.
  destruct (0 <? private_outstanding_work i); simpl; repeat constructor; (exact Hq || exact Hops).
Qed.

(** ** The loop *)

Lemma results_ready o c cp c' :
  ready o c = Ret (cp, c') -> finished_op (world c) o -> distinct (pending c) -> results_ok c ->
  results_ok c' /\ (forall x, cp = Some x -> Finished (world c') x).
Proof.
  intros E Ho Hn Hc. destruct o as [|p|x]; simpl in *; [done| |injection E as <- <-].
  - apply bind_Ret in E as (d & _ & E). apply bind_Ret in E as ([op c1] & E1 & [= <- <-]).
    destruct (results_perform_io _ _ _ _ _ E1 Hn Hc) as [Hc1 Hop]. split; [done|].
    destruct op as [op|]; [|done]. intros x [= <-]. by apply Hop.
  - split; [done|]. by intros y [= <-].
Qed.

Lemma results_work_cleanup s c :
  scheduler.work_cleanup (sched c) = Ret s -> results_ok c -> results_ok (set_sched s c).
Proof.
  unfold scheduler.work_cleanup. intros (i & Hi & [= <-])%bind_Ret Hc. apply deref_Ret in Hi.
  pose proof (rs_private _ Hc) as Hp. pose proof (rs_queue _ Hc) as Hq. unfold private_queue in Hp.
  rewrite Hi in Hp. apply results_sched; [done| |constructor]. simpl.
  set (s1 := if 1 <? private_outstanding_work i then _ else _).
  assert (Forall (finished_op (world c)) (scheduler.op_queue_ s1)) as H1.
  { subst s1. destruct (1 <? _); [done|]. destruct (_ <? 1); [|done].
    unfold scheduler.work_finished. destruct (_ =? 0); [|done].
    unfold scheduler.stop, scheduler.stop_all_threads.
    match goal with |- context [scheduler.interrupt_task ?t] =>
      by destruct (interrupt_task_spec t) as (-> & _) end. }
  destruct (bool_decide _); [done|]. simpl. by apply Forall_app.
Qed.

(** The front of the queue is taken. *)
Lemma results_pop o rest s' c :
  scheduler.op_queue_ (sched c) = o :: rest -> popped_sched o rest (sched c) s' -> results_ok c ->
  finished_op (world c) o /\ results_ok (set_sched s' c).
Proof.
  intros Eq [Q1 Q2 Q3 Q4 Q5] Hc. pose proof (rs_queue _ Hc) as Hq. rewrite Eq in Hq.
  apply Forall_cons in Hq as [Ho Hq]. split; [done|].
  apply results_sched; [done|by rewrite Q1|]. unfold private_queue. rewrite Q3. apply Hc.
Qed.

(** Nothing is pending at the start. *)
Lemma results_nothing c : pending c = [] -> results_ok c.
Proof.
  unfold pending, sched_pending, react_pending. intros [[Hu Hp]%app_nil [Hg Ht]%app_nil]%app_nil.
  assert (forall q, users q = [] -> Forall (finished_op (world c)) q) as Hq.
  { intros q Hq. apply Forall_forall. intros [| |x] Hx; [done|done|]. exfalso.
    assert (co_id x ∈ users q) as Hin by (apply list_elem_of_omap; by exists (user_op x)).
    rewrite Hq in Hin. by apply elem_of_nil in Hin. }
  split; [|by rewrite Ht|by apply Hq|by apply Hq]. intros p d Hd.
  assert (descriptor_state.all_queued d = []) as ->; [|constructor].
  apply all_queued_pointers. pose proof (gather_delete pointers _ p d Hd) as E. rewrite Hg in E.
  by apply Permutation_nil_l, eq_sym, app_nil in E as [? _].
Qed.
(** A pending operation waits or is finished. *)
Lemma results_pending id c :
  id ∈ pending c -> results_ok c ->
  (exists r, Waiting (world c) id r) \/ (exists ec n, Finished (world c) (mkCompletion id ec n)) \/ Waits id.
Proof.
  intros Hid [Ho Ht Hq Hp].
  assert (forall q, id ∈ users q -> Forall (finished_op (world c)) q ->
    exists ec n, Finished (world c) (mkCompletion id ec n)) as Hu.
  { intros q (o & Hin & Ho')%list_elem_of_omap Hf. rewrite Forall_forall in Hf. specialize (Hf _ Hin).
    destruct o as [| |[id' ec n]]; [done..|]. injection Ho' as ->. by exists ec, n. }
  unfold pending, sched_pending, react_pending in Hid. rewrite !elem_of_app in Hid.
  destruct Hid as [[Hid|Hid]|[Hid|Hid]].
  - right. left. by eapply Hu.
  - right. left. by eapply Hu.
  - left. apply elem_of_gather in Hid as (p & d & Hd & Hid).
    apply list_elem_of_fmap in Hid as (op & -> & Hin). specialize (Ho p d Hd).
    rewrite Forall_forall in Ho. exists (op_result op). by apply Ho.
  - right. right. rewrite Forall_forall in Ht. by apply Ht.
Qed.
End Results.

(** Another story of the same operations, in another world. *)
Lemma results_retold {W} `{KernelLaws W} (Waiting Waiting' : W -> positive -> reactor_op.t -> Prop)
    (Finished Finished' : W -> completion -> Prop) Waits (w' : W) (c : context W) :
  (forall id, id ∈ pending c ->
    (forall r, Waiting (world c) id r -> Waiting' w' id r) /\
    (forall ec n, Finished (world c) (mkCompletion id ec n) -> Finished' w' (mkCompletion id ec n))) ->
  results_ok Waiting Finished Waits c -> results_ok Waiting' Finished' Waits (set_world w' c).
Proof.
  intros Hid [Ho Ht Hq Hp].
  assert (forall q, users q ⊆ pending c -> Forall (finished_op Finished (world c)) q ->
    Forall (finished_op Finished' w') q) as Hf.
  { intros q Hsub. rewrite !Forall_forall. intros Hall o Ho'. specialize (Hall o Ho').
    destruct o as [| |[id ec n]]; [done..|]. apply Hid; [|done]. apply Hsub, list_elem_of_omap.
    by exists (user_op (mkCompletion id ec n)). }
  split; simpl; [|done|apply Hf; [apply pending_queue|done]|apply Hf; [apply pending_private|done]].
  intros p d Hd. specialize (Ho p d Hd). rewrite !Forall_forall in *. intros op Hop.
  apply Hid; [|by apply Ho]. apply (pending_pointers p d c Hd). by apply list_elem_of_fmap_2.
Qed.

Arguments rs_ops {W Waiting Finished Waits c} _ p d _.
Arguments rs_timers {W Waiting Finished Waits c} _.
Arguments rs_queue {W Waiting Finished Waits c} _.
Arguments rs_private {W Waiting Finished Waits c} _.
