(* ===== verification/Worlds.v ===== *)
(** What the event loop does to its world: steps of the kernel, one after the other, and
    nothing else.  Whatever those steps keep, the loop keeps. *)

From S2P Require Import Prelude.
From S2P Require Import AsioError.
From S2P Require Import SocketStream.
From S2P Require Import TimerQueue.
From S2P Require Import Scheduler.
From S2P Require Import EpollReactor.
From S2P Require Import IoContext.

Section Worlds.
Context {W : Type} `{Kernel W}.

Inductive kernel_step : W -> W -> Prop :=
  | kernel_performs id r w : kernel_step w (perform id r w).2
  | kernel_ctl op fd events source w : kernel_step w (epoll_ctl op fd events source w).2
  | kernel_waits timeout w : kernel_step w (epoll_wait timeout w).2
  | kernel_closes fd w : kernel_step w (close_fd fd w)
  | kernel_arms abs sec nsec w : kernel_step w (timerfd_settime abs sec nsec w)
  | kernel_tells w : kernel_step w (clock_now w).2.

(** From the world of [c] to that of [c']. *)
Definition reaches (c c' : context W) : Prop := rtc kernel_step (world c) (world c').

#[global] Instance reaches_preorder : PreOrder reaches.
Proof. split; [intros c; apply rtc_refl|]. intros c1 c2 c3 H1 H2. unfold reaches. by etrans. Qed.

Lemma reaches_same (c c' : context W) : world c' = world c -> reaches c c'.
Proof. unfold reaches. intros ->. apply rtc_refl. Qed.

Lemma reaches_step w (c : context W) : kernel_step (world c) w -> reaches c (set_world w c).
Proof. apply rtc_once. Qed.

Lemma performs_step id r w st r' w' : perform id r w = (st, r', w') -> kernel_step w w'.
Proof. intros E. pose proof (kernel_performs id r w) as Hs. by rewrite E in Hs. Qed.

Lemma ctl_reaches op fd events source (c : context W) r c' :
  ctl op fd events source c = (r, c') -> reaches c c'.
Proof.
  unfold ctl. pose proof (kernel_ctl op fd events source (world c)) as Hs.
  destruct (epoll_ctl _ _ _ _ _) as [r1 w]. intros [= <- <-]. by apply reaches_step.
Qed.

Lemma snd_ctl_reaches op fd events source (c : context W) : reaches c (snd (ctl op fd events source c)).
Proof. destruct (ctl op fd events source c) as [r c'] eqn:E. by apply ctl_reaches in E. Qed.

(** ** Operations *)

Lemma register_reaches fd (c : context W) e p c' :
  register_descriptor fd c = Ret (e, p, c') -> reaches c c'.
Proof.
  unfold register_descriptor. destruct (reactor.alloc (react c)) as [q r].
  intros (d & _ & E)%bind_Ret. destruct (ctl _ _ _ _ _) as [result c1] eqn:Ec.
  apply ctl_reaches in Ec. etrans; [exact Ec|].
  destruct result as [errno|]; [destruct (errno =? EPERM)|]; injection E as <- <- <-; by apply reaches_same.
Qed.

Lemma enqueue_reaches k p op (c c' : context W) : enqueue_op k p op c = Ret c' -> reaches c c'.
Proof. unfold enqueue_op. intros (d & _ & [= <-])%bind_Ret. by apply reaches_same. Qed.

Lemma now_reaches op b (c c' : context W) : complete_now op b c = Ret c' -> reaches c c'.
Proof. intros [= <-]. by apply reaches_same. Qed.

Lemma try_reaches k p d op (c : context W) fin op' d' c' :
  try_perform k p d op c = (fin, op', d', c') -> reaches c c'.
Proof.
  unfold try_perform. destruct (op_at _ _); [|by intros [= <- <- <- <-]].
  destruct (perform _ _ _) as [[st r] w] eqn:Ep. apply performs_step in Ep.
  destruct st; intros [= <- <- <- <-]; by apply rtc_once.
Qed.

Lemma speculative_reaches k fd p d op b (c c' : context W) :
  start_speculative k fd p d op b c = Ret c' -> reaches c c'.
Proof.
  unfold start_speculative. destruct (try_perform k p d op c) as [[[fin op1] d1] c1] eqn:Et.
  apply try_reaches in Et. intros E. etrans; [exact Et|].
  destruct fin; [by eapply now_reaches|]. destruct (_ =? 0); [by eapply now_reaches|].
  destruct (bool_decide _ && _); [|by eapply enqueue_reaches].
  unfold enqueue_first_write in E. destruct (ctl _ _ _ _ _) as [r c2] eqn:Ec. apply ctl_reaches in Ec.
  etrans; [exact Ec|]. destruct r; [by eapply now_reaches|by apply enqueue_reaches in E].
Qed.

Lemma waiting_reaches k fd p d op b (c c' : context W) :
  start_waiting k fd p d op b c = Ret c' -> reaches c c'.
Proof.
  unfold start_waiting. intros E. destruct (_ =? 0); [by eapply now_reaches|].
  destruct (ctl _ _ _ _ _) as [r c2] eqn:Ec. apply ctl_reaches in Ec.
  apply enqueue_reaches in E. etrans; [|exact E]. exact Ec.
Qed.

Lemma start_op_reaches k fd data op b speculative (c c' : context W) :
  start_op k fd data op b speculative c = Ret c' -> reaches c c'.
Proof.
  unfold start_op. destruct data as [p|]; [|apply now_reaches].
  intros (d & _ & E)%bind_Ret. destruct (descriptor_state.shutdown_ d); [by eapply now_reaches|].
  destruct (bool_decide _); [|by eapply enqueue_reaches].
  destruct (speculative && _); [by eapply speculative_reaches|by eapply waiting_reaches].
Qed.

Lemma deregister_reaches fd data closing (c : context W) data' c' :
  deregister_descriptor fd data closing c = Ret (data', c') -> reaches c c'.
Proof.
  unfold deregister_descriptor. destruct data as [p|]; [|by intros [= <- <-]].
  intros (d & _ & E)%bind_Ret. destruct (negb _); [|by injection E as <- <-].
  injection E as _ <-. unfold reaches. simpl. destruct closing; [done|]. destruct (negb _); [|done].
  apply (snd_ctl_reaches _ _ _ _ c).
Qed.

Lemma cleanup_reaches data (c c' : context W) : cleanup_descriptor_data data c = Ret c' -> reaches c c'.
Proof.
  unfold cleanup_descriptor_data. destruct data as [p|]; [|by intros [= <-]].
  intros (r & _ & [= <-])%bind_Ret. by apply reaches_same.
Qed.

(** ** The loop *)

Lemma perform_queue_steps q (w : W) rest over b w' :
  perform_queue q w = (rest, over, b, w') -> rtc kernel_step w w'.
Proof.
  revert w rest over b w'. induction q as [|op q IH]; intros w rest over b w'; simpl.
  { by intros [= <- <- <- <-]. }
  destruct (perform _ _ _) as [[st r] w1] eqn:Ep. apply performs_step in Ep. destruct st.
  - intros [= <- <- <- <-]. by apply rtc_once.
  - destruct (perform_queue q w1) as [[[rest1 over1] b1] w2] eqn:Eq. intros [= <- <- <- <-].
    eapply rtc_l; [exact Ep|]. by eapply IH.
  - intros [= <- <- <- <-]. by apply rtc_once.
Qed.

Lemma perform_type_steps k events d (w : W) d' over w' :
  perform_type k events d w = (d', over, w') -> rtc kernel_step w w'.
Proof.
  unfold perform_type. destruct (negb _); [|by intros [= <- <- <-]].
  destruct (perform_queue _ w) as [[[rest over1] b] w1] eqn:Eq. intros [= <- <- <-].
  by eapply perform_queue_steps.
Qed.

Lemma perform_io_reaches p events (c : context W) op c' :
  perform_io p events c = Ret (op, c') -> reaches c c'.
Proof.
  unfold perform_io. intros (d & _ & E)%bind_Ret.
  destruct (perform_type except_op _ _ _) as [[d2 ops2] w2] eqn:E2.
  destruct (perform_type write_op _ _ _) as [[d1 ops1] w1] eqn:E1.
  destruct (perform_type read_op _ _ _) as [[d0 ops0] w0] eqn:E0.
  apply perform_type_steps in E2, E1, E0.
  assert (rtc kernel_step (world c) w0) as Hw by (do 2 (etrans; [eassumption|]); done).
  destruct (ops2 ++ ops1 ++ ops0) as [|first rest].
  - by apply bind_Ret in E as (s & _ & [= _ <-]).
  - by injection E as _ <-.
Qed.

Lemma ready_reaches o (c : context W) cp c' : ready o c = Ret (cp, c') -> reaches c c'.
Proof.
  destruct o as [|p|x]; simpl; [done| |by intros [= _ <-]].
  intros (d & _ & E)%bind_Ret. apply bind_Ret in E as ([op c1] & E1 & [= _ <-]).
  by eapply perform_io_reaches.
Qed.

Lemma clock_reaches (c : context W) now c' : read_clock c = (now, c') -> reaches c c'.
Proof.
  unfold read_clock. pose proof (kernel_tells (world c)) as Hs.
  destruct (clock_now (world c)) as [n w]. intros [= _ <-]. by apply reaches_step.
Qed.

Lemma timeout_reaches usec (c : context W) t c' : epoll_timeout usec c = Ret (t, c') -> reaches c c'.
Proof.
  unfold epoll_timeout, get_timeout. destruct (_ =? 0); [by intros [= _ <-]|].
  destruct (has_timer_fd c); [by intros [= _ <-]|].
  destruct (read_clock c) as [now c1] eqn:Ec. intros (m & _ & [= _ <-])%bind_Ret.
  by eapply clock_reaches.
Qed.

Lemma arm_reaches (c c' : context W) : arm_timer_fd c = Ret c' -> reaches c c'.
Proof.
  unfold arm_timer_fd. destruct (read_clock c) as [now c1] eqn:Ec.
  intros (usec & _ & [= <-])%bind_Ret. apply clock_reaches in Ec. etrans; [exact Ec|].
  apply reaches_step. constructor.
Qed.

Lemma dispatch_reaches events ops b (c : context W) x c' :
  dispatch_events events ops b c = Ret (x, c') -> reaches c c'.
Proof.
  revert ops b c x. induction events as [|[source e] events IH]; intros ops b c x; simpl.
  { by intros [= _ <-]. }
  intros ([[ops1 b1] c1] & E1 & E)%bind_Ret. unfold dispatch_event in E1. simpl in E1.
  assert (reaches c c1) as H1; [|etrans; [exact H1|by eapply IH]].
  destruct source as [| |p]; [by injection E1 as _ _ <-..|].
  apply bind_Ret in E1 as (d & _ & E1). destruct (negb _); injection E1 as _ _ <-; by apply reaches_same.
Qed.

Lemma expire_reaches ops (c : context W) ops' c' : expire_timers ops c = Ret (ops', c') -> reaches c c'.
Proof.
  unfold expire_timers. destruct (read_clock c) as [now c1] eqn:Ec. apply clock_reaches in Ec.
  intros ([ready qs] & _ & E)%bind_Ret. apply bind_Ret in E as (c2 & E2 & [= _ <-]).
  etrans; [exact Ec|]. etrans; [by apply (reaches_same c1 (set_react (reactor.set_timers qs (react c1)) c1))|].
  destruct (has_timer_fd _); [by apply arm_reaches|by injection E2 as <-].
Qed.

Lemma run_reaches usec ops (c : context W) ops' c' : run usec ops c = Ret (ops', c') -> reaches c c'.
Proof.
  unfold run. intros ([t c1] & Et & E)%bind_Ret. apply timeout_reaches in Et. etrans; [exact Et|].
  pose proof (kernel_waits t (world c1)) as Hw. destruct (epoll_wait t (world c1)) as [events w].
  apply bind_Ret in E as ([[ops1 b] c2] & Ed & E). apply dispatch_reaches in Ed.
  etrans; [by apply reaches_step|]. etrans; [exact Ed|]. destruct b; [|by injection E as _ <-].
  by eapply expire_reaches.
Qed.

Lemma run_task_reaches usec (c c' : context W) : run_task usec c = Ret c' -> reaches c c'.
Proof.
  unfold run_task. intros (i & _ & E)%bind_Ret. apply bind_Ret in E as ([ops c1] & Er & E).
  apply run_reaches in Er. apply bind_Ret in E as (s & _ & [= <-]).
  etrans; [|exact (reaches_same c1 _ eq_refl)]. exact Er.
Qed.

(** ** The start *)

Lemma begin_reaches one_thread interrupter timer_fd qs (w : W) :
  rtc kernel_step w (world (begin one_thread interrupter timer_fd qs w)).
Proof.
  assert (forall c : context W, world (foldr (fun kq c => add_timer_queue kq.1 kq.2 c) c qs) = world c) as Hqs
    by (intros c; by induction qs).
  unfold begin. simpl. rewrite Hqs. unfold create.
  set (c := mkContext _ _ w). destruct (ctl _ _ _ _ c) as [r c1] eqn:Ec. apply ctl_reaches in Ec.
  destruct (has_timer_fd c1); [|exact Ec]. etrans; [exact Ec|apply snd_ctl_reaches].
Qed.

(** What every step keeps is kept. *)
Lemma reaches_keeps (R : W -> W -> Prop) `{!PreOrder R} (c c' : context W) :
  (forall w w', kernel_step w w' -> R w w') -> reaches c c' -> R (world c) (world c').
Proof. intros HR Hr. induction Hr as [|w1 w2 w3 Hs _ IH]; [done|]. etrans; [by apply HR|done]. Qed.
End Worlds.
