(* ===== verification/SocketService.v ===== *)
(** [asio/detail/impl/reactive_socket_service_base.ipp],
    [detail/reactive_socket_service.hpp], [detail/socket_holder.hpp],
    [detail/reactive_socket_accept_op.hpp], [basic_socket.hpp],
    [basic_socket_acceptor.hpp], [impl/connect.hpp] and the endpoints of
    [ip/tcp.hpp]: socket objects, from their construction to their destruction.

    The service needs a reactor, of which it uses the operations of the class
    [SocketReactor]; the epoll reactor is an instance.  An operation runs on the
    reactor's state and on the trace of the system's calls ([svc]); like the code
    it takes the object and the error code and returns them.  An exception keeps
    the state reached when it was thrown. *)

From S2P Require Import Prelude.
From S2P Require Import AsioError.
From S2P Require Import SocketOps.
From S2P Require Import SocketStream.
From S2P Require Import EpollReactor.

(** * Endpoints *)

Definition AF_INET : Z := 2.
Definition AF_INET6 : Z := 10.
Definition SOCK_STREAM : Z := 1.
Definition SOCK_DGRAM : Z := 2.
Definition IPPROTO_TCP : Z := 6.
Definition SO_REUSEADDR : Z := 2.
Definition SOMAXCONN : Z := 4096.

Module ip.

Record protocol := mkProtocol {
  family : Z;
  type : Z;
  protocol_ : Z
}.

(** [tcp::v4] and [tcp::v6]. *)
Definition tcp (family : Z) : protocol := mkProtocol family SOCK_STREAM IPPROTO_TCP.
Definition tcp_v4 : protocol := tcp AF_INET.
Definition tcp_v6 : protocol := tcp AF_INET6.

(** An endpoint is the first [size()] bytes of its address. *)
Abbreviation endpoint := bytes.

Definition is_v4 (e : endpoint) : bool := sa_family e =? AF_INET.

(** [basic_endpoint::protocol], of the TCP endpoints. *)
Definition endpoint_protocol (e : endpoint) : protocol := if is_v4 e then tcp_v4 else tcp_v6.

(** A [short] in the order of the network. *)
Definition host_to_network_short (port : Z) : bytes := [z2b (port / 256); z2b port].

(** [endpoint(int, unsigned short)]: any address; the rest of the structure is zero. *)
Definition any_endpoint (family : Z) (port_num : Z) : endpoint :=
  if family =? AF_INET then
    le_encode 2 AF_INET ++ host_to_network_short port_num ++ replicate 12 Byte.x00
  else le_encode 2 AF_INET6 ++ host_to_network_short port_num ++ replicate 24 Byte.x00.

(** [resize]: whether the size is one of a [sockaddr_storage]. *)
Definition resize_fits (new_size : Z) : bool := new_size <=? 128.

(** The default constructor. *)
Definition no_endpoint : endpoint := any_endpoint AF_INET 0.
End ip.
Import ip.

(** * The reactor, as the sockets use it *)

Class SocketReactor (R : Type) := {
  register : Z -> R -> outcome (Z * positive * R);
  deregister : Z -> option positive -> bool -> R -> outcome (option positive * R);
  cleanup : option positive -> R -> outcome R;
  cancel : option positive -> R -> outcome R;
  start : op_types -> Z -> option positive -> queued_op -> bool -> bool -> R -> outcome R;
  immediate : queued_op -> bool -> R -> outcome R
}.

#[global] Instance epoll_socket_reactor {W} `{Kernel W} : SocketReactor (context W) := {
  register := register_descriptor;
  deregister := deregister_descriptor;
  cleanup := cleanup_descriptor_data;
  cancel := cancel_ops;
  start := start_op;
  immediate := complete_now
}.

(** * Operations of the service *)

Definition svc (R A : Type) : Type := R -> sys (outcome A * R).

#[global] Instance svc_ret {R} : MRet (svc R) := fun A a r => mret (Ret a, r).

#[global] Instance svc_bind {R} : MBind (svc R) := fun A B f m r t =>
  match m r t with
  | Some (Ret a, r, t) => f a r t
  | Some (Throw e, r, t) => Some (Throw e, r, t)
  | Some (Undef, r, t) => Some (Undef, r, t)
  | None => None
  end.

(** A call of [socket_ops]. *)
Definition call_os {R A} (m : sys A) : svc R A := fun r t =>
  match m t with
  | Some (a, t) => Some (Ret a, r, t)
  | None => None
  end.

(** A call of the reactor. *)
Definition call_reactor {R A} (f : R -> outcome (A * R)) : svc R A := fun r t =>
  match f r with
  | Ret (a, r) => Some (Ret a, r, t)
  | Throw e => Some (Throw e, r, t)
  | Undef => Some (Undef, r, t)
  end.

Definition call_reactor_ {R} (f : R -> outcome R) : svc R () :=
  call_reactor (fun r => (fun r => ((), r)) <$> f r).

Definition throw {R A} (e : exn) : svc R A := fun r t => Some (Throw e, r, t).

(** [throw_error(ec)]; [cleanup] is what the destructors of the objects that the
    exception leaves do. *)
Definition throw_error {R} (ec : error_code) (cleanup : svc R ()) : svc R () :=
  if ec_is_error ec then _ ← cleanup; throw (asio_system_error (ec_value ec)) else mret ().

(** ** [socket_holder] *)

(** The destructor, and [reset]. *)
Definition destroy_holder (s : Z) : sys () :=
  if negb (s =? invalid_socket) then _ ← close s 0 true ec_success; mret () else mret ().

(** ** [reactive_socket_service_base] *)

Record base_implementation := mkBase {
  socket_ : Z;
  state_ : Z;
  reactor_data_ : option positive
}.

Definition set_state (state : Z) (impl : base_implementation) : base_implementation :=
  mkBase (socket_ impl) state (reactor_data_ impl).

Definition set_data (data : option positive) (impl : base_implementation) : base_implementation :=
  mkBase (socket_ impl) (state_ impl) data.

Definition is_open (impl : base_implementation) : bool := negb (socket_ impl =? invalid_socket).

Definition construct : base_implementation := mkBase invalid_socket 0 None.

(** The flags of a socket of a type. *)
Definition type_state (type : Z) : Z :=
  if type =? SOCK_STREAM then stream_oriented
  else if type =? SOCK_DGRAM then datagram_oriented else 0.

Section Service.
Context {R : Type} `{SocketReactor R}.

(** [move_descriptor]: the target's data and the source's. *)
Definition move_descriptor (source : option positive) : option positive * option positive :=
  (source, None).

(** The new object and the other one. *)
Definition base_move_construct (other_impl : base_implementation) :
    base_implementation * base_implementation :=
  let '(target, source) := move_descriptor (reactor_data_ other_impl) in
  (mkBase (socket_ other_impl) (state_ other_impl) target, mkBase invalid_socket 0 source).

(** The object's data after [deregister_descriptor]: whether it is closed after. *)
Definition destroy (impl : base_implementation) : svc R () :=
  if negb (socket_ impl =? invalid_socket) then
    data ← call_reactor (deregister (socket_ impl) (reactor_data_ impl)
             (negb (has (state_ impl) possible_dup)));
    _ ← call_os (SocketOps.close (socket_ impl) (state_ impl) true ec_success);
    _ ← call_reactor_ (cleanup data);
    mret ()
  else mret ().

Definition base_move_assign (impl other_impl : base_implementation) :
    svc R (base_implementation * base_implementation) :=
  _ ← destroy impl;
  mret (base_move_construct other_impl).

Definition close (impl : base_implementation) (ec : error_code) :
    svc R (base_implementation * error_code) :=
  ec ←
    (if is_open impl then
       data ← call_reactor (deregister (socket_ impl) (reactor_data_ impl)
                (negb (has (state_ impl) possible_dup)));
       '(_, _, ec) ← call_os (SocketOps.close (socket_ impl) (state_ impl) false ec);
       _ ← call_reactor_ (cleanup data);
       mret ec
     else mret ec_success);
  mret (construct, ec).

Definition release (impl : base_implementation) (ec : error_code) :
    svc R (Z * base_implementation * error_code) :=
  if negb (is_open impl) then mret (invalid_socket, impl, bad_descriptor)
  else
    data ← call_reactor (deregister (socket_ impl) (reactor_data_ impl) false);
    _ ← call_reactor_ (cleanup data);
    mret (socket_ impl, construct, ec_success).

Definition cancel_socket (impl : base_implementation) (ec : error_code) : svc R error_code :=
  if negb (is_open impl) then mret bad_descriptor
  else
    _ ← call_reactor_ (cancel (reactor_data_ impl));
    mret ec_success.

Definition do_open (impl : base_implementation) (af type protocol : Z) (ec : error_code) :
    svc R (base_implementation * error_code) :=
  if is_open impl then mret (impl, already_open)
  else
    '(sock, ec) ← call_os (socket af type protocol ec);
    if sock =? invalid_socket then mret (impl, ec)
    else
      '(err, p) ← call_reactor (register sock);
      let impl := set_data (Some p) impl in
      if negb (err =? 0) then
        _ ← call_os (destroy_holder sock);
        mret (impl, mk_error_code err system_category)
      else mret (mkBase sock (type_state type) (Some p), ec_success).

Definition do_assign (impl : base_implementation) (type native_socket : Z) (ec : error_code) :
    svc R (base_implementation * error_code) :=
  if is_open impl then mret (impl, already_open)
  else
    '(err, p) ← call_reactor (register native_socket);
    let impl := set_data (Some p) impl in
    if negb (err =? 0) then mret (impl, mk_error_code err system_category)
    else mret (mkBase native_socket (set_flag (type_state type) possible_dup) (Some p), ec_success).

(** The descriptor is made non-blocking, unless it is. *)
Definition make_non_blocking (impl : base_implementation) (ec : error_code) :
    svc R (bool * base_implementation * error_code) :=
  if has (state_ impl) non_blocking then mret (true, impl, ec)
  else
    '(ok, state, ec) ← call_os (set_internal_non_blocking (socket_ impl) (state_ impl) true ec);
    mret (ok, set_state state impl, ec).

Definition do_start_op (impl : base_implementation) (op_type : op_types) (op : queued_op)
    (is_continuation is_non_blocking noop : bool) : svc R base_implementation :=
  if negb noop then
    '(ok, impl, ec) ← make_non_blocking impl (reactor_op.ec_ (op_result op));
    let op := set_ec ec op in
    if (ok : bool) then
      _ ← call_reactor_ (start op_type (socket_ impl) (reactor_data_ impl) op is_continuation
                           is_non_blocking);
      mret impl
    else
      _ ← call_reactor_ (immediate op is_continuation);
      mret impl
  else
    _ ← call_reactor_ (immediate op is_continuation);
    mret impl.

Definition do_start_accept_op (impl : base_implementation) (op : queued_op)
    (is_continuation peer_is_open : bool) : svc R base_implementation :=
  if negb peer_is_open then do_start_op impl read_op op is_continuation true false
  else
    _ ← call_reactor_ (immediate (set_ec already_open op) is_continuation);
    mret impl.

Definition do_start_connect_op (impl : base_implementation) (op : queued_op)
    (is_continuation : bool) (addr : endpoint) : svc R base_implementation :=
  '(ok, impl, ec) ← make_non_blocking impl (reactor_op.ec_ (op_result op));
  '(waits, ec) ←
    (if (ok : bool) then
       '(result, ec) ← call_os (SocketOps.connect (socket_ impl) addr ec);
       mret (negb (result =? 0) &&
             (bool_decide (ec = in_progress) || bool_decide (ec = would_block)), ec)
     else mret (false, ec));
  if (waits : bool) then
    _ ← call_reactor_ (start connect_op (socket_ impl) (reactor_data_ impl) (set_ec ec_success op)
                         is_continuation false);
    mret impl
  else
    _ ← call_reactor_ (immediate (set_ec ec op) is_continuation);
    mret impl.

(** ** [reactive_socket_service] *)

Record implementation := mkImplementation {
  base : base_implementation;
  protocol_ : protocol
}.

Definition socket_of (impl : implementation) : Z := socket_ (base impl).

(** The constructor and [construct]: [endpoint_type().protocol()]. *)
Definition new_implementation : implementation :=
  mkImplementation construct (endpoint_protocol no_endpoint).

Definition move_construct (other_impl : implementation) : implementation * implementation :=
  let '(b, other) := base_move_construct (base other_impl) in
  (mkImplementation b (protocol_ other_impl),
   mkImplementation other (endpoint_protocol no_endpoint)).

Definition move_assign (impl other_impl : implementation) : svc R (implementation * implementation) :=
  '(b, other) ← base_move_assign (base impl) (base other_impl);
  mret (mkImplementation b (protocol_ other_impl),
        mkImplementation other (endpoint_protocol no_endpoint)).

(** The protocol is that of the socket that was opened. *)
Definition open (impl : implementation) (p : protocol) (ec : error_code) :
    svc R (implementation * error_code) :=
  '(b, ec) ← do_open (base impl) (family p) (type p) (ip.protocol_ p) ec;
  mret (mkImplementation b (if ec_is_error ec then protocol_ impl else p), ec).

Definition assign (impl : implementation) (p : protocol) (native_socket : Z) (ec : error_code) :
    svc R (implementation * error_code) :=
  '(b, ec) ← do_assign (base impl) (type p) native_socket ec;
  mret (mkImplementation b (if ec_is_error ec then protocol_ impl else p), ec).

Definition bind (impl : implementation) (e : endpoint) (ec : error_code) : svc R error_code :=
  '(_, ec) ← call_os (SocketOps.bind (socket_of impl) e ec);
  mret ec.

Definition listen (impl : implementation) (backlog : Z) (ec : error_code) : svc R error_code :=
  '(_, ec) ← call_os (SocketOps.listen (socket_of impl) backlog ec);
  mret ec.

(** An option: its level, its name and its data. *)
Definition set_option (impl : implementation) (level name : Z) (data : bytes) (ec : error_code) :
    svc R (implementation * error_code) :=
  '(_, state, ec) ← call_os (setsockopt (socket_of impl) (state_ (base impl)) level name data ec);
  mret (mkImplementation (set_state state (base impl)) (protocol_ impl), ec).

(** [socket_option::boolean]: an [int]. *)
Definition boolean_option (value : bool) : bytes := le_encode 4 (if value then 1 else 0).

(** [peer_endpoint->resize(addr_len)], if there is one. *)
Definition resize_peer (addr_len : option Z) (cleanup : svc R ()) : svc R () :=
  match addr_len with
  | Some n => if resize_fits n then mret () else throw_error invalid_argument cleanup
  | None => mret ()
  end.

(** The connection is the peer's, or is closed; the length of its address. *)
Definition accept (impl peer : implementation) (peer_endpoint : option Z) (ec : error_code) :
    svc R (implementation * option Z * error_code) :=
  if is_open (base peer) then mret (peer, peer_endpoint, already_open)
  else
    '(new_socket, addr_len, ec) ←
      call_os (sync_accept (socket_of impl) (state_ (base impl)) peer_endpoint ec);
    if negb (new_socket =? invalid_socket) then
      _ ← resize_peer addr_len (call_os (destroy_holder new_socket));
      '(peer, ec) ← assign peer (protocol_ impl) new_socket ec;
      _ ← (if negb (ec_is_error ec) then mret () else call_os (destroy_holder new_socket));
      mret (peer, addr_len, ec)
    else mret (peer, addr_len, ec).

Definition connect (impl : implementation) (e : endpoint) (ec : error_code) : svc R error_code :=
  call_os (sync_connect (socket_of impl) e ec).

(** ** [reactive_socket_accept_op] *)

Record accept_op := mkAcceptOp {
  ao_ec : error_code;
  new_socket_ : Z;
  addrlen_ : option Z
}.

Definition new_accept_op (peer_endpoint : option Z) : accept_op :=
  mkAcceptOp ec_success invalid_socket peer_endpoint.

Definition accept_do_perform (s state : Z) (o : accept_op) : sys (reactor_op.status * accept_op) :=
  '(over, new_socket, addrlen, ec) ← non_blocking_accept s state (addrlen_ o) (ao_ec o);
  _ ← destroy_holder (new_socket_ o);
  mret (if (over : bool) then reactor_op.done else reactor_op.not_done,
        mkAcceptOp ec new_socket addrlen).

Definition do_assign_peer (peer : implementation) (p : protocol) (o : accept_op) :
    svc R (implementation * accept_op) :=
  if negb (new_socket_ o =? invalid_socket) then
    _ ← resize_peer (addrlen_ o) (call_os (destroy_holder (new_socket_ o)));
    '(peer, ec) ← assign peer p (new_socket_ o) (ao_ec o);
    mret (peer, mkAcceptOp ec (if negb (ec_is_error ec) then invalid_socket else new_socket_ o)
                  (addrlen_ o))
  else mret (peer, o).

(** [do_complete] of an operation that was performed: the peer takes the connection,
    the operation is destroyed, and the handler is given the error. *)
Definition accept_do_complete (peer : implementation) (p : protocol) (o : accept_op) :
    svc R (implementation * error_code) :=
  '(peer, o) ← do_assign_peer peer p o;
  _ ← call_os (destroy_holder (new_socket_ o));
  mret (peer, ao_ec o).

(** ** [basic_socket] *)

Definition socket_close (impl : implementation) (ec : error_code) :
    svc R (implementation * error_code) :=
  '(b, ec) ← close (base impl) ec;
  mret (mkImplementation b (protocol_ impl), ec).

(** The socket is opened for the endpoint's protocol, if it is not open. *)
Definition socket_connect (impl : implementation) (e : endpoint) (ec : error_code) :
    svc R (implementation * error_code) :=
  if negb (is_open (base impl)) then
    '(impl, ec) ← open impl (endpoint_protocol e) ec;
    if ec_is_error ec then mret (impl, ec)
    else
      ec ← connect impl e ec;
      mret (impl, ec)
  else
    ec ← connect impl e ec;
    mret (impl, ec).

(** ** [basic_socket_acceptor] *)

(** The constructor that opens, binds and listens; an exception destroys the
    implementation. *)
Definition new_acceptor (e : endpoint) (reuse_addr : bool) : svc R implementation :=
  '(impl, ec) ← open new_implementation (endpoint_protocol e) ec_success;
  _ ← throw_error ec (destroy (base impl));
  '(impl, ec) ←
    (if reuse_addr then
       '(impl, ec) ← set_option impl SOL_SOCKET SO_REUSEADDR (boolean_option true) ec;
       _ ← throw_error ec (destroy (base impl));
       mret (impl, ec)
     else mret (impl, ec));
  ec ← bind impl e ec;
  _ ← throw_error ec (destroy (base impl));
  ec ← listen impl SOMAXCONN ec;
  _ ← throw_error ec (destroy (base impl));
  mret impl.

(** The acceptor of [TcpServer]. *)
Definition kServerPort : Z := 8383.
Definition server_acceptor : svc R implementation :=
  new_acceptor (any_endpoint (family tcp_v4) (kServerPort mod 2 ^ 16)) true.

(** ** [asio::connect]

    An iterator is what is left of the range. *)

Definition default_connect_condition (ec : error_code) (e : endpoint) : bool := true.

(** The next endpoint that the condition accepts. *)
Fixpoint call_connect_condition (connect_condition : error_code -> endpoint -> bool)
    (ec : error_code) (next : list endpoint) : list endpoint :=
  match next with
  | [] => []
  | e :: rest =>
      if connect_condition ec e then next
      else call_connect_condition connect_condition ec rest
  end.

(** The rounds of the loop; every one passes an endpoint. *)
Fixpoint connect_loop (fuel : nat) (connect_condition : error_code -> endpoint -> bool)
    (impl : implementation) (iter : list endpoint) (ec : error_code) :
    svc R (list endpoint * implementation * error_code) :=
  match fuel with
  | O => fun r t => Some (Undef, r, t)
  | S fuel =>
      match call_connect_condition connect_condition ec iter with
      | [] => mret ([], impl, if ec_is_error ec then ec else not_found)
      | e :: rest =>
          '(impl, ec) ← socket_close impl ec;
          '(impl, ec) ← socket_connect impl e ec;
          if negb (ec_is_error ec) then mret (e :: rest, impl, ec)
          else connect_loop fuel connect_condition impl rest ec
      end
  end.

Definition connect_range (impl : implementation) (endpoints : list endpoint)
    (connect_condition : error_code -> endpoint -> bool) :
    svc R (list endpoint * implementation * error_code) :=
  connect_loop (S (length endpoints)) connect_condition impl endpoints ec_success.

(** [ec ? endpoint() : *iter]. *)
Definition deref_connect_result (iter : list endpoint) (ec : error_code) : outcome endpoint :=
  if ec_is_error ec then Ret no_endpoint else deref (head iter).

(** [asio::connect(s, endpoints)]; [cleanup] is what the exception destroys. *)
Definition connect_endpoints (impl : implementation) (endpoints : list endpoint)
    (cleanup : implementation -> svc R ()) : svc R (endpoint * implementation) :=
  '(iter, impl, ec) ← connect_range impl endpoints default_connect_condition;
  e ← call_reactor (fun r => (fun e => (e, r)) <$> deref_connect_result iter ec);
  _ ← throw_error ec (cleanup impl);
  mret (e, impl).

(** The socket of [client.cpp], connected to the endpoints its resolver found. *)
Definition client_socket (endpoints : list endpoint) : svc R implementation :=
  '(_, impl) ← connect_endpoints new_implementation endpoints (fun impl => destroy (base impl));
  mret impl.

End Service.
