(* ===== verification/SocketServiceSpec.v ===== *)
(** Socket objects own their descriptors: whatever is done with them and whatever
    the system answers, every descriptor they opened is closed once, and the
    reactor knows a socket as long as it is open.

    [opens_after] follows the table of open descriptors along a trace, of which
    [table_ok] states what the system documents; [went] says where a part of the trace
    leads, and that it closes no descriptor that is not open.  A [triple] says how an operation
    changes the descriptors it is given ([moved]) and leaves the others alone; it is
    proved against the class [SocketReactorLaws], which the epoll reactor satisfies. *)

From S2P Require Import Prelude.
From S2P Require Import AsioError.
From S2P Require Import SocketOps.
From S2P Require Import SocketStream.
From S2P Require Import Scheduler.
From S2P Require Import EpollReactor.
From S2P Require Import SocketSpec.
From S2P Require Import ReactorSpec.
From S2P Require Import SocketService.
From AAC_tactics Require Import AAC.
From AAC_tactics Require Instances.
Import Instances.Lists.
Import ip.

(** * The table of descriptors *)

Definition opens_after (T : gset Z) (e : sys_call * answer) : gset Z :=
  match e.1 with
  | SysSocket _ _ _ | SysAccept _ _ =>
      if an_result e.2 =? invalid_socket then T else {[an_result e.2]} ∪ T
  | SysClose s => T ∖ {[s]}
  | _ => T
  end.

(** A new descriptor is not one of those open, and a failure has an error.  [close] gives its descriptor up
    whether it fails or not, and never fails because it would block. *)
Definition table_answer_ok (T : gset Z) (e : sys_call * answer) : Prop :=
  match e.1 with
  | SysSocket _ _ _ | SysAccept _ _ =>
      (an_result e.2 = invalid_socket /\ 0 < an_errno e.2) \/
      (0 <= an_result e.2 /\ an_result e.2 ∉ T)
  | SysClose _ => an_result e.2 <> 0 -> an_errno e.2 <> ec_value would_block
  | _ => True
  end.

Fixpoint table_ok (T : gset Z) (t : sys_trace) : Prop :=
  match t with
  | [] => True
  | e :: t => table_answer_ok T e /\ table_ok (opens_after T e) t
  end.

#[global] Instance table_answer_ok_dec T e : Decision (table_answer_ok T e).
Proof. unfold table_answer_ok. destruct (e.1); apply _. Defined.

#[global] Instance table_ok_dec T t : Decision (table_ok T t).
Proof. revert T. induction t as [|e t IH]; intros T; simpl; apply _. Defined.

(** No call closes a descriptor that is not open, such as one closed before. *)
Definition closes_open (T : gset Z) (e : sys_call * answer) : Prop :=
  match e.1 with SysClose s => s ∈ T | _ => True end.

Fixpoint no_stray_close (T : gset Z) (t : sys_trace) : Prop :=
  match t with
  | [] => True
  | e :: t => closes_open T e /\ no_stray_close (opens_after T e) t
  end.

(** From the table [T] with the trace [t] to [T'] with [t'], closing descriptors that are open only. *)
Definition went (T : gset Z) (t : sys_trace) (T' : gset Z) (t' : sys_trace) : Prop :=
  exists pre, t = pre ++ t' /\ T' = foldl opens_after T pre /\ no_stray_close T pre.

Lemma no_stray_close_app T t1 t2 :
  no_stray_close T (t1 ++ t2) <-> no_stray_close T t1 /\ no_stray_close (foldl opens_after T t1) t2.
Proof. revert T. induction t1 as [|e t1 IH]; intros T; simpl; rewrite ?IH; tauto. Qed.

Lemma went_refl T t : went T t T t.
Proof. by exists []. Qed.

Lemma went_trans T1 t1 T2 t2 T3 t3 : went T1 t1 T2 t2 -> went T2 t2 T3 t3 -> went T1 t1 T3 t3.
Proof.
  intros (p1 & -> & -> & H1) (p2 & -> & -> & H2). exists (p1 ++ p2).
  by rewrite app_assoc, foldl_app, no_stray_close_app.
Qed.

Lemma went_one T e t : closes_open T e -> went T (e :: t) (opens_after T e) t.
Proof. by exists [e]. Qed.

Lemma table_ok_went T t T' t' : table_ok T t -> went T t T' t' -> table_ok T' t'.
Proof.
  intros Ht (pre & -> & -> & _). revert T Ht. induction pre as [|e pre IH]; intros T Ht; [done|].
  by apply IH, Ht.
Qed.

#[export] Hint Resolve went_refl : horcrux.

(** ** Calls that leave the table alone *)

Definition quiet_call (c : sys_call) : bool :=
  match c with
  | SysSocket _ _ _ | SysSocketpair _ _ _ | SysAccept _ _ | SysClose _ => false
  | _ => true
  end.

(** A program that makes only calls of a kind. *)
Definition calls_only (P : sys_call -> bool) {A} (m : sys A) : Prop :=
  forall t a t', m t = Some (a, t') ->
    exists pre, t = pre ++ t' /\ Forall (fun e => P e.1 = true) pre.

Abbreviation quiet := (calls_only quiet_call).

Lemma only_ret P {A} (a : A) : calls_only P (mret a).
Proof. intros t a' t' [= <- <-]. by exists []. Qed.

Lemma only_bind P {A B} (m : sys A) (f : A -> sys B) :
  calls_only P m -> (forall a, calls_only P (f a)) -> calls_only P (m ≫= f).
Proof.
  intros Hm Hf t b t' E. unfold mbind, sys_bind in E.
  destruct (m t) as [[a t1]|] eqn:Em; [|done].
  destruct (Hm _ _ _ Em) as (p1 & -> & H1). destruct (Hf a _ _ _ E) as (p2 & -> & H2).
  exists (p1 ++ p2). rewrite app_assoc. split; [done|]. by apply Forall_app.
Qed.

Lemma only_syscall (P : sys_call -> bool) c : P c = true -> calls_only P (syscall c).
Proof. intros Hc t a t' ->%syscall_inv. exists [(c, a)]. by repeat constructor. Qed.

Lemma only_loop P {S A} (body : S -> sys (S + A)) s :
  (forall s, calls_only P (body s)) -> calls_only P (loop body s).
Proof.
  intros Hb t a t' E.
  eapply (loop_ind _ (fun _ t1 => exists pre, t = pre ++ t1 /\ Forall (fun e => P e.1 = true) pre)
    (fun _ t1 => exists pre, t = pre ++ t1 /\ Forall (fun e => P e.1 = true) pre)); [| | |exact E].
  - by exists [].
  - intros s1 t1 s2 t2 (p1 & -> & H1) Eb. destruct (Hb _ _ _ _ Eb) as (p2 & -> & H2).
    exists (p1 ++ p2). rewrite app_assoc. split; [done|]. by apply Forall_app.
  - intros s1 t1 x t2 (p1 & -> & H1) Eb. destruct (Hb _ _ _ _ Eb) as (p2 & -> & H2).
    exists (p1 ++ p2). rewrite app_assoc. split; [done|]. by apply Forall_app.
Qed.

(** The calls of a program. *)
Ltac only_calls :=
  repeat match goal with
  | |- calls_only _ (mbind _ _) => apply only_bind; [|intros]
  | |- calls_only _ (mret _) => apply only_ret
  | |- calls_only _ (syscall _) => by apply only_syscall
  | |- calls_only _ (loop _ _) => apply only_loop; intros
  | |- calls_only _ (let '(_, _) := ?x in _) => destruct x
  | |- calls_only _ (if ?b then _ else _) => destruct b
  | |- calls_only _ _ => progress cbv beta iota zeta
  end.

Lemma quiet_went {A} (m : sys A) T t a t' : quiet m -> m t = Some (a, t') -> went T t T t'.
Proof.
  intros Hm E. destruct (Hm _ _ _ E) as (pre & -> & Hq). exists pre. split; [done|]. clear E.
  induction Hq as [|e pre He Hq [IH1 IH2]]; [done|]. simpl.
  assert (opens_after T e = T /\ closes_open T e) as [-> Hc] by (by destruct e as [[] ?]). done.
Qed.

Lemma quiet_setsockopt s state level optname optval ec :
  quiet (setsockopt s state level optname optval ec).
Proof. unfold setsockopt. only_calls. Qed.

Lemma quiet_bind_call s addr ec : quiet (SocketOps.bind s addr ec).
Proof. unfold SocketOps.bind. only_calls. Qed.

Lemma quiet_listen s backlog ec : quiet (SocketOps.listen s backlog ec).
Proof. unfold SocketOps.listen. only_calls. Qed.

Lemma quiet_connect s addr ec : quiet (SocketOps.connect s addr ec).
Proof. unfold SocketOps.connect. only_calls. Qed.

Lemma quiet_non_blocking s state value ec : quiet (set_internal_non_blocking s state value ec).
Proof. unfold set_internal_non_blocking, ioctl_mode. only_calls. Qed.

Lemma quiet_poll_read s state msec ec : quiet (poll_read s state msec ec).
Proof. unfold poll_read, poll_call. only_calls. Qed.

Lemma quiet_sync_connect s addr ec : quiet (sync_connect s addr ec).
Proof.
  unfold sync_connect, poll_connect, get_connect_error, getsockopt. only_calls.
  apply quiet_connect.
Qed.

#[export] Hint Resolve quiet_setsockopt quiet_bind_call quiet_listen quiet_connect
  quiet_non_blocking quiet_sync_connect : horcrux.

(** ** Opening and closing *)

(** The table after [s] was opened, if it was. *)
Definition and_opened (s : Z) (T : gset Z) : gset Z :=
  if s =? invalid_socket then T else {[s]} ∪ T.

Lemma socket_went T af type protocol ec t s ec' t' :
  table_ok T t -> socket af type protocol ec t = Some ((s, ec'), t') ->
  went T t (and_opened s T) t' /\ (s <> invalid_socket -> s ∉ T) /\
  (s = invalid_socket -> ec_is_error ec' = true).
Proof.
  intros Ht E. unfold socket in E. sys_inv. destruct Ht as [Ha _]. unfold table_answer_ok in Ha.
  cbn [fst snd] in Ha. split; [exact (went_one T (SysSocket af type protocol, a) t' I)|].
  destruct Ha as [[Ha He]|[Ha Hf]]; rewrite ?Ha; (split; [done|]).
  - intros _. unfold ec_is_error. simpl. apply negb_true_iff, Z.eqb_neq. lia.
  - unfold invalid_socket. lia.
Qed.

Lemma close_went T s state destruction ec t x t' :
  table_ok T t -> s <> invalid_socket -> s ∈ T ->
  SocketOps.close s state destruction ec t = Some (x, t') -> went T t (T ∖ {[s]}) t'.
Proof.
  intros Ht Hs Hin E. unfold SocketOps.close in E. rewrite (proj2 (Z.eqb_neq _ _) Hs) in E.
  unfold mbind at 1, sys_bind at 1 in E.
  match type of E with context [match ?m t with _ => _ end] => set (linger := m) in E end.
  destruct (linger t) as [[state1 t1]|] eqn:E1; [|done].
  assert (went T t T t1) as W1.
  { eapply quiet_went; [|exact E1]. subst linger. only_calls. apply quiet_setsockopt. }
  pose proof (table_ok_went _ _ _ _ Ht W1) as Ht1. clear E1.
  eapply went_trans; [exact W1|]. clear W1 Ht.
  sys_inv; [|exact (went_one T (SysClose s, a) t' Hin)].
  destruct Ht1 as [Ha _]. unfold table_answer_ok in Ha. simpl in Ha.
  apply andb_true_iff in Eif as [Hn%negb_true_iff%Z.eqb_neq Hb].
  exfalso. apply (Ha Hn). unfold get_last_error in Hb. rewrite (proj2 (Z.eqb_neq _ _) Hn) in Hb.
  simpl in Hb. unfold is_blocking in Hb.
  apply orb_true_iff in Hb as [Hb|Hb]; apply bool_decide_eq_true in Hb; by injection Hb.
Qed.

Lemma destroy_holder_went T s t x t' :
  table_ok T t -> (s <> invalid_socket -> s ∈ T) -> destroy_holder s t = Some (x, t') ->
  went T t (if s =? invalid_socket then T else T ∖ {[s]}) t'.
Proof.
  intros Ht Hin E. unfold destroy_holder in E. destruct (Z.eqb_spec s invalid_socket) as [->|Hs]; simpl in E.
  { injection E as _ <-. apply went_refl. }
  unfold mbind, sys_bind in E. destruct (SocketOps.close _ _ _ _ t) as [[[[? ?] ?] t1]|] eqn:Ec; [|done].
  injection E as _ <-. eapply close_went; eauto.
Qed.

Lemma accept_went T s addrlen ec t new addrlen' ec' t' :
  table_ok T t -> SocketOps.accept s addrlen ec t = Some ((new, addrlen', ec'), t') ->
  went T t (and_opened new T) t' /\ (new <> invalid_socket -> new ∉ T).
Proof.
  intros Ht E. unfold SocketOps.accept, call_accept in E.
  destruct (s =? invalid_socket); [injection E as <- _ _ <-; split; [apply went_refl|done]|].
  sys_run E; destruct Ht as [Ha _]; unfold table_answer_ok in Ha; cbn [fst snd] in Ha;
    (split; [exact (went_one T (SysAccept s addrlen, a) t' I)|]); by destruct Ha as [[? ?]|[? ?]].
Qed.

(** What [sync_accept] does when there is no connection: it gives up, or goes round
    once the descriptor is readable. *)
Lemma no_connection_quiet (b1 b2 b3 b4 : bool) s (addrlen : option Z) ec t x t' :
  (if b1 then
     if b2 then mret (inr (invalid_socket, addrlen, ec))
     else
       '(result, ec) ← poll_read s 0 (-1) ec;
       if result <? 0 then mret (inr (invalid_socket, addrlen, ec))
       else mret (inl (addrlen, ec))
   else if b3 then
     if b4 then mret (inr (invalid_socket, addrlen, ec))
     else
       '(result, ec) ← poll_read s 0 (-1) ec;
       if result <? 0 then mret (inr (invalid_socket, addrlen, ec))
       else mret (inl (addrlen, ec))
   else mret (inr (invalid_socket, addrlen, ec)) : sys _) t = Some (x, t') ->
  (forall T, went T t T t') /\ (forall y, x = inr y -> y.1.1 = invalid_socket).
Proof.
  assert (forall y (t1 : sys_trace),
    ('(result, ec) ← poll_read s 0 (-1) ec;
     if result <? 0 then mret (inr (invalid_socket, addrlen, ec))
     else mret (inl (addrlen, ec)) : sys _) t1 = Some (y, t') ->
    (forall T, went T t1 T t') /\ (forall z, y = inr z -> z.1.1 = invalid_socket)) as Hpoll.
  { intros y t1 E. unfold mbind, sys_bind in E.
    destruct (poll_read s 0 (-1) ec t1) as [[[n ec1] t2]|] eqn:Ep; [|done].
    pose proof (fun T => quiet_went _ T _ _ _ (quiet_poll_read _ _ _ _) Ep) as W.
    destruct (n <? 0); injection E as <- <-; (split; [done|]); by intros ? [= <-]. }
  destruct b1, b2, b3, b4; intros E; first [by apply Hpoll|injection E as <- <-];
    (split; [auto with horcrux|]); by intros ? [= <-].
Qed.

(** The loop of [sync_accept] opens at most the descriptor it returns. *)
Lemma sync_accept_went T s state addrlen ec t new addrlen' ec' t' :
  table_ok T t -> sync_accept s state addrlen ec t = Some ((new, addrlen', ec'), t') ->
  went T t (and_opened new T) t' /\ (new <> invalid_socket -> new ∉ T).
Proof.
  intros Ht E. unfold sync_accept in E.
  apply (loop_ind _ (fun _ t1 => went T t T t1)
    (fun x t1 => went T t (and_opened x.1.1 T) t1 /\ (x.1.1 <> invalid_socket -> x.1.1 ∉ T))) in E;
    [done|apply went_refl| |]; clear new addrlen' ec' t' E addrlen ec; intros [l e] t1 x t2 W Eb;
    cbn [fst] in *; unfold mbind at 1, sys_bind at 1 in Eb;
    (destruct (SocketOps.accept s l e t1) as [[[[new l1] e1] t3]|] eqn:Ea; [|done]);
    destruct (accept_went _ _ _ _ _ _ _ _ _ (table_ok_went _ _ _ _ Ht W) Ea) as [W1 Hn];
    destruct (Z.eqb_spec new invalid_socket) as [->|Hi]; simpl in Eb;
    try (apply no_connection_quiet in Eb as [W2 Hx]).
  - eapply went_trans; [exact W|]. by eapply went_trans.
  - done.
  - rewrite (Hx x eq_refl). split; [|done]. eapply went_trans; [exact W|]. by eapply went_trans.
  - injection Eb as <- <-. split; [by eapply went_trans|done].
Qed.

(** So does [non_blocking_accept]. *)
Lemma non_blocking_accept_went T s state addrlen ec t over new addrlen' ec' t' :
  table_ok T t -> non_blocking_accept s state addrlen ec t = Some ((over, new, addrlen', ec'), t') ->
  went T t (and_opened new T) t' /\ (new <> invalid_socket -> new ∉ T).
Proof.
  intros Ht E. unfold non_blocking_accept in E.
  apply (loop_ind _ (fun _ t1 => went T t T t1)
    (fun x t1 => went T t (and_opened x.1.1.2 T) t1 /\ (x.1.1.2 <> invalid_socket -> x.1.1.2 ∉ T))) in E;
    [done|apply went_refl| |]; clear over new addrlen' ec' t' E addrlen ec; intros [l e] t1 x t2 W Eb;
    cbn [fst snd] in *; unfold mbind at 1, sys_bind at 1 in Eb;
    (destruct (SocketOps.accept s l e t1) as [[[[new l1] e1] t3]|] eqn:Ea; [|done]);
    destruct (accept_went _ _ _ _ _ _ _ _ _ (table_ok_went _ _ _ _ Ht W) Ea) as [W1 Hn];
    cbv beta iota zeta in Eb;
    repeat match type of Eb with
    | context [if ?b then _ else _] => let E := fresh "Eif" in destruct b eqn:E
    end; try discriminate Eb; injection Eb as <- <-; cbn [fst snd].
  all: try (by split; [eapply went_trans|]).
  apply negb_false_iff, Z.eqb_eq in Eif as ->. eapply went_trans; [exact W|exact W1].
Qed.

(** * What the sockets need of the reactor *)

(** [live]: the descriptors the reactor knows, by the pointer it gave for each;
    [leaving]: one that was taken from it, but not cleaned up. *)
Class SocketReactorLaws (R : Type) `{SocketReactor R} := {
  reactor_inv : R -> Prop;
  live : R -> gmap positive Z;
  leaving : positive -> R -> Prop;
  register_live fd r :
    reactor_inv r ->
    exists e p r', register fd r = Ret (e, p, r') /\ reactor_inv r' /\
    live r !! p = None /\ live r' = <[p := fd]> (live r);
  deregister_live fd p closing r :
    reactor_inv r -> live r !! p = Some fd ->
    exists r', deregister fd (Some p) closing r = Ret (Some p, r') /\ reactor_inv r' /\
    leaving p r' /\ live r' = delete p (live r);
  cleanup_live p r :
    reactor_inv r -> leaving p r ->
    exists r', cleanup (Some p) r = Ret r' /\ reactor_inv r' /\ live r' = live r;
  cancel_live p fd r :
    reactor_inv r -> live r !! p = Some fd ->
    exists r', cancel (Some p) r = Ret r' /\ reactor_inv r' /\ live r' = live r;
  start_live k p fd op is_continuation allow_speculative r :
    reactor_inv r -> live r !! p = Some fd ->
    exists r', start k fd (Some p) op is_continuation allow_speculative r = Ret r' /\
    reactor_inv r' /\ live r' = live r;
  immediate_live op is_continuation r :
    reactor_inv r ->
    exists r', immediate op is_continuation r = Ret r' /\ reactor_inv r' /\ live r' = live r
}.

(** * Ownership *)

Section Spec.
Context {R : Type} `{SocketReactorLaws R}.

(** The descriptor of an object. *)
Definition fds (b : base_implementation) : gset Z := if is_open b then {[socket_ b]} else ∅.

(** An open object is known to the reactor; one that is not has no flags. *)
Definition holds (b : base_implementation) (r : R) : Prop :=
  if is_open b then exists p, reactor_data_ b = Some p /\ live r !! p = Some (socket_ b)
  else state_ b = 0.

(** The descriptors [F] became [F'], and the others stayed. *)
Record moved (F F' T T' : gset Z) (r r' : R) : Prop := {
  mv_table : T' = (T ∖ F) ∪ F';
  mv_fresh : F' ## T ∖ F;
  mv_inv : reactor_inv r';
  mv_live p fd : fd ∈ T ∖ F -> live r !! p = Some fd -> live r' !! p = Some fd
}.

(** Run on an object that satisfies [P] and owns [F], the operation ends as [Q] says,
    which is given the descriptors owned then. *)
Definition triple {A} (P : R -> Prop) (F : gset Z) (m : svc R A)
    (Q : outcome A -> R -> gset Z -> Prop) : Prop :=
  forall r t T o r' t',
    reactor_inv r -> table_ok T t -> F ⊆ T -> P r -> m r t = Some (o, r', t') ->
    exists F' T', went T t T' t' /\ moved F F' T T' r r' /\ Q o r' F'.

Lemma moved_refl F T r : reactor_inv r -> F ⊆ T -> moved F F T T r r.
Proof.
  intros Hr HF. split; [|set_solver|done|done]. apply set_eq. intros x. destruct (decide (x ∈ F)); set_solver.
Qed.

Lemma moved_trans F1 F2 F3 T1 T2 T3 r1 r2 r3 :
  moved F1 F2 T1 T2 r1 r2 -> moved F2 F3 T2 T3 r2 r3 -> moved F1 F3 T1 T3 r1 r3.
Proof.
  intros [-> F12 I2 L2] [-> F23 I3 L3].
  assert ((T1 ∖ F1 ∪ F2) ∖ F2 = T1 ∖ F1) as E by set_solver.
  rewrite E in *. split; [done|done|done|]. intros p fd Hfd Hp. by apply L3, L2.
Qed.

Lemma triple_ret {A} (P : R -> Prop) F (a : A) Q :
  (forall r, P r -> Q (Ret a) r F) -> triple P F (mret a) Q.
Proof.
  intros HQ r t T o r' t' Hr Ht HF HP [= <- <- <-]. exists F, T.
  split; [apply went_refl|]. split; [by apply moved_refl|by apply HQ].
Qed.

Lemma triple_throw {A} (P : R -> Prop) F e (Q : outcome A -> R -> gset Z -> Prop) :
  (forall r, P r -> Q (Throw e) r F) -> triple P F (throw e) Q.
Proof.
  intros HQ r t T o r' t' Hr Ht HF HP [= <- <- <-]. exists F, T.
  split; [apply went_refl|]. split; [by apply moved_refl|by apply HQ].
Qed.

(** An outcome that an operation cannot go on from. *)
Definition passes {A B} (Q : outcome A -> R -> gset Z -> Prop) (Q' : outcome B -> R -> gset Z -> Prop) :
    Prop :=
  (forall e r F, Q (Throw e) r F -> Q' (Throw e) r F) /\ (forall r F, Q Undef r F -> Q' Undef r F).

Lemma triple_bind {A B} (P : R -> Prop) F (m : svc R A) (f : A -> svc R B) Q Q' :
  triple P F m Q ->
  (forall a F', triple (fun r => Q (Ret a) r F') F' (f a) Q') ->
  passes Q Q' ->
  triple P F (m ≫= f) Q'.
Proof.
  intros Hm Hf [Hthrow Hundef] r t T o r' t' Hr Ht HF HP E. unfold mbind, svc_bind in E.
  destruct (m r t) as [[[o1 r1] t1]|] eqn:Em; [|done].
  destruct (Hm _ _ _ _ _ _ Hr Ht HF HP Em) as (F1 & T1 & W1 & M1 & HQ).
  destruct o1 as [a|e|]; [|injection E as <- <- <-; exists F1, T1; by auto..].
  assert (F1 ⊆ T1) as HF1 by (rewrite (mv_table _ _ _ _ _ _ M1); set_solver +).
  destruct (Hf a F1 _ _ _ _ _ _ (mv_inv _ _ _ _ _ _ M1) (table_ok_went _ _ _ _ Ht W1) HF1 HQ E)
    as (F2 & T2 & W2 & M2 & HQ').
  exists F2, T2. split; [by eapply went_trans|]. split; [by eapply moved_trans|done].
Qed.

Lemma triple_pre {A} (P P' : R -> Prop) F (m : svc R A) Q :
  (forall r, P r -> P' r) -> triple P' F m Q -> triple P F m Q.
Proof. intros HP Hm r t T o r' t' Hr Ht HF HPr. by apply Hm; [| | |apply HP]. Qed.

Lemma triple_post {A} (P : R -> Prop) F (m : svc R A) (Q Q' : outcome A -> R -> gset Z -> Prop) :
  (forall o r F', Q o r F' -> Q' o r F') -> triple P F m Q -> triple P F m Q'.
Proof.
  intros HQ Hm r t T o r' t' Hr Ht HF HP E.
  destruct (Hm _ _ _ _ _ _ Hr Ht HF HP E) as (F' & T' & W & M & HQ1). exists F', T'. auto.
Qed.

(** The set of descriptors is known from the precondition. *)
Lemma triple_known {A} (P : R -> Prop) (C : Prop) F (m : svc R A) Q :
  (forall r, P r -> C) -> (C -> triple P F m Q) -> triple P F m Q.
Proof. intros HC Hm r t T o r' t' Hr Ht HF HP. by apply (Hm (HC _ HP)). Qed.

(** ** Calls of the system *)

(** The results of an operation that leaves the reactor alone. *)
Definition results {A} (C : A -> gset Z -> Prop) (P : R -> Prop) (o : outcome A) (r : R)
    (F : gset Z) : Prop := exists a, o = Ret a /\ C a F /\ P r.

Lemma triple_os {A} (P : R -> Prop) F (m : sys A) (C : A -> gset Z -> Prop) :
  (forall T t a t', table_ok T t -> F ⊆ T -> m t = Some (a, t') ->
   exists F', went T t ((T ∖ F) ∪ F') t' /\ F' ## T ∖ F /\ C a F') ->
  triple P F (call_os m) (results C P).
Proof.
  intros Hm r t T o r' t' Hr Ht HF HP E. unfold call_os in E.
  destruct (m t) as [[a t1]|] eqn:Em; [|done]. injection E as <- <- <-.
  destruct (Hm _ _ _ _ Ht HF Em) as (F' & W & Hd & HC). exists F', ((T ∖ F) ∪ F').
  split; [done|]. split; [by split|]. by exists a.
Qed.

Lemma union_restore (F T : gset Z) : F ⊆ T -> (T ∖ F) ∪ F = T.
Proof. intros HF. apply set_eq. intros x. destruct (decide (x ∈ F)); set_solver. Qed.

Lemma triple_quiet {A} (P : R -> Prop) F (m : sys A) :
  quiet m -> triple P F (call_os m) (results (fun _ F' => F' = F) P).
Proof.
  intros Hm. apply triple_os. intros T t a t' Ht HF E. exists F.
  rewrite union_restore by done. split; [by eapply quiet_went|]. split; [set_solver +|done].
Qed.

Lemma triple_close P s state destruction ec :
  s <> invalid_socket ->
  triple P {[s]} (call_os (SocketOps.close s state destruction ec)) (results (fun _ F' => F' = ∅) P).
Proof.
  intros Hs. apply triple_os. intros T t x t' Ht HF E. exists ∅.
  rewrite union_empty_r_L. split; [eapply close_went; eauto; set_solver|]. split; [set_solver +|done].
Qed.

Lemma triple_destroy_holder P s :
  triple P (if s =? invalid_socket then ∅ else {[s]}) (call_os (destroy_holder s))
    (results (fun _ F' => F' = ∅) P).
Proof.
  apply triple_os. intros T t x t' Ht HF E. exists ∅. rewrite union_empty_r_L.
  split; [|split; [set_solver +|done]]. apply (destroy_holder_went T) in E; [|done|].
  2: { intros Hs%Z.eqb_neq. rewrite Hs in HF. set_solver. }
  destruct (s =? invalid_socket); [by rewrite difference_empty_L|done].
Qed.

(** The descriptor that was opened. *)
Definition opened (s : Z) : gset Z := if s =? invalid_socket then ∅ else {[s]}.

Lemma opened_went {A} (m : sys A) (new : A -> Z) (C : A -> Prop) P :
  (forall T t a t', table_ok T t -> m t = Some (a, t') ->
   went T t (and_opened (new a) T) t' /\ (new a <> invalid_socket -> new a ∉ T) /\ C a) ->
  triple P ∅ (call_os m) (results (fun a F' => F' = opened (new a) /\ C a) P).
Proof.
  intros Hm. apply triple_os. intros T t a t' Ht _ E. exists (opened (new a)).
  destruct (Hm _ _ _ _ Ht E) as (W & Hn & HC). rewrite difference_empty_L. unfold and_opened, opened in *.
  destruct (Z.eqb_spec (new a) invalid_socket) as [|Hi].
  - rewrite union_empty_r_L. split; [done|]. split; [set_solver +|done].
  - rewrite union_comm_L. split; [done|]. split; [set_solver|done].
Qed.

Lemma triple_socket af type protocol ec P :
  triple P ∅ (call_os (socket af type protocol ec))
    (results (fun x F' => F' = opened x.1 /\ (x.1 = invalid_socket -> ec_is_error x.2 = true)) P).
Proof.
  apply (opened_went _ fst (fun x => x.1 = invalid_socket -> ec_is_error x.2 = true)).
  intros T t [s ec1] t' Ht E. by eapply socket_went.
Qed.

Lemma triple_holder (P P' : R -> Prop) s :
  s <> invalid_socket -> (forall r, P r -> P' r) ->
  triple P {[s]} (call_os (destroy_holder s)) (results (fun _ F' => F' = ∅) P').
Proof.
  intros Hs HP. pose proof (triple_destroy_holder P' s) as Hd.
  rewrite (proj2 (Z.eqb_neq _ _) Hs) in Hd. by eapply triple_pre, Hd.
Qed.

(** ** Calls of the reactor *)

Lemma triple_reactor {A} (P : R -> Prop) F (f : R -> outcome (A * R))
    (Q : outcome A -> R -> gset Z -> Prop) :
  (forall r, reactor_inv r -> P r -> exists a r', f r = Ret (a, r') /\ reactor_inv r' /\
   (forall p fd, fd ∉ F -> live r !! p = Some fd -> live r' !! p = Some fd) /\ Q (Ret a) r' F) ->
  triple P F (call_reactor f) Q.
Proof.
  intros Hf r t T o r' t' Hr Ht HF HP E. unfold call_reactor in E.
  destruct (Hf r Hr HP) as (a & r1 & Ef & Hr1 & Hl & HQ). rewrite Ef in E.
  injection E as <- <- <-. exists F, T. split; [apply went_refl|]. split; [|done].
  split; [by rewrite union_restore|set_solver +|done|]. intros p fd Hfd. apply Hl. set_solver.
Qed.

Lemma triple_reactor_ (P : R -> Prop) F (f : R -> outcome R) (Q : outcome () -> R -> gset Z -> Prop) :
  (forall r, reactor_inv r -> P r -> exists r', f r = Ret r' /\ reactor_inv r' /\
   (forall p fd, fd ∉ F -> live r !! p = Some fd -> live r' !! p = Some fd) /\ Q (Ret ()) r' F) ->
  triple P F (call_reactor_ f) Q.
Proof.
  intros Hf. apply triple_reactor. intros r Hr HP. destruct (Hf r Hr HP) as (r' & -> & Hr' & Hl & HQ).
  by exists (), r'.
Qed.

(** ** The operations of the service *)

(** The object that is returned owns the descriptors that are left, and no exception
    is thrown. *)
Definition owned {A} (impl : A -> base_implementation) (C : A -> Prop) (o : outcome A) (r : R)
    (F : gset Z) : Prop :=
  exists a, o = Ret a /\ C a /\ F = fds (impl a) /\ holds (impl a) r.

(** [F] is left; nothing is. *)
Definition leaves (F : gset Z) (o : outcome ()) (r : R) (F' : gset Z) : Prop :=
  o = Ret () /\ F' = F.

Abbreviation gone := (leaves ∅).

Lemma fds_closed b : is_open b = false -> fds b = ∅.
Proof. unfold fds. by intros ->. Qed.

Lemma fds_open b : is_open b = true -> fds b = {[socket_ b]}.
Proof. unfold fds. by intros ->. Qed.

Lemma is_open_socket b : is_open b = true <-> socket_ b <> invalid_socket.
Proof. unfold is_open. by rewrite negb_true_iff, Z.eqb_neq. Qed.

Lemma holds_closed b r : is_open b = false -> state_ b = 0 -> holds b r.
Proof. unfold holds. by intros ->. Qed.

Lemma holds_open b r p :
  is_open b = true -> reactor_data_ b = Some p -> live r !! p = Some (socket_ b) -> holds b r.
Proof. unfold holds. intros -> Ep Hp. by exists p. Qed.

Lemma holds_known b r :
  holds b r -> is_open b = true ->
  exists p, reactor_data_ b = Some p /\ live r !! p = Some (socket_ b).
Proof. unfold holds. intros Hb Ho. by rewrite Ho in Hb. Qed.

Lemma holds_set_state state b r : is_open b = true -> holds b r -> holds (set_state state b) r.
Proof. unfold holds. by intros Ho; change (is_open (set_state state b)) with (is_open b); rewrite Ho. Qed.

Lemma holds_state b r : holds b r -> is_open b = false -> state_ b = 0.
Proof. unfold holds. intros Hb Ho. by rewrite Ho in Hb. Qed.

Lemma holds_live b r r' : live r' = live r -> holds b r -> holds b r'.
Proof. unfold holds. by intros ->. Qed.

Lemma fds_construct : fds construct = ∅.
Proof. done. Qed.

Lemma passes_owned {A B} (impl : A -> base_implementation) C (Q : outcome B -> R -> gset Z -> Prop) :
  passes (owned impl C) Q.
Proof. split; by intros * (? & ? & _). Qed.

Lemma passes_results {A B} (C : A -> gset Z -> Prop) P (Q : outcome B -> R -> gset Z -> Prop) :
  passes (results C P) Q.
Proof. split; by intros * (? & ? & _). Qed.

(** The descriptor [s] was taken from the reactor, but not cleaned up. *)
Definition left_out (s : Z) (o : outcome (option positive)) (r : R) (F : gset Z) : Prop :=
  exists p, o = Ret (Some p) /\ F = {[s]} /\ leaving p r.

Lemma passes_left_out {B} s (Q : outcome B -> R -> gset Z -> Prop) : passes (left_out s) Q.
Proof. split; by intros * (? & ? & _). Qed.

Lemma triple_left_out {B} s data F (m : option positive -> svc R B) Q :
  (forall p, triple (leaving p) {[s]} (m (Some p)) Q) ->
  triple (fun r => left_out s (Ret data) r F) F (m data) Q.
Proof.
  intros Hm. eapply (triple_known _ (exists p, data = Some p /\ F = {[s]})).
  { by intros r (p & [= ->] & -> & _); exists p. }
  intros (p & -> & ->). eapply triple_pre, Hm. by intros r (? & [= <-] & _ & Hl).
Qed.

Lemma passes_same {A} (Q : outcome A -> R -> gset Z -> Prop) : passes Q Q.
Proof. by split. Qed.

Lemma passes_leaves {B} F (Q : outcome B -> R -> gset Z -> Prop) : passes (leaves F) Q.
Proof. split; by intros * [? _]. Qed.

#[local] Hint Resolve passes_owned passes_left_out passes_results passes_same passes_leaves : horcrux.

Lemma triple_deregister b closing :
  is_open b = true ->
  triple (holds b) {[socket_ b]} (call_reactor (deregister (socket_ b) (reactor_data_ b) closing))
    (left_out (socket_ b)).
Proof.
  intros Ho. apply triple_reactor. intros r Hr Hb. destruct (holds_known _ _ Hb Ho) as (p & -> & Hp).
  destruct (deregister_live (socket_ b) p closing r Hr Hp) as (r' & -> & Hr' & Hl & E).
  exists (Some p), r'. split; [done|]. split; [done|]. split; [|by exists p].
  intros q fd Hfd Hq. rewrite E, lookup_delete_ne; [done|]. intros ->. set_solver.
Qed.

Lemma triple_cleanup p F :
  triple (leaving p) F (call_reactor_ (cleanup (Some p))) (leaves F).
Proof.
  apply triple_reactor_. intros r Hr Hl. destruct (cleanup_live p r Hr Hl) as (r' & -> & Hr' & E).
  exists r'. by rewrite E.
Qed.

(** The descriptor is taken from the reactor, closed by [m], and cleaned up. *)
Lemma triple_shut {A B} (m : sys A) (f : option positive -> A -> svc R B) (k : A -> B) b closing :
  is_open b = true -> (forall data a, f data a = (_ ← call_reactor_ (cleanup data); mret (k a))) ->
  (forall P, triple P {[socket_ b]} (call_os m) (results (fun _ F' => F' = ∅) P)) ->
  triple (holds b) (fds b)
    (data ← call_reactor (deregister (socket_ b) (reactor_data_ b) closing);
     a ← call_os m; f data a) (fun o r F => F = ∅ /\ exists a, o = Ret (k a)).
Proof.
  intros Ho Hf Hm. rewrite fds_open by done.
  eapply triple_bind; [by apply triple_deregister| |auto with horcrux].
  intros data F'. apply (triple_left_out _ data F' (fun data => a ← call_os m; f data a)). intros p.
  eapply triple_bind; [apply (Hm (leaving p))| |auto with horcrux].
  intros a F1. apply (triple_known _ (F1 = ∅)); [by intros r (? & _ & ? & _)|]. intros ->.
  rewrite Hf. apply (triple_pre _ (leaving p)); [by intros r (_ & _ & _ & Hl)|].
  eapply triple_bind; [apply triple_cleanup| |auto with horcrux].
  intros [] F2. apply triple_ret. intros r [_ ->]. eauto.
Qed.

Lemma destroy_spec b : triple (holds b) (fds b) (destroy b) gone.
Proof.
  unfold destroy. fold (is_open b). destruct (is_open b) eqn:Ho.
  - eapply triple_post; [|apply (triple_shut _ _ (fun _ => ())); [done|done|]].
    + by intros o r F' (-> & _ & ->).
    + intros P. by apply triple_close, is_open_socket.
  - rewrite fds_closed by done. by apply triple_ret.
Qed.

Lemma close_spec b ec : triple (holds b) (fds b) (close b ec) (owned fst (fun x => x.1 = construct)).
Proof.
  unfold close. destruct (is_open b) eqn:Ho.
  - apply (triple_bind _ _ _ _ (fun o r F => F = ∅ /\ exists ec', o = Ret ec')).
    + eapply triple_post; [|apply (triple_shut _ _ snd); [done| |]].
      * intros o r F' (-> & (a & ->)). eauto.
      * by intros data [[? ?] ?].
      * intros P. by apply triple_close, is_open_socket.
    + intros ec' F'. apply triple_ret. intros r (-> & _). by exists (construct, ec').
    + split; by intros * (_ & ? & ?).
  - rewrite fds_closed by done. eapply (triple_bind _ _ _ _ (fun o r F => F = ∅ /\ exists ec', o = Ret ec')).
    + apply triple_ret. eauto.
    + intros ec' F'. apply triple_ret. intros r (-> & _). by exists (construct, ec').
    + split; by intros * (_ & ? & ?).
Qed.

Lemma release_spec b ec :
  triple (holds b) (fds b) (release b ec)
    (fun o r F' => F' = fds b /\ exists ec',
       o = Ret (if is_open b then socket_ b else invalid_socket, if is_open b then construct else b, ec') /\
       holds (if is_open b then construct else b) r).
Proof.
  unfold release. destruct (is_open b) eqn:Ho; [|apply triple_ret; eauto]. simpl.
  rewrite fds_open by done.
  eapply triple_bind; [by apply triple_deregister| |auto with horcrux].
  intros data F'.
  apply (triple_left_out _ data F' (fun data =>
    _ ← call_reactor_ (cleanup data); mret (socket_ b, construct, ec_success))). intros p.
  eapply triple_bind; [apply triple_cleanup| |auto with horcrux].
  intros [] F2. apply triple_ret. intros r [_ ->]. split; [done|]. eexists. split; [done|].
  by apply holds_closed.
Qed.

Lemma cancel_spec b ec :
  triple (holds b) (fds b) (cancel_socket b ec) (owned (fun _ => b) (fun _ => True)).
Proof.
  unfold cancel_socket. destruct (is_open b) eqn:Ho; simpl.
  - eapply (triple_bind _ _ _ _ (fun o r F => o = Ret () /\ F = fds b /\ holds b r)).
    + apply triple_reactor_. intros r Hr Hb. destruct (holds_known _ _ Hb Ho) as (p & Ep & Hp). rewrite Ep.
      destruct (cancel_live p _ r Hr Hp) as (r' & -> & Hr' & E). exists r'. rewrite E.
      repeat split; try done. by apply (holds_live _ r).
    + intros [] F'. apply triple_ret. intros r (_ & -> & Hb). by eexists.
    + split; by intros * [? _].
  - apply triple_ret. intros r Hb. by eexists.
Qed.

(** A registration: what it adds to the reactor. *)
Definition registered_as (fd : Z) (o : outcome (Z * positive)) (r : R) (F : gset Z) : Prop :=
  exists e p, o = Ret (e, p) /\ F = {[fd]} /\ live r !! p = Some fd.

Lemma passes_registered {B} fd (Q : outcome B -> R -> gset Z -> Prop) :
  passes (registered_as fd) Q.
Proof. split; by intros * (? & ? & ? & _). Qed.

#[local] Hint Resolve passes_registered : horcrux.

Lemma triple_register fd : triple (fun _ => True) {[fd]} (call_reactor (register fd)) (registered_as fd).
Proof.
  apply triple_reactor. intros r Hr _.
  destruct (register_live fd r Hr) as (e & p & r' & E & Hr' & Hp & El). rewrite E.
  exists (e, p), r'. split; [done|]. split; [done|]. rewrite El. split.
  - intros q fd' _ Hq. rewrite lookup_insert_ne; [done|]. by intros ->; rewrite Hp in Hq.
  - exists e, p. by rewrite El, lookup_insert_eq.
Qed.

(** The result of opening: the object that was not open is open unless there is an
    error. *)
Definition opens_or_fails (b : base_implementation) (x : base_implementation * error_code) : Prop :=
  if is_open b then x = (b, already_open)
  else is_open x.1 = negb (ec_is_error x.2).

Lemma error_of_errno e : e <> 0 -> ec_is_error (mk_error_code e system_category) = true.
Proof. intros He. unfold ec_is_error. simpl. by apply negb_true_iff, Z.eqb_neq. Qed.

Lemma do_open_spec b af type protocol ec :
  triple (holds b) (fds b) (do_open b af type protocol ec) (owned fst (opens_or_fails b)).
Proof.
  unfold do_open, opens_or_fails. destruct (is_open b) eqn:Ho.
  { apply triple_ret. intros r Hb. by exists (b, already_open). }
  apply (triple_known _ (state_ b = 0)); [intros r Hb; by apply (holds_state _ r)|]. intros Hst.
  rewrite fds_closed by done.
  eapply triple_bind; [apply triple_socket|intros [s ec1] F'|auto with horcrux].
  apply (triple_known _ (F' = opened s /\ (s = invalid_socket -> ec_is_error ec1 = true))).
  { by intros r (x & [= <-] & [HF He] & _). }
  intros [-> He]. unfold opened. destruct (Z.eqb_spec s invalid_socket) as [->|Hs]; simpl.
  { apply triple_ret. intros r _. exists (b, ec1). simpl. rewrite Ho, He, fds_closed by done.
    split_and!; try done. by apply holds_closed. }
  eapply triple_bind; [eapply triple_pre, triple_register; done|intros [e p] F'|auto with horcrux].
  apply (triple_known _ (F' = {[s]})); [by intros r (? & ? & _ & -> & _)|]. intros ->.
  destruct (Z.eqb_spec e 0) as [->|He0]; simpl.
  - apply triple_ret. intros r (? & ? & [= <- <-] & _ & Hp). eexists. split; [done|]. simpl.
    assert (is_open (mkBase s (type_state type) (Some p)) = true) as Ho' by (by apply is_open_socket).
    rewrite Ho', fds_open by done. split_and!; try done. by apply (holds_open _ _ p).
  - eapply triple_bind; [by apply (triple_holder _ (fun _ => True))|intros [] F'|auto with horcrux].
    assert (is_open (set_data (Some p) b) = false) as Ho' by done.
    apply triple_ret. intros r ([] & _ & -> & _). eexists. split; [done|]. cbn [fst snd].
    rewrite Ho', (error_of_errno e He0), fds_closed by done. split_and!; try done.
    by apply holds_closed.
Qed.

(** The descriptor of the user is the object's, unless there is an error. *)
Definition assigned (fd : Z) (impl : base_implementation) (ec : error_code) : Prop :=
  if ec_is_error ec then is_open impl = false else socket_ impl = fd /\ is_open impl = true.

Definition takes {A} (fd : Z) (impl : A -> base_implementation) (ec : A -> error_code)
    (o : outcome A) (r : R) (F : gset Z) : Prop :=
  exists a, o = Ret a /\ assigned fd (impl a) (ec a) /\ F = {[fd]} /\ holds (impl a) r.

Lemma passes_takes {A B} fd impl ec (Q : outcome B -> R -> gset Z -> Prop) :
  passes (@takes A fd impl ec) Q.
Proof. split; by intros * (? & ? & _). Qed.

#[local] Hint Resolve passes_takes : horcrux.

Lemma do_assign_spec b type fd ec :
  is_open b = false -> state_ b = 0 -> fd <> invalid_socket ->
  triple (fun _ => True) {[fd]} (do_assign b type fd ec) (takes fd fst snd).
Proof.
  intros Ho Hst Hfd. unfold do_assign. rewrite Ho.
  eapply triple_bind; [apply triple_register|intros [e p] F'|auto with horcrux].
  apply (triple_known _ (F' = {[fd]})); [by intros r (? & ? & _ & -> & _)|]. intros ->.
  destruct (Z.eqb_spec e 0) as [->|He0]; simpl; apply triple_ret; intros r (? & ? & [= <- <-] & _ & Hp).
  - assert (is_open (mkBase fd (set_flag (type_state type) possible_dup) (Some p)) = true) as Ho'
      by (by apply is_open_socket).
    eexists. split; [done|]. split; [done|]. split; [done|]. by apply (holds_open _ _ p).
  - eexists. split; [done|]. unfold assigned. simpl. rewrite (error_of_errno e He0).
    split; [done|]. split; [done|]. by apply holds_closed.
Qed.

(** The calls of the service, on the object with its protocol. *)
Lemma open_spec impl p ec :
  triple (holds (base impl)) (fds (base impl)) (open impl p ec)
    (owned (fun x => base x.1) (fun x => opens_or_fails (base impl) (base x.1, x.2))).
Proof.
  eapply triple_bind; [apply do_open_spec|intros [b ec'] F'|auto with horcrux].
  apply triple_ret. intros r (? & [= <-] & Hx & -> & Hb). by eexists.
Qed.

Lemma assign_spec impl p fd ec :
  is_open (base impl) = false -> state_ (base impl) = 0 -> fd <> invalid_socket ->
  triple (fun _ => True) {[fd]} (assign impl p fd ec) (takes fd (fun x => base x.1) snd).
Proof.
  intros Ho Hst Hfd. eapply triple_bind; [by apply do_assign_spec|intros [b ec'] F'|auto with horcrux].
  apply triple_ret. intros r (? & [= <-] & Hx & -> & Hb). by eexists.
Qed.

Lemma socket_close_spec impl ec :
  triple (holds (base impl)) (fds (base impl)) (socket_close impl ec)
    (owned (fun x => base x.1) (fun x => base x.1 = construct)).
Proof.
  eapply triple_bind; [apply close_spec|intros [b ec'] F'|auto with horcrux].
  apply triple_ret. intros r (? & [= <-] & Hx & -> & Hb). by eexists.
Qed.

(** A call of the system that leaves the object as it is. *)
Lemma quiet_owned {A} (m : sys A) b :
  quiet m -> triple (holds b) (fds b) (call_os m) (owned (fun _ => b) (fun _ => True)).
Proof.
  intros Hm. eapply triple_post, triple_quiet; [|done]. intros o r F' (a & -> & -> & Hb). by exists a.
Qed.

Lemma owned_impl {A B} (impl : A -> base_implementation) C a r F (b : B) impl' (C' : B -> Prop) :
  owned impl C (Ret a) r F -> impl' b = impl a -> (C a -> C' b) -> owned impl' C' (Ret b) r F.
Proof.
  intros (? & [= <-] & Hc & -> & Hb) E HC. exists b. rewrite E. by repeat split; auto.
Qed.

Lemma connect_spec impl e ec :
  triple (holds (base impl)) (fds (base impl)) (connect impl e ec)
    (owned (fun _ => base impl) (fun _ => True)).
Proof. apply quiet_owned, quiet_sync_connect. Qed.

Lemma triple_after {A B} (impl : A -> base_implementation) C a F (m : svc R B) Q :
  (C a -> triple (holds (impl a)) (fds (impl a)) m Q) ->
  triple (fun r => owned impl C (Ret a) r F) F m Q.
Proof.
  intros Hm. apply (triple_known _ (C a /\ F = fds (impl a))); [by intros r (? & [= <-] & ? & -> & _)|].
  intros [HC ->]. eapply triple_pre, Hm; [|done]. by intros r (? & [= <-] & _ & _ & Hb).
Qed.

Lemma socket_connect_spec impl e ec :
  triple (holds (base impl)) (fds (base impl)) (socket_connect impl e ec)
    (owned (fun x => base x.1) (fun x => ec_is_error x.2 = false -> is_open (base x.1) = true)).
Proof.
  unfold socket_connect. destruct (is_open (base impl)) eqn:Ho; simpl.
  - eapply triple_bind; [apply connect_spec|intros ec' F'|auto with horcrux].
    apply triple_ret. intros r Hx. by eapply owned_impl; [exact Hx| |].
  - eapply triple_bind; [apply open_spec|intros [impl1 ec1] F'|auto with horcrux].
    apply triple_after. unfold opens_or_fails. rewrite Ho. simpl. intros Hopen.
    destruct (ec_is_error ec1) eqn:He; simpl in Hopen.
    { apply triple_ret. intros r Hb. eexists. split; [done|]. simpl. by rewrite He. }
    eapply triple_bind; [apply connect_spec|intros ec' F2|auto with horcrux].
    apply triple_ret. intros r Hx. by eapply owned_impl; [exact Hx| |].
Qed.

Lemma call_connect_condition_length cond ec iter :
  (length (call_connect_condition cond ec iter) <= length iter)%nat.
Proof. induction iter as [|e iter IH]; simpl; [lia|]. destruct (cond ec e); simpl; lia. Qed.

(** Connecting to a range: the socket is open when there is no error. *)
Lemma connect_loop_spec fuel cond impl iter ec :
  (length iter < fuel)%nat ->
  triple (holds (base impl)) (fds (base impl)) (connect_loop fuel cond impl iter ec)
    (owned (fun x => base x.1.2)
      (fun x => ec_is_error x.2 = false -> is_open (base x.1.2) = true /\ x.1.1 <> [])).
Proof.
  revert impl iter ec. induction fuel as [|fuel IH]; intros impl iter ec Hf; [lia|]. simpl.
  pose proof (call_connect_condition_length cond ec iter) as Hl.
  destruct (call_connect_condition cond ec iter) as [|e rest]; simpl in Hl.
  { apply triple_ret. intros r Hb. eexists. split; [done|]. split; [|done]. simpl.
    destruct (ec_is_error ec) eqn:He; [by rewrite He|done]. }
  eapply triple_bind; [apply socket_close_spec|intros [impl1 ec1] F'|auto with horcrux].
  apply triple_after. intros _.
  eapply triple_bind; [apply socket_connect_spec|intros [impl2 ec2] F2|auto with horcrux].
  apply triple_after. cbn [fst snd]. intros Hopen.
  destruct (ec_is_error ec2) eqn:He; cbn [negb]; [apply IH; lia|].
  apply triple_ret. intros r Hb. eexists. split; [done|]. by repeat split; auto.
Qed.

Lemma connect_range_spec impl endpoints cond :
  triple (holds (base impl)) (fds (base impl)) (connect_range impl endpoints cond)
    (owned (fun x => base x.1.2)
      (fun x => ec_is_error x.2 = false -> is_open (base x.1.2) = true /\ x.1.1 <> [])).
Proof. apply connect_loop_spec. lia. Qed.

(** ** Constructors that may throw *)

(** A new object, or an exception that leaves nothing. *)
Definition constructed {A} (impl : A -> base_implementation) (C : A -> Prop) (o : outcome A) (r : R)
    (F : gset Z) : Prop :=
  match o with
  | Ret a => C a /\ F = fds (impl a) /\ holds (impl a) r
  | Throw _ => F = ∅
  | Undef => False
  end.

Definition thrown (b : base_implementation) (ec : error_code) (o : outcome ()) (r : R) (F : gset Z) :
    Prop :=
  match o with
  | Ret _ => ec_is_error ec = false /\ F = fds b /\ holds b r
  | Throw _ => F = ∅
  | Undef => False
  end.

Lemma passes_thrown {A} (impl : A -> base_implementation) C b ec :
  passes (thrown b ec) (constructed impl C).
Proof. by split. Qed.

Lemma passes_constructed {A B} (impl : A -> base_implementation) C (impl' : B -> base_implementation) C' :
  passes (constructed impl C) (constructed impl' C').
Proof. by split. Qed.

#[local] Hint Resolve passes_thrown passes_constructed : horcrux.

Lemma throw_error_spec b ec :
  triple (holds b) (fds b) (throw_error ec (destroy b)) (thrown b ec).
Proof.
  unfold throw_error. destruct (ec_is_error ec) eqn:He.
  - eapply triple_bind; [apply destroy_spec|intros [] F'|auto with horcrux].
    apply triple_throw. by intros r [_ ->].
  - by apply triple_ret.
Qed.

(** The test of an error in a constructor. *)
Lemma checked_spec {A} (impl : A -> base_implementation) C (k : svc R A) b ec :
  (ec_is_error ec = false -> triple (holds b) (fds b) k (constructed impl C)) ->
  triple (holds b) (fds b) (_ ← throw_error ec (destroy b); k) (constructed impl C).
Proof.
  intros Hk. eapply triple_bind; [apply throw_error_spec|intros [] F'|auto with horcrux].
  apply (triple_known _ (ec_is_error ec = false /\ F' = fds b)); [by intros r (? & -> & _)|].
  intros [He ->]. eapply triple_pre, Hk; [|done]. by intros r (_ & _ & Hb).
Qed.

Lemma set_option_spec impl level name data ec :
  triple (holds (base impl)) (fds (base impl)) (set_option impl level name data ec)
    (owned (fun x => base x.1) (fun x => is_open (base x.1) = is_open (base impl))).
Proof.
  unfold set_option, socket_of. destruct (is_open (base impl)) eqn:Ho.
  - eapply triple_bind; [apply quiet_owned, quiet_setsockopt|intros [[n state] ec'] F'|auto with horcrux].
    apply triple_ret. intros r (x & _ & _ & -> & Hb). eexists. split; [done|]. split; [done|].
    split; [done|]. by apply holds_set_state.
  - unfold setsockopt. unfold is_open in *. apply negb_false_iff in Ho. rewrite Ho.
    assert (set_state (state_ (base impl)) (base impl) = base impl) as E by (by destruct (base impl)).
    apply triple_ret. intros r Hb. eexists. split; [done|]. cbn [fst base]. rewrite !E, Ho. by split_and!.
Qed.

Lemma bind_spec impl e ec :
  triple (holds (base impl)) (fds (base impl)) (bind impl e ec)
    (owned (fun _ => base impl) (fun _ => True)).
Proof.
  eapply triple_bind; [apply quiet_owned, quiet_bind_call|intros [n ec'] F'|auto with horcrux].
  apply triple_ret. intros r Hx. by eapply owned_impl; [exact Hx| |].
Qed.

Lemma listen_spec impl backlog ec :
  triple (holds (base impl)) (fds (base impl)) (listen impl backlog ec)
    (owned (fun _ => base impl) (fun _ => True)).
Proof.
  eapply triple_bind; [apply quiet_owned, quiet_listen|intros [n ec'] F'|auto with horcrux].
  apply triple_ret. intros r Hx. by eapply owned_impl; [exact Hx| |].
Qed.

Lemma new_acceptor_spec e reuse_addr :
  triple (fun _ => True) ∅ (new_acceptor e reuse_addr)
    (constructed base (fun x => is_open (base x) = true)).
Proof.
  unfold new_acceptor.
  eapply triple_bind; [|intros [impl ec] F'|apply passes_owned].
  { eapply triple_pre, (open_spec new_implementation). intros r _. by apply holds_closed. }
  apply triple_after. unfold opens_or_fails. simpl. intros Ho. apply checked_spec. intros He.
  rewrite He in Ho. simpl in Ho.
  apply (triple_bind _ _ _ _ (constructed (fun x => base x.1) (fun x => is_open (base x.1) = true)));
    [|intros [impl1 ec1] F1|auto with horcrux].
  - destruct reuse_addr; [|by apply triple_ret].
    eapply triple_bind; [apply set_option_spec|intros [impl1 ec1] F'1|apply passes_owned].
    apply triple_after. simpl. rewrite Ho. intros Ho1. apply checked_spec. intros _. by apply triple_ret.
  - apply (triple_known _ (is_open (base impl1) = true /\ F1 = fds (base impl1))).
    { by intros r (? & -> & _). }
    intros [Ho1 ->].
    eapply triple_bind; [|intros ec2 F2|apply passes_owned].
    { eapply triple_pre, bind_spec. by intros r (_ & _ & Hb). }
    apply triple_after. intros _. apply checked_spec. intros _.
    eapply triple_bind; [apply listen_spec|intros ec3 F3|apply passes_owned].
    apply triple_after. intros _. apply checked_spec. intros _. by apply triple_ret.
Qed.

Lemma client_socket_spec endpoints :
  triple (fun _ => True) ∅ (client_socket endpoints)
    (constructed base (fun x => is_open (base x) = true)).
Proof.
  unfold client_socket.
  apply (triple_bind _ _ _ _ (constructed (fun x => base x.2) (fun x => is_open (base x.2) = true)));
    [|intros [e impl] F'; by apply triple_ret|auto with horcrux].
  unfold connect_endpoints. eapply triple_bind; [|intros [[iter impl] ec] F'|apply passes_owned].
  { eapply triple_pre, (connect_range_spec new_implementation). intros r _. by apply holds_closed. }
  apply triple_after. cbn [fst snd]. intros Hopen.
  apply (triple_bind _ _ _ _ (fun o r F => (exists e, o = Ret e) /\ F = fds (base impl) /\ holds (base impl) r));
    [|intros e F2|split; by intros * [[? ?] _]].
  - apply triple_reactor. intros r Hr Hb. unfold deref_connect_result.
    destruct (ec_is_error ec) eqn:He; [eexists _, _; split_and!; eauto|].
    destruct (Hopen eq_refl) as [_ Hi]. destruct iter as [|e rest]; [done|].
    eexists _, _. split_and!; eauto.
  - apply (triple_known _ (F2 = fds (base impl))); [by intros r (_ & -> & _)|]. intros ->.
    eapply triple_pre; [|apply checked_spec].
    + by intros r (_ & _ & Hb).
    + intros He. apply triple_ret. intros r Hb. by destruct (Hopen He).
Qed.

(** ** Accepting *)

Lemma triple_accept s state addrlen ec P :
  triple P ∅ (call_os (sync_accept s state addrlen ec)) (results (fun x F' => F' = opened x.1.1 /\ True) P).
Proof.
  apply (opened_went _ (fun x => x.1.1) (fun _ => True)). intros T t [[new l] ec1] t' Ht E.
  apply (sync_accept_went T) in E as [W Hn]; [|done]. by split_and!.
Qed.

(** The size of the peer's address is checked before the connection is its. *)
Lemma resize_peer_spec addr_len s P :
  s <> invalid_socket ->
  triple P {[s]} (resize_peer addr_len (call_os (destroy_holder s)))
    (fun o r F => match o with Ret _ => F = {[s]} /\ P r | Throw _ => F = ∅ | Undef => False end).
Proof.
  intros Hs. destruct addr_len as [n|]; [|by apply triple_ret]. simpl.
  destruct (resize_fits n); [by apply triple_ret|].
  unfold throw_error. change (ec_is_error invalid_argument) with true. cbv iota.
  eapply triple_bind; [by apply (triple_holder P P)|intros [] F'|auto with horcrux].
  apply triple_throw. by intros r (_ & _ & -> & _).
Qed.

(** The connection becomes the peer's, or is closed, or is the operation's. *)
Lemma hand_over_spec {A} peer p new ec addr_len (k : implementation * error_code -> svc R A) Q :
  is_open (base peer) = false -> state_ (base peer) = 0 -> new <> invalid_socket ->
  (forall x, assigned new (base x.1) x.2 -> triple (holds (base x.1)) {[new]} (k x) Q) ->
  (forall e r, Q (Throw e) r ∅) ->
  triple (fun _ => True) {[new]}
    (_ ← resize_peer addr_len (call_os (destroy_holder new)); x ← assign peer p new ec; k x) Q.
Proof.
  intros Ho Hst Hn Hk HQ. eapply triple_bind; [by apply (resize_peer_spec _ _ (fun _ => True))|intros [] F'|].
  - apply (triple_known _ (F' = {[new]})); [by intros r [-> _]|]. intros ->.
    eapply triple_bind; [eapply triple_pre, assign_spec; done|intros x F2|auto with horcrux].
    apply (triple_known _ (assigned new (base x.1) x.2 /\ F2 = {[new]})).
    { by intros r (? & [= <-] & Ha & -> & _). }
    intros [Ha ->]. eapply triple_pre, (Hk x Ha). by intros r (? & [= <-] & _ & _ & Hb).
  - split; [|done]. intros e r F. by intros ->.
Qed.

(** The accepted socket is the peer's; an exception leaves the peer as it was. *)
Definition accepted {A} (peer : implementation) (impl : A -> implementation) (o : outcome A) (r : R)
    (F : gset Z) : Prop :=
  match o with
  | Ret x => F = fds (base (impl x)) /\ holds (base (impl x)) r
  | Throw _ => F = fds (base peer) /\ holds (base peer) r
  | Undef => False
  end.

Lemma assigned_fds new b ec : assigned new b ec -> ec_is_error ec = false -> fds b = {[new]}.
Proof. unfold assigned. intros Ha He. rewrite He in Ha. destruct Ha as [<- Ho]. by apply fds_open. Qed.

Lemma assigned_failed new b ec : assigned new b ec -> ec_is_error ec = true -> is_open b = false.
Proof. unfold assigned. intros Ha He. by rewrite He in Ha. Qed.

Lemma accept_spec impl peer peer_endpoint ec :
  triple (holds (base peer)) (fds (base peer)) (accept impl peer peer_endpoint ec)
    (accepted peer (fun x => x.1.1)).
Proof.
  unfold accept. destruct (is_open (base peer)) eqn:Ho; [by apply triple_ret|].
  pose proof (fds_closed _ Ho) as Hc. rewrite Hc.
  apply (triple_known _ (state_ (base peer) = 0)); [intros r Hb; by apply (holds_state _ r)|].
  intros Hst.
  eapply triple_bind; [apply triple_accept|intros [[new addr_len] ec1] F'|auto with horcrux].
  apply (triple_known _ (F' = opened new)); [by intros r (? & [= <-] & [-> _] & _)|]. intros ->.
  unfold opened. destruct (Z.eqb_spec new invalid_socket) as [->|Hn]; cbn [negb].
  { apply triple_ret. intros r _. split; [by rewrite fds_closed|by apply holds_closed]. }
  eapply (triple_pre _ (fun _ => True)); [done|].
  apply (hand_over_spec peer (SocketService.protocol_ impl) new ec1 addr_len); [done..| |].
  2: { intros e r. split; [done|by apply holds_closed]. }
  intros [peer1 ec2] Ha. cbn [fst snd] in *. destruct (ec_is_error ec2) eqn:He; cbn [negb].
  - pose proof (assigned_failed _ _ _ Ha He) as Ho1.
    eapply triple_bind; [by apply (triple_holder _ (holds (base peer1)))|intros [] F2|auto with horcrux].
    apply triple_ret. intros r (_ & _ & -> & Hb). split; [by rewrite fds_closed|done].
  - pose proof (assigned_fds _ _ _ Ha He) as HF. rewrite <- HF.
    apply (triple_bind _ _ _ _ (owned (fun _ => base peer1) (fun _ => True)));
      [|intros [] F2|auto with horcrux].
    + apply triple_ret. intros r Hb. by eexists.
    + apply triple_ret. by intros r (? & _ & _ & -> & Hb).
Qed.

(** *** In the background *)

Lemma triple_non_blocking_accept s state addrlen ec P :
  triple P ∅ (call_os (non_blocking_accept s state addrlen ec))
    (results (fun x F' => F' = opened x.1.1.2 /\ True) P).
Proof.
  apply (opened_went _ (fun x => x.1.1.2) (fun _ => True)). intros T t [[[over new] l] ec1] t' Ht E.
  apply (non_blocking_accept_went T) in E as [W Hn]; [|done]. by split_and!.
Qed.

(** A performed operation owns the connection, if there is one; what it had before
    is closed. *)
Lemma accept_do_perform_spec s state o :
  triple (fun _ => True) (opened (new_socket_ o)) (call_os (accept_do_perform s state o))
    (results (fun x F' => F' = opened (new_socket_ x.2)) (fun _ => True)).
Proof.
  apply triple_os. intros T t [status o'] t' Ht HF E. unfold accept_do_perform in E.
  unfold mbind at 1, sys_bind at 1 in E.
  destruct (non_blocking_accept _ _ _ _ t) as [[[[[over new] l] ec1] t1]|] eqn:Ea; [|done].
  apply (non_blocking_accept_went T) in Ea as [W Hn]; [|done].
  unfold mbind, sys_bind in E. destruct (destroy_holder (new_socket_ o) t1) as [[[] t2]|] eqn:Ed; [|done].
  injection E as _ <- <-. simpl. pose proof (table_ok_went _ _ _ _ Ht W) as Ht1.
  apply (destroy_holder_went _ _ _ _ _ Ht1) in Ed.
  2: { unfold opened, and_opened in *. intros Ho%Z.eqb_neq. rewrite Ho in HF.
       destruct (new =? invalid_socket); set_solver. }
  exists (opened new).
  pose proof (went_trans _ _ _ _ _ _ W Ed) as W2. unfold opened, and_opened in *.
  destruct (Z.eqb_spec (new_socket_ o) invalid_socket) as [|Ho], (Z.eqb_spec new invalid_socket) as [|Hi];
    (split; [|split; [set_solver|done]]).
  - by rewrite (difference_empty_L T), (union_empty_r_L T).
  - by rewrite (difference_empty_L T), (union_comm_L T).
  - by rewrite (union_empty_r_L (T ∖ _)).
  - replace ((T ∖ {[new_socket_ o]}) ∪ {[new]}) with (({[new]} ∪ T) ∖ {[new_socket_ o]}); [done|].
    specialize (Hn Hi). apply set_eq. intros x. set_unfold.
    assert (new_socket_ o ∈ T) by set_solver. naive_solver.
Qed.

Lemma triple_ret_bind {A B} (P : R -> Prop) F (a : A) (f : A -> svc R B) Q :
  triple P F (f a) Q -> triple P F (mret a ≫= f) Q.
Proof. intros Hf r t T o r' t'. apply Hf. Qed.

(** The peer has the connection, or the operation still has it. *)
Definition assigned_peer (x : implementation * accept_op) (r : R) (F : gset Z) : Prop :=
  holds (base x.1) r /\
  ((new_socket_ x.2 = invalid_socket /\ F = fds (base x.1)) \/
   (new_socket_ x.2 <> invalid_socket /\ F = {[new_socket_ x.2]} /\ is_open (base x.1) = false)).

(** What is left to the operation is closed with it. *)
Lemma end_accept_spec peer x F :
  triple (fun r => assigned_peer x r F) F
    (_ ← call_os (destroy_holder (new_socket_ x.2)); mret (x.1, ao_ec x.2)) (accepted peer fst).
Proof.
  apply (triple_known _ ((new_socket_ x.2 = invalid_socket /\ F = fds (base x.1)) \/
    (new_socket_ x.2 <> invalid_socket /\ F = {[new_socket_ x.2]} /\ is_open (base x.1) = false))).
  { by intros r [_ Hc]. }
  intros [[Hi ->]|(Hi & -> & Ho)]; eapply (triple_pre _ (holds (base x.1))); try by intros r [Hb _].
  - rewrite Hi. eapply triple_bind; [apply quiet_owned, (only_ret _ ())|intros [] F'|auto with horcrux].
    apply triple_ret. by intros r (? & _ & _ & -> & Hb).
  - eapply triple_bind; [by apply (triple_holder _ (holds (base x.1)))|intros [] F'|auto with horcrux].
    apply triple_ret. intros r (_ & _ & -> & Hb). split; [by rewrite fds_closed|done].
Qed.

(** A performed operation completes: the peer, which is not open, takes the
    connection. *)
Lemma accept_do_complete_spec peer p o :
  is_open (base peer) = false -> state_ (base peer) = 0 ->
  triple (fun _ => True) (opened (new_socket_ o)) (accept_do_complete peer p o) (accepted peer fst).
Proof.
  intros Ho Hst. pose proof (fds_closed _ Ho) as Hc.
  apply (triple_bind _ _ _ _ (fun x r F => match x with
    | Ret x => assigned_peer x r F
    | Throw _ => F = ∅
    | Undef => False
    end)); [|intros [peer1 o1] F'; apply (end_accept_spec peer (peer1, o1))|].
  - unfold do_assign_peer, opened, assigned_peer.
    destruct (Z.eqb_spec (new_socket_ o) invalid_socket) as [Hi|Hn]; cbn [negb].
    { apply triple_ret. intros r _. split; [by apply holds_closed|]. by left. }
    apply (hand_over_spec peer p (new_socket_ o) (ao_ec o) (addrlen_ o)); [done..| |done].
    intros [peer1 ec] Ha. cbn [fst snd] in *. apply triple_ret. intros r Hb. split; [done|].
    cbn [fst snd new_socket_]. destruct (ec_is_error ec) eqn:He; [right|left]; cbn [negb].
    + split_and!; [done|done|]. by eapply assigned_failed.
    + split; [done|]. symmetry. by eapply assigned_fds.
  - split; [|done]. intros e r F ->. split; [done|by apply holds_closed].
Qed.

(** ** Starting operations *)

(** A closed object is not non-blocking, and cannot be made so. *)
Lemma make_non_blocking_spec b ec :
  triple (holds b) (fds b) (make_non_blocking b ec)
    (owned (fun x => x.1.2) (fun x => x.1.1 = true -> is_open x.1.2 = true)).
Proof.
  unfold make_non_blocking. destruct (is_open b) eqn:Ho.
  - destruct (has _ _); [by apply triple_ret; intros r Hb; eexists|].
    eapply triple_bind; [apply quiet_owned, quiet_non_blocking|intros [[ok state] ec1] F'|auto with horcrux].
    apply triple_ret. intros r (? & [= <-] & _ & -> & Hb). eexists. split; [done|]. split; [done|].
    split; [done|]. by apply holds_set_state.
  - apply (triple_known _ (state_ b = 0)); [intros r Hb; by apply (holds_state _ r)|]. intros Hst.
    rewrite Hst. simpl. unfold set_internal_non_blocking, is_open in *.
    apply negb_false_iff in Ho. rewrite Ho.
    intros r t T o r' t' Hr Ht HF HP [= <- <- <-]. exists (fds b), T. split; [apply went_refl|].
    split; [by apply moved_refl|]. rewrite <- Hst. by eexists.
Qed.

(** A call of the reactor that leaves what it knows, and the object. *)
Lemma reactor_owned b (f : R -> outcome R) :
  (forall r, reactor_inv r -> holds b r ->
   exists r', f r = Ret r' /\ reactor_inv r' /\ live r' = live r) ->
  triple (holds b) (fds b) (call_reactor_ f) (owned (fun _ => b) (fun _ => True)).
Proof.
  intros Hf. apply triple_reactor_. intros r Hr Hb. destruct (Hf r Hr Hb) as (r' & -> & Hr' & E).
  exists r'. rewrite E. split; [done|]. split; [done|]. split; [done|]. exists (). split_and!; try done.
  by apply (holds_live _ r).
Qed.

Lemma immediate_spec b op is_continuation :
  triple (holds b) (fds b) (call_reactor_ (immediate op is_continuation))
    (owned (fun _ => b) (fun _ => True)).
Proof. apply reactor_owned. intros r Hr _. by apply immediate_live. Qed.

Lemma start_spec b k op is_continuation allow_speculative :
  is_open b = true ->
  triple (holds b) (fds b)
    (call_reactor_ (start k (socket_ b) (reactor_data_ b) op is_continuation allow_speculative))
    (owned (fun _ => b) (fun _ => True)).
Proof.
  intros Ho. apply reactor_owned. intros r Hr Hb. destruct (holds_known _ _ Hb Ho) as (p & -> & Hp).
  by eapply start_live.
Qed.

Lemma do_start_op_spec b k op is_continuation is_non_blocking noop :
  triple (holds b) (fds b) (do_start_op b k op is_continuation is_non_blocking noop)
    (owned (fun x => x) (fun _ => True)).
Proof.
  unfold do_start_op. destruct noop; simpl.
  - eapply triple_bind; [apply immediate_spec|intros [] F'|auto with horcrux].
    apply triple_ret. intros r Hx. by eapply owned_impl; [exact Hx| |].
  - eapply triple_bind; [apply make_non_blocking_spec|intros [[ok b1] ec] F'|auto with horcrux].
    apply triple_after. cbn [fst snd]. intros Ho. destruct ok.
    + eapply triple_bind; [by apply start_spec, Ho|intros [] F2|auto with horcrux].
      apply triple_ret. intros r Hx. by eapply owned_impl; [exact Hx| |].
    + eapply triple_bind; [apply immediate_spec|intros [] F2|auto with horcrux].
      apply triple_ret. intros r Hx. by eapply owned_impl; [exact Hx| |].
Qed.

Lemma do_start_accept_op_spec b op is_continuation peer_is_open :
  triple (holds b) (fds b) (do_start_accept_op b op is_continuation peer_is_open)
    (owned (fun x => x) (fun _ => True)).
Proof.
  unfold do_start_accept_op. destruct peer_is_open; simpl; [|apply do_start_op_spec].
  eapply triple_bind; [apply immediate_spec|intros [] F'|auto with horcrux].
  apply triple_ret. intros r Hx. by eapply owned_impl; [exact Hx| |].
Qed.

Lemma do_start_connect_op_spec b op is_continuation addr :
  triple (holds b) (fds b) (do_start_connect_op b op is_continuation addr)
    (owned (fun x => x) (fun _ => True)).
Proof.
  unfold do_start_connect_op.
  eapply triple_bind; [apply make_non_blocking_spec|intros [[ok b1] ec] F'|auto with horcrux].
  apply triple_after. cbn [fst snd]. intros Ho.
  apply (triple_bind _ _ _ _ (owned (fun _ => b1) (fun x : bool * error_code => x.1 = true -> is_open b1 = true)));
    [|intros [waits ec1] F2|auto with horcrux].
  - destruct ok; [|by apply triple_ret; intros r Hb; eexists].
    eapply triple_bind; [apply quiet_owned, quiet_connect|intros [n ec2] F2|auto with horcrux].
    apply triple_after. intros _. apply triple_ret. intros r Hb. eexists. split; [done|]. by repeat split; auto.
  - apply triple_after. cbn [fst snd]. intros Ho1. destruct waits.
    + eapply triple_bind; [by apply start_spec, Ho1|intros [] F3|auto with horcrux].
      apply triple_ret. intros r Hx. by eapply owned_impl; [exact Hx| |].
    + eapply triple_bind; [apply immediate_spec|intros [] F3|auto with horcrux].
      apply triple_ret. intros r Hx. by eapply owned_impl; [exact Hx| |].
Qed.

End Spec.
