(* ===== verification/SocketObjects.v ===== *)
(** The life of a program's sockets: any sequence of constructions, calls, moves and
    destructions of socket objects, some of which throw.

    [outside] are the descriptors that belong to no object: those the program had,
    or released.  [sockets_never_leak] says that a descriptor is open just as long as
    somebody owns it.  The theorem is proved for any reactor with the laws of
    [SocketReactorLaws]; the epoll reactor has them ([epoll_socket_laws]). *)

From S2P Require Import Prelude.
From S2P Require Import AsioError.
From S2P Require Import SocketOps.
From S2P Require Import SocketStream.
From S2P Require Import Scheduler.
From S2P Require Import EpollReactor.
From S2P Require Import SocketSpec.
From S2P Require Import ReactorSpec.
From S2P Require Import SocketService.
From S2P Require Import SocketServiceSpec.
From AAC_tactics Require Import AAC.
From AAC_tactics Require Instances.
Import Instances.Lists.

(** * Programs *)

Record sockets := mkSockets {
  objects : gmap positive implementation;
  outside : gset Z
}.

(** The calls, on the objects of given names. *)
Inductive socket_call :=
  | sc_new (k : positive)
  | sc_destroy (k : positive)
  | sc_open (k : positive) (p : ip.protocol)
  | sc_assign (k : positive) (p : ip.protocol) (fd : Z)
  | sc_close (k : positive)
  | sc_release (k : positive)
  | sc_cancel (k : positive)
  | sc_move_construct (k source : positive)
  | sc_move_assign (k source : positive)
  | sc_bind (k : positive) (e : ip.endpoint)
  | sc_listen (k : positive) (backlog : Z)
  | sc_set_option (k : positive) (level name : Z) (data : bytes)
  | sc_connect (k : positive) (e : ip.endpoint)
  | sc_connect_range (k : positive) (endpoints : list ip.endpoint)
      (connect_condition : error_code -> ip.endpoint -> bool)
  | sc_accept (k peer : positive) (peer_endpoint : option Z)
  | sc_perform_accept (k peer : positive) (peer_endpoint : option Z)
  | sc_start_op (k : positive) (op_type : op_types) (op : queued_op)
      (is_continuation is_non_blocking noop : bool)
  | sc_start_accept (k : positive) (op : queued_op) (is_continuation peer_is_open : bool)
  | sc_start_connect (k : positive) (op : queued_op) (is_continuation : bool) (e : ip.endpoint)
  | sc_acceptor (k : positive) (e : ip.endpoint) (reuse_addr : bool)
  | sc_client (k : positive) (endpoints : list ip.endpoint).

Section Programs.
Context {R : Type} `{SocketReactor R}.

(** [try { m } catch (...) { }]: what there is when [m] throws is [a]. *)
Definition try_or {A} (a : A) (m : svc R A) : svc R A := fun r t =>
  match m r t with
  | Some (Throw _, r, t) => Some (Ret a, r, t)
  | x => x
  end.

Definition set_object (k : positive) (impl : implementation) (s : sockets) : sockets :=
  mkSockets (<[k := impl]> (objects s)) (outside s).

(** A call on an object; there is no call on an object that does not exist. *)
Definition with_object (k : positive) (f : implementation -> svc R implementation) (s : sockets) :
    svc R sockets :=
  match objects s !! k with
  | Some impl => impl ← f impl; mret (set_object k impl s)
  | None => mret s
  end.

Definition on_base (f : base_implementation -> svc R base_implementation) (impl : implementation) :
    svc R implementation :=
  b ← f (base impl);
  mret (mkImplementation b (protocol_ impl)).

(** A constructor that may throw. *)
Definition construct_object (k : positive) (m : svc R implementation) (s : sockets) : svc R sockets :=
  match objects s !! k with
  | Some _ => mret s
  | None => try_or s (impl ← m; mret (set_object k impl s))
  end.

(** An accept operation is performed once, and completes if it is done. *)
Definition perform_accept (impl peer : implementation) (peer_endpoint : option Z) : svc R implementation :=
  if is_open (base peer) then mret peer
  else
    '(status, o) ← call_os (accept_do_perform (socket_of impl) (state_ (base impl))
                              (new_accept_op peer_endpoint));
    '(peer, _) ← accept_do_complete peer (protocol_ impl) o;
    mret peer.

Definition run_socket_call (x : socket_call) (s : sockets) : svc R sockets :=
  match x with
  | sc_new k => construct_object k (mret new_implementation) s
  | sc_destroy k =>
      match objects s !! k with
      | Some impl => _ ← destroy (base impl); mret (mkSockets (delete k (objects s)) (outside s))
      | None => mret s
      end
  | sc_open k p => with_object k (fun impl => '(impl, _) ← open impl p ec_success; mret impl) s
  | sc_assign k p fd =>
      match objects s !! k with
      | Some impl =>
          if decide (fd ∈ outside s /\ fd <> invalid_socket /\ is_open (base impl) = false) then
            x ← assign impl p fd ec_success;
            mret (mkSockets (<[k := x.1]> (objects s))
                    (if ec_is_error x.2 then outside s else outside s ∖ {[fd]}))
          else mret s
      | None => mret s
      end
  | sc_close k => with_object k (fun impl => '(impl, _) ← socket_close impl ec_success; mret impl) s
  | sc_release k =>
      match objects s !! k with
      | Some impl =>
          x ← release (base impl) ec_success;
          mret (mkSockets (<[k := mkImplementation x.1.2 (protocol_ impl)]> (objects s))
                  (outside s ∪ fds (base impl)))
      | None => mret s
      end
  | sc_cancel k =>
      with_object k (fun impl => _ ← cancel_socket (base impl) ec_success; mret impl) s
  | sc_move_construct k source =>
      match objects s !! k, objects s !! source with
      | None, Some other =>
          let x := move_construct other in
          mret (set_object k x.1 (set_object source x.2 s))
      | _, _ => mret s
      end
  | sc_move_assign k source =>
      match objects s !! k, objects s !! source with
      | Some impl, Some other =>
          if decide (k = source) then mret s
          else
            x ← move_assign impl other;
            mret (set_object k x.1 (set_object source x.2 s))
      | _, _ => mret s
      end
  | sc_bind k e => with_object k (fun impl => _ ← bind impl e ec_success; mret impl) s
  | sc_listen k n => with_object k (fun impl => _ ← listen impl n ec_success; mret impl) s
  | sc_set_option k level name data =>
      with_object k (fun impl => '(impl, _) ← set_option impl level name data ec_success; mret impl) s
  | sc_connect k e =>
      with_object k (fun impl => '(impl, _) ← socket_connect impl e ec_success; mret impl) s
  | sc_connect_range k endpoints cond =>
      with_object k (fun impl => '(_, impl, _) ← connect_range impl endpoints cond; mret impl) s
  | sc_accept k peer peer_endpoint =>
      match objects s !! k with
      | Some impl =>
          with_object peer (fun p =>
            try_or p ('(p, _, _) ← accept impl p peer_endpoint ec_success; mret p)) s
      | None => mret s
      end
  | sc_perform_accept k peer peer_endpoint =>
      match objects s !! k with
      | Some impl =>
          with_object peer (fun p => try_or p (perform_accept impl p peer_endpoint)) s
      | None => mret s
      end
  | sc_start_op k op_type op is_continuation is_non_blocking noop =>
      with_object k (on_base (fun b => do_start_op b op_type op is_continuation is_non_blocking noop)) s
  | sc_start_accept k op is_continuation peer_is_open =>
      with_object k (on_base (fun b => do_start_accept_op b op is_continuation peer_is_open)) s
  | sc_start_connect k op is_continuation e =>
      with_object k (on_base (fun b => do_start_connect_op b op is_continuation e)) s
  | sc_acceptor k e reuse_addr => construct_object k (new_acceptor e reuse_addr) s
  | sc_client k endpoints => construct_object k (client_socket endpoints) s
  end.

Fixpoint run_socket_calls (script : list socket_call) (s : sockets) : svc R sockets :=
  match script with
  | [] => mret s
  | x :: script => s ← run_socket_call x s; run_socket_calls script s
  end.

End Programs.

(** * Ownership *)

Section Ownership.
Context {R : Type} `{SocketReactorLaws R}.

(** The descriptors that somebody owns, one by one. *)
Definition object_fds (m : gmap positive implementation) : list Z :=
  gather (fun impl => elements (fds (base impl))) m.

Definition owned_fds (s : sockets) : list Z := object_fds (objects s) ++ elements (outside s).

(** The open descriptors are those owned, each once; every object is as it must be. *)
Record owns (s : sockets) (r : R) (T : gset Z) : Prop := {
  ow_holds k impl : objects s !! k = Some impl -> holds (base impl) r;
  ow_table : owned_fds s ≡ₚ elements T
}.

Lemma elements_disjoint (F G : gset Z) : F ## G -> elements (F ∪ G) ≡ₚ elements F ++ elements G.
Proof. apply elements_disj_union. Qed.

Lemma elements_split (F T : gset Z) : F ⊆ T -> elements T ≡ₚ elements F ++ elements (T ∖ F).
Proof.
  intros HF. rewrite <- elements_disjoint by set_solver. f_equiv. apply set_eq. intros x.
  destruct (decide (x ∈ F)); set_solver.
Qed.

Lemma elem_of_object_fds m k impl fd :
  m !! k = Some impl -> fd ∈ fds (base impl) -> fd ∈ object_fds m.
Proof.
  intros Hk Hfd. unfold object_fds. rewrite (gather_delete _ m k impl Hk). set_solver.
Qed.

(** An object that was there before, perhaps under another name, and that owns
    descriptors of [rest] only. *)
Definition was_there (s : sockets) (rest : list Z) (impl : implementation) : Prop :=
  exists k impl', objects s !! k = Some impl' /\ base impl' = base impl /\
  forall fd, fd ∈ fds (base impl) -> fd ∈ rest.

(** A step in which [F] became [F'], with the rest left alone. *)
Lemma owns_step s s' r r' T T' F F' rest :
  owns s r T -> moved F F' T T' r r' -> F ⊆ T ->
  owned_fds s ≡ₚ elements F ++ rest -> owned_fds s' ≡ₚ elements F' ++ rest ->
  (forall k impl, objects s' !! k = Some impl ->
   holds (base impl) r' \/ was_there s rest impl) ->
  owns s' r' T'.
Proof.
  intros [Hh Ht] [-> Hf Hi Hl] HF E E' Ho.
  assert (rest ≡ₚ elements (T ∖ F)) as Er.
  { apply (Permutation_app_inv_l (elements F)). by rewrite <- E, Ht, <- elements_split. }
  split.
  - intros k impl Hk. destruct (Ho k impl Hk) as [|(k' & impl' & Hk' & Eb & Hr)]; [done|].
    specialize (Hh k' impl' Hk'). rewrite Eb in Hh. destruct (is_open (base impl)) eqn:Hop.
    + destruct (holds_known _ _ Hh Hop) as (p & Ep & Hp). apply (holds_open _ _ p); [done|done|].
      apply Hl; [|done]. specialize (Hr (socket_of impl)). rewrite Er, elem_of_elements in Hr.
      apply Hr. rewrite fds_open by done. set_solver.
    + apply holds_closed; [done|]. by apply (holds_state _ r).
  - rewrite E', Er, <- elements_disjoint by done. by rewrite union_comm_L.
Qed.

(** An operation of a program keeps this. *)
Definition keeps_owned (m : svc R sockets) (s : sockets) : Prop :=
  forall r t T o r' t',
    reactor_inv r -> table_ok T t -> owns s r T -> m r t = Some (o, r', t') ->
    exists s' T', o = Ret s' /\ went T t T' t' /\ reactor_inv r' /\ owns s' r' T'.

Lemma keeps_none s : keeps_owned (mret s) s.
Proof. intros r t T o r' t' Hr Ht Ho [= <- <- <-]. exists s, T. auto with horcrux. Qed.

(** The state of the program when an object is there, or is not. *)
Lemma owned_at k impl s :
  objects s !! k = Some impl ->
  owned_fds s ≡ₚ elements (fds (base impl)) ++ object_fds (delete k (objects s)) ++ elements (outside s).
Proof.
  intros Hk. unfold owned_fds, object_fds. rewrite (gather_delete _ _ k impl Hk). by rewrite app_assoc.
Qed.

Lemma owned_set k impl s :
  owned_fds (set_object k impl s) ≡ₚ
  elements (fds (base impl)) ++ object_fds (delete k (objects s)) ++ elements (outside s).
Proof. unfold owned_fds, object_fds, set_object. simpl. by rewrite gather_insert, app_assoc. Qed.

(** What a triple says of a program that runs the operation on descriptors it owns. *)
Lemma keeps_triple {A} (m : svc R A) (f : A -> sockets) (g : option sockets) P F rest Q s :
  owned_fds s ≡ₚ elements F ++ rest ->
  (forall r T, owns s r T -> P r) ->
  triple P F m Q ->
  (forall o r F', Q o r F' ->
   exists s', match o with Ret a => f a = s' | Throw _ => g = Some s' | Undef => False end /\
     owned_fds s' ≡ₚ elements F' ++ rest /\
     forall k impl, objects s' !! k = Some impl ->
       holds (base impl) r \/ was_there s rest impl) ->
  keeps_owned (match g with Some s' => try_or s' (a ← m; mret (f a)) | None => a ← m; mret (f a) end) s.
Proof.
  intros E HP Hm HQ r t T o r' t' Hr Ht Ho Em.
  assert (F ⊆ T) as HF.
  { intros fd Hfd. rewrite <- elem_of_elements, <- (ow_table _ _ _ Ho), E. set_solver. }
  assert (exists o1, m r t = Some (o1, r', t') /\
    o = match o1 with Ret a => Ret (f a) | Throw e => match g with Some s' => Ret s' | None => Throw e end
        | Undef => Undef end) as (o1 & E1 & ->).
  { destruct g; unfold try_or, mbind, svc_bind in Em; destruct (m r t) as [[[[a|e|] r1] t1]|] eqn:E1;
      try discriminate Em; injection Em as <- <- <-; by eexists. }
  destruct (Hm r t T o1 r' t' Hr Ht HF (HP _ _ Ho) E1) as (F' & T' & W & M & HQ1).
  destruct (HQ _ _ _ HQ1) as (s' & Es & E' & Hh). exists s', T'.
  split; [by destruct o1; [rewrite Es|rewrite Es|]|]. split; [done|].
  split; [apply (mv_inv _ _ _ _ _ _ M)|]. by eapply owns_step.
Qed.

Lemma others_there (k k' : positive) impl s :
  k <> k' -> objects s !! k' = Some impl ->
  was_there s (object_fds (delete k (objects s)) ++ elements (outside s)) impl.
Proof.
  intros Hne Hk. exists k', impl. split; [done|]. split; [done|].
  intros fd Hfd. apply elem_of_app. left. eapply (elem_of_object_fds _ k'); [|done].
  by rewrite lookup_delete_ne.
Qed.

(** The other objects, when one is set. *)
Lemma others_set (k : positive) impl s (r : R) :
  holds (base impl) r ->
  forall k' impl', objects (set_object k impl s) !! k' = Some impl' ->
    holds (base impl') r \/
    was_there s (object_fds (delete k (objects s)) ++ elements (outside s)) impl'.
Proof.
  intros Hh k' impl'. simpl. intros [[<- <-]|[Hne Hk]]%lookup_insert_Some; [by left|].
  right. by apply (others_there k k').
Qed.

Lemma keeps_with_object k (f : implementation -> svc R implementation) s :
  (forall impl, triple (holds (base impl)) (fds (base impl)) (f impl) (owned base (fun _ => True))) ->
  keeps_owned (with_object k f s) s.
Proof.
  intros Hf. unfold with_object. destruct (objects s !! k) as [impl|] eqn:Hk; [|apply keeps_none].
  apply (keeps_triple (f impl) (fun impl => set_object k impl s) None (holds (base impl)) (fds (base impl))
    _ (owned base (fun _ => True)) _ (owned_at k impl s Hk)); [|apply Hf|].
  - intros r T Ho. by apply (ow_holds _ _ _ Ho k).
  - intros o r F' (impl' & -> & _ & -> & Hh). eexists. split; [done|].
    split; [apply owned_set|by apply others_set].
Qed.

Lemma keeps_construct k (m : svc R implementation) s C :
  triple (fun _ => True) ∅ m (constructed base C) -> keeps_owned (construct_object k m s) s.
Proof.
  intros Hm. unfold construct_object. destruct (objects s !! k) as [impl|] eqn:Hk; [apply keeps_none|].
  apply (keeps_triple m (fun impl => set_object k impl s) (Some s) (fun _ => True) ∅ (owned_fds s)
    (constructed base C)); [by rewrite elements_empty|done|done|].
  assert (forall k' impl' (r : R), objects s !! k' = Some impl' ->
    holds (base impl') r \/ was_there s (owned_fds s) impl') as Hothers.
  { intros k' impl' r Hk'. right. exists k', impl'. split; [done|]. split; [done|]. intros fd Hfd. apply elem_of_app. left.
    by eapply elem_of_object_fds. }
  intros [impl|e|] r F'; simpl; [|intros ->|done].
  - intros (_ & -> & Hh). eexists. split; [done|]. split.
    + unfold owned_fds, object_fds, set_object. simpl.
      rewrite (gather_insert_new (fun impl => elements (fds (base impl))) (objects s) k impl Hk).
      by rewrite app_assoc.
    + intros k' impl'. simpl. intros [[<- <-]|[_ Hk']]%lookup_insert_Some; [by left|by apply (Hothers k')].
  - exists s. split; [done|]. rewrite elements_empty. split; [done|]. intros k' impl' Hk'. by apply (Hothers k').
Qed.

Lemma triple_try_or impl (m : svc R implementation) P F :
  triple P F m (accepted impl (fun x => x)) ->
  triple P F (try_or impl m) (owned base (fun _ => True)).
Proof.
  intros Hm r t T o r' t' Hr Ht HF HP E. unfold try_or in E.
  destruct (m r t) as [[[o1 r1] t1]|] eqn:E1; [|done].
  destruct (Hm r t T o1 r1 t1 Hr Ht HF HP E1) as (F' & T' & W & M & HQ). exists F', T'.
  destruct o1 as [a|e|]; simpl in HQ; injection E as <- <- <-; [| |done].
  - destruct HQ as [-> Hh]. split; [done|]. split; [done|]. by exists a.
  - destruct HQ as [-> Hh]. split; [done|]. split; [done|]. by exists impl.
Qed.

(** What an operation returns besides its object is dropped. *)
Lemma triple_drop {A} P F (m : svc R A) impl C (f : A -> implementation) :
  triple P F m (owned impl C) -> (forall a, base (f a) = impl a) ->
  triple P F (a ← m; mret (f a)) (owned base (fun _ => True)).
Proof.
  intros Hm Hf. eapply triple_bind; [exact Hm|intros a F'|apply passes_owned].
  apply triple_ret. intros r Hx. by eapply owned_impl; [exact Hx| |].
Qed.

Lemma triple_on_base (f : base_implementation -> svc R base_implementation) impl :
  triple (holds (base impl)) (fds (base impl)) (f (base impl)) (owned (fun x => x) (fun _ => True)) ->
  triple (holds (base impl)) (fds (base impl)) (on_base f impl) (owned base (fun _ => True)).
Proof. intros Hf. by apply (triple_drop _ _ _ (fun x => x) (fun _ => True)). Qed.

Lemma accept_object_spec impl p peer_endpoint :
  triple (holds (base p)) (fds (base p))
    (try_or p ('(p, _, _) ← accept impl p peer_endpoint ec_success; mret p)) (owned base (fun _ => True)).
Proof.
  apply triple_try_or. eapply triple_bind; [apply accept_spec|intros [[p1 len] ec] F'|by split].
  by apply triple_ret.
Qed.

Lemma perform_accept_spec impl p peer_endpoint :
  triple (holds (base p)) (fds (base p)) (try_or p (perform_accept impl p peer_endpoint))
    (owned base (fun _ => True)).
Proof.
  apply triple_try_or. unfold perform_accept. destruct (is_open (base p)) eqn:Ho; [by apply triple_ret|].
  apply (triple_known _ (state_ (base p) = 0)); [intros r Hb; by apply (holds_state _ r)|]. intros Hst.
  rewrite fds_closed by done. eapply (triple_pre _ (fun _ => True)); [done|].
  eapply triple_bind; [apply (accept_do_perform_spec _ _ (new_accept_op peer_endpoint))
                      |intros [status o] F'|apply passes_results].
  apply (triple_known _ (F' = opened (new_socket_ o))); [by intros r (? & [= <-] & -> & _)|]. intros ->.
  eapply triple_bind; [eapply triple_pre, (accept_do_complete_spec p); done|intros [p1 ec] F2|by split].
  by apply triple_ret.
Qed.

(** ** The calls on more than an object *)

Lemma keeps_destroy k s : keeps_owned (run_socket_call (sc_destroy k) s) s.
Proof.
  simpl. destruct (objects s !! k) as [impl|] eqn:Hk; [|apply keeps_none].
  apply (keeps_triple (destroy (base impl)) (fun _ => mkSockets (delete k (objects s)) (outside s)) None
    (holds (base impl)) (fds (base impl)) _ (leaves ∅) _ (owned_at k impl s Hk)); [|apply destroy_spec|].
  - intros r T Ho. by apply (ow_holds _ _ _ Ho k).
  - intros o r F' [-> ->]. eexists. split; [done|]. rewrite elements_empty. split; [done|].
    simpl. intros k' impl' [Hne Hk']%lookup_delete_Some. right. by apply (others_there k k').
Qed.

Lemma object_fds_closed k impl m :
  m !! k = Some impl -> is_open (base impl) = false -> object_fds m ≡ₚ object_fds (delete k m).
Proof.
  intros Hk Ho. unfold object_fds. by rewrite (gather_delete _ m k impl Hk), (fds_closed _ Ho), elements_empty.
Qed.

Lemma object_fds_insert k impl m :
  object_fds (<[k := impl]> m) ≡ₚ elements (fds (base impl)) ++ object_fds (delete k m).
Proof. unfold object_fds. by rewrite gather_insert. Qed.

Lemma keeps_known (C : Prop) m s :
  (forall r T, owns s r T -> C) -> (C -> keeps_owned m s) -> keeps_owned m s.
Proof. intros HC Hm r t T o r' t' Hr Ht Ho. by apply Hm; [eapply HC|..]. Qed.

Lemma keeps_assign k p fd s : keeps_owned (run_socket_call (sc_assign k p fd) s) s.
Proof.
  simpl. destruct (objects s !! k) as [impl|] eqn:Hk; [|apply keeps_none].
  destruct (decide _) as [(Hout & Hfd & Ho)|]; [|apply keeps_none].
  assert (elements (outside s) ≡ₚ elements {[fd]} ++ elements (outside s ∖ {[fd]})) as Eo
    by (apply elements_split; set_solver).
  pose proof (object_fds_closed k impl _ Hk Ho) as Ed.
  apply (keeps_known (state_ (base impl) = 0)).
  { intros r T Hown. by apply (holds_state _ r), Ho; apply (ow_holds _ _ _ Hown k). }
  intros Hst.
  apply (keeps_triple (assign impl p fd ec_success) (fun x => mkSockets (<[k := x.1]> (objects s))
       (if ec_is_error x.2 then outside s else outside s ∖ {[fd]})) None
    (fun _ => True) {[fd]} (object_fds (objects s) ++ elements (outside s ∖ {[fd]}))
    (takes fd (fun x => base x.1) snd)); [|done|by apply assign_spec|].
  { unfold owned_fds. rewrite Eo. aac_reflexivity. }
  intros o r F' (x & -> & Ha & -> & Hh). eexists. split; [done|]. split.
  - unfold owned_fds. simpl. rewrite object_fds_insert, Ed. destruct (ec_is_error x.2) eqn:He.
    + rewrite (fds_closed (base x.1)) by (by eapply assigned_failed).
      rewrite elements_empty, Eo. simpl. aac_reflexivity.
    + rewrite (assigned_fds _ _ _ Ha He). aac_reflexivity.
  - simpl. intros k' impl' [[<- <-]|[Hne Hk']]%lookup_insert_Some; [by left|]. right.
    exists k', impl'. split; [done|]. split; [done|]. intros fd' Hfd'. apply elem_of_app. left.
    by eapply elem_of_object_fds.
Qed.

Lemma owns_outside k impl s r T :
  owns s r T -> objects s !! k = Some impl -> outside s ## fds (base impl).
Proof.
  intros [_ Ht] Hk. pose proof (NoDup_elements T) as Hn.
  rewrite <- Ht, (owned_at k impl s Hk) in Hn. apply NoDup_app in Hn as (_ & Hn & _).
  intros fd Ho Hf. apply (Hn fd); set_solver.
Qed.

Lemma keeps_release k s : keeps_owned (run_socket_call (sc_release k) s) s.
Proof.
  simpl. destruct (objects s !! k) as [impl|] eqn:Hk; [|apply keeps_none].
  set (b := if is_open (base impl) then construct else base impl).
  assert (fds b = ∅) as Hb by (unfold b; destruct (is_open (base impl)) eqn:Ho; [done|by apply fds_closed]).
  apply (keeps_known (outside s ## fds (base impl))); [intros r T Ho; by eapply owns_outside|]. intros Hd.
  eapply (keeps_triple (release (base impl) ec_success) (fun x =>
      mkSockets (<[k := mkImplementation x.1.2 (protocol_ impl)]> (objects s))
        (outside s ∪ fds (base impl))) None
    (holds (base impl)) (fds (base impl)) _ _ _ (owned_at k impl s Hk)); [|apply release_spec|].
  - intros r T Ho. by apply (ow_holds _ _ _ Ho k).
  - intros o r F' (-> & ec & -> & Hh). eexists. split; [done|]. fold b in Hh |- *. split.
    + unfold owned_fds. cbn [objects outside fst snd]. rewrite object_fds_insert. cbn [base]. fold b.
      rewrite Hb, elements_empty, elements_disjoint by done. simpl. aac_reflexivity.
    + intros k' impl'. cbn [objects fst snd].
      intros [[<- <-]|[Hne Hk']]%lookup_insert_Some; [by left|right; by apply (others_there k k')].
Qed.

(** A step of the objects alone. *)
Lemma keeps_pure s s' :
  owned_fds s' ≡ₚ owned_fds s ->
  (forall r T, owns s r T -> forall k impl, objects s' !! k = Some impl -> holds (base impl) r) ->
  keeps_owned (mret s') s.
Proof.
  intros E Hh r t T o r' t' Hr Ht Ho [= <- <- <-]. exists s', T. split; [done|].
  split; [apply went_refl|]. split; [done|]. split; [by eapply Hh|]. rewrite E. by apply ow_table in Ho.
Qed.

Lemma move_construct_spec other :
  base (move_construct other).1 = base other /\ base (move_construct other).2 = construct.
Proof. by destruct other as [[? ? ?] ?]. Qed.

(** The objects after a move into a name that has no descriptor. *)
Lemma moved_fds k source impl impl' other other' m :
  k <> source -> m !! source = Some other -> base impl' = base other -> fds (base other') = ∅ ->
  (m !! k = None \/ m !! k = Some impl) ->
  object_fds (<[k := impl']> (<[source := other']> m)) ≡ₚ object_fds (delete k m).
Proof.
  intros Hne Hs Eb Hc Hk. rewrite object_fds_insert, delete_insert_ne by done.
  rewrite object_fds_insert, Hc, elements_empty, Eb.
  assert (delete k m !! source = Some other) as Hs' by (by rewrite lookup_delete_ne).
  unfold object_fds at 2. by rewrite (gather_delete _ (delete k m) source other Hs').
Qed.

Lemma keeps_move_construct k source s : keeps_owned (run_socket_call (sc_move_construct k source) s) s.
Proof.
  cbn [run_socket_call]. destruct (objects s !! k) as [impl|] eqn:Hk; [apply keeps_none|].
  destruct (objects s !! source) as [other|] eqn:Hs; [|apply keeps_none].
  destruct (move_construct_spec other) as [E1 E2]. destruct (move_construct other) as [impl' other'].
  cbn [fst snd] in *. assert (k <> source) as Hne by congruence.
  apply keeps_pure.
  - unfold owned_fds, set_object. cbn [objects outside].
    rewrite (moved_fds k source impl' impl' other other');
      [by rewrite delete_id|done|done|done|by rewrite E2|by left].
  - intros r T Ho k' impl''. simpl.
    intros [[<- <-]|[_ [[<- <-]|[_ Hk']]%lookup_insert_Some]]%lookup_insert_Some.
    + rewrite E1. by apply (ow_holds _ _ _ Ho source).
    + rewrite E2. by apply holds_closed.
    + by apply (ow_holds _ _ _ Ho k').
Qed.

Lemma move_assign_spec impl other :
  triple (holds (base impl)) (fds (base impl)) (move_assign impl other)
    (fun o r F' => F' = ∅ /\ exists x, o = Ret x /\ base x.1 = base other /\ base x.2 = construct).
Proof.
  assert (triple (holds (base impl)) (fds (base impl)) (base_move_assign (base impl) (base other))
    (fun o r F' => F' = ∅ /\ o = Ret (base other, construct))) as Hb.
  { eapply triple_bind; [apply destroy_spec|intros [] F'|apply passes_leaves].
    apply triple_ret. intros r [_ ->]. by destruct (base other). }
  eapply triple_bind; [exact Hb|intros [b b'] F'|by split; [intros e r F [_ ?]|intros r F [_ ?]]].
  apply triple_ret. intros r [-> [= <- <-]]. split; [done|]. by eexists.
Qed.

Lemma keeps_move_assign k source s : keeps_owned (run_socket_call (sc_move_assign k source) s) s.
Proof.
  simpl. destruct (objects s !! k) as [impl|] eqn:Hk; [|apply keeps_none].
  destruct (objects s !! source) as [other|] eqn:Hs; [|apply keeps_none].
  destruct (decide (k = source)) as [|Hne]; [apply keeps_none|].
  eapply (keeps_triple (move_assign impl other)
    (fun x => set_object k x.1 (set_object source x.2 s)) None
    (holds (base impl)) (fds (base impl)) _ _ _ (owned_at k impl s Hk)); [|apply move_assign_spec|].
  - intros r T Ho. by apply (ow_holds _ _ _ Ho k).
  - intros o r F' (-> & x & -> & E1 & E2). eexists. split; [done|]. split.
    + unfold owned_fds, set_object. cbn [objects outside].
      rewrite (moved_fds k source impl x.1 other x.2); [|done|done|done|by rewrite E2|by right].
      by rewrite elements_empty.
    + intros k' impl'. simpl.
      intros [[<- <-]|[Hne' [[<- <-]|[_ Hk']]%lookup_insert_Some]]%lookup_insert_Some.
      * right. exists source, other. rewrite E1. split; [done|]. split; [done|].
        by destruct (others_there k source other s Hne Hs) as (_ & ? & _ & _ & Hr).
      * left. rewrite E2. by apply holds_closed.
      * right. by apply (others_there k k').
Qed.

(** ** Every call *)

Lemma keeps_call x s : keeps_owned (run_socket_call x s) s.
Proof.
  destruct x.
  - apply (keeps_construct _ _ _ (fun _ => True)). apply triple_ret. intros r _.
    split; [done|]. split; [done|]. by apply holds_closed.
  - apply keeps_destroy.
  - apply keeps_with_object. intros impl. eapply triple_bind; [apply open_spec|intros [? ?] F'|apply passes_owned].
    apply triple_ret. intros r Hx. by eapply owned_impl; [exact Hx| |].
  - apply keeps_assign.
  - apply keeps_with_object. intros impl.
    eapply triple_bind; [apply socket_close_spec|intros [? ?] F'|apply passes_owned].
    apply triple_ret. intros r Hx. by eapply owned_impl; [exact Hx| |].
  - apply keeps_release.
  - apply keeps_with_object. intros impl. by eapply triple_drop; [apply cancel_spec|].
  - apply keeps_move_construct.
  - apply keeps_move_assign.
  - apply keeps_with_object. intros impl. by eapply triple_drop; [apply bind_spec|].
  - apply keeps_with_object. intros impl. by eapply triple_drop; [apply listen_spec|].
  - apply keeps_with_object. intros impl.
    eapply triple_bind; [apply set_option_spec|intros [? ?] F'|apply passes_owned].
    apply triple_ret. intros r Hx. by eapply owned_impl; [exact Hx| |].
  - apply keeps_with_object. intros impl.
    eapply triple_bind; [apply socket_connect_spec|intros [? ?] F'|apply passes_owned].
    apply triple_ret. intros r Hx. by eapply owned_impl; [exact Hx| |].
  - apply keeps_with_object. intros impl.
    eapply triple_bind; [apply connect_range_spec|intros [[? ?] ?] F'|apply passes_owned].
    apply triple_ret. intros r Hx. by eapply owned_impl; [exact Hx| |].
  - simpl. destruct (objects s !! k) as [impl|]; [|apply keeps_none].
    apply keeps_with_object. intros p. apply accept_object_spec.
  - simpl. destruct (objects s !! k) as [impl|]; [|apply keeps_none].
    apply keeps_with_object. intros p. apply perform_accept_spec.
  - apply keeps_with_object. intros impl. apply triple_on_base, do_start_op_spec.
  - apply keeps_with_object. intros impl. apply triple_on_base, do_start_accept_op_spec.
  - apply keeps_with_object. intros impl. apply triple_on_base, do_start_connect_op_spec.
  - eapply keeps_construct, new_acceptor_spec.
  - eapply keeps_construct, client_socket_spec.
Qed.

(** C19. Whatever a program does with its sockets, in whatever order, and whatever the
    system answers within its documentation: no call has undefined behaviour, the
    descriptors open at any point are those of the open objects, each of one object
    only, and those the program has itself, so that none is leaked, whether the call
    that made it failed, threw or was moved from; every descriptor that is closed is
    open at that moment, so that none is closed twice ([went]); and the reactor knows
    every open socket under the object's pointer. *)
Theorem sockets_never_leak (script : list socket_call) s (r : R) t (T : gset Z) o r' t'
    (Hr : reactor_inv r) (Ht : table_ok T t) (Ho : owns s r T)
    (E : run_socket_calls script s r t = Some (o, r', t')) :
  exists s' T', o = Ret s' /\ went T t T' t' /\ reactor_inv r' /\ owns s' r' T'.
Proof.
  revert s r t T o r' t' Hr Ht Ho E. induction script as [|x script IH]; intros s r t T o r' t' Hr Ht Ho E.
  { injection E as <- <- <-. exists s, T. auto with horcrux. }
  simpl in E. unfold mbind, svc_bind in E.
  destruct (run_socket_call x s r t) as [[[o1 r1] t1]|] eqn:E1; [|done].
  destruct (keeps_call x s _ _ _ _ _ _ Hr Ht Ho E1) as (s1 & T1 & -> & W1 & Hr1 & Ho1).
  destruct (IH _ _ _ _ _ _ _ Hr1 (table_ok_went _ _ _ _ Ht W1) Ho1 E) as (s' & T' & -> & W2 & Hr' & Ho').
  exists s', T'. split; [done|]. split; [by eapply went_trans|done].
Qed.

(** A program that destroyed its objects left open only what it released. *)
Corollary destroyed_sockets_closed s (r : R) T :
  owns s r T -> objects s = ∅ -> T = outside s.
Proof.
  intros [_ Ht] E. unfold owned_fds, object_fds in Ht. rewrite E, gather_empty in Ht. simpl in Ht.
  apply set_eq. intros fd. by rewrite <- !elem_of_elements, Ht.
Qed.

End Ownership.
