(* ===== verification/Connecting.v ===== *)
(** How the client connects and how the server comes to listen: the calls that
    [asio::connect] and the acceptor's constructor make, and what their results mean.

    The theorems hold for any reactor with the laws of [SocketReactorLaws]. *)

From S2P Require Import Prelude.
From S2P Require Import ObjectRepr.
From S2P Require Import AsioError.
From S2P Require Import SocketOps.
From S2P Require Import SocketSpec.
From S2P Require Import SocketService.
From S2P Require Import SocketServiceSpec.

(** * Calls of connect *)

Definition connect_of (e : sys_call * answer) : option ip.endpoint :=
  match e.1 with
  | SysConnect _ addr => Some addr
  | _ => None
  end.

(** The addresses that the calls of a trace connect to. *)
Definition connects (t : sys_trace) : list ip.endpoint := omap connect_of t.

Definition family_of (e : sys_call * answer) : option Z :=
  match e.1 with
  | SysSocket af _ _ => Some af
  | _ => None
  end.

(** The families of the sockets that the calls of a trace make. *)
Definition attempts (t : sys_trace) : list Z := omap family_of t.

(** The family of the socket for an endpoint. *)
Definition endpoint_family (e : ip.endpoint) : Z := ip.family (ip.endpoint_protocol e).

Definition makes_no_socket (c : sys_call) : bool :=
  match c with
  | SysSocket _ _ _ => false
  | _ => true
  end.

Definition unconnecting (c : sys_call) : bool :=
  match c with
  | SysConnect _ _ => false
  | _ => makes_no_socket c
  end.

Lemma connects_app t1 t2 : connects (t1 ++ t2) = connects t1 ++ connects t2.
Proof. apply omap_app. Qed.

Lemma attempts_app t1 t2 : attempts (t1 ++ t2) = attempts t1 ++ attempts t2.
Proof. apply omap_app. Qed.

Lemma attempts_none t : Forall (fun e => makes_no_socket e.1 = true) t -> attempts t = [].
Proof. induction 1 as [|[c a] t Hc _ IH]; [done|]. by destruct c. Qed.

Lemma connects_none t :
  Forall (fun e => unconnecting e.1 = true) t -> connects t = [] /\ attempts t = [].
Proof.
  intros Ht. split.
  - induction Ht as [|[c a] t Hc _ IH]; [done|]. by destruct c.
  - apply attempts_none. eapply Forall_impl; [exact Ht|]. intros [[] a] He; simpl in *; done.
Qed.

(** A call that fails says why. *)
Definition sets_errno (e : sys_call * answer) : Prop :=
  match e.1 with
  | SysSocket _ _ _ => an_result e.2 < 0 -> 0 < an_errno e.2
  | SysBind _ _ | SysListen _ _ | SysConnect _ _ | SysSetsockopt _ _ _ _ =>
      an_result e.2 <> 0 -> 0 < an_errno e.2
  | SysGetsockopt _ _ _ _ => an_result e.2 = 0 \/ (an_result e.2 = -1 /\ 0 < an_errno e.2)
  | SysPoll _ _ _ => an_result e.2 < 0 -> 0 < an_errno e.2
  | _ => True
  end.

#[global] Instance sets_errno_dec e : Decision (sets_errno e).
Proof. unfold sets_errno. destruct (e.1); apply _. Defined.

(** The error that a socket has pending, of the answer to [getsockopt]. *)
Definition pending_error (a : answer) : Z := s32 (le_field 4 (std_copy (an_data a) (le_encode 4 0))).

(** The calls after [connect] when it succeeded, at once or after a while. *)
Definition completes (s : Z) (a : answer) (after : sys_trace) : Prop :=
  (an_result a = 0 /\ after = []) \/
  (an_result a <> 0 /\ exists b c,
     after = [(SysPoll s POLLOUT (-1), b); (SysGetsockopt s SOL_SOCKET SO_ERROR sizeof_int, c)] /\
     0 <= an_result b /\ an_result c = 0 /\ pending_error c = 0).

(** The trace ends with the connection of [s] to [e]. *)
Definition established (s : Z) (e : ip.endpoint) (pre : sys_trace) : Prop :=
  exists before a after, pre = before ++ (SysConnect s e, a) :: after /\ completes s a after.

Lemma established_later s e pre0 pre : established s e pre -> established s e (pre0 ++ pre).
Proof.
  intros (before & a & after & -> & Hc). exists (pre0 ++ before), a, after. by rewrite app_assoc.
Qed.

(** The error of a failed call. *)
Lemma last_error_failed ec errno : 0 < errno -> ec_is_error (get_last_error ec true errno) = true.
Proof. intros He. unfold ec_is_error. simpl. apply negb_true_iff, Z.eqb_neq. lia. Qed.

(** [connect] of [socket_ops]: its one call, and when it is without an error. *)
Lemma connect_calls s e ec t n ec' t' :
  SocketOps.connect s e ec t = Some ((n, ec'), t') ->
  (s = invalid_socket /\ t' = t /\ ec' = bad_descriptor) \/
  (exists a, t = (SysConnect s e, a) :: t' /\
   (an_result a = 0 /\ ec_is_error ec' = false \/
    an_result a <> 0 /\ (0 < an_errno a -> ec_is_error ec' = true))).
Proof.
  unfold SocketOps.connect. destruct (Z.eqb_spec s invalid_socket) as [->|Hs].
  { intros [= _ <- <-]. by left. }
  intros E. right. sys_inv. exists a. split; [done|].
  destruct (Z.eqb_spec (an_result a) 0) as [Hz|Hz]; simpl; [by left|right].
  split; [done|]. intros He. case_bool_decide as Ht.
  - by destruct (sa_family e =? AF_UNIX).
  - by apply (last_error_failed ec_success).
Qed.

(** The pending error, of [getsockopt]. *)
Lemma get_connect_error_calls s ec t n v ec' t' :
  s <> invalid_socket -> get_connect_error s ec t = Some ((n, v, ec'), t') ->
  exists c, t = (SysGetsockopt s SOL_SOCKET SO_ERROR sizeof_int, c) :: t' /\
  n = an_result c /\ v = pending_error c /\ (n = -1 -> 0 < an_errno c -> ec_is_error ec' = true).
Proof.
  intros Hs. unfold get_connect_error, getsockopt. rewrite (proj2 (Z.eqb_neq _ _) Hs).
  change ((SOL_SOCKET =? custom_socket_option_level) && _) with false.
  change ((SOL_SOCKET =? custom_socket_option_level) && _) with false. cbv iota.
  intros E. sys_run E. exists a. rewrite andb_false_r. split_and!; try done.
  intros Hn He. rewrite Hn. by apply (last_error_failed ec_success).
Qed.

Lemma poll_connect_calls s msec ec t n ec' t' :
  s <> invalid_socket -> poll_connect s msec ec t = Some ((n, ec'), t') ->
  exists b, t = (SysPoll s POLLOUT msec, b) :: t' /\ n = an_result b /\
  (n < 0 -> 0 < an_errno b -> ec_is_error ec' = true).
Proof.
  intros Hs. unfold poll_connect. rewrite (proj2 (Z.eqb_neq _ _) Hs). intros E. sys_run E.
  exists a. split; [done|]. split; [done|]. intros Hn He.
  destruct (Z.ltb_spec (an_result a) 0); [|lia]. by apply last_error_failed.
Qed.

(** What [sync_connect] waits for when the connection is in progress. *)
Lemma wait_connected s ec t x t' :
  s <> invalid_socket -> Forall sets_errno t ->
  ('(result, ec) ← poll_connect s (-1) ec;
   if result <? 0 then mret ec
   else
     '(result, connect_error, ec) ← get_connect_error s ec;
     if result =? socket_error_retval then mret ec
     else mret (mk_error_code connect_error system_category) : sys error_code) t = Some (x, t') ->
  exists after, t = after ++ t' /\ connects after = [] /\
  forall a, an_result a <> 0 -> ec_is_error x = false -> completes s a after.
Proof.
  intros Hs Ht E. unfold mbind at 1, sys_bind at 1 in E.
  destruct (poll_connect s (-1) ec t) as [[[n ec1] t1]|] eqn:Ep; [|done].
  destruct (poll_connect_calls _ _ _ _ _ _ _ Hs Ep) as (b & -> & -> & Hb).
  apply Forall_cons in Ht as [Hob Ht].
  destruct (Z.ltb_spec (an_result b) 0) as [Hn|Hn].
  { injection E as <- <-. eexists [_]. split; [done|]. split; [done|]. intros a _ He.
    by rewrite Hb in He; [|lia|apply Hob]. }
  unfold mbind, sys_bind in E.
  destruct (get_connect_error s ec1 t1) as [[[[m v] ec2] t2]|] eqn:Eg; [|done].
  destruct (get_connect_error_calls _ _ _ _ _ _ _ Hs Eg) as (c & -> & -> & -> & Hc).
  apply Forall_cons in Ht as [Hoc _]. unfold sets_errno in Hoc. simpl in Hoc.
  exists [(SysPoll s POLLOUT (-1), b); (SysGetsockopt s SOL_SOCKET SO_ERROR sizeof_int, c)].
  destruct (Z.eqb_spec (an_result c) socket_error_retval) as [Hm|Hm]; injection E as <- <-;
    (split; [done|]; split; [done|]); intros a Ha He.
  - destruct Hoc as [Hoc|[Hoc Hpos]]; [rewrite Hoc in Hm; discriminate Hm|]. by rewrite Hc in He.
  - right. split; [done|]. exists b, c. destruct Hoc as [Hoc|[Hoc _]]; [|done].
    split_and!; [done|lia|done|]. unfold ec_is_error in He. simpl in He.
    by apply negb_false_iff, Z.eqb_eq in He.
Qed.

Lemma sync_connect_only s e ec : calls_only makes_no_socket (sync_connect s e ec).
Proof.
  unfold sync_connect, SocketOps.connect, poll_connect, get_connect_error, getsockopt. only_calls.
Qed.

(** A connection: one call, and if there is no error, the connection is made. *)
Lemma sync_connect_calls s e ec t ec' t' :
  Forall sets_errno t -> sync_connect s e ec t = Some (ec', t') ->
  exists pre, t = pre ++ t' /\ (connects pre = [] \/ connects pre = [e]) /\
  (ec_is_error ec' = false -> connects pre = [e] /\ established s e pre).
Proof.
  intros Ht E. unfold sync_connect in E. unfold mbind at 1, sys_bind at 1 in E.
  destruct (SocketOps.connect s e ec t) as [[[n ec1] t1]|] eqn:Ec; [|done].
  destruct (connect_calls _ _ _ _ _ _ _ Ec) as [(-> & -> & ->)|(a & -> & Ha)].
  { injection E as <- <-. exists []. split; [done|]. by split; [left|]. }
  apply Forall_cons in Ht as [Hoa Ht]. unfold sets_errno in Hoa. simpl in Hoa.
  assert (s <> invalid_socket) as Hs.
  { intros ->. unfold SocketOps.connect in Ec. injection Ec as _ _ Ec.
    apply (f_equal length) in Ec. simpl in Ec. lia. }
  destruct (negb (bool_decide (ec1 = in_progress)) && negb (bool_decide (ec1 = would_block))) eqn:Ew.
  - injection E as <- <-. exists [(SysConnect s e, a)]. split; [done|]. split; [by right|].
    intros He. split; [done|]. exists [], a, []. split; [done|]. left.
    destruct Ha as [[Ha _]|[Ha Hf]]; [done|]. rewrite (Hf (Hoa Ha)) in He. done.
  - destruct (wait_connected s ec1 t1 ec' t' Hs Ht E) as (after & -> & Hno & Hc).
    exists ((SysConnect s e, a) :: after). split; [done|].
    assert (connects ((SysConnect s e, a) :: after) = [e]) as E1
      by (change (e :: connects after = [e]); by rewrite Hno).
    split; [by right|]. intros He. split; [done|]. exists [], a, after. split; [done|].
    destruct Ha as [[Ha Hok]|[Ha _]]; [|by apply Hc].
    exfalso. apply andb_false_iff in Ew as [Ew|Ew]; apply negb_false_iff, bool_decide_eq_true in Ew; by subst.
Qed.

(** * Operations of the service *)

Section Service.
Context {R : Type} `{SocketReactor R}.

(** An operation that makes only calls of a kind. *)
Definition svc_only (P : sys_call -> bool) {A} (m : svc R A) : Prop :=
  forall r t o r' t', m r t = Some (o, r', t') ->
    exists pre, t = pre ++ t' /\ Forall (fun e => P e.1 = true) pre.

Lemma svc_only_ret P {A} (a : A) : svc_only P (mret a).
Proof. intros r t o r' t' [= <- <- <-]. by exists []. Qed.

Lemma svc_only_bind P {A B} (m : svc R A) (f : A -> svc R B) :
  svc_only P m -> (forall a, svc_only P (f a)) -> svc_only P (m ≫= f).
Proof.
  intros Hm Hf r t o r' t' E. unfold mbind, svc_bind in E.
  destruct (m r t) as [[[o1 r1] t1]|] eqn:Em; [|done].
  destruct (Hm _ _ _ _ _ Em) as (p1 & -> & H1).
  destruct o1 as [a|e|]; [|injection E as _ _ <-; by exists p1..].
  destruct (Hf a _ _ _ _ _ E) as (p2 & -> & H2).
  exists (p1 ++ p2). rewrite app_assoc. split; [done|]. by apply Forall_app.
Qed.

Lemma svc_only_os P {A} (m : sys A) : calls_only P m -> svc_only P (call_os m).
Proof.
  intros Hm r t o r' t' E. unfold call_os in E. destruct (m t) as [[a t1]|] eqn:Em; [|done].
  injection E as _ _ <-. by eapply Hm.
Qed.

Lemma svc_only_reactor P {A} (f : R -> outcome (A * R)) : svc_only P (call_reactor f).
Proof.
  intros r t o r' t' E. unfold call_reactor in E. destruct (f r) as [[a r1]|e|]; injection E as _ _ <-;
    by exists [].
Qed.

Lemma svc_only_reactor_ P (f : R -> outcome R) : svc_only P (call_reactor_ f).
Proof. apply svc_only_reactor. Qed.

Lemma close_call_only s state destruction ec :
  calls_only unconnecting (SocketOps.close s state destruction ec).
Proof. unfold SocketOps.close, setsockopt. only_calls. Qed.

Lemma holder_only s : calls_only unconnecting (destroy_holder s).
Proof. unfold destroy_holder. only_calls. apply close_call_only. Qed.

Ltac svc_only :=
  repeat match goal with
  | |- svc_only _ (mbind _ _) => apply svc_only_bind; [|intros]
  | |- svc_only _ (mret _) => apply svc_only_ret
  | |- svc_only _ (call_os _) => apply svc_only_os
  | |- svc_only _ (call_reactor _) => apply svc_only_reactor
  | |- svc_only _ (call_reactor_ _) => apply svc_only_reactor_
  | |- svc_only _ (let '(_, _) := ?x in _) => destruct x
  | |- svc_only _ (if ?b then _ else _) => destruct b
  | |- svc_only _ _ => progress cbv beta iota zeta
  end.

Lemma destroy_only b : svc_only unconnecting (destroy b).
Proof. unfold destroy. svc_only. apply close_call_only. Qed.

Lemma socket_close_only impl ec : svc_only unconnecting (socket_close impl ec).
Proof. unfold socket_close, close. svc_only. apply close_call_only. Qed.

(** A step of an operation that went on. *)
Lemma svc_bind_Ret {A B} (m : svc R A) (f : A -> svc R B) r t b r' t' :
  (m ≫= f) r t = Some (Ret b, r', t') ->
  exists a r1 t1, m r t = Some (Ret a, r1, t1) /\ f a r1 t1 = Some (Ret b, r', t').
Proof.
  unfold mbind, svc_bind. destruct (m r t) as [[[[a|e|] r1] t1]|]; [|done..]. eauto 6.
Qed.

Lemma call_os_Ret {A} (m : sys A) (r : R) t a r' t' :
  call_os m r t = Some (Ret a, r', t') -> m t = Some (a, t') /\ r' = r.
Proof. unfold call_os. destruct (m t) as [[x t1]|]; [|done]. by intros [= -> <- ->]. Qed.

(** Closing leaves a new object. *)
Lemma socket_close_closed impl ec r t impl' ec' r' t' :
  socket_close impl ec r t = Some (Ret (impl', ec'), r', t') -> base impl' = construct.
Proof.
  intros ([b ec1] & r1 & t1 & E1 & E2)%svc_bind_Ret. injection E2 as <- _ _ _.
  apply svc_bind_Ret in E1 as (ec2 & r2 & t2 & _ & E1). by injection E1 as <- _ _ _.
Qed.

(** Opening an object that is not open makes one socket. *)
Lemma open_attempts impl p ec r t x r' t' :
  is_open (base impl) = false -> open impl p ec r t = Some (Ret x, r', t') ->
  exists pre, t = pre ++ t' /\ connects pre = [] /\ attempts pre = [ip.family p].
Proof.
  intros Hc. unfold open, do_open. rewrite Hc.
  intros ([b ec1] & r1 & t1 & E1 & E2)%svc_bind_Ret. injection E2 as _ _ <-.
  apply svc_bind_Ret in E1 as ([s ec2] & r2 & t2 & [E1 ->]%call_os_Ret & E2).
  unfold socket in E1. sys_inv.
  assert (forall A (m : svc R A) o, svc_only unconnecting m -> m r t2 = Some (o, r1, t1) ->
    exists pre, (SysSocket (ip.family p) (ip.type p) (ip.protocol_ p), a) :: t2 = pre ++ t1 /\
    connects pre = [] /\ attempts pre = [ip.family p]) as Hm.
  { intros A m o Hm E. destruct (Hm _ _ _ _ _ E) as (pre & -> & [H1 H2]%connects_none).
    exists ((SysSocket (ip.family p) (ip.type p) (ip.protocol_ p), a) :: pre). split; [done|].
    split; [exact H1|]. change (ip.family p :: attempts pre = [ip.family p]). by rewrite H2. }
  eapply Hm; [|exact E2]. svc_only. apply holder_only.
Qed.

(** An attempt on one endpoint, by an object that is not open. *)
Lemma socket_connect_calls impl e ec r t impl' ec' r' t' :
  is_open (base impl) = false -> Forall sets_errno t ->
  socket_connect impl e ec r t = Some (Ret (impl', ec'), r', t') ->
  exists pre, t = pre ++ t' /\ attempts pre = [endpoint_family e] /\
  (connects pre = [] \/ connects pre = [e]) /\
  (ec_is_error ec' = false -> connects pre = [e] /\ established (socket_of impl') e pre).
Proof.
  intros Hop Ht. unfold socket_connect. rewrite Hop. cbn [negb].
  intros ([impl1 ec1] & r1 & t1 & E1 & E2)%svc_bind_Ret.
  destruct (open_attempts _ _ _ _ _ _ _ _ Hop E1) as (pre1 & -> & H1 & Ha).
  destruct (ec_is_error ec1) eqn:He.
  { injection E2 as <- <- _ <-. exists pre1. split; [done|]. split; [done|]. split; [by left|]. by rewrite He. }
  apply Forall_app in Ht as [_ Ht]. apply svc_bind_Ret in E2 as (ec2 & r2 & t2 & E2 & E3).
  injection E3 as <- <- _ <-. apply call_os_Ret in E2 as [E2 ->].
  destruct (sync_connect_calls _ _ _ _ _ _ Ht E2) as (pre2 & -> & H2 & H3).
  destruct (sync_connect_only _ _ _ _ _ _ E2) as (pre3 & Ep%app_inv_tail & H4%attempts_none). subst pre3.
  exists (pre1 ++ pre2). rewrite app_assoc, connects_app, attempts_app, H1, Ha, H4.
  split; [done|]. split; [done|]. split; [done|].
  intros He'. destruct (H3 He') as [? ?]. split; [done|]. by apply established_later.
Qed.

(** ** The range *)

Lemma default_condition ec iter : call_connect_condition default_connect_condition ec iter = iter.
Proof. by destruct iter. Qed.

(** What is known of a loop over [iter] that started with the error [ec]. *)
Definition tried (iter : list ip.endpoint) (ec : error_code) (iter' : list ip.endpoint) (impl' : implementation)
    (ec' : error_code) (pre : sys_trace) : Prop :=
  if ec_is_error ec' then
    iter' = [] /\ attempts pre = endpoint_family <$> iter /\ connects pre `sublist_of` iter /\
    (iter = [] -> ec' = if ec_is_error ec then ec else not_found)
  else
    exists before e after, iter = before ++ e :: after /\ iter' = e :: after /\
    attempts pre = endpoint_family <$> before ++ [e] /\
    (exists cs, cs `sublist_of` before /\ connects pre = cs ++ [e]) /\
    established (socket_of impl') e pre.

Lemma connect_loop_calls fuel impl iter ec r t iter' impl' ec' r' t' :
  (length iter < fuel)%nat -> Forall sets_errno t ->
  connect_loop fuel default_connect_condition impl iter ec r t =
    Some (Ret (iter', impl', ec'), r', t') ->
  exists pre, t = pre ++ t' /\ tried iter ec iter' impl' ec' pre.
Proof.
  revert impl iter ec r t. induction fuel as [|fuel IH]; intros impl iter ec r t Hf Ht E; [lia|].
  simpl in E. rewrite default_condition in E. destruct iter as [|e rest].
  { injection E as <- <- <- _ <-. exists []. split; [done|]. unfold tried.
    destruct (ec_is_error ec) eqn:He; [rewrite He|]; (split; [done|]; split; [done|]; split; [constructor|done]). }
  apply svc_bind_Ret in E as ([impl1 ec1] & r1 & t1 & E1 & E).
  destruct (socket_close_only _ _ _ _ _ _ _ E1) as (pre1 & -> & [H1 G1]%connects_none).
  assert (is_open (base impl1) = false) as Hop by (by rewrite (socket_close_closed _ _ _ _ _ _ _ _ E1)).
  apply Forall_app in Ht as [_ Ht].
  apply svc_bind_Ret in E as ([impl2 ec2] & r2 & t2 & E2 & E).
  destruct (socket_connect_calls _ _ _ _ _ _ _ _ _ Hop Ht E2) as (pre2 & -> & G2 & H2 & H3).
  apply Forall_app in Ht as [_ Ht]. destruct (ec_is_error ec2) eqn:He; simpl in E.
  - destruct (IH impl2 rest ec2 r2 t2) as (pre3 & -> & H4); [simpl in Hf; lia|done|done|].
    exists (pre1 ++ pre2 ++ pre3). rewrite !app_assoc. split; [done|]. unfold tried in *.
    rewrite !connects_app, !attempts_app, H1, G1, G2. simpl.
    assert (forall cs l : list ip.endpoint, cs `sublist_of` l -> connects pre2 ++ cs `sublist_of` e :: l) as Hs.
    { intros cs l Hcs. destruct H2 as [-> | ->]; [by apply sublist_cons|by apply sublist_skip]. }
    destruct (ec_is_error ec').
    + destruct H4 as (-> & -> & H4 & _). split; [done|]. split; [done|]. split; [by apply Hs|done].
    + destruct H4 as (before & e' & after & -> & -> & -> & (cs & Hcs & E4) & Hest).
      exists (e :: before), e', after. split; [done|]. split; [done|]. split; [done|]. split.
      * exists (connects pre2 ++ cs). rewrite E4, app_assoc. split; [by apply Hs|done].
      * by apply established_later.
  - injection E as <- <- <- _ <-. exists (pre1 ++ pre2). rewrite app_assoc. split; [done|].
    unfold tried. rewrite He. destruct (H3 eq_refl) as [E3 Hest]. exists [], e, rest.
    split; [done|]. split; [done|]. rewrite connects_app, attempts_app, H1, G1, G2, E3.
    split; [done|]. split; [by exists []|].
    by apply established_later.
Qed.

End Service.

(** * The two programs *)

Section Programs.
Context {R : Type} `{SocketReactorLaws R}.

(** An exception of [throw_error] has the error's code; the calls before it only
    clean up. *)
Lemma throw_error_calls b ec r t T o r' t' :
  reactor_inv r -> table_ok T t -> fds b ⊆ T -> holds b r ->
  throw_error ec (destroy b) r t = Some (o, r', t') ->
  exists pre, t = pre ++ t' /\ connects pre = [] /\ attempts pre = [] /\
  match o with
  | Ret _ => ec_is_error ec = false /\ r' = r /\ t' = t
  | Throw x => ec_is_error ec = true /\ x = asio_system_error (ec_value ec)
  | Undef => False
  end.
Proof.
  intros Hr Ht HF HP. unfold throw_error. destruct (ec_is_error ec).
  - unfold mbind, svc_bind. destruct (destroy b r t) as [[[o1 r1] t1]|] eqn:Ed; [|done].
    destruct (destroy_spec b _ _ _ _ _ _ Hr Ht HF HP Ed) as (F' & T' & _ & _ & -> & _).
    intros [= <- <- <-]. destruct (destroy_only _ _ _ _ _ _ Ed) as (pre & -> & [? ?]%connects_none).
    by exists pre.
  - intros [= <- <- <-]. by exists [].
Qed.

Lemma error_code_nonzero ec : ec_is_error ec = true -> ec_value ec <> 0.
Proof. unfold ec_is_error. by intros ?%negb_true_iff%Z.eqb_neq. Qed.

(** The client's connection, on any list of endpoints: either its socket is open and
    connected to the first endpoint that took the connection, after one attempt on each
    of those before it, in order, and none after; or it throws an error ([not_found]
    when the list is empty), after one attempt on each endpoint.  An attempt makes a
    socket of the endpoint's family and, unless that fails, connects it.  It is never
    undefined. *)
Theorem client_connects endpoints (r : R) t T o r' t'
    (Hr : reactor_inv r) (Ht : table_ok T t) (He : Forall sets_errno t)
    (E : client_socket endpoints r t = Some (o, r', t')) :
  exists pre, t = pre ++ t' /\
  match o with
  | Ret impl =>
      is_open (base impl) = true /\
      exists before e after, endpoints = before ++ e :: after /\
      attempts pre = endpoint_family <$> before ++ [e] /\
      (exists cs, cs `sublist_of` before /\ connects pre = cs ++ [e]) /\
      established (socket_of impl) e pre
  | Throw x =>
      exists code, x = asio_system_error code /\ code <> 0 /\
      attempts pre = endpoint_family <$> endpoints /\ connects pre `sublist_of` endpoints /\
      (endpoints = [] -> code = ec_value not_found)
  | Undef => False
  end.
Proof.
  assert (holds (base new_implementation) r) as Hnew by (by apply holds_closed).
  unfold client_socket, connect_endpoints in E. unfold mbind, svc_bind in E.
  destruct (connect_range new_implementation endpoints default_connect_condition r t)
    as [[[o1 r1] t1]|] eqn:E1; [|done].
  destruct (connect_range_spec new_implementation endpoints default_connect_condition
    _ _ _ _ _ _ Hr Ht (empty_subseteq _) Hnew E1) as (F1 & T1 & W1 & M1 & [[iter impl] ec] & -> & Hop & -> & Hb).
  apply connect_loop_calls in E1 as (pre & -> & Hp); [|lia|done]. cbn [fst snd] in *.
  pose proof (table_ok_went _ _ _ _ Ht W1) as Ht1.
  assert (fds (base impl) ⊆ T1) as HF by (rewrite (mv_table _ _ _ _ _ _ M1); set_solver +).
  assert (exists e, deref_connect_result iter ec = Ret e) as [e Ee].
  { unfold deref_connect_result. destruct (ec_is_error ec); [eauto|].
    destruct iter; [by destruct (Hop eq_refl)|eauto]. }
  unfold call_reactor in E at 1. rewrite Ee in E. simpl in E.
  destruct (throw_error ec _ r1 t1) as [[[o2 r2] t2]|] eqn:E2; [|done].
  destruct (throw_error_calls _ _ _ _ _ _ _ _ (mv_inv _ _ _ _ _ _ M1) Ht1 HF Hb E2)
    as (pre2 & -> & Hno & Hna & Ho2).
  exists (pre ++ pre2). rewrite app_assoc.
  assert (connects (pre ++ pre2) = connects pre) as Hc by (by rewrite connects_app, Hno, app_nil_r).
  assert (attempts (pre ++ pre2) = attempts pre) as Ha by (by rewrite attempts_app, Hna, app_nil_r).
  rewrite Hc, Ha. unfold tried in Hp. destruct o2 as [[]|x|]; [| |done].
  - destruct Ho2 as (Hok & -> & Et). injection E as <- _ <-. rewrite Hok in Hp.
    split; [done|]. split; [by apply Hop|]. destruct Hp as (before & e1 & after & -> & _ & Hat & Hcs & Hest).
    exists before, e1, after. split; [done|]. split; [done|]. split; [done|].
    assert (pre2 = []) as -> by (apply (f_equal length) in Et; rewrite length_app in Et; by destruct pre2; simpl in Et; [|lia]).
    by rewrite app_nil_r.
  - destruct Ho2 as [Hec ->]. injection E as <- _ <-. rewrite Hec in Hp. split; [done|].
    destruct Hp as (_ & Hat & Hs & Hn). exists (ec_value ec). split; [done|].
    split; [by apply error_code_nonzero|]. split; [done|]. split; [done|]. intros Hnil. by rewrite (Hn Hnil).
Qed.

(** ** The server *)

Lemma throw_error_Ret ec (cleanup : svc R ()) r t u r' t' :
  throw_error ec cleanup r t = Some (Ret u, r', t') -> ec_is_error ec = false /\ r' = r /\ t' = t.
Proof.
  unfold throw_error. destruct (ec_is_error ec); [|by intros [= _ <- <-]].
  by intros (? & ? & ? & _ & E)%svc_bind_Ret.
Qed.

(** A call without an error returned 0. *)
Lemma no_last_error ec a :
  (an_result a <> 0 -> 0 < an_errno a) ->
  ec_is_error (get_last_error ec (negb (an_result a =? 0)) (an_errno a)) = false -> an_result a = 0.
Proof.
  intros Ha He. destruct (Z.eqb_spec (an_result a) 0) as [|Hn]; [done|]. simpl in He.
  by rewrite (last_error_failed ec _ (Ha Hn)) in He.
Qed.

(** Opening a new object, without an error: the socket it gets. *)
Lemma open_calls p ec r t impl ec' r' t' :
  Forall sets_errno t -> open new_implementation p ec r t = Some (Ret (impl, ec'), r', t') ->
  ec_is_error ec' = false ->
  exists a, t = (SysSocket (ip.family p) (ip.type p) (ip.protocol_ p), a) :: t' /\
  an_result a = socket_of impl /\ socket_of impl <> invalid_socket.
Proof.
  intros Ht ([b ec1] & r1 & t1 & E1 & E2)%svc_bind_Ret He. injection E2 as <- <- _ <-.
  unfold do_open in E1. simpl in E1.
  apply svc_bind_Ret in E1 as ([s ec2] & r2 & t2 & [E1 ->]%call_os_Ret & E2).
  unfold socket in E1. sys_inv. apply Forall_cons in Ht as [Ha _]. unfold sets_errno in Ha. simpl in Ha.
  destruct (Z.eqb_spec (an_result a) invalid_socket) as [Hi|Hn].
  { injection E2 as _ <- _ _. rewrite Hi in He, Ha. change (invalid_socket <? 0) with true in He.
    by rewrite (last_error_failed ec _ (Ha eq_refl)) in He. }
  apply svc_bind_Ret in E2 as ([e q] & r3 & t3 & E3 & E2).
  assert (t3 = t2) as ->.
  { unfold call_reactor in E3. by destruct (register _ _) as [[? ?]| |]; injection E3. }
  destruct (Z.eqb_spec e 0) as [->|He0]; simpl in E2.
  - injection E2 as <- <- _ <-. by exists a.
  - apply svc_bind_Ret in E2 as ([] & r4 & t4 & _ & E4). injection E4 as <- <- _ _.
    by rewrite error_of_errno in He.
Qed.

(** The address of the server: any interface, port 8383. *)
Definition server_address : ip.endpoint := le_encode 2 AF_INET ++ [z2b 0x20; z2b 0xBF] ++ replicate 12 Byte.x00.

Lemma setsockopt_calls s state ec optval t n st ec' t' :
  s <> invalid_socket -> Forall sets_errno t ->
  setsockopt s state SOL_SOCKET SO_REUSEADDR optval ec t = Some ((n, st, ec'), t') ->
  ec_is_error ec' = false ->
  exists a, t = (SysSetsockopt s SOL_SOCKET SO_REUSEADDR optval, a) :: t' /\ an_result a = 0.
Proof.
  intros Hs Ht. unfold setsockopt. rewrite (proj2 (Z.eqb_neq _ _) Hs).
  change ((SOL_SOCKET =? custom_socket_option_level) && _) with false.
  change ((SOL_SOCKET =? custom_socket_option_level) && _) with false. cbv iota.
  intros E He. sys_inv. exists a. split; [done|]. apply Forall_cons in Ht as [Ha _].
  by eapply no_last_error.
Qed.

Lemma bind_calls s addr ec t n ec' t' :
  s <> invalid_socket -> Forall sets_errno t ->
  SocketOps.bind s addr ec t = Some ((n, ec'), t') -> ec_is_error ec' = false ->
  exists a, t = (SysBind s addr, a) :: t' /\ an_result a = 0.
Proof.
  intros Hs Ht. unfold SocketOps.bind. rewrite (proj2 (Z.eqb_neq _ _) Hs).
  intros E He. sys_inv. exists a. split; [done|]. apply Forall_cons in Ht as [Ha _].
  by eapply no_last_error.
Qed.

Lemma listen_calls s backlog ec t n ec' t' :
  s <> invalid_socket -> Forall sets_errno t ->
  SocketOps.listen s backlog ec t = Some ((n, ec'), t') -> ec_is_error ec' = false ->
  exists a, t = (SysListen s backlog, a) :: t' /\ an_result a = 0.
Proof.
  intros Hs Ht. unfold SocketOps.listen. rewrite (proj2 (Z.eqb_neq _ _) Hs).
  intros E He. sys_inv. exists a. split; [done|]. apply Forall_cons in Ht as [Ha _].
  by eapply no_last_error.
Qed.

(** The last two calls of the constructor. *)
Lemma bind_listen_calls impl e ec (r : R) t impl' r' t' :
  socket_of impl <> invalid_socket -> Forall sets_errno t ->
  (ec ← bind impl e ec;
   _ ← throw_error ec (destroy (base impl));
   ec ← listen impl SOMAXCONN ec;
   _ ← throw_error ec (destroy (base impl));
   mret impl) r t = Some (Ret impl', r', t') ->
  impl' = impl /\ exists a3 a4,
    t = (SysBind (socket_of impl) e, a3) :: (SysListen (socket_of impl) SOMAXCONN, a4) :: t' /\
    an_result a3 = 0 /\ an_result a4 = 0.
Proof.
  intros Hs He (ec1 & r1 & t1 & E1 & E)%svc_bind_Ret.
  apply svc_bind_Ret in E1 as ([n ec1'] & r2 & t2 & [E1 ->]%call_os_Ret & E2). injection E2 as -> <- <-.
  apply svc_bind_Ret in E as (u & r3 & t3 & (Hok & -> & ->)%throw_error_Ret & E).
  destruct (bind_calls _ _ _ _ _ _ _ Hs He E1 Hok) as (a3 & -> & Ha3). apply Forall_cons in He as [_ He].
  apply svc_bind_Ret in E as (ec2 & r4 & t4 & E1' & E).
  apply svc_bind_Ret in E1' as ([m ec2'] & r5 & t5 & [E1' ->]%call_os_Ret & E2). injection E2 as -> <- <-.
  apply svc_bind_Ret in E as (u' & r6 & t6 & (Hok' & -> & ->)%throw_error_Ret & E). injection E as <- <- <-.
  destruct (listen_calls _ _ _ _ _ _ _ Hs He E1' Hok') as (a4 & -> & Ha4).
  split; [done|]. by exists a3, a4.
Qed.

(** All of them. *)
Lemma acceptor_calls e (r : R) t impl r' t' :
  Forall sets_errno t -> new_acceptor e true r t = Some (Ret impl, r', t') ->
  exists a1 a2 a3 a4,
    t = (SysSocket (ip.family (ip.endpoint_protocol e)) (ip.type (ip.endpoint_protocol e))
           (ip.protocol_ (ip.endpoint_protocol e)), a1)
        :: (SysSetsockopt (socket_of impl) SOL_SOCKET SO_REUSEADDR (le_encode 4 1), a2)
        :: (SysBind (socket_of impl) e, a3)
        :: (SysListen (socket_of impl) SOMAXCONN, a4) :: t' /\
    an_result a1 = socket_of impl /\ an_result a2 = 0 /\ an_result a3 = 0 /\ an_result a4 = 0.
Proof.
  intros He ([impl1 ec1] & r1 & t1 & E1 & E)%svc_bind_Ret.
  apply svc_bind_Ret in E as (u1 & r2 & t2 & (Hok1 & -> & ->)%throw_error_Ret & E).
  destruct (open_calls _ _ _ _ _ _ _ _ He E1 Hok1) as (a1 & -> & Ha1 & Hs).
  apply Forall_cons in He as [_ He].
  apply svc_bind_Ret in E as ([impl2 ec2] & r3 & t3 & E2 & E).
  apply svc_bind_Ret in E2 as ([impl3 ec3] & r4 & t4 & E2 & E3).
  apply svc_bind_Ret in E3 as (u2 & r5 & t5 & (Hok3 & -> & ->)%throw_error_Ret & E3).
  injection E3 as -> -> <- <-.
  apply svc_bind_Ret in E2 as ([[n st] ec4] & r6 & t6 & [E2 ->]%call_os_Ret & E3).
  injection E3 as <- <- <- <-.
  destruct (setsockopt_calls _ _ _ _ _ _ _ _ _ Hs He E2 Hok3) as (a2 & -> & Ha2).
  apply Forall_cons in He as [_ He].
  destruct (bind_listen_calls (mkImplementation (set_state st (base impl1)) (protocol_ impl1)) e
    _ _ _ _ _ _ Hs He E) as (-> & a3 & a4 & -> & Ha3 & Ha4).
  by exists a1, a2, a3, a4.
Qed.

(** C24. The constructor of the server's acceptor returns only when its four calls
    succeeded: a stream socket, that may reuse its address, bound to port 8383 of any
    interface, listens; it is then the only new descriptor.  If it throws, no
    descriptor is left open; it is never undefined. *)
Theorem server_listens (r : R) t T o r' t'
    (Hr : reactor_inv r) (Ht : table_ok T t) (He : Forall sets_errno t)
    (E : server_acceptor r t = Some (o, r', t')) :
  exists T', went T t T' t' /\
  match o with
  | Ret impl =>
      is_open (base impl) = true /\ T' = T ∪ {[socket_of impl]} /\
      exists a1 a2 a3 a4,
        t = (SysSocket AF_INET SOCK_STREAM IPPROTO_TCP, a1)
            :: (SysSetsockopt (socket_of impl) SOL_SOCKET SO_REUSEADDR (le_encode 4 1), a2)
            :: (SysBind (socket_of impl) server_address, a3)
            :: (SysListen (socket_of impl) SOMAXCONN, a4) :: t' /\
        an_result a1 = socket_of impl /\ an_result a2 = 0 /\ an_result a3 = 0 /\ an_result a4 = 0
  | Throw _ => T' = T
  | Undef => False
  end.
Proof.
  unfold server_acceptor in E.
  destruct (new_acceptor_spec _ _ _ _ _ _ _ _ Hr Ht (empty_subseteq _) I E) as (F' & T' & W & M & HQ).
  exists T'. split; [done|]. pose proof (mv_table _ _ _ _ _ _ M) as ET. rewrite difference_empty_L in ET.
  destruct o as [impl|x|]; simpl in HQ; [|by rewrite HQ, union_empty_r_L in ET|done].
  destruct HQ as (Hop & -> & _). rewrite fds_open in ET by done. split; [done|]. split; [done|].
  change (ip.any_endpoint _ _) with server_address in E.
  exact (acceptor_calls server_address _ _ _ _ _ He E).
Qed.

End Programs.
