(* ===== verification/EpollSockets.v ===== *)
(** The epoll reactor keeps its promises to the sockets, and what that gives the two
    programs: how the client connects and how the server listens.

    [live_of] are the descriptors of the states in use; starting and cancelling
    operations leave a state's registration as it is ([steady]). *)

From S2P Require Import Prelude.
From S2P Require Import AsioError.
From S2P Require Import SocketOps.
From S2P Require Import SocketStream.
From S2P Require Import TimerQueueSpec.
From S2P Require Import Scheduler.
From S2P Require Import EpollReactor.
From S2P Require Import IoContext.
From S2P Require Import SocketSpec.
From S2P Require Import ReactorSpec.
From S2P Require Import IoContextSpec.
From S2P Require Import SocketService.
From S2P Require Import SocketServiceSpec.
From S2P Require Import SocketObjects.
From S2P Require Import Connecting.

Section Epoll.
Context {W : Type} `{KernelLaws W}.

(** * The states in use *)

(** Whether a state belongs to a socket. *)
Definition in_service (p : positive) (d : descriptor_state.t) (c : context W) : Prop :=
  p ∈ reactor.live_list_ (react c) /\ descriptor_state.shutdown_ d = false.

Definition live_of (c : context W) : gmap positive Z :=
  map_imap (fun p d =>
    if decide (in_service p d c) then Some (descriptor_state.descriptor_ d) else None)
    (reactor.descriptors (react c)).

Lemma live_of_lookup p fd (c : context W) :
  live_of c !! p = Some fd <->
  exists d, reactor.descriptors (react c) !! p = Some d /\ in_service p d c /\
  descriptor_state.descriptor_ d = fd.
Proof.
  unfold live_of. rewrite map_lookup_imap. split.
  - intros E. apply bind_Some in E as (d & Hd & E). case_decide; [|done]. injection E as <-. eauto.
  - intros (d & -> & Hs & <-). simpl. by rewrite decide_True.
Qed.

Lemma live_of_ext (c c' : context W) (m : gmap positive Z) :
  (forall p fd, live_of c' !! p = Some fd <-> m !! p = Some fd) -> live_of c' = m.
Proof. intros Hm. apply map_eq. intros p. apply option_eq. intros fd. apply Hm. Qed.

(** A change that leaves the registrations as they are. *)
Definition registration (d : descriptor_state.t) : Z * bool :=
  (descriptor_state.descriptor_ d, descriptor_state.shutdown_ d).

Record steady (c c' : context W) : Prop := {
  st_live : reactor.live_list_ (react c') = reactor.live_list_ (react c);
  st_states p : registration <$> reactor.descriptors (react c') !! p =
                registration <$> reactor.descriptors (react c) !! p
}.

#[global] Instance steady_preorder : PreOrder steady.
Proof.
  split; [by split|]. intros c1 c2 c3 [L1 S1] [L2 S2]. split; [by rewrite L2|]. intros p. by rewrite S2.
Qed.

Lemma steady_live (c c' : context W) : steady c c' -> live_of c' = live_of c.
Proof.
  intros [L S]. apply (live_of_ext c). intros p fd. rewrite !live_of_lookup. unfold in_service. rewrite L.
  specialize (S p). unfold registration in S.
  split; intros (d & Hd & [Hl Hs] & <-); rewrite Hd in S; simpl in S.
  - destruct (reactor.descriptors (react c) !! p) as [d'|]; [|done]. injection S as E1 E2.
    exists d'. by rewrite <- E1, <- E2.
  - destruct (reactor.descriptors (react c') !! p) as [d'|]; [|done]. injection S as E1 E2.
    exists d'. by rewrite E1, E2.
Qed.

Lemma steady_react (c c' : context W) : react c' = react c -> steady c c'.
Proof. intros E. split; by rewrite E. Qed.

Lemma steady_ctl op fd events source (c c' : context W) :
  steady c c' -> steady c (snd (ctl op fd events source c')).
Proof. intros S. etrans; [exact S|]. apply steady_react. unfold ctl. by destruct (epoll_ctl _ _ _ _ _). Qed.

Lemma steady_store p d d' (c c' : context W) :
  steady c c' -> reactor.descriptors (react c') !! p = Some d -> registration d' = registration d ->
  steady c (store_descriptor p d' c').
Proof.
  intros S Hd E. etrans; [exact S|]. split; [done|]. intros q. simpl.
  destruct (decide (q = p)) as [->|]; [|by rewrite lookup_insert_ne].
  rewrite lookup_insert_eq, Hd. simpl. by rewrite E.
Qed.

Lemma steady_set_sched s (c c' : context W) : steady c c' -> steady c (set_sched s c').
Proof. intros S. etrans; [exact S|]. by apply steady_react. Qed.

Lemma steady_set_world w (c c' : context W) : steady c c' -> steady c (set_world w c').
Proof. intros S. etrans; [exact S|]. by apply steady_react. Qed.

Lemma registration_queue k q d : registration (descriptor_state.set_queue k q d) = registration d.
Proof. done. Qed.

(** ** Operations *)

Lemma load_descriptor_Ret p d (c : context W) :
  load_descriptor p c = Ret d -> reactor.descriptors (react c) !! p = Some d.
Proof. apply deref_Ret. Qed.

Lemma enqueue_steady k p op (c c1 c' : context W) :
  steady c c1 -> enqueue_op k p op c1 = Ret c' -> steady c c'.
Proof.
  intros S E. unfold enqueue_op in E. destruct (load_descriptor p c1) as [d| |] eqn:El; [|done..].
  injection E as <-. apply steady_set_sched. eapply steady_store; [exact S|by apply load_descriptor_Ret|done].
Qed.

Lemma complete_now_steady op is_continuation (c c1 c' : context W) :
  steady c c1 -> complete_now op is_continuation c1 = Ret c' -> steady c c'.
Proof. intros S [= <-]. by apply steady_set_sched. Qed.

Lemma try_perform_steady k p d op (c : context W) fin op' d' c' :
  reactor.descriptors (react c) !! p = Some d -> try_perform k p d op c = (fin, op', d', c') ->
  steady c c' /\ registration d' = registration d /\
  (fin = false -> reactor.descriptors (react c') !! p = Some d').
Proof.
  intros Hd. unfold try_perform. destruct (op_at k _); [|by intros [= <- <- <- <-]].
  destruct (perform _ _ _) as [[status r] w].
  destruct status; intros [= <- <- <- <-]; (split; [|split; [by try destruct (negb _)|done]]).
  - by apply steady_set_world.
  - by apply steady_set_world.
  - eapply steady_store; [by apply steady_set_world|exact Hd|by destruct (negb _)].
Qed.

Lemma enqueue_first_write_steady fd p d op is_continuation (c c1 c' : context W) :
  steady c c1 -> reactor.descriptors (react c1) !! p = Some d ->
  enqueue_first_write fd p d op is_continuation c1 = Ret c' -> steady c c'.
Proof.
  intros S Hd E. unfold enqueue_first_write in E.
  pose proof (steady_ctl EPOLL_CTL_MOD fd (Z.lor (descriptor_state.registered_events_ d) EPOLLOUT)
    (at_descriptor p) _ _ S) as S1.
  unfold ctl in *. destruct (epoll_ctl _ _ _ _ _) as [[errno|] w]; cbn [snd] in S1.
  - by eapply complete_now_steady.
  - eapply enqueue_steady; [|exact E]. by eapply steady_store.
Qed.

Lemma start_steady k fd p d op is_continuation allow_speculative (c c' : context W) :
  reactor.descriptors (react c) !! p = Some d ->
  start_op k fd (Some p) op is_continuation allow_speculative c = Ret c' -> steady c c'.
Proof.
  intros Hd E. unfold start_op in E. rewrite (load_here_descriptor _ _ _ Hd), Ret_bind in E.
  destruct (descriptor_state.shutdown_ d); [by eapply complete_now_steady|].
  case_bool_decide; [|by eapply enqueue_steady]. destruct (_ && _).
  - unfold start_speculative in E. destruct (try_perform k p d op c) as [[[fin op'] d'] c1] eqn:Et.
    destruct (try_perform_steady _ _ _ _ _ _ _ _ _ Hd Et) as (S & Er & Hd').
    destruct fin; [by eapply complete_now_steady|]. specialize (Hd' eq_refl).
    destruct (_ =? 0); [by eapply complete_now_steady|].
    destruct (_ && _); [by eapply enqueue_first_write_steady|by eapply enqueue_steady].
  - unfold start_waiting in E. destruct (_ =? 0); [by eapply complete_now_steady|].
    set (d' := if bool_decide (k = write_op) then _ else d) in E.
    assert (registration d' = registration d) as Er by (subst d'; by case_bool_decide).
    assert (steady c (store_descriptor p d' c)) as S by (by eapply steady_store).
    pose proof (steady_ctl EPOLL_CTL_MOD fd (descriptor_state.registered_events_ d') (at_descriptor p) _ _ S) as S1.
    destruct (ctl _ _ _ _ _) as [r c1]. by eapply enqueue_steady.
Qed.

Lemma cancel_steady p d (c c' : context W) :
  reactor.descriptors (react c) !! p = Some d -> cancel_ops (Some p) c = Ret c' -> steady c c'.
Proof.
  intros Hd E. unfold cancel_ops in E. rewrite (load_here_descriptor _ _ _ Hd), Ret_bind in E.
  injection E as <-. apply steady_set_sched. by eapply steady_store.
Qed.

(** ** Registration *)

Definition is_leaving (p : positive) (c : context W) : Prop :=
  p ∈ reactor.live_list_ (react c) /\
  exists d, reactor.descriptors (react c) !! p = Some d /\
  descriptor_state.all_queued d = [] /\ descriptor_state.shutdown_ d = true.

Lemma ctl_react op fd events source (c : context W) : react (snd (ctl op fd events source c)) = react c.
Proof. unfold ctl. by destruct (epoll_ctl _ _ _ _ _). Qed.

(** A new state, or one that was free. *)
Lemma alloc_new r p r' :
  reactor_ok r -> reactor.alloc r = (p, r') ->
  (p ∉ reactor.live_list_ r) /\ reactor.live_list_ r' = p :: reactor.live_list_ r /\
  is_Some (reactor.descriptors r' !! p) /\
  (forall q, q <> p -> reactor.descriptors r' !! q = reactor.descriptors r !! q).
Proof.
  intros [Hn Hh _ _ _ _]. unfold reactor.alloc. destruct (reactor.free_list_ r) as [|q free] eqn:E; intros [= <- <-].
  - set (p := fresh (dom (reactor.descriptors r))).
    assert (reactor.descriptors r !! p = None) as Hp by (apply not_elem_of_dom, is_fresh).
    split; [|split; [done|]; simpl; rewrite lookup_insert_eq; split; [eauto|]].
    + intros Hin. destruct (Hh p) as [d Hd]; [set_solver|]. congruence.
    + intros q Hq. by rewrite lookup_insert_ne.
  - apply NoDup_app in Hn as (_ & Hn & _).
    split; [intros Hin; by apply (Hn q Hin); left|]. split; [done|].
    split; [apply Hh; set_solver +|done].
Qed.

(** What is left of the registration when [epoll_ctl] has answered. *)
Lemma register_state fd (c : context W) e p c' :
  reactor_ok (react c) -> register_descriptor fd c = Ret (e, p, c') ->
  (p ∉ reactor.live_list_ (react c)) /\
  reactor.live_list_ (react c') = p :: reactor.live_list_ (react c) /\
  (forall q, q <> p -> reactor.descriptors (react c') !! q = reactor.descriptors (react c) !! q) /\
  exists d, reactor.descriptors (react c') !! p = Some d /\ registration d = (fd, false).
Proof.
  intros Hok E. unfold register_descriptor in E. destruct (reactor.alloc (react c)) as [p1 r1] eqn:Ea.
  destruct (alloc_new _ _ _ Hok Ea) as (Hp & Hl & [d Hd] & Hothers).
  rewrite (load_here_descriptor p1 d) in E by done. rewrite Ret_bind in E. cbv zeta in E.
  set (d' := descriptor_state.registered fd all_events d) in E.
  set (c1 := store_descriptor p1 d' (set_react r1 c)) in E.
  pose proof (ctl_react EPOLL_CTL_ADD fd all_events (at_descriptor p1) c1) as Er.
  destruct (ctl _ _ _ _ c1) as [answer c2]. cbn [snd] in Er.
  assert (exists d'', registration d'' = (fd, false) /\ p = p1 /\
    (react c' = react (store_descriptor p1 d'' c1))) as (d'' & Ed & -> & Ec).
  { assert (react (store_descriptor p1 d' c1) = react c1) as Esame.
    { unfold c1, store_descriptor, reactor.set_descriptor, reactor.set_descriptors. simpl.
      by rewrite insert_insert_eq. }
    destruct answer as [errno|]; [destruct (errno =? EPERM)|]; injection E as _ <- <-;
      [exists (descriptor_state.set_events 0 d')|exists d'|exists d'];
      (split; [done|]; split; [done|]); [|congruence..].
    unfold store_descriptor, set_react. simpl. by rewrite Er. }
  rewrite Ec. simpl. split; [done|]. split; [done|]. rewrite insert_insert_eq. split.
  - intros q Hq. rewrite lookup_insert_ne by done. by apply Hothers.
  - exists d''. by rewrite lookup_insert_eq.
Qed.

Lemma live_of_register fd (c c' : context W) e p :
  reactor_ok (react c) -> register_descriptor fd c = Ret (e, p, c') ->
  live_of c !! p = None /\ live_of c' = <[p := fd]> (live_of c).
Proof.
  intros Hok E. destruct (register_state _ _ _ _ _ Hok E) as (Hp & Hl & Hothers & d & Hd & Ed).
  split.
  - destruct (live_of c !! p) as [fd'|] eqn:Hq; [|done].
    apply live_of_lookup in Hq as (? & _ & [Hin _] & _). done.
  - apply (live_of_ext c). intros q fd'. rewrite live_of_lookup. unfold in_service. rewrite Hl.
    destruct (decide (q = p)) as [->|Hne].
    + rewrite lookup_insert_eq, Hd. injection Ed as <- Es.
      split; [by intros (? & [= <-] & _ & <-)|]. intros [= <-]. exists d. split_and!; [done|by left|done|done].
    + rewrite lookup_insert_ne, (Hothers q Hne), live_of_lookup by done. unfold in_service.
      setoid_rewrite elem_of_cons. naive_solver.
Qed.

Lemma live_of_deregister fd p closing (c : context W) :
  live_of c !! p = Some fd ->
  exists c', deregister_descriptor fd (Some p) closing c = Ret (Some p, c') /\
  is_leaving p c' /\ live_of c' = delete p (live_of c).
Proof.
  intros Hp. apply live_of_lookup in Hp as (d & Hd & [Hl Hs] & <-).
  unfold deregister_descriptor. rewrite (load_here_descriptor _ _ _ Hd), Ret_bind, Hs. cbn [negb].
  set (c1 := if closing then c else _).
  assert (react c1 = react c) as Er.
  { subst c1. destruct closing; [done|]. destruct (negb _); [apply ctl_react|done]. }
  eexists. split; [done|]. split.
  - split; [simpl; by rewrite Er|]. simpl. rewrite lookup_insert_eq. by eexists.
  - apply (live_of_ext c). intros q fd'. rewrite live_of_lookup, lookup_delete_Some, live_of_lookup.
    unfold in_service. simpl. rewrite Er. destruct (decide (q = p)) as [->|Hne].
    + rewrite lookup_insert_eq. split; [by intros (? & [= <-] & [_ ?] & _)|naive_solver].
    + rewrite lookup_insert_ne by done. naive_solver.
Qed.

Lemma live_of_cleanup p (c : context W) :
  is_leaving p c -> exists c', cleanup_descriptor_data (Some p) c = Ret c' /\ live_of c' = live_of c.
Proof.
  intros (Hl & d & Hd & _ & Hs). unfold cleanup_descriptor_data, reactor.free.
  rewrite decide_True, Ret_bind by done. eexists. split; [done|].
  apply (live_of_ext c). intros q fd. rewrite !live_of_lookup. unfold in_service. simpl.
  setoid_rewrite list_elem_of_filter. split; [naive_solver|].
  intros (dq & Hq & [Hin Hsq] & <-). exists dq. split; [done|]. split; [|done]. split; [|done].
  split; [|done]. intros ->. congruence.
Qed.

(** ** The loop *)

Lemma perform_type_registration k events d (w : W) d' over w' :
  perform_type k events d w = (d', over, w') -> registration d' = registration d.
Proof.
  unfold perform_type. destruct (negb _); [|by intros [= <- <- <-]].
  destruct (perform_queue _ _) as [[[rest done] b] w1]. intros [= <- <- <-]. by destruct b.
Qed.

Lemma perform_io_steady p events (c : context W) op c' :
  perform_io p events c = Ret (op, c') -> steady c c'.
Proof.
  unfold perform_io. intros (d & Hd%load_descriptor_Ret & E)%bind_Ret.
  destruct (perform_type except_op _ _ _) as [[d2 ops2] w2] eqn:E2.
  destruct (perform_type write_op _ _ _) as [[d1 ops1] w1] eqn:E1.
  destruct (perform_type read_op _ _ _) as [[d0 ops0] w0] eqn:E0.
  apply perform_type_registration in E2, E1, E0.
  assert (steady c (store_descriptor p d0 (set_world w0 c))) as S
    by (eapply steady_store; [by apply steady_set_world|exact Hd|congruence]).
  destruct (ops2 ++ ops1 ++ ops0).
  - apply bind_Ret in E as (s & _ & [= <- <-]). by apply steady_set_sched.
  - injection E as <- <-. by apply steady_set_sched.
Qed.

Lemma ready_steady o (c : context W) cp c' : ready o c = Ret (cp, c') -> steady c c'.
Proof.
  destruct o as [|p|x]; simpl; [done| |by intros [= <- <-]].
  intros (d & _ & E)%bind_Ret. apply bind_Ret in E as ([op c1] & E & [= <- <-]).
  by eapply perform_io_steady.
Qed.

Lemma clock_steady (c : context W) now c' : read_clock c = (now, c') -> steady c c'.
Proof.
  unfold read_clock. destruct (clock_now _). intros [= <- <-]. by apply steady_set_world.
Qed.

Lemma dispatch_steady events ops b (c : context W) x c' :
  dispatch_events events ops b c = Ret (x, c') -> steady c c'.
Proof.
  revert ops b c. induction events as [|[source e] events IH]; intros ops b c; simpl.
  { by intros [= _ <-]. }
  intros ([[ops1 b1] c1] & E1 & E)%bind_Ret. unfold dispatch_event in E1. simpl in E1.
  destruct source as [| |p]; [injection E1 as <- <- <-; by eapply IH..|].
  apply bind_Ret in E1 as (d & Hd%load_descriptor_Ret & E1).
  etrans; [|by eapply IH]. destruct (negb _); injection E1 as _ _ <-; by eapply steady_store.
Qed.

Lemma timeout_steady usec (c : context W) t c' : epoll_timeout usec c = Ret (t, c') -> steady c c'.
Proof.
  unfold epoll_timeout, get_timeout. destruct (_ =? 0); [by intros [= _ <-]|].
  destruct (has_timer_fd c); [by intros [= _ <-]|]. destruct (read_clock c) as [now c1] eqn:Ec.
  intros (m & _ & [= _ <-])%bind_Ret. by eapply clock_steady.
Qed.

Lemma arm_steady (c c' : context W) : arm_timer_fd c = Ret c' -> steady c c'.
Proof.
  unfold arm_timer_fd. destruct (read_clock c) as [now c1] eqn:Ec.
  intros (usec & _ & [= <-])%bind_Ret. by eapply steady_set_world, clock_steady.
Qed.

Lemma expire_steady ops (c : context W) ops' c' : expire_timers ops c = Ret (ops', c') -> steady c c'.
Proof.
  unfold expire_timers. destruct (read_clock c) as [now c1] eqn:Ec. apply clock_steady in Ec.
  intros ([ready qs] & _ & E)%bind_Ret. apply bind_Ret in E as (c2 & E2 & [= _ <-]).
  assert (steady c (set_react (reactor.set_timers qs (react c1)) c1)) as S1.
  { etrans; [exact Ec|]. by split. }
  destruct (has_timer_fd _); [|by injection E2 as <-]. etrans; [exact S1|by apply arm_steady].
Qed.

Lemma run_steady usec ops (c : context W) ops' c' : run usec ops c = Ret (ops', c') -> steady c c'.
Proof.
  unfold run. intros ([t c1] & Et & E)%bind_Ret. apply timeout_steady in Et.
  destruct (epoll_wait t (world c1)) as [events w].
  apply bind_Ret in E as ([[ops1 b] c2] & Ed & E). apply dispatch_steady in Ed.
  assert (steady c c2) as S by (etrans; [|exact Ed]; by apply steady_set_world).
  destruct b; [|by injection E as _ <-]. etrans; [exact S|]. by eapply expire_steady.
Qed.

Lemma run_task_steady usec (c c' : context W) : run_task usec c = Ret c' -> steady c c'.
Proof.
  unfold run_task. intros (i & _ & E)%bind_Ret. apply bind_Ret in E as ([ops c1] & Er & E).
  apply run_steady in Er. apply bind_Ret in E as (s & _ & [= <-]). by apply steady_set_sched.
Qed.

(** * The interface *)

Lemma live_in_list p fd (c : context W) :
  live_of c !! p = Some fd -> forall q, Some p = Some q -> q ∈ reactor.live_list_ (react c).
Proof. intros Hp q [= <-]. apply live_of_lookup in Hp as (? & _ & [? _] & _). done. Qed.

(** The epoll reactor is a reactor for sockets. *)
#[global] Program Instance epoll_socket_laws : SocketReactorLaws (context W) := {
  reactor_inv := context_ok;
  live := live_of;
  leaving := is_leaving
}.
Next Obligation.
  intros fd c Hok. destruct (register_descriptor_spec fd c (proj1 Hok)) as (e & p & c' & E & A).
  exists e, p, c'. split; [exact E|]. split; [by apply (kp_ok _ _ (ad_keeps _ _ _ _ A))|].
  by apply (live_of_register fd c c' e p (proj1 Hok)).
Qed.
Next Obligation.
  intros fd p closing c Hok Hp.
  destruct (live_of_deregister fd p closing c Hp) as (c' & E & Hleave & El).
  destruct (deregister_descriptor_spec fd (Some p) closing c (live_in_list p fd c Hp) (proj1 Hok))
    as (data & c1 & E1 & A & _).
  exists c'. split; [exact E|]. rewrite E in E1. injection E1 as _ <-.
  split; [by apply (kp_ok _ _ (ad_keeps _ _ _ _ A))|done].
Qed.
Next Obligation.
  intros p c Hok Hl. destruct (live_of_cleanup p c Hl) as (c' & E & El).
  destruct (cleanup_descriptor_data_spec (Some p) c) as (c1 & E1 & A).
  { intros q [= <-]. destruct Hl as (Hin & d & Hd & Hq & _). split; [done|]. intros d' Hd'. congruence. }
  exists c'. split; [exact E|]. rewrite E in E1. injection E1 as <-.
  by split; [apply (kp_ok _ _ (ad_keeps _ _ _ _ A))|].
Qed.
Next Obligation.
  intros p fd c Hok Hp.
  destruct (cancel_ops_spec (Some p) c) as (c' & E & A).
  { apply live_in_use; [apply Hok|by eapply live_in_list]. }
  exists c'. split; [exact E|]. split; [by apply (kp_ok _ _ (ad_keeps _ _ _ _ A))|].
  apply live_of_lookup in Hp as (d & Hd & _). by eapply steady_live, cancel_steady.
Qed.
Next Obligation.
  intros k p fd op is_continuation allow_speculative c Hok Hp.
  destruct (start_op_spec k fd (Some p) op is_continuation allow_speculative c) as (c' & E & A).
  { apply live_in_use; [apply Hok|by eapply live_in_list]. }
  exists c'. split; [exact E|]. split; [by apply (kp_ok _ _ (ad_keeps _ _ _ _ A))|].
  apply live_of_lookup in Hp as (d & Hd & _). by eapply steady_live, start_steady.
Qed.
Next Obligation.
  intros op is_continuation c Hok. eexists. split; [done|].
  assert (advanced [op_ptr op] false c (post_immediate_completion (completed op) is_continuation c)) as A
    by (by apply advanced_immediate).
  split; [by apply (kp_ok _ _ (ad_keeps _ _ _ _ A))|]. by apply steady_live, steady_set_sched.
Qed.

(** ** A state that nobody frees *)

(** When a socket was opened but the reactor refused it, the object is left closed with
    the state that the reactor allocated: its destruction does nothing, and the state
    stays in the reactor's list. *)
Theorem refused_open_keeps_state b af type protocol ec (c : context W) t b' ec' c' t' :
  context_ok c -> is_open b = false ->
  do_open b af type protocol ec c t = Some (Ret (b', ec'), c', t') ->
  reactor_data_ b' <> reactor_data_ b -> ec_is_error ec' = true ->
  exists p, reactor_data_ b' = Some p /\ p ∈ reactor.live_list_ (react c') /\
  destroy b' c' t' = Some (Ret (), c', t').
Proof.
  intros Hok Hclosed. unfold do_open. rewrite Hclosed. unfold mbind at 1, svc_bind at 1, call_os at 1.
  destruct (socket af type protocol ec t) as [[[sock ec1] t1]|]; [|done].
  destruct (sock =? invalid_socket); [by intros [= <- <- <- <-]|].
  unfold mbind at 1, svc_bind at 1, call_reactor at 1. simpl (register _).
  destruct (register_descriptor_spec sock c (proj1 Hok)) as (err & p & c1 & E & _).
  destruct (live_of_register sock c c1 err p (proj1 Hok) E) as [_ Hlive].
  rewrite E. destruct (negb (err =? 0)); [|by intros [= <- <- <- <-]].
  unfold mbind, svc_bind, call_os. destruct (destroy_holder sock t1) as [[[] t2]|]; [|done].
  intros [= <- <- <- <-] _ _. exists p. split; [done|]. split.
  - apply (live_in_list p sock); [|done]. by rewrite Hlive, lookup_insert_eq.
  - unfold destroy, set_data. simpl. unfold is_open in Hclosed.
    by destruct (socket_ b =? invalid_socket).
Qed.

End Epoll.

(** * Examples *)

Section Examples.

Definition ok_answer (result : Z) : answer := mkAnswer result 0 [] 0.
Definition failed_answer (errno : Z) : answer := mkAnswer (-1) errno [] 0.

(** Two endpoints: the first refuses, and the connection to the second takes a while. *)
Definition first_endpoint : ip.endpoint := ip.any_endpoint AF_INET6 8383.
Definition second_endpoint : ip.endpoint := ip.any_endpoint AF_INET 8383.

Definition client_trace : sys_trace :=
  [(SysSocket AF_INET6 SOCK_STREAM IPPROTO_TCP, ok_answer 7);
   (SysConnect 7 first_endpoint, failed_answer 111);
   (SysClose 7, ok_answer 0);
   (SysSocket AF_INET SOCK_STREAM IPPROTO_TCP, ok_answer 8);
   (SysConnect 8 second_endpoint, failed_answer 115);
   (SysPoll 8 POLLOUT (-1), ok_answer 1);
   (SysGetsockopt 8 SOL_SOCKET SO_ERROR sizeof_int, mkAnswer 0 0 (le_encode 4 0) 4)].

(** The server's socket cannot be bound; the client's socket is closed. *)
Definition server_trace : sys_trace :=
  [(SysSocket AF_INET SOCK_STREAM IPPROTO_TCP, ok_answer 9);
   (SysSetsockopt 9 SOL_SOCKET SO_REUSEADDR (le_encode 4 1), ok_answer 0);
   (SysBind 9 server_address, failed_answer 98);
   (SysClose 9, ok_answer 0);
   (SysClose 8, ok_answer 0)].

Definition listen_trace : sys_trace :=
  [(SysSocket AF_INET SOCK_STREAM IPPROTO_TCP, ok_answer 9);
   (SysSetsockopt 9 SOL_SOCKET SO_REUSEADDR (le_encode 4 1), ok_answer 0);
   (SysBind 9 server_address, ok_answer 0);
   (SysListen 9 SOMAXCONN, ok_answer 0)].

Lemma ex_begin_ok : reactor_inv (R := context toy) ex_begin.
Proof.
  change (context_ok ex_begin).
  destruct (begin_spec false 3 (-1) [] ex_world) as (Hok & _); try done; try constructor.
Qed.

(** The descriptors of the terminal. *)
Definition ex_table : gset Z := {[0; 1; 2]}.

Lemma client_table : table_ok ex_table client_trace.
Proof. by apply (bool_decide_unpack (table_ok ex_table client_trace)). Qed.

Lemma listen_table : table_ok ex_table listen_trace.
Proof. by apply (bool_decide_unpack (table_ok ex_table listen_trace)). Qed.

(** The client's socket, and an acceptor whose constructor throws; then the socket is
    destroyed. *)
Definition ex_script : list socket_call :=
  [sc_client 1 [first_endpoint; second_endpoint]; sc_acceptor 2 server_address true; sc_destroy 1].

Lemma script_table : table_ok ex_table (client_trace ++ server_trace).
Proof. by apply (bool_decide_unpack (table_ok ex_table (client_trace ++ server_trace))). Qed.

Definition ex_sockets : sockets := mkSockets ∅ ex_table.

Lemma ex_owns (c : context toy) : owns ex_sockets c ex_table.
Proof.
  split; [intros k impl; simpl; by rewrite lookup_empty|].
  unfold owned_fds, object_fds. simpl. by rewrite gather_empty.
Qed.

(** Both sockets are closed and no object is left: the table is that of the start. *)
Lemma sockets_never_leak_witness :
  table_ok ex_table (client_trace ++ server_trace) /\ owns ex_sockets ex_begin ex_table /\
  exists c s' T',
    run_socket_calls ex_script ex_sockets ex_begin (client_trace ++ server_trace) = Some (Ret s', c, []) /\
    went ex_table (client_trace ++ server_trace) T' [] /\ context_ok c /\ owns s' c T' /\
    objects s' = ∅.
Proof.
  split; [exact script_table|]. split; [apply ex_owns|].
  assert (exists c s', run_socket_calls ex_script ex_sockets ex_begin (client_trace ++ server_trace) =
    Some (Ret s', c, []) /\ objects s' = ∅) as (c & s' & E & Hs).
  { eexists _, _. split; [by vm_compute|by vm_compute]. }
  destruct (sockets_never_leak ex_script ex_sockets ex_begin (client_trace ++ server_trace) ex_table
    (Ret s') c [] ex_begin_ok script_table (ex_owns ex_begin) E) as (s1 & T' & Es & W & Hc & Ho).
  injection Es as <-. exists c, s', T'. exact (conj E (conj W (conj Hc (conj Ho Hs)))).
Defined.

Lemma client_connects_witness :
  table_ok ex_table client_trace /\ Forall sets_errno client_trace /\
  exists impl c pre,
    client_socket [first_endpoint; second_endpoint] ex_begin client_trace = Some (Ret impl, c, []) /\
    client_trace = pre ++ [] /\ is_open (base impl) = true /\
    exists before e after, [first_endpoint; second_endpoint] = before ++ e :: after /\
    attempts pre = endpoint_family <$> before ++ [e] /\
    (exists cs, cs `sublist_of` before /\ connects pre = cs ++ [e]) /\ established (socket_of impl) e pre.
Proof.
  split; [exact client_table|].
  assert (Forall sets_errno client_trace) as He
    by (by apply (bool_decide_unpack (Forall sets_errno client_trace))).
  split; [exact He|].
  assert (exists impl c, client_socket [first_endpoint; second_endpoint] ex_begin client_trace =
    Some (Ret impl, c, [])) as (impl & c & E) by (eexists _, _; by vm_compute).
  destruct (client_connects [first_endpoint; second_endpoint] ex_begin client_trace ex_table (Ret impl) c []
    ex_begin_ok client_table He E) as (pre & Et & Ho & Hc).
  exists impl, c, pre. exact (conj E (conj Et (conj Ho Hc))).
Defined.

Lemma server_listens_witness :
  table_ok ex_table listen_trace /\ Forall sets_errno listen_trace /\
  exists impl c T',
    server_acceptor ex_begin listen_trace = Some (Ret impl, c, []) /\
    went ex_table listen_trace T' [] /\ is_open (base impl) = true /\
    T' = ex_table ∪ {[socket_of impl]}.
Proof.
  split; [exact listen_table|].
  assert (Forall sets_errno listen_trace) as He
    by (by apply (bool_decide_unpack (Forall sets_errno listen_trace))).
  split; [exact He|].
  assert (exists impl c, server_acceptor ex_begin listen_trace = Some (Ret impl, c, []))
    as (impl & c & E) by (eexists _, _; by vm_compute).
  destruct (server_listens ex_begin listen_trace ex_table (Ret impl) c [] ex_begin_ok listen_table He E)
    as (T' & W & Ho & ET & _).
  exists impl, c, T'. exact (conj E (conj W (conj Ho ET))).
Defined.

End Examples.
