(* ===== verification/Completions.v ===== *)
(** Every completion of the event loop has an explanation: for a program whose
    operations, posts and waits are described by three predicates, an operation
    completes with what performing it gave, a wait with its timer's result and a post
    as it is; otherwise the reactor had an error.

    Operations are always attempted, or wait: the states that the calls are given are
    not shut down ([all_in_service]), so the reactor refuses none. *)

From S2P Require Import Prelude.
From S2P Require Import AsioError.
From S2P Require Import SocketStream.
From S2P Require Import ChronoTimeTraits.
From S2P Require Import TimerQueue.
From S2P Require Import TimerQueueSpec.
From S2P Require Import Scheduler.
From S2P Require Import EpollReactor.
From S2P Require Import IoContext.
From S2P Require Import ReactorSpec.
From S2P Require Import IoContextSpec.
From S2P Require Import ResultsSpec.
From S2P Require Import EpollSockets.

(** * No state in use is shut down *)

Section Service.
Context {W : Type} `{KernelLaws W}.

Definition all_in_service (c : context W) : Prop :=
  forall p d, p ∈ reactor.live_list_ (react c) -> reactor.descriptors (react c) !! p = Some d ->
    descriptor_state.shutdown_ d = false.

Lemma steady_in_service (c c' : context W) : steady c c' -> all_in_service c -> all_in_service c'.
Proof.
  intros [L S] Hc p d Hp Hd. rewrite L in Hp. specialize (S p). rewrite Hd in S. simpl in S.
  destruct (reactor.descriptors (react c) !! p) as [d'|] eqn:Hd'; [|done]. injection S as _ ->.
  by eapply Hc.
Qed.

Lemma register_in_service fd (c : context W) e p c' :
  reactor_ok (react c) -> register_descriptor fd c = Ret (e, p, c') ->
  all_in_service c -> all_in_service c'.
Proof.
  intros Hok E Hc. destruct (register_state _ _ _ _ _ Hok E) as (Hp & Hl & Hothers & d & Hd & Ed).
  intros q dq Hq Hdq. rewrite Hl in Hq. destruct (decide (q = p)) as [->|Hne].
  - rewrite Hd in Hdq. injection Hdq as <-. by injection Ed.
  - apply elem_of_cons in Hq as [->|Hq]; [done|]. rewrite Hothers in Hdq by done. by eapply Hc.
Qed.

(** A state that is taken from the reactor is freed. *)
Lemma freed_in_service fd data closing (c c1 c' : context W) data' w :
  deregister_descriptor fd data closing c = Ret (data', c1) ->
  cleanup_descriptor_data data' (set_world w c1) = Ret c' ->
  all_in_service c -> all_in_service c'.
Proof.
  intros E E' Hc. unfold deregister_descriptor in E.
  destruct data as [p|]; [|injection E as <- <-; by injection E' as <-].
  apply bind_Ret in E as (d & Hd%load_descriptor_Ret & E).
  destruct (descriptor_state.shutdown_ d); simpl in E; [injection E as <- <-; by injection E' as <-|].
  set (c0 := if closing then c else _) in E.
  assert (react c0 = react c) as Er.
  { subst c0. destruct closing; [done|]. destruct (negb _); [apply ctl_react|done]. }
  injection E as <- <-. unfold cleanup_descriptor_data in E'.
  apply bind_Ret in E' as (r & Ef & [= <-]). unfold reactor.free in Ef.
  destruct (decide _); [|done]. injection Ef as <-.
  intros q dq. simpl. rewrite Er. intros [Hne Hq]%list_elem_of_filter Hdq.
  rewrite lookup_insert_ne in Hdq by done. by eapply Hc.
Qed.

Lemma cancel_by_key_steady p k key (c c' : context W) :
  cancel_ops_by_key (Some p) k key c = Ret c' -> steady c c'.
Proof.
  unfold cancel_ops_by_key. intros (d & Hd%load_descriptor_Ret & [= <-])%bind_Ret.
  apply steady_set_sched. by eapply steady_store.
Qed.

Lemma update_timeout_steady (c c' : context W) : update_timeout c = Ret c' -> steady c c'.
Proof.
  unfold update_timeout. destruct (negb _); [apply arm_steady|]. intros [= <-].
  unfold interrupt. by apply steady_ctl.
Qed.

Lemma schedule_timer_steady k time timer op (c c' : context W) :
  schedule_timer k time timer op c = Ret c' -> steady c c'.
Proof.
  unfold schedule_timer. destruct (reactor.shutdown_ _).
  { intros [= <-]. by apply steady_set_sched. }
  intros (q & _ & ([earliest q'] & _ & E)%bind_Ret)%bind_Ret.
  assert (steady c (work_started (set_react (store_timer_queue k q' (react c)) c))) as S by by split.
  destruct earliest; [|by injection E as <-]. etrans; [exact S|by apply update_timeout_steady].
Qed.

Lemma cancel_timer_steady k timer n (c : context W) m c' :
  cancel_timer k timer n c = Ret (m, c') -> steady c c'.
Proof.
  unfold cancel_timer. intros (q & _ & ([[m' ops] q'] & _ & [= _ <-])%bind_Ret)%bind_Ret.
  apply steady_set_sched. by split.
Qed.

Lemma cancel_timer_by_key_steady k timer key (c c' : context W) :
  cancel_timer_by_key k timer key c = Ret c' -> steady c c'.
Proof.
  unfold cancel_timer_by_key. intros (q & _ & ([ops q'] & _ & [= <-])%bind_Ret)%bind_Ret.
  apply steady_set_sched. by split.
Qed.

Lemma call_in_service x (c c' : context W) :
  context_ok c -> run_call x c = Ret c' -> all_in_service c -> all_in_service c'.
Proof.
  intros Hok E Hc. destruct x; simpl in E.
  - destruct (register_descriptor descriptor c) as [[[e p] c1]|?|] eqn:E1; try done.
    injection E as <-. by eapply register_in_service; [apply Hok|..].
  - eapply steady_in_service; [|done]. destruct data as [p|]; [|by eapply complete_now_steady].
    pose proof E as E1. unfold start_op in E1. apply bind_Ret in E1 as (d & Hd%load_descriptor_Ret & _).
    by eapply start_steady.
  - eapply steady_in_service; [|done]. destruct data as [p|]; [|by injection E as <-].
    pose proof E as E1. unfold cancel_ops in E1. apply bind_Ret in E1 as (d & Hd%load_descriptor_Ret & _).
    by eapply cancel_steady.
  - eapply steady_in_service; [|done]. destruct data as [p|]; [|by injection E as <-].
    by eapply cancel_by_key_steady.
  - unfold close_descriptor in E. apply bind_Ret in E as ([data' c1] & E1 & E).
    by eapply freed_in_service.
  - unfold release_descriptor in E. apply bind_Ret in E as ([data' c1] & E1 & E).
    eapply (freed_in_service _ _ _ _ c1 _ data' (world c1)); [exact E1| |done]. by destruct c1.
  - injection E as <-. eapply steady_in_service; [|done]. by apply steady_set_sched.
  - eapply steady_in_service; [|done]. by eapply schedule_timer_steady.
  - destruct (cancel_timer k timer max_cancelled c) as [[m c1]|?|] eqn:E1; try done.
    injection E as <-. eapply steady_in_service; [|done]. by eapply cancel_timer_steady.
  - eapply steady_in_service; [|done]. by eapply cancel_timer_by_key_steady.
  - injection E as <-. eapply steady_in_service; [|done]. by apply steady_set_sched.
Qed.

Lemma begin_in_service one_thread interrupter timer_fd qs (w : W) :
  all_in_service (begin one_thread interrupter timer_fd qs w).
Proof.
  assert (reactor.live_list_ (react (begin one_thread interrupter timer_fd qs w)) = []) as E.
  { unfold begin. simpl. induction qs as [|[k q] qs IH]; [|done]. simpl.
    unfold create. unfold ctl at 1. destruct (epoll_ctl _ _ _ _ _) as [x w1]. simpl.
    destruct (has_timer_fd _); [|done]. unfold ctl. by destruct (epoll_ctl _ _ _ _ _). }
  intros p d Hp. rewrite E in Hp. by apply elem_of_nil in Hp.
Qed.

End Service.

(** * Histories *)

Section Explained.
Context {W : Type} `{KernelLaws W}.

(** What the program starts: operations with their identity and first result, posts,
    and waits for timers. *)
Context (Starts : positive -> reactor_op.t -> Prop) (Posts : completion -> Prop)
    (Waits : positive -> Prop).

(** An attempt at an operation that was not done. *)
Definition attempt (id : positive) (r r' : reactor_op.t) : Prop :=
  exists w w', perform id r w = (reactor_op.not_done, r', w').

(** The result of an operation that was started, after some attempts. *)
Definition attempted (id : positive) (r : reactor_op.t) : Prop :=
  exists r0, Starts id r0 /\ rtc (attempt id) r0 r.

(** How a completion came about. *)
Inductive explained : completion -> Prop :=
  | was_posted cp : Posts cp -> explained cp
  | was_waiting id ec :
      Waits id -> ec = ec_success \/ ec = operation_aborted -> explained (mkCompletion id ec 0)
  | was_performed id r st r' w w' :
      attempted id r -> perform id r w = (st, r', w') -> st <> reactor_op.not_done ->
      explained (mkCompletion id (reactor_op.ec_ r') (reactor_op.bytes_transferred_ r'))
  | has_failed id r ec :
      attempted id r -> reactor_error W ec ->
      explained (mkCompletion id ec (reactor_op.bytes_transferred_ r)).

(** The story of how completions come about says nothing of the world. *)
Local Abbreviation waits_attempted := (fun (_ : W) => attempted).
Local Abbreviation is_explained := (fun (_ : W) => explained).

#[local] Instance explained_story : Story True waits_attempted is_explained Waits.
Proof.
  split; try by split.
  - intros id r w st r' w' Hr E. destruct st; [|by eapply was_performed..].
    destruct Hr as (r0 & Hr0 & Hr). exists r0. split; [done|]. eapply rtc_r; [exact Hr|]. by exists w, w'.
  - intros id r w ec. apply has_failed.
  - intros id ec w. apply was_waiting.
Qed.

(** The stories are told, and no operation can be refused. *)
Definition results (c : context W) : Prop :=
  results_ok waits_attempted is_explained Waits c /\ all_in_service c.

(** ** Calls and rounds *)

(** A call starts what the predicates allow. *)
Definition respects (x : call) : Prop :=
  match x with
  | call_start_op _ _ _ op _ _ => Starts (op_ptr op) (op_result op)
  | call_post cp _ => Posts cp
  | call_schedule_timer _ _ _ op => Waits (op_id op)
  | _ => True
  end.

Lemma results_call x c c' :
  context_ok c -> call_ok x c -> respects x -> run_call x c = Ret c' -> results c -> results c'.
Proof.
  intros Hok Hx Hr E [Hc Hopen]. split; [|by eapply call_in_service].
  pose proof (proj1 Hok) as Hreact. destruct x; simpl in Hx, Hr, E.
  - destruct (register_descriptor descriptor c) as [[[e p] c1]|?|] eqn:E1; try done.
    injection E as <-. by destruct (results_register True waits_attempted is_explained Waits _ _ _ _ _ E1 Hc).
  - eapply (results_start_op True waits_attempted is_explained Waits); [exact E| | |by left|done].
    + by exists (op_result op).
    + intros p d -> Hd Hshut. specialize (Hx p eq_refl). by rewrite (Hopen p d Hx Hd) in Hshut.
  - by eapply (results_cancel_ops True waits_attempted is_explained Waits).
  - by eapply (results_cancel_by_key True waits_attempted is_explained Waits).
  - unfold close_descriptor in E. apply bind_Ret in E as ([data' c1] & E1 & E).
    eapply results_cleanup; [exact E|].
    apply (results_world True waits_attempted is_explained Waits); [apply story_close|].
    by eapply (results_deregister True waits_attempted is_explained Waits).
  - unfold release_descriptor in E. apply bind_Ret in E as ([data' c1] & E1 & E).
    eapply results_cleanup; [exact E|]. by eapply (results_deregister True waits_attempted is_explained Waits).
  - injection E as <-. apply results_immediate; [|done]. by apply was_posted.
  - destruct Hx as (Ht & Htime & Hsize). by eapply (results_schedule True waits_attempted is_explained Waits).
  - destruct (cancel_timer k timer max_cancelled c) as [[m c1]|?|] eqn:E1; try done.
    injection E as <-. by eapply (results_cancel_timer True waits_attempted is_explained Waits).
  - by eapply (results_cancel_timer_by_key True waits_attempted is_explained Waits).
  - injection E as <-. apply results_wake; [done|apply Hc|apply Hc].
Qed.

Lemma results_calls script c c' :
  context_ok c -> calls_ok script c -> Forall respects script -> run_calls script c = Ret c' ->
  results c -> results c'.
Proof.
  revert c. induction script as [|x script IH]; intros c Hok Hs Hr E Hc; simpl in *.
  { by injection E as <-. }
  destruct Hs as [Hx Hs]. apply Forall_cons in Hr as [Hrx Hr].
  apply bind_Ret in E as (c1 & E1 & E). destruct (run_call_spec x c Hok Hx) as (c2 & E2 & A).
  rewrite E1 in E2. injection E2 as <-.
  eapply (IH c1); [|by apply Hs|done|done|by eapply results_call].
  by apply (kp_ok _ _ (ad_keeps _ _ _ _ A)).
Qed.

Lemma results_steady c c' :
  steady c c' -> results_ok waits_attempted is_explained Waits c' -> results c -> results c'.
Proof. intros S Hc [_ Ho]. split; [done|by eapply steady_in_service]. Qed.

Lemma results_round script c b cp c' :
  loop_inv c -> script_ok script c -> Forall respects script ->
  loop_once (fun _ => script) c = Ret (loop_goes b cp c') -> results c ->
  results c' /\ (forall x, cp = Some x -> explained x).
Proof.
  intros Hinv Hscript Hr E Hres. pose proof Hres as [Hc Hopen]. unfold loop_once in E.
  destruct (scheduler.stopped_ (sched c)) eqn:Hs.
  { unfold scheduler.do_run_one in E. by rewrite Hs in E. }
  destruct (scheduler.op_queue_ (sched c)) as [|o rest] eqn:Eq.
  { unfold scheduler.do_run_one in E. by rewrite Hs, Eq in E. }
  destruct (decide (o = task_operation)) as [->|Ho].
  - unfold scheduler.do_run_one in E. rewrite Hs, Eq in E. simpl in E.
    apply bind_Ret in E as (c1 & E1 & [= <- <- <-]). split; [|done].
    apply (results_steady c); [|eapply (results_run_task True waits_attempted is_explained Waits); [|exact E1|]|done].
    + etrans; [|by eapply run_task_steady]. by apply steady_set_sched.
    + destruct (li_ok _ Hinv). by split.
    + pose proof (rs_queue Hc) as Hq. rewrite Eq in Hq. apply Forall_cons in Hq as [_ Hq].
      apply results_sched; [done|done|apply Hc].
  - destruct (do_run_one_pops o rest (sched c) Hs Eq Ho) as (s' & Ed & Htake & Hpop).
    rewrite Ed in E. apply bind_Ret in E as ([cp1 c1] & E1 & [= <- <- <-]).
    unfold finish, complete in E1. apply bind_Ret in E1 as ([cp2 c2] & E2 & E1).
    apply bind_Ret in E2 as ([cp3 c3] & E3 & E2).
    destruct (ready_spec o rest s' c Hinv Hs Eq Ho Hpop) as (cp4 & c4 & E4 & Hrun & _).
    rewrite E3 in E4. injection E4 as <- <-.
    destruct (results_pop waits_attempted is_explained Waits o rest s' c Eq Hpop Hc) as [Hexp Hc0].
    destruct (results_ready True waits_attempted is_explained Waits _ _ _ _ E3 Hexp (or_introl I) Hc0) as [Hc3 Hcp].
    assert (results c3) as Hres3.
    { apply (results_steady c); [|done|done]. etrans; [|by eapply ready_steady]. by apply steady_set_sched. }
    apply bind_Ret in E1 as (s & Es & [= <- <-]).
    assert (results c2 /\ cp2 = cp3) as [Hc2 ->].
    { destruct cp3 as [x|]; [|by injection E2 as <- <-].
      apply bind_Ret in E2 as (c5 & E5 & [= <- <-]). split; [|done].
      eapply results_calls; [apply Hrun|by eapply Hscript|done|exact E5|done]. }
    split; [|done]. apply (results_steady c2); [by apply steady_set_sched| |done].
    by apply results_work_cleanup, Hc2.
Qed.

(** A round whose handler makes good calls, and starts what is allowed. *)
Definition respectful_step (st st' : io W) : Prop :=
  exists script, script_ok script (io_context st) /\ Forall respects script /\ io_step script st st'.

(** C28. Whatever is started, in whatever order, and whatever the system answers,
    every completion has an explanation: it was posted as it is; or it is a timer's,
    without error or cancelled; or it carries what performing the operation gave when
    it was done, after attempts at it that were not; or it has an error of the reactor
    (it was cancelled, its descriptor is none or cannot be waited for, or epoll
    failed) and what the last attempt left.  No operation is completed with the result
    it was started with only. *)
Theorem completions_explained setup c s st
    (Hsetup : io_setup setup c) (Hallowed : Forall respects setup)
    (Henter : scheduler.run_enter (sched c) = (true, s))
    (Hrun : rtc respectful_step (mkIo (set_sched s c) (starts setup) []) st) :
  Forall explained (io_completed st).
Proof.
  assert (io_inv true (mkIo (set_sched s c) (starts setup) [])) as Hinv
    by (apply initial_inv; by exists setup, c, s).
  assert (results (set_sched s c)) as Hc.
  { destruct Hsetup as (one & i & t & qs & w & Hqs & Hn & Hw & Hg & _ & Hok & Hcalls).
    destruct (begin_spec one i t qs w Hqs Hn Hw Hg) as (B1 & B2 & _).
    assert (results c) as Hc.
    { eapply results_calls; [exact B1|done..|]. split; [|apply begin_in_service].
      by apply (results_nothing waits_attempted is_explained Waits). }
    unfold scheduler.run_enter in Henter. destruct (_ =? 0); [done|]. injection Henter as <-.
    apply (results_steady c); [by apply steady_set_sched| |done].
    apply results_sched; [apply Hc|apply Hc|constructor]. }
  assert (forall st0, rtc respectful_step st0 st -> io_inv true st0 -> results (io_context st0) ->
    Forall explained (io_completed st0) -> Forall explained (io_completed st)) as Hind.
  { clear. intros st0 Hrun. induction Hrun as [|st1 st2 st3 Hstep _ IH]; [done|]. intros Hinv Hc Hex.
    destruct Hstep as (script & Hscript & Hr & Hstep). apply IH.
    - eapply good_step_inv; [exact Hinv|]. by exists script.
    - destruct Hstep as [c started over b cp c' E]. simpl in *.
      by destruct (results_round _ _ _ _ _ (ii_loop _ _ Hinv) Hscript Hr E Hc).
    - destruct Hstep as [c started over b cp c' E]. simpl in *.
      destruct (results_round _ _ _ _ _ (ii_loop _ _ Hinv) Hscript Hr E Hc) as [_ Hcp].
      apply Forall_app. split; [done|]. destruct cp as [x|]; [|constructor].
      constructor; [by apply Hcp|constructor]. }
  apply (Hind _ Hrun Hinv Hc). constructor.
Qed.
End Explained.

(** * An example *)

(** The example of [IoContextSpec]: one read that starts with no result, one post. *)
Definition ex_starts (id : positive) (r : reactor_op.t) : Prop :=
  id = 10%positive /\ r = reactor_op.new ec_success.
Definition ex_posts (cp : completion) : Prop := cp = mkCompletion 11 ec_success 0.
Definition ex_waits (id : positive) : Prop := False.

Lemma ex_respects : Forall (respects ex_starts ex_posts ex_waits) ex_setup.
Proof. by repeat constructor. Qed.

Lemma ex_completed :
  io_completed (io_rounds 5 ex_start) = [mkCompletion 11 ec_success 0; mkCompletion 10 ec_success 5].
Proof. by vm_compute. Qed.

Lemma completions_explained_witness :
  io_setup ex_setup ex_context /\ Forall (respects ex_starts ex_posts ex_waits) ex_setup /\
  scheduler.run_enter (sched ex_context) = (true, ex_entered) /\
  Forall (explained ex_starts ex_posts ex_waits) (io_completed (io_rounds 5 ex_start)).
Proof.
  assert (scheduler.run_enter (sched ex_context) = (true, ex_entered)) as Henter by by vm_compute.
  split; [exact ex_io_setup|]. split; [exact ex_respects|]. split; [exact Henter|].
  apply (completions_explained ex_starts ex_posts ex_waits ex_setup ex_context ex_entered
    (io_rounds 5 ex_start) ex_io_setup ex_respects Henter).
  apply io_rounds_related. intros st1 st2 Hs. exists []. split; [apply script_ok_nil|].
  by split; [constructor|].
Defined.
