(* ===== verification/RangeConnect.v ===== *)
(** [async_connect] of a sequence of endpoints ([impl/connect.hpp]) and of one
    ([basic_socket.hpp], [detail/reactive_socket_service.hpp],
    [detail/reactive_socket_connect_op.hpp]).

    The composed operations are the handlers of the attempts they start; between its
    calls an operation is its state, and each call ends with what it does next
    ([connect_step]).  A run ([drive]) feeds an operation with the results of its
    attempts; it is compared with the loop of [asio::connect]. *)

From S2P Require Import Prelude.
From S2P Require Import AsioError.
From S2P Require Import SocketOps.
From S2P Require Import SocketStream.
From S2P Require Import EpollReactor.
From S2P Require Import SocketService.
From S2P Require Import SocketServiceSpec.
From S2P Require Import Connecting.
From S2P Require Import IoContextSpec.
From S2P Require Import EpollSockets.

(** * One attempt *)

(** [reactive_socket_connect_op_base::do_perform]. *)
Definition connect_do_perform (s : Z) (op : reactor_op.t) :
    sys (reactor_op.status * reactor_op.t) :=
  '(over, ec) ← non_blocking_connect s (reactor_op.ec_ op);
  mret (if (over : bool) then reactor_op.done else reactor_op.not_done,
        reactor_op.mk ec (reactor_op.bytes_transferred_ op)).

Section Attempt.
Context {R : Type} `{SocketReactor R}.

(** [async_connect] of a socket: whether the handler was posted, with its error,
    because the socket could not be opened. *)
Definition socket_async_connect (impl : implementation) (e : ip.endpoint) (op : queued_op)
    (is_continuation : bool) : svc R (implementation * option error_code) :=
  '(impl, open_ec) ←
    (if negb (is_open (base impl)) then open impl (ip.endpoint_protocol e) ec_success
     else mret (impl, ec_success));
  if ec_is_error open_ec then mret (impl, Some open_ec)
  else
    b ← do_start_connect_op (base impl) op is_continuation e;
    mret (mkImplementation b (protocol_ impl), None).

(** The call of an attempt: [socket_.close(ec)] and [socket_.async_connect]. *)
Definition start_attempt (impl : implementation) (e : ip.endpoint) (op : queued_op)
    (is_continuation : bool) (ec : error_code) : svc R (implementation * option error_code) :=
  '(impl, _) ← socket_close impl ec;
  socket_async_connect impl e op is_continuation.

End Attempt.

(** * The composed operations *)

(** What a call of an operation ends with: it starts an attempt, or posts itself with
    an error, or calls its handler. *)
Inductive connect_step (A : Type) :=
  | tries (e : ip.endpoint)
  | posts (ec : error_code)
  | calls (ec : error_code) (a : A).
Arguments tries {A} e.
Arguments posts {A} ec.
Arguments calls {A} ec a.

(** [base_from_connect_condition::check_condition]. *)
Definition check_condition := call_connect_condition.

Definition connect_condition : Type := error_code -> ip.endpoint -> bool.

(** ** [range_connect_op] *)

Record range_connect_op := mkRangeOp {
  endpoints_ : list ip.endpoint;
  index_ : nat
}.

Definition set_index (i : nat) (op : range_connect_op) : range_connect_op :=
  mkRangeOp (endpoints_ op) i.

(** The handler's argument: [ec || iter == end ? endpoint() : *iter]. *)
Definition result_endpoint (ec : error_code) (iter : list ip.endpoint) : ip.endpoint :=
  match iter with
  | e :: _ => if ec_is_error ec then ip.no_endpoint else e
  | [] => ip.no_endpoint
  end.

(** The top of the loop, at [iter]. *)
Definition range_round (cond : connect_condition) (ec : error_code) (start : bool)
    (iter : list ip.endpoint) (op : range_connect_op) :
    range_connect_op * connect_step ip.endpoint :=
  let iter := check_condition cond ec iter in
  let op := set_index (length (endpoints_ op) - length iter) op in
  match iter with
  | e :: _ => (op, tries e)
  | [] => if start then (op, posts not_found) else (op, calls ec (result_endpoint ec iter))
  end.

(** [process]; [start] is whether it is 1, [socket_open] whether the socket is open. *)
Definition process (cond : connect_condition) (ec : error_code) (start socket_open cancelled : bool)
    (op : range_connect_op) : range_connect_op * connect_step ip.endpoint :=
  let iter := drop (index_ op) (endpoints_ op) in
  if start then range_round cond ec true iter op
  else
    match iter with
    | [] => (op, calls ec (result_endpoint ec iter))
    | _ :: next =>
        if negb socket_open then (op, calls operation_aborted (result_endpoint operation_aborted iter))
        else if negb (ec_is_error ec) then (op, calls ec (result_endpoint ec iter))
        else if cancelled then (op, calls operation_aborted (result_endpoint operation_aborted iter))
        else range_round cond ec false next (set_index (S (index_ op)) op)
    end.

Definition range_connect_start (cond : connect_condition) (endpoints : list ip.endpoint) :
    range_connect_op * connect_step ip.endpoint :=
  process cond ec_success true false false (mkRangeOp endpoints 0).

(** ** [iterator_connect_op]

    Its state is the iterator: what is left of the range. *)

Definition iterator_round (cond : connect_condition) (ec : error_code) (start : bool)
    (iter_ : list ip.endpoint) : list ip.endpoint * connect_step (list ip.endpoint) :=
  let iter_ := check_condition cond ec iter_ in
  match iter_ with
  | e :: _ => (iter_, tries e)
  | [] => if start then (iter_, posts not_found) else (iter_, calls ec iter_)
  end.

Definition iterator_connect (cond : connect_condition) (ec : error_code)
    (start socket_open cancelled : bool) (iter_ : list ip.endpoint) :
    list ip.endpoint * connect_step (list ip.endpoint) :=
  if start then iterator_round cond ec true iter_
  else
    match iter_ with
    | [] => (iter_, calls ec iter_)
    | _ :: next =>
        if negb socket_open then (iter_, calls operation_aborted iter_)
        else if negb (ec_is_error ec) then (iter_, calls ec iter_)
        else if cancelled then (iter_, calls operation_aborted iter_)
        else iterator_round cond ec false next
    end.

Definition iterator_connect_start (cond : connect_condition) (endpoints : list ip.endpoint) :
    list ip.endpoint * connect_step (list ip.endpoint) :=
  iterator_connect cond ec_success true false false endpoints.

(** ** Runs *)

(** The end of an attempt: its error, whether the socket is open then, and whether
    the operation was cancelled meanwhile. *)
Record attempt := mkAttempt {
  at_ec : error_code;
  at_open : bool;
  at_cancelled : bool
}.

(** An operation and what it does next, on the attempts to come: the endpoints it
    tries, and what its handler is called with, if it is.  What becomes of the socket
    does not matter to an operation that was posted, as it has no endpoint left. *)
Fixpoint drive {S A} (op : error_code -> bool -> bool -> bool -> S -> S * connect_step A)
    (attempts : list attempt) (s : S * connect_step A) :
    list ip.endpoint * option (error_code * A) :=
  match s.2, attempts with
  | tries e, a :: attempts =>
      let '(tried, r) := drive op attempts (op (at_ec a) false (at_open a) (at_cancelled a) s.1) in
      (e :: tried, r)
  | tries e, [] => ([e], None)
  | posts ec, _ =>
      match (op ec false true false s.1).2 with
      | calls ec a => ([], Some (ec, a))
      | _ => ([], None)
      end
  | calls ec a, _ => ([], Some (ec, a))
  end.

Definition async_connect_range (cond : connect_condition) (endpoints : list ip.endpoint)
    (attempts : list attempt) : list ip.endpoint * option (error_code * ip.endpoint) :=
  drive (process cond) attempts (range_connect_start cond endpoints).

Definition async_connect_iterator (cond : connect_condition) (endpoints : list ip.endpoint)
    (attempts : list attempt) : list ip.endpoint * option (error_code * list ip.endpoint) :=
  drive (iterator_connect cond) attempts (iterator_connect_start cond endpoints).

(** * Connecting in sequence

    What both the loop and the operations do: the endpoints that the condition accepts
    are tried in order, until an attempt has no error.  [results] are the errors of the
    attempts. *)

Fixpoint sequential (cond : connect_condition) (ec : error_code) (iter : list ip.endpoint)
    (results : list error_code) : list ip.endpoint * option (error_code * list ip.endpoint) :=
  match check_condition cond ec iter with
  | [] => ([], Some (if ec_is_error ec then ec else not_found, []))
  | e :: rest =>
      match results with
      | [] => ([e], None)
      | r :: results =>
          if ec_is_error r then
            let '(tried, o) := sequential cond r rest results in (e :: tried, o)
          else ([e], Some (r, e :: rest))
      end
  end.

Lemma condition_suffix cond ec iter : check_condition cond ec iter `suffix_of` iter.
Proof.
  induction iter as [|e iter IH]; [done|]. simpl. destruct (cond ec e); [done|].
  by apply suffix_cons_r.
Qed.

Lemma drop_suffix {A} (l k : list A) : k `suffix_of` l -> drop (length l - length k) l = k.
Proof. intros [h ->]. rewrite length_app, Nat.add_sub. apply drop_app_length. Qed.

(** An attempt that nobody disturbs leaves the socket open. *)
Definition undisturbed (a : attempt) : Prop := at_open a = true /\ at_cancelled a = false.

Lemma drive_calls {S A} (op : error_code -> bool -> bool -> bool -> S -> S * connect_step A)
    attempts (s : S) ec (a : A) : drive op attempts (s, calls ec a) = ([], Some (ec, a)).
Proof. by destruct attempts. Qed.

(** The error a round starts with: none in the first. *)
Definition round_error (start : bool) (ec : error_code) : Prop := ec_is_error ec = negb start.

Lemma iterator_round_sequential cond attempts start ec iter :
  Forall undisturbed attempts -> round_error start ec ->
  drive (iterator_connect cond) attempts (iterator_round cond ec start iter) =
  sequential cond ec iter (at_ec <$> attempts).
Proof.
  revert start ec iter. induction attempts as [|a attempts IH]; intros start ec iter Ha He;
    unfold iterator_round; simpl;
    (destruct (check_condition cond ec iter) as [|e rest]; simpl;
     [unfold round_error in He; destruct start; simpl; by rewrite He|]); [done|].
  apply Forall_cons in Ha as [[Ho Hc] Ha]. rewrite Ho, Hc. simpl.
  destruct (ec_is_error (at_ec a)) eqn:Hr; simpl; [|by rewrite drive_calls].
  by rewrite (IH false (at_ec a) rest).
Qed.

Definition with_endpoint (r : list ip.endpoint * option (error_code * list ip.endpoint)) :
    list ip.endpoint * option (error_code * ip.endpoint) :=
  (r.1, (fun x => (x.1, result_endpoint x.1 x.2)) <$> r.2).

Lemma range_round_sequential cond attempts start ec iter op :
  Forall undisturbed attempts -> round_error start ec -> iter `suffix_of` endpoints_ op ->
  drive (process cond) attempts (range_round cond ec start iter op) =
  with_endpoint (sequential cond ec iter (at_ec <$> attempts)).
Proof.
  revert start ec iter op. induction attempts as [|a attempts IH]; intros start ec iter op Ha He Hs;
    unfold range_round; simpl;
    pose proof (transitivity (condition_suffix cond ec iter) Hs) as Hsuf;
    pose proof (drop_suffix _ _ Hsuf) as Hd;
    (destruct (check_condition cond ec iter) as [|e rest]; simpl in *;
     [unfold round_error in He; destruct start; rewrite He; simpl; unfold process; simpl; by rewrite ?Hd|]);
    [done|].
  apply Forall_cons in Ha as [[Ho Hc] Ha]. rewrite Hd, Ho, Hc. simpl.
  destruct (ec_is_error (at_ec a)) eqn:Hr; simpl; [|rewrite drive_calls; unfold with_endpoint; simpl; by rewrite Hr].
  assert (rest `suffix_of` endpoints_ op) as Hrest
    by (transitivity (e :: rest); [by apply suffix_cons_r|done]).
  rewrite (IH false (at_ec a) rest) by done.
  by destruct (sequential cond (at_ec a) rest _).
Qed.

(** ** The loop of [connect] *)

Section Loop.
Context {R : Type} `{SocketReactor R}.

(** The attempts of a run of the loop, with their errors. *)
Inductive connect_log (cond : connect_condition) :
    implementation -> list ip.endpoint -> error_code -> R * sys_trace ->
    list (ip.endpoint * error_code) -> list ip.endpoint * implementation * error_code ->
    R * sys_trace -> Prop :=
  | log_end impl iter ec s :
      check_condition cond ec iter = [] ->
      connect_log cond impl iter ec s [] ([], impl, if ec_is_error ec then ec else not_found) s
  | log_connected impl iter ec r t e rest impl1 ec1 r1 t1 impl2 ec2 r2 t2 :
      check_condition cond ec iter = e :: rest ->
      socket_close impl ec r t = Some (Ret (impl1, ec1), r1, t1) ->
      socket_connect impl1 e ec1 r1 t1 = Some (Ret (impl2, ec2), r2, t2) ->
      ec_is_error ec2 = false ->
      connect_log cond impl iter ec (r, t) [(e, ec2)] (e :: rest, impl2, ec2) (r2, t2)
  | log_failed impl iter ec r t e rest impl1 ec1 r1 t1 impl2 ec2 r2 t2 log x s :
      check_condition cond ec iter = e :: rest ->
      socket_close impl ec r t = Some (Ret (impl1, ec1), r1, t1) ->
      socket_connect impl1 e ec1 r1 t1 = Some (Ret (impl2, ec2), r2, t2) ->
      ec_is_error ec2 = true ->
      connect_log cond impl2 rest ec2 (r2, t2) log x s ->
      connect_log cond impl iter ec (r, t) ((e, ec2) :: log) x s.

Lemma connect_loop_log fuel cond impl iter ec r t x r' t' :
  connect_loop fuel cond impl iter ec r t = Some (Ret x, r', t') ->
  exists log, connect_log cond impl iter ec (r, t) log x (r', t').
Proof.
  revert impl iter ec r t. induction fuel as [|fuel IH]; intros impl iter ec r t E; [done|].
  simpl in E. destruct (call_connect_condition cond ec iter) as [|e rest] eqn:Ec.
  { injection E as <- <- <-. exists []. by constructor. }
  apply svc_bind_Ret in E as ([impl1 ec1] & r1 & t1 & E1 & E).
  apply svc_bind_Ret in E as ([impl2 ec2] & r2 & t2 & E2 & E).
  destruct (ec_is_error ec2) eqn:He; simpl in E.
  - destruct (IH _ _ _ _ _ E) as [log Hlog]. exists ((e, ec2) :: log). by eapply log_failed.
  - injection E as <- <- <-. exists [(e, ec2)]. by eapply log_connected.
Qed.

Lemma connect_log_sequential cond impl iter ec s log iter' impl' ec' s' :
  connect_log cond impl iter ec s log (iter', impl', ec') s' ->
  sequential cond ec iter log.*2 = (log.*1, Some (ec', iter')).
Proof.
  remember (iter', impl', ec') as x eqn:Ex. intros Hlog. revert Ex.
  induction Hlog as [impl iter ec s E|impl iter ec r t e rest impl1 ec1 r1 t1 impl2 ec2 r2 t2 E _ _ He
    |impl iter ec r t e rest impl1 ec1 r1 t1 impl2 ec2 r2 t2 log x s E _ _ He _ IH]; intros Ex; simpl;
    rewrite E.
  - by injection Ex as <- <- <-.
  - injection Ex as <- <- <-. by rewrite He.
  - rewrite He. change (list_fmap _ _ snd log) with log.*2. by rewrite (IH Ex).
Qed.

(** C21. Connecting asynchronously is connecting: if the attempts of the asynchronous
    operations, of which nobody closes the socket or cancels the operation, have the
    errors that those of [asio::connect] had, they try the same endpoints in the same
    order, and their handler is called with the same error and endpoint. *)
Theorem async_connect_agrees cond endpoints impl (r : R) t iter impl' ec r' t'
    (E : connect_range impl endpoints cond r t = Some (Ret (iter, impl', ec), r', t')) :
  exists log, connect_log cond impl endpoints ec_success (r, t) log (iter, impl', ec) (r', t') /\
  forall attempts, at_ec <$> attempts = log.*2 -> Forall undisturbed attempts ->
  async_connect_range cond endpoints attempts = (log.*1, Some (ec, result_endpoint ec iter)) /\
  async_connect_iterator cond endpoints attempts = (log.*1, Some (ec, iter)).
Proof.
  destruct (connect_loop_log _ _ _ _ _ _ _ _ _ _ E) as [log Hlog]. exists log. split; [done|].
  pose proof (connect_log_sequential _ _ _ _ _ _ _ _ _ _ Hlog) as Hs.
  intros attempts Ha Hu. unfold async_connect_range, async_connect_iterator. split.
  - unfold range_connect_start, process. simpl.
    rewrite (range_round_sequential cond attempts true) by done. unfold with_endpoint.
    simpl. rewrite drop_0, Ha. by rewrite Hs.
  - unfold iterator_connect_start, iterator_connect.
    rewrite (iterator_round_sequential cond attempts true) by done. by rewrite Ha, Hs.
Qed.

(** ** Sockets that cannot be opened *)

(** An error of [open] leaves the socket closed. *)
Lemma open_failed impl p ec r t impl' ec' r' t' :
  is_open (base impl) = false -> open impl p ec r t = Some (Ret (impl', ec'), r', t') ->
  ec_is_error ec' = true -> is_open (base impl') = false.
Proof.
  intros Hc ([b ec1] & r1 & t1 & E1 & E2)%svc_bind_Ret He. injection E2 as <- <- _ _. simpl.
  unfold do_open in E1. rewrite Hc in E1.
  apply svc_bind_Ret in E1 as ([s ec2] & r2 & t2 & _ & E1).
  destruct (s =? invalid_socket); [by injection E1 as <- <- _ _|].
  apply svc_bind_Ret in E1 as ([err p'] & r3 & t3 & _ & E1).
  destruct (negb (err =? 0)); [|injection E1 as <- <- _ _; discriminate He].
  apply svc_bind_Ret in E1 as ([] & r4 & t4 & _ & E1). injection E1 as <- _ _ _. exact Hc.
Qed.

(** When the socket for an endpoint cannot be opened (no sockets of its family, or no
    descriptor left), the asynchronous operations give up: their handler is called with
    [operation_aborted], whatever the error was, and the endpoints that are left are not
    tried, unlike by [asio::connect]. *)
Theorem unopened_attempt_aborts impl e op b ec (r : R) t impl' open_ec r' t'
    (E : start_attempt impl e op b ec r t = Some (Ret (impl', Some open_ec), r', t')) :
  ec_is_error open_ec = true /\ is_open (base impl') = false /\
  forall endpoints attempts cancelled,
  let failed := mkAttempt open_ec (is_open (base impl')) cancelled in
  async_connect_range default_connect_condition (e :: endpoints) (failed :: attempts) =
    ([e], Some (operation_aborted, ip.no_endpoint)) /\
  async_connect_iterator default_connect_condition (e :: endpoints) (failed :: attempts) =
    ([e], Some (operation_aborted, e :: endpoints)).
Proof.
  apply svc_bind_Ret in E as ([impl1 ec1] & r1 & t1 & E1 & E).
  assert (is_open (base impl1) = false) as Hc by (by rewrite (socket_close_closed _ _ _ _ _ _ _ _ E1)).
  apply svc_bind_Ret in E as ([impl2 ec2] & r2 & t2 & E2 & E).
  rewrite Hc in E2. cbn [negb] in E2. destruct (ec_is_error ec2) eqn:He.
  - injection E as <- <- <- <-. split; [done|].
    pose proof (open_failed _ _ _ _ _ _ _ _ _ Hc E2 He) as Ho. split; [done|].
    intros endpoints attempts cancelled. rewrite Ho. unfold async_connect_range, async_connect_iterator.
    split.
    + unfold range_connect_start, process, range_round. simpl. rewrite Nat.sub_diag. simpl.
      by rewrite drive_calls.
    + simpl. by rewrite drive_calls.
  - by apply svc_bind_Ret in E as (? & ? & ? & _ & [=]).
Qed.

End Loop.

(** * Examples *)

(** The two endpoints of [EpollSockets]: the first refuses, the second takes the
    connection. *)
Definition both_endpoints : list ip.endpoint := [first_endpoint; second_endpoint].

Definition as_attempts (results : list error_code) : list attempt :=
  (fun ec => mkAttempt ec true false) <$> results.

Lemma as_attempts_undisturbed results :
  at_ec <$> as_attempts results = results /\ Forall undisturbed (as_attempts results).
Proof.
  split.
  - unfold as_attempts. rewrite <- list_fmap_compose. apply list_fmap_id.
  - by apply Forall_fmap, Forall_true.
Qed.

Example refused_then_connected :
  async_connect_range default_connect_condition both_endpoints
    (as_attempts [mk_error_code 111 system_category; ec_success]) =
  (both_endpoints, Some (ec_success, second_endpoint)).
Proof. by vm_compute. Qed.

Lemma async_connect_agrees_witness :
  exists r' t' impl',
    connect_range new_implementation both_endpoints default_connect_condition ex_begin client_trace =
      Some (Ret ([second_endpoint], impl', ec_success), r', t') /\
    exists log, async_connect_range default_connect_condition both_endpoints (as_attempts log.*2) =
    (log.*1, Some (ec_success, second_endpoint)).
Proof.
  assert (exists r' t' impl',
    connect_range new_implementation both_endpoints default_connect_condition ex_begin client_trace =
      Some (Ret ([second_endpoint], impl', ec_success), r', t'))
    as (r' & t' & impl' & E) by (do 3 eexists; by vm_compute).
  exists r', t', impl'. split; [exact E|].
  destruct (async_connect_agrees _ _ _ _ _ _ _ _ _ _ E) as (log & _ & Ha).
  destruct (as_attempts_undisturbed log.*2) as [Hr Hu].
  exists log. exact (proj1 (Ha _ Hr Hu)).
Defined.

(** There are no sockets of the first endpoint's family: the second is not tried. *)
Definition no_family : error_code := mk_error_code 97 system_category.

Definition unopened_trace : sys_trace :=
  [(SysSocket AF_INET6 SOCK_STREAM IPPROTO_TCP, mkAnswer (-1) 97 [] 0)].

Definition ex_connect_op : queued_op := mkOp 20 20 (reactor_op.new ec_success).

Lemma unopened_attempt_aborts_witness :
  exists impl' c',
    start_attempt new_implementation first_endpoint ex_connect_op false ec_success ex_begin
      unopened_trace = Some (Ret (impl', Some no_family), c', []) /\
    async_connect_range default_connect_condition both_endpoints
      [mkAttempt no_family (is_open (base impl')) false] =
    ([first_endpoint], Some (operation_aborted, ip.no_endpoint)).
Proof.
  assert (exists impl' c',
    start_attempt new_implementation first_endpoint ex_connect_op false ec_success ex_begin
      unopened_trace = Some (Ret (impl', Some no_family), c', []))
    as (impl' & c' & E) by (do 2 eexists; by vm_compute).
  exists impl', c'. split; [exact E|].
  destruct (unopened_attempt_aborts _ _ _ _ _ _ _ _ _ _ _ E) as (_ & _ & Ha).
  exact (proj1 (Ha [second_endpoint] [] false)).
Defined.
