(* ===== verification/Resolver.v ===== *)
(** [ip/basic_resolver.hpp], [ip/basic_resolver_query.hpp], [ip/basic_resolver_results.hpp],
    [ip/basic_resolver_iterator.hpp], [detail/resolver_service.hpp] and [getaddrinfo] of
    [detail/impl/socket_ops.ipp]: the resolution of names, and the connection of the
    client from its host and port.

    The system's [getaddrinfo] is a parameter; the lists it returns are on a heap until
    [freeaddrinfo] is called. *)

From S2P Require Import Prelude.
From S2P Require Import ObjectRepr.
From S2P Require Import AsioError.
From S2P Require Import SocketOps.
From S2P Require Import SocketService.
From S2P Require Import SocketServiceSpec.
From S2P Require Import Connecting.
From S2P Require Import EpollReactor.
From S2P Require Import IoContextSpec.
From S2P Require Import EpollSockets.

(** * The system *)

Definition AF_UNSPEC : Z := 0.

(** The members of [addrinfo] that the code reads; a list of them is linked by
    [ai_next]. *)
Record addrinfo := mkAddrinfo {
  ai_family : Z;
  ai_addrlen : Z;
  ai_addr : bytes;
  ai_canonname : option bytes
}.

#[global] Instance addrinfo_eq_dec : EqDecision addrinfo.
Proof. solve_decision. Defined.

Record addrinfo_hints := mkHints {
  hint_flags : Z;
  hint_family : Z;
  hint_socktype : Z;
  hint_protocol : Z
}.

(** What [::getaddrinfo] returns: its result, [errno] and the list. *)
Record gai_answer := mkGai {
  gai_error : Z;
  gai_errno : Z;
  gai_list : list addrinfo
}.

Definition EAI_BADFLAGS : Z := -1.
Definition EAI_NONAME : Z := -2.
Definition EAI_AGAIN : Z := -3.
Definition EAI_FAIL : Z := -4.
Definition EAI_NODATA : Z := -5.
Definition EAI_FAMILY : Z := -6.
Definition EAI_SOCKTYPE : Z := -7.
Definition EAI_SERVICE : Z := -8.
Definition EAI_ADDRFAMILY : Z := -9.
Definition EAI_MEMORY : Z := -10.
Definition EAI_SYSTEM : Z := -11.

Definition translate_addrinfo_error (error errno : Z) : error_code :=
  if error =? 0 then ec_success
  else if error =? EAI_AGAIN then make_error_code error.host_not_found_try_again
  else if error =? EAI_BADFLAGS then make_error_code error.invalid_argument
  else if error =? EAI_FAIL then make_error_code error.no_recovery
  else if error =? EAI_FAMILY then make_error_code error.address_family_not_supported
  else if error =? EAI_MEMORY then make_error_code error.no_memory
  else if (error =? EAI_NONAME) || (error =? EAI_ADDRFAMILY) || (error =? EAI_NODATA) then
    make_error_code error.host_not_found
  else if error =? EAI_SERVICE then make_error_code error.service_not_found
  else if error =? EAI_SOCKTYPE then make_error_code error.socket_type_not_supported
  else mk_error_code errno system_category.

(** The address lists that were not freed. *)
Definition addrinfo_heap : Type := list (list addrinfo).

(** What a C string stands for: the characters before the first null. *)
Fixpoint c_str (s : bytes) : bytes :=
  match s with
  | [] => []
  | b :: s => if bool_decide (b = Byte.x00) then [] else b :: c_str s
  end.

(** A C string that is empty is passed as a null pointer. *)
Definition c_string (s : bytes) : option bytes :=
  if bool_decide (c_str s = []) then None else Some (c_str s).

Section Resolver.
Context (sys_getaddrinfo : option bytes -> option bytes -> addrinfo_hints -> gai_answer).

(** [socket_ops::getaddrinfo]: the list is null if it is empty. *)
Definition getaddrinfo (host service : bytes) (h : addrinfo_hints) (heap : addrinfo_heap) :
    list addrinfo * error_code * addrinfo_heap :=
  let a := sys_getaddrinfo (c_string host) (c_string service) h in
  (gai_list a, translate_addrinfo_error (gai_error a) (gai_errno a),
   if bool_decide (gai_list a = []) then heap else gai_list a :: heap).

(** [freeaddrinfo], of a list that is on the heap. *)
Definition freeaddrinfo (ai : list addrinfo) (heap : addrinfo_heap) : outcome addrinfo_heap :=
  match heap with
  | top :: heap => if bool_decide (top = ai) then Ret heap else Undef
  | [] => Undef
  end.

(** The destructor of [auto_addrinfo]. *)
Definition destroy_auto_addrinfo (ai : list addrinfo) (heap : addrinfo_heap) :
    outcome addrinfo_heap :=
  if bool_decide (ai = []) then Ret heap else freeaddrinfo ai heap.

(** * Queries and results *)

Record basic_resolver_query := mkQuery {
  hints_ : addrinfo_hints;
  host_name_ : bytes;
  service_name_ : bytes
}.

(** The constructor from a host and a service. *)
Definition new_query (host service : bytes) (resolve_flags : Z) : basic_resolver_query :=
  let p := ip.endpoint_protocol ip.no_endpoint in
  mkQuery (mkHints resolve_flags AF_UNSPEC (ip.type p) (ip.protocol_ p)) host service.

Record basic_resolver_entry := mkEntry {
  endpoint_ : ip.endpoint;
  entry_host_name_ : bytes;
  entry_service_name_ : bytes
}.

(** Results and iterators: a shared vector of entries, which may be null, and an index. *)
Record basic_resolver_results := mkResults {
  values_ : option (list basic_resolver_entry);
  index_ : nat
}.

Definition no_results : basic_resolver_results := mkResults None 0.

(** [sizeof(data_)], the union of the two addresses. *)
Definition endpoint_capacity : Z := 28.

(** [endpoint()], [resize] and [memcpy] of an address: what [size()] bytes are then. *)
Definition endpoint_of (ai : addrinfo) : outcome ip.endpoint :=
  if negb (ip.resize_fits (ai_addrlen ai)) then
    Throw (asio_system_error (ec_value invalid_argument))
  else if (endpoint_capacity <? ai_addrlen ai) || (zlen (ai_addr ai) <? ai_addrlen ai) then Undef
  else
    let data_ := ip.no_endpoint ++ replicate 12 Byte.x00 in
    let data_ := std_copy (take (Z.to_nat (ai_addrlen ai)) (ai_addr ai)) data_ in
    Ret (take (if ip.is_v4 data_ then 16 else 28) data_).

(** The loop of [create]. *)
Fixpoint create_entries (address_info : list addrinfo) (host service : bytes) :
    outcome (list basic_resolver_entry) :=
  match address_info with
  | [] => Ret []
  | ai :: next =>
      if (ai_family ai =? AF_INET) || (ai_family ai =? AF_INET6) then
        e ← endpoint_of ai;
        es ← create_entries next host service;
        Ret (mkEntry e host service :: es)
      else create_entries next host service
  end.

Definition create (address_info : list addrinfo) (host_name service_name : bytes) :
    outcome basic_resolver_results :=
  match address_info with
  | [] => Ret no_results
  | ai :: _ =>
      let actual_host_name := default host_name (ai_canonname ai) in
      es ← create_entries address_info actual_host_name service_name;
      Ret (mkResults (Some es) 0)
  end.

(** [resolver_service::resolve]: the list is freed however the function is left. *)
Definition service_resolve (qry : basic_resolver_query) (heap : addrinfo_heap) :
    outcome (basic_resolver_results * error_code) * outcome addrinfo_heap :=
  let '(address_info, ec, heap) :=
    getaddrinfo (host_name_ qry) (service_name_ qry) (hints_ qry) heap in
  let results :=
    if ec_is_error ec then Ret no_results
    else create address_info (host_name_ qry) (service_name_ qry) in
  ((fun r => (r, ec)) <$> results, destroy_auto_addrinfo address_info heap).

(** [basic_resolver::resolve] of a host and a service, without flags. *)
Definition resolve (host service : bytes) (heap : addrinfo_heap) :
    outcome basic_resolver_results * outcome addrinfo_heap :=
  let '(r, heap) := service_resolve (new_query host service 0) heap in
  (('(results, ec) ← r;
    if ec_is_error ec then Throw (asio_system_error (ec_value ec)) else Ret results), heap).

(** ** Iterating *)

Definition begin_ (r : basic_resolver_results) : basic_resolver_results := mkResults (values_ r) 0.

(** [equal] to the end, which is default-constructed. *)
Definition is_end (it : basic_resolver_results) : bool :=
  match values_ it with
  | None => true
  | Some _ => false
  end.

(** [dereference], as an endpoint. *)
Definition dereference (it : basic_resolver_results) : outcome ip.endpoint :=
  vs ← deref (values_ it);
  e ← deref (vs !! index_ it);
  Ret (endpoint_ e).

(** [increment]: at the end the iterator is reset. *)
Definition increment (it : basic_resolver_results) : outcome basic_resolver_results :=
  vs ← deref (values_ it);
  if bool_decide (S (index_ it) = length vs) then Ret no_results
  else Ret (mkResults (values_ it) (S (index_ it))).

(** The endpoints that a loop from the iterator to the end visits. *)
Fixpoint visited (fuel : nat) (it : basic_resolver_results) : outcome (list ip.endpoint) :=
  if is_end it then Ret []
  else
    match fuel with
    | O => Undef
    | S fuel =>
        e ← dereference it;
        it ← increment it;
        es ← visited fuel it;
        Ret (e :: es)
    end.

Definition range_of (r : basic_resolver_results) : outcome (list ip.endpoint) :=
  visited (S (length (default [] (values_ r)))) (begin_ r).

(** * The client *)

Definition kIp : bytes := lit "127.0.01".
Definition kPort : bytes := lit "8383".

Context {R : Type} `{SocketReactor R}.

(** [main] of [client.cpp] up to the connection: the socket is connected to what the
    resolver found. *)
Definition client_connection (heap : addrinfo_heap) : svc R implementation :=
  match (resolve kIp kPort heap).1 with
  | Ret results =>
      endpoints ← call_reactor (fun r => (fun es => (es, r)) <$> range_of results);
      client_socket endpoints
  | Throw e => throw e
  | Undef => fun r t => Some (Undef, r, t)
  end.

End Resolver.

(** * What the system documents *)

(** A socket address of the internet, as long as it says. *)
Definition internet_address (ai : addrinfo) : Prop :=
  (ai_family ai = AF_INET /\ ai_addrlen ai = 16 \/ ai_family ai = AF_INET6 /\ ai_addrlen ai = 28) /\
  zlen (ai_addr ai) = ai_addrlen ai /\ sa_family (ai_addr ai) = ai_family ai.

(** A list of addresses, or a reason why there is none. *)
Definition gai_ok (a : gai_answer) : Prop :=
  (gai_error a = 0 /\ gai_list a <> [] /\ Forall internet_address (gai_list a)) \/
  (gai_error a <> 0 /\ gai_list a = [] /\ (gai_error a = EAI_SYSTEM -> 0 < gai_errno a) /\
   EAI_SYSTEM <= gai_error a <= -1).

#[global] Instance internet_address_dec ai : Decision (internet_address ai).
Proof. unfold internet_address. apply _. Defined.

Lemma translate_error a :
  gai_ok a -> ec_is_error (translate_addrinfo_error (gai_error a) (gai_errno a)) = negb (gai_error a =? 0).
Proof.
  intros [(-> & _)|(Hne & _ & He & Hr)]; [done|]. unfold translate_addrinfo_error.
  unfold EAI_SYSTEM, EAI_AGAIN, EAI_BADFLAGS, EAI_FAIL, EAI_FAMILY, EAI_MEMORY, EAI_NONAME,
    EAI_ADDRFAMILY, EAI_NODATA, EAI_SERVICE, EAI_SOCKTYPE in *.
  rewrite (proj2 (Z.eqb_neq _ _) Hne).
  repeat match goal with
  | |- context [if gai_error a =? ?n then _ else _] => destruct (Z.eqb_spec (gai_error a) n); [done|]
  | |- context [if _ || _ then _ else _] =>
      destruct (Z.eqb_spec (gai_error a) (-2)), (Z.eqb_spec (gai_error a) (-9)),
        (Z.eqb_spec (gai_error a) (-5)); simpl; try done
  end.
  unfold ec_is_error. simpl. apply negb_true_iff, Z.eqb_neq.
  assert (gai_error a = -11) as E by lia. specialize (He E). lia.
Qed.

(** * Entries *)

Lemma endpoint_of_address ai : internet_address ai -> endpoint_of ai = Ret (ai_addr ai).
Proof.
  intros (Hf & Hl & Hs). unfold endpoint_of, ip.resize_fits, endpoint_capacity.
  assert (ai_addrlen ai = 16 \/ ai_addrlen ai = 28) as Hlen by tauto.
  rewrite (proj2 (Z.leb_le (ai_addrlen ai) 128)) by lia.
  rewrite (proj2 (Z.ltb_ge 28 (ai_addrlen ai))) by lia.
  rewrite (proj2 (Z.ltb_ge (zlen (ai_addr ai)) (ai_addrlen ai))) by lia. simpl negb. cbv iota. simpl orb. cbv iota.
  assert (Z.to_nat (ai_addrlen ai) = length (ai_addr ai)) as -> by (unfold zlen in Hl; lia).
  rewrite firstn_all. unfold std_copy. f_equal.
  assert (ip.is_v4 (ai_addr ai ++ drop (length (ai_addr ai)) (ip.no_endpoint ++ replicate 12 Byte.x00)) =
    (ai_family ai =? AF_INET)) as ->.
  { unfold ip.is_v4. rewrite <- Hs. f_equal. unfold sa_family, le_field.
    rewrite take_app_le; [done|]. unfold zlen in Hl. lia. }
  unfold zlen in Hl. destruct Hf as [[-> Hn]|[-> Hn]]; simpl.
  - rewrite take_app_length' by lia. done.
  - rewrite take_ge; [by rewrite drop_ge, app_nil_r by (simpl; lia)|].
    rewrite length_app, length_drop. simpl. lia.
Qed.

Lemma create_entries_addresses l host service :
  Forall internet_address l ->
  create_entries l host service = Ret ((fun ai => mkEntry (ai_addr ai) host service) <$> l).
Proof.
  induction 1 as [|ai l Ha _ IH]; [done|]. simpl. rewrite (endpoint_of_address ai Ha), IH.
  destruct Ha as ([[-> _]|[-> _]] & _); done.
Qed.

(** ** Iterating *)

Lemma visited_from fuel vs i :
  (length vs - i < fuel)%nat -> (i < length vs)%nat ->
  visited fuel (mkResults (Some vs) i) = Ret (endpoint_ <$> drop i vs).
Proof.
  revert i. induction fuel as [|fuel IH]; intros i Hf Hi; [lia|]. simpl.
  destruct (lookup_lt_is_Some_2 vs i Hi) as [v Hv]. unfold dereference, increment. simpl.
  rewrite Hv. simpl. rewrite (drop_S vs v i Hv). simpl.
  destruct (decide (S i = length vs)) as [E|Hne].
  - rewrite bool_decide_true by done. rewrite drop_ge by lia. simpl. by destruct fuel.
  - rewrite bool_decide_false by done. simpl. rewrite IH by lia. done.
Qed.

Lemma range_of_entries vs i : vs <> [] -> range_of (mkResults (Some vs) i) = Ret (endpoint_ <$> vs).
Proof.
  intros Hne. assert (0 < length vs)%nat by (destruct vs; [done|simpl; lia]).
  unfold range_of, begin_. cbn [values_ default]. rewrite visited_from by (cbn; lia). done.
Qed.

(** Results that hold a vector without an entry are not empty for a loop: it reads the
    first entry.  So it is when all the addresses are of other families. *)
Lemma range_of_nothing i : range_of (mkResults (Some []) i) = Undef.
Proof. done. Qed.

Lemma create_other_families l host service :
  l <> [] -> Forall (fun ai => ai_family ai <> AF_INET /\ ai_family ai <> AF_INET6) l ->
  create l host service = Ret (mkResults (Some []) 0).
Proof.
  intros Hne Hl. destruct l as [|ai l]; [done|]. unfold create.
  assert (forall h, create_entries (ai :: l) h service = Ret []) as ->; [|done].
  intros h. clear Hne. induction Hl as [|ai' l' [H1 H2] _ IH]; [done|]. simpl.
  by rewrite (proj2 (Z.eqb_neq _ _) H1), (proj2 (Z.eqb_neq _ _) H2).
Qed.

(** * The resolver *)

Section Spec.
Context (sys_getaddrinfo : option bytes -> option bytes -> addrinfo_hints -> gai_answer).

(** Whatever is resolved, the address list is freed, once. *)
Lemma resolve_frees host service heap : (resolve sys_getaddrinfo host service heap).2 = Ret heap.
Proof.
  unfold resolve, service_resolve, getaddrinfo, destroy_auto_addrinfo. simpl.
  case_bool_decide; [done|]. simpl. by rewrite bool_decide_true.
Qed.

(** The query of [resolve(host, service)]. *)
Definition asked (host service : bytes) : gai_answer :=
  sys_getaddrinfo (c_string host) (c_string service) (mkHints 0 AF_UNSPEC SOCK_STREAM IPPROTO_TCP).

Lemma resolve_addresses host service heap :
  gai_ok (asked host service) ->
  let a := asked host service in
  if gai_error a =? 0 then
    exists results, (resolve sys_getaddrinfo host service heap).1 = Ret results /\
    range_of results = Ret (ai_addr <$> gai_list a)
  else
    exists code, code <> 0 /\ (resolve sys_getaddrinfo host service heap).1 = Throw (asio_system_error code).
Proof.
  intros Hok a. pose proof (translate_error _ Hok) as He. fold a in Hok, He.
  unfold resolve, service_resolve, getaddrinfo. cbn [hints_ host_name_ service_name_ new_query].
  change (sys_getaddrinfo _ _ _) with a. cbn [fst snd].
  destruct (gai_error a =? 0) eqn:E0; cbn [negb] in He; rewrite He.
  - destruct Hok as [(_ & Hne & Ha)|(Hne & _)]; [|by apply Z.eqb_eq in E0].
    unfold create. destruct (gai_list a) as [|ai l]; [done|].
    rewrite create_entries_addresses by done. eexists. split; [by cbn; rewrite He|].
    rewrite range_of_entries by done. by rewrite !fmap_cons, <- list_fmap_compose.
  - cbn. rewrite He. eexists. split; [by apply error_code_nonzero|done].
Qed.

Context {R : Type} `{SocketReactorLaws R}.

(** C20. The client's connection to [kIp] and [kPort], whatever the resolver answers:
    the name is resolved to TCP addresses of any family; if it cannot be, the client
    throws, without a call for a socket.  Otherwise the addresses are tried in the order
    of the answer, each once, until one takes the connection, to which the socket is
    then connected; if none does, the client throws after it tried all.  The addresses
    are freed, and nothing is undefined. *)
Theorem client_reaches_server heap (r : R) t T o r' t'
    (Hgai : gai_ok (asked kIp kPort))
    (Hr : reactor_inv r) (Ht : table_ok T t) (He : Forall sets_errno t)
    (E : client_connection sys_getaddrinfo heap r t = Some (o, r', t')) :
  (resolve sys_getaddrinfo kIp kPort heap).2 = Ret heap /\
  let addresses := ai_addr <$> gai_list (asked kIp kPort) in
  exists pre, t = pre ++ t' /\
  match o with
  | Ret impl =>
      is_open (base impl) = true /\
      exists before e after, addresses = before ++ e :: after /\
      attempts pre = endpoint_family <$> before ++ [e] /\
      (exists cs, cs `sublist_of` before /\ connects pre = cs ++ [e]) /\
      established (socket_of impl) e pre
  | Throw x =>
      exists code, x = asio_system_error code /\ code <> 0 /\
      attempts pre = endpoint_family <$> addresses /\ connects pre `sublist_of` addresses /\
      (gai_error (asked kIp kPort) <> 0 -> pre = [] /\ r' = r)
  | Undef => False
  end.
Proof.
  split; [apply resolve_frees|]. cbv zeta. pose proof (resolve_addresses _ _ heap Hgai) as Hres.
  cbv zeta in Hres. unfold client_connection in E. set (a := asked kIp kPort) in *.
  destruct (Z.eqb_spec (gai_error a) 0) as [E0|E0].
  - destruct Hres as (results & Eres & Hrange). rewrite Eres in E.
    unfold mbind, svc_bind, call_reactor in E. rewrite Hrange in E. simpl in E.
    destruct (client_connects _ _ _ _ _ _ _ Hr Ht He E) as (pre & -> & Ho). exists pre.
    split; [done|]. destruct o as [impl|x|]; [done| |done].
    destruct Ho as (code & -> & Hc & Ha & Hcs & _). exists code. by split_and!.
  - destruct Hres as (code & Hc & Eres). rewrite Eres in E. unfold throw in E. injection E as <- <- <-.
    exists []. split; [done|]. exists code. split; [done|]. split; [done|].
    destruct Hgai as [(? & _)|(_ & -> & _)]; [done|]. by split_and!.
Qed.

End Spec.

(** * Examples *)

(** The host has an address of each family. *)
Definition ex_getaddrinfo (host service : option bytes) (h : addrinfo_hints) : gai_answer :=
  mkGai 0 0 [mkAddrinfo AF_INET6 28 first_endpoint None; mkAddrinfo AF_INET 16 second_endpoint None].

Lemma ex_gai_ok : gai_ok (asked ex_getaddrinfo kIp kPort).
Proof.
  left. split; [done|]. split; [done|].
  by apply (bool_decide_unpack (Forall internet_address [_; _])).
Qed.

Lemma client_reaches_server_witness :
  gai_ok (asked ex_getaddrinfo kIp kPort) /\ table_ok ex_table client_trace /\
  Forall sets_errno client_trace /\
  exists impl c pre,
    client_connection ex_getaddrinfo [] ex_begin client_trace = Some (Ret impl, c, []) /\
    client_trace = pre ++ [] /\ is_open (base impl) = true.
Proof.
  split; [exact ex_gai_ok|]. split; [exact client_table|].
  assert (Forall sets_errno client_trace) as He
    by (by apply (bool_decide_unpack (Forall sets_errno client_trace))).
  split; [exact He|].
  assert (exists impl c, client_connection ex_getaddrinfo [] ex_begin client_trace =
    Some (Ret impl, c, [])) as (impl & c & E) by (eexists _, _; by vm_compute).
  destruct (client_reaches_server ex_getaddrinfo [] ex_begin client_trace ex_table (Ret impl) c []
    ex_gai_ok ex_begin_ok client_table He E) as (_ & pre & Et & Ho & _).
  exists impl, c, pre. exact (conj E (conj Et Ho)).
Defined.
