(* ===== verification/ReactorSetup.v ===== *)
(** The reactor's own descriptors: its construction, its destruction and its restart
    after a fork ([detail/impl/epoll_reactor.ipp]), with the interrupter
    ([detail/impl/eventfd_select_interrupter.ipp]); and [move_timer] of
    [detail/impl/epoll_reactor.hpp].

    The calls that create descriptors are a parameter like the others
    ([DescriptorCalls]); [DescriptorLaws] states what they do to the table of open
    descriptors.  An operation runs on the descriptors of the reactor and its context,
    and keeps the state reached when it throws. *)

From S2P Require Import Prelude.
From S2P Require Import AsioError.
From S2P Require Import SocketStream.
From S2P Require Import TimerQueue.
From S2P Require Import Scheduler.
From S2P Require Import EpollReactor.

(** * The calls *)

Definition EINVAL : Z := 22.
Definition ENOSYS : Z := 38.
Definition EPOLL_CLOEXEC : Z := 0x80000.
Definition TFD_CLOEXEC : Z := 0x80000.
Definition EFD_CLOEXEC : Z := 0x80000.
Definition EFD_NONBLOCK : Z := 0x800.
Definition CLOCK_MONOTONIC : Z := 1.
Definition F_SETFD : Z := 2.
Definition F_SETFL : Z := 4.
Definition FD_CLOEXEC : Z := 1.
Definition O_NONBLOCK : Z := 0x800.
Definition epoll_size : Z := 20000.

(** A descriptor, or [errno]. *)
Definition new_fd : Type := Z + Z.

Class DescriptorCalls (W : Type) := {
  eventfd : Z -> Z -> W -> new_fd * W;
  pipe : W -> (Z * Z + Z) * W;
  epoll_create1 : Z -> W -> new_fd * W;
  epoll_create : Z -> W -> new_fd * W;
  timerfd_create : Z -> Z -> W -> new_fd * W;
  fcntl : Z -> Z -> Z -> W -> W;
  close_own : Z -> W -> W;
  write_counter : Z -> Z -> W -> W
}.

(** * The descriptors of the reactor *)

Record own_fds := mkOwn {
  read_descriptor_ : Z;
  write_descriptor_ : Z;
  epoll_fd_ : Z
}.

(** The timer descriptor is a member of the reactor's state. *)
Definition set_timer_fd {W} (fd : Z) (c : context W) : context W :=
  let r := react c in
  set_react (reactor.mk (reactor.interrupter_ r) fd (reactor.timer_queues_ r) (reactor.shutdown_ r)
    (reactor.descriptors r) (reactor.live_list_ r) (reactor.free_list_ r)) c.

(** [interrupter_.read_descriptor()] is what the reactor's operations use. *)
Definition set_interrupter {W} (fd : Z) (c : context W) : context W :=
  let r := react c in
  set_react (reactor.mk fd (reactor.timer_fd_ r) (reactor.timer_queues_ r) (reactor.shutdown_ r)
    (reactor.descriptors r) (reactor.live_list_ r) (reactor.free_list_ r)) c.

Definition fd_state (W : Type) : Type := own_fds * context W.

(** An operation, with the state it leaves. *)
Definition fd_op (W A : Type) : Type := fd_state W -> outcome A * fd_state W.

#[global] Instance fd_ret {W} : MRet (fd_op W) := fun A a s => (Ret a, s).

#[global] Instance fd_bind {W} : MBind (fd_op W) := fun A B f m s =>
  match m s with
  | (Ret a, s) => f a s
  | (Throw e, s) => (Throw e, s)
  | (Undef, s) => (Undef, s)
  end.

Definition fd_throw {W A} (e : exn) : fd_op W A := fun s => (Throw e, s).

(** An assignment to the descriptors, and reading them. *)
Definition put_own {W} (f : own_fds -> own_fds) : fd_op W () := fun '(o, c) => (Ret (), (f o, c)).
Definition get_own {W} : fd_op W own_fds := fun s => (Ret s.1, s).
Definition get_context {W} : fd_op W (context W) := fun s => (Ret s.2, s).
Definition put_context {W} (c : context W) : fd_op W () := fun s => (Ret (), (s.1, c)).

(** A call of the system. *)
Definition call {W A} (f : W -> A * W) : fd_op W A := fun '(o, c) =>
  let '(a, w) := f (world c) in (Ret a, (o, set_world w c)).
Definition call_ {W} (f : W -> W) : fd_op W () := call (fun w => ((), f w)).

(** A function of the reactor. *)
Definition in_reactor {W} (f : context W -> outcome (context W)) : fd_op W () := fun '(o, c) =>
  match f c with
  | Ret c => (Ret (), (o, c))
  | Throw e => (Throw e, (o, c))
  | Undef => (Undef, (o, c))
  end.

Definition set_read (fd : Z) (o : own_fds) : own_fds := mkOwn fd (write_descriptor_ o) (epoll_fd_ o).
Definition set_write (fd : Z) (o : own_fds) : own_fds := mkOwn (read_descriptor_ o) fd (epoll_fd_ o).
Definition set_epoll (fd : Z) (o : own_fds) : own_fds :=
  mkOwn (read_descriptor_ o) (write_descriptor_ o) fd.

Section Setup.
Context {W : Type} `{Kernel W} `{!DescriptorCalls W}.

(** The interrupter's descriptor is also known to the reactor. *)
Definition assign_read (fd : Z) : fd_op W () :=
  _ ← put_own (set_read fd);
  c ← get_context;
  put_context (set_interrupter fd c).

(** ** [eventfd_select_interrupter] *)

Definition set_nonblocking_cloexec (fd : Z) : fd_op W () :=
  _ ← call_ (fcntl fd F_SETFL O_NONBLOCK);
  call_ (fcntl fd F_SETFD FD_CLOEXEC).

(** [write_descriptor_ = read_descriptor_ = fd]. *)
Definition assign_both (fd : Z) : fd_op W () :=
  _ ← assign_read fd;
  put_own (set_write fd).

(** The fallback: a pipe. *)
Definition open_pipe : fd_op W () :=
  r ← call pipe;
  match r with
  | inl (fd0, fd1) =>
      _ ← assign_read fd0;
      _ ← set_nonblocking_cloexec fd0;
      _ ← put_own (set_write fd1);
      set_nonblocking_cloexec fd1
  | inr errno => fd_throw (asio_system_error errno)
  end.

Definition open_descriptors : fd_op W () :=
  r ← call (eventfd 0 (Z.lor EFD_CLOEXEC EFD_NONBLOCK));
  match r with
  | inl fd => assign_both fd
  | inr errno =>
      _ ← assign_both (-1);
      if errno =? EINVAL then
        r ← call (eventfd 0 0);
        match r with
        | inl fd =>
            _ ← assign_both fd;
            set_nonblocking_cloexec fd
        | inr _ =>
            _ ← assign_both (-1);
            open_pipe
        end
      else open_pipe
  end.

Definition close_descriptors : fd_op W () :=
  o ← get_own;
  _ ← (if negb (write_descriptor_ o =? -1) && negb (write_descriptor_ o =? read_descriptor_ o)
       then call_ (close_own (write_descriptor_ o)) else mret ());
  if negb (read_descriptor_ o =? -1) then call_ (close_own (read_descriptor_ o)) else mret ().

Definition recreate : fd_op W () :=
  _ ← close_descriptors;
  _ ← put_own (set_write (-1));
  _ ← assign_read (-1);
  open_descriptors.

(** [interrupter_.interrupt()]. *)
Definition interrupt_interrupter : fd_op W () :=
  o ← get_own;
  call_ (write_counter (write_descriptor_ o) 1).

(** ** [epoll_reactor] *)

Definition do_epoll_create : fd_op W Z :=
  r ← call (epoll_create1 EPOLL_CLOEXEC);
  match r with
  | inl fd => mret fd
  | inr errno =>
      if (errno =? EINVAL) || (errno =? ENOSYS) then
        r ← call (epoll_create epoll_size);
        match r with
        | inl fd => _ ← call_ (fcntl fd F_SETFD FD_CLOEXEC); mret fd
        | inr errno => fd_throw (asio_system_error errno)
        end
      else fd_throw (asio_system_error errno)
  end.

Definition do_timerfd_create : fd_op W Z :=
  r ← call (timerfd_create CLOCK_MONOTONIC TFD_CLOEXEC);
  match r with
  | inl fd => mret fd
  | inr errno =>
      if errno =? EINVAL then
        r ← call (timerfd_create CLOCK_MONOTONIC 0);
        match r with
        | inl fd => _ ← call_ (fcntl fd F_SETFD FD_CLOEXEC); mret fd
        | inr _ => mret (-1)
        end
      else mret (-1)
  end.

Definition assign_timer_fd (fd : Z) : fd_op W () :=
  c ← get_context;
  put_context (set_timer_fd fd c).

(** [epoll_ctl], whose result is not looked at. *)
Definition epoll_add (fd events : Z) (source : event_source) : fd_op W () :=
  in_reactor (fun c => Ret (snd (ctl EPOLL_CTL_ADD fd events source c))).

(** The interrupter and the timer descriptor are added to epoll. *)
Definition add_own : fd_op W () :=
  o ← get_own;
  _ ← epoll_add (read_descriptor_ o) (Z.lor EPOLLIN (Z.lor EPOLLERR EPOLLET)) at_interrupter;
  _ ← interrupt_interrupter;
  c ← get_context;
  if has_timer_fd c then
    epoll_add (reactor.timer_fd_ (react c)) (Z.lor EPOLLIN EPOLLERR) at_timer_fd
  else mret ().

(** The members before they are initialised. *)
Definition uninitialised (s : scheduler.t) (w : W) : fd_state W :=
  (mkOwn (-1) (-1) (-1), mkContext s (reactor.mk (-1) (-1) [] false ∅ [] []) w).

(** The constructor; when a member's initialisation throws, the members before it are
    destroyed. *)
Definition construct_reactor (s : scheduler.t) (w : W) : outcome () * fd_state W :=
  match open_descriptors (uninitialised s w) with
  | (Ret _, st) =>
      match do_epoll_create st with
      | (Ret fd, st) =>
          (_ ← put_own (set_epoll fd);
           fd ← do_timerfd_create;
           _ ← assign_timer_fd fd;
           add_own) st
      | (Throw e, st) => (Throw e, (close_descriptors st).2)
      | (Undef, st) => (Undef, st)
      end
  | (Throw e, st) => (Throw e, st)
  | (Undef, st) => (Undef, st)
  end.

(** The destructor, with that of the interrupter. *)
Definition destroy_reactor : fd_op W () :=
  o ← get_own;
  c ← get_context;
  _ ← (if negb (epoll_fd_ o =? -1) then call_ (close_own (epoll_fd_ o)) else mret ());
  _ ← (if has_timer_fd c then call_ (close_own (reactor.timer_fd_ (react c))) else mret ());
  close_descriptors.

Inductive fork_event := fork_prepare | fork_parent | fork_child.

(** All the registered descriptors are added again. *)
Fixpoint register_again (states : list positive) : fd_op W () :=
  match states with
  | [] => mret ()
  | p :: states =>
      c ← get_context;
      match load_descriptor p c with
      | Ret d =>
          let '(result, c) :=
            ctl EPOLL_CTL_ADD (descriptor_state.descriptor_ d) (descriptor_state.registered_events_ d)
              (at_descriptor p) c in
          _ ← put_context c;
          match result with
          | None => register_again states
          | Some errno => fd_throw (asio_system_error errno)
          end
      | _ => fun st => (Undef, st)
      end
  end.

Definition notify_fork (fork_ev : fork_event) : fd_op W () :=
  match fork_ev with
  | fork_child =>
      o ← get_own;
      _ ← (if negb (epoll_fd_ o =? -1) then call_ (close_own (epoll_fd_ o)) else mret ());
      _ ← put_own (set_epoll (-1));
      fd ← do_epoll_create;
      _ ← put_own (set_epoll fd);
      c ← get_context;
      _ ← (if has_timer_fd c then call_ (close_own (reactor.timer_fd_ (react c))) else mret ());
      _ ← assign_timer_fd (-1);
      fd ← do_timerfd_create;
      _ ← assign_timer_fd fd;
      _ ← recreate;
      _ ← add_own;
      _ ← in_reactor update_timeout;
      c ← get_context;
      register_again (reactor.live_list_ (react c))
  | _ => mret ()
  end.

(** ** [move_timer] *)

(** The operations of the target are cancelled; those of the source are the target's. *)
Definition move_timer (k : positive) (target source : timer_ptr) (c : context W) :
    outcome (context W) :=
  q ← timer_queue_at k (react c);
  '(_, ops, q) ← TimerQueue.cancel_timer target [] (2 ^ 64 - 1) q;
  q ← TimerQueue.move_timer target source q;
  Ret (post_deferred_completions (expired <$> ops) (set_react (store_timer_queue k q (react c)) c)).

End Setup.
