(* ===== verification/ReactorSetupSpec.v ===== *)
(** The reactor neither leaks its own descriptors nor closes one that is not its own,
    whatever call fails while it is constructed, restarted after a fork or destroyed;
    and when a restart throws.

    The table of open descriptors is those of others and those of the reactor
    ([table]); the operations are followed by their weakest preconditions ([wp]). *)

From S2P Require Import Prelude.
From S2P Require Import AsioError.
From S2P Require Import SocketStream.
From S2P Require Import TimerQueue.
From S2P Require Import Scheduler.
From S2P Require Import EpollReactor.
From S2P Require Import ReactorSpec.
From S2P Require Import IoContext.
From S2P Require Import IoContextSpec.
From S2P Require Import EpollSockets.
From S2P Require Import ReactorSetup.

(** * The table of descriptors *)

(** The descriptors a reactor holds; -1 is none. *)
Definition own (r w e t : Z) : gset Z := {[r; w; e; t]} ∖ {[-1]}.

(** [F] are the descriptors [T] of others and those of the reactor, each held once
    (an eventfd is read and written through the same descriptor). *)
Record table (T F : gset Z) (r w e t : Z) : Prop := {
  tb_fds : F = T ∪ own r w e t;
  tb_disj : T ## own r w e t;
  tb_epoll : e <> -1 -> e ∉ own r w (-1) t;
  tb_timer : t <> -1 -> t ∉ own r w (-1) (-1)
}.

Section Table.
Context (T F : gset Z).

Lemma table_none : table T T (-1) (-1) (-1) (-1).
Proof. unfold own. split; set_solver. Qed.

Lemma table_fresh fd r w e t :
  fd ∉ F -> table T F r w e t -> table ({[fd]} ∪ T) ({[fd]} ∪ F) r w e t.
Proof. intros Hfd [-> Hd He Ht]. split; [set_solver..|done|done]. Qed.

Lemma table_others r w e t : table T F r w e t -> T ⊆ F.
Proof. intros [-> _ _ _]. set_solver. Qed.

(** What the reactor holds is open. *)
Lemma table_open fd r w e t :
  fd <> -1 -> fd ∈ ({[r; w; e; t]} : gset Z) -> table T F r w e t -> fd ∈ F.
Proof. unfold own. intros Hfd Hin [-> _ _ _]. set_solver. Qed.

Lemma table_take_epoll fd r w t :
  fd <> -1 -> fd ∉ T -> table ({[fd]} ∪ T) F r w (-1) t -> table T F r w fd t.
Proof. unfold own. intros Hfd HT [-> Hd _ Ht]. split; [set_solver..|done]. Qed.

Lemma table_take_timer fd r w e :
  fd <> -1 -> fd ∉ T -> table ({[fd]} ∪ T) F r w e (-1) -> table T F r w e fd.
Proof.
  unfold own. intros Hfd HT [-> Hd He _]. split; [set_solver| | |]; [set_solver|set_solver|].
  set_solver.
Qed.

Lemma table_take_both fd e t :
  fd <> -1 -> fd ∉ T -> table ({[fd]} ∪ T) F (-1) (-1) e t -> table T F fd fd e t.
Proof. unfold own. intros Hfd HT [-> Hd He Ht]. split; set_solver. Qed.

Lemma table_take_read fd e t :
  fd <> -1 -> fd ∉ T -> table ({[fd]} ∪ T) F (-1) (-1) e t -> table T F fd (-1) e t.
Proof. unfold own. intros Hfd HT [-> Hd He Ht]. split; set_solver. Qed.

Lemma table_take_write fd r e t :
  fd <> -1 -> fd ∉ T -> table ({[fd]} ∪ T) F r (-1) e t -> table T F r fd e t.
Proof. unfold own. intros Hfd HT [-> Hd He Ht]. split; set_solver. Qed.

Lemma table_close_epoll r w e t :
  e <> -1 -> table T F r w e t -> table T (F ∖ {[e]}) r w (-1) t.
Proof. unfold own. intros He0 [-> Hd He Ht]. specialize (He He0). split; set_solver. Qed.

Lemma table_close_timer r w e t :
  t <> -1 -> table T F r w e t -> table T (F ∖ {[t]}) r w e (-1).
Proof. unfold own. intros Ht0 [-> Hd He Ht]. specialize (Ht Ht0). split; set_solver. Qed.

Lemma table_close_write r w e t :
  w <> -1 -> w <> r -> table T F r w e t -> table T (F ∖ {[w]}) r (-1) e t.
Proof. unfold own. intros Hw Hr [-> Hd He Ht]. split; set_solver. Qed.

(** The last of the interrupter's descriptors. *)
Lemma table_close_read r w e t :
  r <> -1 -> w = -1 \/ w = r -> table T F r w e t -> table T (F ∖ {[r]}) (-1) (-1) e t.
Proof. unfold own. intros Hr [-> | ->] [-> Hd He Ht]; split; set_solver. Qed.

End Table.

(** What the system documents of the calls: a new descriptor was not open, closing one
    that is open removes it from the table, and the other calls change none.  Nothing is
    said of closing a descriptor that is not open, as one that was closed before: it may
    be another's by then. *)
Class DescriptorLaws (W : Type) `{KernelLaws W} `{!DescriptorCalls W} := {
  fds : W -> gset Z;
  creates (w : W) (r : new_fd * W) : Prop :=
    given r.2 ⊆ given w /\
    match r.1 with
    | inl fd => fd <> -1 /\ (fd ∉ fds w) /\ fds r.2 = {[fd]} ∪ fds w
    | inr _ => fds r.2 = fds w
    end;
  fds_eventfd n flags w : creates w (eventfd n flags w);
  fds_epoll_create1 flags w : creates w (epoll_create1 flags w);
  fds_epoll_create n w : creates w (epoll_create n w);
  fds_timerfd clock flags w : creates w (timerfd_create clock flags w);
  fds_pipe w :
    given (pipe w).2 ⊆ given w /\
    match (pipe w).1 with
    | inl (fd0, fd1) =>
        fd0 <> -1 /\ fd1 <> -1 /\ (fd0 ∉ fds w) /\ (fd1 ∉ {[fd0]} ∪ fds w) /\
        fds (pipe w).2 = {[fd1]} ∪ ({[fd0]} ∪ fds w)
    | inr _ => fds (pipe w).2 = fds w
    end;
  fds_close fd w :
    fd ∈ fds w -> given (close_own fd w) ⊆ given w /\ fds (close_own fd w) = fds w ∖ {[fd]};
  fds_fcntl fd cmd arg w : given (fcntl fd cmd arg w) ⊆ given w /\ fds (fcntl fd cmd arg w) = fds w;
  fds_write fd n w : given (write_counter fd n w) ⊆ given w /\ fds (write_counter fd n w) = fds w;
  fds_ctl op fd events source w : fds (epoll_ctl op fd events source w).2 = fds w;
  fds_settime abs sec nsec w : fds (timerfd_settime abs sec nsec w) = fds w;
  fds_clock w : fds (clock_now w).2 = fds w
}.

Section Spec.
Context {W : Type} `{DescriptorLaws W}.

(** * Weakest preconditions *)

Definition wp {A} (m : fd_op W A) (Q : A -> fd_state W -> Prop) (E : fd_state W -> Prop)
    (st : fd_state W) : Prop :=
  match m st with
  | (Ret a, st) => Q a st
  | (Throw _, st) => E st
  | (Undef, _) => False
  end.

Lemma wp_ret {A} (a : A) Q E st : Q a st -> wp (mret a) Q E st.
Proof. done. Qed.

Lemma wp_bind {A B} (m : fd_op W A) (f : A -> fd_op W B) Q E st :
  wp m (fun a st => wp (f a) Q E st) E st -> wp (m ≫= f) Q E st.
Proof. unfold wp, mbind, fd_bind. by destruct (m st) as [[a|e|] st']. Qed.

Lemma wp_throw {A} e (Q : A -> fd_state W -> Prop) E st : E st -> wp (fd_throw e) Q E st.
Proof. done. Qed.

Lemma wp_weaken {A} (m : fd_op W A) (Q Q' : A -> fd_state W -> Prop) (E E' : fd_state W -> Prop) st :
  wp m Q E st -> (forall a st', Q a st' -> Q' a st') -> (forall st', E st' -> E' st') -> wp m Q' E' st.
Proof. unfold wp. destruct (m st) as [[a|e|] st']; auto. Qed.

(** * States *)

(** The members are [r], [w], [e] and [t], and the reactor is well formed. *)
Record fields (r w e t : Z) (st : fd_state W) : Prop := {
  fl_own : st.1 = mkOwn r w e;
  fl_timer : reactor.timer_fd_ (react st.2) = t;
  fl_interrupter : reactor.interrupter_ (react st.2) = r;
  fl_ok : context_ok st.2
}.

Definition table_of (st : fd_state W) : gset Z := fds (world st.2).

(** The members hold what they say. *)
Definition at_ (T : gset Z) (r w e t : Z) (st : fd_state W) : Prop :=
  fields r w e t st /\ table T (table_of st) r w e t.

Lemma context_ok_world w (c : context W) : given w ⊆ given (world c) -> context_ok c -> context_ok (set_world w c).
Proof. intros Hg [Hok Hd]. split; [done|]. simpl. by etrans. Qed.

Lemma fields_world r w e t o c w' :
  given w' ⊆ given (world c) -> fields r w e t (o, c) -> fields r w e t (o, set_world w' c).
Proof. intros Hg [? ? ? ?]. split; try done. by apply context_ok_world. Qed.

(** Calls that change no descriptor. *)
Lemma wp_quiet r w e t F (f : W -> W) Q E st :
  (forall x, given (f x) ⊆ given x /\ fds (f x) = fds x) ->
  fields r w e t st -> table_of st = F ->
  (forall st', fields r w e t st' -> table_of st' = F -> Q () st') -> wp (call_ f) Q E st.
Proof.
  intros Hf Hfl HF HQ. destruct st as [o c]. unfold wp, call_, call. simpl.
  destruct (Hf (world c)) as [Hg Hfd]. apply HQ; [by apply fields_world|].
  unfold table_of in *. simpl in *. by rewrite Hfd.
Qed.

Lemma wp_close r w e t F fd Q E st :
  fields r w e t st -> table_of st = F -> fd ∈ F ->
  (forall st', fields r w e t st' -> table_of st' = F ∖ {[fd]} -> Q () st') ->
  wp (call_ (close_own fd)) Q E st.
Proof.
  intros Hfl HF Hin HQ. destruct st as [o c]. unfold table_of in HF. simpl in HF. subst F.
  unfold wp, call_, call. simpl. destruct (fds_close fd (world c) Hin) as [Hg Hfd].
  apply HQ; [by apply fields_world|done].
Qed.

(** A call that creates a descriptor: it is another's until it is assigned. *)
Lemma wp_create T r w e t (f : W -> new_fd * W) Q E st :
  (forall x, creates x (f x)) -> at_ T r w e t st ->
  (forall fd st', fd <> -1 -> fd ∉ T -> at_ ({[fd]} ∪ T) r w e t st' -> Q (inl fd) st') ->
  (forall errno st', at_ T r w e t st' -> Q (inr errno) st') ->
  wp (call f) Q E st.
Proof.
  intros Hf [Hfl Ht] HQ HQ'. destruct st as [o c]. unfold wp, call.
  destruct (Hf (world c)) as [Hg Hc]. destruct (f (world c)) as [[fd|errno] x]; simpl in *.
  - destruct Hc as (Hne & Hfresh & Hfd). unfold table_of in *. simpl in *. apply HQ; [done| |].
    + rewrite (tb_fds _ _ _ _ _ _ Ht) in Hfresh. set_solver.
    + split; [by apply fields_world|]. unfold table_of. simpl. rewrite Hfd. by apply table_fresh.
  - apply HQ'. split; [by apply fields_world|]. unfold table_of in *. simpl in *. by rewrite Hc.
Qed.

(** Assignments to the members. *)
Lemma wp_assign_epoll r w e e' t F Q E st :
  fields r w e t st -> table_of st = F ->
  (forall st', fields r w e' t st' -> table_of st' = F -> Q () st') ->
  wp (put_own (set_epoll e')) Q E st.
Proof.
  intros [Ho ? ? ?] HF HQ. destruct st as [o c]. simpl in *. subst o. unfold wp, put_own. by apply HQ.
Qed.

Lemma wp_assign_write r w w' e t F Q E st :
  fields r w e t st -> table_of st = F ->
  (forall st', fields r w' e t st' -> table_of st' = F -> Q () st') ->
  wp (put_own (set_write w')) Q E st.
Proof.
  intros [Ho ? ? ?] HF HQ. destruct st as [o c]. simpl in *. subst o. unfold wp, put_own. by apply HQ.
Qed.

Lemma context_ok_interrupter fd (c : context W) : context_ok c -> context_ok (set_interrupter fd c).
Proof. intros [[] Hd]. by split. Qed.

Lemma context_ok_timer_fd fd (c : context W) : context_ok c -> context_ok (set_timer_fd fd c).
Proof. intros [[] Hd]. by split. Qed.

Lemma wp_assign_read r r' w e t F Q E st :
  fields r w e t st -> table_of st = F ->
  (forall st', fields r' w e t st' -> table_of st' = F -> Q () st') ->
  wp (assign_read r') Q E st.
Proof.
  intros [Ho Ht Hi Hok] HF HQ. destruct st as [o c]. simpl in *. subst o.
  unfold assign_read, wp, mbind, fd_bind, put_own, get_context, put_context. simpl.
  apply HQ; [|done]. split; try done. by apply context_ok_interrupter.
Qed.

Lemma wp_assign_timer r w e t t' F Q E st :
  fields r w e t st -> table_of st = F ->
  (forall st', fields r w e t' st' -> table_of st' = F -> Q () st') ->
  wp (assign_timer_fd t') Q E st.
Proof.
  intros [Ho Ht Hi Hok] HF HQ. destruct st as [o c]. simpl in *. subst o.
  unfold assign_timer_fd, wp, mbind, fd_bind, get_context, put_context. simpl.
  apply HQ; [|done]. split; try done. by apply context_ok_timer_fd.
Qed.

Lemma wp_get_own r w e t Q E st :
  fields r w e t st -> Q (mkOwn r w e) st -> wp get_own Q E st.
Proof. intros [Ho ? ? ?] HQ. unfold wp, get_own. simpl. by rewrite Ho. Qed.

Lemma wp_get_context (Q : context W -> fd_state W -> Prop) E st : Q st.2 st -> wp get_context Q E st.
Proof. done. Qed.

Lemma at_fields T r w e t st : at_ T r w e t st -> fields r w e t st.
Proof. by intros [? _]. Qed.

(** Calls and assignments at once, when the table agrees with the members after. *)
Lemma wp_quiet_at T r w e t (f : W -> W) Q E st :
  (forall x, given (f x) ⊆ given x /\ fds (f x) = fds x) -> at_ T r w e t st ->
  (forall st', at_ T r w e t st' -> Q () st') -> wp (call_ f) Q E st.
Proof.
  intros Hf [Hfl Ht] HQ. apply (wp_quiet r w e t (table_of st)); [done..|].
  intros st' Hfl' HF. apply HQ. split; [done|]. by rewrite HF.
Qed.

Lemma wp_fcntl_at T r w e t fd cmd arg Q E st :
  at_ T r w e t st -> (forall st', at_ T r w e t st' -> Q () st') ->
  wp (call_ (fcntl fd cmd arg)) Q E st.
Proof. apply wp_quiet_at. apply fds_fcntl. Qed.

Lemma wp_nonblocking T r w e t fd Q E st :
  at_ T r w e t st -> (forall st', at_ T r w e t st' -> Q () st') ->
  wp (set_nonblocking_cloexec fd) Q E st.
Proof.
  intros Ha HQ. apply wp_bind, (wp_fcntl_at T r w e t); [done|].
  intros st' Ha'. by apply (wp_fcntl_at T r w e t).
Qed.

(** ** The interrupter *)

Lemma wp_assign_both_none T e t Q E st :
  at_ T (-1) (-1) e t st -> (forall st', at_ T (-1) (-1) e t st' -> Q () st') ->
  wp (assign_both (-1)) Q E st.
Proof.
  intros [Hfl Ht] HQ. apply wp_bind, (wp_assign_read (-1) (-1) (-1) e t (table_of st)); [done..|].
  intros st1 Hfl1 HF1. apply (wp_assign_write (-1) (-1) (-1) e t (table_of st)); [done..|].
  intros st2 Hfl2 HF2. apply HQ. split; [done|]. by rewrite HF2.
Qed.

Lemma wp_assign_both T fd e t Q E st :
  fd <> -1 -> fd ∉ T -> at_ ({[fd]} ∪ T) (-1) (-1) e t st ->
  (forall st', at_ T fd fd e t st' -> Q () st') -> wp (assign_both fd) Q E st.
Proof.
  intros Hne HT [Hfl Ht] HQ. apply wp_bind, (wp_assign_read (-1) fd (-1) e t (table_of st)); [done..|].
  intros st1 Hfl1 HF1. apply (wp_assign_write fd (-1) fd e t (table_of st)); [done..|].
  intros st2 Hfl2 HF2. apply HQ. split; [done|]. rewrite HF2. by apply table_take_both.
Qed.

Lemma wp_open_pipe T e t (Q : () -> fd_state W -> Prop) (E : fd_state W -> Prop) st :
  at_ T (-1) (-1) e t st -> (forall r w st', at_ T r w e t st' -> Q () st') ->
  (forall st', at_ T (-1) (-1) e t st' -> E st') -> wp open_pipe Q E st.
Proof.
  intros [Hfl Ht] HQ HE. apply wp_bind. destruct st as [o c]. unfold wp at 1, call.
  destruct (fds_pipe (world c)) as [Hg Hp]. destruct (pipe (world c)) as [[[fd0 fd1]|errno] x]; simpl in *.
  - destruct Hp as (Hn0 & Hn1 & Hf0 & Hf1 & Hfd). unfold table_of in Ht. simpl in Ht.
    pose proof (table_others _ _ _ _ _ _ Ht) as HT.
    pose proof (table_fresh _ _ fd1 _ _ _ _ Hf1 (table_fresh _ _ fd0 _ _ _ _ Hf0 Ht)) as Ht1.
    rewrite <- Hfd in Ht1. clear Ht Hfd.
    apply wp_bind, (wp_assign_read (-1) fd0 (-1) e t (fds x)); [by apply fields_world|done|].
    intros st1 Hfl1 HF1.
    assert (at_ ({[fd1]} ∪ T) fd0 (-1) e t st1) as Ha1.
    { split; [done|]. rewrite HF1. apply table_take_read; [done|set_solver|].
      by replace ({[fd0]} ∪ ({[fd1]} ∪ T)) with ({[fd1]} ∪ ({[fd0]} ∪ T)) by set_solver. }
    apply wp_bind, (wp_nonblocking _ _ _ _ _ _ _ _ _ Ha1). intros st2 [Hfl2 Ht2].
    apply wp_bind, (wp_assign_write fd0 (-1) fd1 e t (table_of st2)); [done..|].
    intros st3 Hfl3 HF3. apply (wp_nonblocking T fd0 fd1 e t); [|intros st4; apply HQ].
    split; [done|]. rewrite HF3. apply table_take_write; [done|set_solver|done].
  - apply HE. split; [by apply fields_world|]. unfold table_of in *. simpl in *. by rewrite Hp.
Qed.

Lemma wp_open T e t (Q : () -> fd_state W -> Prop) (E : fd_state W -> Prop) st :
  at_ T (-1) (-1) e t st -> (forall r w st', at_ T r w e t st' -> Q () st') ->
  (forall st', at_ T (-1) (-1) e t st' -> E st') -> wp open_descriptors Q E st.
Proof.
  intros Ha HQ HE. apply wp_bind, (wp_create T (-1) (-1) e t); [intros x; apply fds_eventfd|done|..].
  - intros fd st1 Hne HT Ha1. apply (wp_assign_both T fd e t); eauto.
  - intros errno st1 Ha1. apply wp_bind, (wp_assign_both_none T e t); [done|]. intros st2 Ha2.
    destruct (errno =? EINVAL); [|by apply (wp_open_pipe T e t)].
    apply wp_bind, (wp_create T (-1) (-1) e t); [intros x; apply fds_eventfd|done|..].
    + intros fd st3 Hne HT Ha3. apply wp_bind, (wp_assign_both T fd e t); [done..|].
      intros st4 Ha4. apply (wp_nonblocking T fd fd e t); eauto.
    + intros errno' st3 Ha3. apply wp_bind, (wp_assign_both_none T e t); [done|].
      intros st4 Ha4. by apply (wp_open_pipe T e t).
Qed.

(** After [close_descriptors] the members are as before, and hold nothing. *)
Lemma wp_close_descriptors T r w e t e' t' (Q : () -> fd_state W -> Prop) E st :
  fields r w e t st -> table T (table_of st) r w e' t' ->
  (forall st', fields r w e t st' -> table T (table_of st') (-1) (-1) e' t' -> Q () st') ->
  wp close_descriptors Q E st.
Proof.
  intros Hfl Ht HQ. apply wp_bind, (wp_get_own r w e t); [done|]. cbn [write_descriptor_ read_descriptor_].
  assert (forall w' st', w' = -1 \/ w' = r -> fields r w e t st' -> table T (table_of st') r w' e' t' ->
    wp (if negb (r =? -1) then call_ (close_own r) else mret ()) Q E st') as Hread.
  { intros w' st' Hw' Hfl' Ht'. destruct (Z.eqb_spec r (-1)) as [->|Hr]; cbn [negb].
    - apply HQ; [done|]. by destruct Hw' as [-> | ->].
    - apply (wp_close r w e t (table_of st')); [done..| |].
      { eapply (table_open _ _ r); [done| |exact Ht']. set_solver +. }
      intros st2 Hfl2 HF2. apply HQ; [done|].
      rewrite HF2. by apply (table_close_read _ _ r w'). }
  apply wp_bind. destruct (Z.eqb_spec w (-1)) as [->|Hw]; cbn [negb andb].
  { apply (Hread (-1)); auto. }
  destruct (Z.eqb_spec w r) as [->|Hwr]; cbn [negb andb]; [apply (Hread r); auto|].
  apply (wp_close r w e t (table_of st)); [done..| |].
  { eapply (table_open _ _ w); [done| |exact Ht]. set_solver +. }
  intros st1 Hfl1 HF1. apply (Hread (-1)); [auto|done|].
  rewrite HF1. by apply table_close_write.
Qed.

Lemma wp_recreate T r w e t (Q : () -> fd_state W -> Prop) (E : fd_state W -> Prop) st :
  at_ T r w e t st -> (forall r' w' st', at_ T r' w' e t st' -> Q () st') ->
  (forall st', at_ T (-1) (-1) e t st' -> E st') -> wp recreate Q E st.
Proof.
  intros [Hfl Ht] HQ HE. apply wp_bind, (wp_close_descriptors T r w e t e t); [done..|].
  intros st1 Hfl1 Ht1. apply wp_bind, (wp_assign_write r w (-1) e t (table_of st1)); [done..|].
  intros st2 Hfl2 HF2. apply wp_bind, (wp_assign_read r (-1) (-1) e t (table_of st1)); [done..|].
  intros st3 Hfl3 HF3. apply (wp_open T e t); [|done..]. split; [done|]. by rewrite HF3.
Qed.

(** ** epoll and the timer *)

Lemma wp_epoll_create T r w e t (Q : Z -> fd_state W -> Prop) (E : fd_state W -> Prop) st :
  at_ T r w e t st ->
  (forall fd st', fd <> -1 -> fd ∉ T -> at_ ({[fd]} ∪ T) r w e t st' -> Q fd st') ->
  (forall st', at_ T r w e t st' -> E st') -> wp do_epoll_create Q E st.
Proof.
  intros Ha HQ HE. apply wp_bind, (wp_create T r w e t); [intros x; apply fds_epoll_create1|done|done|].
  intros errno st1 Ha1. destruct (_ || _); [|by apply HE].
  apply wp_bind, (wp_create T r w e t); [intros x; apply fds_epoll_create|done|..].
  - intros fd st2 Hne HT Ha2. apply wp_bind, (wp_fcntl_at ({[fd]} ∪ T) r w e t); [done|].
    intros st3 Ha3. by apply HQ.
  - intros errno' st2 Ha2. by apply HE.
Qed.

Lemma wp_timerfd_create T r w e t (Q : Z -> fd_state W -> Prop) (E : fd_state W -> Prop) st :
  at_ T r w e t st ->
  (forall fd st', fd <> -1 -> fd ∉ T -> at_ ({[fd]} ∪ T) r w e t st' -> Q fd st') ->
  (forall st', at_ T r w e t st' -> Q (-1) st') -> wp do_timerfd_create Q E st.
Proof.
  intros Ha HQ HE. apply wp_bind, (wp_create T r w e t); [intros x; apply fds_timerfd|done|done|].
  intros errno st1 Ha1. destruct (_ =? _); [|by apply HE].
  apply wp_bind, (wp_create T r w e t); [intros x; apply fds_timerfd|done|..].
  - intros fd st2 Hne HT Ha2. apply wp_bind, (wp_fcntl_at ({[fd]} ∪ T) r w e t); [done|].
    intros st3 Ha3. by apply HQ.
  - intros errno' st2 Ha2. by apply HE.
Qed.

(** ** The whole reactor *)

Lemma wp_epoll_add T r w e t fd events source Q E st :
  (forall p, source <> at_descriptor p) -> at_ T r w e t st ->
  (forall st', at_ T r w e t st' -> Q () st') -> wp (epoll_add fd events source) Q E st.
Proof.
  intros Hs [Hfl Ht] HQ. destruct st as [o c]. unfold wp, epoll_add, in_reactor, ctl.
  pose proof (given_ctl EPOLL_CTL_ADD fd events source (world c)) as Hg.
  pose proof (fds_ctl EPOLL_CTL_ADD fd events source (world c)) as Hf.
  destruct (epoll_ctl _ _ _ _ _) as [x w']. simpl in *. apply HQ. split.
  - apply fields_world; [|done]. destruct source; [done..|by destruct (Hs p)].
  - unfold table_of in *. simpl in *. by rewrite Hf.
Qed.

Lemma wp_add_own T r w e t Q E st :
  at_ T r w e t st -> (forall st', at_ T r w e t st' -> Q () st') -> wp add_own Q E st.
Proof.
  intros Ha HQ. apply wp_bind, (wp_get_own r w e t); [apply Ha|].
  apply wp_bind, (wp_epoll_add T r w e t); [done..|]. intros st1 Ha1.
  apply wp_bind. unfold interrupt_interrupter. apply wp_bind, (wp_get_own r w e t); [apply Ha1|].
  apply (wp_quiet_at T r w e t); [intros x; apply fds_write|done|]. intros st2 Ha2.
  apply wp_bind, wp_get_context. destruct (has_timer_fd _); [|by apply HQ].
  by apply (wp_epoll_add T r w e t).
Qed.

Lemma update_timeout_world (c c' : context W) :
  update_timeout c = Ret c' -> react c' = react c /\ fds (world c') = fds (world c).
Proof.
  unfold update_timeout. destruct (negb _).
  - unfold arm_timer_fd, read_clock. pose proof (fds_clock (world c)) as Hf.
    destruct (clock_now (world c)) as [now x]. intros (u & _ & [= <-])%bind_Ret. simpl in *.
    split; [done|]. by rewrite fds_settime.
  - intros [= <-]. unfold interrupt, ctl.
    pose proof (fds_ctl EPOLL_CTL_MOD (reactor.interrupter_ (react c)) (Z.lor EPOLLIN (Z.lor EPOLLERR EPOLLET))
      at_interrupter (world c)) as Hf. by destruct (epoll_ctl _ _ _ _ _).
Qed.

Lemma wp_update_timeout T r w e t Q E st :
  at_ T r w e t st -> (forall st', at_ T r w e t st' -> Q () st') ->
  wp (in_reactor update_timeout) Q E st.
Proof.
  intros [[Ho Ht Hi Hok] Htb] HQ. destruct st as [o c]. unfold wp, in_reactor. simpl in *.
  destruct (update_timeout_spec c (proj1 Hok)) as (c' & Eu & A). rewrite Eu.
  destruct (update_timeout_world _ _ Eu) as [Er Ef]. apply HQ. split.
  - split; simpl; [done|by rewrite Er|by rewrite Er|]. by apply (kp_ok _ _ (ad_keeps _ _ _ _ A)).
  - unfold table_of in *. simpl in *. by rewrite Ef.
Qed.

Lemma wp_register_again T r w e t states (Q : () -> fd_state W -> Prop) (E : fd_state W -> Prop) st :
  Forall (fun p => is_Some (reactor.descriptors (react st.2) !! p)) states -> at_ T r w e t st ->
  (forall st', at_ T r w e t st' -> Q () st') -> (forall st', at_ T r w e t st' -> E st') ->
  wp (register_again states) Q E st.
Proof.
  intros Hs Ha HQ HE. revert st Hs Ha. induction states as [|p states IH]; intros st Hs Ha; [by apply HQ|].
  apply Forall_cons in Hs as [[d Hd] Hs]. cbn [register_again]. apply wp_bind, wp_get_context.
  unfold load_descriptor. rewrite Hd. cbn [deref]. destruct st as [o c]. cbn [snd] in *.
  set (fd := descriptor_state.descriptor_ d). set (ev := descriptor_state.registered_events_ d).
  unfold ctl. pose proof (given_ctl EPOLL_CTL_ADD fd ev (at_descriptor p) (world c)) as Hg.
  pose proof (fds_ctl EPOLL_CTL_ADD fd ev (at_descriptor p) (world c)) as Hf.
  destruct (epoll_ctl _ _ _ _ _) as [result x]. simpl in Hg, Hf.
  assert (at_ T r w e t (o, set_world x c)) as Ha'.
  { destruct Ha as [[Ho Ht Hi [Hok Hdom]] Htb]. unfold table_of in *. split; [split; try done|].
    - split; [done|]. simpl in *. apply elem_of_dom_2 in Hd. set_solver.
    - unfold table_of in *. simpl in *. by rewrite Hf. }
  apply wp_bind. unfold wp at 1, put_context. cbn [fst snd].
  destruct result; [by apply wp_throw, HE|]. by apply IH.
Qed.

(** A reactor in use, next to the open descriptors [T]. *)
Definition holds (T : gset Z) (st : fd_state W) : Prop := exists r w e t, at_ T r w e t st.

(** Closing the descriptors of epoll and of the timer leaves them in the members. *)
Lemma wp_close_epoll T r w e t (Q : () -> fd_state W -> Prop) E st :
  at_ T r w e t st ->
  (forall st', fields r w e t st' -> table T (table_of st') r w (-1) t -> Q () st') ->
  wp (if negb (e =? -1) then call_ (close_own e) else mret ()) Q E st.
Proof.
  intros [Hfl Ht] HQ. destruct (Z.eqb_spec e (-1)) as [->|He]; [by apply HQ|].
  apply (wp_close r w e t (table_of st)); [done..| |].
  { eapply (table_open _ _ e); [done| |exact Ht]. set_solver +. }
  intros st1 Hfl1 HF. apply HQ; [done|]. rewrite HF. by apply table_close_epoll.
Qed.

Lemma wp_close_timer T r w e e' t (c : context W) (Q : () -> fd_state W -> Prop) E st :
  reactor.timer_fd_ (react c) = t -> fields r w e t st -> table T (table_of st) r w e' t ->
  (forall st', fields r w e t st' -> table T (table_of st') r w e' (-1) -> Q () st') ->
  wp (if has_timer_fd c then call_ (close_own (reactor.timer_fd_ (react c))) else mret ()) Q E st.
Proof.
  intros Hc Hfl Ht HQ. unfold has_timer_fd. rewrite Hc.
  destruct (Z.eqb_spec t (-1)) as [->|Htm]; [by apply HQ|].
  apply (wp_close r w e t (table_of st)); [done..| |].
  { eapply (table_open _ _ t); [done| |exact Ht]. set_solver +. }
  intros st1 Hfl1 HF. apply HQ; [done|]. rewrite HF. by apply table_close_timer.
Qed.

(** The restart after the descriptors of epoll and of the timer. *)
Lemma wp_restart T r w e t st :
  at_ T r w e t st ->
  wp (_ ← recreate; _ ← add_own; _ ← in_reactor update_timeout;
      c ← get_context; register_again (reactor.live_list_ (react c))) (fun _ => holds T) (holds T) st.
Proof.
  assert (forall r w st, at_ T r w e t st -> holds T st) as Hh by (intros r1 w1 st1 ?; by exists r1, w1, e, t).
  intros Ha. apply wp_bind, (wp_recreate T r w e t); [done| |by apply Hh].
  intros r1 w1 st1 Ha1. apply wp_bind, (wp_add_own T r1 w1 e t); [done|]. intros st2 Ha2.
  apply wp_bind, (wp_update_timeout T r1 w1 e t); [done|]. intros st3 Ha3.
  apply wp_bind, wp_get_context. apply (wp_register_again T r1 w1 e t); [|done|by apply Hh..].
  apply Forall_forall. intros p Hp. destruct Ha3 as [[_ _ _ [Hok _]] _].
  apply (ro_here _ Hok). apply elem_of_app. by left.
Qed.

Lemma wp_notify_fork T ev st : holds T st -> wp (notify_fork ev) (fun _ => holds T) (holds T) st.
Proof.
  intros (r & w & e & t & Ha). destruct ev; [by exists r, w, e, t..|].
  cbn [notify_fork]. apply wp_bind, (wp_get_own r w e t); [apply Ha|]. cbn [epoll_fd_].
  apply wp_bind, (wp_close_epoll T r w e t); [done|]. intros st1 Hfl1 Ht1.
  apply wp_bind, (wp_assign_epoll r w e (-1) t (table_of st1)); [done..|]. intros st2 Hfl2 HF2.
  apply wp_bind, (wp_epoll_create T r w (-1) t); [by split; [|rewrite HF2]| |by intros st3 ?; exists r, w, (-1), t].
  intros fd st3 Hne HT [Hfl3 Ht3].
  apply wp_bind, (wp_assign_epoll r w (-1) fd t (table_of st3)); [done..|]. intros st4 Hfl4 HF4.
  apply table_take_epoll in Ht3; [|done..]. rewrite <- HF4 in Ht3. apply wp_bind, wp_get_context.
  apply wp_bind, (wp_close_timer T r w fd fd t); [apply Hfl4|done..|]. intros st5 Hfl5 Ht5.
  apply wp_bind, (wp_assign_timer r w fd t (-1) (table_of st5)); [done..|]. intros st6 Hfl6 HF6.
  apply wp_bind, (wp_timerfd_create T r w fd (-1)); [by split; [|rewrite HF6]| |].
  - intros t' st7 Hne' HT' [Hfl7 Ht7].
    apply wp_bind, (wp_assign_timer r w fd (-1) t' (table_of st7)); [done..|].
    intros st8 Hfl8 HF8. apply (wp_restart T r w fd t'). split; [done|]. rewrite HF8. by apply table_take_timer.
  - intros st7 [Hfl7 Ht7]. apply wp_bind, (wp_assign_timer r w fd (-1) (-1) (table_of st7)); [done..|].
    intros st8 Hfl8 HF8. apply (wp_restart T r w fd (-1)). split; [done|]. by rewrite HF8.
Qed.

Lemma wp_destroy T st : holds T st -> wp destroy_reactor (fun _ st' => table_of st' = T) (fun _ => False) st.
Proof.
  intros (r & w & e & t & Ha). apply wp_bind, (wp_get_own r w e t); [apply Ha|]. cbn [epoll_fd_].
  apply wp_bind, wp_get_context.
  apply wp_bind, (wp_close_epoll T r w e t); [done|]. intros st1 Hfl1 Ht1.
  apply wp_bind, (wp_close_timer T r w e (-1) t); [apply Ha|done..|]. intros st2 Hfl2 Ht2.
  apply (wp_close_descriptors T r w e t (-1) (-1)); [done..|].
  intros st3 _ Ht3. rewrite (tb_fds _ _ _ _ _ _ Ht3). unfold own. set_solver.
Qed.

Lemma uninitialised_at s w : given w = ∅ -> at_ (fds w) (-1) (-1) (-1) (-1) (uninitialised s w).
Proof.
  intros Hg. split; [|apply table_none]. split; [done..|]. split; [|simpl; rewrite Hg; set_solver +].
  split; simpl; try done; try apply NoDup_nil_2. intros p Hp. by apply elem_of_nil in Hp.
Qed.

(** The members before the timer descriptor are there. *)
Lemma wp_construct_rest T r w fd st :
  fd <> -1 -> fd ∉ T -> at_ ({[fd]} ∪ T) r w (-1) (-1) st ->
  wp (_ ← put_own (set_epoll fd); fd ← do_timerfd_create; _ ← assign_timer_fd fd; add_own)
    (fun _ => holds T) (fun _ => False) st.
Proof.
  intros Hne HT [Hfl Ht]. apply wp_bind, (wp_assign_epoll r w (-1) fd (-1) (table_of st)); [done..|].
  intros st1 Hfl1 HF1. apply table_take_epoll in Ht; [|done..].
  assert (forall t st, at_ T r w fd t st -> wp add_own (fun _ => holds T) (fun _ => False) st) as Hrest.
  { intros t st' Ha. apply (wp_add_own T r w fd t); [done|]. intros st2 Ha2. by exists r, w, fd, t. }
  apply wp_bind, (wp_timerfd_create T r w fd (-1)); [by split; [|rewrite HF1]| |].
  - intros t st2 Hne' HT' [Hfl2 Ht2]. apply wp_bind, (wp_assign_timer r w fd (-1) t (table_of st2)); [done..|].
    intros st3 Hfl3 HF3. apply (Hrest t). split; [done|]. rewrite HF3. by apply table_take_timer.
  - intros st2 [Hfl2 Ht2]. apply wp_bind, (wp_assign_timer r w fd (-1) (-1) (table_of st2)); [done..|].
    intros st3 Hfl3 HF3. apply (Hrest (-1)). split; [done|]. by rewrite HF3.
Qed.

(** A fresh reactor. *)
Lemma construct_holds s w :
  given w = ∅ ->
  match construct_reactor s w with
  | (Ret _, st) => holds (fds w) st
  | (Throw _, st) => table_of st = fds w
  | (Undef, _) => False
  end.
Proof.
  intros Hg. unfold construct_reactor.
  assert (wp open_descriptors (fun _ st => exists r w', at_ (fds w) r w' (-1) (-1) st)
    (at_ (fds w) (-1) (-1) (-1) (-1)) (uninitialised s w)) as Ho
    by (apply (wp_open (fds w) (-1) (-1)); [by apply uninitialised_at|eauto|done]).
  unfold wp in Ho. destruct (open_descriptors _) as [[[]|e|] st]; [| |done].
  2: { destruct Ho as [_ Ht]. rewrite (tb_fds _ _ _ _ _ _ Ht). unfold own. set_solver. }
  destruct Ho as (r & w' & Ha).
  assert (wp do_epoll_create (fun fd st' => fd <> -1 /\ (fd ∉ fds w) /\ at_ ({[fd]} ∪ fds w) r w' (-1) (-1) st')
    (at_ (fds w) r w' (-1) (-1)) st) as He by (by apply (wp_epoll_create (fds w) r w' (-1) (-1))).
  unfold wp in He. destruct (do_epoll_create st) as [[fd|e|] st1]; [| |done].
  - destruct He as (Hne & HT & Ha1). pose proof (wp_construct_rest (fds w) r w' fd st1 Hne HT Ha1) as Hr.
    unfold wp in Hr. by destruct ((put_own (set_epoll fd) ≫= _) st1) as [[[]|e|] st2].
  - destruct He as [Hfl Ht].
    assert (wp close_descriptors (fun _ st' => table_of st' = fds w) (fun _ => False) st1) as Hc.
    { apply (wp_close_descriptors (fds w) r w' (-1) (-1) (-1) (-1)); [done..|].
      intros st' _ Ht'. rewrite (tb_fds _ _ _ _ _ _ Ht'). unfold own. set_solver. }
    unfold wp in Hc. by destruct (close_descriptors st1) as [[[]|e'|] st2].
Qed.

(** C23. The reactor's own descriptors, whichever calls fail: a constructor that throws
    leaves none open; a reactor in use holds each of its descriptors once and none of
    another's, also after a restart that failed half way; and when it is destroyed only
    the others' are left. *)
Theorem reactor_fds_never_leak :
  (forall s w, given w = ∅ ->
    match construct_reactor s w with
    | (Ret _, st) => holds (fds w) st
    | (Throw _, st) => table_of st = fds w
    | (Undef, _) => False
    end) /\
  (forall T ev st, holds T st ->
    match notify_fork ev st with
    | (Ret _, st') | (Throw _, st') => holds T st'
    | (Undef, _) => False
    end) /\
  (forall T st, holds T st ->
    match destroy_reactor st with
    | (Ret _, st') => table_of st' = T
    | _ => False
    end).
Proof.
  split; [exact construct_holds|]. split.
  - intros T ev st Hh. pose proof (wp_notify_fork T ev st Hh) as Hw. unfold wp in Hw.
    by destruct (notify_fork ev st) as [[[]|e|] st'].
  - intros T st Hh. pose proof (wp_destroy T st Hh) as Hw. unfold wp in Hw.
    by destruct (destroy_reactor st) as [[[]|e|] st'].
Qed.

(** ** Descriptors that epoll does not take *)

(** A regular file is registered without epoll, which answers [EPERM]; after a fork the
    restart throws that error, though the file could be used as before, and the
    descriptors behind it in the list are not registered again. *)
Theorem regular_file_stops_restart fd (c : context W) p c' o :
  reactor_ok (react c) -> register_descriptor fd c = Ret (0, p, c') ->
  (forall d, reactor.descriptors (react c') !! p = Some d ->
   descriptor_state.registered_events_ d = 0 /\
   (epoll_ctl EPOLL_CTL_ADD (descriptor_state.descriptor_ d) 0 (at_descriptor p) (world c')).1 =
     Some EPERM) ->
  exists st', register_again (reactor.live_list_ (react c')) (o, c') =
  (Throw (asio_system_error EPERM), st').
Proof.
  intros Hok E Hd. destruct (register_state _ _ _ _ _ Hok E) as (_ & Hl & _ & d & Hlook & _).
  rewrite Hl. cbn [register_again]. unfold mbind, fd_bind, get_context. cbn [fst snd].
  unfold load_descriptor. rewrite Hlook. cbn [deref]. destruct (Hd d Hlook) as [-> Hr].
  unfold ctl. destruct (epoll_ctl _ _ _ _ _) as [result x]. simpl in Hr. subst result.
  by eexists.
Qed.

End Spec.

(** * An example *)

(** A system that answers the calls for descriptors with the errors of a list, or with
    new descriptors when it has none left. *)
Record fd_world := mkFdWorld {
  fw_toy : toy;
  fw_open : gset Z;
  fw_errors : list (option Z)
}.

Definition set_toy (x : toy) (w : fd_world) : fd_world := mkFdWorld x (fw_open w) (fw_errors w).
Definition set_open (x : gset Z) (w : fd_world) : fd_world := mkFdWorld (fw_toy w) x (fw_errors w).

#[global] Instance fd_kernel : Kernel fd_world := {
  perform id r w := let '(st, r, x) := perform id r (fw_toy w) in (st, r, set_toy x w);
  epoll_ctl op fd events source w :=
    let '(r, x) := epoll_ctl op fd events source (fw_toy w) in (r, set_toy x w);
  epoll_wait timeout w := let '(es, x) := epoll_wait timeout (fw_toy w) in (es, set_toy x w);
  close_fd fd w := w;
  timerfd_settime abs sec nsec w := w;
  clock_now w := (0, w)
}.

#[global] Program Instance fd_kernel_laws : KernelLaws fd_world := { given w := toy_given (fw_toy w) }.
Next Obligation. intros w. by vm_compute. Qed.
Next Obligation. intros w. done. Qed.
Next Obligation. intros id r w. done. Qed.
Next Obligation. intros fd w. done. Qed.
Next Obligation. intros abs sec nsec w. done. Qed.
Next Obligation. intros op fd events [| |p] w; simpl; set_solver. Qed.
Next Obligation. intros timeout w. done. Qed.
Next Obligation.
  intros timeout w p events. simpl.
  destruct (toy_events (fw_toy w)) as [|es rest]; simpl; [set_solver|].
  by intros [Hk _]%list_elem_of_filter.
Qed.

Definition fresh_fd (s : gset Z) : Z := fresh ({[-1]} ∪ s).

Definition new_descriptor (w : fd_world) : new_fd * fd_world :=
  let w' := mkFdWorld (fw_toy w) (fw_open w) (tail (fw_errors w)) in
  match head (fw_errors w) with
  | Some (Some errno) => (inr errno, w')
  | _ => let fd := fresh_fd (fw_open w) in (inl fd, set_open ({[fd]} ∪ fw_open w) w')
  end.

#[global] Instance fd_calls : DescriptorCalls fd_world := {
  eventfd _ _ := new_descriptor;
  pipe w :=
    let fd0 := fresh_fd (fw_open w) in
    let fd1 := fresh_fd ({[fd0]} ∪ fw_open w) in
    (inl (fd0, fd1), set_open ({[fd1]} ∪ ({[fd0]} ∪ fw_open w)) w);
  epoll_create1 _ := new_descriptor;
  epoll_create _ := new_descriptor;
  timerfd_create _ _ := new_descriptor;
  fcntl _ _ _ w := w;
  close_own fd w := if decide (fd ∈ fw_open w) then set_open (fw_open w ∖ {[fd]}) w else set_open ∅ w;
  write_counter _ _ w := w
}.

Lemma fresh_fd_spec s : fresh_fd s <> -1 /\ (fresh_fd s ∉ s).
Proof. unfold fresh_fd. pose proof (is_fresh ({[-1]} ∪ s)). set_solver. Qed.

Lemma new_descriptor_spec w :
  toy_given (fw_toy (new_descriptor w).2) ⊆ toy_given (fw_toy w) /\
  match (new_descriptor w).1 with
  | inl fd => fd <> -1 /\ (fd ∉ fw_open w) /\ fw_open (new_descriptor w).2 = {[fd]} ∪ fw_open w
  | inr _ => fw_open (new_descriptor w).2 = fw_open w
  end.
Proof.
  destruct (fresh_fd_spec (fw_open w)) as [Hne Hfresh]. unfold new_descriptor.
  destruct (head (fw_errors w)) as [[errno|]|]; split; done.
Qed.

#[global] Program Instance fd_laws : DescriptorLaws fd_world := { fds := fw_open }.
Next Obligation. intros n flags w. apply new_descriptor_spec. Qed.
Next Obligation. intros flags w. apply new_descriptor_spec. Qed.
Next Obligation. intros n w. apply new_descriptor_spec. Qed.
Next Obligation. intros clock flags w. apply new_descriptor_spec. Qed.
Next Obligation.
  intros w. split; [done|]. simpl. pose proof (fresh_fd_spec (fw_open w)).
  pose proof (fresh_fd_spec ({[fresh_fd (fw_open w)]} ∪ fw_open w)). naive_solver.
Qed.
Next Obligation. intros fd w Hin. simpl in *. by rewrite decide_True. Qed.
Next Obligation. done. Qed.
Next Obligation. done. Qed.
Next Obligation. done. Qed.
Next Obligation. done. Qed.
Next Obligation. done. Qed.

(** The constructor gets an eventfd, but epoll has no descriptor left; and a reactor
    that is constructed, restarted without success and destroyed. *)
Definition fd_start (errors : list (option Z)) : fd_world :=
  mkFdWorld (mkToy ∅ [] false) {[0; 1; 2]} errors.

Lemma reactor_fds_never_leak_witness :
  exists st st' st'',
    construct_reactor (scheduler.new false) (fd_start [None; Some 24]) =
      (Throw (asio_system_error 24), st) /\ table_of st = {[0; 1; 2]} /\
    (exists c, construct_reactor (scheduler.new false) (fd_start [None; None; None; None; None; Some 24]) = (Ret (), c) /\
     notify_fork fork_child c = (Ret (), st')) /\
    destroy_reactor st' = (Ret (), st'') /\ table_of st'' = {[0; 1; 2]}.
Proof.
  destruct reactor_fds_never_leak as (Hc & Hf & Hd).
  pose proof (Hc (scheduler.new false) (fd_start [None; Some 24]) eq_refl) as H1.
  pose proof (Hc (scheduler.new false) (fd_start [None; None; None; None; None; Some 24]) eq_refl) as H2.
  destruct (construct_reactor (scheduler.new false) (fd_start [None; Some 24])) as [o st] eqn:E1.
  destruct (construct_reactor (scheduler.new false) (fd_start [None; None; None; None; None; Some 24]))
    as [o2 c] eqn:E2.
  assert (o = Throw (asio_system_error 24)) as ->.
  { transitivity (fst (o, st)); [exact eq_refl|]. rewrite <- E1. by vm_compute. }
  assert (o2 = Ret ()) as ->.
  { transitivity (fst (o2, c)); [exact eq_refl|]. rewrite <- E2. by vm_compute. }
  pose proof (Hf _ fork_child _ H2) as H3. destruct (notify_fork fork_child c) as [o3 st'] eqn:E3.
  assert (o3 = Ret ()) as ->.
  { transitivity (fst (o3, st')); [exact eq_refl|]. rewrite <- E3.
    assert (c = snd (Ret (A := unit) (), c)) as -> by exact eq_refl. rewrite <- E2. by vm_compute. }
  pose proof (Hd _ _ H3) as H4. destruct (destroy_reactor st') as [o4 st''] eqn:E4.
  destruct o4 as [[]|e|]; [|done..].
  exists st, st', st''. split; [done|]. split; [exact H1|]. split; [by exists c|]. split; [exact E4|exact H4].
Defined.
