(* ===== verification/DeadlineTimer.v ===== *)
(** [asio/detail/deadline_timer_service.hpp] and [asio/basic_waitable_timer.hpp]: the
    timers of a program.

    A timer object holds its expiry, a flag that tells whether waits may be pending, and
    the data by which the reactor's timer queue knows it, which are in the memory of the
    queue ([TimerQueue]) under the same pointer.  Every operation is a state passing
    function of the objects and the context of the reactor and the scheduler. *)

From S2P Require Import Prelude.
From S2P Require Import AsioError.
From S2P Require Import ChronoTimeTraits.
From S2P Require Import TimerQueue.
From S2P Require Import Scheduler.
From S2P Require Import EpollReactor.
From S2P Require Import ReactorSetup.

(** [deadline_timer_service::implementation_type], but for [timer_data]. *)
Record implementation_type := mkTimerImpl {
  expiry : Z;
  might_have_pending_waits : bool
}.

Definition set_expiry (t : Z) (impl : implementation_type) : implementation_type :=
  mkTimerImpl t (might_have_pending_waits impl).
Definition set_pending (b : bool) (impl : implementation_type) : implementation_type :=
  mkTimerImpl (expiry impl) b.

(** The timer objects of the program, and the context of their service. *)
Record timers (W : Type) := mkTimerObjects {
  impls : gmap timer_ptr implementation_type;
  service : context W
}.
Arguments mkTimerObjects {W}.
Arguments impls {W}.
Arguments service {W}.

Definition set_service {W} (c : context W) (s : timers W) : timers W := mkTimerObjects (impls s) c.

Definition load_impl {W} (p : timer_ptr) (s : timers W) : outcome implementation_type :=
  deref (impls s !! p).

Definition store_impl {W} (p : timer_ptr) (impl : implementation_type) (s : timers W) : timers W :=
  mkTimerObjects (<[p := impl]> (impls s)) (service s).

(** [(std::numeric_limits<std::size_t>::max)()], the default of [cancel_timer]. *)
Definition all_waits : Z := 2 ^ 64 - 1.

Section Service.
Context {W : Type} `{Kernel W}.

(** The service's queue in the reactor. *)
Context (k : positive).

(** ** The service *)

(** [deadline_timer_service::deadline_timer_service] and its destructor. *)
Definition construct_service (c : context W) : context W :=
  add_timer_queue k (mkTimers None [] ∅) (set_sched (scheduler.init_task (sched c)) c).

Definition destroy_service (c : context W) : context W := remove_timer_queue k c.

(** ** Timers *)

(** The members of a new timer, with the constructor of [per_timer_data]; [p] is the
    address of the object. *)
Definition construct (p : timer_ptr) (s : timers W) : outcome (timers W) :=
  q ← timer_queue_at k (react (service s));
  let q := mkTimers (timers_ q) (heap_ q) (<[p := new_timer]> (memory_ q)) in
  let c := set_react (store_timer_queue k q (react (service s))) (service s) in
  Ret (store_impl p (mkTimerImpl epoch false) (set_service c s)).

Definition cancel (p : timer_ptr) (s : timers W) : outcome (error_code * Z * timers W) :=
  impl ← load_impl p s;
  if negb (might_have_pending_waits impl) then Ret (ec_success, 0, s)
  else
    '(count, c) ← cancel_timer k p all_waits (service s);
    Ret (ec_success, count, store_impl p (set_pending false impl) (set_service c s)).

Definition cancel_one (p : timer_ptr) (s : timers W) : outcome (error_code * Z * timers W) :=
  impl ← load_impl p s;
  if negb (might_have_pending_waits impl) then Ret (ec_success, 0, s)
  else
    '(count, c) ← cancel_timer k p 1 (service s);
    let impl := if count =? 0 then set_pending false impl else impl in
    Ret (ec_success, count, store_impl p impl (set_service c s)).

(** [destroy], with the end of the object's memory. *)
Definition destroy (p : timer_ptr) (s : timers W) : outcome (timers W) :=
  '(_, _, s) ← cancel p s;
  q ← timer_queue_at k (react (service s));
  let q := mkTimers (timers_ q) (heap_ q) (delete p (memory_ q)) in
  let c := set_react (store_timer_queue k q (react (service s))) (service s) in
  Ret (mkTimerObjects (delete p (impls s)) c).

(** The members of the source become the target's. *)
Definition move_members (target source : timer_ptr) (s : timers W) : outcome (timers W) :=
  impl ← load_impl source s;
  Ret (store_impl source (mkTimerImpl epoch false) (store_impl target impl s)).

Definition move_construct (target source : timer_ptr) (s : timers W) : outcome (timers W) :=
  s ← construct target s;
  c ← move_timer k target source (service s);
  move_members target source (set_service c s).

(** Within one service. *)
Definition move_assign (target source : timer_ptr) (s : timers W) : outcome (timers W) :=
  c ← move_timer k target source (service s);
  move_members target source (set_service c s).

Definition expires_at (p : timer_ptr) (expiry_time : Z) (s : timers W) :
    outcome (error_code * Z * timers W) :=
  '(_, count, s) ← cancel p s;
  impl ← load_impl p s;
  Ret (ec_success, count, store_impl p (set_expiry expiry_time impl) s).

Definition expires_after (p : timer_ptr) (expiry_time : Z) (s : timers W) :
    outcome (error_code * Z * timers W) :=
  let '(now, c) := read_clock (service s) in
  t ← add now expiry_time;
  expires_at p t (set_service c s).

Definition expires_from_now (p : timer_ptr) (s : timers W) : outcome (Z * timers W) :=
  let '(now, c) := read_clock (service s) in
  impl ← load_impl p s;
  d ← subtract (expiry impl) now;
  Ret (d, set_service c s).

Definition async_wait (p : timer_ptr) (op : wait_op) (s : timers W) : outcome (timers W) :=
  impl ← load_impl p s;
  let s := store_impl p (set_pending true impl) s in
  c ← schedule_timer k (expiry impl) p op (service s);
  Ret (set_service c s).

(** [op_cancellation::operator()], for the wait with the key.  The pointer to the
    timer's data is the one of the call of [async_wait]. *)
Definition cancellation_terminal : Z := 1.
Definition cancellation_partial : Z := 2.
Definition cancellation_total : Z := 4.

Definition cancel_wait (type : Z) (p : timer_ptr) (key : positive) (s : timers W) : outcome (timers W) :=
  if negb (Z.land type
      (Z.lor cancellation_terminal (Z.lor cancellation_partial cancellation_total)) =? 0) then
    c ← cancel_timer_by_key k p key (service s);
    Ret (set_service c s)
  else Ret s.

(** ** The blocking wait *)

(** [select] without descriptors: the seconds and microseconds it may sleep, and
    [errno] if it fails. *)
Context (select : Z -> Z -> W -> option Z * W) (period_num period_den : Z).

Definition do_wait (timeout : Z) (c : context W) : outcome (error_code * context W) :=
  tv_sec ← total_seconds period_num period_den timeout;
  usec ← total_microseconds period_num period_den timeout;
  let tv_usec := Z.rem usec 1000000 in
  let '(failed, w) := select tv_sec tv_usec (world c) in
  let ec := match failed with
            | Some errno => mk_error_code errno system_category
            | None => ec_success
            end in
  Ret (ec, set_world w c).

(** The loop of [wait]: what it returns, if it ends within the fuel. *)
Fixpoint wait_loop (fuel : nat) (expiry_time now : Z) (ec : error_code) (c : context W) :
    outcome (option error_code * context W) :=
  if less_than now expiry_time && negb (ec_is_error ec) then
    match fuel with
    | O => Ret (None, c)
    | S fuel =>
        d ← subtract expiry_time now;
        '(ec, c) ← do_wait (to_wait_duration d) c;
        let '(now, c) := read_clock c in
        wait_loop fuel expiry_time now ec c
    end
  else Ret (Some ec, c).

Definition wait (fuel : nat) (p : timer_ptr) (s : timers W) : outcome (option error_code * timers W) :=
  impl ← load_impl p s;
  let '(now, c) := read_clock (service s) in
  '(ec, c) ← wait_loop fuel (expiry impl) now ec_success c;
  Ret (ec, set_service c s).

(** ** [basic_waitable_timer] *)

(** [throw_error(ec)] after an operation of the service. *)
Definition throwing {A} (r : outcome (error_code * A * timers W)) : outcome (A * timers W) :=
  '(ec, a, s) ← r;
  if ec_is_error ec then Throw (asio_system_error (ec_value ec)) else Ret (a, s).

Definition timer_cancel (p : timer_ptr) (s : timers W) : outcome (Z * timers W) := throwing (cancel p s).

Definition timer_cancel_one (p : timer_ptr) (s : timers W) : outcome (Z * timers W) :=
  throwing (cancel_one p s).

Definition timer_expires_at (p : timer_ptr) (expiry_time : Z) (s : timers W) : outcome (Z * timers W) :=
  throwing (expires_at p expiry_time s).

Definition timer_expires_after (p : timer_ptr) (expiry_time : Z) (s : timers W) : outcome (Z * timers W) :=
  throwing (expires_after p expiry_time s).

(** The constructors with an expiry. *)
Definition timer_at (p : timer_ptr) (expiry_time : Z) (s : timers W) : outcome (timers W) :=
  s ← construct p s;
  snd <$> timer_expires_at p expiry_time s.

Definition timer_after (p : timer_ptr) (expiry_time : Z) (s : timers W) : outcome (timers W) :=
  s ← construct p s;
  snd <$> timer_expires_after p expiry_time s.

(** [wait()]; [None] if the loop has not ended. *)
Definition timer_wait (fuel : nat) (p : timer_ptr) (s : timers W) : outcome (option () * timers W) :=
  '(ec, s) ← wait fuel p s;
  match ec with
  | None => Ret (None, s)
  | Some ec => if ec_is_error ec then Throw (asio_system_error (ec_value ec)) else Ret (Some (), s)
  end.

(** ** Calls *)

(** What a program calls. *)
Inductive timer_call :=
  | call_construct (p : timer_ptr)
  | call_destroy (p : timer_ptr)
  | call_cancel (p : timer_ptr)
  | call_cancel_one (p : timer_ptr)
  | call_cancel_wait (type : Z) (p : timer_ptr) (key : positive)
  | call_expires_at (p : timer_ptr) (expiry_time : Z)
  | call_expires_after (p : timer_ptr) (expiry_time : Z)
  | call_async_wait (p : timer_ptr) (op : wait_op)
  | call_move_construct (target source : timer_ptr)
  | call_move_assign (target source : timer_ptr).

(** A call, with the count it returns, if it returns one. *)
Definition run_timer_call (x : timer_call) (s : timers W) : outcome (option Z * timers W) :=
  match x with
  | call_construct p => s ← construct p s; Ret (None, s)
  | call_destroy p => s ← destroy p s; Ret (None, s)
  | call_cancel p => '(n, s) ← timer_cancel p s; Ret (Some n, s)
  | call_cancel_one p => '(n, s) ← timer_cancel_one p s; Ret (Some n, s)
  | call_cancel_wait type p key => s ← cancel_wait type p key s; Ret (None, s)
  | call_expires_at p t => '(n, s) ← timer_expires_at p t s; Ret (Some n, s)
  | call_expires_after p d => '(n, s) ← timer_expires_after p d s; Ret (Some n, s)
  | call_async_wait p op => s ← async_wait p op s; Ret (None, s)
  | call_move_construct target source => s ← move_construct target source s; Ret (None, s)
  | call_move_assign target source => s ← move_assign target source s; Ret (None, s)
  end.
End Service.
