(* ===== verification/DeadlineTimerSpec.v ===== *)
(** The timers of a program keep to a simple specification: a map from the timers to
    their expiry and the waits that are pending on each ([waits_map]).  Every operation
    of [DeadlineTimer] changes the map as [spec_call] says and completes the waits that it
    takes away with [operation_aborted]; the reactor's check of the timers completes, in
    the order of their expiry, the waits of those that have expired. *)

From S2P Require Import Prelude.
From S2P Require Import AsioError.
From S2P Require Import ChronoTimeTraits.
From S2P Require Import TimerQueue.
From S2P Require Import TimerQueueSpec.
From S2P Require Import TimerMoves.
From S2P Require Import TimerQueueRefines.
From S2P Require Import Scheduler.
From S2P Require Import EpollReactor.
From S2P Require Import ReactorSpec.
From S2P Require Import ReactorSetup.
From S2P Require Import DeadlineTimer.
From S2P Require SocketStream IoContext IoContextSpec.

(** * The specification *)

(** The expiry of every timer, and the waits pending on it. *)
Abbreviation waits_map := (gmap timer_ptr (Z * list wait_op)).

Definition waits_of (A : waits_map) (p : timer_ptr) : list wait_op := default [] (snd <$> A !! p).

(** What a change of one timer takes away, and leaves. *)
Definition on_timer (A : waits_map) (p : timer_ptr)
    (f : Z -> list wait_op -> list wait_op * (Z * list wait_op)) : list wait_op * waits_map :=
  match A !! p with
  | Some (e, ops) => let '(gone, v) := f e ops in (gone, <[p := v]> A)
  | None => ([], A)
  end.

Definition moved_waits (A : waits_map) (target source : timer_ptr) : waits_map :=
  match A !! source with
  | Some v => <[source := (epoch, [])]> (<[target := v]> A)
  | None => A
  end.

(** The type of a cancellation that a wait supports. *)
Definition supported (type : Z) : bool := negb (Z.land type 7 =? 0).

(** What a call takes away from the pending waits, and leaves, when the clock shows
    [now]. *)
Definition spec_call (now : Z) (x : timer_call) (A : waits_map) : list wait_op * waits_map :=
  match x with
  | call_construct p => ([], <[p := (epoch, [])]> A)
  | call_destroy p => (waits_of A p, delete p A)
  | call_cancel p => on_timer A p (fun e ops => (ops, (e, [])))
  | call_cancel_one p => on_timer A p (fun e ops => (take 1 ops, (e, drop 1 ops)))
  | call_cancel_wait type p key =>
      if supported type then
        on_timer A p (fun e ops =>
          (filter (fun op => cancellation_key_ op = key) ops,
           (e, filter (fun op => cancellation_key_ op <> key) ops)))
      else ([], A)
  | call_expires_at p t => on_timer A p (fun e ops => (ops, (t, [])))
  | call_expires_after p d => on_timer A p (fun e ops => (ops, (saturate (now + d), [])))
  | call_async_wait p op => on_timer A p (fun e ops => ([], (e, ops ++ [op])))
  | call_move_construct target source => ([], moved_waits A target source)
  | call_move_assign target source => (waits_of A target, moved_waits A target source)
  end.

(** The count a call returns. *)
Definition returned (x : timer_call) (gone : list wait_op) : option Z :=
  match x with
  | call_cancel _ | call_cancel_one _ | call_expires_at _ _ | call_expires_after _ _ => Some (zlen gone)
  | _ => None
  end.

(** The timers once those that expire by [now] have expired. *)
Definition expire_waits (now : Z) (A : waits_map) : waits_map :=
  (fun v => if v.1 <=? now then (v.1, []) else v) <$> A.

(** * The queue of the specification *)

(** The timers with pending waits are in the timer queue. *)
Definition queue_map (A : waits_map) : timer_map :=
  omap (fun v => if decide (v.2 = []) then None else Some (Some v.1, v.2)) A.

Lemma queue_map_lookup A p :
  queue_map A !! p = v ← A !! p; if decide (v.2 = []) then None else Some (Some v.1, v.2).
Proof. unfold queue_map. by rewrite lookup_omap. Qed.

Lemma queue_map_insert A p e ops : queue_map (<[p := (e, ops)]> A) = leave p (Some e) ops (queue_map A).
Proof.
  apply map_eq. intros j. rewrite queue_map_lookup. unfold leave. simpl.
  destruct (decide (j = p)) as [->|Hj].
  - rewrite lookup_insert_eq. simpl. case_decide; [by rewrite lookup_delete_eq|by rewrite lookup_insert_eq].
  - rewrite lookup_insert_ne, <- queue_map_lookup by done.
    case_decide; [by rewrite lookup_delete_ne|by rewrite lookup_insert_ne].
Qed.

Lemma queue_map_delete A p : queue_map (delete p A) = delete p (queue_map A).
Proof. apply map_eq. intros j. unfold queue_map. by rewrite omap_delete. Qed.

(** What waits on a timer of the map. *)
Lemma queue_map_some A p t ops :
  queue_map A !! p = Some (t, ops) <-> exists e, A !! p = Some (e, ops) /\ t = Some e /\ ops <> [].
Proof.
  rewrite queue_map_lookup. destruct (A !! p) as [[e o]|]; simpl; [|naive_solver].
  case_decide; naive_solver.
Qed.

Lemma queue_map_idle A p e : A !! p = Some (e, []) -> queue_map A !! p = None.
Proof. intros Hp. by rewrite queue_map_lookup, Hp. Qed.

Lemma queue_map_waiting A p e ops :
  A !! p = Some (e, ops) -> ops <> [] -> queue_map A !! p = Some (Some e, ops).
Proof. intros Hp Hops. apply queue_map_some. eauto. Qed.

(** Cancelling, in the queue of the map. *)
Lemma queue_map_cancelled A p e ops n :
  A !! p = Some (e, ops) ->
  cancelled_ops (queue_map A) p n = cancelled_part n ops /\
  cancelled_map (queue_map A) p n =
    queue_map (<[p := (e, drop (length (cancelled_part n ops)) ops)]> A).
Proof.
  intros Hp. unfold cancelled_ops, cancelled_map. rewrite queue_map_insert.
  destruct (decide (ops = [])) as [->|Hops].
  - rewrite (queue_map_idle _ _ _ Hp). unfold cancelled_part. rewrite take_nil. split; [done|].
    unfold leave. simpl. by rewrite delete_id by by eapply queue_map_idle.
  - by rewrite (queue_map_waiting _ _ _ _ Hp Hops).
Qed.

Lemma queue_map_keyed A p e ops key :
  A !! p = Some (e, ops) ->
  keyed_ops (queue_map A) p key = filter (fun op => cancellation_key_ op = key) ops /\
  keyed_map (queue_map A) p key =
    queue_map (<[p := (e, filter (fun op => cancellation_key_ op <> key) ops)]> A).
Proof.
  intros Hp. unfold keyed_ops, keyed_map. rewrite queue_map_insert.
  destruct (decide (ops = [])) as [->|Hops].
  - rewrite (queue_map_idle _ _ _ Hp). split; [done|]. unfold leave. simpl.
    by rewrite delete_id by by eapply queue_map_idle.
  - by rewrite (queue_map_waiting _ _ _ _ Hp Hops).
Qed.

Lemma queue_map_enqueued A p e ops op :
  A !! p = Some (e, ops) ->
  <[p := enqueued (Some e) p op (queue_map A)]> (queue_map A) = queue_map (<[p := (e, ops ++ [op])]> A).
Proof.
  intros Hp. rewrite queue_map_insert. unfold leave, enqueued. rewrite decide_False by by destruct ops.
  destruct (decide (ops = [])) as [->|Hops]; [by rewrite (queue_map_idle _ _ _ Hp)|].
  by rewrite (queue_map_waiting _ _ _ _ Hp Hops).
Qed.

Lemma queue_map_moved A t s e ops :
  t <> s -> A !! s = Some (e, ops) -> queue_map A !! t = None ->
  moved_map t s (queue_map A) = queue_map (moved_waits A t s).
Proof.
  intros Hts Hs Ht. unfold moved_map, moved_waits. rewrite Hs, !queue_map_insert. unfold leave. simpl.
  destruct (decide (ops = [])) as [->|Hops].
  - rewrite (queue_map_idle _ _ _ Hs). rewrite (delete_id _ t) by done.
    by rewrite delete_id by by eapply queue_map_idle.
  - rewrite (queue_map_waiting _ _ _ _ Hs Hops). by rewrite delete_insert_ne.
Qed.

Lemma queue_map_expired now A : queue_map (expire_waits now A) = filter (not_due now) (queue_map A).
Proof.
  apply map_eq. intros p. apply option_eq. intros [t ops].
  rewrite queue_map_some, map_lookup_filter_Some, queue_map_some. unfold expire_waits, not_due.
  rewrite lookup_fmap. destruct (A !! p) as [[e o]|]; simpl; [|naive_solver].
  destruct (Z.leb_spec e now); naive_solver lia.
Qed.

(** * The invariant *)

Section Spec.
(** The service's queue is one of those of the reactor. *)
Context {W : Type} `{KernelLaws W} (k : positive) (keys : list positive).

(** The service's queue holds the waits of the map, and knows its timers. *)
Record service_ok (c : context W) (A : waits_map) : Prop := {
  sv_context : context_ok c;
  sv_running : reactor.shutdown_ (react c) = false;
  sv_keys : (reactor.timer_queues_ (react c)).*1 = keys;
  sv_queue : exists q,
    timer_queue_at k (react c) = Ret q /\ represents q (queue_map A) /\
    forall p, allocated q p <-> is_Some (A !! p);
  sv_times p e ops : A !! p = Some (e, ops) -> int64 e
}.

(** A timer of the program; the number of its waits fits in a [std::size_t]. *)
Definition here (p : timer_ptr) (s : timers W) : Prop :=
  is_Some (impls s !! p) /\
  forall q d, timer_queue_at k (react (service s)) = Ret q -> memory_ q !! p = Some d ->
    zlen (op_queue_ d) <= all_waits.

(** The timers a call names exist, but for a new one; moves are between two timers;
    times are in the range of the clock, and the heap's indices in that of
    [std::size_t]. *)
Definition call_ok (x : timer_call) (s : timers W) : Prop :=
  match x with
  | call_construct p => impls s !! p = None
  | call_destroy p | call_cancel p | call_cancel_one p | call_cancel_wait _ p _ => here p s
  | call_expires_at p t => here p s /\ int64 t
  | call_expires_after p d => here p s /\ int64 d
  | call_async_wait p _ => here p s /\ Z.of_nat (size (impls s)) + 1 < npos
  | call_move_construct target source => impls s !! target = None /\ here source s
  | call_move_assign target source => here target s /\ here source s /\ target <> source
  end.

(** A timer has the expiry of the map, and its flag is set when a wait is pending. *)
Definition impl_ok (impl : option implementation_type) (v : option (Z * list wait_op)) : Prop :=
  match v with
  | Some (e, ops) => exists b, impl = Some (mkTimerImpl e b) /\ (b = false -> ops = [])
  | None => impl = None
  end.

Record timers_inv (s : timers W) (A : waits_map) : Prop := {
  tv_service : service_ok (service s) A;
  tv_impls p : impl_ok (impls s !! p) (A !! p)
}.

(** The completions of the waits that a call takes away. *)
Definition aborted (gone : list wait_op) : list operation :=
  expired <$> ((fun op => (op, operation_aborted)) <$> gone).

Definition posts (gone : list wait_op) (c c' : context W) : Prop :=
  sched c' = scheduler.post_deferred_completions (aborted gone) (sched c).

Lemma posts_nothing (c c' : context W) : sched c' = sched c -> posts [] c c'.
Proof. unfold posts. by intros ->. Qed.

Lemma queue_at_store q q' (c : context W) :
  context_ok c -> timer_queue_at k (react c) = Ret q ->
  timer_queue_at k (store_timer_queue k q' (react c)) = Ret q'.
Proof.
  intros [Hok _] Hq. destruct (timer_queue_split _ _ _ Hq (ro_keys _ Hok)) as (l1 & l2 & El & Es).
  unfold timer_queue_at. rewrite Es. pose proof (ro_keys _ Hok) as Hn. rewrite El, fmap_app in Hn.
  apply NoDup_app in Hn as (_ & Hn & _). clear El Es.
  induction l1 as [|[j q1] l1 IH]; simpl; [by rewrite Pos.eqb_refl|].
  destruct (Pos.eqb_spec j k) as [->|]; [|apply IH; intros x Hx; apply Hn; set_solver].
  exfalso. apply (Hn k); set_solver +.
Qed.

Lemma times_of A : (forall p e ops, A !! p = Some (e, ops) -> int64 e) -> times_ok (queue_map A).
Proof. intros Ht p x ops (e & Hp & [= ->] & _)%queue_map_some. by eapply Ht. Qed.

Lemma keys_stored q (r : reactor.t) :
  (reactor.timer_queues_ (store_timer_queue k q r)).*1 = (reactor.timer_queues_ r).*1.
Proof.
  unfold store_timer_queue. simpl. rewrite <- list_fmap_compose. apply list_fmap_ext.
  intros i [j q'] _. simpl. by destruct (Pos.eqb_spec j k).
Qed.

(** A change of the queue that the map agrees with. *)
Lemma service_stored q q' (c : context W) A A' :
  service_ok c A -> timer_queue_at k (react c) = Ret q -> represents q' (queue_map A') ->
  (forall p, allocated q' p <-> is_Some (A' !! p)) ->
  (forall p e ops, A' !! p = Some (e, ops) -> int64 e) ->
  service_ok (set_react (store_timer_queue k q' (react c)) c) A'.
Proof.
  intros [Hc Hs Hk _ _] Hq Hr Hall Ht. split; [|done|by rewrite <- Hk; apply keys_stored| |done].
  - apply (kp_ok _ _ (keeps_timers k q q' c Hq (proj1 Hc) (ex_intro _ _ (conj Hr (times_of _ Ht)))) Hc).
  - exists q'. split; [by eapply queue_at_store|done].
Qed.

Lemma service_sched s (c : context W) A : service_ok c A -> service_ok (set_sched s c) A.
Proof. by intros [Hc Hs Hk Hq Ht]. Qed.

Lemma service_same (c c' : context W) A : same_but_world c c' -> service_ok c A -> service_ok c' A.
Proof.
  intros S [Hc Hs Hk Hq Ht]. pose proof (kp_ok _ _ (same_but_world_keeps _ _ S) Hc) as Hc'.
  destruct S as (_ & Hr & _). split; [done|by rewrite Hr..|done].
Qed.

Lemma is_Some_insert_here {A} (m : gmap timer_ptr A) p x j :
  is_Some (m !! p) -> is_Some (<[p := x]> m !! j) <-> is_Some (m !! j).
Proof.
  intros Hp. destruct (decide (j = p)) as [->|]; [by rewrite lookup_insert_eq|by rewrite lookup_insert_ne].
Qed.

Lemma times_insert (A : waits_map) p e ops :
  (forall p e ops, A !! p = Some (e, ops) -> int64 e) -> int64 e ->
  forall j x o, <[p := (e, ops)]> A !! j = Some (x, o) -> int64 x.
Proof. intros Ht He j x o. rewrite lookup_insert_Some. intros [[_ [= <- _]]|[_ Hj]]; [done|by eapply Ht]. Qed.

(** ** The reactor's operations *)

Lemma service_cancel n p e ops (c : context W) A :
  service_ok c A -> A !! p = Some (e, ops) ->
  exists c',
    cancel_timer k p n c = Ret (zlen (cancelled_part n ops), c') /\ posts (cancelled_part n ops) c c' /\
    service_ok c' (<[p := (e, drop (length (cancelled_part n ops)) ops)]> A).
Proof.
  intros Hs Hp. destruct (sv_queue _ _ Hs) as (q & Hq & Hr & Hall).
  destruct (queue_map_cancelled A p e ops n Hp) as [Eo Em].
  destruct (cancel_timer_spec q _ p [] n Hr) as (q' & E & Hr' & Hall'); [apply Hall; eauto|].
  rewrite Eo, Em, app_nil_l in *. unfold cancel_timer. rewrite Hq, Ret_bind, E, Ret_bind.
  eexists. split; [done|]. split; [done|]. apply service_sched. eapply service_stored; [done..| |].
  - intros j. rewrite Hall', Hall. symmetry. apply is_Some_insert_here. eauto.
  - by eapply times_insert, sv_times; eauto using sv_times.
Qed.

Lemma service_cancel_key key p e ops (c : context W) A :
  service_ok c A -> A !! p = Some (e, ops) ->
  exists c',
    cancel_timer_by_key k p key c = Ret c' /\ posts (filter (fun op => cancellation_key_ op = key) ops) c c' /\
    service_ok c' (<[p := (e, filter (fun op => cancellation_key_ op <> key) ops)]> A).
Proof.
  intros Hs Hp. destruct (sv_queue _ _ Hs) as (q & Hq & Hr & Hall).
  destruct (queue_map_keyed A p e ops key Hp) as [Eo Em].
  destruct (cancel_timer_by_key_spec q _ p [] key Hr) as (q' & E & Hr' & Hall'); [apply Hall; eauto|].
  rewrite Eo, Em, app_nil_l in *. unfold cancel_timer_by_key. rewrite Hq, Ret_bind, E, Ret_bind.
  eexists. split; [done|]. split; [done|]. apply service_sched. eapply service_stored; [done..| |].
  - intros j. rewrite Hall', Hall. symmetry. apply is_Some_insert_here. eauto.
  - by eapply times_insert, sv_times; eauto using sv_times.
Qed.

Lemma cancelled_all {A} (ops : list A) : zlen ops <= all_waits -> cancelled_part all_waits ops = ops.
Proof. unfold cancelled_part, zlen. intros Hn. apply take_ge. lia. Qed.

Lemma moved_waits_insert A t s v v' :
  t <> s -> A !! s = Some v -> moved_waits (<[t := v']> A) t s = moved_waits A t s.
Proof. intros Hts Hs. unfold moved_waits. by rewrite lookup_insert_ne, Hs, insert_insert_eq. Qed.

Lemma service_move t s et opst e ops (c : context W) A :
  service_ok c A -> t <> s -> A !! t = Some (et, opst) -> zlen opst <= all_waits -> A !! s = Some (e, ops) ->
  exists c',
    ReactorSetup.move_timer k t s c = Ret c' /\ posts opst c c' /\ service_ok c' (moved_waits A t s).
Proof.
  intros Hs Hts Ht Hn Hsrc. destruct (sv_queue _ _ Hs) as (q & Hq & Hr & Hall).
  destruct (queue_map_cancelled A t et opst all_waits Ht) as [Eo Em].
  destruct (cancel_timer_spec q _ t [] all_waits Hr) as (q1 & E1 & Hr1 & Hall1); [apply Hall; eauto|].
  rewrite Eo, cancelled_all in * by done. rewrite drop_all in Em. rewrite app_nil_l in E1.
  rewrite Em in Hr1. set (A1 := <[t := (et, [])]> A) in *.
  assert (A1 !! s = Some (e, ops)) as Hs1 by (unfold A1; by rewrite lookup_insert_ne).
  assert (queue_map A1 !! t = None) as Ht1 by (apply (queue_map_idle _ _ et); apply lookup_insert_eq).
  destruct (move_timer_spec t s Hts q1 _ Hr1) as (q2 & E2 & Hr2 & Hall2);
    [apply Hall1, Hall; eauto|apply Hall1, Hall; eauto|done|].
  rewrite (queue_map_moved _ _ _ _ _ Hts Hs1 Ht1) in Hr2. unfold A1 in Hr2.
  rewrite (moved_waits_insert _ _ _ _ _ Hts Hsrc) in Hr2.
  unfold ReactorSetup.move_timer. change (2 ^ 64 - 1) with all_waits. rewrite Hq, Ret_bind, E1, Ret_bind, E2, Ret_bind.
  eexists. split; [done|]. split; [done|]. apply service_sched. unfold moved_waits in *. rewrite Hsrc in *.
  eapply service_stored; [done..| |].
  - intros j. rewrite Hall2, Hall1, Hall. rewrite is_Some_insert_here; [by rewrite is_Some_insert_here by eauto|].
    rewrite lookup_insert_ne by done. eauto.
  - pose proof (sv_times _ _ Hs) as Hi. apply times_insert; [|done]. apply times_insert; [done|by eapply Hi].
Qed.

(** ** Starting a wait *)

Lemma update_timeout_react (c c' : context W) : update_timeout c = Ret c' -> react c' = react c.
Proof.
  unfold update_timeout, arm_timer_fd, interrupt, read_clock, ctl. destruct (negb _).
  - destruct (clock_now _) as [now w]. intros (u & _ & [= <-])%bind_Ret. done.
  - intros [= <-]. by destruct (epoll_ctl _ _ _ _ _).
Qed.

(** The heap has no more entries than the program has timers. *)
Lemma heap_fits q A :
  represents q (queue_map A) -> (length (heap_ q) <= size A)%nat.
Proof.
  intros Hr. pose proof Hr as (l & Hw & Hl & _). rewrite <- (length_fmap timer_), <- size_dom.
  rewrite <- (size_list_to_set (C := gset timer_ptr)) by apply indexed_nodup, (tw_indexed _ _ Hw).
  apply subseteq_size. intros p. rewrite elem_of_list_to_set. intros Hp.
  apply list_elem_of_fmap in Hp as (e & -> & He). apply elem_of_dom.
  apply (tw_active _ _ Hw), Hl in He as [[t ops] He]. apply queue_map_some in He as (? & ? & _). eauto.
Qed.

Lemma service_schedule p e ops op (c : context W) A :
  service_ok c A -> A !! p = Some (e, ops) -> Z.of_nat (size A) + 1 < npos ->
  exists c',
    schedule_timer k e p op c = Ret c' /\ advanced [op_id op] false c c' /\
    service_ok c' (<[p := (e, ops ++ [op])]> A).
Proof.
  intros Hs Hp Hn. destruct (sv_queue _ _ Hs) as (q & Hq & Hr & Hall).
  assert (zlen (heap_ q) + 1 < npos) as Hsize by (pose proof (heap_fits _ _ Hr); unfold zlen; lia).
  destruct (schedule_timer_spec k e p op c (sv_context _ _ Hs)) as (c' & E & A1);
    [exists q; split; [done|apply Hall; eauto]|by eapply sv_times|intros q0 Hq0; rewrite Hq in Hq0; by injection Hq0 as <-|].
  exists c'. split; [done|]. split; [done|]. revert E. unfold schedule_timer.
  rewrite (sv_running _ _ Hs), Hq, Ret_bind.
  destruct (enqueue_timer_spec is_positive_infinity e p op q _ Hr) as (b & q' & -> & Hr' & Hall' & _);
    [apply Hall; eauto|done|].
  rewrite Ret_bind. simpl in Hr'. rewrite (queue_map_enqueued _ _ _ _ _ Hp) in Hr'.
  assert (service_ok (set_react (store_timer_queue k q' (react c)) c) (<[p := (e, ops ++ [op])]> A)) as Hs'.
  { eapply service_stored; [done..| |].
    - intros j. rewrite Hall', Hall. symmetry. apply is_Some_insert_here. eauto.
    - by eapply times_insert, sv_times; eauto using sv_times. }
  destruct b; [|intros [= <-]; by apply service_sched].
  intros E%update_timeout_react. pose proof (kp_ok _ _ (ad_keeps _ _ _ _ A1) (sv_context _ _ Hs)) as Hc'.
  destruct Hs' as [_ Hr0 Hk0 Hq0 Ht0]. split; [done|by rewrite E..|done].
Qed.

(** ** Objects *)

(** The memory may change but for the active timers. *)
Lemma represents_memory q a m :
  represents q a -> (forall j, is_Some (a !! j) -> m !! j = memory_ q !! j) ->
  (forall j d, m !! j = Some d -> a !! j = None -> memory_ q !! j = Some d \/ d = new_timer) ->
  represents (mkTimers (timers_ q) (heap_ q) m) a.
Proof.
  intros (l & Hw & Hl & Ha) Hin Hout. exists l. pose proof Hw as [Hi Ho Hs Hact Hnp [Ln Lh Lin Lout]].
  assert (forall j, j ∈ l -> m !! j = memory_ q !! j) as Hml by (intros j Hj; by apply Hin, Hl).
  assert (forall j d, m !! j = Some d -> j ∉ l -> memory_ q !! j = Some d \/ d = new_timer) as Hmo.
  { intros j d Hj Hjl. apply (Hout j d Hj). apply eq_None_not_Some. by rewrite <- Hl. }
  split; [split; simpl; try done|split; [done|]].
  - intros i e He. destruct (Hi i e He) as (d & Hd & Hidx). exists d. split; [|done]. simpl.
    rewrite Hml; [done|]. by apply Hact, (list_elem_of_lookup_2 _ i).
  - intros j d Hj Hjh. destruct (decide (j ∈ l)) as [Hjl|Hjl]; [rewrite Hml in Hj by done; by eapply Hnp|].
    destruct (Hmo j d Hj Hjl) as [Hd| ->]; [by eapply Hnp|done].
  - split; [done|done| |]; simpl.
    + intros l1 j l2 E. rewrite Hml; [by apply Lin|]. rewrite E. set_solver +.
    + intros j d Hj Hjl. destruct (Hmo j d Hj Hjl) as [Hd| ->]; [by eapply Lout|done].
  - simpl. intros j d x ops Hj Hjx. rewrite Hin in Hj by eauto. by eapply Ha.
Qed.

Lemma impls_insert (A : waits_map) p e ops b (m : gmap timer_ptr implementation_type) :
  (forall j, impl_ok (m !! j) (A !! j)) -> (b = false -> ops = []) ->
  forall j, impl_ok (<[p := mkTimerImpl e b]> m !! j) (<[p := (e, ops)]> A !! j).
Proof.
  intros Hi Hb j. destruct (decide (j = p)) as [->|Hj].
  - rewrite !lookup_insert_eq. simpl. eauto.
  - by rewrite !lookup_insert_ne.
Qed.

(** What an object of the map is. *)
Lemma load_impl_ok p (s : timers W) A e ops :
  timers_inv s A -> A !! p = Some (e, ops) ->
  exists b, load_impl p s = Ret (mkTimerImpl e b) /\ (b = false -> ops = []).
Proof.
  intros [_ Hi] Hp. specialize (Hi p). rewrite Hp in Hi. destruct Hi as (b & E & Hb).
  exists b. unfold load_impl. by rewrite E.
Qed.

Lemma construct_ok p (s : timers W) A :
  timers_inv s A -> A !! p = None ->
  exists s',
    construct k p s = Ret s' /\ posts [] (service s) (service s') /\ timers_inv s' (<[p := (epoch, [])]> A).
Proof.
  intros [Hs Hi] Hp. destruct (sv_queue _ _ Hs) as (q & Hq & Hr & Hall). unfold construct.
  assert (queue_map A !! p = None) as Hqp by (by rewrite queue_map_lookup, Hp).
  assert (memory_ q !! p = None) as Hmp.
  { apply eq_None_not_Some. intros Hm. apply Hall in Hm. rewrite Hp in Hm. by destruct Hm. }
  rewrite Hq, Ret_bind. eexists. split; [done|]. split; [by apply posts_nothing|]. split.
  - eapply service_stored; [done..| | |].
    + rewrite queue_map_insert. unfold leave. simpl. rewrite delete_id by done.
      apply represents_memory; [done| |].
      * intros j Hj. apply lookup_insert_ne. intros <-. rewrite Hqp in Hj. by destruct Hj.
      * intros j d. rewrite lookup_insert_Some. intros [[_ <-]|[_ Hd]]; eauto.
    + intros j. unfold allocated. simpl. rewrite !lookup_insert_is_Some'. specialize (Hall j).
      unfold allocated in Hall. naive_solver.
    + apply times_insert; [apply (sv_times _ _ Hs)|by vm_compute].
  - simpl. by apply impls_insert.
Qed.

Lemma cancel_ok p e ops (s : timers W) A :
  timers_inv s A -> A !! p = Some (e, ops) -> zlen ops <= all_waits ->
  exists s',
    cancel k p s = Ret (ec_success, zlen ops, s') /\ posts ops (service s) (service s') /\
    timers_inv s' (<[p := (e, [])]> A).
Proof.
  intros Hv Hp Hn. destruct (load_impl_ok _ _ _ _ _ Hv Hp) as (b & Hl & Hb). destruct Hv as [Hs Hi].
  unfold cancel. rewrite Hl, Ret_bind. destruct b; simpl.
  - destruct (service_cancel all_waits p e ops (service s) A Hs Hp) as (c' & E & Hc & Hs').
    rewrite cancelled_all, drop_all in * by done. rewrite E, Ret_bind. eexists. split; [done|]. split; [done|].
    split; [done|]. by apply impls_insert.
  - rewrite (Hb eq_refl) in *. exists s. split; [done|]. split; [by apply posts_nothing|].
    by rewrite insert_id.
Qed.

Lemma cancel_one_ok p e ops (s : timers W) A :
  timers_inv s A -> A !! p = Some (e, ops) ->
  exists s',
    cancel_one k p s = Ret (ec_success, zlen (take 1 ops), s') /\ posts (take 1 ops) (service s) (service s') /\
    timers_inv s' (<[p := (e, drop 1 ops)]> A).
Proof.
  intros Hv Hp. destruct (load_impl_ok _ _ _ _ _ Hv Hp) as (b & Hl & Hb). destruct Hv as [Hs Hi].
  unfold cancel_one. rewrite Hl, Ret_bind. destruct b; simpl.
  - destruct (service_cancel 1 p e ops (service s) A Hs Hp) as (c' & E & Hc & Hs').
    change (cancelled_part 1 ops) with (take 1 ops) in *.
    assert (drop (length (take 1 ops)) ops = drop 1 ops) as Ed by (by destruct ops). rewrite Ed in Hs'.
    rewrite E, Ret_bind. eexists. split; [done|]. split; [done|]. split; [done|].
    by destruct ops; apply impls_insert.
  - rewrite (Hb eq_refl) in *. exists s. split; [done|]. split; [by apply posts_nothing|].
    by rewrite insert_id.
Qed.

Lemma destroy_ok p e ops (s : timers W) A :
  timers_inv s A -> A !! p = Some (e, ops) -> zlen ops <= all_waits ->
  exists s',
    destroy k p s = Ret s' /\ posts ops (service s) (service s') /\ timers_inv s' (delete p A).
Proof.
  intros Hv Hp Hn. destruct (cancel_ok _ _ _ _ _ Hv Hp Hn) as (s1 & E & Hc & [Hs Hi]).
  unfold destroy. rewrite E, Ret_bind. destruct (sv_queue _ _ Hs) as (q & Hq & Hr & Hall).
  rewrite Hq, Ret_bind. eexists. split; [done|]. split; [exact Hc|].
  assert (queue_map (<[p := (e, [])]> A) = queue_map (delete p A)) as E'.
  { rewrite queue_map_insert, queue_map_delete. done. }
  split.
  - eapply service_stored; [done..| | |].
    + rewrite <- E'. apply represents_memory; [done| |].
      * intros j Hj. apply lookup_delete_ne. intros <-. rewrite E', queue_map_delete, lookup_delete_eq in Hj.
        by destruct Hj.
      * intros j d [_ Hd]%lookup_delete_Some. eauto.
    + intros j. unfold allocated in *. simpl. specialize (Hall j). destruct (decide (j = p)) as [->|Hj].
      * rewrite !lookup_delete_eq. split; by intros [].
      * by rewrite !lookup_delete_ne, Hall, lookup_insert_ne by done.
    + intros j x o [Hj Hjx]%lookup_delete_Some. eapply (sv_times _ _ Hs j). by rewrite lookup_insert_ne.
  - intros j. simpl. specialize (Hi j). destruct (decide (j = p)) as [->|Hj].
    + by rewrite !lookup_delete_eq.
    + rewrite lookup_insert_ne in Hi by done. by rewrite !lookup_delete_ne.
Qed.

Lemma expires_at_ok p t e ops (s : timers W) A :
  timers_inv s A -> A !! p = Some (e, ops) -> zlen ops <= all_waits -> int64 t ->
  exists s',
    expires_at k p t s = Ret (ec_success, zlen ops, s') /\ posts ops (service s) (service s') /\
    timers_inv s' (<[p := (t, [])]> A).
Proof.
  intros Hv Hp Hn Ht. destruct (cancel_ok _ _ _ _ _ Hv Hp Hn) as (s1 & E & Hc & Hv1).
  destruct (load_impl_ok p s1 _ e [] Hv1 (lookup_insert_eq _ _ _)) as (b & Hl & _).
  unfold expires_at. rewrite E, Ret_bind, Hl, Ret_bind. eexists. split; [done|]. split; [exact Hc|].
  destruct Hv1 as [Hs Hi]. rewrite <- (insert_insert_eq A p (t, []) (e, [])). split; [|by apply impls_insert].
  destruct (sv_queue _ _ Hs) as (q & Hq & Hr & Hall). simpl. destruct Hs as [Hctx Hrun Hkeys _ Htimes]. split; [done..| |].
  - exists q. split; [done|]. rewrite queue_map_insert in Hr. split; [by rewrite insert_insert_eq, queue_map_insert|].
    intros j. rewrite Hall. symmetry. apply is_Some_insert_here. by rewrite lookup_insert_eq.
  - by apply times_insert.
Qed.

Lemma clock_inv now c (s : timers W) A :
  read_clock (service s) = (now, c) -> timers_inv s A ->
  int64 now /\ sched c = sched (service s) /\ timers_inv (set_service c s) A.
Proof.
  intros E [Hs Hi]. destruct (read_clock_spec (service s)) as (now' & c' & E' & Hnow & Sw).
  rewrite E in E'. injection E' as <- <-. split; [done|]. split; [by destruct Sw|].
  split; [by eapply service_same|done].
Qed.

Lemma expires_after_ok p d e ops (s : timers W) A :
  timers_inv s A -> A !! p = Some (e, ops) -> zlen ops <= all_waits -> int64 d ->
  exists s',
    expires_after k p d s = Ret (ec_success, zlen ops, s') /\ posts ops (service s) (service s') /\
    timers_inv s' (<[p := (saturate ((read_clock (service s)).1 + d), [])]> A).
Proof.
  intros Hv Hp Hn Hd. unfold expires_after. destruct (read_clock (service s)) as [now c] eqn:Ec.
  destruct (clock_inv _ _ _ _ Ec Hv) as (Hnow & Hsc & Hv1). rewrite add_ok by done. rewrite Ret_bind.
  destruct (expires_at_ok p (saturate (now + d)) e ops _ A Hv1 Hp Hn (saturate_int64 _)) as (s' & E & Hc & Hv').
  exists s'. split; [done|]. split; [|done]. unfold posts in *. simpl in Hc. by rewrite Hc, Hsc.
Qed.

Lemma async_wait_ok p e ops op (s : timers W) A :
  timers_inv s A -> A !! p = Some (e, ops) -> Z.of_nat (size A) + 1 < npos ->
  exists s',
    async_wait k p op s = Ret s' /\ advanced [op_id op] false (service s) (service s') /\
    timers_inv s' (<[p := (e, ops ++ [op])]> A).
Proof.
  intros Hv Hp Hn. destruct (load_impl_ok _ _ _ _ _ Hv Hp) as (b & Hl & _). destruct Hv as [Hs Hi].
  unfold async_wait. rewrite Hl, Ret_bind. simpl.
  destruct (service_schedule p e ops op _ _ Hs Hp Hn) as (c' & -> & Ha & Hs'). rewrite Ret_bind.
  eexists. split; [done|]. split; [done|]. split; [done|]. by apply impls_insert.
Qed.

Lemma cancel_wait_ok type p key e ops (s : timers W) A :
  timers_inv s A -> A !! p = Some (e, ops) ->
  exists s',
    cancel_wait k type p key s = Ret s' /\
    if supported type then
      posts (filter (fun op => cancellation_key_ op = key) ops) (service s) (service s') /\
      timers_inv s' (<[p := (e, filter (fun op => cancellation_key_ op <> key) ops)]> A)
    else s' = s.
Proof.
  intros Hv Hp. unfold cancel_wait. change (Z.lor _ _) with 7. fold (supported type).
  destruct (supported type); [|by exists s]. pose proof Hv as [Hs Hi].
  destruct (service_cancel_key key p e ops _ _ Hs Hp) as (c' & -> & Hc & Hs'). rewrite Ret_bind.
  eexists. split; [done|]. split; [done|]. split; [done|]. intros j. simpl.
  destruct (decide (j = p)) as [->|Hj]; [|by rewrite lookup_insert_ne].
  rewrite lookup_insert_eq. specialize (Hi p). rewrite Hp in Hi. destruct Hi as (b & E & Hb).
  exists b. split; [done|]. intros E'. by rewrite Hb.
Qed.

Lemma move_members_ok t src e ops c (s : timers W) (A : waits_map) :
  (forall j, impl_ok (impls s !! j) (A !! j)) -> t <> src -> A !! src = Some (e, ops) ->
  service_ok c (moved_waits A t src) ->
  exists s', move_members t src (set_service c s) = Ret s' /\ service s' = c /\ timers_inv s' (moved_waits A t src).
Proof.
  intros Hi Ht Hsrc Hs. pose proof (Hi src) as Him. rewrite Hsrc in Him. destruct Him as (b & E & Hb).
  unfold move_members, load_impl. simpl. rewrite E. simpl. eexists. split; [done|]. split; [done|].
  split; [done|]. unfold moved_waits. rewrite Hsrc. simpl. apply impls_insert; [|done]. by apply impls_insert.
Qed.

Lemma move_assign_ok t src et opst e ops (s : timers W) A :
  timers_inv s A -> t <> src -> A !! t = Some (et, opst) -> zlen opst <= all_waits -> A !! src = Some (e, ops) ->
  exists s',
    move_assign k t src s = Ret s' /\ posts opst (service s) (service s') /\
    timers_inv s' (moved_waits A t src).
Proof.
  intros [Hs Hi] Hts Ht Hn Hsrc. unfold move_assign.
  destruct (service_move t src _ _ _ _ _ _ Hs Hts Ht Hn Hsrc) as (c' & -> & Hc & Hs'). rewrite Ret_bind.
  destruct (move_members_ok t src e ops c' s A Hi Hts Hsrc Hs') as (s' & E & <- & Hv'). by exists s'.
Qed.

Lemma move_construct_ok t src e ops (s : timers W) A :
  timers_inv s A -> A !! t = None -> A !! src = Some (e, ops) ->
  exists s',
    move_construct k t src s = Ret s' /\ posts [] (service s) (service s') /\
    timers_inv s' (moved_waits A t src).
Proof.
  intros Hv Ht Hsrc. assert (t <> src) as Hts by congruence.
  destruct (construct_ok t s A Hv Ht) as (s1 & E1 & Hc1 & Hv1).
  destruct (move_assign_ok t src epoch [] e ops s1 _ Hv1 Hts) as (s' & E & Hc & Hv');
    [apply lookup_insert_eq|done|by rewrite lookup_insert_ne|].
  rewrite (moved_waits_insert _ _ _ _ _ Hts Hsrc) in Hv'.
  exists s'. unfold move_construct. rewrite E1, Ret_bind. split; [done|]. split; [|done].
  unfold posts in *. simpl in *. by rewrite Hc, Hc1.
Qed.

(** ** Calls *)

Lemma impls_none p (s : timers W) A : timers_inv s A -> impls s !! p = None <-> A !! p = None.
Proof.
  intros [_ Hi]. specialize (Hi p). destruct (A !! p) as [[e ops]|]; [|by rewrite Hi].
  destruct Hi as (b & -> & _). done.
Qed.

Lemma here_ok p (s : timers W) A :
  timers_inv s A -> here p s -> exists e ops, A !! p = Some (e, ops) /\ zlen ops <= all_waits.
Proof.
  intros Hv [Hp Hn]. destruct (A !! p) as [[e ops]|] eqn:Hap.
  2: { apply (impls_none _ _ _ Hv) in Hap. rewrite Hap in Hp. by destruct Hp. }
  exists e, ops. split; [done|]. destruct (decide (ops = [])) as [->|Hops]; [done|].
  destruct (sv_queue _ _ (tv_service _ _ Hv)) as (q & Hq & Hr & _).
  destruct (represents_here _ _ _ _ _ Hr (queue_map_waiting _ _ _ _ Hap Hops)) as (d & Hd & _ & <-).
  by eapply Hn.
Qed.

Lemma size_impls (s : timers W) A : timers_inv s A -> size (impls s) = size A.
Proof.
  intros Hv. rewrite <- !size_dom. f_equal. apply set_eq. intros p. rewrite !elem_of_dom.
  pose proof (impls_none p s A Hv) as E. rewrite <- !not_eq_None_Some. tauto.
Qed.

(** What a call posts: the waits that it takes away are completed with
    [operation_aborted], in order; a wait that it starts is counted as work. *)
Definition call_posts (x : timer_call) (gone : list wait_op) (c c' : context W) : Prop :=
  match x with
  | call_async_wait _ op => advanced [op_id op] false c c'
  | _ => posts gone c c'
  end.

Lemma timer_call_spec x (s : timers W) A :
  timers_inv s A -> call_ok x s ->
  let '(gone, A') := spec_call (read_clock (service s)).1 x A in
  exists s',
    run_timer_call k x s = Ret (returned x gone, s') /\ call_posts x gone (service s) (service s') /\
    timers_inv s' A'.
Proof.
  intros Hv Hx. destruct x; cbn [spec_call run_timer_call returned call_posts] in *;
    unfold on_timer, timer_cancel, timer_cancel_one, timer_expires_at, timer_expires_after, throwing.
  - apply (impls_none _ _ _ Hv) in Hx. destruct (construct_ok p s A Hv Hx) as (s' & -> & ?). by exists s'.
  - destruct (here_ok p s A Hv Hx) as (e & ops & Hp & Hn). unfold waits_of. rewrite Hp.
    destruct (destroy_ok _ _ _ _ _ Hv Hp Hn) as (s' & -> & ?). by exists s'.
  - destruct (here_ok p s A Hv Hx) as (e & ops & Hp & Hn). rewrite Hp.
    destruct (cancel_ok _ _ _ _ _ Hv Hp Hn) as (s' & -> & ?). by exists s'.
  - destruct (here_ok p s A Hv Hx) as (e & ops & Hp & Hn). rewrite Hp.
    destruct (cancel_one_ok _ _ _ _ _ Hv Hp) as (s' & -> & ?). by exists s'.
  - destruct (here_ok p s A Hv Hx) as (e & ops & Hp & Hn).
    destruct (cancel_wait_ok type _ key _ _ _ _ Hv Hp) as (s' & -> & Hs'). rewrite Hp.
    destruct (supported type); exists s'; [done|]. subst s'. split; [done|]. split; [by apply posts_nothing|done].
  - destruct Hx as [Hx Ht]. destruct (here_ok p s A Hv Hx) as (e & ops & Hp & Hn). rewrite Hp.
    destruct (expires_at_ok _ _ _ _ _ _ Hv Hp Hn Ht) as (s' & -> & ?). by exists s'.
  - destruct Hx as [Hx Hd]. destruct (here_ok p s A Hv Hx) as (e & ops & Hp & Hn). rewrite Hp.
    destruct (expires_after_ok _ _ _ _ _ _ Hv Hp Hn Hd) as (s' & -> & ?). by exists s'.
  - destruct Hx as [Hx Hd]. destruct (here_ok p s A Hv Hx) as (e & ops & Hp & Hn). rewrite Hp.
    rewrite (size_impls _ _ Hv) in Hd.
    destruct (async_wait_ok _ _ _ op _ _ Hv Hp Hd) as (s' & -> & ?). by exists s'.
  - destruct Hx as [Ht Hx]. apply (impls_none _ _ _ Hv) in Ht.
    destruct (here_ok source s A Hv Hx) as (e & ops & Hp & Hn).
    destruct (move_construct_ok _ _ _ _ _ _ Hv Ht Hp) as (s' & -> & ?). by exists s'.
  - destruct Hx as (Ht & Hx & Hts). destruct (here_ok target s A Hv Ht) as (et & opst & Hpt & Hnt).
    destruct (here_ok source s A Hv Hx) as (e & ops & Hp & Hn). unfold waits_of. rewrite Hpt.
    destruct (move_assign_ok _ _ _ _ _ _ _ _ Hv Hts Hpt Hnt Hp) as (s' & -> & ?). by exists s'.
Qed.

(** ** The reactor checks the timers *)

Lemma get_ready_all_app now ops (l1 l2 : list (positive * timer_queue)) :
  get_ready_timers_all now ops (l1 ++ l2) =
  ('(ops, l1) ← get_ready_timers_all now ops l1;
   '(ops, l2) ← get_ready_timers_all now ops l2;
   Ret (ops, l1 ++ l2)).
Proof.
  revert ops. induction l1 as [|[j q] l1 IH]; intros ops; simpl.
  - destruct (get_ready_timers_all now ops l2) as [[ops' l2']|?|]; done.
  - destruct (get_ready_timers now ops q) as [[ops1 q1]|?|]; rewrite ?Ret_bind; [|done|done].
    rewrite IH. destruct (get_ready_timers_all now ops1 l1) as [[ops2 l1']|?|]; rewrite ?Ret_bind; [|done|done].
    by destruct (get_ready_timers_all now ops2 l2) as [[ops3 l2']|?|].
Qed.

Lemma get_ready_all_split now q (l1 l2 : list (positive * timer_queue)) A :
  Forall (fun kq => timers_ok kq.2) (l1 ++ l2) -> represents q (queue_map A) ->
  exists pre due post l1' q' l2',
    get_ready_timers_all now [] (l1 ++ (k, q) :: l2) =
      Ret (pre ++ concat (ready_ops (queue_map A) <$> due) ++ post, l1' ++ (k, q') :: l2') /\
    due_timers now (queue_map A) due /\ represents q' (queue_map (expire_waits now A)) /\
    (forall p, allocated q' p <-> allocated q p) /\ l1'.*1 = l1.*1 /\ l2'.*1 = l2.*1 /\
    (l1 = [] -> pre = []) /\ (l2 = [] -> post = []).
Proof.
  intros Hqs Hr. apply Forall_app in Hqs as [H1 H2].
  destruct (get_ready_timers_all_spec now l1 [] H1) as (pre & l1' & E1 & _ & K1 & _).
  destruct (get_ready_loop_spec (length (heap_ q)) q (queue_map A) now pre Hr) as (due & q' & E & Hdue & Hr' & Hall);
    [lia|].
  destruct (get_ready_timers_all_spec now l2 (pre ++ concat (ready_ops (queue_map A) <$> due)) H2)
    as (post & l2' & E2 & _ & K2 & _).
  exists pre, due, post, l1', q', l2'. rewrite queue_map_expired.
  split; [|split_and!; try done].
  - rewrite get_ready_all_app, E1, Ret_bind. simpl. unfold get_ready_timers in *.
    rewrite E, Ret_bind, E2, Ret_bind. by rewrite app_assoc.
  - intros ->. by injection E1.
  - intros ->. injection E2 as E2 _. apply (f_equal length) in E2. rewrite (length_app _ post) in E2.
    apply nil_length_inv. lia.
Qed.

Lemma checked_react (c c' : context W) :
  (if has_timer_fd c then arm_timer_fd c else Ret c) = Ret c' -> react c' = react c.
Proof.
  unfold arm_timer_fd, read_clock. destruct (has_timer_fd c); [|by intros [= <-]].
  destruct (clock_now _) as [now w]. by intros (u & _ & [= <-])%bind_Ret.
Qed.

(** The expiry of a timer with pending waits is after [now]. *)
Definition none_due (now : Z) (c : context W) : Prop :=
  forall q e, timer_queue_at k (react c) = Ret q -> e ∈ heap_ q -> now < time_ e.

Lemma find_queue (l1 l2 : list (positive * timer_queue)) q :
  k ∉ l1.*1 -> find (fun kq => (kq.1 =? k)%positive) (l1 ++ (k, q) :: l2) = Some (k, q).
Proof.
  induction l1 as [|[j q1] l1 IH]; simpl; [by rewrite Pos.eqb_refl|]. intros Hk.
  destruct (Pos.eqb_spec j k) as [->|]; [exfalso; apply Hk; set_solver +|]. apply IH. set_solver.
Qed.

Lemma expire_timers_ok ops (c : context W) A :
  service_ok c A ->
  exists pre due post c',
    expire_timers ops c =
      Ret (ops ++ (expired <$> pre ++ concat (ready_ops (queue_map A) <$> due) ++ post), c') /\
    due_timers (read_clock c).1 (queue_map A) due /\ none_due (read_clock c).1 c' /\
    (keys = [k] -> pre = [] /\ post = []) /\
    service_ok c' (expire_waits (read_clock c).1 A).
Proof.
  intros Hs. destruct (expire_timers_spec ops c (sv_context _ _ Hs)) as (new & c' & E & _ & K & _).
  destruct (sv_queue _ _ Hs) as (q & Hq & Hr & Hall).
  destruct (timer_queue_split _ _ _ Hq (ro_keys _ (proj1 (sv_context _ _ Hs)))) as (l1 & l2 & El & _).
  pose proof (ro_timers _ (proj1 (sv_context _ _ Hs))) as Ht. pose proof (ro_keys _ (proj1 (sv_context _ _ Hs))) as Hn.
  rewrite El in Ht, Hn. rewrite fmap_app in Hn. simpl in Hn.
  assert (Forall (fun kq => timers_ok kq.2) (l1 ++ l2)) as Ht'.
  { apply Forall_app in Ht as [H1 H2]. apply Forall_app. split; [done|]. by apply Forall_cons in H2 as [_ H2]. }
  unfold expire_timers in *. destruct (read_clock_spec c) as (now & c1 & Ec & _ & _ & Hr1 & _).
  rewrite Ec, Hr1, El in *.
  destruct (get_ready_all_split now q l1 l2 A Ht' Hr)
    as (pre & due & post & l1' & q' & l2' & Eg & Hdue & Hr' & Hall' & K1 & K2 & P1 & P2).
  rewrite Eg, Ret_bind in *. set (c5 := set_react _ c1) in *.
  apply bind_Ret in E as (c6 & E6 & [= _ <-]). rewrite E6, Ret_bind. apply checked_react in E6.
  exists pre, due, post, c6. split; [done|]. split; [done|].
  assert (k ∉ l1'.*1) as Hk1.
  { rewrite K1. intros Hk. apply NoDup_app in Hn as (_ & Hn & _). apply (Hn k Hk). set_solver +. }
  assert (timer_queue_at k (react c6) = Ret q') as Hq'.
  { rewrite E6. unfold timer_queue_at. simpl. by rewrite find_queue. }
  split_and!.
  - intros q2 e Hq2 He. rewrite Hq' in Hq2. injection Hq2 as <-.
    destruct (represents_entry q' _ (timer_ e) (time_ e) Hr') as [_ [ops' Hops]]; [by destruct e|].
    rewrite queue_map_expired in Hops. by apply map_lookup_filter_Some in Hops as [_ ?].
  - rewrite <- (sv_keys _ _ Hs), El, fmap_app, fmap_cons. intros Ek. destruct l1 as [|[? ?] l1]; [|by destruct l1].
    destruct l2 as [|[? ?] l2]; [|done]. by split; [apply P1|apply P2].
  - split; [by apply (kp_ok _ _ K), Hs|by rewrite E6; apply Hs| |exists q'; split; [done|]; split; [done|]|].
    + rewrite E6, <- (sv_keys _ _ Hs), El. simpl. by rewrite !fmap_app, !fmap_cons, K1, K2.
    + intros p. rewrite Hall', Hall. unfold expire_waits. by rewrite lookup_fmap, fmap_is_Some.
    + intros p e o. unfold expire_waits. rewrite lookup_fmap, fmap_Some. intros ([x o'] & Hp & E).
      simpl in E. case_match; injection E as -> ->; by eapply (sv_times _ _ Hs).
Qed.
(** ** The start *)

Lemma construct_service_inv (c : context W) :
  keys = [k] -> context_ok c -> reactor.shutdown_ (react c) = false -> reactor.timer_queues_ (react c) = [] ->
  timers_inv (mkTimerObjects ∅ (construct_service k c)) ∅.
Proof.
  intros -> [[Hn Hh Hf Hr Ht Hk] Hg] Hrun Hq.
  assert (represents (mkTimers None [] ∅) (queue_map ∅)) as Hrep by (by apply new_queue_represents).
  split; [|done]. split; [|done| | |done]; simpl; rewrite ?Hq; [|done|].
  - split; [|done]. split; try done; simpl; rewrite ?Hq.
    + apply Forall_singleton. exists (queue_map ∅). by split.
    + apply NoDup_singleton.
  - unfold timer_queue_at. simpl. rewrite Pos.eqb_refl. eexists. split; [done|].
    split; [done|]. intros p. unfold allocated. simpl. by rewrite !lookup_empty.
Qed.
Lemma expired_impls now (m : gmap timer_ptr implementation_type) A p :
  impl_ok (m !! p) (A !! p) -> impl_ok (m !! p) (expire_waits now A !! p).
Proof.
  unfold expire_waits. rewrite lookup_fmap. destruct (A !! p) as [[e ops]|]; [|done].
  intros (b & E & Hb). simpl. destruct (e <=? now); exists b; (split; [done|]); [done|exact Hb].
Qed.


(** ** Refinement *)

(** C33. The timers of a program refine the map of their pending waits: each call on
    timers that exist returns, takes the waits that the specification says and completes
    them in order with [operation_aborted], and returns their number; that the flag lets
    it skip the timer queue makes no difference.  A check of the timers completes the
    waits of exactly those that have expired, in the order of their expiry. *)
Theorem timer_calls_refine (x : timer_call) (s : timers W) (A : waits_map)
    (Hv : timers_inv s A) (Hx : call_ok x s) :
  let now := (read_clock (service s)).1 in
  let '(gone, A') := spec_call now x A in
  (exists s',
     run_timer_call k x s = Ret (returned x gone, s') /\ call_posts x gone (service s) (service s') /\
     timers_inv s' A') /\
  forall ops, exists pre due post c',
    expire_timers ops (service s) =
      Ret (ops ++ (expired <$> pre ++ concat (ready_ops (queue_map A) <$> due) ++ post), c') /\
    due_timers now (queue_map A) due /\ timers_inv (set_service c' s) (expire_waits now A).
Proof.
  intros now. pose proof (timer_call_spec x s A Hv Hx) as Hc. fold now in Hc.
  destruct (spec_call now x A) as [gone A']. split; [exact Hc|]. intros ops. destruct Hv as [Hs Hi].
  destruct (expire_timers_ok ops (service s) A Hs) as (pre & due & post & c' & E & Hdue & _ & _ & Hs').
  exists pre, due, post, c'. split; [exact E|]. split; [exact Hdue|]. split; [exact Hs'|].
  intros p. by apply expired_impls.
Qed.

(** ** A wait that is moved *)

(** The cancellation of a wait goes by the timer it was started on: once the timer is
    moved, it finds nothing to cancel, and once the moved-from timer is destroyed, it is
    undefined, although the wait is still pending. *)
Lemma moved_wait_not_cancelled t src e ops type key (s : timers W) A :
  timers_inv s A -> A !! t = None -> A !! src = Some (e, ops) -> supported type = true ->
  exists s1 s2,
    move_construct k t src s = Ret s1 /\ timers_inv s1 (moved_waits A t src) /\
    (exists s', cancel_wait k type src key s1 = Ret s' /\ posts [] (service s1) (service s') /\
       timers_inv s' (moved_waits A t src)) /\
    destroy k src s1 = Ret s2 /\ timers_inv s2 (delete src (moved_waits A t src)) /\
    cancel_wait k type src key s2 = Undef.
Proof.
  intros Hv Ht Hsrc Htype. destruct (move_construct_ok _ _ _ _ _ _ Hv Ht Hsrc) as (s1 & E1 & _ & Hv1).
  assert (moved_waits A t src !! src = Some (epoch, [])) as Hm
    by (unfold moved_waits; rewrite Hsrc; apply lookup_insert_eq).
  destruct (destroy_ok _ _ _ _ _ Hv1 Hm) as (s2 & E2 & _ & Hv2); [done|].
  exists s1, s2. split; [done|]. split; [done|]. split; [|split; [done|split; [done|]]].
  - destruct (cancel_wait_ok type src key _ _ _ _ Hv1 Hm) as (s' & E & Hs'). rewrite Htype in Hs'.
    exists s'. split; [done|]. by rewrite insert_id in Hs'.
  - unfold cancel_wait. change (Z.lor _ _) with 7. fold (supported type). rewrite Htype.
    unfold cancel_timer_by_key, TimerQueue.cancel_timer_by_key, load.
    destruct (sv_queue _ _ (tv_service _ _ Hv2)) as (q & -> & _ & Hall). rewrite Ret_bind.
    destruct (memory_ q !! src) as [d|] eqn:Hd; [|done].
    assert (is_Some (delete src (moved_waits A t src) !! src)) as [? Hd'] by (apply Hall; by exists d).
    by rewrite lookup_delete_eq in Hd'.
Qed.
End Spec.

(** * An example *)

(** A system of which nothing is used but the clock: five ticks pass with each reading. *)
#[global] Instance clock_kernel : Kernel Z := {
  perform id r w := (SocketStream.reactor_op.not_done, r, w);
  epoll_ctl op fd events source w := (None, w);
  epoll_wait timeout w := ([], w);
  close_fd fd w := w;
  timerfd_settime abs sec nsec w := w;
  clock_now w := (saturate w, w + 5)
}.

#[global] Program Instance clock_laws : KernelLaws Z := { given w := ∅ }.
Next Obligation. intros w. apply saturate_int64. Qed.
Next Obligation. done. Qed.
Next Obligation. done. Qed.
Next Obligation. done. Qed.
Next Obligation. done. Qed.
Next Obligation. intros op fd events [| |p] w; simpl; set_solver. Qed.
Next Obligation. done. Qed.
Next Obligation. intros timeout w p events. simpl. by intros Hk%elem_of_nil. Qed.

Definition ex_reactor : context Z := IoContext.begin false 3 (-1) [] 3.

Lemma ex_reactor_ok : context_ok ex_reactor.
Proof.
  destruct (IoContextSpec.begin_spec false 3 (-1) [] 3) as [Hc _];
    [constructor|apply NoDup_nil_2|done|done|exact Hc].
Qed.

Lemma ex_new_timers : timers_inv 1 [1%positive] (mkTimerObjects ∅ (construct_service 1 ex_reactor)) ∅.
Proof. by apply construct_service_inv; [|exact ex_reactor_ok|..]. Qed.

Lemma ex_called x n (s s' : timers Z) A :
  timers_inv 1 [1%positive] s A -> call_ok 1 x s -> run_timer_call 1 x s = Ret (n, s') ->
  timers_inv 1 [1%positive] s' (spec_call (read_clock (service s)).1 x A).2.
Proof.
  intros Hv Hx E. pose proof (timer_call_spec 1 [1%positive] x s A Hv Hx) as Hs.
  destruct (spec_call _ x A) as [gone A']. destruct Hs as (s1 & E1 & _ & Hv'). rewrite E in E1.
  by injection E1 as _ <-.
Qed.

Definition result {W} (o : outcome (option Z * timers W)) (s : timers W) : timers W :=
  match o with
  | Ret (_, s) => s
  | _ => s
  end.

(** A timer that expires at 7, with two waits. *)
Definition ex_first : wait_op := mkWaitOp 10 1.
Definition ex_second : wait_op := mkWaitOp 11 2.
Definition ex_none : timers Z := mkTimerObjects ∅ (construct_service 1 ex_reactor).
Definition ex_idle : timers Z := result (run_timer_call 1 (call_construct 1) ex_none) ex_none.
Definition ex_set : timers Z := result (run_timer_call 1 (call_expires_at 1 7) ex_idle) ex_idle.
Definition ex_one : timers Z := result (run_timer_call 1 (call_async_wait 1 ex_first) ex_set) ex_set.
Definition ex_two : timers Z := result (run_timer_call 1 (call_async_wait 1 ex_second) ex_one) ex_one.

Ltac timer_here :=
  split; [by eexists; vm_compute|intros q d Eq Ed; vm_compute in Eq; injection Eq as <-;
    vm_compute in Ed; injection Ed as <-; by vm_compute].

Lemma ex_two_inv : timers_inv 1 [1%positive] ex_two {[1%positive := (7, [ex_first; ex_second])]}.
Proof.
  assert (timers_inv 1 [1%positive] ex_idle {[1%positive := (0, [])]}) as H1
    by exact (ex_called (call_construct 1) None ex_none ex_idle ∅ ex_new_timers eq_refl eq_refl).
  assert (timers_inv 1 [1%positive] ex_set {[1%positive := (7, [])]}) as H2.
  { refine (ex_called (call_expires_at 1 7) (Some 0) ex_idle ex_set _ H1 _ _); [|by vm_compute].
    split; [timer_here|by vm_compute]. }
  assert (timers_inv 1 [1%positive] ex_one {[1%positive := (7, [ex_first])]}) as H3.
  { refine (ex_called (call_async_wait 1 ex_first) None ex_set ex_one _ H2 _ _); [|by vm_compute].
    split; [timer_here|by vm_compute]. }
  refine (ex_called (call_async_wait 1 ex_second) None ex_one ex_two _ H3 _ _); [|by vm_compute].
  split; [timer_here|by vm_compute].
Qed.

Lemma timer_calls_refine_witness :
  timers_inv 1 [1%positive] ex_two {[1%positive := (7, [ex_first; ex_second])]} /\
  call_ok 1 (call_expires_at 1 20) ex_two /\
  exists s', run_timer_call 1 (call_expires_at 1 20) ex_two = Ret (Some 2, s').
Proof.
  assert (call_ok 1 (call_expires_at 1 20) ex_two) as Hx by (split; [timer_here|by vm_compute]).
  split; [exact ex_two_inv|]. split; [exact Hx|].
  destruct (timer_calls_refine 1 [1%positive] (call_expires_at 1 20) ex_two _ ex_two_inv Hx)
    as ((s' & E & _) & _).
  exists s'. exact E.
Defined.
