(* ===== verification/TimerRuns.v ===== *)
(** Runs of a program with timers: whatever it calls and whenever the reactor checks the
    timers, every wait is completed at most once and none is lost; it is completed
    without error only when the clock has reached the expiry that its timer had when it
    was started, and else with [operation_aborted]. *)

From S2P Require Import Prelude.
From S2P Require Import AsioError.
From S2P Require Import ChronoTimeTraits.
From S2P Require Import TimerQueue.
From S2P Require Import TimerQueueSpec.
From S2P Require Import TimerQueueRefines.
From S2P Require Import Scheduler.
From S2P Require Import EpollReactor.
From S2P Require Import ReactorSpec.
From S2P Require Import DeadlineTimer.
From S2P Require Import DeadlineTimerSpec.
From Stdlib Require Import Sorted.
From AAC_tactics Require Import AAC.
From AAC_tactics Require Instances.
Import Instances.Lists.

Lemma gather_fmap {A B C} (g : B -> C) (f : A -> list B) (m : gmap positive A) :
  g <$> gather f m = gather (fun x => g <$> f x) m.
Proof.
  unfold gather. induction (map_to_list m) as [|kv l IH]; [done|]. rewrite !fmap_cons. cbn [concat].
  by rewrite fmap_app, IH.
Qed.

(** * Waits and their expiry *)

Definition with_expiry (e : Z) (ops : list wait_op) : list (positive * Z) :=
  (fun op => (op_id op, e)) <$> ops.

Definition waits_here (v : Z * list wait_op) : list (positive * Z) := with_expiry v.1 v.2.

(** All pending waits, with the expiry of their timers. *)
Definition pending_waits (A : waits_map) : list (positive * Z) := gather waits_here A.

Lemma with_expiry_app e ops ops' : with_expiry e (ops ++ ops') = with_expiry e ops ++ with_expiry e ops'.
Proof. apply fmap_app. Qed.

Lemma with_expiry_fst e ops : (with_expiry e ops).*1 = op_id <$> ops.
Proof. unfold with_expiry. by rewrite <- list_fmap_compose. Qed.

Lemma pending_changed A p e ops e' ops' gone new :
  A !! p = Some (e, ops) ->
  with_expiry e gone ++ with_expiry e' ops' ≡ₚ new ++ with_expiry e ops ->
  with_expiry e gone ++ pending_waits (<[p := (e', ops')]> A) ≡ₚ new ++ pending_waits A.
Proof.
  intros Hp E. unfold pending_waits. rewrite gather_insert, (gather_delete _ _ _ _ Hp).
  unfold waits_here at 1 3. simpl. by rewrite !app_assoc, E.
Qed.

Lemma pending_moved A t s v :
  t <> s -> A !! s = Some v ->
  default [] (waits_here <$> A !! t) ++ pending_waits (moved_waits A t s) ≡ₚ pending_waits A.
Proof.
  intros Hts Hs. unfold pending_waits, moved_waits. rewrite Hs, gather_insert, delete_insert_ne by done.
  rewrite gather_insert, (gather_delete waits_here A s v Hs). unfold waits_here at 2. simpl.
  destruct (A !! t) as [vt|] eqn:Ht; simpl.
  - rewrite (gather_delete waits_here (delete s A) t vt) by (by rewrite lookup_delete_ne). aac_reflexivity.
  - by rewrite (delete_id _ t) by (by rewrite lookup_delete_ne).
Qed.

Section Runs.
Context {W : Type} `{KernelLaws W} (k : positive).

(** The wait that a call starts, with the expiry of its timer. *)
Definition starts_wait (x : timer_call) (s : timers W) : list (positive * Z) :=
  match x with
  | call_async_wait p op =>
      match impls s !! p with
      | Some impl => [(op_id op, expiry impl)]
      | None => []
      end
  | _ => []
  end.

(** A call accounts for every wait. *)
Lemma call_accounts now x (s : timers W) A :
  timers_inv k [k] s A -> call_ok k x s ->
  let '(gone, A') := spec_call now x A in
  exists e, with_expiry e gone ++ pending_waits A' ≡ₚ starts_wait x s ++ pending_waits A.
Proof.
  intros Hv Hx. assert (forall p, here k p s -> exists e ops, A !! p = Some (e, ops)) as Hh.
  { intros p Hp. destruct (here_ok k [k] p s A Hv Hp) as (e & ops & ? & _). eauto. }
  destruct x; cbn [spec_call starts_wait call_ok] in *; unfold on_timer.
  - exists 0. simpl. unfold pending_waits. rewrite gather_insert_new; [done|]. by apply (impls_none k [k] p s).
  - destruct (Hh p Hx) as (e & ops & Hp). exists e. unfold waits_of, pending_waits. rewrite Hp.
    by rewrite (gather_delete waits_here A p _ Hp).
  - destruct (Hh p Hx) as (e & ops & Hp). rewrite Hp. exists e.
    eapply (pending_changed _ _ _ _ _ _ _ []); [done|]. simpl. by rewrite app_nil_r.
  - destruct (Hh p Hx) as (e & ops & Hp). rewrite Hp. exists e.
    eapply (pending_changed _ _ _ _ _ _ _ []); [done|]. by rewrite <- with_expiry_app, take_drop.
  - destruct (supported type); [|by exists 0]. destruct (Hh p Hx) as (e & ops & Hp). rewrite Hp. exists e.
    eapply (pending_changed _ _ _ _ _ _ _ []); [done|]. rewrite <- with_expiry_app. simpl.
    unfold with_expiry. by rewrite filter_split.
  - destruct (Hh p (proj1 Hx)) as (e & ops & Hp). rewrite Hp. exists e.
    eapply (pending_changed _ _ _ _ _ _ _ []); [done|]. simpl. by rewrite app_nil_r.
  - destruct (Hh p (proj1 Hx)) as (e & ops & Hp). rewrite Hp. exists e.
    eapply (pending_changed _ _ _ _ _ _ _ []); [done|]. simpl. by rewrite app_nil_r.
  - destruct (Hh p (proj1 Hx)) as (e & ops & Hp). rewrite Hp. exists e.
    pose proof (tv_impls _ _ _ _ Hv p) as Hi. rewrite Hp in Hi. destruct Hi as (b & -> & _).
    eapply (pending_changed _ _ _ _ _ _ []); [done|]. simpl. rewrite with_expiry_app. simpl.
    by rewrite (Permutation_app_comm _ [_]).
  - destruct Hx as [Ht Hx]. destruct (Hh source Hx) as (e & ops & Hp). exists 0. simpl.
    apply (impls_none k [k] target s A Hv) in Ht.
    rewrite <- (pending_moved A target source (e, ops)) by congruence. by rewrite Ht.
  - destruct Hx as (Ht & Hx & Hts). destruct (Hh source Hx) as (e & ops & Hp).
    destruct (Hh target Ht) as (et & opst & Hpt). exists et. simpl.
    rewrite <- (pending_moved A target source (e, ops)) by done. unfold waits_of. by rewrite Hpt.
Qed.

(** ** Expired timers *)

(** The waits of the due timers, completed without error, each with its timer's
    expiry. *)
Definition due_waits (a : timer_map) (due : list heap_entry) : list (completion * Z) :=
  concat ((fun e => (fun op => (mkCompletion (op_id op) ec_success 0, time_ e)) <$>
    default [] (snd <$> a !! timer_ e)) <$> due).

Definition untag (x : completion * Z) : positive * Z := (co_id x.1, x.2).

(** The completions of a check, as the scheduler sees them. *)
Lemma due_waits_completed a due :
  expired <$> concat (ready_ops a <$> due) = user_op <$> (due_waits a due).*1.
Proof.
  unfold due_waits. induction due as [|e due IH]; [done|]. rewrite !fmap_cons. cbn [concat].
  rewrite !fmap_app, IH. f_equal. unfold ready_ops. destruct (a !! timer_ e) as [[t ops]|]; [|done].
  simpl. by rewrite <- !list_fmap_compose.
Qed.

Lemma due_waits_by now a due x : due_timers now a due -> x ∈ due_waits a due -> co_ec x.1 = ec_success /\ x.2 <= now.
Proof.
  intros (_ & _ & Hd) Hx. apply list_elem_of_In, in_concat in Hx as (l & Hl%list_elem_of_In & Hx%list_elem_of_In).
  apply list_elem_of_fmap in Hl as (e & -> & He). apply list_elem_of_fmap in Hx as (op & -> & _).
  split; [done|]. simpl. by apply Hd in He as [_ He].
Qed.

(** A check accounts for every wait. *)
Lemma due_accounts now a due :
  due_timers now a due ->
  let f := fun v : option Z * list wait_op => with_expiry (default 0 v.1) v.2 in
  (untag <$> due_waits a due) ++ gather f (filter (not_due now) a) ≡ₚ gather f a.
Proof.
  intros Hd f. revert a Hd. induction due as [|e due IH]; intros a Hd.
  - simpl. rewrite map_filter_id; [done|]. intros p [[x|] ops] Hp; [|done]. unfold not_due. simpl.
    destruct Hd as (_ & _ & Hd). destruct (Z.le_gt_cases x now) as [Hx|Hx]; [|lia].
    assert (mkEntry x p ∈ []) as Hin by (apply Hd; split; [by exists ops|done]).
    by apply elem_of_nil in Hin.
  - destruct (due_inv _ _ _ _ Hd) as (ops & Hops & Hle & Hmin & Hd').
    destruct (due_cons _ _ _ _ _ Hops Hle Hmin Hd') as (_ & <- & _).
    rewrite (gather_delete f a _ _ Hops), <- (IH _ Hd'). unfold due_waits. rewrite fmap_cons. cbn [concat].
    rewrite fmap_app, Hops, <- app_assoc. simpl. unfold f at 2. simpl. apply Permutation_app.
    { unfold with_expiry. by rewrite <- list_fmap_compose. }
    apply Permutation_app; [|done]. apply reflexive_eq. do 2 f_equal. apply list_fmap_ext.
    intros i e' He'%list_elem_of_lookup_2. rewrite lookup_delete_ne; [done|].
    apply Hd' in He' as [[o Ho] _]. by apply lookup_delete_Some in Ho as [? _].
Qed.

Lemma pending_queue_map A :
  gather (fun v => with_expiry (default 0 v.1) v.2) (queue_map A) ≡ₚ pending_waits A.
Proof.
  apply gather_agree. intros p. rewrite queue_map_lookup. destruct (A !! p) as [[e ops]|]; [|done].
  simpl. case_decide; by subst.
Qed.

Lemma check_accounts now A due :
  due_timers now (queue_map A) due ->
  (untag <$> due_waits (queue_map A) due) ++ pending_waits (expire_waits now A) ≡ₚ pending_waits A.
Proof.
  intros Hd. rewrite <- !pending_queue_map, queue_map_expired. by apply due_accounts.
Qed.

(** * Histories *)

(** The waits that were started, with the expiry of their timers; the completions that
    the scheduler was given for them; and what the clock showed at the checks. *)
Record history := mkHistory {
  objects : timers W;
  started : list (positive * Z);
  completed : list completion;
  readings : list Z
}.

(** The completions that a call posts. *)
Definition posted_by (x : timer_call) (done : list completion) (c c' : context W) : Prop :=
  match x with
  | call_async_wait _ _ => done = []
  | _ => sched c' = scheduler.post_deferred_completions (user_op <$> done) (sched c)
  end.

(** A step of the program: it calls a timer; the reactor checks the timers; or the loop,
    a handler or another component does anything else to the context. *)
Inductive timer_step : history -> history -> Prop :=
  | step_call x n s s' done st cs rs :
      call_ok k x s -> run_timer_call k x s = Ret (n, s') -> posted_by x done (service s) (service s') ->
      timer_step (mkHistory s st cs rs) (mkHistory s' (st ++ starts_wait x s) (cs ++ done) rs)
  | step_check ops s c' done st cs rs :
      expire_timers ops (service s) = Ret (ops ++ (user_op <$> done), c') ->
      timer_step (mkHistory s st cs rs)
        (mkHistory (set_service c' s) st (cs ++ done) (rs ++ [(read_clock (service s)).1]))
  | step_other s c' st cs rs :
      keeps (service s) c' -> reactor.timer_queues_ (react c') = reactor.timer_queues_ (react (service s)) ->
      reactor.shutdown_ (react c') = reactor.shutdown_ (react (service s)) ->
      timer_step (mkHistory s st cs rs) (mkHistory (set_service c' s) st cs rs).

(** Completed without error, the clock having shown the expiry; or aborted. *)
Definition justified (rs : list Z) (x : completion * Z) : Prop :=
  co_ec x.1 = operation_aborted \/ (co_ec x.1 = ec_success /\ exists now, now ∈ rs /\ x.2 <= now).

Record history_inv (h : history) (A : waits_map) : Prop := {
  hi_timers : timers_inv k [k] (objects h) A;
  hi_accounts : exists tagged,
    completed h = tagged.*1 /\ started h ≡ₚ (untag <$> tagged) ++ pending_waits A /\
    Forall (justified (readings h)) tagged
}.

(** ** What the scheduler is given determines the completions *)

Lemma post_deferred_inj (l l' : list operation) (s : scheduler.t) :
  scheduler.post_deferred_completions l s = scheduler.post_deferred_completions l' s -> l = l'.
Proof.
  pose (given s' := match (if scheduler.one_thread_ s then scheduler.this_thread s else None) with
    | Some i => drop (length (private_op_queue i)) (from_option private_op_queue [] (scheduler.this_thread s'))
    | None => drop (length (scheduler.op_queue_ s)) (scheduler.op_queue_ s')
    end).
  assert (forall l, given (scheduler.post_deferred_completions l s) = l) as Hg.
  { intros l0. unfold given, scheduler.post_deferred_completions.
    destruct (if scheduler.one_thread_ s then scheduler.this_thread s else None) as [i|] eqn:Ei.
    - assert (scheduler.this_thread s = Some i) as Et by (by destruct (scheduler.one_thread_ s)).
      case_bool_decide as E; [rewrite Et, E; apply drop_all|]. simpl. by rewrite drop_app_length.
    - case_bool_decide as E; [rewrite E; apply drop_all|].
      unfold scheduler.wake_one_thread_and_unlock, scheduler.interrupt_task.
      repeat case_match; simpl; by rewrite drop_app_length. }
  intros E. by rewrite <- (Hg l), <- (Hg l'), E.
Qed.

Lemma user_ops_inj (l l' : list completion) : user_op <$> l = user_op <$> l' -> l = l'.
Proof. apply list_fmap_eq_inj. congruence. Qed.

Lemma posts_completions gone done (c c' : context W) :
  posts gone c c' -> sched c' = scheduler.post_deferred_completions (user_op <$> done) (sched c) ->
  done = (fun op => mkCompletion (op_id op) operation_aborted 0) <$> gone.
Proof.
  unfold posts. intros -> E%post_deferred_inj. unfold aborted, expired in E.
  rewrite <- list_fmap_compose in E. apply user_ops_inj. rewrite <- E.
  by rewrite <- list_fmap_compose.
Qed.

(** ** The invariant is kept *)

Lemma justified_more rs rs' x : justified rs x -> justified (rs ++ rs') x.
Proof.
  intros [?|(? & now & ? & ?)]; [by left|right]. split; [done|]. exists now. split; [|done].
  apply elem_of_app. by left.
Qed.

(** The tags of the completions of the waits [gone]. *)
Definition aborted_with (e : Z) (gone : list wait_op) : list (completion * Z) :=
  (fun op => (mkCompletion (op_id op) operation_aborted 0, e)) <$> gone.


Lemma started_call rs st cs A A' tagged new gone :
  cs = tagged.*1 -> st ≡ₚ (untag <$> tagged) ++ pending_waits A -> Forall (justified rs) tagged ->
  Forall (justified rs) gone -> (untag <$> gone) ++ pending_waits A' ≡ₚ new ++ pending_waits A ->
  exists tagged',
    cs ++ gone.*1 = tagged'.*1 /\ st ++ new ≡ₚ (untag <$> tagged') ++ pending_waits A' /\
    Forall (justified rs) tagged'.
Proof.
  intros -> Hst Ht Hg E. exists (tagged ++ gone). rewrite !fmap_app. split; [done|]. split; [|by apply Forall_app].
  rewrite <- app_assoc, E, Hst. aac_reflexivity.
Qed.

Lemma step_call_inv x n s s' done st cs rs A :
  history_inv (mkHistory s st cs rs) A -> call_ok k x s -> run_timer_call k x s = Ret (n, s') ->
  posted_by x done (service s) (service s') ->
  exists A', history_inv (mkHistory s' (st ++ starts_wait x s) (cs ++ done) rs) A'.
Proof.
  intros [Hv (tagged & Hcs & Hst & Ht)] Hx E Hdone. simpl in *.
  pose proof (timer_call_spec k [k] x s A Hv Hx) as Hsp.
  pose proof (call_accounts (read_clock (service s)).1 x s A Hv Hx) as Hacc.
  destruct (spec_call _ x A) as [gone A'] eqn:Esp. destruct Hsp as (s1 & E1 & Hp & Hv').
  rewrite E in E1. injection E1 as _ <-.
  destruct Hacc as [e Hacc]. exists A'. split; [done|]. simpl.
  assert (done = (aborted_with e gone).*1) as ->.
  { unfold aborted_with. rewrite <- list_fmap_compose.
    destruct x; simpl in Hdone, Hp; try exact (posts_completions _ _ _ _ Hp Hdone).
    simpl in Esp. unfold on_timer in Esp. by destruct (A !! p) as [[? ?]|]; injection Esp as <- _. }
  eapply started_call; [exact Hcs|exact Hst|done| |].
  - apply Forall_fmap, Forall_true. intros op. by left.
  - rewrite <- Hacc. unfold aborted_with. by rewrite <- list_fmap_compose.
Qed.

Lemma step_check_inv ops s c' done st cs rs A :
  history_inv (mkHistory s st cs rs) A ->
  expire_timers ops (service s) = Ret (ops ++ (user_op <$> done), c') ->
  exists A', history_inv (mkHistory (set_service c' s) st (cs ++ done) (rs ++ [(read_clock (service s)).1])) A'.
Proof.
  intros [[Hs Hi] (tagged & Hcs & Hst & Ht)] E. simpl in *.
  destruct (expire_timers_ok k [k] ops (service s) A Hs)
    as (pre & due & post & c1 & E1 & Hdue & _ & Hone & Hs').
  destruct (Hone eq_refl) as [-> ->]. rewrite app_nil_r, app_nil_l in E1. rewrite E in E1.
  injection E1 as E1%app_inv_head <-. rewrite due_waits_completed in E1. apply user_ops_inj in E1 as ->.
  set (now := (read_clock (service s)).1) in *. exists (expire_waits now A). split.
  - split; [done|]. intros p. by apply expired_impls.
  - simpl. rewrite <- (app_nil_r st). eapply (started_call _ _ _ _ _ _ []); [exact Hcs|exact Hst| | |].
    + eapply Forall_impl; [exact Ht|]. intros x. apply justified_more.
    + apply Forall_forall. intros x Hx. destruct (due_waits_by _ _ _ _ Hdue Hx) as [Hec Hle]. right.
      split; [done|]. exists now. split; [set_solver +|done].
    + by rewrite check_accounts.
Qed.

Lemma timer_step_inv h h' A : history_inv h A -> timer_step h h' -> exists A', history_inv h' A'.
Proof.
  intros Hh Hstep. destruct Hstep as [x n s s' done st cs rs Hx E Hd|ops s c' done st cs rs E|s c' st cs rs K Eq Er].
  - by eapply step_call_inv.
  - by eapply step_check_inv.
  - exists A. destruct Hh as [[Hs Hi] Ha]. split; [|done]. split; [|done]. simpl in *.
    destruct Hs as [Hc Hr Hk Hq Ht]. split; [by apply (kp_ok _ _ K)|by rewrite Er|by rewrite Eq| |done].
    unfold timer_queue_at in *. by rewrite Eq.
Qed.

Lemma timer_runs_inv (c : context W) h :
  context_ok c -> reactor.shutdown_ (react c) = false -> reactor.timer_queues_ (react c) = [] ->
  rtc timer_step (mkHistory (mkTimerObjects ∅ (construct_service k c)) [] [] []) h ->
  exists A, history_inv h A.
Proof.
  intros Hc Hrun Hq Hsteps.
  assert (history_inv (mkHistory (mkTimerObjects ∅ (construct_service k c)) [] [] []) ∅) as Hh.
  { split; [by apply construct_service_inv|]. exists []. split; [done|]. split; [|done]. simpl.
    unfold pending_waits. by rewrite gather_empty. }
  revert Hh. generalize (∅ : waits_map) as A. induction Hsteps as [h|h1 h2 h3 Hstep _ IH]; intros A Hh; [eauto|].
  destruct (timer_step_inv _ _ _ Hh Hstep) as [A' Hh']. by eapply IH.
Qed.

Lemma pending_waiting q A : represents q (queue_map A) -> (pending_waits A).*1 ≡ₚ timer_waiting q.
Proof.
  intros Hr. rewrite (represents_timer_waiting _ _ Hr), <- pending_queue_map, !gather_fmap.
  apply gather_agree. intros p. destruct (queue_map A !! p) as [[t ops]|]; [|done]. simpl.
  by rewrite with_expiry_fst.
Qed.

(** C22. In any run of a program with timers, from the construction of their service on,
    whatever it calls and whenever the reactor checks the timers: every wait that was
    started is pending in the timer queue or was completed, once; it was completed
    without error only after a check at which the clock had reached the expiry that its
    timer had when the wait was started, and else with [operation_aborted].  No call that
    is allowed fails or is undefined, nor is a check, which leaves no timer pending that
    has expired. *)
Theorem waits_complete_once (c : context W) (h : history)
    (Hc : context_ok c) (Hrun : reactor.shutdown_ (react c) = false)
    (Hq : reactor.timer_queues_ (react c) = [])
    (Hsteps : rtc timer_step (mkHistory (mkTimerObjects ∅ (construct_service k c)) [] [] []) h) :
  let ctx := service (objects h) in
  (exists q tagged,
     timer_queue_at k (react ctx) = Ret q /\ completed h = tagged.*1 /\
     (started h).*1 ≡ₚ (co_id <$> completed h) ++ timer_waiting q /\
     Forall (fun x => untag x ∈ started h /\ justified (readings h) x) tagged) /\
  (forall x, call_ok k x (objects h) -> exists n s', run_timer_call k x (objects h) = Ret (n, s')) /\
  (forall ops, exists done c',
     expire_timers ops ctx = Ret (ops ++ (user_op <$> done), c') /\ none_due k (read_clock ctx).1 c').
Proof.
  destruct (timer_runs_inv c h Hc Hrun Hq Hsteps) as (A & Hv & tagged & Hcs & Hst & Ht). intros ctx.
  destruct (sv_queue _ _ _ _ (tv_service _ _ _ _ Hv)) as (q & Eq & Hr & _). split; [|split].
  - exists q, tagged. split; [done|]. split; [done|]. split.
    + rewrite Hst, fmap_app, (pending_waiting q A Hr), Hcs, <- !list_fmap_compose. done.
    + apply Forall_forall. intros x Hx. rewrite Forall_forall in Ht. split; [|by apply Ht].
      rewrite Hst. apply elem_of_app. left. by apply list_elem_of_fmap_2.
  - intros x Hx. pose proof (timer_call_spec k [k] x _ A Hv Hx) as Hsp.
    destruct (spec_call _ x A) as [gone A']. destruct Hsp as (s' & E & _). eauto.
  - intros ops. destruct (expire_timers_ok k [k] ops ctx A (tv_service _ _ _ _ Hv))
      as (pre & due & post & c1 & E1 & _ & Hnone & Hone & _).
    destruct (Hone eq_refl) as [-> ->]. rewrite app_nil_r, app_nil_l, due_waits_completed in E1.
    by eexists _, c1.
Qed.
End Runs.

(** * An example *)

(** The first of two waits is cancelled, the second expires at the second check. *)
Definition ex_cancelled : timers Z := result (run_timer_call 1 (call_cancel_one 1) ex_two) ex_two.

Definition ex_check (s : timers Z) : list operation * timers Z :=
  match expire_timers [] (service s) with
  | Ret (ops, c) => (ops, set_service c s)
  | _ => ([], s)
  end.
Definition ex_early : timers Z := (ex_check ex_cancelled).2.
Definition ex_late : timers Z := (ex_check ex_early).2.

Definition ex_history : history :=
  mkHistory ex_late [(10%positive, 7); (11%positive, 7)]
    [mkCompletion 10 operation_aborted 0; mkCompletion 11 ec_success 0]
    [(read_clock (service ex_cancelled)).1; (read_clock (service ex_early)).1].

Lemma ex_steps :
  rtc (timer_step 1) (mkHistory (mkTimerObjects ∅ (construct_service 1 ex_reactor)) [] [] []) ex_history.
Proof.
  assert (call_ok 1 (call_cancel_one 1) ex_two) as Hc by timer_here.
  eapply rtc_l; [apply (step_call 1 (call_construct 1) None _ ex_idle []); by vm_compute|].
  eapply rtc_l; [apply (step_call 1 (call_expires_at 1 7) (Some 0) _ ex_set []);
    [split; [timer_here|by vm_compute]|by vm_compute..]|].
  eapply rtc_l; [apply (step_call 1 (call_async_wait 1 ex_first) None _ ex_one []);
    [split; [timer_here|by vm_compute]|by vm_compute..]|].
  eapply rtc_l; [apply (step_call 1 (call_async_wait 1 ex_second) None _ ex_two []);
    [split; [timer_here|by vm_compute]|by vm_compute..]|].
  eapply rtc_l; [apply (step_call 1 (call_cancel_one 1) (Some 1) _ ex_cancelled
    [mkCompletion 10 operation_aborted 0]); [exact Hc|by vm_compute..]|].
  eapply rtc_l; [apply (step_check 1 [] _ (service ex_early) []); by vm_compute|].
  eapply rtc_l; [apply (step_check 1 [] _ (service ex_late) [mkCompletion 11 ec_success 0]); by vm_compute|].
  match goal with |- rtc _ ?h _ => assert (h = ex_history) as -> by by vm_compute end. apply rtc_refl.
Qed.

Lemma waits_complete_once_witness :
  completed ex_history = [mkCompletion 10 operation_aborted 0; mkCompletion 11 ec_success 0] /\
  exists q, timer_queue_at 1 (react (service (objects ex_history))) = Ret q /\ timer_waiting q = [].
Proof.
  split; [done|].
  destruct (waits_complete_once 1 ex_reactor ex_history ex_reactor_ok eq_refl eq_refl ex_steps)
    as ((q & tagged & Eq & _ & E & _) & _).
  exists q. split; [exact Eq|]. apply Permutation_length in E. rewrite length_app, !length_fmap in E.
  change (length (started ex_history)) with 2%nat in E. change (length (completed ex_history)) with 2%nat in E.
  destruct (timer_waiting q) as [|x l]; [done|]. simpl in E. lia.
Defined.
