(* ===== verification/TimerWait.v ===== *)
(** The blocking wait of a timer, [deadline_timer_service::wait]: it sleeps in [select]
    until the clock shows the expiry.  The time to sleep is rounded down to microseconds,
    so that the end of a wait is a loop of sleeps of no time; it ends as the clock goes
    on. *)

From S2P Require Import Prelude.
From S2P Require Import AsioError.
From S2P Require Import ChronoTimeTraits.
From S2P Require Import TimerQueue.
From S2P Require Import TimerQueueSpec.
From S2P Require Import TimerQueueRefines.
From S2P Require Import Scheduler.
From S2P Require Import EpollReactor.
From S2P Require Import ReactorSpec.
From S2P Require Import DeadlineTimer.
From S2P Require Import DeadlineTimerSpec.

(** The clocks of the standard library count nanoseconds. *)
Definition period_den : Z := 1000000000.

Lemma total_seconds_ns d : int64 d -> total_seconds 1 period_den d = Ret (d ÷ 1000000000).
Proof.
  intros Hd. unfold total_seconds, duration_cast, ticks, period_den.
  change (gcd 1 1) with 1. change (gcd 1000000000 1) with 1. simpl.
  rewrite checked_ok; [done|]. by apply quot_int64.
Qed.

(** What is slept of a duration: its microseconds. *)
Lemma slept d :
  0 <= d -> d ÷ 1000000000 * 1000000000 + Z.rem (d ÷ 1000) 1000000 * 1000 = 1000 * (d / 1000).
Proof. intros Hd. rewrite !Z.quot_div_nonneg, Z.rem_mod_nonneg by modlia. modlia. Qed.

(** A [select] that succeeds has slept as long as it was told, and the clock goes on. *)
Class SleepLaws {W : Type} `{Kernel W} (select : Z -> Z -> W -> option Z * W) : Prop := {
  sleeps w sec usec w' :
    0 <= sec -> 0 <= usec < 1000000 -> select sec usec (clock_now w).2 = (None, w') ->
    saturate ((clock_now w).1 + Z.max 1 (sec * 1000000000 + usec * 1000)) <= (clock_now w').1;
  select_fails w sec usec errno w' : select sec usec w = (Some errno, w') -> 0 < errno
}.

(** Rounds that are enough when the expiry is [gap] ahead. *)
Definition rounds (gap : Z) : Z :=
  if gap <? 1000 then Z.max 0 gap
  else if gap <=? INT64_MAX then 1000
  else if gap <=? INT64_MAX + 808 then 1001
  else 1002.

Lemma rounds_step gap gap' :
  0 < gap <= 2 * INT64_MAX + 1 ->
  gap' <= gap - Z.max 1 (1000 * (Z.min gap INT64_MAX / 1000)) -> rounds gap' + 1 <= rounds gap.
Proof.
  intros Hg Hg'. unfold rounds, INT64_MAX in *.
  assert (1000 * (Z.min gap (2 ^ 63 - 1) / 1000) <= Z.min gap (2 ^ 63 - 1) < 1000 * (Z.min gap (2 ^ 63 - 1) / 1000) + 1000)
    by modlia.
  assert (1000 * ((2 ^ 63 - 1) / 1000) = 2 ^ 63 - 1 - 807) by done.
  repeat match goal with
  | |- context [if ?a <? ?b then _ else _] => destruct (Z.ltb_spec a b)
  | |- context [if ?a <=? ?b then _ else _] => destruct (Z.leb_spec a b)
  end; try lia.
  all: destruct (Z.min_spec gap (2 ^ 63 - 1)) as [[? E]|[? E]]; rewrite E in *; lia.
Qed.

Section Wait.
Context {W : Type} `{KernelLaws W} (select : Z -> Z -> W -> option Z * W) `{!SleepLaws select}.

(** [now] is what the clock showed last. *)
Definition just_read (now : Z) (c : context W) : Prop := exists w, clock_now w = (now, world c).

Lemma just_read_int64 now c : just_read now c -> int64 now.
Proof. intros [w E]. pose proof (clock_int64 w) as Hi. by rewrite E in Hi. Qed.

Lemma read_clock_now (c : context W) : just_read (read_clock c).1 (read_clock c).2.
Proof. exists (world c). unfold read_clock. by destruct (clock_now (world c)). Qed.

Definition same_program (c c' : context W) : Prop := sched c' = sched c /\ react c' = react c.

(** One sleep: it fails, or the expiry is closer. *)
Lemma sleep_round e now (c : context W) :
  int64 e -> just_read now c -> now < e ->
  exists d ec c1 now' c2,
    subtract e now = Ret d /\ do_wait select 1 period_den (to_wait_duration d) c = Ret (ec, c1) /\
    read_clock c1 = (now', c2) /\ just_read now' c2 /\ same_program c c2 /\
    (ec_is_error ec = true \/ ec = ec_success /\ rounds (e - now') + 1 <= rounds (e - now)).
Proof.
  intros He Hr Hlt. pose proof (just_read_int64 _ _ Hr) as Hn. destruct Hr as [w0 Ew].
  rewrite subtract_ok by done. set (d := saturate (e - now)).
  assert (int64 d /\ 0 < d /\ d = Z.min (e - now) INT64_MAX) as (Hd & Hpos & Ed).
  { unfold d, saturate, int64, INT64_MAX, INT64_MIN in *. lia. }
  exists d. unfold do_wait, to_wait_duration. rewrite total_seconds_ns, Ret_bind by done.
  unfold period_den. rewrite total_microseconds_ns, Ret_bind by done.
  pose proof (slept d ltac:(lia)) as Hslept.
  destruct (select (d ÷ 1000000000) (Z.rem (d ÷ 1000) 1000000) (world c)) as [failed w1] eqn:Es.
  destruct (read_clock (set_world w1 c)) as [now' c2] eqn:Ec.
  eexists _, _, now', c2. split; [done|]. split; [done|]. split; [exact Ec|].
  split; [by pose proof (read_clock_now (set_world w1 c)) as Hr; rewrite Ec in Hr|].
  unfold read_clock in Ec. simpl in Ec. destruct (clock_now w1) as [now1 w2] eqn:Ew1.
  injection Ec as -> <-. split; [done|]. destruct failed as [errno|].
  - left. apply select_fails in Es. unfold ec_is_error. simpl. by destruct (Z.eqb_spec errno 0); [lia|].
  - right. split; [done|]. assert ((clock_now w0).2 = world c) as Ew0 by (by rewrite Ew). rewrite <- Ew0 in Es.
    apply sleeps in Es; [|by apply Z.quot_pos; lia|by apply Z.rem_bound_pos; [apply Z.quot_pos|]; lia].
    rewrite Ew, Ew1 in Es. simpl in Es. rewrite Hslept in Es.
    assert (e - now' <= e - now - Z.max 1 (1000 * (d / 1000)) \/ e - now' <= 0) as Hgap.
    { unfold saturate, int64, INT64_MAX, INT64_MIN in *. lia. }
    destruct Hgap as [Hgap|Hgap].
    + apply rounds_step; [unfold int64, INT64_MAX, INT64_MIN in *; lia|]. by rewrite <- Ed.
    + assert (rounds (e - now') = 0) as -> by (unfold rounds; rewrite (proj2 (Z.ltb_lt _ _)); lia).
      unfold rounds, INT64_MAX. repeat case_match; lia.
Qed.

(** The loop of [wait]. *)
Lemma wait_loop_spec fuel e : forall now (c : context W),
  int64 e -> just_read now c ->
  exists r c',
    wait_loop select 1 period_den fuel e now ec_success c = Ret (r, c') /\ same_program c c' /\
    (rounds (e - now) <= Z.of_nat fuel -> r <> None) /\
    (r = Some ec_success \/ (exists ec, r = Some ec /\ ec_is_error ec = true) \/ r = None) /\
    (r = Some ec_success -> exists now', just_read now' c' /\ e <= now').
Proof.
  induction fuel as [|fuel IH]; intros now c He Hr; cbn [wait_loop]; unfold less_than;
    destruct (Z.ltb_spec now e) as [Hlt|Hge]; cbn [andb negb ec_is_error].
  all: try (exists (Some ec_success), c; split; [done|]; split; [done|]; split; [done|];
    split; [by left|]; intros _; exists now; split; [done|lia]).
  - exists None, c. split; [done|]. split; [done|]. split; [|split; [by right; right|done]].
    intros Hf. exfalso. revert Hf. unfold rounds. repeat case_match; lia.
  - destruct (sleep_round e now c He Hr Hlt) as (d & ec & c1 & now' & c2 & -> & Ew & Ec & Hr2 & [S1 S2] & Hprog).
    rewrite Ret_bind, Ew, Ret_bind, Ec. destruct Hprog as [Hec|[-> Hprog]].
    + exists (Some ec), c2. destruct fuel; cbn [wait_loop]; rewrite Hec, andb_false_r;
        (split; [done|]; split; [done|]; split; [done|]; split; [right; left; eauto|]; intros [= ->]; done).
    + destruct (IH now' c2 He Hr2) as (r & c' & -> & [S3 S4] & Hf & Hres & Hend). exists r, c'.
      split; [done|]. split; [split; congruence|]. split; [intros Hle; apply Hf; lia|]. by split.
Qed.

(** A blocking wait, on a clock that counts nanoseconds and goes on while the
    program sleeps: the loop is never undefined and leaves the timers as they are; it
    ends after at most 1002 sleeps, and when it ends without an error of [select], the
    clock has reached the expiry. *)
Lemma wait_until_expiry (p : timer_ptr) (s : timers W) (impl : implementation_type) (fuel : nat)
    (Hp : impls s !! p = Some impl) (He : int64 (expiry impl)) :
  exists r s',
    wait select 1 period_den fuel p s = Ret (r, s') /\ impls s' = impls s /\
    same_program (service s) (service s') /\ (1002 <= Z.of_nat fuel -> r <> None) /\
    forall ec, r = Some ec -> ec_is_error ec = false ->
      exists now, just_read now (service s') /\ expiry impl <= now.
Proof.
  unfold wait, load_impl. rewrite Hp. simpl. pose proof (read_clock_now (service s)) as Hr.
  assert (same_program (service s) (read_clock (service s)).2) as [S1 S2].
  { unfold read_clock. by destruct (clock_now _). }
  destruct (read_clock (service s)) as [now c]. simpl in *.
  destruct (wait_loop_spec fuel (expiry impl) now c He Hr) as (r & c' & -> & [S3 S4] & Hf & Hres & Hend).
  rewrite Ret_bind. exists r, (set_service c' s). split; [done|]. split; [done|].
  split; [split; simpl; congruence|]. split.
  - intros Hle. apply Hf. unfold rounds. repeat case_match; lia.
  - intros ec -> Hec. apply Hend. destruct Hres as [E|[(ec' & [= <-] & Hec')|E]]; congruence.
Qed.
End Wait.

(** * An example *)

(** A [select] that sleeps as long as it is told, or a tick. *)
Definition clock_select (sec usec w : Z) : option Z * Z :=
  (None, Z.max w INT64_MIN + Z.max 1 (sec * 1000000000 + usec * 1000)).

#[global] Instance clock_sleeps : SleepLaws clock_select.
Proof.
  split; [|done]. intros w sec usec w' _ _. unfold clock_select. intros [= <-]. simpl.
  generalize (Z.max 1 (sec * 1000000000 + usec * 1000)). intros d. unfold saturate, INT64_MIN, INT64_MAX. lia.
Qed.

(** The timer of the example expires at 7; the clock shows 3 or later. *)
Lemma wait_until_expiry_witness :
  impls ex_two !! 1%positive = Some (mkTimerImpl 7 true) /\
  exists ec s', wait clock_select 1 period_den 1002 1 ex_two = Ret (Some ec, s').
Proof.
  split; [by vm_compute|].
  destruct (wait_until_expiry clock_select 1 ex_two (mkTimerImpl 7 true) 1002 ltac:(by vm_compute)
    ltac:(by vm_compute)) as ([ec|] & s' & E & _ & _ & Hf & _).
  - exists ec, s'. exact E.
  - exfalso. by apply Hf.
Defined.
