(* ===== verification/ServerProcess.v ===== *)
(** [server.cpp], [networking/TcpServer.cpp] and [networking/TcpConnection.cpp] on the
    event loop: the whole process of the server.

    The world of the loop is the memory of the program and the system below it.  An
    operation that waits is an object of the heap, which the reactor performs by its
    pointer: an [accept], or one transfer of a composed read or write of a connection
    ([perform_object]).  The handlers run on the loop's context, and call the socket
    service as the library does ([handle]); a round of [io_context::run] is
    [process_round], and the process the rounds that follow [server_start].  What a handler
    throws, the round throws, after its destructors ([finally]).

    The answers of the system to the calls that performing makes are in the world, those
    to the calls of the handlers are a trace of their own.  A connection's container is
    the memory of the transfers that read or write it. *)

From S2P Require Import Prelude.
From S2P Require Import FileSystem.
From S2P Require Import AsioError.
From S2P Require Import Buffers.
From S2P Require Import ConsumingBuffers.
From S2P Require Import SocketOps.
From S2P Require Import ReadWrite.
From S2P Require Import SocketStream.
From S2P Require Import Containers.
From S2P Require Import Scheduler.
From S2P Require Import EpollReactor.
From S2P Require Import IoContext.
From S2P Require Import SocketService.
From S2P Require Import Connection.
From S2P Require Import ConnectionIO.

(** * The memory of the program *)

(** A [TcpConnection]. *)
Record connection_object := mkConnectionObject {
  co_connection : connection;
  co_socket : implementation
}.

(** The operations that wait, with what their handlers hold: the acceptor's, and a
    transfer of connection [i], with the state of the composed operation that started
    it and the buffers it was given. *)
Inductive operation_object :=
  | accept_object (socket state : Z) (o : accept_op)
  | transfer_object (i : nat) (op : async_op) (socket state : Z)
      (buffers : consuming_single_buffer) (bufs : buffer_sequence).

Record machine (B : Type) := mkMachine {
  m_system : B;
  m_answers : sys_trace;
  m_stuck : bool;  (* whether an object was performed that is gone, or a call has no answer *)
  m_ops : gmap positive operation_object;
  m_acceptor : implementation;
  m_accepting : option connection_object;
  m_connections : list connection_object;
  m_files : filesystem
}.
Arguments mkMachine {B}.
Arguments m_system {B}.
Arguments m_answers {B}.
Arguments m_stuck {B}.
Arguments m_ops {B}.
Arguments m_acceptor {B}.
Arguments m_accepting {B}.
Arguments m_connections {B}.
Arguments m_files {B}.

Section Assignments.
Context {B : Type} (m : machine B).
Let sy := m_system m.
Let an := m_answers m.
Let st := m_stuck m.
Let os := m_ops m.
Let ac := m_acceptor m.
Let ag := m_accepting m.
Let cs := m_connections m.
Let fs := m_files m.

Definition set_system (x : B) := mkMachine x an st os ac ag cs fs.
Definition set_answers x := mkMachine sy x st os ac ag cs fs.
Definition set_stuck := mkMachine sy an true os ac ag cs fs.
Definition set_ops x := mkMachine sy an st x ac ag cs fs.
Definition set_acceptor x := mkMachine sy an st os x ag cs fs.
Definition set_accepting x := mkMachine sy an st os ac x cs fs.
Definition set_connections x := mkMachine sy an st os ac ag x fs.
Definition set_files x := mkMachine sy an st os ac ag cs x.
End Assignments.

(** ** Containers *)

(** The container that an operation of a connection transfers to or from. *)
Definition container (op : async_op) (c : connection) : bytes :=
  match op with
  | ReadingPreRequestHeader => mPreRequestHeaderBuffer c
  | ReadingRequestHeader => mRequestHeaderBuffer c
  | ReadingRequestContent | WritingResponse _ => mMessageBuffer c
  end.

Definition put_container (op : async_op) (bs : bytes) (c : connection) : connection :=
  match op with
  | ReadingPreRequestHeader => set_pre_buffer c bs
  | ReadingRequestHeader => set_request_buffer c bs
  | ReadingRequestContent | WritingResponse _ => set_message c bs
  end.

(** [asio::buffer] of it: the container is at address 0 of a memory of its own. *)
Definition buffer_of (op : async_op) (c : connection) : mutable_buffer :=
  match op with
  | WritingResponse _ => mkBuffer 0 (zlen (mMessageBuffer c))
  | _ => read_buffer op c 0
  end.

(** * Performing *)

Section Machine.
Context {B : Type} `{Kernel B} `{OS}.

Definition transfer_perform (op : async_op) (socket state : Z) (bufs : buffer_sequence)
    (r : reactor_op.t) (c : connection) : sys (reactor_op.status * reactor_op.t * connection) :=
  let e := SocketStream.mkEndpoint socket 0 in
  let m := memory_of (container op c) in
  '(status, r, m') ←
    match op with
    | WritingResponse _ => send_do_perform e state bufs r m
    | _ => recv_do_perform e state bufs r m
    end;
  mret (status, r, put_container op (bytes_of m' (zlen (container op c))) c).

Definition set_connection (i : nat) (c : connection) (m : machine B) : machine B :=
  set_connections m (alter (fun co => mkConnectionObject c (co_socket co)) i (m_connections m)).

(** Performing the object at [id]. *)
Definition perform_object (id : positive) (r : reactor_op.t) (m : machine B) :
    reactor_op.status * reactor_op.t * machine B :=
  match m_ops m !! id with
  | Some (accept_object socket state o) =>
      match accept_do_perform socket state (mkAcceptOp (reactor_op.ec_ r) (new_socket_ o) (addrlen_ o))
              (m_answers m) with
      | Some ((status, o'), t) =>
          (status, reactor_op.mk (ao_ec o') (reactor_op.bytes_transferred_ r),
           set_ops (set_answers m t) (<[id := accept_object socket state o']> (m_ops m)))
      | None => (reactor_op.not_done, r, set_stuck m)
      end
  | Some (transfer_object i op socket state _ bufs) =>
      match m_connections m !! i with
      | Some co =>
          match transfer_perform op socket state bufs r (co_connection co) (m_answers m) with
          | Some ((status, r, c), t) => (status, r, set_connection i c (set_answers m t))
          | None => (reactor_op.not_done, r, set_stuck m)
          end
      | None => (reactor_op.not_done, r, set_stuck m)
      end
  | None => (reactor_op.not_done, r, set_stuck m)
  end.

#[global] Instance machine_kernel : Kernel (machine B) := {
  perform := perform_object;
  epoll_ctl op fd events source m :=
    let '(result, x) := epoll_ctl op fd events source (m_system m) in (result, set_system m x);
  epoll_wait timeout m := let '(events, x) := epoll_wait timeout (m_system m) in (events, set_system m x);
  close_fd fd m := set_system m (close_fd fd (m_system m));
  timerfd_settime abs sec nsec m := set_system m (timerfd_settime abs sec nsec (m_system m));
  clock_now m := let '(now, x) := clock_now (m_system m) in (now, set_system m x)
}.

(** * Handlers *)

Abbreviation program := (svc (context (machine B))).

Definition get_machine : program (machine B) := fun c t => Some (Ret (world c), c, t).

Definition put_machine (f : machine B -> machine B) : program () := fun c t =>
  Some (Ret (), set_world (f (world c)) c, t).

Definition lift {A} (o : outcome A) : program A := fun c t => Some (o, c, t).

Definition connection_at (i : nat) : program connection_object :=
  m ← get_machine;
  lift (deref (m_connections m !! i)).

Definition set_socket (i : nat) (b : base_implementation) (m : machine B) : machine B :=
  set_connections m
    (alter (fun co => mkConnectionObject (co_connection co) (mkImplementation b (protocol_ (co_socket co))))
       i (m_connections m)).

(** A new operation: memory for its object.  It cannot be cancelled on its own. *)
Definition new_op (o : operation_object) : program queued_op :=
  m ← get_machine;
  let id := fresh (dom (m_ops m)) in
  _ ← put_machine (fun m => set_ops m (<[id := o]> (m_ops m)));
  mret (mkOp id 1 (reactor_op.new ec_success)).

(** ** Transfers *)

Definition transfer_type (op : async_op) : op_types :=
  match op with
  | WritingResponse _ => EpollReactor.write_op
  | _ => EpollReactor.read_op
  end.

(** [async_read_some] and [async_write_some] of a connection's socket, for a composed
    operation. *)
Definition start_transfer (i : nat) (op : async_op) (buffers : consuming_single_buffer)
    (bufs : buffer_sequence) (is_continuation : bool) : program () :=
  co ← connection_at i;
  let impl := base (co_socket co) in
  qop ← new_op (transfer_object i op (socket_ impl) (state_ impl) buffers bufs);
  b ← do_start_op impl (transfer_type op) qop is_continuation true (is_noop (state_ impl) bufs);
  put_machine (set_socket i b).

(** [asio::async_read] and [asio::async_write] of an operation of connection [i]. *)
Definition start_composed (i : nat) (op : async_op) : program () :=
  co ← connection_at i;
  let buffers := new_single (buffer_of op (co_connection co)) in
  match (match op with
         | WritingResponse _ => start_write_op transfer_all buffers
         | _ => start_read_op transfer_all buffers
         end) with
  | (buffers, Initiate bufs) => start_transfer i op buffers bufs false
  | (_, Invoke _ _) => lift Undef
  end.

(** The last reference to a connection is gone: its socket is destroyed. *)
Definition destroy_connection (i : nat) : program () :=
  co ← connection_at i;
  _ ← destroy (base (co_socket co));
  put_machine (set_socket i construct).

(** The handler that the connection gave the composed operation; the container is up to
    date, so nothing is copied.  The handler holds the last reference to a connection
    that starts nothing, also when it throws. *)
Definition run_handler (i : nat) (op : async_op) (ec : error_code) : program () :=
  co ← connection_at i;
  m ← get_machine;
  st ← lift (resume op ec [] (co_connection co) (m_files m));
  _ ← put_machine (fun m => set_connection i (st_conn st) (set_files m (st_fs st)));
  match st_op st with
  | Some op' => start_composed i op'
  | None =>
      _ ← destroy_connection i;
      match st_thrown st with
      | Some e => lift (Throw e)
      | None => mret ()
      end
  end.

(** The composed operation goes on after a transfer. *)
Definition transfer_done (i : nat) (op : async_op) (buffers : consuming_single_buffer)
    (ec : error_code) (bytes_transferred : Z) : program () :=
  match (match op with
         | WritingResponse _ => ReadWrite.write_op transfer_all false buffers ec bytes_transferred 0
         | _ => ReadWrite.read_op transfer_all false buffers ec bytes_transferred 0
         end) with
  | (buffers, Initiate bufs) => start_transfer i op buffers bufs true
  | (_, Invoke ec _) => run_handler i op ec
  end.

(** ** Accepting *)

Definition startAccept : program () :=
  let newConnection := mkConnectionObject new_connection new_implementation in
  _ ← put_machine (fun m => set_accepting m (Some newConnection));
  m ← get_machine;
  let impl := m_acceptor m in
  qop ← new_op (accept_object (socket_of impl) (state_ (base impl)) (new_accept_op None));
  b ← do_start_accept_op (base impl) qop false (is_open (base (co_socket newConnection)));
  put_machine (fun m => set_acceptor m (mkImplementation b (protocol_ impl))).

(** A connection that was not accepted is destroyed with the handler. *)
Definition handle_accept (error : error_code) : program () :=
  m ← get_machine;
  newConnection ← lift (deref (m_accepting m));
  _ ← (if negb (ec_is_error error) then
         _ ← put_machine (fun m => set_connections m (m_connections m ++ [newConnection]));
         start_composed (length (m_connections m)) ReadPreRequestHeader
       else mret ());
  _ ← startAccept;
  if ec_is_error error then destroy (base (co_socket newConnection)) else mret ().

(** [reactive_socket_accept_op::do_complete]. *)
Definition accept_done (o : accept_op) (ec : error_code) : program () :=
  m ← get_machine;
  newConnection ← lift (deref (m_accepting m));
  '(peer, ec) ← accept_do_complete (co_socket newConnection) (protocol_ (m_acceptor m))
    (mkAcceptOp ec (new_socket_ o) (addrlen_ o));
  _ ← put_machine (fun m => set_accepting m (Some (mkConnectionObject (co_connection newConnection) peer)));
  handle_accept ec.

(** ** Completions *)

(** [do_complete]: the operation's memory is freed before its handler is called. *)
Definition handle (cp : completion) : program () :=
  m ← get_machine;
  o ← lift (deref (m_ops m !! co_id cp));
  _ ← put_machine (fun m => set_ops m (delete (co_id cp) (m_ops m)));
  match o with
  | accept_object _ _ o => accept_done o (co_ec cp)
  | transfer_object i op _ _ buffers _ => transfer_done i op buffers (co_ec cp) (co_bytes cp)
  end.

(** * The process *)

(** A round of [run]: it returns, waits for a thread, or goes on.  It throws what a
    handler throws. *)
Inductive round_result := run_returns | run_waits | run_goes.

(** [m], with a destructor that runs also when it throws. *)
Definition finally (m cleanup : program ()) : program () := fun c t =>
  match m c t with
  | Some (Throw e, c, t) =>
      match cleanup c t with
      | Some (Ret _, c, t) => Some (Throw e, c, t)
      | x => x
      end
  | Some (Ret _, c, t) => cleanup c t
  | x => x
  end.

Definition work_cleanup : program () :=
  call_reactor_ (fun c => s ← scheduler.work_cleanup (sched c); Ret (set_sched s c)).

Definition process_round : program round_result := fun c t =>
  match scheduler.do_run_one (sched c) with
  | scheduler.returns_stopped => Some (Ret run_returns, c, t)
  | scheduler.waits => Some (Ret run_waits, c, t)
  | scheduler.runs_task polling s =>
      (_ ← call_reactor_ (fun c => run_task (if polling then 0 else -1) (set_sched s c));
       mret run_goes) c t
  | scheduler.completes o s =>
      (cp ← call_reactor (fun c => ready o (set_sched s c));
       _ ← finally (match cp with Some cp => handle cp | None => mret () end) work_cleanup;
       mret run_goes) c t
  end.

(** The constructor of [TcpServer]. *)
Definition server_start : program () :=
  impl ← server_acceptor;
  _ ← put_machine (fun m => set_acceptor m impl);
  startAccept.

(** The memory when [main] starts. *)
Definition new_machine (x : B) (answers : sys_trace) (fs : filesystem) : machine B :=
  mkMachine x answers false ∅ new_implementation None [] fs.

(** [main] has made the [io_context] and the [TcpServer], and enters [run]; [answers] and
    [calls] are what the system answers to performing and to the handlers. *)
Inductive process_starts (fs : filesystem) (x : B) (answers calls : sys_trace) :
    context (machine B) * sys_trace -> Prop :=
  | process_enters one_thread interrupter timer_fd c t s :
      server_start (begin one_thread interrupter timer_fd [] (new_machine x answers fs)) calls =
        Some (Ret (), c, t) ->
      m_stuck (world c) = false ->
      scheduler.run_enter (sched c) = (true, s) ->
      process_starts fs x answers calls (set_sched s c, t).

(** A round whose calls all have answers. *)
Inductive process_step : context (machine B) * sys_trace -> context (machine B) * sys_trace -> Prop :=
  | process_goes c t c' t' :
      process_round c t = Some (Ret run_goes, c', t') ->
      m_stuck (world c') = false ->
      process_step (c, t) (c', t').

End Machine.
