(* ===== verification/ServerAnswers.v ===== *)
(** Every round of the server's process ends, whatever the system answers: the handlers
    make finitely many calls.  A program is [answerable] when any sequence of answers is
    enough to run it; the loops of the library that retry a call are in the
    operations that the reactor performs, not here. *)

From S2P Require Import Prelude.
From S2P Require Import FileSystem.
From S2P Require Import AsioError.
From S2P Require Import ReadWrite.
From S2P Require Import SocketOps.
From S2P Require Import SocketStream.
From S2P Require Import Scheduler.
From S2P Require Import EpollReactor.
From S2P Require Import IoContext.
From S2P Require Import SocketService.
From S2P Require Import Connection.
From S2P Require Import ServerProcess.

(** * Answers *)

(** The calls, answered in order by [answers] from the [k]th on. *)
Fixpoint answered (answers : nat -> answer) (k : nat) (calls : list sys_call) : sys_trace :=
  match calls with
  | [] => []
  | x :: calls => (x, answers k) :: answered answers (S k) calls
  end.

Lemma answered_app answers k calls calls' :
  answered answers k (calls ++ calls') =
  answered answers k calls ++ answered answers (k + length calls) calls'.
Proof.
  revert k. induction calls as [|x calls IH]; intros k; simpl; [by rewrite Nat.add_0_r|].
  by rewrite IH, Nat.add_succ_r.
Qed.

Definition sys_answerable {A} (m : sys A) : Prop :=
  forall answers k, exists calls a, forall rest, m (answered answers k calls ++ rest) = Some (a, rest).

Definition answerable {R A} (m : svc R A) : Prop :=
  forall r answers k, exists calls o r', forall rest,
    m r (answered answers k calls ++ rest) = Some (o, r', rest).

Section Sys.

Lemma sys_answerable_ret {A} (a : A) : sys_answerable (mret a).
Proof. intros answers k. by exists [], a. Qed.

Lemma sys_answerable_bind {A B} (m : sys A) (f : A -> sys B) :
  sys_answerable m -> (forall a, sys_answerable (f a)) -> sys_answerable (m ≫= f).
Proof.
  intros Hm Hf answers k. destruct (Hm answers k) as (calls & a & E).
  destruct (Hf a answers (k + length calls)%nat) as (calls' & b & E').
  exists (calls ++ calls'), b. intros rest. rewrite answered_app, <- app_assoc.
  unfold mbind, sys_bind. by rewrite E.
Qed.

Lemma sys_answerable_call c : sys_answerable (syscall c).
Proof. intros answers k. exists [c], (answers k). intros rest. simpl. by rewrite decide_True. Qed.

End Sys.

Section Svc.
Context {R : Type}.

Lemma answerable_ret {A} (a : A) : answerable (mret a : svc R A).
Proof. intros r answers k. by exists [], (Ret a), r. Qed.

Lemma answerable_bind {A B} (m : svc R A) (f : A -> svc R B) :
  answerable m -> (forall a, answerable (f a)) -> answerable (m ≫= f).
Proof.
  intros Hm Hf r answers k. destruct (Hm r answers k) as (calls & o & r1 & E).
  destruct o as [a|e|].
  2: { exists calls, (Throw e), r1. intros rest. unfold mbind, svc_bind. by rewrite E. }
  2: { exists calls, Undef, r1. intros rest. unfold mbind, svc_bind. by rewrite E. }
  destruct (Hf a r1 answers (k + length calls)%nat) as (calls' & o & r2 & E').
  exists (calls ++ calls'), o, r2. intros rest. rewrite answered_app, <- app_assoc.
  unfold mbind, svc_bind. by rewrite E.
Qed.

Lemma answerable_os {A} (m : sys A) : sys_answerable m -> answerable (call_os m : svc R A).
Proof.
  intros Hm r answers k. destruct (Hm answers k) as (calls & a & E).
  exists calls, (Ret a), r. intros rest. unfold call_os. by rewrite E.
Qed.

(** A program that makes no call. *)
Lemma answerable_silent {A} (m : svc R A) :
  (forall r, exists o r', forall t, m r t = Some (o, r', t)) -> answerable m.
Proof. intros Hm r answers k. destruct (Hm r) as (o & r' & E). by exists [], o, r'. Qed.

Lemma answerable_reactor {A} (f : R -> outcome (A * R)) : answerable (call_reactor f).
Proof.
  apply answerable_silent. intros r. unfold call_reactor. destruct (f r) as [[a r']|e|]; eauto.
Qed.

Lemma answerable_throw {A} e : answerable (throw e : svc R A).
Proof. apply answerable_silent. intros r. by eexists _, _. Qed.

End Svc.

#[export] Hint Resolve sys_answerable_ret sys_answerable_call answerable_ret answerable_os
  answerable_reactor answerable_throw : horcrux.

(** Programs, instruction by instruction; what is left is a program with a lemma. *)
Ltac answerable :=
  repeat match goal with
  | |- sys_answerable (mbind _ _) => apply sys_answerable_bind; [|intros]
  | |- answerable (mbind _ _) => apply answerable_bind; [|intros]
  | |- sys_answerable (mret _) => apply sys_answerable_ret
  | |- sys_answerable (syscall _) => apply sys_answerable_call
  | |- answerable (mret _) => apply answerable_ret
  | |- answerable (call_os _) => apply answerable_os
  | |- answerable (call_reactor _) => apply answerable_reactor
  | |- answerable (call_reactor_ _) => apply answerable_reactor
  | |- answerable (throw _) => apply answerable_throw
  | |- context [let '(_, _) := ?x in _] => destruct x
  | |- sys_answerable (if ?b then _ else _) => destruct b
  | |- answerable (if ?b then _ else _) => destruct b
  | |- answerable (match ?x with _ => _ end) => destruct x
  | |- sys_answerable _ => progress cbv beta iota zeta
  | |- answerable _ => progress cbv beta iota zeta
  end; try solve [auto with horcrux].

(** * The socket service *)

Lemma close_answerable s state destruction ec : sys_answerable (SocketOps.close s state destruction ec).
Proof. unfold SocketOps.close, setsockopt. answerable. Qed.

Lemma non_blocking_answerable s state value ec :
  sys_answerable (set_internal_non_blocking s state value ec).
Proof. unfold set_internal_non_blocking, ioctl_mode. answerable. Qed.

#[export] Hint Resolve close_answerable non_blocking_answerable : horcrux.

Lemma destroy_holder_answerable s : sys_answerable (destroy_holder s).
Proof. unfold destroy_holder. answerable. Qed.

#[export] Hint Resolve destroy_holder_answerable : horcrux.

Section Service.
Context {R : Type} `{SocketReactor R}.

Lemma destroy_answerable b : answerable (destroy b).
Proof. unfold destroy. answerable. Qed.

Lemma do_start_op_answerable b k op cont non_blocking noop :
  answerable (do_start_op b k op cont non_blocking noop).
Proof. unfold do_start_op, make_non_blocking. answerable. Qed.

Lemma do_start_accept_op_answerable b op cont peer_is_open :
  answerable (do_start_accept_op b op cont peer_is_open).
Proof. unfold do_start_accept_op. answerable. apply do_start_op_answerable. Qed.

Lemma accept_do_complete_answerable peer p o : answerable (accept_do_complete peer p o).
Proof.
  unfold accept_do_complete, do_assign_peer, resize_peer, SocketService.assign, do_assign, throw_error.
  answerable.
Qed.

End Service.

#[export] Hint Resolve destroy_answerable do_start_op_answerable do_start_accept_op_answerable
  accept_do_complete_answerable : horcrux.

(** * The process *)

Section Process.
Context {B : Type} `{Kernel B} `{OS}.

Lemma get_machine_answerable : answerable (get_machine (B := B)).
Proof. apply answerable_silent. intros c. by eexists _, _. Qed.

Lemma put_machine_answerable f : answerable (put_machine (B := B) f).
Proof. apply answerable_silent. intros c. by eexists _, _. Qed.

Lemma lift_answerable {A} (o : outcome A) : answerable (lift (B := B) o).
Proof. apply answerable_silent. intros c. by eexists _, _. Qed.

#[local] Hint Resolve get_machine_answerable put_machine_answerable lift_answerable : horcrux.

Lemma connection_at_answerable i : answerable (connection_at (B := B) i).
Proof. unfold connection_at. answerable. Qed.

#[local] Hint Resolve connection_at_answerable : horcrux.

Lemma new_op_answerable o : answerable (new_op (B := B) o).
Proof. unfold new_op. answerable. Qed.

#[local] Hint Resolve new_op_answerable : horcrux.

Lemma start_transfer_answerable i op buffers bufs cont :
  answerable (start_transfer (B := B) i op buffers bufs cont).
Proof. unfold start_transfer. answerable. Qed.

#[local] Hint Resolve start_transfer_answerable : horcrux.

Lemma start_composed_answerable i op : answerable (start_composed (B := B) i op).
Proof. unfold start_composed. answerable. Qed.

Lemma destroy_connection_answerable i : answerable (destroy_connection (B := B) i).
Proof. unfold destroy_connection. answerable. Qed.

#[local] Hint Resolve start_composed_answerable destroy_connection_answerable : horcrux.

Lemma run_handler_answerable i op ec : answerable (run_handler (B := B) i op ec).
Proof. unfold run_handler. answerable. Qed.

#[local] Hint Resolve run_handler_answerable : horcrux.

Lemma transfer_done_answerable i op buffers ec n : answerable (transfer_done (B := B) i op buffers ec n).
Proof. unfold transfer_done. answerable. Qed.

Lemma startAccept_answerable : answerable (startAccept (B := B)).
Proof. unfold startAccept. answerable. Qed.

#[local] Hint Resolve startAccept_answerable : horcrux.

Lemma accept_done_answerable o ec : answerable (accept_done (B := B) o ec).
Proof. unfold accept_done, handle_accept. answerable. Qed.

#[local] Hint Resolve transfer_done_answerable accept_done_answerable : horcrux.

Lemma handle_answerable cp : answerable (handle (B := B) cp).
Proof. unfold handle. answerable. Qed.

Lemma finally_answerable (m cleanup : svc (context (machine B)) ()) :
  answerable m -> answerable cleanup -> answerable (finally m cleanup).
Proof.
  intros Hm Hc c answers k. destruct (Hm c answers k) as (calls & o & c1 & E).
  destruct (Hc c1 answers (k + length calls)%nat) as (calls' & o' & c2 & E').
  destruct o as [a|e|].
  - exists (calls ++ calls'), o', c2. intros rest. unfold finally.
    by rewrite answered_app, <- app_assoc, E.
  - exists (calls ++ calls'), (match o' with Ret _ => Throw e | x => x end), c2. intros rest.
    unfold finally. rewrite answered_app, <- app_assoc, E, E'. by destruct o'.
  - exists calls, Undef, c1. intros rest. unfold finally. by rewrite E.
Qed.

(** Whatever the system answers, the round has a result. *)
Lemma process_round_answerable : answerable (process_round (B := B)).
Proof.
  intros c. unfold process_round.
  destruct (scheduler.do_run_one (sched c)) as [| |polling s|o s]; intros answers k.
  - by exists [], (Ret run_returns), c.
  - by exists [], (Ret run_waits), c.
  - eapply (answerable_bind _ (fun _ => mret run_goes)); [apply answerable_reactor|].
    intros []. apply answerable_ret.
  - eapply (answerable_bind (call_reactor (fun c => ready o (set_sched s c)))
      (fun cp => _ ← finally (match cp with Some cp => handle cp | None => mret () end) work_cleanup;
                 mret run_goes)); [apply answerable_reactor|].
    intros cp. apply answerable_bind; [|intros []; apply answerable_ret].
    apply finally_answerable; [|apply answerable_reactor].
    destruct cp; [apply handle_answerable|apply answerable_ret].
Qed.

End Process.
