(* ===== verification/ServerStory.v ===== *)
(** The story of the server's operations: what performing a transfer does to the container
    of its connection, and that performing changes nothing else of the program. *)

From S2P Require Import Prelude.
From S2P Require Import ObjectRepr.
From S2P Require Import FileSystem.
From S2P Require Import AsioError.
From S2P Require Import Buffers.
From S2P Require Import ConsumingBuffers.
From S2P Require Import SocketOps.
From S2P Require Import ReadWrite.
From S2P Require Import SocketSpec.
From S2P Require Import SocketStream.
From S2P Require Import SocketStreamSpec.
From S2P Require Import Containers.
From S2P Require Import Scheduler.
From S2P Require Import EpollReactor.
From S2P Require Import IoContext.
From S2P Require Import ReactorSpec.
From S2P Require Import ResultsSpec.
From S2P Require Import Worlds.
From S2P Require Import SocketService.
From S2P Require Import SocketServiceSpec.
From S2P Require Import Connection.
From S2P Require Import ConnectionSpec.
From S2P Require Import ConnectionIO.
From S2P Require Import Server.
From S2P Require Import ServerProcess.

(** * Transfers *)

Definition is_write (op : async_op) : bool :=
  match op with
  | WritingResponse _ => true
  | _ => false
  end.

Lemma container_fill op d c : is_write op = false -> container op (fill op d c) = std_copy d (container op c).
Proof. by destruct op. Qed.

Lemma put_container_fill op bs d c : is_write op = false ->
  put_container op (std_copy bs (container op c)) (fill op d c) = fill op bs c.
Proof. by destruct op. Qed.

Lemma size_buffer_of op c :
  is_write op = false -> size (buffer_of op c) = Z.of_nat (read_size op c) /\
  (read_size op c <= length (container op c))%nat.
Proof. destruct op; simpl; try done; split; try done; lia. Qed.

Lemma data_buffer_of op c : data (buffer_of op c) = 0.
Proof. by destruct op. Qed.

(** The connection [c] of a transfer of [buffers], when the operation [op] found it as
    [sc] and [n] bytes more than the consumed ones were transferred. *)
Record transferring (op : async_op) (sc c : connection) (buffers : consuming_single_buffer) (n : Z) :
    Prop := {
  tf_ok : cb_ok buffers;
  tf_buffer : single_buffer buffers = buffer_of op sc;
  tf_count : 0 <= n <= zlen (cb_rest buffers);
  tf_data : exists d, c = fill op d sc /\
    if is_write op then d = [] else zlen d = single_consumed buffers + n
}.

Lemma zlen_rest buffers :
  cb_ok buffers -> zlen (cb_rest buffers) = size (single_buffer buffers) - single_consumed buffers.
Proof.
  intros [Hw Hc]. simpl. unfold addresses. rewrite drop_seqZ by lia. unfold zlen. rewrite length_seqZ. lia.
Qed.

(** What is prepared is a part of what is left. *)
Lemma prepared_addresses buffers :
  cb_ok buffers ->
  exists n, flatten (elements (single_prepare buffers default_max_transfer_size)) =
    seqZ (data (single_buffer buffers) + single_consumed buffers) n /\
    0 <= n <= zlen (cb_rest buffers) /\ (cb_rest buffers <> [] -> 0 < n) /\
    Forall buffer_wf (elements (single_prepare buffers default_max_transfer_size)) /\
    zlen (elements (single_prepare buffers default_max_transfer_size)) <= 16.
Proof.
  intros Hok. destruct (cb_prepare buffers default_max_transfer_size Hok) as (k & Hk & Hw & _ & Hpos & Hl).
  { by split. }
  pose proof (zlen_rest buffers Hok) as El. pose proof Hok as [[Hw0 Hw1] Hc].
  set (rest := size (single_buffer buffers) - single_consumed buffers) in *.
  exists (Z.min (Z.of_nat k) rest). split; [|split; [lia|split]]; [| |done].
  - rewrite <- (Nat2Z.id k) in Hk. etrans; [exact Hk|]. simpl. unfold addresses.
    rewrite drop_seqZ, take_seqZ by lia. reflexivity.
  - intros Hne. specialize (Hpos Hne). enough (0 < rest) by lia. 
    destruct (cb_rest buffers) as [|a l]; [done|]. rewrite zlen_cons in El. pose proof (zlen_nonneg l). lia.
Qed.

(** Performing a transfer: some bytes more, and some at all unless there is an error or
    no room. *)
Lemma transfer_perform_spec op sc c buffers socket state r t status r' c' t' :
  Forall answer_ok t -> reactor_op.bytes_transferred_ r = 0 -> transferring op sc c buffers 0 ->
  transfer_perform op socket state (single_prepare buffers default_max_transfer_size) r c t =
    Some ((status, r', c'), t') ->
  transferring op sc c' buffers (reactor_op.bytes_transferred_ r') /\
  (reactor_op.finished status = false -> reactor_op.bytes_transferred_ r' = 0) /\
  (has state stream_oriented = true -> ec_is_error (reactor_op.ec_ r') = false ->
   cb_rest buffers <> [] -> 0 < reactor_op.bytes_transferred_ r') /\ Forall answer_ok t'.
Proof.
  intros Ht Hr [Hok Hb Hn (d & -> & Hd)] E.
  destruct (prepared_addresses buffers Hok) as (k & Hk & Hkl & Hpos & Hw & Hl).
  rewrite Hb, data_buffer_of in Hk. unfold transfer_perform in E.
  unfold mbind, sys_bind in E. destruct (is_write op) eqn:Ew.
  - destruct op as [| | |next]; try done.
    destruct (send_do_perform _ _ _ _ _ _) as [[[[st r1] m1] t1]|] eqn:Ep; [|done].
    injection E as <- <- <- <-.
    destruct (send_do_perform_spec _ Hw Hl _ _ _ _ _ _ _ _ _ Ht Hr Ep)
      as (_ & (bs & _ & Hs & -> & Hbs & Hle & Hbpos) & Hf).
    rewrite Hk in Hle, Hbpos. unfold zlen in Hle at 2. rewrite length_seqZ in Hle.
    pose proof (zlen_nonneg bs). simpl.
    rewrite bytes_of_memory. replace (set_message sc (mMessageBuffer sc)) with sc by by destruct sc.
    split; [split; [done|done|lia|by exists d]|]. split; [tauto|]. split; [|by eapply sends_ok].
    intros _ He Hne. rewrite Hbs. apply Hbpos; [done|]. specialize (Hpos Hne).
    rewrite seqZ_cons by lia. done.
  - assert (exists m1 t1,
      recv_do_perform (SocketStream.mkEndpoint socket 0) state
        (single_prepare buffers default_max_transfer_size) r (memory_of (container op (fill op d sc))) t =
        Some ((status, r', m1), t1) /\ t1 = t' /\
      c' = put_container op (bytes_of m1 (zlen (container op (fill op d sc)))) (fill op d sc))
      as (m1 & t1 & Ep & -> & ->).
    { destruct op; try done;
        (destruct (recv_do_perform _ _ _ _ _ _) as [[[[st r1] m1] t1]|] eqn:Ep; [|done]);
        injection E as <- <- <- <-; by exists m1, t1. }
    destruct (recv_do_perform_spec _ Hw Hl _ _ _ _ _ _ _ _ _ Ht Hr Ep)
      as (_ & (bs & Hs & -> & Hbs & Hle & Hbpos) & Hf).
    rewrite Hk in Hle. rewrite Hk. unfold zlen in Hle at 2. rewrite length_seqZ in Hle.
    pose proof (zlen_nonneg bs). rewrite container_fill by done.
    destruct (size_buffer_of op sc Ew) as [Hsize Hroom]. pose proof (zlen_rest buffers Hok) as Hrest.
    rewrite Hb in Hrest. pose proof (proj2 Hok) as Hc. rewrite Z.add_0_r in Hd. rewrite Z.add_0_l, <- Hd.
    rewrite bytes_of_received, put_container_fill by (done || unfold zlen in *; lia).
    split; [split; [done|done|lia|]|].
    + exists (d ++ bs). rewrite Ew, zlen_app. split; [done|lia].
    + split; [tauto|]. split; [|by eapply receives_ok]. rewrite Hbs. auto.
Qed.

(** * What performing leaves alone *)

(** Any calls at all. *)
Abbreviation any := (calls_only (fun _ => true)).

Lemma any_with_memory {A} (o : option A) : any (with_memory o).
Proof. destruct o as [a|]; [|done]. intros t a' t' [= <- <-]. by exists []. Qed.

Lemma any_recv e state bufs r m : any (recv_do_perform e state bufs r m).
Proof.
  unfold recv_do_perform, non_blocking_recv, non_blocking_recv1, non_blocking_recv_loop, recv, recv1.
  only_calls.
Qed.

Lemma any_send e state bufs r m : any (send_do_perform e state bufs r m).
Proof.
  unfold send_do_perform, non_blocking_send, non_blocking_send1, non_blocking_send_loop, SocketOps.send, send1.
  only_calls; apply any_with_memory.
Qed.

Lemma any_close s state destruction ec : any (SocketOps.close s state destruction ec).
Proof. unfold SocketOps.close, setsockopt. only_calls. Qed.

Lemma any_destroy_holder s : any (destroy_holder s).
Proof. unfold destroy_holder. only_calls; apply any_close. Qed.

Lemma any_accept s state o : any (accept_do_perform s state o).
Proof.
  unfold accept_do_perform, non_blocking_accept, SocketOps.accept, call_accept. only_calls.
  apply any_destroy_holder.
Qed.

Lemma any_transfer op socket state bufs r c : any (transfer_perform op socket state bufs r c).
Proof.
  unfold transfer_perform. apply only_bind; [|intros; only_calls].
  destruct op; (apply any_recv || apply any_send).
Qed.

Lemma any_answers {A} (m : sys A) t a t' :
  any m -> m t = Some (a, t') -> Forall answer_ok t -> Forall answer_ok t'.
Proof. intros Hm E Ht. destruct (Hm _ _ _ E) as (pre & -> & _). by apply Forall_app in Ht as [_ ?]. Qed.

(** An [accept] that was not given a place for the peer's address does not set one. *)
Lemma accept_no_address s state o t status o' t' :
  accept_do_perform s state o t = Some ((status, o'), t') -> addrlen_ o = None -> addrlen_ o' = None.
Proof.
  intros E Ho. unfold accept_do_perform in E. rewrite Ho in E. unfold mbind at 1, sys_bind at 1 in E.
  destruct (non_blocking_accept _ _ _ _ _) as [[[[[over new] addrlen] ec] t1]|] eqn:Ea; [|done].
  assert (addrlen = None) as ->.
  { unfold non_blocking_accept in Ea.
    apply (loop_ind _ (fun x _ => x.1 = None) (fun x _ => x.1.2 = None)) in Ea; try done;
      intros [l e] t2 x t3 El Eb; simpl in El; subst l; unfold mbind, sys_bind, SocketOps.accept in Eb;
      (destruct (s =? invalid_socket); [|unfold call_accept, mbind, sys_bind in Eb;
        destruct (syscall _ _) as [[a t4]|]; [|done]; simpl in Eb]);
      repeat match type of Eb with
      | context [if ?b then _ else _] => destruct b; simpl in Eb
      end; try done; by injection Eb as <- <-. }
  unfold mbind, sys_bind in E. destruct (destroy_holder _ _) as [[? t2]|]; [|done].
  by injection E as _ <- _.
Qed.

(** A failure of [epoll_ctl] has an error. *)
Class CtlErrors (W : Type) `{Kernel W} : Prop :=
  ctl_error op fd events source (w : W) errno :
    (epoll_ctl op fd events source w).1 = Some errno -> errno <> 0.

Section Story.
Context {B : Type} `{KernelLaws B} `{OS}.

(** Whose an operation is: the acceptor's, or a connection's. *)
Definition owner (o : operation_object) : option nat :=
  match o with
  | accept_object _ _ _ => None
  | transfer_object i _ _ _ _ _ => Some i
  end.

Definition tasks (m : machine B) : gmap positive (option nat) := owner <$> m_ops m.

(** Performing changes the containers of connections, and the result of an [accept]. *)
Record same_program (m m' : machine B) : Prop := {
  sp_tasks : tasks m' = tasks m;
  sp_acceptor : m_acceptor m' = m_acceptor m;
  sp_accepting : m_accepting m' = m_accepting m;
  sp_sockets : co_socket <$> m_connections m' = co_socket <$> m_connections m;
  sp_files : m_files m' = m_files m;
  sp_answers : Forall answer_ok (m_answers m) -> Forall answer_ok (m_answers m')
}.

#[global] Instance same_program_preorder : PreOrder same_program.
Proof.
  split; [by intros m; split|]. intros m1 m2 m3 [? ? ? ? ? ?] [? ? ? ? ? ?]. split; try (by etrans); auto.
Qed.

Lemma set_connection_sockets i c (m : machine B) :
  co_socket <$> m_connections (set_connection i c m) = co_socket <$> m_connections m.
Proof.
  apply list_eq. intros j. rewrite !list_lookup_fmap. simpl. destruct (decide (j = i)) as [->|Hne].
  - rewrite list_lookup_alter_eq. by destruct (m_connections m !! i).
  - by rewrite list_lookup_alter_ne.
Qed.

Lemma perform_same id r (m : machine B) : same_program m (perform_object id r m).2.
Proof.
  unfold perform_object. destruct (m_ops m !! id) as [[socket state o|i op socket state buffers bufs]|] eqn:Eo.
  - destruct (accept_do_perform _ _ _ _) as [[[st o'] t]|] eqn:Ea; [|by split]. split; try done; simpl.
    + unfold tasks. simpl. rewrite fmap_insert. apply insert_id. by rewrite lookup_fmap, Eo.
    + by eapply any_answers, Ea; apply any_accept.
  - destruct (m_connections m !! i) as [co|]; [|by split].
    destruct (transfer_perform _ _ _ _ _ _ _) as [[[[st r1] c] t]|] eqn:Et; [|by split]. split; try done.
    + apply (set_connection_sockets i c (set_answers m t)).
    + by eapply any_answers, Et; apply any_transfer.
  - by split.
Qed.

Lemma perform_system id r (m : machine B) : m_system (perform_object id r m).2 = m_system m.
Proof.
  unfold perform_object. destruct (m_ops m !! id) as [[socket state o|i op socket state buffers bufs]|].
  - by destruct (accept_do_perform _ _ _ _) as [[[st o'] t]|].
  - destruct (m_connections m !! i) as [co|]; [|done].
    by destruct (transfer_perform _ _ _ _ _ _ _) as [[[[st r1] c] t]|].
  - done.
Qed.

#[global] Program Instance machine_laws : KernelLaws (machine B) := { given m := given (m_system m) }.
Next Obligation. intros m. simpl. pose proof (clock_int64 (m_system m)). by destruct (clock_now (m_system m)). Qed.
Next Obligation. intros m. simpl. pose proof (given_clock (m_system m)). by destruct (clock_now (m_system m)). Qed.
Next Obligation. intros id r m. simpl. by rewrite perform_system. Qed.
Next Obligation. intros fd m. apply given_close. Qed.
Next Obligation. intros abs sec nsec m. apply given_settime. Qed.
Next Obligation.
  intros op fd events source m. simpl. pose proof (given_ctl op fd events source (m_system m)).
  by destruct (epoll_ctl op fd events source (m_system m)).
Qed.
Next Obligation.
  intros timeout m. simpl. pose proof (given_wait timeout (m_system m)).
  by destruct (epoll_wait timeout (m_system m)).
Qed.
Next Obligation.
  intros timeout m p events. simpl. pose proof (reported timeout (m_system m) p events).
  by destruct (epoll_wait timeout (m_system m)).
Qed.

Lemma kernel_same (m m' : machine B) : kernel_step m m' -> same_program m m'.
Proof.
  intros [id r w|op fd events source w|timeout w|fd w|abs sec nsec w|w]; simpl.
  - apply perform_same.
  - by destruct (epoll_ctl _ _ _ _ _).
  - by destruct (epoll_wait _ _).
  - by split.
  - by split.
  - by destruct (clock_now _).
Qed.

Lemma reaches_same_program (c c' : context (machine B)) : reaches c c' -> same_program (world c) (world c').
Proof. intros Hr. apply (reaches_keeps same_program c c' kernel_same Hr). Qed.

(** ** The story *)

(** The operation [id] has transferred [n] bytes, if it is one of a connection; the
    connection and the acceptor have no other. *)
Definition underway (slots : list slot) (m : machine B) (id : positive) (n : Z) : Prop :=
  Forall answer_ok (m_answers m) /\ (forall id', tasks m !! id' = tasks m !! id -> id' = id) /\
  match m_ops m !! id with
  | Some (accept_object _ _ o) => addrlen_ o = None
  | Some (transfer_object i op _ _ buffers _) =>
      exists s co, slots !! i = Some s /\ m_connections m !! i = Some co /\ sl_op s = Some op /\
        transferring op (sl_conn s) (co_connection co) buffers n
  | None => False
  end.

Definition transfer_waits (slots : list slot) (m : machine B) (id : positive) (r : reactor_op.t) : Prop :=
  underway slots m id 0 /\ reactor_op.bytes_transferred_ r = 0 /\
  match m_ops m !! id with
  | Some (transfer_object _ _ _ state buffers bufs) =>
      has state stream_oriented = true /\ bufs = single_prepare buffers default_max_transfer_size
  | _ => True
  end.

Definition transfer_finished (slots : list slot) (m : machine B) (cp : completion) : Prop :=
  underway slots m (co_id cp) (co_bytes cp) /\
  match m_ops m !! co_id cp with
  | Some (transfer_object _ _ _ _ buffers _) =>
      ec_is_error (co_ec cp) = false -> cb_rest buffers <> [] -> 0 < co_bytes cp
  | _ => True
  end.

Definition nothing_waits (id : positive) : Prop := False.

(** What is said of an operation rests on its object, on its connection, and on there
    being no other operation of that connection. *)
Lemma story_retold slots slots' (m m' : machine B) id :
  (Forall answer_ok (m_answers m) -> Forall answer_ok (m_answers m')) ->
  ((exists n, underway slots m id n) ->
   m_ops m' !! id = m_ops m !! id /\
   (forall id', tasks m' !! id' = tasks m' !! id -> tasks m !! id' = tasks m !! id) /\
   forall i op socket state buffers bufs,
     m_ops m !! id = Some (transfer_object i op socket state buffers bufs) ->
     slots' !! i = slots !! i /\
     co_connection <$> m_connections m' !! i = co_connection <$> m_connections m !! i) ->
  (forall r, transfer_waits slots m id r -> transfer_waits slots' m' id r) /\
  (forall ec n, transfer_finished slots m (mkCompletion id ec n) ->
   transfer_finished slots' m' (mkCompletion id ec n)).
Proof.
  intros Ha Hsame. assert (forall n, underway slots m id n -> underway slots' m' id n) as Hu.
  { intros n Hu. destruct (Hsame (ex_intro _ n Hu)) as (Eo & Ht & Ec).
    destruct Hu as (Hans & Hone & Hobj). split; [auto|]. split; [auto|]. rewrite Eo.
    destruct (m_ops m !! id) as [[|i op socket state buffers bufs]|]; try done.
    destruct Hobj as (s & co & Hs & Hco & Hop & Htr).
    destruct (Ec _ _ _ _ _ _ eq_refl) as [Es Ecs]. rewrite Hco in Ecs.
    apply fmap_Some in Ecs as (co' & Hco' & Eco). exists s, co'. by rewrite Es, Hco', <- Eco. }
  split.
  - intros r (Hw & Hr & Ho). destruct (Hsame (ex_intro _ _ Hw)) as [Eo _].
    split; [by apply Hu|]. by rewrite Eo.
  - intros ec n [Hw Ho]. destruct (Hsame (ex_intro _ _ Hw)) as [Eo _].
    split; [by apply Hu|]. simpl in *. by rewrite Eo.
Qed.

Section Slots.
Context (slots : list slot).

Lemma story_kept id (m m' : machine B) :
  same_program m m' ->
  ((exists n, underway slots m id n) ->
   m_ops m' !! id = m_ops m !! id /\
   forall i op socket state buffers bufs,
     m_ops m !! id = Some (transfer_object i op socket state buffers bufs) ->
     m_connections m' !! i = m_connections m !! i) ->
  kept (transfer_waits slots) (transfer_finished slots) id m m'.
Proof.
  intros Hs Hsame. destruct (story_retold slots slots m m' id (sp_answers _ _ Hs)); [|by split].
  intros Hu. destruct (Hsame Hu) as [Eo Ec]. split; [done|]. rewrite (sp_tasks _ _ Hs). split; [done|].
  intros i op socket state buffers bufs Ho. by rewrite (Ec _ _ _ _ _ _ Ho).
Qed.

Lemma story_quiet (m m' : machine B) :
  same_program m m' -> m_ops m' = m_ops m -> m_connections m' = m_connections m ->
  calm (transfer_waits slots) (transfer_finished slots) m m'.
Proof. intros Hs Eo Ec id. apply story_kept; [done|]. intros _. by rewrite Eo, Ec. Qed.

Lemma perform_frame id r (m : machine B) id' :
  is_Some (m_ops m !! id') -> (forall id, tasks m !! id = tasks m !! id' -> id = id') -> id' <> id ->
  m_ops (perform_object id r m).2 !! id' = m_ops m !! id' /\
  forall i op socket state buffers bufs,
    m_ops m !! id' = Some (transfer_object i op socket state buffers bufs) ->
    m_connections (perform_object id r m).2 !! i = m_connections m !! i.
Proof.
  intros [o Ho] Hone Hne. unfold perform_object.
  destruct (m_ops m !! id) as [[socket state a|i op socket state buffers bufs]|] eqn:Eo; [| |done].
  - destruct (accept_do_perform _ _ _ _) as [[[st a'] t]|]; [|done]. simpl.
    by rewrite lookup_insert_ne.
  - destruct (m_connections m !! i) as [co|]; [|done].
    destruct (transfer_perform _ _ _ _ _ _ _) as [[[[st r1] c] t]|]; [|done]. simpl. split; [done|].
    intros i' op' socket' state' buffers' bufs' Ho'. rewrite list_lookup_alter_ne; [done|]. intros <-.
    apply Hne. symmetry. apply Hone. unfold tasks. by rewrite !lookup_fmap, Eo, Ho'.
Qed.

Lemma reactor_error_is_error `{!CtlErrors B} ec : reactor_error (machine B) ec -> ec_is_error ec = true.
Proof.
  intros [| | |op fd events source m errno E]; try by vm_compute.
  unfold ec_is_error. simpl. apply negb_true_iff, Z.eqb_neq.
  pose proof (ctl_error op fd events source (m_system m) errno) as He. simpl in E.
  destruct (epoll_ctl op fd events source (m_system m)). by apply He.
Qed.

Lemma underway_same (m m' : machine B) id n :
  same_program m m' -> Forall answer_ok (m_answers m') ->
  (forall id', tasks m !! id' = tasks m !! id -> id' = id) ->
  match m_ops m' !! id with
  | Some (accept_object _ _ o) => addrlen_ o = None
  | Some (transfer_object i op _ _ buffers _) =>
      exists s co, slots !! i = Some s /\ m_connections m' !! i = Some co /\ sl_op s = Some op /\
        transferring op (sl_conn s) (co_connection co) buffers n
  | None => False
  end -> underway slots m' id n.
Proof. intros Hs Ha Hone Ho. split; [done|]. split; [|done]. by rewrite (sp_tasks _ _ Hs). Qed.

Lemma story_performs id r (m : machine B) st r' m' :
  transfer_waits slots m id r -> perform_object id r m = (st, r', m') ->
  match st with
  | reactor_op.not_done => transfer_waits slots m' id r'
  | _ => transfer_finished slots m' (mkCompletion id (reactor_op.ec_ r') (reactor_op.bytes_transferred_ r'))
  end.
Proof.
  intros ((Ha & Hone & Hobj) & Hr & Hw) E.
  pose proof (perform_same id r m) as Hs. rewrite E in Hs. simpl in Hs.
  pose proof (sp_answers _ _ Hs Ha) as Ha'. unfold perform_object in E.
  destruct (m_ops m !! id) as [[socket state o|i op socket state buffers bufs]|] eqn:Eo; [| |done].
  - destruct (accept_do_perform _ _ _ _) as [[[st1 o'] t]|] eqn:Ep; injection E as <- <- <-.
    + assert (addrlen_ o' = None) as Ho by by apply (accept_no_address _ _ _ _ _ _ _ Ep).
      assert (forall n, underway slots (set_ops (set_answers m t) (<[id := accept_object socket state o']> (m_ops m))) id n) as Hu.
      { intros n. apply (underway_same m); try done. simpl. by rewrite lookup_insert_eq. }
      destruct st1; (split; [apply Hu|simpl; by rewrite lookup_insert_eq]).
    + split; [apply (underway_same m); try done; simpl; by rewrite Eo|simpl; by rewrite Eo].
  - destruct Hobj as (s & co & Hslot & Hco & Hop & Htr). rewrite Hco in E. destruct Hw as [Hstate ->].
    destruct (transfer_perform _ _ _ _ _ _ _) as [[[[st1 r1] c] t]|] eqn:Ep; injection E as <- <- <-.
    + destruct (transfer_perform_spec _ _ _ _ _ _ _ _ _ _ _ _ Ha Hr Htr Ep) as (Htr' & Hnot & Hpos & _).
      assert (underway slots (set_connection i c (set_answers m t)) id (reactor_op.bytes_transferred_ r1)) as Hu.
      { apply (underway_same m); try done. simpl. rewrite Eo. exists s, (mkConnectionObject c (co_socket co)).
        split; [done|]. by rewrite list_lookup_alter_eq, Hco. }
      destruct st1; [|split; [done|simpl; rewrite Eo; auto]..].
      rewrite (Hnot eq_refl) in Hu. split; [done|]. split; [by apply Hnot|]. simpl. by rewrite Eo.
    + split; [apply (underway_same m); try done; simpl; rewrite Eo; by exists s, co|]. split; [done|]. simpl. by rewrite Eo.
Qed.

#[export] Instance server_story `{!CtlErrors B} :
  Story False (transfer_waits slots) (transfer_finished slots) nothing_waits.
Proof.
  split.
  - intros id r m st r' m'. apply story_performs.
  - intros id r m st r' m' id' Hw E [[]|Hne]. pose proof (perform_same id r m) as Hs.
    change (perform_object id r m = (st, r', m')) in E. rewrite E in Hs.
    apply story_kept; [done|]. intros (n & Hu). destruct Hu as (_ & Hone & Ho).
    pose proof (perform_frame id r m id') as Hf. rewrite E in Hf. apply Hf; [|done|done].
    by destruct (m_ops m !! id').
  - intros op fd events source m. simpl. destruct (epoll_ctl _ _ _ _ _). by apply story_quiet.
  - intros timeout m. simpl. destruct (epoll_wait _ _). by apply story_quiet.
  - intros fd m. by apply story_quiet.
  - intros abs sec nsec m. by apply story_quiet.
  - intros m. simpl. destruct (clock_now _). by apply story_quiet.
  - intros id r m ec (Hu & Hr & Hw) Hec. split; simpl; [by rewrite Hr|].
    destruct (m_ops m !! id) as [[]|]; [done| |done]. by rewrite (reactor_error_is_error ec Hec).
  - done.
Qed.
End Slots.
End Story.
