(* ===== verification/ServerProcessSpec.v ===== *)
(** The process of the server does what [Server] says: every run of it is a run of
    [server_step], and it goes on for ever, unless saving throws.

    [program_ok] relates the memory of the program to the slots of the server: the
    operations that wait, their sockets and their connections.  Every part of a handler
    keeps it, and so does every round of the loop. *)

From S2P Require Import Prelude.
From S2P Require Import ObjectRepr.
From S2P Require Import FileSystem.
From S2P Require Import Requests.
From S2P Require Import AsioError.
From S2P Require Import Connecting.
From S2P Require Import Connection.
From S2P Require Import ConnectionSpec.
From S2P Require Import Server.
From S2P Require Import Buffers.
From S2P Require Import ConsumingBuffers.
From S2P Require Import SocketOps.
From S2P Require Import ReadWrite.
From S2P Require Import SocketSpec.
From S2P Require Import SocketStream.
From S2P Require Import SocketStreamSpec.
From S2P Require Import Scheduler.
From S2P Require Import EpollReactor.
From S2P Require Import IoContext.
From S2P Require Import ReactorSpec.
From S2P Require Import IoContextSpec.
From S2P Require Import ResultsSpec.
From S2P Require Import Worlds.
From S2P Require Import SocketService.
From S2P Require Import SocketServiceSpec.
From S2P Require Import EpollSockets.
From S2P Require Import ConnectionIO.
From S2P Require Import ServerProcess.
From S2P Require Import ServerAnswers.
From S2P Require Import ServerStory.

(** * Sockets *)

(** An open socket is known to the reactor, and a stream. *)
Definition held (live : gmap positive Z) (b : base_implementation) : Prop :=
  if is_open b then
    (exists p, reactor_data_ b = Some p /\ live !! p = Some (socket_ b)) /\
    has (state_ b) stream_oriented = true
  else state_ b = 0.

(** The sockets of a program, the acceptor's and those of the connections: no two have
    the same state of the reactor. *)
Record sockets_ok (live : gmap positive Z) (at_ : option nat -> option base_implementation) : Prop := {
  so_held x b : at_ x = Some b -> held live b;
  so_apart x y b b' : at_ x = Some b -> at_ y = Some b' -> is_open b = true -> is_open b' = true ->
    reactor_data_ b = reactor_data_ b' -> x = y
}.

(** The socket may have become non-blocking. *)
Record same_socket (b b' : base_implementation) : Prop := {
  ss_socket : socket_ b' = socket_ b;
  ss_data : reactor_data_ b' = reactor_data_ b;
  ss_closed : is_open b = false -> state_ b' = state_ b;
  ss_stream : has (state_ b) stream_oriented = true -> has (state_ b') stream_oriented = true
}.

Lemma same_socket_open b b' : same_socket b b' -> is_open b' = is_open b.
Proof. intros S. unfold is_open. by rewrite (ss_socket _ _ S). Qed.

Lemma held_same live b b' : same_socket b b' -> held live b -> held live b'.
Proof.
  intros S. unfold held. rewrite (same_socket_open _ _ S), (ss_socket _ _ S), (ss_data _ _ S).
  pose proof (ss_closed _ _ S). pose proof (ss_stream _ _ S). destruct (is_open b); [naive_solver|].
  intros Hb. by rewrite <- Hb; auto.
Qed.

Lemma held_mono live live' b : live ⊆ live' -> held live b -> held live' b.
Proof.
  intros Hl. unfold held. destruct (is_open b); [|done]. intros [(p & Ep & Hp) Hs]. split; [|done].
  exists p. split; [done|]. by eapply lookup_weaken.
Qed.

Lemma sockets_mono live live' at_ : live ⊆ live' -> sockets_ok live at_ -> sockets_ok live' at_.
Proof. intros Hl [Hh Ha]. split; [|done]. intros x b Hb. by eapply held_mono, Hh. Qed.

Lemma sockets_ext live at_ at' : (forall x, at' x = at_ x) -> sockets_ok live at_ -> sockets_ok live at'.
Proof.
  intros E [Hh Ha]. split; [intros x b; rewrite E; apply Hh|]. intros x y b b'. rewrite !E. apply Ha.
Qed.

(** The function with another value at [x]. *)
Definition but (x : option nat) (b : base_implementation) (at_ : option nat -> option base_implementation) :=
  fun y => if decide (y = x) then Some b else at_ y.

Lemma sockets_update live at_ x b b' :
  at_ x = Some b -> same_socket b b' -> sockets_ok live at_ -> sockets_ok live (but x b' at_).
Proof.
  intros Hx S [Hh Ha]. unfold but. split.
  - intros y c. case_decide as Hy; [|apply Hh]. intros [= <-]. by eapply held_same, Hh.
  - intros y z c c'. pose proof (same_socket_open _ _ S). pose proof (ss_data _ _ S).
    repeat case_decide; subst; try done; [| |apply Ha]; intros Ec Ec'.
    + injection Ec as <-. intros. eapply Ha; try done; congruence.
    + injection Ec' as <-. intros. eapply Ha; try done; congruence.
Qed.

(** A socket that is closed, and was taken from the reactor if it was open. *)
Lemma sockets_close live at_ x b :
  at_ x = Some b -> sockets_ok live at_ ->
  sockets_ok (if is_open b then match reactor_data_ b with Some p => delete p live | None => live end else live)
    (but x construct at_).
Proof.
  intros Hx [Hh Ha]. unfold but. split.
  - intros y c. case_decide as Hy; [by intros [= <-]|]. intros Hc. pose proof (Hh _ _ Hc) as Hheld.
    destruct (is_open b) eqn:Ho; [|done]. destruct (reactor_data_ b) as [p|] eqn:Ep; [|done].
    unfold held in *. destruct (is_open c) eqn:Hoc; [|done]. destruct Hheld as [(q & Eq & Hq) Hs].
    split; [|done]. exists q. split; [done|]. rewrite lookup_delete_ne; [done|]. intros ->.
    apply Hy. eapply Ha; try done. congruence.
  - intros y z c c'. repeat case_decide; subst; try done; [| |apply Ha].
    + by intros [= <-].
    + by intros ? [= <-].
Qed.

(** A socket that no other has. *)
Definition unclaimed (live live' : gmap positive Z) (b : base_implementation) : Prop :=
  live ⊆ live' /\ held live' b /\ (is_open b = true -> forall p, reactor_data_ b = Some p -> live !! p = None).

Lemma sockets_new live live' at_ x b :
  at_ x = None -> unclaimed live live' b -> sockets_ok live at_ -> sockets_ok live' (but x b at_).
Proof.
  intros Hx (Hl & Hb & Hnew) Hs. pose proof (so_held _ _ Hs) as Hheld.
  assert (forall y c p, at_ y = Some c -> is_open c = true -> is_open b = true -> reactor_data_ b = Some p ->
    reactor_data_ c = Some p -> False) as Hne.
  { intros y c p Hc Ho Hob Ep Ecp. pose proof (Hheld _ _ Hc) as Hh. unfold held in Hh.
    rewrite Ho in Hh. destruct Hh as [(q & Eq & Hq) _]. rewrite Ecp in Eq. injection Eq as <-.
    by rewrite (Hnew Hob p Ep) in Hq. }
  assert (forall c, held live' c -> is_open c = true -> is_Some (reactor_data_ c)) as Hsome.
  { intros c Hc Ho. unfold held in Hc. rewrite Ho in Hc. destruct Hc as [(q & -> & _) _]. by exists q. }
  apply (sockets_mono live live') in Hs; [|done]. destruct Hs as [Hh Ha]. unfold but. split.
  - intros y c. case_decide as Hy; [by intros [= <-]|apply Hh].
  - intros y z c c'. repeat case_decide; subst; try done; [| |apply Ha].
    + intros [= <-] Hc' Hob Ho E. destruct (Hsome b Hb Hob) as [p Ep]. exfalso. eapply Hne; try done; congruence.
    + intros Hc [= <-] Ho Hob E. destruct (Hsome b Hb Hob) as [p Ep]. exfalso. eapply Hne; try done; congruence.
Qed.

Section Process.
Context {B : Type} `{KernelLaws B} `{!CtlErrors B} `{OS, !OSLaws}.

Abbreviation program := (svc (context (machine B))).

Abbreviation results_of slots :=
  (results_ok (transfer_waits slots) (transfer_finished slots) nothing_waits).

(** A step of a handler: the loop runs on, the operations [ids] were started, and the
    kernel was called. *)
Record goes_on (slots : list slot) (ids : list positive) (c c' : context (machine B)) : Prop := {
  go_advanced : advanced ids false c c';
  go_reaches : reaches c c';
  go_results : results_of slots c';
  go_live : live_of c ⊆ live_of c'
}.

(** * Starting operations *)

(** Non-blocking or not, the socket is the same; an error has a number. *)
Lemma make_non_blocking_same b ec (c : context (machine B)) t o c' t' :
  Forall answer_ok t -> (is_open b = true -> has (state_ b) stream_oriented = true) ->
  (is_open b = false -> state_ b = 0) ->
  make_non_blocking b ec c t = Some (o, c', t') ->
  exists ok b' ec', o = Ret (ok, b', ec') /\ c' = c /\ same_socket b b' /\ Forall answer_ok t' /\
  (ok = false -> ec_is_error ec' = true) /\ (ok = true -> is_open b = true).
Proof.
  intros Ht Hs Hc E. unfold make_non_blocking in E. destruct (has (state_ b) non_blocking) eqn:Hn.
  { injection E as <- <- <-. eexists true, b, ec. do 4 (split; [done|]). split; [done|]. intros _.
    destruct (is_open b) eqn:Ho; [done|]. by rewrite (Hc eq_refl) in Hn. }
  unfold mbind, svc_bind, call_os in E. destruct (is_open b) eqn:Ho.
  - destruct (set_internal_non_blocking _ _ _ _ _) as [[[[ok state] ec1] t1]|] eqn:Es; [|done].
    injection E as <- <- <-. apply is_open_socket in Ho as Hi.
    destruct (set_internal_non_blocking_spec _ _ _ _ _ _ _ _ Ht (Hs eq_refl) Hi Es) as (Hr & _ & Hs1 & Hf).
    eexists ok, _, ec1. split; [done|]. split; [done|]. split; [by split; simpl; rewrite ?Ho|].
    split; [by eapply receives_ok|done].
  - assert (socket_ b = invalid_socket) as Hi.
    { unfold is_open in Ho. by apply negb_false_iff, Z.eqb_eq in Ho. }
    unfold set_internal_non_blocking in E. rewrite Hi in E. injection E as <- <- <-.
    eexists false, _, _. split; [done|]. split; [done|]. split; [by split|]. split; [done|].
    split; [by vm_compute|done].
Qed.

Lemma immediate_goes slots op b (c : context (machine B)) :
  transfer_finished slots (world c) (completion_of op) -> results_of slots c ->
  exists c', complete_now op b c = Ret c' /\ goes_on slots [op_ptr op] c c'.
Proof.
  intros Hop Hc. eexists. split; [done|]. split.
  - by apply advanced_immediate.
  - by apply reaches_same.
  - by apply results_immediate.
  - done.
Qed.

Lemma start_goes slots k b op cont speculative (c : context (machine B)) :
  context_ok c -> is_open b = true -> held (live_of c) b -> op_ptr op ∉ pending c ->
  transfer_waits slots (world c) (op_ptr op) (op_result op) -> results_of slots c ->
  exists c', start_op k (socket_ b) (reactor_data_ b) op cont speculative c = Ret c' /\
  goes_on slots [op_ptr op] c c' /\ live_of c' = live_of c.
Proof.
  intros Hok Ho Hb Hid Hop Hc. unfold held in Hb. rewrite Ho in Hb. destruct Hb as [(p & -> & Hp) _].
  destruct (start_op_spec k (socket_ b) (Some p) op cont speculative c) as (c' & E & A).
  { apply live_in_use; [apply Hok|]. by eapply live_in_list. }
  apply live_of_lookup in Hp as (d & Hd & [_ Hs] & _).
  assert (live_of c' = live_of c) as El by (by eapply steady_live, start_steady).
  exists c'. split; [done|]. split; [|done].
  split; [done|by eapply start_op_reaches| |by rewrite El].
  eapply (results_start_op False (transfer_waits slots) (transfer_finished slots) nothing_waits); [exact E|done| |by right|done].
  intros q d' [= <-] Hd' Hshut. rewrite Hd in Hd'. injection Hd' as <-. by rewrite Hs in Hshut.
Qed.

(** What is known of an operation that is about to start. *)
Record startable (slots : list slot) (b : base_implementation) (op : queued_op) (noop : bool)
    (m : machine B) : Prop := {
  sa_waits ec : is_open b = true ->
    transfer_waits slots m (op_ptr op) (reactor_op.mk ec (reactor_op.bytes_transferred_ (op_result op)));
  sa_fails ec : ec_is_error ec = true ->
    transfer_finished slots m
      (mkCompletion (op_ptr op) ec (reactor_op.bytes_transferred_ (op_result op)));
  sa_noop : noop = true -> transfer_finished slots m (completion_of op)
}.

Lemma do_start_op_goes slots b k op cont noop (c : context (machine B)) t o c' t' :
  context_ok c -> Forall answer_ok t -> held (live_of c) b -> op_ptr op ∉ pending c ->
  startable slots b op noop (world c) -> results_of slots c ->
  SocketService.do_start_op b k op cont true noop c t = Some (o, c', t') ->
  exists b', o = Ret b' /\ same_socket b b' /\ Forall answer_ok t' /\
  goes_on slots [op_ptr op] c c' /\ live_of c' = live_of c.
Proof.
  intros Hok Ht Hb Hid Hop Hc E.
  assert (same_socket b b) as Hsame by by split.
  unfold SocketService.do_start_op in E. destruct noop; cbn [negb] in E; cbv iota in E.
  { destruct (immediate_goes slots op cont c (sa_noop _ _ _ _ _ Hop eq_refl) Hc) as (c1 & E1 & G).
    unfold mbind, svc_bind, call_reactor_, call_reactor in E. simpl in E. unfold complete_now in E1, E.
    injection E1 as <-. injection E as <- <- <-. exists b. done. }
  unfold mbind at 1, svc_bind at 1 in E.
  destruct (make_non_blocking b _ c t) as [[[o1 c1] t1]|] eqn:Em; [|done].
  apply make_non_blocking_same in Em as (ok & b' & ec & -> & -> & S & Ht1 & Hf & Ho); [|done|..].
  2: { intros Ho. unfold held in Hb. by rewrite Ho in Hb; apply Hb. }
  2: { intros Ho. unfold held in Hb. by rewrite Ho in Hb. }
  destruct ok.
  - specialize (Ho eq_refl). pose proof (same_socket_open _ _ S) as So. rewrite Ho in So.
    destruct (start_goes slots k b' (set_ec ec op) cont true c Hok So (held_same _ _ _ S Hb) Hid) as (c2 & E2 & G & El).
    { apply (sa_waits _ _ _ _ _ Hop ec Ho). } { done. }
    unfold mbind, svc_bind, call_reactor_, call_reactor in E.
    change (start k (socket_ b') (reactor_data_ b') (set_ec ec op) cont true c)
      with (start_op k (socket_ b') (reactor_data_ b') (set_ec ec op) cont true c) in E.
    rewrite E2 in E. injection E as <- <- <-. by exists b'.
  - destruct (immediate_goes slots (set_ec ec op) cont c) as (c2 & E2 & G); [|done|].
    { apply (sa_fails _ _ _ _ _ Hop ec (Hf eq_refl)). }
    unfold mbind, svc_bind, call_reactor_, call_reactor in E. simpl in E. unfold complete_now in E2, E.
    injection E2 as <-. injection E as <- <- <-. by exists b'.
Qed.

(** * The memory of the program *)

Definition socket_at (m : machine B) (x : option nat) : option base_implementation :=
  match x with
  | None => Some (base (m_acceptor m))
  | Some i => base <$> ((co_socket <$> m_connections m) !! i)
  end.

(** The memory stands for the slots of the server; [who] are those with an operation:
    one each. *)
Record memory_ok (slots : list slot) (fs : filesystem) (acc : option connection_object)
    (who : option nat -> Prop) (live : gmap positive Z) (m : machine B) : Prop := {
  mo_one id id' x : tasks m !! id = Some x -> tasks m !! id' = Some x -> id = id';
  mo_who x : (exists id, tasks m !! id = Some x) <-> who x;
  mo_sockets : sockets_ok live (socket_at m);
  mo_type : ip.type (protocol_ (m_acceptor m)) = SOCK_STREAM;
  mo_length : length (m_connections m) = length slots;
  mo_files : m_files m = fs;
  mo_accepting : m_accepting m = acc;
  mo_answers : Forall answer_ok (m_answers m)
}.

Lemma socket_at_same (m m' : machine B) x : same_program m m' -> socket_at m' x = socket_at m x.
Proof.
  intros S. destruct x as [i|]; simpl; [by rewrite (sp_sockets _ _ S)|by rewrite (sp_acceptor _ _ S)].
Qed.

Lemma memory_same slots fs acc who live live' (m m' : machine B) :
  same_program m m' -> live ⊆ live' -> memory_ok slots fs acc who live m ->
  memory_ok slots fs acc who live' m'.
Proof.
  intros S Hl [M1 M2 M3 M4 M5 M6 M7 M8]. split.
  - by rewrite (sp_tasks _ _ S).
  - by rewrite (sp_tasks _ _ S).
  - eapply sockets_ext; [intros x; by apply socket_at_same|]. by eapply sockets_mono.
  - by rewrite (sp_acceptor _ _ S).
  - rewrite <- M5, <- (length_fmap co_socket), <- (length_fmap co_socket (m_connections m)).
    by rewrite (sp_sockets _ _ S).
  - by rewrite (sp_files _ _ S).
  - by rewrite (sp_accepting _ _ S).
  - by apply (sp_answers _ _ S).
Qed.

(** The program between two steps: the operations that are pending are those that have an
    object. *)
Record program_ok (slots : list slot) (fs : filesystem) (acc : option connection_object)
    (who : option nat -> Prop) (c : context (machine B)) (t : sys_trace) : Prop := {
  po_memory : memory_ok slots fs acc who (live_of c) (world c);
  po_results : results_of slots c;
  po_distinct : NoDup (pending c);
  po_pending id : id ∈ pending c <-> is_Some (tasks (world c) !! id);
  po_trace : Forall answer_ok t
}.

(** A program that runs on the loop's context, while the loop runs or before it does. *)
Section Program.
Context (inv : context (machine B) -> Prop).
Context (inv_ok : forall c, inv c -> context_ok c).
Context (inv_advanced : forall ids b c c', inv c -> advanced ids b c c' -> inv c').

Record at_work (slots : list slot) (fs : filesystem) (acc : option connection_object)
    (who : option nat -> Prop) (c : context (machine B)) (t : sys_trace) : Prop := {
  aw_inv : inv c;
  aw_goes : scheduler.stopped_ (sched c) = false;
  aw_program : program_ok slots fs acc who c t
}.

Lemma advanced_goes ids (c c' : context (machine B)) :
  advanced ids false c c' -> scheduler.stopped_ (sched c) = false -> scheduler.stopped_ (sched c') = false.
Proof. intros [(moved & P & _) _] Hs. by rewrite (po_stopped _ _ _ _ _ P), Hs. Qed.

(** Steps that start nothing. *)
Lemma at_work_goes slots fs acc who c t c' t' :
  at_work slots fs acc who c t -> goes_on slots [] c c' -> Forall answer_ok t' ->
  at_work slots fs acc who c' t'.
Proof.
  intros [Hr Hs [M R N P T]] [A W G L] Ht. pose proof (reaches_same_program _ _ W) as S.
  split; [by eapply inv_advanced|by eapply advanced_goes|]. split; [|done| | |done].
  - by eapply memory_same.
  - by rewrite (advanced_pending _ _ _ _ A).
  - intros id. by rewrite (advanced_pending _ _ _ _ A), (sp_tasks _ _ S).
Qed.

(** ** A new operation *)

(** An object that an operation may start with, on the socket [b]. *)
Definition new_object_ok (slots : list slot) (b : base_implementation) (o : operation_object)
    (noop : bool) (m : machine B) : Prop :=
  match o with
  | accept_object _ _ a => addrlen_ a = None /\ noop = false
  | transfer_object i op _ state buffers bufs =>
      state = state_ b /\ bufs = single_prepare buffers default_max_transfer_size /\
      noop = is_noop state bufs /\
      exists s co, slots !! i = Some s /\ m_connections m !! i = Some co /\ sl_op s = Some op /\
        transferring op (sl_conn s) (co_connection co) buffers 0
  end.

Definition with_object (id : positive) (o : operation_object) (m : machine B) : machine B :=
  set_ops m (<[id := o]> (m_ops m)).

Lemma tasks_with_object id o (m : machine B) : tasks (with_object id o m) = <[id := owner o]> (tasks m).
Proof. unfold tasks, with_object. simpl. apply fmap_insert. Qed.

(** Nothing to transfer is nothing left. *)
Lemma noop_rest state buffers :
  cb_ok buffers -> is_noop state (single_prepare buffers default_max_transfer_size) = true ->
  cb_rest buffers = [].
Proof.
  intros Hok [_ Hn]%andb_true_iff. destruct (prepared_addresses buffers Hok) as (n & Hf & _ & Hpos & Hw & Hl).
  rewrite (all_empty_flatten _ Hl Hw Hn) in Hf. destruct (cb_rest buffers) as [|a l]; [done|].
  rewrite seqZ_cons in Hf by (by apply Hpos). done.
Qed.

Lemma object_startable slots b o noop id (m : machine B) :
  tasks m !! id = None -> (forall id', tasks m !! id' <> Some (owner o)) ->
  Forall answer_ok (m_answers m) -> (is_open b = true -> has (state_ b) stream_oriented = true) ->
  new_object_ok slots b o noop m ->
  startable slots b (mkOp id 1 (reactor_op.new ec_success)) noop (with_object id o m).
Proof.
  intros Hid Hnew Ha Hs Ho.
  assert (underway slots (with_object id o m) id 0) as Hu.
  { split; [done|]. rewrite tasks_with_object. split.
    - intros id'. rewrite lookup_insert_eq. destruct (decide (id' = id)); [done|].
      rewrite lookup_insert_ne by done. intros E. by destruct (Hnew id').
    - simpl. rewrite lookup_insert_eq. destruct o; [by destruct Ho|]. by destruct Ho as (_ & _ & _ & ?). }
  split; simpl.
  - intros ec Hb. split; [done|]. split; [done|]. simpl. rewrite lookup_insert_eq.
    destruct o; [done|]. destruct Ho as (-> & -> & _). by rewrite Hs.
  - intros ec He. split; [done|]. simpl. rewrite lookup_insert_eq. destruct o; [done|]. by rewrite He.
  - intros ->. split; [done|]. simpl. rewrite lookup_insert_eq. destruct o; [done|].
    destruct Ho as (-> & -> & Hn & s & co & _ & _ & _ & Htr). intros _ Hne. exfalso. apply Hne.
    eapply noop_rest; [apply Htr|by symmetry].
Qed.

Lemma memory_with_object slots fs acc who live id o (m : machine B) :
  tasks m !! id = None -> ~ who (owner o) -> memory_ok slots fs acc who live m ->
  memory_ok slots fs acc (fun x => who x \/ x = owner o) live (with_object id o m).
Proof.
  intros Hid Hnew [M1 M2 M3 M4 M5 M6 M7 M8].
  assert (forall id', tasks m !! id' <> Some (owner o)) as Hno.
  { intros id' E. apply Hnew, M2. by exists id'. }
  split; try done.
  - intros id1 id2 x. rewrite tasks_with_object, !lookup_insert_Some.
    intros [[<- <-]|[Hne Hx]] [[<- Hy]|[Hne' Hx']]; [done|by destruct (Hno id2)| |by eapply M1].
    subst x. by destruct (Hno id1).
  - intros x. rewrite tasks_with_object. split.
    + intros (id' & [[_ <-]|[_ Hx]]%lookup_insert_Some); [by right|]. left. apply M2. by exists id'.
    + intros [(id' & Hx)%M2| ->]; [exists id'|exists id; apply lookup_insert_eq].
      rewrite lookup_insert_ne; [done|]. intros <-. congruence.
Qed.

(** The stories of the others go on. *)
Lemma results_with_object slots id o (c : context (machine B)) :
  tasks (world c) !! id = None -> (forall id', tasks (world c) !! id' <> Some (owner o)) ->
  (forall id', id' ∈ pending c -> is_Some (tasks (world c) !! id')) -> results_of slots c ->
  results_of slots (set_world (with_object id o (world c)) c).
Proof.
  intros Hid Hno Hp. apply results_retold. intros id' Hin.
  assert (id <> id') as Hne by (intros <-; destruct (Hp id Hin); congruence).
  apply story_retold; [done|]. intros _. split; [simpl; by rewrite lookup_insert_ne|]. split; [|done].
  intros id''. rewrite tasks_with_object, (lookup_insert_ne _ id id') by done.
  destruct (decide (id = id'')) as [<-|]; [|by rewrite lookup_insert_ne].
  rewrite lookup_insert_eq. intros E. by destruct (Hno id').
Qed.

(** A new operation on the socket [b]: the rest of [async_accept], [async_read_some] and
    [async_write_some]. *)
Lemma begin_task slots fs acc who o b k cont noop c t out c' t' :
  at_work slots fs acc who c t -> ~ who (owner o) -> socket_at (world c) (owner o) = Some b ->
  new_object_ok slots b o noop (world c) ->
  (qop ← new_op o; SocketService.do_start_op b k qop cont true noop) c t = Some (out, c', t') ->
  exists b', out = Ret b' /\ same_socket b b' /\ socket_at (world c') (owner o) = Some b /\
  at_work slots fs acc (fun x => who x \/ x = owner o) c' t' /\
  m_acceptor (world c') = m_acceptor (world c).
Proof.
  intros [Hr Hs [M R N P T]] Hnew Hb Ho E. set (id := fresh (dom (m_ops (world c)))).
  assert (tasks (world c) !! id = None) as Hid.
  { unfold tasks. rewrite lookup_fmap. fold id. apply fmap_None, not_elem_of_dom, is_fresh. }
  assert (forall id', tasks (world c) !! id' <> Some (owner o)) as Hno.
  { intros id' Hid'. apply Hnew, (mo_who _ _ _ _ _ _ M). by exists id'. }
  set (c1 := set_world (with_object id o (world c)) c).
  assert (SocketService.do_start_op b k (mkOp id 1 (reactor_op.new ec_success)) cont true noop c1 t =
    Some (out, c', t')) as E1 by exact E. clear E.
  assert (id ∉ pending c) as Hpend by (rewrite P, Hid; by intros [? ?]).
  pose proof (so_held _ _ (mo_sockets _ _ _ _ _ _ M) _ _ Hb) as Hheld.
  apply (do_start_op_goes slots) in E1 as (b' & -> & S & T' & [A W G L] & El); try done; [|by apply inv_ok in Hr| |].
  2: { apply object_startable; [done..|apply M| |done]. unfold held in Hheld. by destruct (is_open b); [destruct Hheld|]. }
  2: { apply results_with_object; [done..|by intros id' ?%P|done]. }
  exists b'. pose proof (reaches_same_program _ _ W) as Hsame.
  assert (advanced [id] false c c') as Ac by (eapply advanced_quiet; [by apply (advanced_world (with_object id o (world c)))|exact A]).
  split; [done|]. split; [done|]. split; [by rewrite (socket_at_same _ _ _ Hsame)|].
  split; [|by rewrite (sp_acceptor _ _ Hsame)].
  split; [by eapply inv_advanced|by eapply advanced_goes|]. split; [|done| | |done].
  - eapply memory_same; [exact Hsame|exact L|]. by apply memory_with_object.
  - rewrite (advanced_pending _ _ _ _ Ac). by constructor.
  - intros id'. rewrite (advanced_pending _ _ _ _ Ac), (sp_tasks _ _ Hsame). simpl.
    rewrite tasks_with_object, elem_of_cons, P. destruct (decide (id' = id)) as [->|Hne].
    + rewrite lookup_insert_eq. split; [by eexists|by left].
    + rewrite lookup_insert_ne by done. naive_solver.
Qed.

(** * Assignments *)

(** After steps that start nothing the memory changes, but nothing that the operations
    rest on. *)
Lemma at_work_then slots slots' fs fs' acc acc' who c t c1 t1 m' :
  at_work slots fs acc who c t -> advanced [] false c c1 -> reaches c c1 -> results_of slots c1 ->
  Forall answer_ok t1 -> m_system m' = m_system (world c1) -> m_ops m' = m_ops (world c1) ->
  (forall i, who (Some i) -> slots' !! i = slots !! i /\
     co_connection <$> m_connections m' !! i = co_connection <$> m_connections (world c1) !! i) ->
  memory_ok slots' fs' acc' who (live_of c1) m' -> at_work slots' fs' acc' who (set_world m' c1) t1.
Proof.
  intros [Hr Hs [M _ N P _]] A W R T Esys Eops Hwho M'. pose proof (reaches_same_program _ _ W) as S.
  assert (advanced [] false c1 (set_world m' c1)) as A'.
  { apply advanced_world. change (given (m_system m') ⊆ given (m_system (world c1))). by rewrite Esys. }
  assert (tasks m' = tasks (world c)) as Et.
  { rewrite <- (sp_tasks _ _ S). unfold tasks. by rewrite Eops. }
  pose proof (advanced_quiet _ _ _ _ _ A A') as A2.
  split; [by eapply inv_advanced|by eapply advanced_goes|]. split; [done| | | |done].
  - revert R. apply results_retold. intros id Hid. apply story_retold; [intros _; apply M'|]. intros _.
    rewrite Eops, Et, (sp_tasks _ _ S). split; [done|]. split; [done|].
    intros i op socket state buffers bufs Ho. apply Hwho, (mo_who _ _ _ _ _ _ M). exists id.
    rewrite <- (sp_tasks _ _ S). unfold tasks. by rewrite lookup_fmap, Ho.
  - by rewrite (advanced_pending _ _ _ _ A2).
  - intros id. rewrite (advanced_pending _ _ _ _ A2), P. simpl. by rewrite Et.
Qed.

Lemma at_work_put slots slots' fs fs' acc acc' who c t m' :
  at_work slots fs acc who c t -> m_system m' = m_system (world c) -> m_ops m' = m_ops (world c) ->
  (forall i, who (Some i) -> slots' !! i = slots !! i /\
     co_connection <$> m_connections m' !! i = co_connection <$> m_connections (world c) !! i) ->
  memory_ok slots' fs' acc' who (live_of c) m' -> at_work slots' fs' acc' who (set_world m' c) t.
Proof.
  intros A. destruct (aw_program _ _ _ _ _ _ A) as [_ R _ _ T].
  by apply (at_work_then slots slots' fs fs' acc acc' who c t c t m' A (advanced_refl c)).
Qed.

Lemma socket_at_set_socket i b (m : machine B) x :
  is_Some (m_connections m !! i) ->
  socket_at (set_socket i b m) x = but (Some i) b (socket_at m) x.
Proof.
  intros [co Hco]. unfold but. destruct x as [j|]; [|done]. simpl. rewrite !list_lookup_fmap.
  destruct (decide (j = i)) as [->|Hne].
  - rewrite decide_True by done. by rewrite list_lookup_alter_eq, Hco.
  - rewrite decide_False by congruence. by rewrite list_lookup_alter_ne.
Qed.

Lemma set_socket_connections i b (m : machine B) :
  co_connection <$> m_connections (set_socket i b m) = co_connection <$> m_connections m.
Proof.
  apply list_eq. intros j. rewrite !list_lookup_fmap. simpl. destruct (decide (j = i)) as [->|Hne].
  - rewrite list_lookup_alter_eq. by destruct (m_connections m !! i).
  - by rewrite list_lookup_alter_ne.
Qed.

Lemma connection_kept (m m' : machine B) i :
  co_connection <$> m_connections m' = co_connection <$> m_connections m ->
  co_connection <$> m_connections m' !! i = co_connection <$> m_connections m !! i.
Proof. intros E. by rewrite <- !list_lookup_fmap, E. Qed.

(** The sockets of the program are others; everything else is the same. *)
Lemma memory_sockets slots fs acc who live live' (m m' : machine B) :
  memory_ok slots fs acc who live m -> m_ops m' = m_ops m -> m_files m' = m_files m ->
  m_accepting m' = m_accepting m -> m_answers m' = m_answers m ->
  ip.type (protocol_ (m_acceptor m')) = ip.type (protocol_ (m_acceptor m)) ->
  length (m_connections m') = length (m_connections m) ->
  sockets_ok live' (socket_at m') -> memory_ok slots fs acc who live' m'.
Proof.
  intros [M1 M2 M3 M4 M5 M6 M7 M8] E1 E2 E3 E4 E5 E6 Hs.
  assert (tasks m' = tasks m) as Et by (unfold tasks; by rewrite E1).
  split; rewrite ?Et, ?E2, ?E3, ?E4, ?E5, ?E6; done.
Qed.

(** A socket that an operation was started on is stored. *)
Lemma at_work_set_socket slots fs acc who c t i b b' :
  at_work slots fs acc who c t -> socket_at (world c) (Some i) = Some b -> same_socket b b' ->
  at_work slots fs acc who (set_world (set_socket i b' (world c)) c) t.
Proof.
  intros A Hb S. apply (at_work_put slots slots fs fs acc acc who c t); [done..| |].
  - intros j _. split; [done|]. apply connection_kept, set_socket_connections.
  - pose proof (po_memory _ _ _ _ _ _ (aw_program _ _ _ _ _ _ A)) as M.
    eapply memory_sockets; try done; [simpl; by rewrite length_alter|].
    assert (is_Some (m_connections (world c) !! i)) as Hi.
    { simpl in Hb. rewrite list_lookup_fmap in Hb. by destruct (m_connections (world c) !! i). }
    eapply sockets_ext; [intros x; by apply socket_at_set_socket|].
    eapply sockets_update; [exact Hb|exact S|apply M].
Qed.

Lemma at_work_set_acceptor slots fs acc who c t b b' :
  at_work slots fs acc who c t -> socket_at (world c) None = Some b -> same_socket b b' ->
  at_work slots fs acc who
    (set_world (set_acceptor (world c) (mkImplementation b' (protocol_ (m_acceptor (world c))))) c) t.
Proof.
  intros A Hb S. apply (at_work_put slots slots fs fs acc acc who c t); [done..|].
  pose proof (po_memory _ _ _ _ _ _ (aw_program _ _ _ _ _ _ A)) as M.
  eapply memory_sockets; try done.
  eapply (sockets_ext _ (but None b' (socket_at (world c)))).
  - intros [i|]; unfold but; [by rewrite decide_False|done].
  - eapply sockets_update; [exact Hb|exact S|apply M].
Qed.

(** * Programs *)

(** From a state with [P], a program that ends does so with an outcome and a state as [Q]
    says. *)
Definition ends {A} (P : context (machine B) -> sys_trace -> Prop) (m : program A)
    (Q : outcome A -> context (machine B) -> sys_trace -> Prop) : Prop :=
  forall c t o c' t', P c t -> m c t = Some (o, c', t') -> Q o c' t'.

(** It returns. *)
Definition returning {A} (Q : A -> context (machine B) -> sys_trace -> Prop) (o : outcome A)
    (c : context (machine B)) (t : sys_trace) : Prop := exists a, o = Ret a /\ Q a c t.

Abbreviation runs P m Q := (ends P m (returning Q)).

(** It returns, or throws. *)
Definition ending (Q : context (machine B) -> sys_trace -> Prop)
    (E : exn -> context (machine B) -> sys_trace -> Prop) (o : outcome ()) (c : context (machine B))
    (t : sys_trace) : Prop :=
  match o with
  | Ret _ => Q c t
  | Throw e => E e c t
  | Undef => False
  end.

Lemma runs_return {A} P (a : A) Q : (forall c t, P c t -> Q a c t) -> runs P (mret a) Q.
Proof. intros HQ c t o c' t' HP [= <- <- <-]. exists a. auto. Qed.

Lemma runs_seq {A A'} P (m : program A) (f : A -> program A') R Q :
  runs P m R -> (forall a, ends (R a) (f a) Q) -> ends P (m ≫= f) Q.
Proof.
  intros Hm Hf c t o c' t' HP E. unfold mbind, svc_bind in E.
  destruct (m c t) as [[[o1 c1] t1]|] eqn:Em; [|done].
  destruct (Hm _ _ _ _ _ HP Em) as (a & -> & HR). by eapply Hf.
Qed.

Lemma runs_pre {A} P P' (m : program A) Q : (forall c t, P c t -> P' c t) -> ends P' m Q -> ends P m Q.
Proof. intros HP Hm c t o c' t' Hc. by apply Hm, HP. Qed.

Lemma ends_post {A} P (m : program A) Q Q' :
  ends P m Q -> (forall o c t, Q o c t -> Q' o c t) -> ends P m Q'.
Proof. intros Hm HQ c t o c' t' HP E. by eapply HQ, Hm. Qed.

Lemma runs_post {A} P (m : program A) Q Q' :
  runs P m Q -> (forall a c t, Q a c t -> Q' a c t) -> runs P m Q'.
Proof. intros Hm HQ. eapply ends_post; [exact Hm|]. intros o c t (a & -> & Ha). exists a. auto. Qed.

Lemma runs_ending P (m : program ()) Q Q' E :
  runs P m Q -> (forall c t, Q () c t -> Q' c t) -> ends P m (ending Q' E).
Proof. intros Hm HQ. eapply ends_post; [exact Hm|]. intros o c t ([] & -> & Ha). by apply HQ. Qed.

Lemma runs_given {A} (P : context (machine B) -> sys_trace -> Prop) (m : program A) Q :
  (forall c t, P c t -> ends (fun c' t' => c' = c /\ t' = t) m Q) -> ends P m Q.
Proof. intros Hm c t o c' t' HP E. by eapply (Hm c t HP). Qed.

(** The same instructions, bracketed otherwise. *)
Lemma runs_assoc {A1 A2 A3} P (m : program A1) (f : A1 -> program A2) (g : A2 -> program A3) Q :
  ends P ((m ≫= f) ≫= g) Q -> ends P (m ≫= (fun a => f a ≫= g)) Q.
Proof.
  intros Hm c t o c' t' HP E. apply (Hm c t o c' t' HP). rewrite <- E. unfold mbind, svc_bind.
  by destruct (m c t) as [[[[a|e|] c1] t1]|].
Qed.

Lemma runs_machine {A} P (f : machine B -> program A) Q :
  (forall m, ends (fun c t => P c t /\ world c = m) (f m) Q) -> ends P (get_machine ≫= f) Q.
Proof. intros Hf c t o c' t' HP E. by eapply (Hf (world c)). Qed.

Lemma runs_put P f (Q : () -> context (machine B) -> sys_trace -> Prop) :
  (forall c t, P c t -> Q () (set_world (f (world c)) c) t) -> runs P (put_machine f) Q.
Proof. intros HQ c t o c' t' HP [= <- <- <-]. exists (). auto. Qed.

Lemma runs_world {A} (P : context (machine B) -> sys_trace -> Prop) m (f : machine B -> program A) Q :
  (forall c t, P c t -> world c = m) -> ends P (f m) Q -> ends P (get_machine ≫= f) Q.
Proof. intros Hm Hf c t o c' t' HP E. apply (Hf c t o c' t' HP). by rewrite <- (Hm c t HP). Qed.

Lemma runs_outcome {A A'} P (o : outcome A) a (f : A -> program A') Q :
  o = Ret a -> ends P (f a) Q -> ends P (lift o ≫= f) Q.
Proof. intros -> Hf c t x c' t' HP E. by apply (Hf c t x c' t' HP). Qed.

Lemma ends_throw {A} P e (Q : outcome A -> context (machine B) -> sys_trace -> Prop) :
  (forall c t, P c t -> Q (Throw e) c t) -> ends P (lift (Throw e)) Q.
Proof. intros HQ c t o c' t' HP [= <- <- <-]. by apply HQ. Qed.

Lemma runs_connection {A} P i co (f : connection_object -> program A) Q :
  (forall c t, P c t -> m_connections (world c) !! i = Some co) -> ends P (f co) Q ->
  ends P (connection_at i ≫= f) Q.
Proof.
  intros Hco Hf c t o c' t' HP E. apply (Hf c t o c' t' HP). unfold connection_at in E.
  unfold mbind, svc_bind, get_machine, lift in E. by rewrite (Hco _ _ HP) in E.
Qed.

(** ** Transfers *)

(** The connection [i] is at a transfer of [buffers] for the operation of its slot. *)
Definition in_transfer (slots : list slot) (i : nat) (op : async_op) (buffers : consuming_single_buffer)
    (m : machine B) : Prop :=
  exists s co, slots !! i = Some s /\ m_connections m !! i = Some co /\ sl_op s = Some op /\
    transferring op (sl_conn s) (co_connection co) buffers 0.

Lemma start_transfer_runs slots fs acc (who : option nat -> Prop) i op buffers cont :
  ~ who (Some i) ->
  runs (fun c t => at_work slots fs acc who c t /\ in_transfer slots i op buffers (world c))
    (start_transfer i op buffers (single_prepare buffers default_max_transfer_size) cont)
    (fun _ => at_work slots fs acc (fun x => who x \/ x = Some i)).
Proof.
  intros Hi. apply runs_given. intros c0 t0 [A (s & co & Hs & Hco & Hop & Htr)].
  unfold start_transfer. apply (runs_connection _ _ co); [by intros c t [-> _]|]. cbv zeta.
  set (b := base (co_socket co)). apply runs_assoc.
  assert (socket_at (world c0) (Some i) = Some b) as Hb by (simpl; by rewrite list_lookup_fmap, Hco).
  eapply (runs_seq _ _ _ (fun b' c t => same_socket b b' /\ socket_at (world c) (Some i) = Some b /\
    at_work slots fs acc (fun x => who x \/ x = Some i) c t)).
  - intros c t out c' t' [-> ->] E. eapply begin_task in E as (b' & -> & S & Hb' & A' & _); [|exact A|done|exact Hb|].
    + by exists b'.
    + do 3 (split; [done|]). by exists s, co.
  - intros b'. apply runs_put. intros c t (S & Hb' & A'). by eapply at_work_set_socket.
Qed.

Definition accept_operation (m : machine B) : operation_object :=
  accept_object (socket_of (m_acceptor m)) (state_ (base (m_acceptor m))) (new_accept_op None).

(** [startAccept]: the acceptor has an operation again, for a new connection. *)
Definition new_connection_object : connection_object := mkConnectionObject new_connection new_implementation.

Lemma startAccept_runs slots fs acc (who : option nat -> Prop) :
  ~ who None ->
  runs (at_work slots fs acc who) ServerProcess.startAccept
    (fun _ => at_work slots fs (Some new_connection_object) (fun x => who x \/ x = None)).
Proof.
  intros Hn. unfold ServerProcess.startAccept. cbv zeta.
  eapply (runs_seq _ _ _ (fun _ => at_work slots fs (Some new_connection_object) who)).
  { apply runs_put. intros c t A. eapply at_work_put; [exact A|done|done|done|].
    by destruct (po_memory _ _ _ _ _ _ (aw_program _ _ _ _ _ _ A)). }
  intros _. apply runs_machine. intros m. cbv zeta. apply runs_assoc.
  set (b := base (m_acceptor m)).
  eapply (runs_seq _ _ _ (fun b' c t => same_socket b b' /\ socket_at (world c) None = Some b /\
    m_acceptor (world c) = m_acceptor m /\
    at_work slots fs (Some new_connection_object) (fun x => who x \/ x = None) c t)).
  - intros c t out c' t' [A <-] E.
    change ((qop ← new_op (accept_object (socket_of (m_acceptor (world c))) (state_ b) (new_accept_op None));
      SocketService.do_start_op b EpollReactor.read_op qop false true false) c t = Some (out, c', t')) in E.
    eapply begin_task in E as (b' & -> & S & Hb' & A' & Eacc); [|exact A|done|done|done].
    by exists b'.
  - intros b'. apply runs_put. intros c t (S & Hb & Eacc & A). rewrite <- Eacc.
    by eapply at_work_set_acceptor.
Qed.

Lemma buffer_of_wf op c :
  buffers_ok c -> zlen (mMessageBuffer c) < 2 ^ 64 -> buffer_wf (buffer_of op c).
Proof.
  intros (Hp & Hr & _) Hm. unfold buffer_wf, zlen in *. unfold is_object in *. destruct op; simpl.
  - rewrite Hp. by vm_compute.
  - rewrite Hr. by vm_compute.
  - lia.
  - unfold zlen. lia.
Qed.

(** The connection [i] is at the start of the operation of its slot. *)
Definition at_start (slots : list slot) (i : nat) (op : async_op) (m : machine B) : Prop :=
  exists s co, slots !! i = Some s /\ m_connections m !! i = Some co /\ sl_op s = Some op /\
    co_connection co = sl_conn s /\ buffer_wf (buffer_of op (sl_conn s)).

Lemma fill_nil op c : fill op [] c = c.
Proof. by destruct op, c. Qed.

Lemma start_composed_runs slots fs acc (who : option nat -> Prop) i op :
  ~ who (Some i) ->
  runs (fun c t => at_work slots fs acc who c t /\ at_start slots i op (world c)) (start_composed i op)
    (fun _ => at_work slots fs acc (fun x => who x \/ x = Some i)).
Proof.
  intros Hi. apply runs_given. intros c0 t0 [A (s & co & Hs & Hco & Hop & Ec & Hw)].
  unfold start_composed. apply (runs_connection _ _ co); [by intros c t [-> _]|]. cbv zeta.
  set (buffers := new_single (buffer_of op (co_connection co))).
  assert ((match op with
    | WritingResponse _ => start_write_op transfer_all buffers
    | _ => start_read_op transfer_all buffers end) =
    (buffers, Initiate (single_prepare buffers default_max_transfer_size))) as -> by by destruct op.
  eapply runs_pre; [|by apply (start_transfer_runs slots fs acc who)].
  intros c t [-> ->]. split; [done|]. exists s, co. split; [done|]. split; [done|]. split; [done|].
  assert (cb_ok buffers) as Hok by (subst buffers; rewrite Ec; split; [done|simpl; unfold buffer_wf in Hw; lia]).
  split; [done|by subst buffers; rewrite Ec|pose proof (zlen_nonneg (cb_rest buffers)); lia|].
  exists []. rewrite fill_nil. split; [done|]. by destruct op.
Qed.

(** ** Destroying sockets *)

Lemma destroy_goes slots b (c : context (machine B)) t o c' t' :
  context_ok c -> Forall answer_ok t -> held (live_of c) b -> results_of slots c ->
  destroy b c t = Some (o, c', t') ->
  o = Ret () /\ advanced [] false c c' /\ reaches c c' /\ results_of slots c' /\ Forall answer_ok t' /\
  live_of c' =
    if is_open b then match reactor_data_ b with Some p => delete p (live_of c) | None => live_of c end
    else live_of c.
Proof.
  intros Hok Ht Hb Hc E. unfold destroy in E. fold (is_open b) in E. unfold held in Hb.
  destruct (is_open b) eqn:Ho.
  2: { injection E as <- <- <-. split; [done|]. split; [apply advanced_refl|]. split; [apply reaches_same|]; done. }
  destruct Hb as [(p & Ep & Hp) _]. rewrite Ep in E. rewrite Ep.
  set (closing := negb (has (state_ b) possible_dup)) in E.
  destruct (live_of_deregister _ p closing c Hp) as (c1 & E1 & Hleave & El).
  destruct (deregister_descriptor_spec (socket_ b) (Some p) closing c) as (d2 & c2 & E2 & A1 & _).
  { by eapply live_in_list. } { apply Hok. }
  rewrite E1 in E2. injection E2 as _ <-.
  destruct (live_of_cleanup p c1 Hleave) as (c3 & E3 & El3).
  destruct (cleanup_descriptor_data_spec (Some p) c1) as (c4 & E4 & A2).
  { intros q [= <-]. destruct Hleave as (Hin & d & Hd & Hq & _). split; [done|]. intros d' Hd'. congruence. }
  rewrite E3 in E4. injection E4 as <-.
  unfold mbind, svc_bind, call_reactor, call_reactor_, call_os in E.
  change (deregister (socket_ b) (Some p) closing c) with (deregister_descriptor (socket_ b) (Some p) closing c) in E.
  rewrite E1 in E. destruct (SocketOps.close _ _ _ _ t) as [[x t1]|] eqn:Ex; [|done].
  unfold call_reactor in E. change (cleanup (Some p) c1) with (cleanup_descriptor_data (Some p) c1) in E.
  rewrite E3 in E. injection E as <- <- <-. split; [done|].
  split; [by eapply (advanced_quiet [] false _ c1)|].
  split; [etrans; [by eapply deregister_reaches|by eapply cleanup_reaches]|].
  split; [|split; [eapply any_answers; [apply any_close|exact Ex|done]|by rewrite El3]].
  eapply results_cleanup; [exact E3|].
  by eapply (results_deregister False (transfer_waits slots) (transfer_finished slots) nothing_waits).
Qed.

Lemma destroy_connection_runs slots fs acc who i :
  runs (fun c t => at_work slots fs acc who c t /\ is_Some (m_connections (world c) !! i))
    (destroy_connection i) (fun _ => at_work slots fs acc who).
Proof.
  apply runs_given. intros c0 t0 [A [co Hco]]. unfold destroy_connection.
  apply (runs_connection _ _ co); [by intros c t [-> _]|].
  destruct A as [Hr Hs P]. pose proof (po_memory _ _ _ _ _ _ P) as M.
  assert (socket_at (world c0) (Some i) = Some (base (co_socket co))) as Hb
    by (simpl; by rewrite list_lookup_fmap, Hco).
  pose proof (so_held _ _ (mo_sockets _ _ _ _ _ _ M) _ _ Hb) as Hheld.
  intros c t o c' t' [-> ->] E. unfold mbind, svc_bind in E.
  destruct (destroy _ _ _) as [[[o1 c1] t1]|] eqn:Ed; [|done].
  apply (destroy_goes slots) in Ed as (-> & A & W & R & T & El); [|by apply inv_ok|apply P|done|apply P].
  unfold put_machine in E. injection E as <- <- <-. exists (). split; [done|].
  pose proof (reaches_same_program _ _ W) as S.
  eapply at_work_then; [by split|done..| |].
  - intros j _. split; [done|]. apply connection_kept, set_socket_connections.
  - eapply (memory_sockets _ _ _ _ (live_of c0) _ (world c1)); try done.
    + eapply memory_same; [exact S|done|done].
    + simpl. by rewrite length_alter.
    + assert (socket_at (world c1) (Some i) = Some (base (co_socket co))) as Hb1
        by by rewrite (socket_at_same _ _ _ S).
      assert (is_Some (m_connections (world c1) !! i)) as Hi.
      { simpl in Hb1. rewrite list_lookup_fmap in Hb1. by destruct (m_connections (world c1) !! i). }
      eapply sockets_ext; [intros x; by apply socket_at_set_socket|]. rewrite El.
      eapply sockets_close; [exact Hb1|]. eapply sockets_ext; [intros x; by apply socket_at_same|apply M].
Qed.

(** * Handlers of connections *)

Lemma resume_fill op ec d c fs : resume op ec [] (fill op d c) fs = resume op ec d c fs.
Proof. unfold resume. by rewrite fill_nil. Qed.

(** The response and the content of a request fit in memory. *)
Lemma resume_fits op ec d c fs st' :
  completes op ec d c -> resume op ec d c fs = Ret st' -> zlen (mMessageBuffer c) < 2 ^ 64 ->
  zlen (mMessageBuffer (st_conn st')) < 2 ^ 64.
Proof.
  intros [Hd _] E Hm. unfold resume in E.
  assert (forall b n c', zlen (mMessageBuffer (sendResponse b n c').1) < 2 ^ 64) as Hr
    by (intros [] n c'; by vm_compute).
  destruct op as [| | |[]]; simpl in E.
  - unfold onPreRequestHeader in E. destruct (ec_is_error ec); [by injection E as <-|].
    destruct (checkPreRequestHeader _); injection E as <-; by vm_compute.
  - unfold onRequestHeader in E. destruct (ec_is_error ec); [by injection E as <-|].
    apply bind_Ret in E as (ok & _ & E). destruct ok; injection E as <-; [|by vm_compute]. simpl.
    destruct (received_request_header_ok (set_request_buffer c (std_copy d (mRequestHeaderBuffer c))))
      as (_ & _ & Hs & _).
    simpl in Hs. unfold zlen. rewrite length_resize. lia.
  - unfold onRequestContent in E. destruct (ec_is_error ec).
    + injection E as <-. simpl in *. unfold zlen in *. by rewrite length_std_copy by lia.
    + apply bind_Ret in E as (hs & _ & E). destruct (forallb _ hs); injection E as <-; by vm_compute.
  - by injection E as <-.
  - destruct (saveHorcruxes c fs) as [[b|e|] fs1]; [by injection E as <-..|done].
  - by injection E as <-.
Qed.

(** The connections whose slot has an operation, and the acceptor. *)
Definition in_flight (slots : list slot) (x : option nat) : Prop :=
  match x with
  | None => True
  | Some i => exists s, slots !! i = Some s /\ is_Some (sl_op s)
  end.

(** The operation of the slot [i] is over: its handler is called. *)
Record handling (fs0 : filesystem) (sv : server) (i : nat) (op : async_op) (ec : error_code) (s : slot)
    (d : bytes) : Prop := {
  hd_reached : rtc server_step (TcpServer fs0) sv;
  hd_goes : sv_thrown sv = None;
  hd_slot : sv_slots sv !! i = Some s;
  hd_op : sl_op s = Some op;
  hd_completes : completes op ec d (sl_conn s);
  hd_fits : zlen (mMessageBuffer (sl_conn s)) < 2 ^ 64
}.

(** Its connection is a step further, and the handler threw [th]. *)
Definition slot_left (th : option exn) (sv : server) (i : nat) (acc : option connection_object)
    (c : context (machine B)) (t : sys_trace) : Prop :=
  exists st', server_step sv (update i st' sv) /\ st_thrown st' = th /\
    zlen (mMessageBuffer (st_conn st')) < 2 ^ 64 /\
    at_work (sv_slots (update i st' sv)) (sv_fs (update i st' sv)) acc
      (in_flight (sv_slots (update i st' sv))) c t.

Abbreviation slot_done := (slot_left None).

Lemma in_flight_update sv i st x :
  is_Some (sv_slots sv !! i) ->
  in_flight (sv_slots (update i st sv)) x <->
  (in_flight (sv_slots sv) x /\ x <> Some i) \/ (x = Some i /\ is_Some (st_op st)).
Proof.
  intros [s Hs]. apply lookup_lt_Some in Hs as Hlt. destruct x as [j|]; simpl; [|naive_solver].
  destruct (decide (j = i)) as [->|Hne].
  - rewrite list_lookup_insert_eq by done. naive_solver.
  - rewrite list_lookup_insert_ne by done. naive_solver.
Qed.

Lemma memory_who slots fs acc (who who' : option nat -> Prop) live m :
  (forall x, who x <-> who' x) -> memory_ok slots fs acc who live m -> memory_ok slots fs acc who' live m.
Proof. intros E [M1 M2 M3 M4 M5 M6 M7 M8]. split; try done. intros x. by rewrite M2. Qed.

Lemma at_work_who slots fs acc (who who' : option nat -> Prop) c t :
  (forall x, who x <-> who' x) -> at_work slots fs acc who c t -> at_work slots fs acc who' c t.
Proof. intros E [Hr Hs [M R N P T]]. split; [done..|]. split; [by eapply memory_who|done..]. Qed.

(** The handler's assignments. *)
Lemma at_work_resumed fs0 sv i op ec s d st acc (who : option nat -> Prop) c t :
  handling fs0 sv i op ec s d -> ~ who (Some i) ->
  at_work (sv_slots sv) (sv_fs sv) acc who c t ->
  at_work (sv_slots (update i st sv)) (sv_fs (update i st sv)) acc who
    (set_world (set_connection i (st_conn st) (set_files (world c) (st_fs st))) c) t.
Proof.
  intros [_ _ Hs _ _] Hi A. apply (at_work_put (sv_slots sv) _ (sv_fs sv) _ acc acc who c t); try done.
  - intros j Hj. assert (j <> i) as Hne by congruence. simpl.
    rewrite list_lookup_insert_ne by done. by rewrite list_lookup_alter_ne.
  - destruct (po_memory _ _ _ _ _ _ (aw_program _ _ _ _ _ _ A)) as [M1 M2 M3 M4 M5 M6 M7 M8].
    split; try done.
    + eapply sockets_ext; [|exact M3]. intros [j|]; [|done]. unfold socket_at.
      by rewrite (set_connection_sockets i (st_conn st) (set_files (world c) (st_fs st))).
    + simpl. by rewrite length_alter, length_insert.
Qed.

Lemma run_handler_runs fs0 sv i op ec s d acc (who : option nat -> Prop) :
  handling fs0 sv i op ec s d ->
  (forall x, who x <-> in_flight (sv_slots sv) x /\ x <> Some i) ->
  ends (fun c t => at_work (sv_slots sv) (sv_fs sv) acc who c t /\
      exists co, m_connections (world c) !! i = Some co /\ co_connection co = fill op d (sl_conn s))
    (run_handler i op ec) (ending (slot_done sv i acc) (fun e => slot_left (Some e) sv i acc)).
Proof.
  intros Hh Hwho. apply runs_given. intros c0 t0 [A (co & Hco & Ec)].
  assert (~ who (Some i)) as Hi by (intros [_ ?]%Hwho; done).
  pose proof (server_steps_inv fs0 _ _ (hd_reached _ _ _ _ _ _ _ Hh) (server_inv_start fs0)) as Hinv.
  pose proof Hh as [Hr Hgo Hs Hop Hcomp Hfits].
  destruct (si_slots _ _ Hinv i s Hs) as [Hc _]. unfold state_of in Hc. rewrite Hop in Hc.
  destruct (resume_inv op ec d (sl_conn s) (sv_fs sv) Hc Hcomp) as (st & Est & Hst & _).
  pose proof (resume_fits _ _ _ _ _ _ Hcomp Est Hfits) as Hfit'.
  assert (server_step sv (update i st sv)) as Hstep.
  { apply (step_connection sv i s st Hgo Hs). unfold state_of. rewrite Hop. by eapply step_resume. }
  pose proof (mo_files _ _ _ _ _ _ (po_memory _ _ _ _ _ _ (aw_program _ _ _ _ _ _ A))) as Hfiles.
  assert (is_Some (sv_slots sv !! i)) as Hslot by by eexists.
  unfold run_handler. apply (runs_connection _ _ co); [by intros c t [-> _]|].
  apply (runs_world _ (world c0)); [by intros c t [-> _]|].
  apply (runs_outcome _ _ st); [by rewrite Ec, resume_fill, Hfiles|].
  set (sv' := update i st sv) in *.
  eapply (runs_seq _ _ _ (fun _ c t => at_work (sv_slots sv') (sv_fs sv') acc who c t /\
    m_connections (world c) !! i = Some (mkConnectionObject (st_conn st) (co_socket co)))).
  { apply runs_put. intros c t [-> ->]. split; [by eapply at_work_resumed|].
    simpl. by rewrite list_lookup_alter_eq, Hco. }
  assert (forall c t, at_work (sv_slots sv') (sv_fs sv') acc (in_flight (sv_slots sv')) c t ->
    slot_left (st_thrown st) sv i acc c t) as Hdone by (intros c t A'; by exists st).
  intros _. destruct (st_op st) as [op'|] eqn:Eop.
  - assert (st_thrown st = None) as Hth.
    { destruct (st_thrown st) as [e|] eqn:He; [|done].
      apply (resume_thrown _ _ _ _ _ _ _ Hc Est) in He as (_ & Hn & _). congruence. }
    rewrite Hth in Hdone.
    eapply runs_ending; [eapply runs_pre; [|by apply (start_composed_runs (sv_slots sv') (sv_fs sv') acc who)]|].
    + intros c t [A' Hco']. split; [exact A'|]. exists (slot_of st), (mkConnectionObject (st_conn st) (co_socket co)).
      split; [simpl; apply list_lookup_insert_eq; by eapply lookup_lt_Some|].
      split; [done|]. split; [done|]. split; [done|]. by apply buffer_of_wf; [apply Hst|].
    + intros c t A'. apply Hdone. eapply at_work_who; [|exact A']. intros x.
      unfold sv'. rewrite (in_flight_update sv i st x Hslot), Eop, Hwho. naive_solver.
  - eapply (runs_seq _ _ _ (fun _ => slot_left (st_thrown st) sv i acc)).
    + eapply runs_post; [eapply runs_pre; [|by apply (destroy_connection_runs (sv_slots sv') (sv_fs sv') acc who)]|].
      * intros c t [A' Hco']. split; [exact A'|]. by eexists.
      * intros [] c t A'. apply Hdone. eapply at_work_who; [|exact A']. intros x.
        unfold sv'. rewrite (in_flight_update sv i st x Hslot), Eop, Hwho. split; [by left|].
        intros [?|[_ [? ?]]]; done.
    + intros []. destruct (st_thrown st) as [e|]; [by apply ends_throw|].
      by intros c t o c' t' Hd [= <- <- <-].
Qed.

(** The transfer of [n] bytes ended with [ec]. *)
Definition transferred (sv : server) (i : nat) (op : async_op) (buffers : consuming_single_buffer)
    (ec : error_code) (n : Z) (m : machine B) : Prop :=
  exists s co, sv_slots sv !! i = Some s /\ m_connections m !! i = Some co /\ sl_op s = Some op /\
    transferring op (sl_conn s) (co_connection co) buffers n /\
    (ec_is_error ec = false -> cb_rest buffers <> [] -> 0 < n).

Definition slots_fit (slots : list slot) : Prop :=
  Forall (fun s => zlen (mMessageBuffer (sl_conn s)) < 2 ^ 64) slots.

(** What is consumed is a part of what was left. *)
Lemma transferring_consume op sc c buffers n :
  transferring op sc c buffers n -> transferring op sc c (consume buffers n) 0.
Proof.
  intros [Hok Hb Hn (d & -> & Hd)]. destruct (cb_consume buffers n Hok Hn) as (Hok' & Hr & Ht).
  split; [done|done|rewrite Hr; pose proof (zlen_nonneg (drop (Z.to_nat n) (cb_rest buffers))); lia|].
  exists d. split; [done|]. destruct (is_write op); [done|]. rewrite Z.add_0_r, Hd. by symmetry.
Qed.

(** When a transfer is the last of its operation, the operation is complete. *)
Lemma transferring_completes op sc c buffers ec n :
  transferring op sc c (consume buffers n) 0 ->
  (ec_is_error ec = false -> cb_rest (consume buffers n) = []) ->
  exists d, c = fill op d sc /\ completes op ec d sc.
Proof.
  intros [Hok Hb _ (d & -> & Hd)] Hend. exists d. split; [done|].
  destruct (is_write op) eqn:Ew; [subst d; by destruct op|].
  destruct (size_buffer_of op sc Ew) as [Hsize _]. pose proof (zlen_rest _ Hok) as Hrest. rewrite Hb, Hsize in Hrest.
  pose proof (zlen_nonneg (cb_rest (consume buffers n))). unfold zlen in Hd. split; [lia|].
  intros He. rewrite (Hend He), zlen_nil in Hrest. lia.
Qed.

Lemma transfer_done_runs fs0 sv i op buffers ec n acc (who : option nat -> Prop) :
  rtc server_step (TcpServer fs0) sv -> sv_thrown sv = None -> slots_fit (sv_slots sv) ->
  (forall x, who x <-> in_flight (sv_slots sv) x /\ x <> Some i) ->
  ends (fun c t => at_work (sv_slots sv) (sv_fs sv) acc who c t /\ transferred sv i op buffers ec n (world c))
    (transfer_done i op buffers ec n)
    (ending (fun c t => slot_done sv i acc c t \/
       at_work (sv_slots sv) (sv_fs sv) acc (in_flight (sv_slots sv)) c t)
       (fun e => slot_left (Some e) sv i acc)).
Proof.
  intros Hr Hgo Hfits Hwho. apply runs_given. intros c0 t0 [A (s & co & Hs & Hco & Hop & Htr & Hpos)].
  pose proof (transferring_consume _ _ _ _ _ Htr) as Htr'.
  set (buffers' := consume buffers n) in *.
  assert ((match op with
     | WritingResponse _ => ReadWrite.write_op transfer_all false buffers ec n 0
     | _ => ReadWrite.read_op transfer_all false buffers ec n 0 end) =
    composed_op transfer_all false buffers ec n 0) as Eop by by destruct op.
  unfold transfer_done. rewrite Eop. clear Eop.
  destruct (composed_op transfer_all false buffers ec n 0) as [b step] eqn:Ec.
  unfold composed_op in Ec. change (0 =? 1) with false in Ec. cbv iota zeta in Ec.
  pose proof (tf_ok _ _ _ _ _ Htr) as Hok. pose proof (cb_empty _ (tf_ok _ _ _ _ _ Htr')) as Hempty.
  fold buffers' in Ec. unfold check_for_completion, adapt_size, transfer_all in Ec.
  assert (forall x, step = Invoke ec x -> b = buffers' ->
    (ec_is_error ec = false -> cb_rest buffers' = []) ->
    ends (fun c t => c = c0 /\ t = t0) (run_handler i op ec)
    (ending (fun c t => slot_done sv i acc c t \/
       at_work (sv_slots sv) (sv_fs sv) acc (in_flight (sv_slots sv)) c t)
       (fun e => slot_left (Some e) sv i acc))) as Hend.
  { intros x _ _ Hrest. destruct (transferring_completes _ _ _ _ ec _ Htr' Hrest) as (d & Ed & Hd).
    eapply ends_post; [eapply runs_pre; [|apply (run_handler_runs fs0 sv i op ec s d acc who)]|]; [| |done|].
    - intros c t [-> ->]. split; [exact A|]. by exists co.
    - split; try done. unfold slots_fit in Hfits. rewrite Forall_forall in Hfits. apply Hfits.
      by eapply list_elem_of_lookup_2.
    - intros [[]|e|] c t Hc; [by left|done..]. }
  destruct (negb (ec_is_error ec) && (n =? 0) || empty buffers') eqn:Eend.
  { injection Ec as <- <-. eapply Hend; [done..|]. intros He.
    apply orb_true_iff in Eend as [[_ Hn%Z.eqb_eq]%andb_true_iff|?]; [|by apply Hempty].
    subst n. destruct (cb_consume buffers 0 Hok) as (_ & Er & _); [by apply Htr|].
    unfold buffers'. rewrite Er. destruct (decide (cb_rest buffers = [])) as [->|Hne]; [done|].
    specialize (Hpos He Hne). lia. }
  destruct (ec_is_error ec) eqn:He; [injection Ec as <- <-; by eapply Hend|].
  injection Ec as <- <-.
  change (prepare buffers' default_max_transfer_size) with (single_prepare buffers' default_max_transfer_size).
  eapply runs_ending; [eapply runs_pre; [|apply (start_transfer_runs (sv_slots sv) (sv_fs sv) acc who)]|].
  - intros c t [-> ->]. split; [exact A|]. by exists s, co.
  - by intros [_ ?]%Hwho.
  - intros c t A'. right. eapply at_work_who; [|exact A']. intros x. cbv beta. rewrite Hwho.
    destruct (decide (x = Some i)) as [->|]; [|naive_solver]. split; [intros _; exists s; by rewrite Hop|by right].
Qed.

(** * Accepting *)

(** A new socket takes a descriptor, if the reactor takes it. *)
Lemma assign_goes slots p fd ec (c : context (machine B)) t out c' t' :
  ip.type p = SOCK_STREAM -> fd <> invalid_socket -> context_ok c -> results_of slots c ->
  assign new_implementation p fd ec c t = Some (out, c', t') ->
  exists peer ec', out = Ret (peer, ec') /\ t' = t /\ goes_on slots [] c c' /\
  unclaimed (live_of c) (live_of c') (base peer) /\
  (ec_is_error ec' = true -> is_open (base peer) = false).
Proof.
  intros Hp Hfd Hok Hc E. unfold assign, do_assign in E. rewrite Hp in E. simpl is_open in E. cbv iota in E.
  destruct (register_descriptor_spec fd c (proj1 Hok)) as (e & q & c1 & Er & A).
  destruct (live_of_register fd c c1 e q (proj1 Hok) Er) as [Hq El].
  assert (goes_on slots [] c c1) as G.
  { split; [done|by eapply register_reaches| |rewrite El; by apply insert_subseteq].
    by eapply (results_register False (transfer_waits slots) (transfer_finished slots) nothing_waits). }
  unfold mbind, svc_bind, call_reactor in E. unfold mbind, svc_bind in E.
  change (is_open construct) with false in E. cbv beta iota in E.
  change (register fd c) with (register_descriptor fd c) in E. rewrite Er in E. cbv iota in E.
  destruct (Z.eqb_spec e 0) as [He|He]; injection E as <- <- <-; eexists _, _.
  - split; [done|]. split; [done|]. split; [done|]. split; [|done].
    split; [apply G|]. split.
    + unfold held. simpl. unfold is_open. simpl. rewrite (proj2 (Z.eqb_neq _ _) Hfd). split; [|by vm_compute].
      exists q. split; [done|]. by rewrite El, lookup_insert_eq.
    + by intros _ q' [= <-].
  - split; [done|]. split; [done|]. split; [done|]. split; [|done].
    split; [apply G|]. split; [done|]. done.
Qed.

Lemma accept_do_complete_goes slots p o (c : context (machine B)) t out c' t' :
  ip.type p = SOCK_STREAM -> addrlen_ o = None -> context_ok c -> Forall answer_ok t -> results_of slots c ->
  accept_do_complete new_implementation p o c t = Some (out, c', t') ->
  exists peer ec, out = Ret (peer, ec) /\ goes_on slots [] c c' /\ Forall answer_ok t' /\
  unclaimed (live_of c) (live_of c') (base peer) /\
  (ec_is_error ec = true -> is_open (base peer) = false).
Proof.
  intros Hp Ho Hok Ht Hc E. unfold accept_do_complete in E. unfold mbind at 1, svc_bind at 1 in E.
  destruct (do_assign_peer _ _ _ c t) as [[[o1 c1] t1]|] eqn:Ea; [|done].
  assert (exists peer o2, o1 = Ret (peer, o2) /\ t1 = t /\ goes_on slots [] c c1 /\
    unclaimed (live_of c) (live_of c1) (base peer) /\
    (ec_is_error (ao_ec o2) = true -> is_open (base peer) = false)) as (peer & o2 & -> & -> & G & U & Hec).
  { unfold do_assign_peer in Ea. destruct (Z.eqb_spec (new_socket_ o) invalid_socket) as [Hi|Hi]; cbn [negb] in Ea; cbv iota in Ea.
    - injection Ea as <- <- <-. exists new_implementation, o. split; [done|]. split; [done|].
      split; [split; [apply advanced_refl|by apply reaches_same|done|done]|].
      split; [|done]. split; [done|]. split; [done|]. done.
    - rewrite Ho in Ea. cbv [resize_peer mret svc_ret sys_ret mbind svc_bind] in Ea. destruct (assign _ _ _ _ c t) as [[[o3 c3] t3]|] eqn:E3; [|done].
      eapply assign_goes in E3 as (peer & ec & -> & -> & G & U & Hec); try done.
      injection Ea as <- <- <-. by exists peer, (mkAcceptOp ec (if negb (ec_is_error ec) then invalid_socket else new_socket_ o) None). }
  unfold mbind, svc_bind, call_os in E. destruct (destroy_holder _ t) as [[x t2]|] eqn:Ed; [|done].
  injection E as <- <- <-. exists peer, (ao_ec o2). split; [done|]. split; [done|].
  split; [by eapply any_answers; [apply any_destroy_holder|exact Ed|]|done].
Qed.

(** The connection that is accepted, once it has its socket. *)
Record has_peer (slots : list slot) (fs : filesystem) (who : option nat -> Prop)
    (acc : option connection_object) (peer : implementation) (c : context (machine B)) (t : sys_trace) :
    Prop := {
  hp_work : at_work slots fs acc who c t;
  hp_new : exists live, unclaimed live (live_of c) (base peer) /\ sockets_ok live (socket_at (world c))
}.

Lemma length_slots slots fs acc who c t :
  at_work slots fs acc who c t -> length (m_connections (world c)) = length slots.
Proof. intros A. apply (mo_length _ _ _ _ _ _ (po_memory _ _ _ _ _ _ (aw_program _ _ _ _ _ _ A))). Qed.

Lemma socket_at_new co (m : machine B) x :
  socket_at (set_connections m (m_connections m ++ [co])) x =
  but (Some (length (m_connections m))) (base (co_socket co)) (socket_at m) x.
Proof.
  unfold but. destruct x as [j|]; [|done]. simpl. rewrite !list_lookup_fmap.
  destruct (decide (j = length (m_connections m))) as [->|Hne].
  - rewrite decide_True by done. rewrite lookup_app_r by lia. by rewrite Nat.sub_diag.
  - rewrite decide_False by congruence. destruct (decide (j < length (m_connections m))%nat) as [Hlt|Hge].
    + by rewrite lookup_app_l.
    + rewrite !lookup_ge_None_2; [done|lia|rewrite length_app; simpl; lia].
Qed.

Definition first_slot : slot := mkSlot new_connection (Some ReadPreRequestHeader).

(** The new connection is the server's. *)
Lemma at_work_new slots fs acc (who : option nat -> Prop) peer c t :
  has_peer slots fs who acc peer c t -> (forall x, who x -> in_flight slots x) ->
  at_work (slots ++ [first_slot]) fs acc who
    (set_world (set_connections (world c)
       (m_connections (world c) ++ [mkConnectionObject new_connection peer])) c) t.
Proof.
  intros [A (live & U & Hs)] Hwho. pose proof (length_slots _ _ _ _ _ _ A) as El.
  eapply at_work_put; [exact A|done|done| |].
  - intros i (s & Hi & _)%Hwho. apply lookup_lt_Some in Hi. simpl. by rewrite !lookup_app_l by lia.
  - destruct (po_memory _ _ _ _ _ _ (aw_program _ _ _ _ _ _ A)) as [M1 M2 M3 M4 M5 M6 M7 M8].
    split; try done.
    + eapply sockets_ext; [intros x; apply socket_at_new|]. eapply sockets_new; [|exact U|exact Hs].
      simpl. by rewrite lookup_ge_None_2 by (rewrite length_fmap; lia).
    + simpl. rewrite !length_app. simpl. lia.
Qed.

Lemma handle_accept_runs slots fs (who : option nat -> Prop) peer ec :
  (forall x, who x <-> in_flight slots x /\ x <> None) ->
  (ec_is_error ec = true -> is_open (base peer) = false) ->
  runs (has_peer slots fs who (Some (mkConnectionObject new_connection peer)) peer)
    (ServerProcess.handle_accept ec)
    (fun _ => let slots := if ec_is_error ec then slots else slots ++ [first_slot] in
       at_work slots fs (Some new_connection_object) (in_flight slots)).
Proof.
  intros Hwho Hclosed. unfold ServerProcess.handle_accept. apply runs_given. intros c0 t0 Hp.
  pose proof (hp_work _ _ _ _ _ _ _ Hp) as A. pose proof (length_slots _ _ _ _ _ _ A) as El.
  apply (runs_world _ (world c0)); [by intros c t [-> _]|].
  apply (runs_outcome _ _ (mkConnectionObject new_connection peer)).
  { by rewrite (mo_accepting _ _ _ _ _ _ (po_memory _ _ _ _ _ _ (aw_program _ _ _ _ _ _ A))). }
  cbv zeta. destruct (ec_is_error ec) eqn:He; cbn [negb].
  - eapply (runs_seq _ _ _ (fun _ => at_work slots fs (Some (mkConnectionObject new_connection peer)) who)).
    { apply runs_return. by intros c t [-> ->]. }
    intros _. eapply runs_seq; [apply (startAccept_runs slots fs _ who); by intros [_ ?]%Hwho|].
    intros []. cbn [co_socket]. assert (destroy (R := context (machine B)) (base peer) = mret ()) as ->.
    { unfold destroy. fold (is_open (base peer)). by rewrite (Hclosed eq_refl). }
    apply runs_return. intros c t A'. eapply at_work_who; [|exact A']. intros x. cbv beta. rewrite Hwho.
    destruct x; naive_solver.
  - set (slots' := slots ++ [first_slot]). set (n := length (m_connections (world c0))).
    assert (forall i s, slots !! i = Some s -> slots' !! i = Some s) as Hold
      by (intros i s Hi; by apply lookup_app_l_Some).
    assert (slots' !! n = Some first_slot) as Hn.
    { unfold slots', n. rewrite El, lookup_app_r by lia. by rewrite Nat.sub_diag. }
    assert (~ who (Some n)) as Hnew.
    { intros [(s & Hi & _) _]%Hwho. apply lookup_lt_Some in Hi. unfold n in Hi. lia. }
    eapply (runs_seq _ _ _ (fun _ => at_work slots' fs (Some (mkConnectionObject new_connection peer))
      (fun x => who x \/ x = Some n))).
    + eapply (runs_seq _ _ _ (fun _ c t =>
        at_work slots' fs (Some (mkConnectionObject new_connection peer)) who c t /\
        at_start slots' n ReadPreRequestHeader (world c))); [|intros []; by apply start_composed_runs].
      apply runs_put. intros c t [-> ->]. split.
      * eapply at_work_new; [exact Hp|]. by intros x [? _]%Hwho.
      * exists first_slot, (mkConnectionObject new_connection peer). split; [done|].
        split; [simpl; rewrite lookup_app_r by lia; by rewrite Nat.sub_diag|].
        split; [done|]. split; [done|]. by split; vm_compute.
    + intros []. eapply runs_seq.
      { apply (startAccept_runs slots' fs _ (fun x => who x \/ x = Some n)). intros [[_ ?]%Hwho|?]; done. }
      intros []. apply runs_return. intros c t A'. eapply at_work_who; [|exact A']. intros x. cbv beta.
      rewrite Hwho. destruct x as [i|]; simpl; [|naive_solver]. split.
      * intros [[[(s & Hi & Ho) _]|[= ->]]|?]; [by exists s; auto|by exists first_slot|done].
      * intros (s & Hi & Ho). left. destruct (decide (i = n)) as [->|Hne]; [by right|left].
        split; [|done]. exists s. split; [|done]. apply lookup_app_Some in Hi as [Hi|[Hge Hi]]; [done|].
        apply list_lookup_singleton_Some in Hi as [Hi _]. unfold n in Hne. lia.
Qed.

(** * Completions *)

(** After a handler: the server is some steps further, and the memory stands for it. *)
Definition advances (sv : server) (c : context (machine B)) (t : sys_trace) : Prop :=
  exists sv', rtc server_step sv sv' /\ sv_thrown sv' = None /\ slots_fit (sv_slots sv') /\
    at_work (sv_slots sv') (sv_fs sv') (Some new_connection_object) (in_flight (sv_slots sv')) c t.

(** After a handler that threw: the server throws. *)
Definition fails_at (sv : server) (e : exn) (c : context (machine B)) (t : sys_trace) : Prop :=
  exists sv', server_step sv sv' /\ sv_thrown sv' = Some e /\
    at_work (sv_slots sv') (sv_fs sv') (Some new_connection_object) (in_flight (sv_slots sv')) c t.

Lemma accept_done_runs fs0 sv (who : option nat -> Prop) o ec :
  rtc server_step (TcpServer fs0) sv -> sv_thrown sv = None -> slots_fit (sv_slots sv) ->
  (forall x, who x <-> in_flight (sv_slots sv) x /\ x <> None) -> addrlen_ o = None ->
  runs (at_work (sv_slots sv) (sv_fs sv) (Some new_connection_object) who) (accept_done o ec)
    (fun _ => advances sv).
Proof.
  intros Hr Hgo Hfits Hwho Ho. unfold accept_done. apply runs_given. intros c0 t0 A.
  pose proof (po_memory _ _ _ _ _ _ (aw_program _ _ _ _ _ _ A)) as M.
  apply (runs_world _ (world c0)); [by intros c t [-> _]|].
  apply (runs_outcome _ _ new_connection_object); [by rewrite (mo_accepting _ _ _ _ _ _ M)|].
  cbn [co_socket co_connection new_connection_object].
  eapply (runs_seq _ _ _ (fun x c t =>
    has_peer (sv_slots sv) (sv_fs sv) who (Some new_connection_object) x.1 c t /\
    (ec_is_error x.2 = true -> is_open (base x.1) = false))).
  { intros c t out c' t' [-> ->] E.
    apply (accept_do_complete_goes (sv_slots sv)) in E as (peer & ec' & -> & G & T & U & Hc);
      [|apply M|done|apply inv_ok, A|apply A..].
    exists (peer, ec'). split; [done|]. split; [|done]. split; [by eapply at_work_goes|].
    exists (live_of c0). split; [done|]. eapply sockets_ext; [|apply M].
    intros x. apply socket_at_same. by apply reaches_same_program, G. }
  intros [peer ec']. simpl.
  eapply (runs_seq _ _ _ (fun _ c t => (ec_is_error ec' = true -> is_open (base peer) = false) /\
    has_peer (sv_slots sv) (sv_fs sv) who (Some (mkConnectionObject new_connection peer)) peer c t)).
  { apply runs_put. intros c t [[A' (live & U & Hs)] Hc]. split; [done|]. split.
    - eapply at_work_put; [exact A'|done..|].
      by destruct (po_memory _ _ _ _ _ _ (aw_program _ _ _ _ _ _ A')).
    - by exists live. }
  intros []. apply runs_given. intros c1 t1 [Hc Hp].
  eapply runs_post; [eapply runs_pre; [|by apply (handle_accept_runs (sv_slots sv) (sv_fs sv) who peer)]|].
  { by intros c t [-> ->]. }
  intros [] c t A'. exists (Server.handle_accept new_connection ec' (mkServer None (sv_slots sv) (sv_fs sv))).
  pose proof (si_accepting _ _ (server_steps_inv fs0 _ _ Hr (server_inv_start fs0))) as Hacc.
  destruct sv as [a slots fs th]. simpl in Hacc, Hgo. subst a th. split; [apply rtc_once, step_accept|].
  unfold Server.handle_accept. simpl in *.
  destruct (ec_is_error ec'); simpl; (split; [done|]); (split; [|exact A']); [done|].
  apply Forall_app. split; [done|]. by constructor; [vm_compute|constructor].
Qed.

(** The operation [cp] is over, and its handler is about to be called. *)
Record completing (sv : server) (cp : completion) (c : context (machine B)) (t : sys_trace) : Prop := {
  cm_inv : inv c;
  cm_goes : scheduler.stopped_ (sched c) = false;
  cm_memory : memory_ok (sv_slots sv) (sv_fs sv) (Some new_connection_object) (in_flight (sv_slots sv))
    (live_of c) (world c);
  cm_results : results_of (sv_slots sv) c;
  cm_distinct : NoDup (co_id cp :: pending c);
  cm_pending id : id ∈ co_id cp :: pending c <-> is_Some (tasks (world c) !! id);
  cm_trace : Forall answer_ok t;
  cm_finished : transfer_finished (sv_slots sv) (world c) cp
}.

Definition without (id : positive) (m : machine B) : machine B := set_ops m (delete id (m_ops m)).

Lemma tasks_without id (m : machine B) : tasks (without id m) = delete id (tasks m).
Proof. unfold tasks, without. simpl. apply fmap_delete. Qed.

(** Its object is freed. *)
Lemma at_work_without sv cp c t o :
  completing sv cp c t -> m_ops (world c) !! co_id cp = Some o ->
  at_work (sv_slots sv) (sv_fs sv) (Some new_connection_object)
    (fun x => in_flight (sv_slots sv) x /\ x <> owner o) (set_world (without (co_id cp) (world c)) c) t.
Proof.
  intros [Hr Hs M R N P T F] Ho.
  assert (tasks (world c) !! co_id cp = Some (owner o)) as Ht by (unfold tasks; by rewrite lookup_fmap, Ho).
  apply NoDup_cons in N as [Hid N].
  assert (advanced [] false c (set_world (without (co_id cp) (world c)) c)) as A by by apply advanced_world.
  split; [by eapply inv_advanced|done|]. split; [| |done| |done].
  - destruct M as [M1 M2 M3 M4 M5 M6 M7 M8]. simpl. split; try done.
    + intros id1 id2 x. rewrite tasks_without, !lookup_delete_Some. intros [_ H1'] [_ H2']. by eapply M1.
    + intros x. rewrite tasks_without, <- M2. split.
      * intros (id & [Hne Hx]%lookup_delete_Some). split; [by exists id|]. intros ->. apply Hne. by eapply M1.
      * intros [[id Hx] Hne]. exists id. apply lookup_delete_Some. split; [|done]. intros <-. congruence.
  - revert R. apply results_retold. intros id Hin.
    assert (co_id cp <> id) as Hne by (intros E; by rewrite E in Hid).
    apply story_retold; [done|]. intros _. split; [simpl; by rewrite lookup_delete_ne|]. split; [|done].
    intros id'. rewrite tasks_without, (lookup_delete_ne _ (co_id cp) id) by done.
    destruct (decide (co_id cp = id')) as [<-|Hne']; [|by rewrite lookup_delete_ne].
    rewrite lookup_delete_eq. intros E.
    assert (is_Some (tasks (world c) !! id)) as [x Hx] by (apply P; by right). rewrite Hx in E. done.
  - intros id. change (pending (set_world (without (co_id cp) (world c)) c)) with (pending c). simpl.
    rewrite tasks_without. specialize (P id). rewrite elem_of_cons in P.
    destruct (decide (co_id cp = id)) as [<-|Hne].
    + rewrite lookup_delete_eq. split; [done|by intros [? ?]].
    + rewrite lookup_delete_ne, <- P by done. naive_solver.
Qed.

Lemma handle_runs fs0 sv cp :
  rtc server_step (TcpServer fs0) sv -> sv_thrown sv = None -> slots_fit (sv_slots sv) ->
  ends (completing sv cp) (handle cp) (ending (advances sv) (fails_at sv)).
Proof.
  intros Hr Hgo Hfits. apply runs_given. intros c0 t0 Hc. unfold handle.
  pose proof (cm_finished _ _ _ _ Hc) as [(_ & _ & Hobj) Hpos].
  destruct (m_ops (world c0) !! co_id cp) as [o|] eqn:Ho; [|done].
  pose proof (at_work_without _ _ _ _ _ Hc Ho) as A.
  apply (runs_world _ (world c0)); [by intros c t [-> _]|]. apply (runs_outcome _ _ o); [by rewrite Ho|].
  set (c1 := set_world (without (co_id cp) (world c0)) c0) in *.
  eapply (runs_seq _ _ _ (fun _ c t => c = c1 /\ t = t0)).
  { apply runs_put. by intros c t [-> ->]. }
  intros []. destruct o as [socket state o|i op socket state buffers bufs]; simpl in A.
  - eapply runs_ending; [eapply runs_pre; [|by apply (accept_done_runs fs0 sv
      (fun x => in_flight (sv_slots sv) x /\ x <> None) o)]|done]. by intros c t [-> ->].
  - destruct Hobj as (s & co & Hs & Hco & Hop & Htr).
    eapply ends_post; [eapply runs_pre; [|by apply (transfer_done_runs fs0 sv i op buffers (co_ec cp)
      (co_bytes cp) (Some new_connection_object) (fun x => in_flight (sv_slots sv) x /\ x <> Some i))]|].
    + intros c t [-> ->]. split; [exact A|]. by exists s, co.
    + intros [[]|e|] c t; simpl; [|by intros (st & Hstep & Hth & _ & A'); exists (update i st sv)|done].
      intros [(st & Hstep & Hth & Hfit & A')|A'].
      * exists (update i st sv). split; [by apply rtc_once|]. split; [done|]. split; [|done]. simpl.
        by apply Forall_insert.
      * by exists sv.
Qed.
End Program.

(** * Rounds *)

(** The process between two rounds of the loop stands for the server [sv]. *)
Record process_ok (fs0 : filesystem) (sv : server) (c : context (machine B)) (t : sys_trace) : Prop := {
  pr_reached : rtc server_step (TcpServer fs0) sv;
  pr_thrown : sv_thrown sv = None;
  pr_fits : slots_fit (sv_slots sv);
  pr_loop : loop_inv c;
  pr_goes : scheduler.stopped_ (sched c) = false;
  pr_program : program_ok (sv_slots sv) (sv_fs sv) (Some new_connection_object)
    (in_flight (sv_slots sv)) c t
}.

(** The acceptor always waits. *)
Lemma accept_pending slots fs acc c t :
  program_ok slots fs acc (in_flight slots) c t -> pending c <> [].
Proof.
  intros P Hnil. destruct (proj2 (mo_who _ _ _ _ _ _ (po_memory _ _ _ _ _ _ P) None) I) as [id Hid].
  assert (id ∈ pending c) as Hin by (apply P; by eexists). rewrite Hnil in Hin. by apply elem_of_nil in Hin.
Qed.

(** What the loop does without completing anything leaves the program as it is. *)
Lemma program_same slots fs acc who (c c' : context (machine B)) t :
  program_ok slots fs acc who c t -> reaches c c' -> live_of c' = live_of c -> results_of slots c' ->
  pending c' ≡ₚ pending c -> program_ok slots fs acc who c' t.
Proof.
  intros [M R N P T] W El R' Ep. pose proof (reaches_same_program _ _ W) as S.
  split; [by eapply memory_same; [exact S|by rewrite El|]|done|by rewrite Ep| |done].
  intros id. by rewrite Ep, (sp_tasks _ _ S).
Qed.

Lemma task_goes fs0 sv usec flag rest c t out c' t' :
  process_ok fs0 sv c t -> scheduler.op_queue_ (sched c) = task_operation :: rest ->
  call_reactor_ (fun c => run_task usec
    (set_sched (scheduler.set_interrupted flag (scheduler.set_queue rest (sched c))) c)) c t =
    Some (out, c', t') ->
  out = Ret () /\ process_ok fs0 sv c' t'.
Proof.
  intros [Hr Hth Hf Hl Hs P] Eq E. pose proof (po_results _ _ _ _ _ _ P) as R.
  destruct (task_round usec flag rest c Hl Hs Eq) as (c1 & E1 & Hl1 & Ep & Hs1).
  unfold call_reactor_, call_reactor in E. rewrite E1 in E. injection E as <- <- <-.
  split; [done|]. split; try done. eapply program_same; [exact P| | | |done].
  - by apply run_task_reaches in E1.
  - apply run_task_steady, steady_live in E1. by rewrite E1.
  - eapply (results_run_task False (transfer_waits (sv_slots sv)) (transfer_finished (sv_slots sv)) nothing_waits);
      [|exact E1|]; [apply Hl|].
    pose proof (rs_queue R) as Hq. rewrite Eq in Hq. apply Forall_cons in Hq as [_ Hq].
    by apply results_sched; [done|done|apply R].
Qed.

(** The front of the queue is taken: its operation, if it is one, is not pending any more. *)
Lemma popped_pending o rest s (c : context (machine B)) :
  scheduler.op_queue_ (sched c) = o :: rest -> popped_sched o rest (sched c) s ->
  pending c ≡ₚ option_list (user_id o) ++ pending (set_sched s c).
Proof.
  intros Eq [Q1 Q2 Q3 Q4 Q5]. unfold pending, sched_pending. simpl. rewrite Eq, Q1.
  unfold private_queue. rewrite Q3. by destruct o.
Qed.

(** An operation of the queue is completed, up to its handler. *)
Lemma ready_goes fs0 sv o rest s c t :
  process_ok fs0 sv c t -> scheduler.op_queue_ (sched c) = o :: rest -> o <> task_operation ->
  popped_sched o rest (sched c) s ->
  exists cp c', ready o (set_sched s c) = Ret (cp, c') /\
  match cp with
  | Some cp => completing running_inv sv cp c' t
  | None => at_work running_inv (sv_slots sv) (sv_fs sv) (Some new_connection_object) (in_flight (sv_slots sv)) c' t
  end.
Proof.
  intros [Hr Hth Hf Hl Hs P] Eq Ho Hpop. pose proof P as [M R N Pp T].
  destruct (ready_spec o rest s c Hl Hs Eq Ho Hpop) as (cp & c' & E & Hrun & Ep & Hs').
  exists cp, c'. split; [done|].
  destruct (results_pop _ _ _ _ _ _ _ Eq Hpop R) as [Hfin R0].
  assert (NoDup (pending (set_sched s c))) as N0.
  { pose proof N as N1. rewrite (popped_pending _ _ _ _ Eq Hpop) in N1. by apply NoDup_app in N1 as (_ & _ & ?). }
  destruct (results_ready False (transfer_waits (sv_slots sv)) (transfer_finished (sv_slots sv)) nothing_waits
    _ _ _ _ E Hfin (or_intror N0) R0) as [R' Hcp].
  assert (reaches c c') as W by (by apply ready_reaches in E).
  assert (live_of c' = live_of c) as El by (by apply ready_steady, steady_live in E; rewrite E).
  pose proof (reaches_same_program _ _ W) as S.
  assert (memory_ok (sv_slots sv) (sv_fs sv) (Some new_connection_object) (in_flight (sv_slots sv))
    (live_of c') (world c')) as M' by (eapply memory_same; [exact S|by rewrite El|done]).
  destruct cp as [cp|]; simpl in Ep.
  - split; try done; [by rewrite Ep| |by apply Hcp]. intros id. by rewrite Ep, (sp_tasks _ _ S).
  - split; [done..|]. split; try done; [by rewrite Ep|]. intros id. by rewrite Ep, (sp_tasks _ _ S).
Qed.

(** The end of the round. *)
Lemma cleanup_goes fs0 sv c t out c' t' :
  rtc server_step (TcpServer fs0) sv -> sv_thrown sv = None -> slots_fit (sv_slots sv) ->
  at_work running_inv (sv_slots sv) (sv_fs sv) (Some new_connection_object) (in_flight (sv_slots sv)) c t ->
  work_cleanup c t = Some (out, c', t') -> out = Ret () /\ process_ok fs0 sv c' t'.
Proof.
  intros Hr Hth Hf [Hrun Hs P] E. destruct (work_cleanup_spec c Hrun) as (s & Es & Hl & Ep & Hstop).
  unfold work_cleanup, call_reactor_, call_reactor in E. rewrite Es in E. injection E as <- <- <-.
  split; [done|]. pose proof (accept_pending _ _ _ _ _ P) as Hne. split; try done.
  - destruct (scheduler.stopped_ (sched (set_sched s c))) eqn:Est; [|done].
    destruct (Hstop Est) as [?|Hnil]; [congruence|]. rewrite Hnil in Ep. by apply Permutation_nil_l in Ep.
  - eapply program_same; [exact P|by apply reaches_same|done| |done].
    by eapply results_work_cleanup, P.
Qed.

(** After a handler that threw, it leaves the memory as it is. *)
Lemma cleanup_keeps slots fs acc who c t out c' t' :
  at_work running_inv slots fs acc who c t -> work_cleanup c t = Some (out, c', t') ->
  out = Ret () /\ m_files (world c') = fs.
Proof.
  intros [Hrun Hs P] E. destruct (work_cleanup_spec c Hrun) as (s & Es & _).
  unfold work_cleanup, call_reactor_, call_reactor in E. rewrite Es in E. injection E as <- <- <-.
  split; [done|]. apply (mo_files _ _ _ _ _ _ (po_memory _ _ _ _ _ _ P)).
Qed.

(** The server [sv'] threw [e], which a connection of [sv] ended with as it saved. *)
Record saving_throws (sv sv' : server) (e : exn) : Prop := {
  sth_step : server_step sv sv';
  sth_thrown : sv_thrown sv' = Some e;
  sth_why : exists i s, sv_slots sv !! i = Some s /\
    sl_op s = Some (WritingResponse NextSaveHorcruxes) /\
    connection_fails (sl_conn s) (sv_fs sv) (sv_fs sv') e
}.

Lemma step_saving_throws fs0 sv sv' e :
  rtc server_step (TcpServer fs0) sv -> server_step sv sv' -> sv_thrown sv' = Some e ->
  saving_throws sv sv' e.
Proof.
  intros Hr Hs He. split; [done..|]. pose proof (server_steps_inv fs0 _ _ Hr (server_inv_start fs0)) as Hinv.
  destruct Hs as [co slots fs ec|sv1 i s st' _ Hi Hs].
  { exfalso. unfold Server.handle_accept in He. by destruct (ec_is_error ec). }
  destruct (si_slots _ _ Hinv i s Hi) as [Hc _]. destruct s as [c o]. unfold state_of in *. cbn in *.
  inversion Hs as [c0 fs1 op ec data st0 _ Hres]; subst.
  apply (resume_thrown _ _ _ _ _ _ _ Hc Hres) in He as (-> & _ & Hf). by eexists i, _.
Qed.

(** Every round goes on, as some steps of the server, or throws as the server does. *)
Definition round_ends (fs0 : filesystem) (sv : server) (o : outcome round_result)
    (c : context (machine B)) (t : sys_trace) : Prop :=
  match o with
  | Ret r => r = run_goes /\ exists sv', rtc server_step sv sv' /\ process_ok fs0 sv' c t
  | Throw e => exists sv', saving_throws sv sv' e /\ m_files (world c) = sv_fs sv'
  | Undef => False
  end.

Lemma completes_ends fs0 sv cp c t out c' t' :
  rtc server_step (TcpServer fs0) sv -> sv_thrown sv = None ->
  slots_fit (sv_slots sv) ->
  ends (fun c1 t1 => c1 = c /\ t1 = t) (match cp with Some cp => handle cp | None => mret () end)
    (ending (advances running_inv sv) (fails_at running_inv sv)) ->
  (_ ← finally (match cp with Some cp => handle cp | None => mret () end) work_cleanup; mret run_goes) c t =
    Some (out, c', t') -> round_ends fs0 sv out c' t'.
Proof.
  intros Hr Hth Hf Hrun E. unfold mbind, svc_bind, finally in E.
  destruct ((match cp with Some cp => handle cp | None => mret () end) c t) as [[[o1 c1] t1]|] eqn:E1; [|done].
  pose proof (Hrun _ _ _ _ _ (conj eq_refl eq_refl) E1) as Ho.
  destruct o1 as [[]|e|]; simpl in Ho; [| |done]; destruct (work_cleanup c1 t1) as [[[o2 c2] t2]|] eqn:E2;
    try done.
  - destruct Ho as (sv' & Hsteps & Hth' & Hf' & A).
    apply (cleanup_goes fs0 sv') in E2 as [-> Hp]; [|by etrans|done|done|done].
    injection E as <- <- <-. split; [done|]. by exists sv'.
  - destruct Ho as (sv' & Hstep & Hth' & A). eapply cleanup_keeps in E2 as [-> Hfs]; [|exact A].
    injection E as <- <- <-. exists sv'. split; [by eapply step_saving_throws|done].
Qed.

Lemma process_round_spec fs0 sv c t out c' t' :
  process_ok fs0 sv c t -> process_round c t = Some (out, c', t') -> round_ends fs0 sv out c' t'.
Proof.
  intros Hp E. unfold process_round in E. pose proof Hp as [Hr Hth Hf Hl Hs P].
  destruct (scheduler.op_queue_ (sched c)) as [|o rest] eqn:Eq.
  { destruct (qo_split _ _ (li_queue _ Hl)) as (pre & post & Eq' & _). rewrite Eq in Eq'. by destruct pre. }
  destruct (decide (o = task_operation)) as [->|Ho].
  - unfold scheduler.do_run_one in E. rewrite Hs, Eq in E. cbn [negb] in E. cbv iota zeta in E.
    unfold mbind, svc_bind in E.
    match type of E with context [match ?m with _ => _ end] =>
      destruct m as [[[o1 c1] t1]|] eqn:E1; [|done] end.
    apply (task_goes fs0 sv _ _ rest c) in E1 as [-> Hp1]; [|done|done].
    injection E as <- <- <-. split; [done|]. by exists sv.
  - destruct (do_run_one_pops o rest (sched c) Hs Eq Ho) as (s & Ed & _ & Hpop). rewrite Ed in E.
    destruct (ready_goes fs0 sv o rest s c t Hp Eq Ho Hpop) as (cp & c1 & E1 & Hcp).
    unfold mbind at 1, svc_bind at 1, call_reactor at 1 in E. rewrite E1 in E.
    eapply completes_ends in E; [done|done..|]. destruct cp as [cp|].
    + eapply runs_pre; [|by apply (handle_runs running_inv ri_ok running_advanced fs0)]. by intros ? ? [-> ->].
    + intros ? ? ? ? ? [-> ->] [= <- <- <-]. by exists sv.
Qed.

(** * The start *)

(** The acceptor's socket, a stream that the reactor took. *)
Record acceptor_ready (c : context (machine B)) (impl : implementation) (c' : context (machine B)) : Prop := {
  ar_open : is_open (base impl) = true;
  ar_stream : has (state_ (base impl)) stream_oriented = true;
  ar_type : ip.type (protocol_ impl) = SOCK_STREAM;
  ar_registered : exists e q, register_descriptor (socket_of impl) c = Ret (e, q, c') /\
    reactor_data_ (base impl) = Some q
}.

Lemma open_goes e (c : context (machine B)) t impl ec c' t' :
  context_ok c -> open new_implementation e ec_success c t = Some (Ret (impl, ec), c', t') ->
  ec_is_error ec = false -> ip.type e = SOCK_STREAM -> is_open (base impl) = true ->
  acceptor_ready c impl c' /\ (Forall answer_ok t -> Forall answer_ok t').
Proof.
  intros Hok E He Htype Ho. unfold open, do_open in E. rewrite Htype in E.
  unfold mbind, svc_bind, call_os, call_reactor in E. change (is_open (base new_implementation)) with false in E.
  cbv beta iota in E. destruct (socket _ _ _ _ t) as [[[s ec1] t1]|] eqn:Es; [|done].
  unfold socket in Es. sys_inv.
  destruct (Z.eqb_spec (an_result a) invalid_socket) as [Hi|Hi].
  { by injection E as <- _ _ _. }
  destruct (register_descriptor_spec (an_result a) c (proj1 Hok)) as (x & q & c1 & Er & _).
  change (register (an_result a) c) with (register_descriptor (an_result a) c) in E. rewrite Er in E.
  cbv iota in E. destruct (Z.eqb_spec x 0) as [->|Hx].
  - injection E as <- <- <- <-. split; [|by intros [_ ?]%Forall_cons]. split; [done|by vm_compute|done|].
    by eexists 0, q.
  - unfold mbind, svc_bind, call_os in E. cbn [negb] in E. cbv iota in E.
    destruct (destroy_holder _ _) as [[? ?]|]; [|done]. by injection E as <- _ _ _.
Qed.

Lemma server_acceptor_goes (c : context (machine B)) t impl c' t' :
  context_ok c -> Forall answer_ok t -> server_acceptor c t = Some (Ret impl, c', t') ->
  acceptor_ready c impl c' /\ Forall answer_ok t'.
Proof.
  intros Hok Ht E. unfold server_acceptor, new_acceptor in E.
  apply svc_bind_Ret in E as ([impl1 ec1] & c1 & t1 & Eopen & E).
  apply svc_bind_Ret in E as (u & c2 & t2 & (He1 & -> & ->)%throw_error_Ret & E). clear u.
  apply svc_bind_Ret in E as ([impl2 ec2] & c2 & t2 & Eset & E).
  unfold set_option in Eset.
  apply svc_bind_Ret in Eset as ([impl3 ec3] & c3 & t3 & Eset & Ethrow).
  apply svc_bind_Ret in Ethrow as (u & c4 & t4 & (He3 & -> & ->)%throw_error_Ret & Eret). clear u.
  injection Eret as <- <- <- <-.
  apply svc_bind_Ret in Eset as ([[n state] ec4] & c4 & t4 & [Eset ->]%call_os_Ret & Eret).
  injection Eret as <- <- <- <-.
  assert (is_open (base impl1) = true /\ state = state_ (base impl1)) as [Ho ->].
  { unfold setsockopt in Eset. unfold is_open. fold (socket_of impl1).
    destruct (socket_of impl1 =? invalid_socket) eqn:Hi; [injection Eset as _ _ <- _; done|]. split; [done|].
    simpl in Eset. sys_inv. done. }
  apply svc_bind_Ret in E as (ec5 & c5 & t5 & Ebind & E).
  apply svc_bind_Ret in Ebind as ([n5 ec6] & c6 & t6 & [Ebind ->]%call_os_Ret & Eret).
  injection Eret as <- <- <-.
  apply svc_bind_Ret in E as (u & c7 & t7 & (_ & -> & ->)%throw_error_Ret & E). clear u.
  apply svc_bind_Ret in E as (ec8 & c8 & t8 & Elisten & E).
  apply svc_bind_Ret in Elisten as ([n8 ec9] & c9 & t9 & [Elisten ->]%call_os_Ret & Eret).
  injection Eret as <- <- <-.
  apply svc_bind_Ret in E as (u & c10 & t10 & (_ & -> & ->)%throw_error_Ret & E). clear u.
  injection E as <- <- <-.
  destruct (open_goes _ _ _ _ _ _ _ Hok Eopen He1 eq_refl Ho) as [[R1 R2 R3 R4] T1].
  split; [by split|].
  eapply any_answers; [|exact Elisten|]; [unfold SocketOps.listen; only_calls|].
  eapply any_answers; [|exact Ebind|]; [unfold SocketOps.bind; only_calls|].
  eapply any_answers; [|exact Eset|by apply T1]. unfold setsockopt. only_calls.
Qed.

(** The memory at the start. *)
Lemma at_work_begin fs one_thread interrupter timer_fd x answers t :
  given x = ∅ -> Forall answer_ok answers -> Forall answer_ok t ->
  at_work idle_inv [] fs None (fun _ => False)
    (begin one_thread interrupter timer_fd [] (new_machine x answers fs)) t.
Proof.
  intros Hg Ha Ht.
  destruct (begin_spec one_thread interrupter timer_fd [] (new_machine x answers fs)) as (_ & Hp & _ & _ & Hs & _).
  { constructor. } { constructor. } { done. } { exact Hg. }
  assert (same_program (new_machine x answers fs)
    (world (begin one_thread interrupter timer_fd [] (new_machine x answers fs)))) as S.
  { apply (reaches_same_program (mkContext (scheduler.new one_thread) (reactor.mk 0 0 [] false ∅ [] []) _)).
    apply begin_reaches. }
  split; [apply idle_begin; (constructor || done)|done|]. split; [|by apply results_nothing| | |done].
  - eapply (memory_same [] fs None _ ∅ _ (new_machine x answers fs)); [exact S|apply map_empty_subseteq|].
    split; try done.
    + intros y. unfold tasks. simpl. rewrite fmap_empty. split; [by intros [? ?]|done].
    + split; [by intros [i|] b; [|intros [= <-]]|]. by intros [i|] [j|].
  - rewrite Hp. constructor.
  - intros id. rewrite Hp, (sp_tasks _ _ S). unfold tasks. simpl. rewrite fmap_empty, lookup_empty.
    split; [by intros ?%elem_of_nil|by intros [? ?]].
Qed.

(** The acceptor's socket is stored, and its operation starts. *)
Lemma server_start_goes fs (c : context (machine B)) t c' t' :
  at_work idle_inv [] fs None (fun _ => False) c t -> server_start c t = Some (Ret (), c', t') ->
  at_work idle_inv [] fs (Some new_connection_object) (in_flight []) c' t'.
Proof.
  intros A E. pose proof A as [Hidle Hs [M R N P T]]. apply svc_bind_Ret in E as (impl & c1 & t1 & Eacc & E).
  destruct (server_acceptor_goes _ _ _ _ _ (id_ok _ Hidle) T Eacc) as [[R1 R2 R3 (e & q & Er & Eq)] Ht1].
  destruct (register_descriptor_spec (socket_of impl) c (proj1 (id_ok _ Hidle))) as (e1 & q1 & c2 & Er1 & Ac).
  rewrite Er in Er1. injection Er1 as <- <- <-.
  pose proof (register_reaches _ _ _ _ _ Er) as W. pose proof (reaches_same_program _ _ W) as S.
  destruct (live_of_register _ _ _ _ _ (proj1 (id_ok _ Hidle)) Er) as [Hq El].
  assert (at_work idle_inv [] fs None (fun _ => False) (set_world (set_acceptor (world c1) impl) c1) t1) as A1.
  { eapply (at_work_then idle_inv idle_advanced [] [] fs fs None None); [exact A|exact Ac|exact W| |done..|].
    - by eapply (results_register False (transfer_waits []) (transfer_finished []) nothing_waits).
    - assert (memory_ok [] fs None (fun _ => False) (live_of c) (world c1)) as M1 by by eapply memory_same.
      destruct M1 as [N1 N2 N3 N4 N5 N6 N7 N8]. apply length_zero_iff_nil in N5.
      split; try done; [|simpl; by rewrite N5]. split.
      + intros [i|] b; simpl; [by rewrite N5|]. intros [= <-]. unfold held. rewrite R1. split; [|done].
        exists q. split; [done|]. by rewrite El, lookup_insert_eq.
      + intros [i|] [j|] b b'; simpl; rewrite ?N5; done. }
  destruct (startAccept_runs idle_inv id_ok idle_advanced [] fs None (fun _ => False) (fun f => f) _ _ _ _ _ A1 E)
    as ([] & _ & A2).
  eapply at_work_who; [|exact A2]. intros [i|]; simpl; [|naive_solver]. naive_solver.
Qed.

(** The process that enters the loop. *)
Lemma process_enters_ok fs c t c' t' s :
  at_work idle_inv [] fs None (fun _ => False) c t -> server_start c t = Some (Ret (), c', t') ->
  scheduler.run_enter (sched c') = (true, s) -> process_ok fs (TcpServer fs) (set_sched s c') t'.
Proof.
  intros A E Es. destruct (server_start_goes _ _ _ _ _ A E) as [Hidle Hs [M R N P T]].
  destruct (enter_spec c' s Hidle Es) as (Hl & Ep & Est).
  split; [done|done|constructor|done|by rewrite <- Hs|]. split; [done| |by rewrite Ep|by intros id; rewrite Ep|done].
  unfold scheduler.run_enter in Es. destruct (_ =? 0); [done|]. injection Es as <-.
  apply results_sched; [done|apply R|constructor].
Qed.

(** * The process *)

Lemma process_reachable_ok fs x answers calls st c t :
  given x = ∅ -> Forall answer_ok answers -> Forall answer_ok calls ->
  process_starts fs x answers calls st -> rtc process_step st (c, t) ->
  exists sv, process_ok fs sv c t.
Proof.
  intros Hg Ha Hc Hstart Hrun.
  assert (exists sv, process_ok fs sv st.1 st.2) as Hst.
  { destruct Hstart as [one_thread interrupter timer_fd c0 t0 s E _ Es]. exists (TcpServer fs).
    eapply process_enters_ok; [|exact E|exact Es]. by apply at_work_begin. }
  clear Hstart. remember (c, t) as st' eqn:Est. revert Hst Est.
  induction Hrun as [st|st st1 st2 Hs _ IH]; intros [sv Hsv] ->; [by exists sv|].
  apply IH; [|done]. destruct Hs as [c0 t0 c1 t1 E _].
  destruct (process_round_spec fs sv c0 t0 _ c1 t1 Hsv E) as (_ & sv' & _ & Hsv'). by exists sv'.
Qed.

(** The server that the process is at.  The acceptor and every connection with an
    operation have one that is pending, and no others do; the container of a connection
    holds what was received so far of the transfer it waits for. *)
Record stands_for (sv : server) (c : context (machine B)) : Prop := {
  sf_files : m_files (world c) = sv_fs sv;
  sf_connections : length (m_connections (world c)) = length (sv_slots sv);
  sf_accepting : co_connection <$> m_accepting (world c) = sv_accepting sv;
  sf_distinct : NoDup (pending c);
  sf_once id id' x : id ∈ pending c -> id' ∈ pending c -> tasks (world c) !! id = Some x ->
    tasks (world c) !! id' = Some x -> id = id';
  sf_waiting x : (exists id, id ∈ pending c /\ tasks (world c) !! id = Some x) <-> in_flight (sv_slots sv) x;
  sf_transfers id i op socket state buffers bufs :
    id ∈ pending c -> m_ops (world c) !! id = Some (transfer_object i op socket state buffers bufs) ->
    exists s co d, sv_slots sv !! i = Some s /\ sl_op s = Some op /\ m_connections (world c) !! i = Some co /\
      co_connection co = fill op d (sl_conn s) /\ (length d <= read_size op (sl_conn s))%nat
}.

Lemma transferring_fills op sc c buffers n :
  transferring op sc c buffers n -> exists d, c = fill op d sc /\ (length d <= read_size op sc)%nat.
Proof.
  intros [Hok Hb Hn (d & -> & Hd)]. exists d. split; [done|]. destruct (is_write op) eqn:Ew.
  { subst d. simpl. lia. }
  destruct (size_buffer_of op sc Ew) as [Hsize _]. pose proof (zlen_rest _ Hok) as Hrest.
  rewrite Hb, Hsize in Hrest. unfold zlen in Hd. lia.
Qed.

Lemma process_stands fs sv c t : process_ok fs sv c t -> stands_for sv c.
Proof.
  intros [Hr _ _ _ _ [M R N P T]].
  assert (forall id x, tasks (world c) !! id = Some x -> id ∈ pending c) as Hp
    by (intros id x Hx; apply P; by exists x).
  split; try done.
  - apply (mo_files _ _ _ _ _ _ M).
  - apply (mo_length _ _ _ _ _ _ M).
  - rewrite (mo_accepting _ _ _ _ _ _ M).
    by rewrite (si_accepting _ _ (server_steps_inv fs _ _ Hr (server_inv_start fs))).
  - intros id id' x _ _. apply (mo_one _ _ _ _ _ _ M).
  - intros x. rewrite <- (mo_who _ _ _ _ _ _ M x). split; [intros (id & _ & Hx); by exists id|].
    intros [id Hx]. exists id. split; [by eapply Hp|done].
  - intros id i op socket state buffers bufs Hid Ho.
    assert (exists n, underway (sv_slots sv) (world c) id n) as (n & _ & _ & Hu).
    { destruct (results_pending _ _ _ id c Hid R) as [(r & Hu & _)|[(ec & n & Hu & _)|[]]]; eauto. }
    rewrite Ho in Hu. destruct Hu as (s & co & Hs & Hco & Hop & Htr).
    destruct (transferring_fills _ _ _ _ _ Htr) as (d & Ed & Hd). by exists s, co, d.
Qed.

(** C2. Every run of the server's process, whatever the system answers and in whatever
    order its operations become ready, is a run of the server's specification: at every
    round of the loop there is a server that the specification reaches, with the
    process' files and connections; the acceptor and the connections in flight there,
    and no others, have an operation that waits in the process, each one; and the
    container of a connection that reads holds no more than the bytes asked for.  When
    a round throws, the specification makes a step that throws the same, and leaves
    the process' files. *)
Theorem server_process_refines fs x answers calls st c t
    (Hgiven : given x = ∅) (Hanswers : Forall answer_ok answers) (Hcalls : Forall answer_ok calls)
    (Hstart : process_starts fs x answers calls st) (Hrun : rtc process_step st (c, t)) :
  exists sv, rtc server_step (TcpServer fs) sv /\ stands_for sv c /\
    forall e c' t', process_round c t = Some (Throw e, c', t') ->
      exists sv', server_step sv sv' /\ sv_thrown sv' = Some e /\ m_files (world c') = sv_fs sv'.
Proof.
  destruct (process_reachable_ok _ _ _ _ _ _ _ Hgiven Hanswers Hcalls Hstart Hrun) as [sv Hsv].
  exists sv. split; [apply Hsv|]. split; [by eapply process_stands|].
  intros e c' t' E. destruct (process_round_spec _ _ _ _ _ _ _ Hsv E) as (sv' & [Hs He _] & Hfs). by exists sv'.
Qed.

(** The answers of the system so far do not matter to the state. *)
Lemma process_ok_trace fs0 sv c t t' : process_ok fs0 sv c t -> Forall answer_ok t' -> process_ok fs0 sv c t'.
Proof. intros [? ? ? ? ? [? ? ? ? ?]] Ht. by split; [..|split]. Qed.

(** C4. The server's process goes on for ever, but for one exception: at every round
    something is pending; whatever the system answers to its calls, the round ends; and
    if the answers are as the system documents them, [run] neither returns nor waits
    for another thread, nothing is undefined, and nothing is thrown but the
    [filesystem_error] of [is_regular_file], by the handler that saves the horcruxes of a
    connection, when [stat] fails for the name of one of them. *)
Theorem server_process_goes_on fs x answers calls st c t
    (Hgiven : given x = ∅) (Hanswers : Forall answer_ok answers) (Hcalls : Forall answer_ok calls)
    (Hstart : process_starts fs x answers calls st) (Hrun : rtc process_step st (c, t)) :
  pending c <> [] /\
  (forall next : nat -> answer, exists cs o c', process_round c (answered next 0 cs) = Some (o, c', [])) /\
  (forall t' o c' t'', Forall answer_ok t' -> process_round c t' = Some (o, c', t'') ->
    o = Ret run_goes \/
    exists sv e i s, o = Throw e /\ stands_for sv c /\ sv_slots sv !! i = Some s /\
      sl_op s = Some (WritingResponse NextSaveHorcruxes) /\
      connection_fails (sl_conn s) (m_files (world c)) (m_files (world c')) e).
Proof.
  destruct (process_reachable_ok _ _ _ _ _ _ _ Hgiven Hanswers Hcalls Hstart Hrun) as [sv Hsv].
  split; [eapply accept_pending, Hsv|]. split.
  - intros next. destruct (process_round_answerable c next 0%nat) as (cs & o & c' & E).
    exists cs, o, c'. rewrite <- (app_nil_r (answered _ _ _)). apply E.
  - intros t' o c' t'' Ht E. pose proof (process_ok_trace _ _ _ _ _ Hsv Ht) as Hsv'.
    pose proof (process_round_spec _ _ _ _ _ _ _ Hsv' E) as Ho. destruct o as [r|e|]; [|right|done].
    { left. by destruct Ho as [-> _]. }
    destruct Ho as (sv' & [_ _ (i & s & Hi & Hop & Hf)] & Hfs).
    pose proof (process_stands _ _ _ _ Hsv) as Hstands. exists sv, e, i, s.
    by rewrite Hfs, (sf_files _ _ Hstands).
Qed.

(** Nothing of [fs] is lost in [fs'], and what is new is a horcrux of somebody. *)
Definition only_horcruxes_added (fs fs' : filesystem) : Prop :=
  fs ⊆ fs' /\
  forall p, fs !! p = None -> fs' !! p <> None -> exists uuid k, 0 <= k < 20 /\ p = save_path uuid k.

Lemma server_only_adds fs sv : rtc server_step (TcpServer fs) sv -> only_horcruxes_added fs (sv_fs sv).
Proof.
  intros Hr. pose proof (server_steps_inv fs _ _ Hr (server_inv_start fs)) as Hinv. split; [apply Hinv|].
  intros p Hp Hp'. destruct (si_blamed _ _ Hinv p Hp Hp') as (i & s & _ & Hs & Hf & k & Hk & ->).
  destruct Hf as (_ & (Hn & Hmax & _) & _). destruct (si_slots _ _ Hinv i s Hs) as [((_ & _ & Hcfg) & _) _].
  unfold state_of in Hcfg. cbn in Hcfg. rewrite Hcfg in Hmax. cbn in Hmax.
  exists (slot_uuid s), k. split; [lia|done].
Qed.

(** C5. The server's process destroys nothing: the files and directories that existed
    when it started stay as they were, and every new file is in the process' directory,
    under a name that horcruxes have: an identifier and a number below 20; also after a
    round that throws. *)
Theorem server_process_storage_safe fs x answers calls st c t
    (Hgiven : given x = ∅) (Hanswers : Forall answer_ok answers) (Hcalls : Forall answer_ok calls)
    (Hstart : process_starts fs x answers calls st) (Hrun : rtc process_step st (c, t)) :
  only_horcruxes_added fs (m_files (world c)) /\
  forall o c' t', process_round c t = Some (o, c', t') -> only_horcruxes_added fs (m_files (world c')).
Proof.
  destruct (process_reachable_ok _ _ _ _ _ _ _ Hgiven Hanswers Hcalls Hstart Hrun) as [sv Hsv].
  assert (forall sv c t, process_ok fs sv c t -> only_horcruxes_added fs (m_files (world c))) as Hok.
  { intros sv1 c1 t1 H1'. rewrite (sf_files _ _ (process_stands _ _ _ _ H1')). apply server_only_adds, H1'. }
  split; [by eapply Hok|]. intros o c' t' E.
  pose proof (process_round_spec _ _ _ _ _ _ _ Hsv E) as Ho. destruct o as [r|e|]; [| |done].
  - destruct Ho as (_ & sv' & _ & Hsv'). by eapply Hok.
  - destruct Ho as (sv' & [Hs _ _] & ->). apply server_only_adds.
    eapply rtc_r; [apply (pr_reached _ _ _ _ Hsv)|exact Hs].
Qed.
End Process.

(** * Witnesses *)

Section Examples.
#[local] Instance toy_ctl_errors : CtlErrors toy.
Proof. by intros op fd events [] w errno. Qed.

(** Some rounds. *)
Fixpoint process_rounds `{OS} (n : nat) (st : context (machine toy) * sys_trace) :
    context (machine toy) * sys_trace :=
  match n with
  | O => st
  | S n =>
      match process_round st.1 st.2 with
      | Some (Ret run_goes, c, t) => if m_stuck (world c) then st else process_rounds n (c, t)
      | _ => st
      end
  end.

Lemma process_rounds_steps `{OS} n st :
  rtc process_step st ((process_rounds n st).1, (process_rounds n st).2).
Proof.
  rewrite <- surjective_pairing. revert st. induction n as [|n IH]; intros [c t]; simpl; [done|].
  destruct (process_round c t) as [[[[[]|?|] c'] t']|] eqn:E; try done.
  destruct (m_stuck (world c')) eqn:Es; [done|]. eapply rtc_l; [by constructor|]. apply IH.
Qed.

(** A client that connects once the acceptor waits, and sends one horcrux of four bytes;
    its first header comes in two pieces. *)
Definition ex_events : toy := mkToy ∅ [[]; [(at_descriptor 1, EPOLLIN)]; [(at_descriptor 2, EPOLLIN)]] false.

Lemma ex_given : given ex_events = ∅.
Proof. done. Qed.

Definition ex_pre_header : bytes :=
  object_repr (PreRequestHeader.mk 9 0 1) (new_object (PreRequestHeader.mk 9 0 1)).

Definition ex_header : bytes := object_repr (Request.mkHeader 9 0 4 0) (replicate 24 Byte.x00).

Definition receives (s : Z) (bs : bytes) : sys_call * answer :=
  (SysRecv s (length bs) 0, mkAnswer (zlen bs) 0 bs 0).

Definition sends (s : Z) (bs : bytes) : sys_call * answer := (SysSend s bs MSG_NOSIGNAL, ok_answer (zlen bs)).

Definition ex_answers : sys_trace :=
  [(SysAccept 9 None, failure 11); (SysAccept 9 None, ok_answer 10);
   (SysRecv 10 16 0, mkAnswer 10 0 (take 10 ex_pre_header) 0); (SysAccept 9 None, failure 11);
   receives 10 (drop 10 ex_pre_header); sends 10 (lit "SUCCESS"); receives 10 ex_header;
   receives 10 (lit "data"); sends 10 (lit "SUCCESS")].

Definition ex_calls : sys_trace :=
  listen_trace ++
  [(SysIoctl 9 FIONBIO 1, mkAnswer 0 0 [] 1); (SysIoctl 10 FIONBIO 1, mkAnswer 0 0 [] 1);
   (SysClose 10, ok_answer 0)].

Definition ex_started : option (outcome () * context (machine toy) * sys_trace) :=
  server_start (begin false 3 (-1) [] (new_machine ex_events ex_answers example_out)) ex_calls.

Definition ex_entered : context (machine toy) * sys_trace :=
  match ex_started with
  | Some (_, c, t) => (set_sched (scheduler.run_enter (sched c)).2 c, t)
  | None => (begin false 3 (-1) [] (new_machine ex_events ex_answers example_out), [])
  end.

Lemma ex_process_starts : process_starts example_out ex_events ex_answers ex_calls ex_entered.
Proof.
  assert (exists c t, ex_started = Some (Ret (), c, t)) as (c & t & E) by (eexists _, _; by vm_compute).
  assert (ex_entered = (set_sched (scheduler.run_enter (sched c)).2 c, t)) as ->
    by (unfold ex_entered; by rewrite E).
  assert (match ex_started with
          | Some (_, c, _) => m_stuck (world c) = false /\ (scheduler.run_enter (sched c)).1 = true
          | None => False
          end) as Hs by (vm_compute; split; reflexivity).
  rewrite E in Hs. destruct Hs as [Hs He].
  eapply process_enters; [exact E|exact Hs|]. rewrite <- He. apply surjective_pairing.
Qed.

Lemma ex_answers_ok : Forall answer_ok ex_answers.
Proof. repeat (constructor; [first [by left|by right|done]|]). constructor. Qed.

Lemma ex_calls_ok : Forall answer_ok ex_calls.
Proof. repeat (constructor; [done|]). constructor. Qed.

(** Where [stat] fails for the name of the horcrux, the last round throws, and what was
    received is lost. *)
Definition ex_forbidden : context (machine toy) * sys_trace := process_rounds (H := forbidden_os) 15 ex_entered.

Lemma forbidden_round_throws :
  match process_round (H0 := forbidden_os) ex_forbidden.1 ex_forbidden.2 with
  | Some (Throw (std_filesystem_error code), c, _) => Some (code, m_files (world c) !! save_path 9 0)
  | _ => None
  end = Some (13, None).
Proof. vm_compute. reflexivity. Qed.

#[local] Existing Instance simple_os.

(** The connection is over, and its horcrux is stored. *)
Definition ex_stored : context (machine toy) * sys_trace := process_rounds 16 ex_entered.

Lemma server_process_refines_witness :
  m_files (world ex_stored.1) !! save_path 9 0 = Some (RegularFile (lit "data")) /\
  exists sv, rtc server_step (TcpServer example_out) sv /\ stands_for sv ex_stored.1 /\
    sv_fs sv !! save_path 9 0 = Some (RegularFile (lit "data")).
Proof.
  assert (m_files (world ex_stored.1) !! save_path 9 0 = Some (RegularFile (lit "data"))) as Hf
    by (vm_compute; reflexivity).
  split; [exact Hf|].
  destruct (server_process_refines example_out ex_events ex_answers ex_calls ex_entered ex_stored.1 ex_stored.2
    ex_given ex_answers_ok ex_calls_ok ex_process_starts (process_rounds_steps 16 ex_entered)) as (sv & Hr & Hs & _).
  exists sv. split; [exact Hr|]. split; [exact Hs|]. rewrite <- (sf_files _ _ Hs). exact Hf.
Defined.

(** The acceptor and the connection wait, and the next round waits for the events. *)
Definition ex_waiting : context (machine toy) * sys_trace := process_rounds 6 ex_entered.

Lemma ex_waiting_trace : Forall answer_ok ex_waiting.2.
Proof.
  assert (exists t, ex_waiting.2 = t /\ t = drop (length ex_calls - length t) ex_calls) as (t & -> & ->)
    by (eexists; split; vm_compute; reflexivity).
  apply Forall_drop, ex_calls_ok.
Qed.

Lemma server_process_goes_on_witness :
  (exists c t, process_round ex_waiting.1 ex_waiting.2 = Some (Ret run_goes, c, t)) /\
  exists cs o c, process_round ex_waiting.1 (answered (fun _ => ok_answer 0) 0 cs) = Some (o, c, []).
Proof.
  destruct (server_process_goes_on example_out ex_events ex_answers ex_calls ex_entered ex_waiting.1 ex_waiting.2
    ex_given ex_answers_ok ex_calls_ok ex_process_starts (process_rounds_steps 6 ex_entered)) as (_ & Ha & Hgo).
  split; [|exact (Ha (fun _ => ok_answer 0))].
  assert (match process_round ex_waiting.1 ex_waiting.2 with Some _ => true | None => false end = true) as Hsome
    by (vm_compute; reflexivity).
  destruct (process_round ex_waiting.1 ex_waiting.2) as [[[o c] t]|] eqn:E; [|discriminate Hsome].
  clear Hsome. destruct (Hgo _ _ _ _ ex_waiting_trace E) as [->|(sv & e & i & s & _ & _ & _ & _ & Hf)].
  - exists c, t. reflexivity.
  - destruct Hf as (k & code & _ & _ & Hst & _). discriminate Hst.
Defined.

Lemma server_process_storage_safe_witness :
  m_files (world ex_stored.1) !! kOutPath = Some Directory /\
  exists uuid k, 0 <= k < 20 /\ save_path 9 0 = save_path uuid k.
Proof.
  destruct (server_process_storage_safe example_out ex_events ex_answers ex_calls ex_entered ex_stored.1
    ex_stored.2 ex_given ex_answers_ok ex_calls_ok ex_process_starts (process_rounds_steps 16 ex_entered))
    as [[Hk Hn] _].
  split; [apply (lookup_weaken _ _ _ _ (eq_refl : example_out !! kOutPath = Some Directory) Hk)|].
  apply Hn; [vm_compute; reflexivity|vm_compute; discriminate].
Defined.

End Examples.
